(* ===== verification/_CoqProject ===== *)
-Q . S2P
Prelude.v
Protocol.v
SafeContainers.v
Locking.v
Util.v
Backtrace.v
Version.v
Logger.v
IoContextPool.v
PoolRun.v
RedisValue.v
RedisParser.v
RedisParserFacts.v
RedisClient.v
RedisBuffer.v
RedisAsync.v
RedisReplies.v
RedisPubSub.v
RedisSync.v
SessionStore.v
SessionDb.v
DbMonitor.v
World.v
Config.v
Startup.v
SessionOut.v
Channel.v
SessionMgr.v
Session.v
Server.v
Scenario.v
Frames.v
Registry.v
SessionMachine.v
Refinement.v
Acceptors.v
SessionFacts.v
Typing.v
RequestFacts.v
ChannelFacts.v
ChannelTyping.v
Displayer.v
Shutdown.v
ChannelLinks.v
ProxyRace.v
Incidents.v
