(* ===== verification/Prelude.v ===== *)
(** * Verification of the nat_proxy_asio server

    ** The program

    nat_proxy_asio is a C++/boost.asio server that lets a client behind a NAT
    reach a server behind another one.  Both connect by TCP and log in; the
    client asks for the list of servers and then for a proxy to one of them;
    the program opens a pair of UDP ports, a _channel_, and relays datagrams
    between the two.  Its parts (paths are below the repository's [src/]
    directory of the sources):

    - [net/CServer]: accepts TCP connections, makes a [CSession] for each and
      counts them ([_conn_num], limit [maxSessions]);
    - [net/CSession]: one TCP connection.  Reads packets (header, then body),
      parses and dispatches them, writes answers through a queue with at most
      one write outstanding, runs the idle timer until login, and keeps the
      maps of the channels it is source or destination of;
    - [net/CSessionMgr]: the GUIDs in use, the directory from session ids to
      sessions (weak pointers), the id counters;
    - [net/CSessionDb]: the published list of servers, maintained by a worker
      thread from a queue of operations and mirrored to redis;
    - [net/CChannel]: the two UDP ends of a channel, the coroutines that
      authenticate them and relay, the expiry checkers, the shutdown;
    - [net/CProtocol]: packet layouts, request parsers, response writers;
    - [net/CIoContextPool]: the pool of I/O contexts and their threads;
    - [util/]: mutex-guarded containers, formatting helpers, the configuration
      ([CConfig]), the log file ([CLogger]), becoming a daemon;
    - [redisclient/]: the redis client library bundled with the program, an
      asynchronous client with publish/subscribe and a synchronous one;
    - [main.cpp]: reads the configuration and starts the server.

    A connection is accepted by the server, which starts the session; the
    session calls the manager to log in, the manager reports to the database
    and hands out channels; a channel tells both its sessions when it stops; a
    session that stops tells its channels, the manager and, through it, the
    server.

    ** The files

    Models of components, bottom up:

    - [Prelude.v] (this file): bytes, little-endian integers, wrap-around, the
      outcomes of C++ code ([outcome]: a value, an exception, undefined
      behaviour) and their monad, memory blocks, tactics and hint databases;
    - [Protocol.v]: [CProtocol.hpp], [CProtocol.cpp];
    - [SafeContainers.v]: [CSafeSet.hpp], [CSafeMap.hpp], and [CChannelMap] of
      [CChannel.hpp], one Module each, a method being one step; [Locking.v]: the
      same methods as critical sections that threads interleave;
    - [Util.v]: [to_string], [to_hex], [formatBytes] of [util.hpp], [util.cpp];
      [Backtrace.v]: [printBacktrace] and [steady_clock_to_time_t]; [Version.v]:
      the macros of [version.h];
    - [IoContextPool.v]: [CIoContextPool.hpp], [CIoContextPool.cpp], the pool as
      an object; [PoolRun.v]: [run] and [startThread] with their threads;
    - [RedisValue.v], [RedisParser.v]: [redisvalue.cpp], [redisparser.cpp];
      [RedisParserFacts.v]: a byte-wise reference parser and the proof that the
      recursive parser computes it;
    - [RedisClient.v]: [redisclientimpl.cpp], the command path and the reply
      path in both modes; [RedisBuffer.v]: [redisbuffer.h] and the encoding of a
      command from pointers to its items; [RedisAsync.v]: [redisasyncclient.cpp], the interface,
      with the order of commands and replies; [RedisReplies.v]: how replies are
      written, and that the client reads them back; [RedisPubSub.v]: what
      subscribers get, and what subscribing breaks; [RedisSync.v]:
      [redissyncclient.cpp] and [doSyncCommand];
    - [SessionStore.v]: the interface the manager has with the database, as a
      type class of operations and one of laws;
    - [SessionDb.v]: [CSessionDb.hpp], [CSessionDb.cpp], an instance of it, the
      worker taking one step per iteration; [DbMonitor.v]: the same database as a
      monitor, worker and callers interleaved at every operation on the mutex and
      the condition variable;
    - [World.v]: the fields of [CSession], [CChannel], [CSessionMgr] and
      [CServer], the heap they live in and the state monad [M] over it;
    - [Config.v]: [CConfig.hpp]; [Logger.v]: [CLogger.cpp] and the older
      [Debug/logger.cpp]; [Startup.v]:
      [main.cpp], [util::daemon] and the start and stop of [CServer], as trees of
      system calls that an arbitrary operating system answers;
    - [SessionOut.v], [Session.v]: [CSession.cpp], split where the calls
      between sessions and channels turn around; [Channel.v]: [CChannel.cpp];
      [SessionMgr.v]: [CSessionMgr.cpp]; [Server.v]: [CServer.cpp], and the
      whole program as a step relation ([step], [reach]).

    Specifications and proofs about the whole program:

    - [Scenario.v]: concrete runs (two logins, an open channel) on which the
      theorems are instantiated;
    - [Registry.v]: an abstract machine that specifies who is connected,
      logged in and published, with its invariants;
    - [Frames.v]: what the channel code leaves alone;
    - [SessionMachine.v]: one session seen on its own, and that every handler
      moves every session along that machine;
    - [Refinement.v]: the program simulates the registry, and what follows;
    - [Acceptors.v]: several acceptors, each a coroutine of its own, racing on
      the connection counter;
    - [SessionFacts.v], [RequestFacts.v], [ChannelFacts.v]: properties of
      sessions, of requests and teardown, of channels; [Typing.v],
      [ChannelTyping.v]: the ranges of the numbers that sessions and channels
      hold, and the sizes of their buffers;
    - [Displayer.v]: what the display coroutine of a channel reports;
    - [Shutdown.v]: the destruction of the sessions and channels at shutdown;
    - [ChannelLinks.v]: the weak pointers between sessions and channels, and that
      no channel is forgotten; [ProxyRace.v]: a proxy request while another
      session stops, interleaved;
    - [Incidents.v]: concrete runs that show weaknesses.

    ** How code becomes definitions

    - A C++ object is a record with the members' names; an operation is a
      function on the record or, where it reaches other objects, on the [World].
      Methods that exist in several classes carry the class name
      ([CSession_stop], [CChannel_stop]).
    - Objects live in finite maps from addresses.  A [shared_ptr] or
      [weak_ptr] is an address; [lock()] is a lookup.  Addresses are taken from
      a counter and never reused, so a weak pointer never finds a different
      object, as with control blocks in C++.
    - Operations of boost.asio are state: an outstanding read, write or timer
      wait and the handlers posted on a strand are fields of the object that
      started them.  An [event] completes one of them and runs its handler.
      What the system answers (error codes, received bytes, chosen ports, the
      peer's address) is an argument of the event, so a theorem over all events
      holds for every answer.
    - A handler runs to its end before the next one starts; handlers of
      different objects interleave freely between their suspension points.
      Code with finer interleaving is modelled finer, in a step relation of its
      own: the containers ([lstep]), a proxy request and a session that stops
      ([race_move]), the database thread and its callers ([mon_step]), the unsynchronised index of the context pool ([get_step]), the
      threads of the pool ([pool_step]), the acceptors ([acceptor_step]).
    - A context has one thread ([PoolRun.v]: thread [i] runs context [i] only), so
      handlers on the same context never overlap.  A session and the channels it
      is an end of may be on different contexts; that the calls between them do
      not overlap is an assumption of the [World] model, not of the finer ones.
    - The build is the Release one: [NDEBUG] is set and [assert] does nothing.
    - Coroutines ([uploader], [downloader], [displayer], the expiry checkers)
      are state machines whose state is the point of suspension.  The relay
      coroutines own their channel and are part of its record.  An expiry checker
      holds a plain [this]: its frame is kept in the world ([checkers]) until it
      ends, and a step of it after the channel is gone is a use after free.
    - Nothing leaves a socket that is closed, or, without an address, one that is
      not connected; closing ends a connection.  What the completion of such an
      operation reports is still an argument of the event.
    - Integers keep their width ([wrap]); the platform is little-endian with
      signed [char].  Reads and writes of memory blocks check their bounds and
      give [UB] outside them.
    - A program that makes system calls is a tree ([prog]) with one branch per
      answer; [exec] is total, so a theorem about [exec] on every [os] is one
      about every behaviour of the system.
    - After an exception the program goes on ([goes_on]) with the other
      contexts, except for [bad_weak_ptr], which leaves a destructor and is taken
      to end the program, as it does where destructors are noexcept; what an
      older dialect would make of it is left out.
    - Every loop of the server either is structural on a list or suspends, and a
      suspended loop is a sequence of events: its functions need no fuel.  The
      reply parser is recursive in another way and takes fuel, linear in the
      chunk and the nesting ([parse_fuel]), which is proved to be enough: [parse]
      always returns.  Theorems that need the 32-bit session id not to wrap around
      count steps: fewer than 2^32 - 1001 of them from the start.

    ** What is a parameter

    The order in which a hash map is iterated ([IterOrder]: any order that
    enumerates the entries); the session database in everything above it
    ([SessionStore] with [SessionStoreLaws], discharged by [SessionDb.v]); the
    handler types of the redis client; whether [vector::reserve] in the reply
    parser finds the memory or throws ([Reserve]); boost.property_tree and
    boost.program_options ([PropertyTree], with the one law that a converted
    number fits its type, and [CommandLine]); which texts are addresses
    ([AddressSyntax]); the file system ([FileSystem]); the number of descriptors
    [NOFILE] of the system's headers and the thread id.

    ** What the theorems show

    - _Registry_ ([Refinement.v], on [Registry.v]): the program refines the
      registry; no GUID is logged in twice; the database with its queue applied
      and the directory are exactly the servers online, and so is the list that
      clients are sent once the queue is empty; the connection counter counts;
      the session limit, and by how much it is exceeded.
    - _Sessions_ ([SessionFacts.v]): read and write pipelines, message order,
      login is final and disarms the timer, what a failed write leaves behind;
      every number stays in the range of its C++ type and the receive buffer is
      bounded ([Typing.v], [ChannelTyping.v] for channels).
    - _Requests and teardown_ ([RequestFacts.v]): what a granted or refused
      proxy request, [CSession::stop] and [CChannel::stop] do, with nothing
      else changed.
    - _Channels_ ([ChannelFacts.v]): no relaying before authentication,
      faithful forwarding, shutdown drains every coroutine, expiry checkers that
      outlive their channel; the display accounts for all traffic ([Displayer.v]); every started channel
      can be stopped by each running owner, or is about to stop, and a channel id
      still in use is refused ([ChannelLinks.v]); a request that races with the
      stop of its destination is safe but for one window ([ProxyRace.v]).
    - _Database_ ([SessionDb.v]): the worker implements the abstract map, works
      off its queue, serialises it faithfully up to 255 entries, and overruns
      its buffer beyond.  With real locking ([DbMonitor.v]) it implements a log of
      operations along every run, no wake-up of [add] and [del] is lost, every
      schedule comes to rest with the published list up to date (with at most 255
      servers at a time), but the wake-up of [stop] can be lost.
    - _Protocol_ ([Protocol.v]): responses are well-framed, requests round
      trip, and the two bound checks that are wrong.
    - _Redis_ ([RedisBuffer.v], [RedisAsync.v], [RedisParserFacts.v],
      [RedisReplies.v], [RedisPubSub.v], [RedisSync.v]): commands are encoded
      faithfully, without a read outside their items, and sent in order; the
      parser refines its reference and does not depend on how the stream is cut;
      every reply, whatever its form, reaches its handler unchanged; a subscriber
      gets every message of its channel once and in order; subscribing loses the
      replies that are outstanding; a synchronous command returns its reply.
    - _Acceptors_ ([Acceptors.v]): with [k] acceptors the limit on sessions holds
      up to [k]; an acceptor that is not interrupted is the atomic handler.
    - _Configuration and start-up_ ([Config.v], [Startup.v]): settings keep their
      C++ types; which file is read and which addresses are listened on; what
      [daemon], [start] and [stop] do on every answer of the system; the exit
      status never reports a failure.
    - _Pool_ ([PoolRun.v]): while nothing throws every handler is executed, in
      order; an exception stalls its context for good; [stop] does not wait for
      the other threads before it frees the contexts they run.
      [IoContextPool.v]: round robin and its race.
    - _Shutdown_ ([Shutdown.v]): the destruction of the sessions and channels goes
      well only when no session is started; otherwise a destructor throws.
    - _Containers_ ([SafeContainers.v], [Locking.v]): set semantics; every method
      is atomic, whatever the interleaving of threads; a GUID is claimed by one
      thread at a time.
    - _Helpers_ ([Util.v], [Backtrace.v], [Version.v]): the formatting buffer, hex
      round trip, the crash report, the version texts.

    ** What is not modelled

    The text of log lines and what boost.log does with a record once the file,
    its filter and its format are set up; the set-up of an acceptor's socket
    ([open], [bind], [listen]); the creation of a thread that fails: system calls
    and calls to boost without a decision of the program's own.  The completion
    handlers [onRedisAuth], [onRedisSetSessionCompleted] and
    [onRedisDelSessionCompleted] only log.  Headers that only declare
    ([redisasyncclient.h], [redissyncclient.h], the class bodies of [CSession.hpp]
    and [CChannel.hpp]) have no definitions of their own beyond the fields.

    ** Limits

    Every component of the program is modelled.  What would make the picture
    finer is concurrency: the acceptors are not combined with the threads of the
    pool, and of the calls between sessions on different contexts only the proxy
    request is cut into pieces. *)
From stdpp Require Export base tactics numbers list gmap strings.
From Stdlib Require Export Lia.
From Stdlib Require Import Strings.Byte.

Declare Scope cpp_scope.
Delimit Scope cpp_scope with cpp.
#[global] Open Scope Z_scope.

(** ** Bytes, byte strings and little-endian integers *)

Abbreviation byte := Init.Byte.byte.
Abbreviation bytes := (list Init.Byte.byte).

#[global] Instance byte_eq_decision : EqDecision byte.
Proof. intros x y. exact (Byte.byte_eq_dec x y). Defined.

(** The unsigned value of a byte, and the byte an integer is truncated to. *)
Definition byte_Z (b : byte) : Z := Z.of_N (Byte.to_N b).
Definition Z_byte (z : Z) : byte :=
  match Byte.of_N (Z.to_N (z `mod` 256)) with Some b => b | None => Init.Byte.x00 end.

(** The value of a [char] that is widened: on the server's platform plain
    [char] is signed, so bytes from 0x80 on are negative. *)
Definition char_Z (b : byte) : Z := if byte_Z b <? 128 then byte_Z b else byte_Z b - 256.

Lemma byte_Z_range b : 0 ≤ byte_Z b < 256.
Proof. unfold byte_Z. pose proof (Byte.to_N_bounded b). lia. Qed.

Lemma Z_byte_Z b : Z_byte (byte_Z b) = b.
Proof.
  unfold Z_byte. rewrite Z.mod_small by apply byte_Z_range.
  unfold byte_Z. by rewrite N2Z.id, Byte.of_to_N.
Qed.

Lemma byte_Z_byte z : byte_Z (Z_byte z) = z `mod` 256.
Proof.
  unfold Z_byte. pose proof (Z.mod_pos_bound z 256 ltac:(lia)) as Hb.
  destruct (Byte.of_N (Z.to_N (z `mod` 256))) as [b|] eqn:E.
  - apply Byte.to_of_N in E. unfold byte_Z. rewrite E. lia.
  - apply Byte.of_N_None_iff in E. lia.
Qed.

#[global] Instance byte_Z_inj : Inj (=) (=) byte_Z.
Proof. intros x y E. by rewrite <-(Z_byte_Z x), <-(Z_byte_Z y), E. Qed.

#[global] Program Instance byte_countable : Countable byte :=
  inj_countable' Byte.to_N (fun n => default Init.Byte.x00 (Byte.of_N n)) _.
Next Obligation. intros x. simpl. by rewrite Byte.of_to_N. Qed.

(** A C string literal as the bytes it holds. *)
Definition lit (s : string) : bytes := String.list_byte_of_string s.

(** Unsigned wrap-around at a width, as the C++ unsigned types do it. *)
Definition wrap (w z : Z) : Z := z `mod` 2 ^ w.

(** The [n] low bytes of an integer in memory order (the code's [memcpy] from
    an integer on a little-endian machine), and back. *)
Fixpoint le_bytes (n : nat) (z : Z) : bytes :=
  match n with
  | O => []
  | S n => Z_byte z :: le_bytes n (z / 256)
  end.

Fixpoint le_Z (l : bytes) : Z :=
  match l with
  | [] => 0
  | b :: l => byte_Z b + 256 * le_Z l
  end.

Lemma length_le_bytes n z : length (le_bytes n z) = n.
Proof. revert z; induction n; intros z; simpl; auto. Qed.

Lemma le_Z_le_bytes n z : le_Z (le_bytes n z) = z `mod` 256 ^ Z.of_nat n.
Proof.
  revert z; induction n as [|n IH]; intros z; simpl le_bytes; simpl le_Z.
  - by rewrite Z.mod_1_r.
  - rewrite IH, byte_Z_byte, Nat2Z.inj_succ, Z.pow_succ_r by lia.
    rewrite Z.rem_mul_r by lia. lia.
Qed.

Lemma le_bytes_le_Z l : le_bytes (length l) (le_Z l) = l.
Proof.
  induction l as [|b l IH]; simpl; [done|].
  pose proof (byte_Z_range b) as Hb. f_equal.
  - apply (inj byte_Z). rewrite byte_Z_byte.
    rewrite Z.mul_comm, Z.mod_add by lia. by apply Z.mod_small.
  - rewrite Z.mul_comm, Z.div_add by lia.
    rewrite Z.div_small by lia. exact IH.
Qed.

Lemma le_Z_range l : 0 ≤ le_Z l < 256 ^ Z.of_nat (length l).
Proof.
  induction l as [|b l IH]; simpl length; [simpl; lia|].
  rewrite Nat2Z.inj_succ, Z.pow_succ_r by lia. simpl.
  pose proof (byte_Z_range b). lia.
Qed.

(** ** Outcomes of C++ code: a value, an exception, or undefined behaviour *)

Inductive cpp_exn :=
| length_error (* std::length_error *)
| bad_alloc (* std::bad_alloc *)
| system_error (* boost::system::system_error *)
| runtime_error (msg : bytes) (* std::runtime_error *)
| logic_error (msg : bytes) (* std::logic_error, with out_of_range and the errors of program_options *)
| bad_weak_ptr (* boost::bad_weak_ptr *).

Inductive cpp_ub :=
| out_of_bounds_read
| out_of_bounds_write
| empty_deque
| use_after_free.

Inductive outcome (A : Type) :=
| Ok (a : A)
| Throw (e : cpp_exn)
| UB (u : cpp_ub).
Arguments Ok {A} a.
Arguments Throw {A} e.
Arguments UB {A} u.

#[global] Instance outcome_ret : MRet outcome := fun A a => Ok a.
#[global] Instance outcome_bind : MBind outcome := fun A B f m =>
  match m with Ok a => f a | Throw e => Throw e | UB u => UB u end.

(** The outcome is not undefined behaviour. *)
Definition defined {A} (m : outcome A) : Prop :=
  match m with UB _ => False | _ => True end.

Definition is_Ok {A} (m : outcome A) : bool :=
  match m with Ok _ => true | _ => false end.

(** The value of an outcome that is known to be one. *)
Definition from_ok {A} (d : A) (m : outcome A) : A :=
  match m with Ok a => a | _ => d end.

Lemma ok_bind {A B} (a : A) (f : A -> outcome B) : (Ok a ≫= f) = f a.
Proof. done. Qed.

Lemma throw_bind {A B} e (f : A -> outcome B) : (Throw e ≫= f) = Throw e.
Proof. done. Qed.

Lemma ub_bind {A B} u (f : A -> outcome B) : (UB u ≫= f) = UB u.
Proof. done. Qed.

Lemma outcome_bind_Ok {A B} (m : outcome A) (f : A -> outcome B) b :
  (m ≫= f) = Ok b <-> exists a, m = Ok a /\ f a = Ok b.
Proof. destruct m as [a|e|u]; simpl; split; [eauto| |intros E|intros (?&?&?)|intros E|intros (?&?&?)]; try done. by intros (x&[= ->]&?). Qed.

Lemma defined_bind {A B} (m : outcome A) (f : A -> outcome B) :
  defined m -> (forall a, m = Ok a -> defined (f a)) -> defined (m ≫= f).
Proof. destruct m; simpl; auto. Qed.

(** ** Memory blocks *)

(** [memcpy] out of the block [m]: [len] bytes from offset [off]. *)
Definition mem_read (m : bytes) (off len : nat) : outcome bytes :=
  if decide (off + len ≤ length m)%nat then Ok (take len (drop off m))
  else UB out_of_bounds_read.

(** [memcpy] into the block [m] at offset [off]. *)
Definition mem_write (m : bytes) (off : nat) (d : bytes) : outcome bytes :=
  if decide (off + length d ≤ length m)%nat
  then Ok (take off m ++ d ++ drop (off + length d) m)
  else UB out_of_bounds_write.

Lemma mem_read_Ok m off len :
  (off + len ≤ length m)%nat -> mem_read m off len = Ok (take len (drop off m)).
Proof. intros H. unfold mem_read. by rewrite decide_True. Qed.

Lemma mem_read_UB m off len :
  (length m < off + len)%nat -> mem_read m off len = UB out_of_bounds_read.
Proof. intros H. unfold mem_read. rewrite decide_False by lia. done. Qed.

Lemma mem_write_Ok m off d :
  (off + length d ≤ length m)%nat ->
  mem_write m off d = Ok (take off m ++ d ++ drop (off + length d) m).
Proof. intros H. unfold mem_write. by rewrite decide_True. Qed.

Lemma mem_write_UB m off d :
  (length m < off + length d)%nat -> mem_write m off d = UB out_of_bounds_write.
Proof. intros H. unfold mem_write. rewrite decide_False by lia. done. Qed.

(** A write at the end of what has been written so far extends it. *)
Lemma mem_write_snoc (a z d : bytes) :
  (length d ≤ length z)%nat ->
  mem_write (a ++ z) (length a) d = Ok ((a ++ d) ++ drop (length d) z).
Proof.
  intros H. rewrite mem_write_Ok by (rewrite length_app; lia).
  rewrite take_app_length, drop_app_ge by lia. rewrite <-app_assoc.
  do 4 f_equal. lia.
Qed.

(** Reading inside a prefix does not see what follows it. *)
Lemma mem_read_app_l (m t : bytes) off len :
  (off + len ≤ length m)%nat -> mem_read (m ++ t) off len = mem_read m off len.
Proof.
  intros H. rewrite !mem_read_Ok by (rewrite ?length_app; lia).
  rewrite drop_app_le, take_app_le by (rewrite ?length_drop; lia). done.
Qed.

Lemma mem_read_at (a d z : bytes) off len :
  off = length a -> len = length d -> mem_read (a ++ d ++ z) off len = Ok d.
Proof.
  intros -> ->. rewrite mem_read_Ok by (rewrite !length_app; lia).
  by rewrite drop_app_length, take_app_length.
Qed.

Create Rewrite HintDb len.
Create HintDb cpp discriminated.
#[export] Hint Constants Transparent : cpp.
#[export] Hint Rewrite @length_app @length_take @length_drop @length_replicate
  @length_fmap @length_le_bytes @length_cons @length_nil : len.

(** Length arithmetic; a component adds its own size constants to [len_unfold]. *)
Ltac len_unfold := idtac.
Ltac len := autorewrite with len in *; len_unfold; simpl in *; lia.

(** Case analysis on the innermost condition of a definition under study. *)
Ltac case_cond :=
  match goal with
  | |- context [if ?b then _ else _] => lazymatch b with
      | context [if _ then _ else _] => fail
      | context [match _ with _ => _ end] => fail
      | _ => let E := fresh "E" in destruct b eqn:E
      end
  | |- context [match ?x with _ => _ end] => lazymatch x with
      | context [if _ then _ else _] => fail
      | context [match _ with _ => _ end] => fail
      | _ => let E := fresh "E" in destruct x eqn:E
      end
  end.

Ltac bool_to_Z :=
  repeat match goal with
  | H : (_ && _) = true |- _ => apply andb_true_iff in H; destruct H
  | H : (_ || _) = false |- _ => apply orb_false_iff in H; destruct H
  | H : (_ <? _) = true |- _ => apply Z.ltb_lt in H
  | H : (_ <? _) = false |- _ => apply Z.ltb_ge in H
  | H : (_ <=? _) = true |- _ => apply Z.leb_le in H
  | H : (_ <=? _) = false |- _ => apply Z.leb_gt in H
  | H : (_ =? _) = true |- _ => apply Z.eqb_eq in H
  | H : (_ =? _) = false |- _ => apply Z.eqb_neq in H
  | H : bool_decide _ = true |- _ => apply bool_decide_eq_true in H
  | H : bool_decide _ = false |- _ => apply bool_decide_eq_false in H
  end.
