(* ===== verification/Protocol.v ===== *)
(** * The wire protocol: packet header, request parsers, response writers

    Models [src/net/CProtocol.hpp] and [src/net/CProtocol.cpp]. *)
From S2P Require Import Prelude.

(** ** The packet header *)

Record TagPktHdr := {
  ucHead1 : byte;
  ucHead2 : byte;
  ucPrtVersion : byte;
  ucSvrVersion : byte;
  ucFunc : byte;
  ucKeyIndex : byte;
  usBodyLen : Z (* uint16_t *)
}.

(** [sizeof(TagPktHdr)]. *)
Definition sizeof_hdr : nat := 8.

(** The object representation of the header, which the code copies with [memcpy]. *)
Definition hdr_bytes (h : TagPktHdr) : bytes :=
  [ucHead1 h; ucHead2 h; ucPrtVersion h; ucSvrVersion h; ucFunc h; ucKeyIndex h]
  ++ le_bytes 2 (usBodyLen h).

Definition hdr_of_bytes (l : bytes) : TagPktHdr :=
  let at_ i := nth i l Init.Byte.x00 in
  {| ucHead1 := at_ 0%nat; ucHead2 := at_ 1%nat; ucPrtVersion := at_ 2%nat;
     ucSvrVersion := at_ 3%nat; ucFunc := at_ 4%nat; ucKeyIndex := at_ 5%nat;
     usBodyLen := le_Z (take 2 (drop 6 l)) |}.

(** A header whose integer field is in range, as every C++ header is. *)
Definition hdr_wf (h : TagPktHdr) : Prop := 0 ≤ usBodyLen h < 2 ^ 16.

Definition zero_hdr : TagPktHdr := hdr_of_bytes (replicate sizeof_hdr Init.Byte.x00).

Module HEADER.
Definition H1 : byte := Init.Byte.xdd.
Definition H2 : byte := Init.Byte.x05.
End HEADER.

Module PROTOVERSION.
Definition V1 : byte := Init.Byte.x01.
Definition V2 : byte := Init.Byte.x02.
End PROTOVERSION.

Module SVRVERSION.
Definition NOENCRYP : byte := Init.Byte.x02.
Definition ENCRYP : byte := Init.Byte.x04.
End SVRVERSION.

Module FUNC_REQ.
Definition HEARTBEAT : Z := 0.
Definition LOGIN : Z := 1.
Definition PROXY : Z := 2.
Definition GETPROXIES : Z := 3.
End FUNC_REQ.

Module FUNC_RESP.
Definition LOGIN : byte := Init.Byte.x01.
Definition PROXY : byte := Init.Byte.x02.
Definition GETPROXIES : byte := Init.Byte.x03.
Definition ACCESS : byte := Init.Byte.x04.
Definition STOPPROXY : byte := Init.Byte.x05.
End FUNC_RESP.

Module ERRCODE.
Definition SUCCESS : byte := Init.Byte.x00.
Definition REPEAT_LOGINED_ERR : byte := Init.Byte.x01.
Definition LOGINED_FAILED : byte := Init.Byte.x02.
Definition SVRVERSION_ERR : byte := Init.Byte.x03.
Definition PARSE_ERR : byte := Init.Byte.x04.
Definition CREATE_UDP_FAILED : byte := Init.Byte.x05.
End ERRCODE.

Module SESSIONTYPE.
Definition CLIENT : Z := 1.
Definition SERVER : Z := 2.
Definition ANYONE : Z := 3.
End SESSIONTYPE.

(** ** Session records kept by the database *)

Record SSessionInfo := { uiId : Z; uiAddr : Z; sGuid : bytes }.

(** [SSessionInfo::size()]: the two integers that go on the wire. *)
Definition SSessionInfo_size : Z := wrap 8 (4 + 4).

(** ** Request packets *)

Record CReqLoginPkt := {
  lg_header : TagPktHdr;
  lg_uctype : Z;
  lg_szGuid : bytes;
  lg_uiPrivateAddr : Z
}.

Record CReqProxyPkt := {
  px_header : TagPktHdr;
  px_uiId : Z;
  px_uiDstId : Z;
  px_szGameId : bytes
}.

Record CReqGetProxiesPkt := { gp_header : TagPktHdr; gp_uiId : Z }.

(** [boost::make_shared<T>()] value-initialises: the packets have no
    constructor of their own, so every field starts as zero or empty. *)
Definition new_login : CReqLoginPkt :=
  {| lg_header := zero_hdr; lg_uctype := 0; lg_szGuid := []; lg_uiPrivateAddr := 0 |}.
Definition new_proxy : CReqProxyPkt :=
  {| px_header := zero_hdr; px_uiId := 0; px_uiDstId := 0; px_szGameId := [] |}.
Definition new_getproxies : CReqGetProxiesPkt :=
  {| gp_header := zero_hdr; gp_uiId := 0 |}.

(** [size_t len = p[0]]: a signed [char] widened to 64 bits. *)
Definition size_of_char (b : byte) : Z := wrap 64 (char_Z b).

(** [std::string::max_size()] of a 64-bit standard library is below 2^63. *)
Definition string_max_size : Z := 2 ^ 63 - 1.

(** [std::string::assign(p, len)] where [p] points at offset [off] of [m]. *)
Definition string_assign (m : bytes) (off : nat) (len : Z) : outcome bytes :=
  if string_max_size <? len then Throw length_error
  else mem_read m off (Z.to_nat len).

(** One byte read through a [const char*]. *)
Definition char_at (m : bytes) (off : nat) : outcome byte :=
  l ← mem_read m off 1;
  Ok (nth 0 l Init.Byte.x00).

Definition memcpy_hdr (m : bytes) (off : nat) : outcome TagPktHdr :=
  l ← mem_read m off sizeof_hdr;
  Ok (hdr_of_bytes l).

Definition memcpy_u32 (m : bytes) (off : nat) : outcome Z :=
  l ← mem_read m off 4;
  Ok (le_Z l).

(** The parsers take the memory block [m] the pointer [p] points to the start
    of, which may extend past the [n] bytes that were received. *)
Definition CReqLoginPkt_deserialize (m : bytes) (n : Z) (pkt : CReqLoginPkt) :
    outcome (bool * CReqLoginPkt) :=
  if n <? 5 then Ok (false, pkt) else
  header ← memcpy_hdr m 0;
  let p := sizeof_hdr in
  c ← char_at m p;
  let len := size_of_char c in
  if n <? wrap 64 (len + 5) then
    Ok (false, {| lg_header := header; lg_uctype := lg_uctype pkt;
                  lg_szGuid := lg_szGuid pkt; lg_uiPrivateAddr := lg_uiPrivateAddr pkt |})
  else
  guid ← string_assign m (p + 1) len;
  addr ← memcpy_u32 m (p + 1 + Z.to_nat len);
  ty ← (if usBodyLen header =? wrap 64 (1 + len + 4) then Ok 3
        else if wrap 64 (1 + len + 4) <? usBodyLen header then
          b ← char_at m (p + 1 + Z.to_nat len + 4); Ok (byte_Z b)
        else Ok 0);
  Ok (true, {| lg_header := header; lg_uctype := ty; lg_szGuid := guid;
               lg_uiPrivateAddr := addr |}).

Definition CReqProxyPkt_deserialize (m : bytes) (n : Z) (pkt : CReqProxyPkt) :
    outcome (bool * CReqProxyPkt) :=
  if n <? 9 then Ok (false, pkt) else
  header ← memcpy_hdr m 0;
  let p := sizeof_hdr in
  id ← memcpy_u32 m p;
  dst ← memcpy_u32 m (p + 4);
  c ← char_at m (p + 8);
  let len := size_of_char c in
  if n <? wrap 64 (len + 9) then
    Ok (false, {| px_header := header; px_uiId := id; px_uiDstId := dst;
                  px_szGameId := px_szGameId pkt |})
  else
  game ← string_assign m (p + 9) len;
  Ok (true, {| px_header := header; px_uiId := id; px_uiDstId := dst; px_szGameId := game |}).

Definition CReqGetProxiesPkt_deserialize (m : bytes) (n : Z) (pkt : CReqGetProxiesPkt) :
    outcome (bool * CReqGetProxiesPkt) :=
  header ← memcpy_hdr m 0;
  let p := sizeof_hdr in
  id ← memcpy_u32 m p;
  Ok (true, {| gp_header := header; gp_uiId := id |}).

(** ** Response packets *)

Record CRespLogin := { rl_ucErr : byte; rl_uiId : Z }.
Record CRespProxy :=
  { rp_ucErr : byte; rp_uiUdpId : Z; rp_uiUdpAddr : Z; rp_usUdpPort : Z }.
Record CRespAccess :=
  { ra_uiSrcId : Z; ra_uiUdpId : Z; ra_uiUdpAddr : Z; ra_usUdpPort : Z; ra_uiPrivateAddr : Z }.
Record CRespGetProxies := { rg_sessions : bytes }.
Record CRespStopProxy := { rs_uiUdpId : Z; rs_uiUdpAddr : Z; rs_usUdpPort : Z }.

(** The virtual methods [size] and [serialize] of [CRespPktBase]. *)
Class CRespPktBase (P : Type) := {
  resp_size : P -> Z;
  resp_serialize : TagPktHdr -> P -> outcome bytes
}.

(** [new char[len + 1]()] followed by [memcpy] of the header and of the body
    length: the opening that all five [serialize] functions share. *)
Definition new_pkt_buf (head : TagPktHdr) (bodylen : Z) : outcome bytes :=
  let len := (sizeof_hdr + Z.to_nat bodylen)%nat in
  buf ← mem_write (replicate (len + 1) Init.Byte.x00) 0 (hdr_bytes head);
  mem_write buf 6 (le_bytes 2 bodylen).

(** [make_shared<std::string>(buf, len)]: the terminating byte is dropped. *)
Definition pkt_string (buf : bytes) (bodylen : Z) : outcome bytes :=
  mem_read buf 0 (sizeof_hdr + Z.to_nat bodylen).

Definition CRespLogin_size (_ : CRespLogin) : Z := wrap 16 (1 + 4).
Definition CRespLogin_serialize (head : TagPktHdr) (p : CRespLogin) : outcome bytes :=
  let bodylen := CRespLogin_size p in
  buf ← new_pkt_buf head bodylen;
  buf ← mem_write buf 8 [rl_ucErr p];
  buf ← mem_write buf 9 (le_bytes 4 (rl_uiId p));
  pkt_string buf bodylen.
#[export] Instance CRespLogin_pkt : CRespPktBase CRespLogin :=
  {| resp_size := CRespLogin_size; resp_serialize := CRespLogin_serialize |}.

Definition CRespProxy_size (_ : CRespProxy) : Z := wrap 16 (1 + 4 + 4 + 2).
Definition CRespProxy_serialize (head : TagPktHdr) (p : CRespProxy) : outcome bytes :=
  let bodylen := CRespProxy_size p in
  buf ← new_pkt_buf head bodylen;
  buf ← mem_write buf 8 [rp_ucErr p];
  buf ← mem_write buf 9 (le_bytes 4 (rp_uiUdpId p));
  buf ← mem_write buf (9 + 4) (le_bytes 4 (rp_uiUdpAddr p));
  buf ← mem_write buf (9 + 4 + 4) (le_bytes 2 (rp_usUdpPort p));
  pkt_string buf bodylen.
#[export] Instance CRespProxy_pkt : CRespPktBase CRespProxy :=
  {| resp_size := CRespProxy_size; resp_serialize := CRespProxy_serialize |}.

Definition CRespAccess_size (_ : CRespAccess) : Z := wrap 16 (4 + 4 + 4 + 2 + 4).
Definition CRespAccess_serialize (head : TagPktHdr) (p : CRespAccess) : outcome bytes :=
  let bodylen := CRespAccess_size p in
  buf ← new_pkt_buf head bodylen;
  buf ← mem_write buf 8 (le_bytes 4 (ra_uiSrcId p));
  buf ← mem_write buf (8 + 4) (le_bytes 4 (ra_uiUdpId p));
  buf ← mem_write buf (8 + 4 + 4) (le_bytes 4 (ra_uiUdpAddr p));
  buf ← mem_write buf (8 + 4 + 4 + 4) (le_bytes 2 (ra_usUdpPort p));
  buf ← mem_write buf (8 + 4 + 4 + 4 + 2) (le_bytes 4 (ra_uiPrivateAddr p));
  pkt_string buf bodylen.
#[export] Instance CRespAccess_pkt : CRespPktBase CRespAccess :=
  {| resp_size := CRespAccess_size; resp_serialize := CRespAccess_serialize |}.

Definition CRespGetProxies_size (p : CRespGetProxies) : Z :=
  wrap 16 (Z.of_nat (length (rg_sessions p))).
Definition CRespGetProxies_serialize (head : TagPktHdr) (p : CRespGetProxies) : outcome bytes :=
  let bodylen := CRespGetProxies_size p in
  buf ← new_pkt_buf head bodylen;
  buf ← mem_write buf 8 (rg_sessions p);
  pkt_string buf bodylen.
#[export] Instance CRespGetProxies_pkt : CRespPktBase CRespGetProxies :=
  {| resp_size := CRespGetProxies_size; resp_serialize := CRespGetProxies_serialize |}.

Definition CRespStopProxy_size (_ : CRespStopProxy) : Z := wrap 16 (4 + 4 + 2).
Definition CRespStopProxy_serialize (head : TagPktHdr) (p : CRespStopProxy) : outcome bytes :=
  let bodylen := CRespStopProxy_size p in
  buf ← new_pkt_buf head bodylen;
  buf ← mem_write buf 8 (le_bytes 4 (rs_uiUdpId p));
  buf ← mem_write buf (8 + 4) (le_bytes 4 (rs_uiUdpAddr p));
  buf ← mem_write buf (8 + 4 + 4) (le_bytes 2 (rs_usUdpPort p));
  pkt_string buf bodylen.
#[export] Instance CRespStopProxy_pkt : CRespPktBase CRespStopProxy :=
  {| resp_size := CRespStopProxy_size; resp_serialize := CRespStopProxy_serialize |}.

(** ** What a response writer promises

    [resp_body] is the abstract body of a packet.  A lawful packet class
    writes, for every header, the first six header bytes as given, the body
    length and the body, and nothing outside its block. *)
Definition pkt_layout (head : TagPktHdr) (body : bytes) : bytes :=
  take 6 (hdr_bytes head) ++ le_bytes 2 (Z.of_nat (length body)) ++ body.

Class CRespPktLaws (P : Type) `{CRespPktBase P} := {
  resp_body : P -> bytes;
  resp_ok : P -> Prop;
  resp_layout : forall head p, resp_ok p ->
    resp_serialize head p = Ok (pkt_layout head (resp_body p))
}.

#[export] Program Instance CRespLogin_laws : CRespPktLaws CRespLogin := {|
  resp_body p := [rl_ucErr p] ++ le_bytes 4 (rl_uiId p);
  resp_ok _ := True
|}.
Next Obligation. reflexivity. Qed.

#[export] Program Instance CRespProxy_laws : CRespPktLaws CRespProxy := {|
  resp_body p := [rp_ucErr p] ++ le_bytes 4 (rp_uiUdpId p)
    ++ le_bytes 4 (rp_uiUdpAddr p) ++ le_bytes 2 (rp_usUdpPort p);
  resp_ok _ := True
|}.
Next Obligation. reflexivity. Qed.

#[export] Program Instance CRespAccess_laws : CRespPktLaws CRespAccess := {|
  resp_body p := le_bytes 4 (ra_uiSrcId p) ++ le_bytes 4 (ra_uiUdpId p)
    ++ le_bytes 4 (ra_uiUdpAddr p) ++ le_bytes 2 (ra_usUdpPort p)
    ++ le_bytes 4 (ra_uiPrivateAddr p);
  resp_ok _ := True
|}.
Next Obligation. reflexivity. Qed.

#[export] Program Instance CRespStopProxy_laws : CRespPktLaws CRespStopProxy := {|
  resp_body p := le_bytes 4 (rs_uiUdpId p) ++ le_bytes 4 (rs_uiUdpAddr p)
    ++ le_bytes 2 (rs_usUdpPort p);
  resp_ok _ := True
|}.
Next Obligation. reflexivity. Qed.

(** ** Lemmas on headers and on the block a response is built in *)

Lemma length_hdr_bytes h : length (hdr_bytes h) = sizeof_hdr.
Proof. reflexivity. Qed.
#[export] Hint Rewrite length_hdr_bytes : len.
Ltac len_unfold ::= unfold sizeof_hdr in *.

Lemma le_Z_le_bytes_small n z : 0 ≤ z < 256 ^ Z.of_nat n -> le_Z (le_bytes n z) = z.
Proof. intros H. rewrite le_Z_le_bytes. by apply Z.mod_small. Qed.

Lemma hdr_of_hdr_bytes h : hdr_wf h -> hdr_of_bytes (hdr_bytes h) = h.
Proof.
  intros Hw. destruct h as [a b c d e f n]. unfold hdr_of_bytes.
  change (take 2 (drop 6 _)) with (le_bytes 2 n).
  rewrite le_Z_le_bytes_small by exact Hw. reflexivity.
Qed.

Lemma memcpy_hdr_Ok h z : hdr_wf h -> memcpy_hdr (hdr_bytes h ++ z) 0 = Ok h.
Proof.
  intros Hw. unfold memcpy_hdr. rewrite mem_read_Ok by len.
  rewrite drop_0, take_app_length'; simpl; [|done]. by rewrite hdr_of_hdr_bytes.
Qed.

Lemma char_at_Ok a b z off : off = length a -> char_at (a ++ b :: z) off = Ok b.
Proof. intros ->. unfold char_at. by rewrite (mem_read_at a [b] z). Qed.

Lemma memcpy_u32_Ok a v z off :
  off = length a -> 0 ≤ v < 2 ^ 32 -> memcpy_u32 (a ++ le_bytes 4 v ++ z) off = Ok v.
Proof.
  intros -> Hv. unfold memcpy_u32. rewrite (mem_read_at a) by done. rewrite ok_bind.
  by rewrite le_Z_le_bytes_small.
Qed.

Lemma new_pkt_buf_eq head bodylen :
  new_pkt_buf head bodylen =
  Ok ((take 6 (hdr_bytes head) ++ le_bytes 2 bodylen)
      ++ replicate (Z.to_nat bodylen + 1) Init.Byte.x00).
Proof.
  unfold new_pkt_buf. rewrite mem_write_Ok by len. rewrite ok_bind.
  rewrite mem_write_Ok by len. reflexivity.
Qed.

Lemma getproxies_layout head p :
  Z.of_nat (length (rg_sessions p)) < 2 ^ 16 ->
  CRespGetProxies_serialize head p = Ok (pkt_layout head (rg_sessions p)).
Proof.
  intros Hl. unfold CRespGetProxies_serialize, CRespGetProxies_size, wrap.
  rewrite Z.mod_small by lia. rewrite new_pkt_buf_eq, Nat2Z.id.
  rewrite ok_bind, mem_write_snoc by len.
  rewrite ok_bind. unfold pkt_string. rewrite Nat2Z.id, <-app_assoc.
  rewrite (mem_read_Ok _ 0) by len. rewrite drop_0.
  unfold pkt_layout. rewrite <-!app_assoc, take_app_ge, take_app_ge, take_app_le by len.
  do 4 f_equal. apply take_ge. len.
Qed.

#[export] Program Instance CRespGetProxies_laws : CRespPktLaws CRespGetProxies := {|
  resp_body := rg_sessions;
  resp_ok p := Z.of_nat (length (rg_sessions p)) < 2 ^ 16
|}.
Next Obligation. intros head p H. by apply getproxies_layout. Qed.

(** What a peer sees of a packet: its header and as many body bytes as the
    header announces. *)
Definition parse_frame (l : bytes) : option (TagPktHdr * bytes) :=
  let h := hdr_of_bytes (take sizeof_hdr l) in
  let body := take (Z.to_nat (usBodyLen h)) (drop sizeof_hdr l) in
  if decide (length l = sizeof_hdr + Z.to_nat (usBodyLen h))%nat then Some (h, body) else None.

Definition with_body_len (h : TagPktHdr) (n : Z) : TagPktHdr :=
  {| ucHead1 := ucHead1 h; ucHead2 := ucHead2 h; ucPrtVersion := ucPrtVersion h;
     ucSvrVersion := ucSvrVersion h; ucFunc := ucFunc h; ucKeyIndex := ucKeyIndex h;
     usBodyLen := n |}.

Lemma pkt_layout_hdr head body :
  pkt_layout head body =
  hdr_bytes (with_body_len head (Z.of_nat (length body))) ++ body.
Proof. reflexivity. Qed.

Lemma parse_frame_layout head body :
  Z.of_nat (length body) < 2 ^ 16 ->
  parse_frame (pkt_layout head body) =
  Some (with_body_len head (Z.of_nat (length body)), body).
Proof.
  intros Hl. rewrite pkt_layout_hdr. unfold parse_frame.
  rewrite take_app_length', drop_app_length' by done.
  rewrite hdr_of_hdr_bytes by (split; simpl; lia). simpl usBodyLen.
  rewrite Nat2Z.id, decide_True by len. by rewrite take_ge.
Qed.

(** ** The length byte of a string field *)

Lemma size_of_char_small b : byte_Z b < 128 -> size_of_char b = byte_Z b.
Proof.
  intros H. unfold size_of_char, char_Z, wrap. pose proof (byte_Z_range b).
  rewrite (proj2 (Z.ltb_lt _ _) H). apply Z.mod_small. lia.
Qed.

Lemma size_of_char_large b :
  128 ≤ byte_Z b -> size_of_char b = 2 ^ 64 - 256 + byte_Z b.
Proof.
  intros H. unfold size_of_char, char_Z, wrap. pose proof (byte_Z_range b).
  rewrite (proj2 (Z.ltb_ge _ _) H).
  symmetry. apply Z.mod_unique_pos with (-1); lia.
Qed.

(** A length byte from 0x80 on never denotes a string: it is either larger
    than any packet or past [max_size]. *)
Lemma string_assign_large b m off :
  128 ≤ byte_Z b -> string_assign m off (size_of_char b) = Throw length_error.
Proof.
  intros H. rewrite size_of_char_large by done. unfold string_assign, string_max_size.
  pose proof (byte_Z_range b). by rewrite (proj2 (Z.ltb_lt _ _)) by lia.
Qed.

Lemma string_assign_small a d z off len :
  off = length a -> len = Z.of_nat (length d) -> len < 2 ^ 63 ->
  string_assign (a ++ d ++ z) off len = Ok d.
Proof.
  intros -> -> H. unfold string_assign, string_max_size.
  rewrite (proj2 (Z.ltb_ge _ _)) by lia. rewrite Nat2Z.id. by apply mem_read_at.
Qed.

(** ** The packets a client sends *)

(** A login packet as the clients build it: a GUID with its length byte, the
    private address and, since the session types were merged, an optional
    tail that starts with the session type. *)
Definition login_body (guid : bytes) (addr : Z) (ext : bytes) : bytes :=
  Z_byte (Z.of_nat (length guid)) :: guid ++ le_bytes 4 addr ++ ext.
Definition proxy_body (id dst : Z) (game : bytes) : bytes :=
  le_bytes 4 id ++ le_bytes 4 dst ++ Z_byte (Z.of_nat (length game)) :: game.

Lemma byte_Z_len (l : bytes) :
  (length l < 128)%nat -> byte_Z (Z_byte (Z.of_nat (length l))) = Z.of_nat (length l).
Proof. intros H. rewrite byte_Z_byte. apply Z.mod_small. lia. Qed.

Lemma size_of_char_len (l : bytes) :
  (length l < 128)%nat -> size_of_char (Z_byte (Z.of_nat (length l))) = Z.of_nat (length l).
Proof. intros H. rewrite size_of_char_small; rewrite byte_Z_len; lia. Qed.

(** The session type the login parser settles on, given the first byte after
    the address. *)
Definition login_type (bodylen len : Z) (rest : bytes) : Z :=
  if bodylen =? len + 5 then 3
  else if len + 5 <? bodylen then byte_Z (nth 0 rest Init.Byte.x00) else 0.

(** The parser on a block that starts with a header, a GUID and an address,
    whatever number [n] of bytes is said to have been received. *)
Lemma login_deserialize_eq h guid addr rest n pkt :
  hdr_wf h -> (length guid < 128)%nat -> 0 ≤ addr < 2 ^ 32 ->
  Z.of_nat (length guid) + 5 ≤ n ->
  (Z.of_nat (length guid) + 5 < usBodyLen h -> rest <> []) ->
  CReqLoginPkt_deserialize (hdr_bytes h ++ login_body guid addr rest) n pkt =
  Ok (true, {| lg_header := h;
               lg_uctype := login_type (usBodyLen h) (Z.of_nat (length guid)) rest;
               lg_szGuid := guid; lg_uiPrivateAddr := addr |}).
Proof.
  intros Hw Hg Ha Hn Hr. unfold CReqLoginPkt_deserialize, login_body, login_type.
  rewrite (proj2 (Z.ltb_ge n 5)) by lia.
  rewrite memcpy_hdr_Ok, ok_bind, char_at_Ok, ok_bind, size_of_char_len by done.
  unfold wrap. rewrite (Z.mod_small (_ + 5)), (Z.mod_small (1 + _ + 4)) by lia.
  rewrite (proj2 (Z.ltb_ge n _)), cons_middle, app_assoc by lia.
  rewrite string_assign_small, ok_bind by len.
  rewrite (app_assoc _ guid), Nat2Z.id, memcpy_u32_Ok, ok_bind by len.
  replace (1 + Z.of_nat (length guid) + 4) with (Z.of_nat (length guid) + 5) by lia.
  destruct (Z.eqb_spec (usBodyLen h) (Z.of_nat (length guid) + 5)); [done|].
  destruct (Z.ltb_spec (Z.of_nat (length guid) + 5) (usBodyLen h)) as [Hlt|]; [|done].
  destruct rest as [|t rest]; [by specialize (Hr Hlt)|].
  rewrite app_assoc, char_at_Ok by len. by rewrite !ok_bind.
Qed.

Lemma login_type_body guid addr ext tail :
  login_type (Z.of_nat (length (login_body guid addr ext))) (Z.of_nat (length guid)) (ext ++ tail)
  = match ext with [] => SESSIONTYPE.ANYONE | t :: _ => byte_Z t end.
Proof.
  unfold login_type, login_body.
  destruct ext as [|t ext]; repeat case_match; bool_to_Z; try done; exfalso; len.
Qed.

Lemma proxy_deserialize_eq h id dst game rest n pkt :
  hdr_wf h -> (length game < 128)%nat -> 0 ≤ id < 2 ^ 32 -> 0 ≤ dst < 2 ^ 32 ->
  Z.of_nat (length game) + 9 ≤ n ->
  CReqProxyPkt_deserialize (hdr_bytes h ++ proxy_body id dst game ++ rest) n pkt =
  Ok (true, {| px_header := h; px_uiId := id; px_uiDstId := dst; px_szGameId := game |}).
Proof.
  intros Hw Hg Hi Hd Hn. unfold CReqProxyPkt_deserialize, proxy_body.
  rewrite (proj2 (Z.ltb_ge n 9)) by lia.
  rewrite <-!app_assoc, memcpy_hdr_Ok, ok_bind, (memcpy_u32_Ok _ id _ sizeof_hdr) by done.
  rewrite ok_bind.
  rewrite (app_assoc (hdr_bytes h)), memcpy_u32_Ok, ok_bind by len.
  rewrite (app_assoc _ (le_bytes 4 dst)), <-app_comm_cons.
  rewrite char_at_Ok, ok_bind, size_of_char_len by len.
  unfold wrap. rewrite (Z.mod_small (_ + 9)) by lia.
  rewrite (proj2 (Z.ltb_ge n _)) by lia.
  rewrite cons_middle, app_assoc. by rewrite string_assign_small by len.
Qed.

Lemma frame_of_layout head body n (o : outcome bytes) :
  o = Ok (pkt_layout head body) -> Z.of_nat (length body) = n -> n < 2 ^ 16 ->
  (o ≫= fun l => Ok (parse_frame l)) = Ok (Some (with_body_len head n, body)).
Proof. intros -> <- Hl. by rewrite ok_bind, parse_frame_layout. Qed.

(** ** Properties *)

(** C28. Every response writer produces, for any header it is given (whatever
    stale length that header carries), one frame: a peer that reads the header
    and then as many bytes as the header announces gets the body, field by
    field in the order of the protocol, and no byte is left over. *)
Theorem response_framing head :
  (forall e id,
    (CRespLogin_serialize head {| rl_ucErr := e; rl_uiId := id |} ≫= fun l => Ok (parse_frame l))
    = Ok (Some (with_body_len head 5, e :: le_bytes 4 id))) /\
  (forall e id addr port,
    (CRespProxy_serialize head {| rp_ucErr := e; rp_uiUdpId := id; rp_uiUdpAddr := addr;
                                  rp_usUdpPort := port |} ≫= fun l => Ok (parse_frame l))
    = Ok (Some (with_body_len head 11,
                e :: le_bytes 4 id ++ le_bytes 4 addr ++ le_bytes 2 port))) /\
  (forall src id addr port priv,
    (CRespAccess_serialize head {| ra_uiSrcId := src; ra_uiUdpId := id; ra_uiUdpAddr := addr;
       ra_usUdpPort := port; ra_uiPrivateAddr := priv |} ≫= fun l => Ok (parse_frame l))
    = Ok (Some (with_body_len head 18,
                le_bytes 4 src ++ le_bytes 4 id ++ le_bytes 4 addr ++ le_bytes 2 port
                ++ le_bytes 4 priv))) /\
  (forall id addr port,
    (CRespStopProxy_serialize head {| rs_uiUdpId := id; rs_uiUdpAddr := addr;
       rs_usUdpPort := port |} ≫= fun l => Ok (parse_frame l))
    = Ok (Some (with_body_len head 10, le_bytes 4 id ++ le_bytes 4 addr ++ le_bytes 2 port))) /\
  (forall ss, Z.of_nat (length ss) < 2 ^ 16 ->
    (CRespGetProxies_serialize head {| rg_sessions := ss |} ≫= fun l => Ok (parse_frame l))
    = Ok (Some (with_body_len head (Z.of_nat (length ss)), ss))).
Proof.
  refine (conj _ (conj _ (conj _ (conj _ _)))); intros.
  - exact (frame_of_layout _ _ _ _ (resp_layout (P := CRespLogin) head _ I) eq_refl eq_refl).
  - exact (frame_of_layout _ _ _ _ (resp_layout (P := CRespProxy) head _ I) eq_refl eq_refl).
  - exact (frame_of_layout _ _ _ _ (resp_layout (P := CRespAccess) head _ I) eq_refl eq_refl).
  - exact (frame_of_layout _ _ _ _ (resp_layout (P := CRespStopProxy) head _ I) eq_refl eq_refl).
  - apply frame_of_layout; [by apply getproxies_layout|done|done].
Qed.

Lemma response_framing_witness :
  (CRespGetProxies_serialize zero_hdr {| rg_sessions := [Init.Byte.x00] |}
     ≫= fun l => Ok (parse_frame l))
  = Ok (Some (with_body_len zero_hdr 1, [Init.Byte.x00])).
Proof. apply (response_framing zero_hdr). simpl. lia. Defined.

(** The proxy-list response is the only writer whose body length is not a
    constant.  Its 16-bit length is exactly the bound that matters: the writer
    stays inside its heap block when the list fits in 65535 bytes, and writes
    past the end of the block as soon as it does not. *)
Theorem getproxies_serialize_bound head p :
  defined (CRespGetProxies_serialize head p) <->
  Z.of_nat (length (rg_sessions p)) < 2 ^ 16.
Proof.
  split; [|intros H; by rewrite getproxies_layout].
  destruct (decide (Z.of_nat (length (rg_sessions p)) < 2 ^ 16)) as [|Hn]; [done|].
  unfold CRespGetProxies_serialize, CRespGetProxies_size, wrap.
  assert (Z.of_nat (length (rg_sessions p)) `mod` 2 ^ 16 + 2 ^ 16
          ≤ Z.of_nat (length (rg_sessions p))) as Hb by (Z.div_mod_to_equations; lia).
  pose proof (Z.mod_pos_bound (Z.of_nat (length (rg_sessions p))) (2 ^ 16) ltac:(lia)).
  revert Hb H. generalize (Z.of_nat (length (rg_sessions p)) `mod` 2 ^ 16). intros b Hb ?.
  rewrite new_pkt_buf_eq, ok_bind, mem_write_UB, ub_bind by len. done.
Qed.

(** C29. Login round trip: for every GUID of at most 127 bytes, the packet a
    client builds is accepted with exactly its GUID, private address and
    session type (the merged type ANYONE when the packet has no type byte),
    whatever bytes follow the packet in memory. *)
Theorem login_roundtrip h guid addr ext tail pkt :
  (length guid < 128)%nat -> 0 ≤ addr < 2 ^ 32 ->
  Z.of_nat (length (login_body guid addr ext)) < 2 ^ 16 ->
  let h := with_body_len h (Z.of_nat (length (login_body guid addr ext))) in
  let packet := hdr_bytes h ++ login_body guid addr ext in
  CReqLoginPkt_deserialize (packet ++ tail) (Z.of_nat (length packet)) pkt =
  Ok (true, {| lg_header := h;
               lg_uctype := match ext with [] => SESSIONTYPE.ANYONE | t :: _ => byte_Z t end;
               lg_szGuid := guid; lg_uiPrivateAddr := addr |}).
Proof.
  intros Hg Ha Hl h' packet.
  replace (packet ++ tail) with (hdr_bytes h' ++ login_body guid addr (ext ++ tail))
    by (unfold packet, login_body; by rewrite <-!app_assoc, <-app_comm_cons, <-!app_assoc).
  rewrite login_deserialize_eq; [|split; [apply Nat2Z.is_nonneg|exact Hl]|done..| |].
  - do 3 f_equal. exact (login_type_body guid addr ext tail).
  - unfold packet, login_body. len.
  - unfold h', login_body. simpl usBodyLen. intros Hx. destruct ext; [exfalso; len|done].
Qed.

Lemma login_roundtrip_witness :
  exists pkt,
  CReqLoginPkt_deserialize
    (hdr_bytes (with_body_len zero_hdr 8) ++ login_body (lit "abc") 16909060 [] ++ [Init.Byte.xff])
    16 new_login = Ok (true, pkt) /\ lg_szGuid pkt = lit "abc" /\ lg_uctype pkt = 3.
Proof.
  eexists. split; [|split; cycle 1].
  - exact (login_roundtrip zero_hdr (lit "abc") 16909060 [] [Init.Byte.xff] new_login
             ltac:(vm_compute; lia) ltac:(lia) ltac:(vm_compute; done)).
  - done.
  - done.
Defined.

(** Proxy round trip: for every game id of at most 127 bytes, the packet a
    client builds is parsed back to its own fields, whatever follows it. *)
Theorem proxy_roundtrip h id dst game tail pkt :
  (length game < 128)%nat -> 0 ≤ id < 2 ^ 32 -> 0 ≤ dst < 2 ^ 32 ->
  let h := with_body_len h (Z.of_nat (length (proxy_body id dst game))) in
  let packet := hdr_bytes h ++ proxy_body id dst game in
  CReqProxyPkt_deserialize (packet ++ tail) (Z.of_nat (length packet)) pkt =
  Ok (true, {| px_header := h; px_uiId := id; px_uiDstId := dst; px_szGameId := game |}).
Proof.
  intros Hg Hi Hd h' packet. unfold packet. rewrite <-app_assoc.
  assert (length (proxy_body id dst game) = 9 + length game)%nat as Hl
    by (unfold proxy_body; len).
  apply proxy_deserialize_eq; auto.
  - unfold hdr_wf, h'. cbn [usBodyLen with_body_len]. rewrite Hl. lia.
  - rewrite length_app, Hl. simpl. lia.
Qed.

Lemma proxy_roundtrip_witness :
  CReqProxyPkt_deserialize
    ((hdr_bytes (with_body_len zero_hdr 12) ++ proxy_body 1000 1001 (lit "cod")) ++ []) 20 new_proxy
  = Ok (true, {| px_header := with_body_len zero_hdr 12; px_uiId := 1000;
                 px_uiDstId := 1001; px_szGameId := lit "cod" |}).
Proof.
  exact (proxy_roundtrip zero_hdr 1000 1001 (lit "cod") [] new_proxy
           ltac:(vm_compute; lia) ltac:(lia) ltac:(lia)).
Defined.

(** The length byte is read as a signed [char].  A login packet whose GUID
    length byte is 0x80 or more is never accepted: up to 0xFA the parser
    reports failure and leaves every field but the header untouched, and from
    0xFB on the 64-bit bound check wraps around and [std::string::assign]
    throws [std::length_error]. *)
Theorem login_signed_length h c rest n pkt :
  hdr_wf h -> 128 ≤ byte_Z c -> 5 ≤ n < 2 ^ 63 ->
  CReqLoginPkt_deserialize (hdr_bytes h ++ c :: rest) n pkt =
  if byte_Z c <? 251
  then Ok (false, {| lg_header := h; lg_uctype := lg_uctype pkt; lg_szGuid := lg_szGuid pkt;
                     lg_uiPrivateAddr := lg_uiPrivateAddr pkt |})
  else Throw length_error.
Proof.
  intros Hw Hc Hn. pose proof (byte_Z_range c) as Hr. unfold CReqLoginPkt_deserialize.
  rewrite (proj2 (Z.ltb_ge n 5)) by lia.
  rewrite memcpy_hdr_Ok, ok_bind, char_at_Ok, ok_bind by done.
  rewrite string_assign_large, throw_bind by done. rewrite size_of_char_large by done.
  unfold wrap. destruct (Z.ltb_spec (byte_Z c) 251).
  - rewrite Z.mod_small by lia. by rewrite (proj2 (Z.ltb_lt _ _)) by lia.
  - rewrite (proj2 (Z.ltb_ge _ _)); [done|].
    replace (2 ^ 64 - 256 + byte_Z c + 5) with (byte_Z c - 251 + 1 * 2 ^ 64) by lia.
    rewrite Z.mod_add, Z.mod_small by lia. lia.
Qed.

Lemma login_signed_length_witness :
  CReqLoginPkt_deserialize (hdr_bytes (with_body_len zero_hdr 1) ++ [Init.Byte.xff]) 9 new_login
  = Throw length_error.
Proof.
  exact (login_signed_length (with_body_len zero_hdr 1) Init.Byte.xff [] 9 new_login
           ltac:(split; vm_compute; done) ltac:(vm_compute; done) ltac:(lia)).
Defined.

(** The bound check counts the 8 header bytes as body bytes.  A login
    packet whose announced body is up to 8 bytes too short for its GUID is
    accepted, and the bytes the packet lacks are taken from whatever lies
    behind it in the receive buffer: with a one-byte body the whole GUID and
    the private address are such stale bytes, and the parser still succeeds. *)
Theorem login_reads_past_packet h len stale rest addr pkt :
  hdr_wf h -> (length stale = len)%nat -> (len < 128)%nat -> 0 ≤ addr < 2 ^ 32 ->
  1 ≤ usBodyLen h -> Z.of_nat len - 3 ≤ usBodyLen h < Z.of_nat len + 5 ->
  let received := hdr_bytes h ++ [Z_byte (Z.of_nat len)] in
  let behind := stale ++ le_bytes 4 addr ++ rest in
  CReqLoginPkt_deserialize (received ++ behind) (Z.of_nat sizeof_hdr + usBodyLen h) pkt =
  Ok (true, {| lg_header := h; lg_uctype := 0; lg_szGuid := stale; lg_uiPrivateAddr := addr |}).
Proof.
  intros Hw <- Hl Ha Hb1 Hb2 received behind. unfold received, behind.
  rewrite <-app_assoc. simpl app at 2.
  etransitivity; [apply (login_deserialize_eq h stale addr rest); auto; unfold sizeof_hdr; lia|].
  do 3 f_equal. unfold login_type.
  by rewrite (proj2 (Z.eqb_neq _ _)), (proj2 (Z.ltb_ge _ _)) by lia.
Qed.

Lemma login_reads_past_packet_witness :
  CReqLoginPkt_deserialize
    ((hdr_bytes (with_body_len zero_hdr 1) ++ [Init.Byte.x03]) ++ lit "key" ++ le_bytes 4 7 ++ [])
    9 new_login
  = Ok (true, {| lg_header := with_body_len zero_hdr 1; lg_uctype := 0;
                 lg_szGuid := lit "key"; lg_uiPrivateAddr := 7 |}).
Proof.
  exact (login_reads_past_packet (with_body_len zero_hdr 1) 3 (lit "key") [] 7 new_login
           ltac:(split; vm_compute; done) eq_refl ltac:(lia) ltac:(lia)
           ltac:(vm_compute; done) ltac:(split; vm_compute; done)).
Defined.
