(* ===== verification/SafeContainers.v ===== *)
(** * Mutex-guarded containers

    Models [src/util/CSafeSet.hpp], [src/util/CSafeMap.hpp] and the class
    [CChannelMap] of [src/net/CChannel.hpp].  Every method takes the mutex for
    its whole body, so one method call is one atomic step. *)
From S2P Require Import Prelude.

(** ** What the containers promise

    [sc_keys] is the abstract state, a set of keys.  The operations report
    whether they changed it. *)
Class SafeContainer (C E K : Type) `{Countable K} := {
  sc_key : E -> K;
  sc_insert : E -> C -> bool * C;
  sc_remove : K -> C -> bool * C;
  sc_has : K -> C -> bool;
  sc_keys : C -> gset K
}.

Class SafeContainerLaws (C E K : Type) `{SafeContainer C E K} := {
  sc_insert_spec : forall e c,
    (sc_insert e c).1 = bool_decide (sc_key e ∉ sc_keys c) /\
    sc_keys (sc_insert e c).2 = {[sc_key e]} ∪ sc_keys c;
  sc_remove_spec : forall k c,
    (sc_remove k c).1 = bool_decide (k ∈ sc_keys c) /\
    sc_keys (sc_remove k c).2 = sc_keys c ∖ {[k]};
  sc_has_spec : forall k c, sc_has k c = bool_decide (k ∈ sc_keys c)
}.

(** The laws of a container that is a finite map searched by [!!]. *)
Ltac map_laws insert remove has :=
  split;
  [ intros [k v] c; simpl; unfold insert; simpl; destruct (c !! k) eqn:E; simpl;
    [ apply elem_of_dom_2 in E; case_bool_decide; set_solver
    | apply not_elem_of_dom in E; rewrite dom_insert_L; by case_bool_decide ]
  | intros k c; simpl; unfold remove; destruct (c !! k) eqn:E; simpl;
    [ apply elem_of_dom_2 in E; rewrite dom_delete_L; by case_bool_decide
    | apply not_elem_of_dom in E; case_bool_decide; set_solver ]
  | intros k c; simpl; unfold has; destruct (c !! k) eqn:E;
    [ apply elem_of_dom_2 in E | apply not_elem_of_dom in E ]; by case_bool_decide ].

(** ** Clients of the interface

    A client sees a container only through the results of its calls. *)
Inductive op (E K : Type) := OpInsert (e : E) | OpRemove (k : K) | OpHas (k : K).
Arguments OpInsert {E K} e.
Arguments OpRemove {E K} k.
Arguments OpHas {E K} k.

Section clients.
Context {C E K : Type} `{HC : SafeContainer C E K}.

Definition do_op (o : op E K) (c : C) : bool * C :=
  match o with
  | OpInsert e => sc_insert e c
  | OpRemove k => sc_remove k c
  | OpHas k => (sc_has k c, c)
  end.

Fixpoint run_ops (ops : list (op E K)) (c : C) : list bool :=
  match ops with
  | [] => []
  | o :: ops => (do_op o c).1 :: run_ops ops (do_op o c).2
  end.

(** The abstract machine: a mathematical set of keys. *)
Definition set_op (key : E -> K) (o : op E K) (s : gset K) : bool * gset K :=
  match o with
  | OpInsert e => (bool_decide (key e ∉ s), {[key e]} ∪ s)
  | OpRemove k => (bool_decide (k ∈ s), s ∖ {[k]})
  | OpHas k => (bool_decide (k ∈ s), s)
  end.

Fixpoint run_set (key : E -> K) (ops : list (op E K)) (s : gset K) : list bool :=
  match ops with
  | [] => []
  | o :: ops => (set_op key o s).1 :: run_set key ops (set_op key o s).2
  end.

Lemma do_op_refines `{!SafeContainerLaws C E K} o c :
  (do_op o c).1 = (set_op sc_key o (sc_keys c)).1 /\
  sc_keys (do_op o c).2 = (set_op sc_key o (sc_keys c)).2.
Proof.
  destruct o as [e|k|k]; simpl;
    [apply sc_insert_spec | apply sc_remove_spec | by rewrite sc_has_spec].
Qed.

Lemma run_ops_refines `{!SafeContainerLaws C E K} ops c :
  run_ops ops c = run_set sc_key ops (sc_keys c).
Proof.
  revert c. induction ops as [|o ops IH]; intros c; simpl; [done|].
  destruct (do_op_refines o c) as [-> <-]. by rewrite IH.
Qed.
End clients.

(** ** [CSafeSet<T>] *)
Module CSafeSet.
Section CSafeSet.
Context {T : Type} `{Countable T}.

Definition insert (item : T) (_set : gset T) : bool * gset T :=
  if decide (item ∈ _set) then (false, _set) else (true, {[item]} ∪ _set).

Definition remove (item : T) (_set : gset T) : bool * gset T :=
  if decide (item ∉ _set) then (false, _set) else (true, _set ∖ {[item]}).

Definition has (item : T) (_set : gset T) : bool :=
  if decide (item ∉ _set) then false else true.

#[global] Instance container : SafeContainer (gset T) T T :=
  {| sc_key := id; sc_insert := insert; sc_remove := remove; sc_has := has; sc_keys := id |}.

#[global] Instance laws : SafeContainerLaws (gset T) T T.
Proof.
  split; simpl; intros; unfold insert, remove, has, id;
    repeat case_decide; repeat case_bool_decide; simpl; set_solver.
Qed.
End CSafeSet.
End CSafeSet.

(** ** [CSafeMap<K, V>]: a value is a [shared_ptr], [None] is the null pointer *)
Module CSafeMap.
Section CSafeMap.
Context {K V : Type} `{Countable K}.
Abbreviation Container := (gmap K (option V)).

Definition size (_container : Container) : nat := base.size _container.

Definition insert (kv : K * option V) (_container : Container) : bool * Container :=
  match _container !! kv.1 with
  | Some _ => (false, _container)
  | None => (true, <[kv.1 := kv.2]> _container)
  end.

Definition remove (key : K) (_container : Container) : bool * Container :=
  match _container !! key with
  | None => (false, _container)
  | Some _ => (true, delete key _container)
  end.

Definition has (key : K) (_container : Container) : bool :=
  match _container !! key with None => false | Some _ => true end.

(** [_container[key]]: the subscript operator inserts a null pointer when the
    key is absent. *)
Definition get (key : K) (_container : Container) : option V * Container :=
  match _container !! key with
  | Some v => (v, _container)
  | None => (None, <[key := None]> _container)
  end.

Definition removeAll (_container : Container) : Container := ∅.

#[global] Instance container : SafeContainer Container (K * option V) K :=
  {| sc_key := fst; sc_insert := insert; sc_remove := remove; sc_has := has; sc_keys := dom |}.

#[global] Instance laws : SafeContainerLaws Container (K * option V) K.
Proof.
  map_laws insert remove has.
Qed.
End CSafeMap.
End CSafeMap.

(** ** [CChannelMap]: channel ids to weak pointers (a pointer is an address) *)
Module CChannelMap.
Abbreviation Map := (gmap Z nat).

Definition size (_map : Map) : nat := base.size _map.

Definition insert (id_value : Z * nat) (_map : Map) : bool * Map :=
  match _map !! id_value.1 with
  | Some _ => (false, _map)
  | None => (true, <[id_value.1 := id_value.2]> _map)
  end.

Definition remove (id : Z) (_map : Map) : bool * Map :=
  match _map !! id with
  | None => (false, _map)
  | Some _ => (true, delete id _map)
  end.

Definition has (id : Z) (_map : Map) : bool :=
  match _map !! id with None => false | Some _ => true end.

#[global] Instance container : SafeContainer Map (Z * nat) Z :=
  {| sc_key := fst; sc_insert := insert; sc_remove := remove; sc_has := has; sc_keys := dom |}.

#[global] Instance laws : SafeContainerLaws Map (Z * nat) Z.
Proof.
  map_laws insert remove has.
Qed.

(** The map after removing an id, whether it was there or not. *)
Lemma remove_delete id (_map : Map) : (remove id _map).2 = delete id _map.
Proof.
  unfold remove. destruct (_map !! id) eqn:E; simpl; [done|].
  by rewrite delete_id.
Qed.
End CChannelMap.

(** ** Properties *)

(** The three containers refine a set of keys: every sequence of insert,
    remove and membership calls, from every content, returns exactly what a
    mathematical set returns (insert succeeds only on an absent key, remove
    only on a present one). *)
Theorem containers_refine_set :
  (forall (ops : list (op bytes bytes)) (s : gset bytes),
     run_ops ops s = run_set id ops s) /\
  (forall (ops : list (op (bytes * option bytes) bytes)) (m : gmap bytes (option bytes)),
     run_ops ops m = run_set fst ops (dom m)) /\
  (forall (ops : list (op (Z * nat) Z)) (m : CChannelMap.Map),
     run_ops ops m = run_set fst ops (dom m)).
Proof. split_and!; intros ops c; exact (run_ops_refines ops c). Qed.

(** Looking up an absent key in a [CSafeMap] changes it: the key becomes
    present with a null value, and the key can no longer be inserted. *)
Theorem safemap_get_absent {V} (key : bytes) (value : option V) (m : gmap bytes (option V)) :
  CSafeMap.has key m = false ->
  let '(v, m') := CSafeMap.get key m in
  v = None /\ CSafeMap.has key m' = true /\ CSafeMap.insert (key, value) m' = (false, m').
Proof.
  unfold CSafeMap.has, CSafeMap.get, CSafeMap.insert. intros H.
  destruct (m !! key) eqn:E; [done|]. simpl. by rewrite lookup_insert_eq.
Qed.

Lemma safemap_get_absent_witness :
  CSafeMap.has (lit "k") (∅ : gmap bytes (option nat)) = false /\
  CSafeMap.has (lit "k") (CSafeMap.get (lit "k") (∅ : gmap bytes (option nat))).2 = true.
Proof.
  split; [reflexivity|].
  exact (proj1 (proj2 (safemap_get_absent (lit "k") (Some 1%nat) ∅ eq_refl))).
Defined.
