(* ===== verification/Locking.v ===== *)
(** * Containers under concurrent calls

    [SafeContainers.v] takes a method of [CSafeSet], [CSafeMap] or
    [CChannelMap] as one atomic step.  Here a method is what the code is: it
    acquires [_mutex], works on the container in several steps ([find], then
    [insert] or [erase]), and releases the mutex when the [scoped_lock] goes out
    of scope, with any number of threads interleaved between all of these. *)
From S2P Require Import Prelude SafeContainers.

(** ** A method body *)

(** Each [Step] is one access to the container: what it makes of it, and how the
    body goes on, given what was found. *)
Inductive code (St R : Type) :=
| Done (r : R)
| Step (f : St -> St) (k : St -> code St R).
Arguments Done {St R} r.
Arguments Step {St R} f k.

(** The body run to its end, nobody else moving. *)
Fixpoint run_code {St R} (k : code St R) (s : St) : R * St :=
  match k with
  | Done r => (r, s)
  | Step f k => run_code (k s) (f s)
  end.

Section object.
Context {St C R : Type} (body : C -> code St R).

(** ** Threads *)

Inductive tstate :=
| Idle
| Want (c : C) (* scoped_lock lk(_mutex) *)
| Inside (c : C) (k : code St R).

(** [completed] is a history variable: the calls that returned, in the order in
    which they released the mutex, with the thread and the result. *)
Record shared := Shared {
  contents : St;
  mutex : option nat; (* the thread that holds it *)
  threads : list tstate;
  completed : list (nat * C * R)
}.

Inductive lmove := LCall (i : nat) (c : C) | LMove (i : nat).

Definition lstep (m : lmove) (x : shared) : option shared :=
  let '(Shared s mu ts h) := x in
  match m with
  | LCall i c => if ts !! i is Some Idle then Some (Shared s mu (<[i := Want c]> ts) h) else None
  | LMove i =>
      t ← ts !! i;
      match t with
      | Idle => None
      | Want c =>
          if mu is None then Some (Shared s (Some i) (<[i := Inside c (body c)]> ts) h) else None
      | Inside c (Step f k) => Some (Shared (f s) mu (<[i := Inside c (k s)]> ts) h)
      | Inside c (Done r) => Some (Shared s None (<[i := Idle]> ts) (h ++ [(i, c, r)]))
      end
  end.

Inductive lreach (n : nat) (s0 : St) : shared -> Prop :=
| lreach_init : lreach n s0 (Shared s0 None (replicate n Idle) [])
| lreach_step m x x' : lreach n s0 x -> lstep m x = Some x' -> lreach n s0 x'.

Fixpoint lrun (ms : list lmove) (x : shared) : option shared :=
  match ms with
  | [] => Some x
  | m :: ms => x ← lstep m x; lrun ms x
  end.

Lemma lrun_reach n s0 ms x x' : lreach n s0 x -> lrun ms x = Some x' -> lreach n s0 x'.
Proof.
  revert x. induction ms as [|m ms IH]; intros x Hr E; simpl in E; [by injection E as <-|].
  destruct (lstep m x) as [x1|] eqn:Em; [|done]. simpl in E. eauto using lreach_step.
Qed.

(** ** Sequential explanation

    [explains s0 h s]: called one after the other in the order of [h], the
    methods give the results in [h] and lead from [s0] to [s]. *)
Inductive explains (s0 : St) : list (nat * C * R) -> St -> Prop :=
| explains_nil : explains s0 [] s0
| explains_snoc h s i c r s' :
    explains s0 h s -> run_code (body c) s = (r, s') -> explains s0 (h ++ [(i, c, r)]) s'.

Definition inside (t : tstate) : bool := if t is Inside _ _ then true else false.

Definition lock_inv (s0 : St) (x : shared) : Prop :=
  exists s, explains s0 (completed x) s /\
  match mutex x with
  | None => contents x = s /\ forall i t, threads x !! i = Some t -> inside t = false
  | Some i =>
      (exists c k, threads x !! i = Some (Inside c k) /\ run_code k (contents x) = run_code (body c) s) /\
      forall j t, j <> i -> threads x !! j = Some t -> inside t = false
  end.

Lemma lock_inv_step s0 m x x' : lock_inv s0 x -> lstep m x = Some x' -> lock_inv s0 x'.
Proof.
  destruct x as [s mu ts h]. intros (sl & He & Hx) E. simpl in *.
  destruct m as [i c|i]; simpl in E.
  - destruct (ts !! i) as [[| |]|] eqn:Ei; try done. injection E as <-. exists sl. split; [done|]. simpl.
    destruct mu as [o|].
    + destruct Hx as [(c' & k & Eo & Hk) Hx].
      assert (o <> i) by (intros ->; congruence). split.
      * exists c', k. by rewrite list_lookup_insert_ne.
      * intros j t Hj Et. destruct (decide (i = j)) as [<-|]; [|rewrite list_lookup_insert_ne in Et by done; eauto].
        rewrite list_lookup_insert_eq in Et by by eapply lookup_lt_Some. by injection Et as <-.
    + destruct Hx as [-> Hx]. split; [done|]. intros j t Et.
      destruct (decide (i = j)) as [<-|]; [|rewrite list_lookup_insert_ne in Et by done; eauto].
      rewrite list_lookup_insert_eq in Et by by eapply lookup_lt_Some. by injection Et as <-.
  - destruct (ts !! i) as [t|] eqn:Ei; [|done]. simpl in E.
    assert (i < length ts)%nat as Hl by by eapply lookup_lt_Some.
    destruct t as [|c|c k]; [done| |].
    + destruct mu as [o|]; [done|]. injection E as <-. destruct Hx as [-> Hx]. exists sl. simpl.
      split; [done|split; [exists c, (body c); by rewrite list_lookup_insert_eq|]].
      intros j t Hj Et. rewrite list_lookup_insert_ne in Et by done. eauto.
    + destruct mu as [o|]; [|destruct Hx as [_ Hx]; by specialize (Hx i _ Ei)].
      destruct Hx as [(c' & k' & Eo & Hk) Hx].
      assert (o = i) as -> by (destruct (decide (i = o)); [done|by specialize (Hx i _ ltac:(done) Ei)]).
      rewrite Ei in Eo. injection Eo as <- <-. destruct k as [r|f k].
      * injection E as <-. exists s. simpl in *. split; [by econstructor|]. split; [done|].
        intros j t Et. destruct (decide (i = j)) as [<-|]; [|rewrite list_lookup_insert_ne in Et by done; eauto].
        rewrite list_lookup_insert_eq in Et by done. by injection Et as <-.
      * injection E as <-. exists sl. simpl in *. split; [done|]. split.
        -- exists c, (k s). by rewrite list_lookup_insert_eq.
        -- intros j t Hj Et. rewrite list_lookup_insert_ne in Et by done. eauto.
Qed.

Lemma lreach_inv n s0 x : lreach n s0 x -> lock_inv s0 x.
Proof.
  induction 1; [|by eapply lock_inv_step]. exists s0. simpl. split; [constructor|].
  split; [done|]. intros i t E. by apply lookup_replicate in E as [-> _].
Qed.

(** As long as a thread is in a call, some thread can move. *)
Definition never_stuck (x : shared) : Prop :=
  forall i t, threads x !! i = Some t -> t <> Idle -> exists j, is_Some (lstep (LMove j) x).

(** The contents while nobody holds the mutex. *)
Lemma lreach_settled n s0 x :
  lreach n s0 x -> mutex x = None -> explains s0 (completed x) (contents x).
Proof. intros Hr E. destruct (lreach_inv n s0 x Hr) as (s & He & Hx). rewrite E in Hx. by destruct Hx as [-> _]. Qed.

(** Whoever holds the mutex can move, and when nobody does, everyone who wants
    it can. *)
Lemma lock_progress n s0 x : lreach n s0 x -> never_stuck x.
Proof.
  intros Hr i t Ei Ht. destruct (lreach_inv n s0 x Hr) as (s & _ & Hx). destruct x as [st mu ts h]. simpl in *.
  destruct mu as [o|].
  - destruct Hx as [(c & k & Eo & _) _]. exists o. rewrite Eo. simpl.
    destruct k as [r|f k]; by eexists.
  - destruct Hx as [_ Hx]. exists i. specialize (Hx i t Ei). rewrite Ei. simpl. destruct t; try done; by eexists.
Qed.
End object.
Arguments tstate : clear implicits.
Arguments shared : clear implicits.
Arguments lmove : clear implicits.

(** ** The methods of the containers *)

(** [find], then [insert] or [erase]. *)
Definition guarded {St : Type} (found : St -> bool) (want : bool) (f : St -> St) : code St bool :=
  Step id (fun s => if Bool.eqb (found s) want then Step f (fun _ => Done true) else Done false).

Definition lookup_only {St : Type} (found : St -> bool) : code St bool := Step id (fun s => Done (found s)).

Section bodies.
Context {T : Type} `{Countable T}.

(** [CSafeSet<T>]. *)
Definition set_body (o : op T T) : code (gset T) bool :=
  match o with
  | OpInsert x => guarded (fun s => bool_decide (x ∈ s)) false (fun s => {[x]} ∪ s)
  | OpRemove x => guarded (fun s => bool_decide (x ∈ s)) true (fun s => s ∖ {[x]})
  | OpHas x => lookup_only (fun s => bool_decide (x ∈ s))
  end.

Lemma set_body_ok o (s : gset T) : run_code (set_body o) s = do_op o s.
Proof.
  destruct o as [x|x|x]; simpl; unfold CSafeSet.insert, CSafeSet.remove, CSafeSet.has, id;
    repeat case_decide; repeat case_bool_decide; simpl; try done; set_solver.
Qed.

Context {V : Type}.

(** [insert], [remove] and [has] of [CSafeMap<T, V>] and [CChannelMap], which are
    searched by key. *)
Definition map_op_body (o : op (T * V) T) : code (gmap T V) bool :=
  match o with
  | OpInsert kv => guarded (fun m => bool_decide (is_Some (m !! kv.1))) false (fun m => <[kv.1 := kv.2]> m)
  | OpRemove k => guarded (fun m => bool_decide (is_Some (m !! k))) true (delete k)
  | OpHas k => lookup_only (fun m => bool_decide (is_Some (m !! k)))
  end.

(** The loops of [removeAll] and [stopAll]: from [begin()] on, [erase] of one
    element after the other. *)
Fixpoint erase_loop {R} (l : list (T * V)) (r : R) : code (gmap T V) R :=
  match l with
  | [] => Done r
  | kv :: l => Step (delete kv.1) (fun _ => erase_loop l r)
  end.

Lemma erase_loop_run {R} l (r : R) (m : gmap T V) :
  (forall k, m !! k = None \/ k ∈ l.*1) -> run_code (erase_loop l r) m = (r, ∅).
Proof.
  revert m. induction l as [|[k v] l IH]; intros m Hm; simpl.
  - f_equal. apply map_eq. intros k. rewrite lookup_empty.
    destruct (Hm k) as [E|E]; [done|by apply not_elem_of_nil in E].
  - apply IH. intros k'. destruct (decide (k = k')) as [<-|Hne]; [left; apply lookup_delete_eq|].
    rewrite lookup_delete_ne by done. destruct (Hm k') as [E|E]; [by left|].
    right. simpl in E. by apply elem_of_cons in E as [->|E].
Qed.

Lemma erase_all_run {R} (r : R) (m : gmap T V) : run_code (erase_loop (map_to_list m) r) m = (r, ∅).
Proof.
  apply erase_loop_run. intros k. destruct (m !! k) as [v|] eqn:E; [right|by left].
  apply list_elem_of_fmap. exists (k, v). split; [done|]. by apply elem_of_map_to_list.
Qed.
End bodies.

Fixpoint map_code {St A B} (f : A -> B) (k : code St A) : code St B :=
  match k with
  | Done a => Done (f a)
  | Step g k => Step g (fun s => map_code f (k s))
  end.

Lemma map_code_run {St A B} (f : A -> B) (k : code St A) s :
  run_code (map_code f k) s = (f (run_code k s).1, (run_code k s).2).
Proof. revert s. induction k as [a|g k IH]; intros s; [done|apply IH]. Qed.

(** *** All methods of [CSafeMap] *)
Section safemap.
Context {T V : Type} `{Countable T}.

Inductive safemap_call :=
| SmOp (o : op (T * option V) T)
| SmSize
| SmGet (key : T)
| SmRemoveAll.
Inductive safemap_result := SmBool (b : bool) | SmCount (n : nat) | SmValue (v : option V) | SmVoid.

Definition safemap_body (c : safemap_call) : code (gmap T (option V)) safemap_result :=
  match c with
  | SmOp o => map_code SmBool (map_op_body o)
  | SmSize => Step id (fun m => Done (SmCount (CSafeMap.size m)))
  | SmGet key =>
      (* the subscript: find, insert a null pointer when there is none, read *)
      Step id (fun m => match m !! key with
                        | Some v => Done (SmValue v)
                        | None => Step <[key := None]> (fun _ => Done (SmValue None))
                        end)
  | SmRemoveAll => Step id (fun m => erase_loop (map_to_list m) SmVoid)
  end.

(** The methods of [SafeContainers.v], each as one step. *)
Definition safemap_seq (c : safemap_call) (m : gmap T (option V)) : safemap_result * gmap T (option V) :=
  match c with
  | SmOp o => let '(b, m) := do_op o m in (SmBool b, m)
  | SmSize => (SmCount (CSafeMap.size m), m)
  | SmGet key => let '(v, m) := CSafeMap.get key m in (SmValue v, m)
  | SmRemoveAll => (SmVoid, CSafeMap.removeAll m)
  end.

Lemma safemap_body_ok c m : run_code (safemap_body c) m = safemap_seq c m.
Proof.
  destruct c as [o| |k|]; simpl.
  - rewrite map_code_run. destruct o as [[k v]|k|k]; simpl;
      unfold CSafeMap.insert, CSafeMap.remove, CSafeMap.has, id; simpl;
      destruct (m !! k) eqn:E; simpl; try done; by rewrite ?E.
  - done.
  - unfold CSafeMap.get, id. by destruct (m !! k).
  - apply erase_all_run.
Qed.
End safemap.
Arguments safemap_call : clear implicits.
Arguments safemap_result : clear implicits.

(** *** All methods of [CChannelMap] *)

Inductive channelmap_call := CmOp (o : op (Z * nat) Z) | CmSize | CmStopAll.

(** [stopAll] returns nothing; what it does to channels, under the mutex, is
    recorded as its result: the weak pointers it locks to call [toStop]. *)
Inductive channelmap_result := CmBool (b : bool) | CmCount (n : nat) | CmStopped (l : list nat).

Definition channelmap_body (c : channelmap_call) : code CChannelMap.Map channelmap_result :=
  match c with
  | CmOp o => map_code CmBool (map_op_body o)
  | CmSize => Step id (fun m => Done (CmCount (CChannelMap.size m)))
  | CmStopAll => Step id (fun m => erase_loop (map_to_list m) (CmStopped (map_to_list m).*2))
  end.

Definition channelmap_seq (c : channelmap_call) (m : CChannelMap.Map) : channelmap_result * CChannelMap.Map :=
  match c with
  | CmOp o => let '(b, m) := do_op o m in (CmBool b, m)
  | CmSize => (CmCount (CChannelMap.size m), m)
  | CmStopAll => (CmStopped (map_to_list m).*2, ∅)
  end.

Lemma channelmap_body_ok c m : run_code (channelmap_body c) m = channelmap_seq c m.
Proof.
  destruct c as [o| |]; simpl.
  - rewrite map_code_run. destruct o as [[k v]|k|k]; simpl;
      unfold CChannelMap.insert, CChannelMap.remove, CChannelMap.has, id; simpl;
      destruct (m !! k) eqn:E; simpl; try done; by rewrite ?E.
  - done.
  - apply erase_all_run.
Qed.

(** ** Histories are sequential histories *)

Definition calls {C R} (h : list (nat * C * R)) : list C := (fun x => x.1.2) <$> h.
Definition results {C R} (h : list (nat * C * R)) : list R := snd <$> h.

(** The results of calls one after the other, and the content they lead to. *)
Fixpoint run_calls {St C R} (call : C -> St -> R * St) (cs : list C) (s : St) : list R * St :=
  match cs with
  | [] => ([], s)
  | c :: cs => let '(r, s) := call c s in let '(rs, s) := run_calls call cs s in (r :: rs, s)
  end.

Section histories.
Context {St C R : Type} (body : C -> code St R) (call : C -> St -> R * St).
Context (body_ok : forall c s, run_code (body c) s = call c s).

Lemma run_calls_snoc cs c s rs s1 r s2 :
  run_calls call cs s = (rs, s1) -> call c s1 = (r, s2) -> run_calls call (cs ++ [c]) s = (rs ++ [r], s2).
Proof.
  revert s rs. induction cs as [|c' cs IH]; intros s rs E Ec; simpl in *.
  - injection E as <- <-. by rewrite Ec.
  - destruct (call c' s) as [r' s']. destruct (run_calls call cs s') as [rs' s''] eqn:E'.
    injection E as <- <-. by rewrite (IH s' rs' E' Ec).
Qed.

Lemma explains_run s0 h s : explains body s0 h s -> run_calls call (calls h) s0 = (results h, s).
Proof.
  induction 1 as [|h s i c r s' _ IH Er]; [done|].
  unfold results, calls. rewrite !fmap_app. simpl. rewrite body_ok in Er. by eapply run_calls_snoc.
Qed.

Definition atomic_history (s0 : St) (x : shared St C R) : Prop :=
  results (completed x) = (run_calls call (calls (completed x)) s0).1 /\
  (mutex x = None -> contents x = (run_calls call (calls (completed x)) s0).2) /\
  never_stuck body x.

Lemma lreach_atomic n s0 x : lreach body n s0 x -> atomic_history s0 x.
Proof.
  intros Hr. split_and!; [| |by eapply lock_progress].
  - destruct (lreach_inv body n s0 x Hr) as (s & He & _). by rewrite (explains_run _ _ _ He).
  - intros E. by rewrite (explains_run _ _ _ (lreach_settled body n s0 x Hr E)).
Qed.
End histories.

(** Where all calls are [insert], [remove] and [has], the sequential methods
    behave like a set of keys. *)
Section keys.
Context {C E K R : Type} `{HC : SafeContainer C E K, !SafeContainerLaws C E K}.
Context {A : Type} (call : A -> C -> R * C) (mk : op E K -> A) (inj : bool -> R).
Context (call_op : forall o c, call (mk o) c = let '(b, c) := do_op o c in (inj b, c)).

Lemma run_calls_set ops c : (run_calls call (mk <$> ops) c).1 = inj <$> run_set sc_key ops (sc_keys c).
Proof.
  rewrite <-run_ops_refines. revert c. induction ops as [|o ops IH]; intros c; [done|].
  csimpl. rewrite call_op. destruct (do_op o c) as [b c'] eqn:E'. csimpl. specialize (IH c').
  destruct (run_calls call (mk <$> ops) c') as [rs c'']. csimpl in *. by rewrite IH.
Qed.
End keys.

Lemma lreach_set {T} `{Countable T} n (s : gset T) x :
  lreach set_body n s x -> results (completed x) = run_set id (calls (completed x)) s.
Proof.
  intros Hr. destruct (lreach_atomic set_body do_op set_body_ok n s x Hr) as [-> _].
  assert (forall (o : op T T) (c : gset T), do_op (id o) c = let '(b, c) := do_op o c in (id b, c)) as Hop.
  { intros o c. change (id o) with o. destruct (do_op o c) as [b c']. done. }
  pose proof (run_calls_set (C := gset T) (E := T) (K := T) do_op id id Hop (calls (completed x)) s) as E.
  rewrite (list_fmap_id (calls (completed x))) in E. by rewrite E, list_fmap_id.
Qed.

Section claims.
Context {T : Type} `{Countable T}.
Implicit Types (h : list (nat * op T T * bool)) (s : gset T).

(** A history that a set explains, one call at a time. *)
Fixpoint set_history s h : Prop :=
  match h with
  | [] => True
  | (_, o, r) :: h => r = (set_op id o s).1 /\ set_history (set_op id o s).2 h
  end.

Lemma set_history_run h s : results h = run_set id (calls h) s -> set_history s h.
Proof.
  revert s. induction h as [|[[i o] r] h IH]; intros s E; [done|]. unfold results, calls in *. simpl in E.
  injection E as -> E. by split; [|apply IH].
Qed.

(** A key that is inserted with success was absent, or has been removed. *)
Lemma insert_after_remove h s j tj g :
  set_history s h -> h !! j = Some (tj, OpInsert g, true) -> g ∈ s ->
  exists k tk, (k < j)%nat /\ h !! k = Some (tk, OpRemove g, true).
Proof.
  revert s j. induction h as [|[[i o] r] h IH]; intros s j Hh Ej Hg; [done|]. destruct Hh as [-> Hh].
  destruct j as [|j]; simpl in Ej.
  - injection Ej as -> -> E. simpl in E. apply bool_decide_eq_true in E. done.
  - destruct (decide (g ∈ (set_op id o s).2)) as [Hin|Hout].
    + destruct (IH _ j Hh Ej Hin) as (k & tk & Hk & Ek). exists (S k), tk. split; [lia|done].
    + exists 0%nat, i. split; [lia|]. destruct o as [x|x|x]; simpl in *; [set_solver| |done].
      destruct (decide (x = g)) as [->|]; [by rewrite bool_decide_true|set_solver].
Qed.

Lemma insert_insert h s i j ti tj g :
  set_history s h -> (i < j)%nat -> h !! i = Some (ti, OpInsert g, true) ->
  h !! j = Some (tj, OpInsert g, true) ->
  exists k tk, (i < k < j)%nat /\ h !! k = Some (tk, OpRemove g, true).
Proof.
  revert s i j. induction h as [|[[t o] r] h IH]; intros s i j Hh Hij Ei Ej; [done|].
  destruct Hh as [-> Hh], j as [|j]; [lia|]. destruct i as [|i]; simpl in Ei, Ej.
  - injection Ei as -> -> _. destruct (insert_after_remove h _ j tj g Hh Ej) as (k & tk & Hk & Ek);
      [simpl; set_solver|]. exists (S k), tk. split; [lia|done].
  - destruct (IH _ i j Hh ltac:(lia) Ei Ej) as (k & tk & Hk & Ek). exists (S k), tk. split; [lia|done].
Qed.
End claims.

(** ** Properties *)

(** C14. The methods of [CSafeSet] ([insert], [remove], [has]), [CSafeMap] (those,
    [size], [get], [removeAll]) and [CChannelMap] (the first three, [size],
    [stopAll]) are atomic although their bodies are not: whatever the
    interleaving of any number of threads, the calls that have returned gave
    exactly the results of the same methods called one after the other, in the
    order in which the mutex was released, and led to the content that those
    calls lead to; as long as a thread is in a call, some thread can move.  As
    far as only [insert], [remove] and [has] are called, the results are those
    of a mathematical set of keys ([CSafeMap::get] inserts a null entry). *)
Theorem containers_linearizable n :
  (forall (s : gset bytes) x, lreach set_body n s x ->
     atomic_history set_body do_op s x /\
     results (completed x) = run_set id (calls (completed x)) s) /\
  (forall (m : gmap bytes (option bytes)) x, lreach safemap_body n m x ->
     atomic_history safemap_body safemap_seq m x /\
     forall ops, calls (completed x) = SmOp <$> ops ->
       results (completed x) = SmBool <$> run_set fst ops (dom m)) /\
  (forall (m : CChannelMap.Map) x, lreach channelmap_body n m x ->
     atomic_history channelmap_body channelmap_seq m x /\
     forall ops, calls (completed x) = CmOp <$> ops ->
       results (completed x) = CmBool <$> run_set fst ops (dom m)).
Proof.
  split_and!; intros s x Hr.
  - split; [by apply (lreach_atomic _ _ set_body_ok n)|by apply (lreach_set n)].
  - pose proof (lreach_atomic _ _ safemap_body_ok n s x Hr) as Ha. split; [done|].
    intros ops Eo. destruct Ha as [-> _]. rewrite Eo.
    by apply (run_calls_set (HC := CSafeMap.container)).
  - pose proof (lreach_atomic _ _ channelmap_body_ok n s x Hr) as Ha. split; [done|].
    intros ops Eo. destruct Ha as [-> _]. rewrite Eo.
    by apply (run_calls_set (HC := CChannelMap.container)).
Qed.

(** A GUID is claimed by one thread at a time: if two calls of
    [CSafeSet::insert] with the same item both returned true, a successful
    [remove] of it came between them, however the calls of all threads were
    interleaved. *)
Theorem claimed_once {T} `{Countable T} n (s : gset T) x i j ti tj g :
  lreach set_body n s x -> (i < j)%nat ->
  completed x !! i = Some (ti, OpInsert g, true) -> completed x !! j = Some (tj, OpInsert g, true) ->
  exists k tk, (i < k < j)%nat /\ completed x !! k = Some (tk, OpRemove g, true).
Proof.
  intros Hr. apply insert_insert with s, set_history_run. exact (lreach_set n s x Hr).
Qed.

(** Two threads want the same GUID; the second one starts inside the first
    one's call. *)
Definition race : list (lmove (op bytes bytes)) :=
  let g := lit "g" in
  [LCall 0 (OpInsert g); LMove 0; LMove 0; LCall 1 (OpInsert g); LMove 0; LMove 0; LMove 1; LMove 1; LMove 1;
   LCall 0 (OpRemove g); LMove 0; LMove 0; LMove 0; LMove 0; LCall 1 (OpInsert g); LMove 1; LMove 1; LMove 1;
   LMove 1]%nat.
Definition after_race : shared (gset bytes) (op bytes bytes) bool :=
  default (Shared ∅ None [] []) (lrun set_body race (Shared ∅ None (replicate 2 Idle) [])).

Lemma race_reach : lreach set_body 2 ∅ after_race.
Proof. eapply (lrun_reach _ _ _ race); [apply lreach_init|]. vm_compute. reflexivity. Qed.

(** One thread reads a key of a [CSafeMap] while another inserts it. *)
Definition get_race : list (lmove (safemap_call bytes bytes)) :=
  [LCall 0 (SmGet (lit "k")); LMove 0; LMove 0; LCall 1 (SmOp (OpInsert (lit "k", Some (lit "v"))));
   LMove 0; LMove 0; LMove 1; LMove 1; LMove 1; LCall 0 SmSize; LMove 0; LMove 0; LMove 0]%nat.
Definition after_get : shared (gmap bytes (option bytes)) (safemap_call bytes bytes) (safemap_result bytes) :=
  default (Shared ∅ None [] []) (lrun safemap_body get_race (Shared ∅ None (replicate 2 Idle) [])).

Lemma get_race_reach : lreach safemap_body 2 ∅ after_get.
Proof. eapply (lrun_reach _ _ _ get_race); [apply lreach_init|]. vm_compute. reflexivity. Qed.

Lemma containers_linearizable_witness :
  results (completed after_race) = [true; false; true; true] /\
  results (completed after_get) = [SmValue None; SmBool false; SmCount 1].
Proof.
  destruct (containers_linearizable 2) as (S & M & _). split.
  - rewrite (proj2 (S ∅ after_race race_reach)). vm_compute. reflexivity.
  - rewrite (proj1 (proj1 (M ∅ after_get get_race_reach))). vm_compute. reflexivity.
Defined.

Lemma claimed_once_witness :
  exists k tk, (0 < k < 3)%nat /\ completed after_race !! k = Some (tk, OpRemove (lit "g"), true).
Proof.
  apply (claimed_once 2 ∅ after_race 0 3 0 1 (lit "g")); [exact race_reach|lia| |]; vm_compute; reflexivity.
Defined.
