(* ===== verification/Util.v ===== *)
(** * Formatting helpers

    Models [to_string], [to_hex] and [formatBytes] of [src/util/util.hpp] and
    [src/util/util.cpp]. *)
From S2P Require Import Prelude.

(** ** Decimal: [util::to_string<uint32_t>], [boost::lexical_cast] of integers *)

Definition digit (d : Z) : byte := Z_byte (48 + d).

Fixpoint dec_aux (fuel : nat) (z : Z) (acc : bytes) : bytes :=
  match fuel with
  | O => acc
  | S fuel =>
      let acc := digit (z `mod` 10) :: acc in
      if z <? 10 then acc else dec_aux fuel (z / 10) acc
  end.

(** Decimal digits of a non-negative integer; an integer has no more decimal
    than binary digits, which bounds the fuel. *)
Definition dec_nonneg (z : Z) : bytes := dec_aux (S (Z.to_nat (Z.log2 z))) z [].

Definition to_string (z : Z) : bytes :=
  if z <? 0 then Init.Byte.x2d :: dec_nonneg (- z) else dec_nonneg z.

(** Reading a digit string back. *)
Definition is_digit (b : byte) : bool := (48 <=? byte_Z b) && (byte_Z b <=? 57).
Definition dec_value (l : bytes) : Z := foldl (fun a b => 10 * a + (byte_Z b - 48)) 0 l.

(** ** Hexadecimal: [util::to_hex] *)

Definition hex_digit (d : Z) : byte := if d <? 10 then Z_byte (48 + d) else Z_byte (87 + d).

(** [out << std::hex << v] for [0 <= v < 256]: no leading zero. *)
Definition hex_print (v : Z) : bytes :=
  if v <? 16 then [hex_digit v] else [hex_digit (v / 16); hex_digit (v `mod` 16)].

(** [setfill('0') << setw(w)]. *)
Definition setw (w : nat) (l : bytes) : bytes :=
  replicate (w - length l) Init.Byte.x30 ++ l.

(** [static_cast<short>(pbuf[i]) & 0xff] for a signed [char]. *)
Definition hex_arg (b : byte) : Z := Z.land (char_Z b) 255.

Fixpoint to_hex (l : bytes) : bytes :=
  match l with
  | [] => []
  | b :: l => setw 2 (hex_print (hex_arg b)) ++ [Init.Byte.x20] ++ to_hex l
  end.

(** [to_hex(pbuf, len)], of the first bytes of a block; [to_hex(s)] of a string
    and [to_hex(arr)] of an array of [char]. *)
Definition to_hex_buf (pbuf : bytes) (len : nat) : outcome bytes :=
  l ← mem_read pbuf 0 len;
  Ok (to_hex l).
Definition to_hex_string (s : bytes) : outcome bytes := to_hex_buf s (length s).
Definition to_hex_array (arr : bytes) : outcome bytes := to_hex_buf arr (length arr).

(** Reading a dump back: two digits and a separator per byte. *)
Definition unhex_digit (b : byte) : Z :=
  if byte_Z b <? 58 then byte_Z b - 48 else byte_Z b - 87.

Fixpoint of_hex (l : bytes) : bytes :=
  match l with
  | h :: l :: _ :: rest => Z_byte (16 * unhex_digit h + unhex_digit l) :: of_hex rest
  | _ => []
  end.

(** ** [formatBytes] *)

Definition KB : Z := 1024.
Definition MB : Z := 1024 * KB.
Definition GB : Z := 1024 * MB.
Definition TB : Z := 1024 * GB.

(** Round to nearest, ties to even, of the quotient [a / b]. *)
Definition rne (a b : Z) : Z :=
  let q := a / b in
  let r := a `mod` b in
  if 2 * r <? b then q
  else if b <? 2 * r then q + 1
  else if Z.even q then q else q + 1.

(** The value of [(double)z] for an unsigned integer: 53 significant bits. *)
Definition to_double (z : Z) : Z :=
  if z <? 2 ^ 53 then z
  else let ulp := 2 ^ (Z.log2 z - 52) in rne z ulp * ulp.

(** [sprintf("%.2f", (double)z / unit)] for a power of two [unit]: the
    division is exact, and the C library rounds the exact value. *)
Definition print_2f (z unit : Z) : bytes :=
  let cents := rne (100 * to_double z) unit in
  dec_nonneg (cents / 100) ++ [Init.Byte.x2e]
  ++ [digit (cents `mod` 100 / 10); digit (cents `mod` 10)].

Definition formatBytes (n : Z) : bytes :=
  if TB <=? n then print_2f n TB ++ lit " TB"
  else if GB <=? n then print_2f n GB ++ lit " GB"
  else if MB <=? n then print_2f n MB ++ lit " MB"
  else if KB <=? n then print_2f n KB ++ lit " KB"
  else dec_nonneg n ++ lit " B".

(** [char buff[32]] of [formatBytes]. *)
Definition formatBytes_buff : nat := 32.

(** ** Lemmas *)

Lemma byte_Z_digit d : 0 ≤ d < 10 -> byte_Z (digit d) = 48 + d.
Proof. intros H. unfold digit. rewrite byte_Z_byte. apply Z.mod_small. lia. Qed.

Lemma is_digit_digit d : 0 ≤ d < 10 -> is_digit (digit d) = true.
Proof.
  intros H. unfold is_digit. rewrite byte_Z_digit by done.
  apply andb_true_iff. split; apply Z.leb_le; lia.
Qed.

Lemma dec_value_app l1 l2 :
  dec_value (l1 ++ l2) = dec_value l1 * 10 ^ Z.of_nat (length l2) + dec_value l2.
Proof.
  induction l2 as [|b l2 IH] using rev_ind; [rewrite app_nil_r; unfold dec_value; simpl; lia|].
  rewrite app_assoc. unfold dec_value in *.
  rewrite (foldl_app _ (l1 ++ l2)), (foldl_app _ l2), IH, length_app. simpl.
  rewrite Nat2Z.inj_add, Z.pow_add_r by lia. change (10 ^ Z.of_nat 1) with 10. lia.
Qed.

Lemma dec_aux_spec fuel z acc :
  0 ≤ z < 10 ^ Z.of_nat fuel -> (0 < fuel)%nat ->
  exists ds, dec_aux fuel z acc = ds ++ acc /\ dec_value ds = z /\
    Forall (fun b => is_digit b = true) ds /\ ds <> [] /\ (length ds ≤ fuel)%nat.
Proof.
  revert z acc. induction fuel as [|fuel IH]; intros z acc Hz Hf; [lia|].
  rewrite Nat2Z.inj_succ, Z.pow_succ_r in Hz by lia. simpl.
  pose proof (Z.mod_pos_bound z 10 ltac:(lia)) as Hm.
  destruct (Z.ltb_spec z 10) as [Hs|Hs].
  - exists [digit (z `mod` 10)]. unfold dec_value. simpl.
    rewrite byte_Z_digit, Z.mod_small by lia.
    split_and!; [done|lia| |done|lia].
    constructor; [apply is_digit_digit; lia|done].
  - destruct fuel as [|fuel]; [simpl in Hz; lia|].
    destruct (IH (z / 10) (digit (z `mod` 10) :: acc)) as (ds & -> & Hv & Hd & Hn & Hl); [|lia|].
    { split; [apply Z.div_pos; lia|]. apply Z.div_lt_upper_bound; lia. }
    exists (ds ++ [digit (z `mod` 10)]). rewrite <-app_assoc. split_and!; [done| | | |].
    + rewrite dec_value_app, Hv. unfold dec_value. simpl.
      rewrite byte_Z_digit by lia. change (10 ^ Z.of_nat 1) with 10.
      pose proof (Z.div_mod z 10). lia.
    + apply Forall_app. split; [done|]. constructor; [by apply is_digit_digit|done].
    + by destruct ds.
    + rewrite length_app. simpl. lia.
Qed.

Lemma dec_fuel_enough z : 0 ≤ z -> z < 10 ^ Z.of_nat (S (Z.to_nat (Z.log2 z))).
Proof.
  intros Hz. pose proof (Z.log2_nonneg z).
  rewrite Nat2Z.inj_succ, Z2Nat.id by done.
  destruct (decide (z = 0)) as [->|]; [done|].
  pose proof (Z.log2_spec z ltac:(lia)) as [_ H2].
  eapply Z.lt_le_trans; [exact H2|]. apply Z.pow_le_mono_l. lia.
Qed.

Lemma dec_nonneg_spec z :
  0 ≤ z -> dec_value (dec_nonneg z) = z /\
           Forall (fun b => is_digit b = true) (dec_nonneg z) /\ dec_nonneg z <> [].
Proof.
  intros Hz. unfold dec_nonneg.
  destruct (dec_aux_spec (S (Z.to_nat (Z.log2 z))) z []) as (ds & -> & Hv & Hd & Hn & _).
  - split; [done|]. by apply dec_fuel_enough.
  - lia.
  - by rewrite app_nil_r.
Qed.

(** More fuel than needed changes nothing. *)
Lemma dec_aux_fuel f1 f2 z acc :
  0 ≤ z < 10 ^ Z.of_nat f1 -> (0 < f1 ≤ f2)%nat -> dec_aux f1 z acc = dec_aux f2 z acc.
Proof.
  revert f2 z acc. induction f1 as [|f1 IH]; intros [|f2] z acc Hz Hf; [lia..|].
  rewrite Nat2Z.inj_succ, Z.pow_succ_r in Hz by lia. simpl.
  destruct (Z.ltb_spec z 10) as [Hs|Hs]; [done|].
  destruct f1 as [|f1]; [simpl in Hz; lia|].
  apply IH; [|lia]. split; [apply Z.div_pos; lia|]. apply Z.div_lt_upper_bound; lia.
Qed.

Lemma length_dec_nonneg z k :
  0 ≤ z < 10 ^ Z.of_nat k -> (0 < k)%nat -> (length (dec_nonneg z) ≤ k)%nat.
Proof.
  intros Hz Hk. unfold dec_nonneg.
  assert (dec_aux (S (Z.to_nat (Z.log2 z))) z [] = dec_aux k z []) as ->.
  { destruct (Nat.le_ge_cases (S (Z.to_nat (Z.log2 z))) k).
    - apply dec_aux_fuel; [|lia]. split; [lia|]. apply dec_fuel_enough. lia.
    - symmetry. apply dec_aux_fuel; lia. }
  destruct (dec_aux_spec k z [] Hz Hk) as (ds & -> & _ & _ & _ & Hl).
  by rewrite app_nil_r.
Qed.

Lemma hex_byte (b : byte) (rest : bytes) :
  exists h l, setw 2 (hex_print (hex_arg b)) ++ [Init.Byte.x20] ++ rest
    = h :: l :: Init.Byte.x20 :: rest
  /\ Z_byte (16 * unhex_digit h + unhex_digit l) = b.
Proof. destruct b; eexists _, _; split; reflexivity. Qed.

Lemma to_hex_string_Ok s : to_hex_string s = Ok (to_hex s).
Proof.
  unfold to_hex_string, to_hex_buf. rewrite mem_read_Ok by lia. by rewrite ok_bind, drop_0, firstn_all.
Qed.

Lemma rne_spec a b :
  0 < b -> 2 * Z.abs (rne a b * b - a) ≤ b.
Proof.
  intros Hb. unfold rne.
  pose proof (Z.mod_pos_bound a b Hb). pose proof (Z.div_mod a b ltac:(lia)).
  destruct (Z.ltb_spec (2 * (a `mod` b)) b); [lia|].
  destruct (Z.ltb_spec b (2 * (a `mod` b))); [lia|].
  destruct (Z.even (a / b)); lia.
Qed.

Lemma rne_nonneg a b : 0 ≤ a -> 0 < b -> 0 ≤ rne a b.
Proof.
  intros Ha Hb. pose proof (Z.div_pos a b Ha Hb). unfold rne. repeat case_match; lia.
Qed.

(** Rounding to a double moves an unsigned 64-bit integer by at most 2^-53 of
    its size, and not at all below 2^53. *)
Lemma to_double_spec z :
  0 ≤ z < 2 ^ 64 ->
  0 ≤ to_double z ≤ 2 ^ 64 + 2 ^ 11 /\ (z < 2 ^ 53 -> to_double z = z).
Proof.
  intros Hz. unfold to_double. destruct (Z.ltb_spec z (2 ^ 53)) as [|Hge]; [lia|].
  split; [|lia].
  assert (53 ≤ Z.log2 z < 64) as Hl.
  { split; [apply Z.log2_le_pow2; lia|apply Z.log2_lt_pow2; lia]. }
  assert (0 < 2 ^ (Z.log2 z - 52) ≤ 2 ^ 11) as [Hu0 Hu1].
  { split; [apply Z.pow_pos_nonneg; lia|apply Z.pow_le_mono_r; lia]. }
  pose proof (rne_spec z _ Hu0). pose proof (rne_nonneg z _ ltac:(lia) Hu0). nia.
Qed.

Lemma length_print_2f z unit :
  0 ≤ z < 2 ^ 64 -> 1024 ≤ unit -> (length (print_2f z unit) ≤ 21)%nat.
Proof.
  intros Hz Hu. unfold print_2f. destruct (to_double_spec z Hz) as [Hd _].
  pose proof (rne_spec (100 * to_double z) unit ltac:(lia)).
  pose proof (rne_nonneg (100 * to_double z) unit ltac:(lia) ltac:(lia)).
  autorewrite with len. simpl.
  enough (length (dec_nonneg (rne (100 * to_double z) unit / 100)) ≤ 18)%nat by lia.
  apply length_dec_nonneg; [|lia]. split; [apply Z.div_pos; lia|].
  apply Z.div_lt_upper_bound; [lia|]. change (10 ^ Z.of_nat 18) with (10 ^ 18). nia.
Qed.

(** ** Properties *)

(** The hex dump written to the log is faithful: every byte, including the
    negative [char]s, becomes two digits and a space, and the dump determines
    the bytes. *)
Theorem to_hex_roundtrip l :
  of_hex (to_hex l) = l /\ length (to_hex l) = (3 * length l)%nat.
Proof.
  induction l as [|b l [IH1 IH2]]; [done|]. unfold to_hex; fold to_hex.
  destruct (hex_byte b (to_hex l)) as (h & d & -> & E).
  simpl of_hex. rewrite E, IH1. simpl length. rewrite IH2. split; [done|lia].
Qed.

(** The decimal text of an unsigned 32-bit integer, as it is sent to
    redis, consists of digits, has at most ten of them and denotes the
    integer. *)
Theorem to_string_u32 z :
  0 ≤ z < 2 ^ 32 ->
  dec_value (to_string z) = z /\ Forall (fun b => is_digit b = true) (to_string z) /\
  (1 ≤ length (to_string z) ≤ 10)%nat.
Proof.
  intros Hz. unfold to_string. rewrite (proj2 (Z.ltb_ge z 0)) by lia.
  destruct (dec_nonneg_spec z ltac:(lia)) as (Hv & Hd & Hn). split_and!; [done|done| |].
  - destruct (dec_nonneg z); [done|simpl; lia].
  - apply length_dec_nonneg; [|lia]. change (10 ^ Z.of_nat 10) with (10 ^ 10). lia.
Qed.

Lemma to_string_u32_witness : dec_value (to_string 4294967295) = 4294967295.
Proof. exact (proj1 (to_string_u32 4294967295 ltac:(lia))). Defined.

(** [formatBytes] never overruns its 32-byte buffer, terminator included,
    for any 64-bit byte count. *)
Theorem formatBytes_fits n :
  0 ≤ n < 2 ^ 64 -> (length (formatBytes n) < formatBytes_buff)%nat.
Proof.
  intros Hn. unfold formatBytes, formatBytes_buff.
  assert (length (dec_nonneg n) ≤ 20)%nat.
  { apply length_dec_nonneg; [|lia]. change (10 ^ Z.of_nat 20) with (10 ^ 20). lia. }
  pose proof (fun u => length_print_2f n u Hn) as Hp.
  pose proof (Hp TB ltac:(done)). pose proof (Hp GB ltac:(done)).
  pose proof (Hp MB ltac:(done)). pose proof (Hp KB ltac:(done)).
  repeat case_match; rewrite length_app; simpl length; lia.
Qed.

Lemma formatBytes_fits_witness : (length (formatBytes (2 ^ 64 - 1)) < 32)%nat.
Proof. exact (formatBytes_fits (2 ^ 64 - 1) ltac:(lia)). Defined.

Example formatBytes_1536 : formatBytes 1536 = lit "1.50 KB".
Proof. reflexivity. Qed.
Example formatBytes_max : formatBytes (2 ^ 64 - 1) = lit "16777216.00 TB".
Proof. reflexivity. Qed.
Example to_hex_ff : to_hex [Init.Byte.xff; Init.Byte.x0a] = lit "ff 0a ".
Proof. reflexivity. Qed.
