(* ===== verification/Backtrace.v ===== *)
(** * Backtraces and clocks

    Models [util::printBacktrace] of [src/util/util.cpp] and
    [util::steady_clock_to_time_t] of [src/util/util.hpp].  What the operating
    system and libc answer (whether the file opens, the frames that
    [backtrace] finds, whether [backtrace_symbols] has memory) is an argument. *)
From S2P Require Import Prelude Util.

(** ** [printBacktrace] *)

(** The answers of one call: can the file be opened; the return addresses of
    the whole stack, innermost first; the text of an address, or no memory. *)
Record backtrace_env := {
  opens : bool;
  stack : list Z;
  symbols : option (Z -> bytes)
}.

(** What it leaves: the file, if it could be opened, what went to [std::cout],
    and whether it called [exit(EXIT_FAILURE)]. *)
Record backtrace_effect := {
  bt_file : option (bytes * bytes); (* name and contents *)
  bt_stdout : bytes;
  bt_exit : option Z
}.

Definition SIZE : nat := 100.
Definition EXIT_FAILURE : Z := 1.
Definition newline : bytes := [Init.Byte.x0a].

Definition backtrace_name (tid : Z) : bytes :=
  lit "/tmp/nat_proxy_asio_" ++ to_string tid ++ lit ".coredump".

(** [backtrace(buffer, SIZE)]. *)
Definition backtrace (e : backtrace_env) : list Z := take SIZE (stack e).

Definition bt_line (j : nat) (s : bytes) : bytes :=
  lit "#" ++ to_string (Z.of_nat j) ++ lit " >> " ++ s ++ newline.

(** The first line, for [nptrs] addresses. *)
Definition bt_header (nptrs : nat) : bytes :=
  lit "backtrace() returned " ++ to_string (Z.of_nat nptrs) ++ lit " addresses" ++ newline.

(** The loop over [strings]: what it writes to the file and to [std::cout]. *)
Fixpoint bt_lines (j : nat) (strings : list bytes) : bytes * bytes :=
  match strings with
  | [] => ([], [])
  | s :: strings =>
      let '(file, out) := bt_lines (S j) strings in
      (bt_line j s ++ file, s ++ newline ++ out)
  end.

(** [printBacktrace(sig)]; [sig] is not used. *)
Definition printBacktrace (tid sig : Z) (e : backtrace_env) : backtrace_effect :=
  if negb (opens e) then {| bt_file := None; bt_stdout := []; bt_exit := None |}
  else
    let nptrs := length (backtrace e) in
    let header := bt_header nptrs in
    match symbols e with
    | None =>
        {| bt_file := Some (backtrace_name tid, header ++ lit "backtrace_symbols" ++ newline);
           bt_stdout := []; bt_exit := Some EXIT_FAILURE |}
    | Some f =>
        let '(file, out) := bt_lines 0 (f <$> backtrace e) in
        {| bt_file := Some (backtrace_name tid, header ++ file); bt_stdout := out; bt_exit := None |}
    end.

(** The lines of a text. *)
Fixpoint split_lines (acc : bytes) (l : bytes) : list bytes :=
  match l with
  | [] => match acc with [] => [] | _ => [acc] end
  | c :: l => if decide (c = Init.Byte.x0a) then acc :: split_lines [] l else split_lines (acc ++ [c]) l
  end.

Lemma split_lines_line acc s rest :
  Init.Byte.x0a ∉ s -> split_lines acc (s ++ newline ++ rest) = (acc ++ s) :: split_lines [] rest.
Proof.
  revert acc. induction s as [|c s IH]; intros acc Hs; simpl; [by rewrite app_nil_r|].
  apply not_elem_of_cons in Hs as [Hc Hs]. rewrite decide_False by congruence.
  rewrite IH by done. by rewrite <-app_assoc.
Qed.

Lemma bt_lines_out j strings :
  Forall (fun s => Init.Byte.x0a ∉ s) strings -> split_lines [] (bt_lines j strings).2 = strings.
Proof.
  intros Hf. revert j. induction Hf as [|s strings Hs _ IH]; intros j; [done|]. simpl.
  specialize (IH (S j)). destruct (bt_lines (S j) strings) as [file out]. simpl in *.
  change (split_lines [] (s ++ newline ++ out) = s :: strings). rewrite split_lines_line by done.
  by rewrite IH.
Qed.

(** No line of the file is lost, and each carries its number. *)
Lemma bt_lines_file j strings :
  (bt_lines j strings).1 = concat (imap (fun k s => bt_line (j + k) s) strings).
Proof.
  revert j. induction strings as [|s strings IH]; intros j; [done|]. simpl. specialize (IH (S j)).
  destruct (bt_lines (S j) strings) as [file out]. simpl in *. rewrite Nat.add_0_r, IH.
  erewrite (imap_ext (fun k s => bt_line (S (j + k)) s)); [done|].
  intros k x _. simpl. f_equal. lia.
Qed.

(** ** Clocks *)

(** [steady_clock_to_time_t(t)], both clocks in nanoseconds; [to_time_t]
    truncates towards zero. *)
Definition steady_clock_to_time_t (system_now steady_now t : Z) : Z :=
  (system_now + (t - steady_now)) ÷ 1000000000.

(** A later instant is never converted to an earlier time. *)
Lemma steady_clock_mono sys st t t' :
  t <= t' -> steady_clock_to_time_t sys st t <= steady_clock_to_time_t sys st t'.
Proof. intros H. unfold steady_clock_to_time_t. apply Z.quot_le_mono; lia. Qed.

(** ** Properties *)

(** [printBacktrace] writes to [/tmp/nat_proxy_asio_<tid>.coredump] and to the
    standard output exactly the innermost 100 frames of the stack, in order, on
    the output one line each; it ends the process only when the symbols cannot
    be allocated, and does nothing at all when the file cannot be opened.  In
    particular it returns to the instruction that raised [SIGSEGV]. *)
Theorem backtrace_written tid sig e f :
  symbols e = Some f -> (forall a, Init.Byte.x0a ∉ f a) ->
  bt_exit (printBacktrace tid sig e) = None /\
  (opens e = true ->
   split_lines [] (bt_stdout (printBacktrace tid sig e)) = f <$> take SIZE (stack e) /\
   bt_file (printBacktrace tid sig e) =
     Some (backtrace_name tid, bt_header (length (take SIZE (stack e))) ++
                               concat (imap bt_line (f <$> take SIZE (stack e))))).
Proof.
  intros Es Hf. unfold printBacktrace. rewrite Es. destruct (opens e); [|done].
  pose proof (bt_lines_out 0 (f <$> backtrace e)) as Ho. pose proof (bt_lines_file 0 (f <$> backtrace e)) as Hl.
  destruct (bt_lines 0 (f <$> backtrace e)) as [file out]. cbn [fst snd] in Ho, Hl.
  cbn [negb bt_exit bt_stdout bt_file]. split; [done|]. intros _. split.
  - apply Ho. apply Forall_forall. intros s (a & -> & _)%list_elem_of_fmap. apply Hf.
  - by rewrite Hl.
Qed.

Definition demo_stack : backtrace_env :=
  {| opens := true; stack := [1; 2]; symbols := Some (fun _ => lit "f") |}.

Lemma backtrace_written_witness :
  bt_exit (printBacktrace 7 11 demo_stack) = None /\
  bt_stdout (printBacktrace 7 11 demo_stack)
    = lit "f" ++ newline ++ lit "f" ++ newline.
Proof.
  split; [|reflexivity].
  refine (proj1 (backtrace_written 7 11
    demo_stack (fun _ => lit "f") eq_refl _)).
  intros a. apply (bool_decide_unpack (_ ∉ lit "f")). vm_compute. exact I.
Defined.
