(* ===== verification/Version.v ===== *)
(** * Version and build date

    Models the macros of [src/util/version.h], which compute two constant
    texts at compile time: [SERVER_VERSION_DATE] and [BUILD_VERSION], printed
    when the server starts and stops.  The preprocessor's [__DATE__] and
    [__TIME__] are parameters: ["Mmm dd yyyy"], the day padded with a blank, and
    ["hh:mm:ss"].  An index of a string literal is checked. *)
From S2P Require Import Prelude Util.

Definition VERSION_MAJOR : Z := 2.
Definition VERSION_MINOR : Z := 2.

(** [s[i]] of a string literal, whose last element is the terminator. *)
Definition text_at (s : bytes) (i : nat) : byte := nth i s Init.Byte.x00.
Definition chr (s : string) : byte := text_at (lit s) 0.

Section macros.
Context (DATE TIME : bytes).

Definition BUILD_YEAR_CH0 : byte := text_at DATE 7.
Definition BUILD_YEAR_CH1 : byte := text_at DATE 8.
Definition BUILD_YEAR_CH2 : byte := text_at DATE 9.
Definition BUILD_YEAR_CH3 : byte := text_at DATE 10.

(** [__DATE__[i] == c]. *)
Definition date_is (i : nat) (c : string) : bool := bool_decide (text_at DATE i = chr c).

Definition BUILD_MONTH_IS_JAN : bool := date_is 0 "J" && date_is 1 "a" && date_is 2 "n".
Definition BUILD_MONTH_IS_FEB : bool := date_is 0 "F".
Definition BUILD_MONTH_IS_MAR : bool := date_is 0 "M" && date_is 1 "a" && date_is 2 "r".
Definition BUILD_MONTH_IS_APR : bool := date_is 0 "A" && date_is 1 "p".
Definition BUILD_MONTH_IS_MAY : bool := date_is 0 "M" && date_is 1 "a" && date_is 2 "y".
Definition BUILD_MONTH_IS_JUN : bool := date_is 0 "J" && date_is 1 "u" && date_is 2 "n".
Definition BUILD_MONTH_IS_JUL : bool := date_is 0 "J" && date_is 1 "u" && date_is 2 "l".
Definition BUILD_MONTH_IS_AUG : bool := date_is 0 "A" && date_is 1 "u".
Definition BUILD_MONTH_IS_SEP : bool := date_is 0 "S".
Definition BUILD_MONTH_IS_OCT : bool := date_is 0 "O".
Definition BUILD_MONTH_IS_NOV : bool := date_is 0 "N".
Definition BUILD_MONTH_IS_DEC : bool := date_is 0 "D".

Definition BUILD_MONTH_CH0 : byte :=
  if BUILD_MONTH_IS_OCT || BUILD_MONTH_IS_NOV || BUILD_MONTH_IS_DEC then chr "1" else chr "0".

Definition BUILD_MONTH_CH1 : byte :=
  if BUILD_MONTH_IS_JAN then chr "1"
  else if BUILD_MONTH_IS_FEB then chr "2"
  else if BUILD_MONTH_IS_MAR then chr "3"
  else if BUILD_MONTH_IS_APR then chr "4"
  else if BUILD_MONTH_IS_MAY then chr "5"
  else if BUILD_MONTH_IS_JUN then chr "6"
  else if BUILD_MONTH_IS_JUL then chr "7"
  else if BUILD_MONTH_IS_AUG then chr "8"
  else if BUILD_MONTH_IS_SEP then chr "9"
  else if BUILD_MONTH_IS_OCT then chr "0"
  else if BUILD_MONTH_IS_NOV then chr "1"
  else if BUILD_MONTH_IS_DEC then chr "2"
  else chr "?".

Definition BUILD_DAY_CH0 : byte :=
  if char_Z (chr "0") <=? char_Z (text_at DATE 4) then text_at DATE 4 else chr "0".
Definition BUILD_DAY_CH1 : byte := text_at DATE 5.

Definition BUILD_HOUR_CH0 : byte := text_at TIME 0.
Definition BUILD_HOUR_CH1 : byte := text_at TIME 1.
Definition BUILD_MIN_CH0 : byte := text_at TIME 3.
Definition BUILD_MIN_CH1 : byte := text_at TIME 4.
Definition BUILD_SEC_CH0 : byte := text_at TIME 6.
Definition BUILD_SEC_CH1 : byte := text_at TIME 7.

(** [VERSION_MAJOR_INIT] and [VERSION_MINOR_INIT]: the same text for each
    number; [d + '0'] is narrowed to [char]. *)
Definition VERSION_INIT (v : Z) : bytes :=
  if 100 <? v then [Z_byte (v / 100 + 48); Z_byte (v `mod` 100 / 10 + 48); Z_byte (v `mod` 10 + 48)]
  else if 10 <? v then [Z_byte (v / 10 + 48); Z_byte (v `mod` 10 + 48)]
  else [Z_byte (v + 48)].

(** The two texts, without their terminator, for any version. *)
Definition version_date (major minor : Z) : bytes :=
  [chr "("; chr "V"] ++ VERSION_INIT major ++ [chr "."] ++ VERSION_INIT minor ++ [chr "."] ++
  [BUILD_YEAR_CH0; BUILD_YEAR_CH1; BUILD_YEAR_CH2; BUILD_YEAR_CH3; BUILD_MONTH_CH0; BUILD_MONTH_CH1;
   BUILD_DAY_CH0; BUILD_DAY_CH1; chr ")"].
Definition build_version (major minor : Z) : bytes :=
  VERSION_INIT major ++ [chr "."] ++ VERSION_INIT minor ++ [chr "."] ++
  [BUILD_YEAR_CH2; BUILD_YEAR_CH3; BUILD_MONTH_CH0; BUILD_MONTH_CH1; BUILD_DAY_CH0; BUILD_DAY_CH1;
   chr "."; BUILD_HOUR_CH0; BUILD_HOUR_CH1; BUILD_MIN_CH0; BUILD_MIN_CH1; BUILD_SEC_CH0; BUILD_SEC_CH1].

Definition SERVER_VERSION_DATE : bytes := version_date VERSION_MAJOR VERSION_MINOR ++ [Init.Byte.x00].
Definition BUILD_VERSION : bytes := build_version VERSION_MAJOR VERSION_MINOR ++ [Init.Byte.x00].
End macros.

(** ** What the preprocessor provides *)

Definition months : list bytes :=
  [lit "Jan"; lit "Feb"; lit "Mar"; lit "Apr"; lit "May"; lit "Jun"; lit "Jul"; lit "Aug"; lit "Sep";
   lit "Oct"; lit "Nov"; lit "Dec"].

(** A number in [n] decimal digits, leading zeros included. *)
Fixpoint digits (n : nat) (z : Z) : bytes :=
  match n with O => [] | S n => digits n (z / 10) ++ [digit (z `mod` 10)] end.

Definition date_text (year month day : Z) : bytes :=
  nth (Z.to_nat (month - 1)) months [] ++ [chr " "] ++
  (if day <? 10 then [chr " "; digit day] else digits 2 day) ++ [chr " "] ++ digits 4 year.
Definition time_text (hour min sec : Z) : bytes :=
  digits 2 hour ++ [chr ":"] ++ digits 2 min ++ [chr ":"] ++ digits 2 sec.

Record build_time := {
  year : Z; month : Z; day : Z; hour : Z; minute : Z; second : Z
}.
Record valid_time (b : build_time) : Prop := {
  vt_year : 0 <= year b <= 9999; vt_month : 1 <= month b <= 12; vt_day : 1 <= day b <= 31;
  vt_hour : 0 <= hour b <= 23; vt_minute : 0 <= minute b <= 59; vt_second : 0 <= second b <= 60
}.

(** ** Lemmas *)

Lemma digits_value n z : 0 <= z < 10 ^ Z.of_nat n -> dec_value (digits n z) = z.
Proof.
  revert z. induction n as [|n IH]; intros z Hz; [simpl in *; unfold dec_value; simpl; lia|].
  rewrite Nat2Z.inj_succ, Z.pow_succ_r in Hz by lia. simpl. rewrite dec_value_app, IH.
  - unfold dec_value. simpl. rewrite byte_Z_digit by (apply Z.mod_pos_bound; lia).
    change (10 ^ Z.of_nat 1) with 10. pose proof (Z.div_mod z 10). lia.
  - split; [apply Z.div_pos; lia|apply Z.div_lt_upper_bound; lia].
Qed.

Lemma length_digits n z : length (digits n z) = n.
Proof. revert z. induction n as [|n IH]; intros z; simpl; rewrite ?length_app, ?IH; simpl; lia. Qed.

(** A statement about the finitely many values of a field is evaluated. *)
Lemma forall_range (P : Z -> bool) lo n :
  forallb P ((fun k => lo + Z.of_nat k) <$> seq 0 n) = true ->
  forall z, lo <= z < lo + Z.of_nat n -> P z = true.
Proof.
  intros Hf z Hz. rewrite forallb_forall in Hf. apply Hf, list_elem_of_In, list_elem_of_fmap.
  exists (Z.to_nat (z - lo)). split; [lia|]. apply elem_of_seq. lia.
Qed.

Lemma forall_bool (P : Z -> bool) n z :
  forallb P (Z.of_nat <$> seq 0 n) = true -> 0 <= z < Z.of_nat n -> P z = true.
Proof.
  intros Hf Hz. apply (forall_range P 0 n); [exact Hf|lia].
Qed.

(** The months are told apart by their first letters. *)
Lemma month_digits m rest :
  1 <= m <= 12 -> let D := nth (Z.to_nat (m - 1)) months [] ++ rest in
  [BUILD_MONTH_CH0 D; BUILD_MONTH_CH1 D] = digits 2 m.
Proof.
  intros Hm D. unfold D. assert (m ∈ (fun k => 1 + Z.of_nat k) <$> seq 0 12) as Hin.
  { apply list_elem_of_fmap. exists (Z.to_nat (m - 1)). split; [lia|]. apply elem_of_seq. lia. }
  simpl in Hin. repeat (apply elem_of_cons in Hin as [->|Hin]; [reflexivity|]). by apply elem_of_nil in Hin.
Qed.

(** A day below ten is padded with a blank in [__DATE__], and with a zero here. *)
Definition day_chars (d : Z) : bytes := if d <? 10 then [chr " "; digit d] else digits 2 d.

Lemma day_digits d c0 c1 :
  1 <= d <= 31 -> day_chars d = [c0; c1] ->
  [if char_Z (chr "0") <=? char_Z c0 then c0 else chr "0"; c1] = digits 2 d.
Proof.
  intros Hd E.
  set (P d := bool_decide (
    match day_chars d with
    | [c0; c1] => [if char_Z (chr "0") <=? char_Z c0 then c0 else chr "0"; c1]
    | _ => digits 2 d end = digits 2 d)).
  assert (P d = true) as H by (apply (forall_bool P 32); [vm_compute; reflexivity|lia]). unfold P in H.
  apply bool_decide_eq_true in H. by rewrite E in H.
Qed.

Lemma length_2 (l : bytes) : length l = 2%nat -> exists a b, l = [a; b].
Proof. destruct l as [|a [|b [|]]]; try done. eauto. Qed.
Lemma length_4 (l : bytes) : length l = 4%nat -> exists a b c d, l = [a; b; c; d].
Proof. destruct l as [|a [|b [|c [|d [|]]]]]; try done. eauto 6. Qed.

Lemma last_digits y : drop 2 (digits 4 y) = digits 2 (y `mod` 100).
Proof.
  simpl. f_equal; [|f_equal].
  - f_equal. rewrite (Z.mod_eq y 100) by lia.
    replace (y - 100 * (y / 100)) with (y + (- (10 * (y / 100))) * 10) by lia.
    rewrite Z.div_add by lia. replace (y / 10 + - (10 * (y / 100))) with (y / 10 + (- (y / 100)) * 10) by lia.
    by rewrite Z.mod_add by lia.
  - f_equal. rewrite (Z.mod_eq y 100) by lia.
    replace (y - 100 * (y / 100)) with (y + (- (10 * (y / 100))) * 10) by lia. by rewrite Z.mod_add by lia.
Qed.

(** ** Properties *)

(** The build date in the two version texts is right for every date and
    time of day that the preprocessor can report: year, month and day, and hour,
    minute and second, each with its leading zeros, although [__DATE__] names the
    month and pads the day with a blank. *)
Theorem version_texts b :
  valid_time b ->
  let D := date_text (year b) (month b) (day b) in
  let T := time_text (hour b) (minute b) (second b) in
  SERVER_VERSION_DATE D =
    lit "(V2.2." ++ digits 4 (year b) ++ digits 2 (month b) ++ digits 2 (day b) ++ lit ")" ++
    [Init.Byte.x00] /\
  BUILD_VERSION D T =
    lit "2.2." ++ digits 2 (year b `mod` 100) ++ digits 2 (month b) ++ digits 2 (day b) ++ lit "." ++
    digits 2 (hour b) ++ digits 2 (minute b) ++ digits 2 (second b) ++ [Init.Byte.x00].
Proof.
  intros [Hy Hm Hd _ _ _] D T.
  pose proof (month_digits (month b) ([chr " "] ++ day_chars (day b) ++ [chr " "] ++ digits 4 (year b)) Hm) as Em.
  change (nth _ _ _ ++ _) with D in Em. cbv zeta in Em.
  destruct (length_2 (day_chars (day b))) as (c0 & c1 & Ec).
  { unfold day_chars. case_match; [done|apply length_digits]. }
  pose proof (day_digits (day b) c0 c1 Hd Ec) as Ed.
  destruct (length_4 (digits 4 (year b)) (length_digits 4 _)) as (y0 & y1 & y2 & y3 & Ey).
  rewrite <-last_digits, Ey, <-Em, <-Ed.
  destruct (length_2 (digits 2 (hour b)) (length_digits 2 _)) as (h0 & h1 & Eh).
  destruct (length_2 (digits 2 (minute b)) (length_digits 2 _)) as (n0 & n1 & En).
  destruct (length_2 (digits 2 (second b)) (length_digits 2 _)) as (s0 & s1 & Es).
  assert (exists m0 m1 m2, D = [m0; m1; m2; chr " "; c0; c1; chr " "; y0; y1; y2; y3]) as (m0 & m1 & m2 & ED).
  { assert (length (nth (Z.to_nat (month b - 1)) months []) = 3%nat) as Hl.
    { apply Nat.eqb_eq. apply (forall_range (fun m => length (nth (Z.to_nat (m - 1)) months []) =? 3)%nat 1 12);
        [vm_compute; reflexivity|lia]. }
    unfold D, date_text. change (if day b <? 10 then _ else _) with (day_chars (day b)).
    rewrite Ec, Ey. destruct (nth _ _ _) as [|m0 [|m1 [|m2 [|]]]]; try done. by exists m0, m1, m2. }
  assert (T = [h0; h1; chr ":"; n0; n1; chr ":"; s0; s1]) as ET
    by (unfold T, time_text; by rewrite Eh, En, Es).
  rewrite Eh, En, Es. unfold SERVER_VERSION_DATE, BUILD_VERSION, version_date, build_version.
  generalize (BUILD_MONTH_CH0 D), (BUILD_MONTH_CH1 D). intros p q. rewrite ED, ET.
  split; reflexivity.
Qed.

Definition demo_time : build_time :=
  {| year := 2018; month := 12; day := 5; hour := 9; minute := 30; second := 7 |}.

Lemma version_texts_witness :
  SERVER_VERSION_DATE (lit "Dec  5 2018") = lit "(V2.2.20181205)" ++ [Init.Byte.x00] /\
  BUILD_VERSION (lit "Dec  5 2018") (lit "09:30:07") = lit "2.2.181205.093007" ++ [Init.Byte.x00].
Proof. refine (version_texts demo_time _). split; simpl; lia. Defined.

(** A version number below 1000 is printed right, with two exceptions: the
    macros compare with [> 10] and [> 100] where they mean [>=], so 10 and 100
    come out as a colon, and as a colon and a zero. *)
Theorem version_numbers v :
  0 <= v < 1000 ->
  (if (v =? 10) || (v =? 100) then ~ Forall (fun c => is_digit c = true) (VERSION_INIT v)
   else VERSION_INIT v = dec_nonneg v) /\
  VERSION_INIT 10 = lit ":" /\ VERSION_INIT 100 = lit ":0".
Proof.
  intros Hv. split; [|done].
  set (P v := if (v =? 10) || (v =? 100) then negb (forallb is_digit (VERSION_INIT v))
              else bool_decide (VERSION_INIT v = dec_nonneg v)).
  assert (P v = true) as H by (apply (forall_bool P 1000); [vm_compute; reflexivity|lia]). unfold P in H.
  case_match; [|by apply bool_decide_eq_true in H].
  intros Hf. apply negb_true_iff in H.
  assert (forallb is_digit (VERSION_INIT v) = true) as Ht; [|by rewrite Ht in H].
  apply forallb_forall. intros x Hx. rewrite Forall_forall in Hf. by apply Hf, list_elem_of_In.
Qed.

Lemma version_numbers_witness : ~ Forall (fun c => is_digit c = true) (VERSION_INIT 100).
Proof. exact (proj1 (version_numbers 100 ltac:(lia))). Defined.
