(* ===== verification/Logger.v ===== *)
(** * Logging

    Models [src/util/CLogger.hpp] and [src/util/CLogger.cpp]: the levels, the
    name, rotation size and filter of the log file that [initLog] sets up, the
    layout of a line, and the sinks that the core of boost.log holds between
    [initLog] and [finitLog]; and [Debug/logger.cpp], an older version of the
    same.  boost.log writes the file; the file system is a parameter. *)
From S2P Require Import Prelude Util.

Inductive LogLevel := TRACE | DEBUG | INFO | WARNING | ERR | FATAL | REPORT.

Definition level_Z (l : LogLevel) : Z :=
  match l with
  | TRACE => 0 | DEBUG => 1 | INFO => 2 | WARNING => 3 | ERR => 4 | FATAL => 5 | REPORT => 6
  end.

Definition levels : list bytes :=
  [lit "TRACE"; lit "DEBUG"; lit "INFO "; lit "WARN "; lit "ERROR"; lit "FATAL"; lit "REPORT"].

(** [operator<<(strm, lvl)], with the value of [gettid()]. *)
Definition put_level (tid : Z) (lvl : Z) : bytes :=
  match levels !! Z.to_nat lvl with
  | Some name => name ++ lit "] [#" ++ to_string tid
  | None => to_string lvl
  end.

(** The file system as [initLog] sees it. *)
Class FileSystem := {
  fs_exists : bytes -> bool;
  fs_create_directories : bytes -> bool (* false: it throws *)
}.

Record FileSink := {
  file_name : bytes;
  rotation_size : Z; (* bytes, uintmax_t *)
  min_level : Z
}.

(** [initLog(proc_name, path, rotation_size, level)]. *)
Definition initLog `{FileSystem} (tid : Z) (proc_name path : bytes) (rotation level : Z) :
    outcome FileSink :=
  if negb (fs_exists path) && negb (fs_create_directories path) then Throw system_error
  else Ok {| file_name := path ++ lit "/" ++ proc_name ++ lit "_" ++ to_string tid
                          ++ lit "_%Y%m%d_%02N.log";
             rotation_size := wrap 64 (wrap 64 (rotation * 1024) * 1024);
             min_level := level |}.

(** The filter of the sink. *)
Definition passes (s : FileSink) (l : LogLevel) : bool := min_level s <=? level_Z l.

(** ** The core of boost.log

    What is logged reaches every sink whose filter it passes. *)
Abbreviation core := (list FileSink).
Definition add_sink (s : FileSink) (c : core) : core := c ++ [s].
Definition init_core `{FileSystem} (tid : Z) (proc_name path : bytes) (rotation level : Z) (c : core) :
    outcome core :=
  s ← initLog tid proc_name path rotation level;
  Ok (add_sink s c).
(** [finitLog()]. *)
Definition finitLog (c : core) : core := [].

(** The sinks that write a message. *)
Definition deliver (l : LogLevel) (c : core) : core := filter (fun s => passes s l = true) c.

(** [get_native_process_id], [get_native_thread_id]: 0 when the attribute is
    missing. *)
Definition get_native_process_id (pid : option Z) : Z := default 0 pid.
Definition get_native_thread_id (tid : option Z) : Z := default 0 tid.

(** The formatter of the sink, [gettid()] being called while it prints. *)
Definition format_record (pid : option Z) (timestamp : bytes) (tid : Z) (l : LogLevel) (msg : bytes) :
    bytes :=
  lit "[P:" ++ to_string (get_native_process_id pid) ++ lit "] [" ++ timestamp ++ lit "] [" ++
  put_level tid (level_Z l) ++ lit "]> " ++ msg.

(** ** [Debug/logger.cpp] *)
Module Debug.
(** [path::append]: a separator where there is none. *)
Definition path_append (p q : bytes) : bytes :=
  match last p with
  | None => q
  | Some c => if decide (c = Init.Byte.x2f) then p ++ q else p ++ lit "/" ++ q
  end.

(** [InitLog(log_dir)]; [rotation_size] is the [int] 20 * 1024 * 1024. *)
Definition InitLog `{FileSystem} (log_dir : bytes) (c : core) : outcome core :=
  let log_path := path_append log_dir (lit "logs") in
  if negb (fs_exists log_path) && negb (fs_create_directories log_path) then Throw system_error
  else Ok (add_sink {| file_name := log_path ++ lit "/%Y%m%d_%N.log";
                       rotation_size := 20 * 1024 * 1024;
                       min_level := level_Z TRACE |} c).
Definition FinitLog (c : core) : core := [].
End Debug.

(** ** Lemmas *)

(** After [initLog] on an empty core exactly the messages of the configured
    level and above are written, each once; before it and after [finitLog],
    none. *)
Lemma deliver_init `{FileSystem} tid name path rotation level c l :
  init_core tid name path rotation level [] = Ok c ->
  length (deliver l c) = (if level <=? level_Z l then 1%nat else 0%nat) /\ deliver l (finitLog c) = [].
Proof.
  unfold init_core, initLog. case_cond; [done|]. intros [= <-]. split; [|done].
  unfold deliver, add_sink. rewrite app_nil_l, filter_cons, filter_nil. unfold passes. simpl.
  case_decide as Hd; [by rewrite Hd|]. by destruct (level <=? level_Z l).
Qed.

(** A second [initLog] would write every message twice. *)
Lemma deliver_twice l s : passes s l = true -> length (deliver l (add_sink s [s])) = 2%nat.
Proof.
  intros E. unfold deliver, add_sink. rewrite filter_app, length_app.
  by rewrite filter_cons_True by done.
Qed.

(** Every level has its own name. *)
Lemma levels_complete l : is_Some (levels !! Z.to_nat (level_Z l)).
Proof. by destruct l; eexists. Qed.

(** A message that passes is written with all the more severe ones. *)
Lemma passes_mono s l l' : passes s l = true -> level_Z l ≤ level_Z l' -> passes s l' = true.
Proof. unfold passes. rewrite !Z.leb_le. lia. Qed.

(** Up to 2^44 MB the rotation size does not wrap around. *)
Lemma initLog_rotation `{FileSystem} tid name path rotation level s :
  0 ≤ rotation < 2 ^ 44 -> initLog tid name path rotation level = Ok s ->
  rotation_size s = rotation * 2 ^ 20.
Proof.
  intros Hr. unfold initLog. case_cond; [done|]. intros [= <-]. simpl. unfold wrap.
  rewrite (Z.mod_small (rotation * 1024)) by lia. rewrite Z.mod_small by lia. lia.
Qed.
