(* ===== verification/IoContextPool.v ===== *)
(** * The pool of I/O contexts

    Models [src/net/CIoContextPool.hpp] and [src/net/CIoContextPool.cpp]: the
    round-robin hand-out of contexts to new objects, the shutdown of the pool
    and the thread that runs one context. *)
From S2P Require Import Prelude.

(** ** State *)

(** A context is identified by its number; [_io_context_works] keeps one work
    guard per context. *)
Record CIoContextPool := {
  _io_contexts : list nat;
  _io_context_works : list nat;
  _next_context_index : nat;
  _worker_num : nat;
  _started : bool
}.

(** [CIoContextPool(pool_size)]. *)
Definition new_pool (pool_size : nat) : CIoContextPool :=
  {| _io_contexts := seq 0 pool_size;
     _io_context_works := seq 0 pool_size;
     _next_context_index := 0;
     _worker_num := pool_size;
     _started := true |}.

(** [stop()]; the second component lists the contexts that are stopped. *)
Definition stop (p : CIoContextPool) : CIoContextPool * list nat :=
  if _started p then
    ({| _io_contexts := []; _io_context_works := [];
        _next_context_index := _next_context_index p;
        _worker_num := _worker_num p; _started := false |}, _io_contexts p)
  else (p, []).

Definition with_index (p : CIoContextPool) (i : nat) : CIoContextPool :=
  {| _io_contexts := _io_contexts p; _io_context_works := _io_context_works p;
     _next_context_index := i; _worker_num := _worker_num p; _started := _started p |}.

(** [getIoContext()]: the vector is indexed without a check. *)
Definition getIoContext (p : CIoContextPool) : outcome (nat * CIoContextPool) :=
  match _io_contexts p !! _next_context_index p with
  | None => UB out_of_bounds_read
  | Some io =>
      let i := S (_next_context_index p) in
      Ok (io, with_index p (if decide (i = length (_io_contexts p)) then 0%nat else i))
  end.

(** [n] calls in a row, with the contexts they return. *)
Fixpoint getIoContexts (n : nat) (p : CIoContextPool) : outcome (list nat * CIoContextPool) :=
  match n with
  | O => Ok ([], p)
  | S n =>
      '(io, p) ← getIoContext p;
      '(ios, p) ← getIoContexts n p;
      Ok (io :: ios, p)
  end.

(** ** The thread of one context

    [io->run()] executes ready handlers one after the other; an exception
    leaves it, is caught and logged, and [break] ends the thread.  The result
    lists the handlers that were executed. *)
Fixpoint startThread {H} (exec : H -> outcome unit) (ready : list H) : list H :=
  match ready with
  | [] => []
  | h :: ready =>
      h :: match exec h with
           | Throw _ => [] (* catch (const std::exception&) { ...; break; } *)
           | _ => startThread exec ready
           end
  end.

(** ** Two threads inside [getIoContext]

    The function holds no lock.  Its three accesses to [_next_context_index]
    are separate steps of the calling thread. *)
Inductive get_pc :=
| GetDeref (* io = *_io_contexts[_next_context_index] *)
| GetIncr (io : nat) (* ++_next_context_index *)
| GetWrap (io : nat) (* if (_next_context_index == size) _next_context_index = 0 *)
| GetDone (io : nat).

Definition get_step (pc : get_pc) (p : CIoContextPool) : outcome (get_pc * CIoContextPool) :=
  match pc with
  | GetDeref =>
      match _io_contexts p !! _next_context_index p with
      | None => UB out_of_bounds_read
      | Some io => Ok (GetIncr io, p)
      end
  | GetIncr io => Ok (GetWrap io, with_index p (S (_next_context_index p)))
  | GetWrap io =>
      Ok (GetDone io,
          if decide (_next_context_index p = length (_io_contexts p))
          then with_index p 0 else p)
  | GetDone io => Ok (GetDone io, p)
  end.

(** A schedule says which of the two threads moves. *)
Fixpoint run_two (sched : list bool) (a b : get_pc) (p : CIoContextPool) :
    outcome (get_pc * get_pc * CIoContextPool) :=
  match sched with
  | [] => Ok (a, b, p)
  | true :: sched => '(a, p) ← get_step a p; run_two sched a b p
  | false :: sched => '(b, p) ← get_step b p; run_two sched a b p
  end.

(** ** Invariant *)

(** A running pool: the index is a position of the vector. *)
Definition pool_wf (p : CIoContextPool) : Prop :=
  (_next_context_index p < length (_io_contexts p))%nat.

Lemma new_pool_wf n : (0 < n)%nat -> pool_wf (new_pool n).
Proof. intros H. unfold pool_wf. simpl. by rewrite length_seq. Qed.

Lemma getIoContext_wf p :
  pool_wf p ->
  exists io, getIoContext p =
    Ok (io, with_index p ((S (_next_context_index p)) mod length (_io_contexts p)))
  /\ _io_contexts p !! _next_context_index p = Some io
  /\ pool_wf (with_index p ((S (_next_context_index p)) mod length (_io_contexts p))).
Proof.
  unfold pool_wf, getIoContext. intros Hw.
  destruct (lookup_lt_is_Some_2 _ _ Hw) as [io E]. rewrite E. exists io.
  split_and!; [|done|simpl; apply Nat.mod_upper_bound; lia].
  do 3 f_equal. case_decide as Hd.
  - rewrite Hd, Nat.Div0.mod_same. done.
  - rewrite Nat.mod_small by lia. done.
Qed.

(** ** Properties *)

(** Contexts are handed out in round-robin order: on a pool of [n]
    contexts, any number of consecutive calls succeeds and the [i]-th call
    returns context [i mod n], so that over [k] full rounds every context is
    handed out exactly [k] times. *)
Theorem round_robin n k :
  (0 < n)%nat ->
  exists p, getIoContexts k (new_pool n) = Ok ((fun i => i mod n)%nat <$> seq 0 k, p)
            /\ pool_wf p.
Proof.
  intros Hn.
  enough (forall j, exists p, getIoContexts k (with_index (new_pool n) (j mod n))
    = Ok ((fun i => i mod n)%nat <$> seq j k, p) /\ pool_wf p) as Hj.
  { destruct (Hj 0%nat) as (p & E & Hp). exists p. split; [|done].
    rewrite <-E, Nat.Div0.mod_0_l. done. }
  induction k as [|k IH]; intros j.
  - eexists. split; [reflexivity|]. unfold pool_wf. simpl. rewrite length_seq.
    apply Nat.mod_upper_bound. lia.
  - destruct (getIoContext_wf (with_index (new_pool n) (j mod n))) as (io & E & El & _).
    { unfold pool_wf. simpl. rewrite length_seq. apply Nat.mod_upper_bound. lia. }
    simpl in El. apply lookup_seq in El as [-> _]. simpl. rewrite E, ok_bind. simpl.
    rewrite length_seq. destruct (IH (S j)) as (p & E' & Hp). exists p. split; [|done].
    replace (S (j mod n) mod n)%nat with (S j mod n)%nat
      by (rewrite <-(Nat.add_1_r (j mod n)), Nat.Div0.add_mod_idemp_l, Nat.add_1_r; done).
    change (with_index (with_index ?q _) ?i) with (with_index q i). by rewrite E', ok_bind.
Qed.

Lemma round_robin_witness :
  exists p, getIoContexts 5 (new_pool 2) = Ok ([0; 1; 0; 1; 0]%nat, p) /\ pool_wf p.
Proof. exact (round_robin 2 5 ltac:(lia)). Defined.

(** [getIoContext] has no valid result on a pool without contexts: one
    configured with no workers, or one that was stopped. *)
Theorem empty_pool_undefined p :
  getIoContext (new_pool 0) = UB out_of_bounds_read /\
  (_started p = true -> getIoContext (stop p).1 = UB out_of_bounds_read).
Proof. split; [done|]. intros H. unfold getIoContext, stop. by rewrite H. Qed.

Lemma empty_pool_undefined_witness :
  getIoContext (stop (new_pool 2)).1 = UB out_of_bounds_read.
Proof. exact (proj2 (empty_pool_undefined (new_pool 2)) eq_refl). Defined.

(** [getIoContext] is not safe for concurrent callers.  For every size of
    the pool, when the index has reached the last context, the schedule in
    which one thread increments the index and another one dereferences it
    before the wrap-around reads past the end of the vector; alone, each of the
    two calls is fine. *)
Theorem getIoContext_race p :
  pool_wf p -> S (_next_context_index p) = length (_io_contexts p) ->
  is_Ok (getIoContexts 2 p) = true /\
  run_two [true; true; false] GetDeref GetDeref p = UB out_of_bounds_read.
Proof.
  intros Hw Hl. split.
  - destruct (getIoContext_wf p Hw) as (io & E & _ & Hw'). simpl. rewrite E, ok_bind.
    destruct (getIoContext_wf _ Hw') as (io' & E' & _). rewrite E'. done.
  - destruct (lookup_lt_is_Some_2 _ _ Hw) as [io E]. simpl. rewrite E. simpl.
    rewrite Hl, lookup_ge_None_2 by lia. done.
Qed.

Lemma getIoContext_race_witness :
  run_two [true; true; false] GetDeref GetDeref (with_index (new_pool 2) 1)
  = UB out_of_bounds_read.
Proof.
  exact (proj2 (getIoContext_race (with_index (new_pool 2) 1)
                  ltac:(vm_compute; lia) eq_refl)).
Defined.

(** An exception ends the thread of its context: the handlers before it
    and the throwing handler are executed, and none of those that were ready
    after it. *)
Theorem exception_stops_context {H} (exec : H -> outcome unit) before h after e :
  Forall (fun x => exec x = Ok tt) before -> exec h = Throw e ->
  startThread exec (before ++ h :: after) = before ++ [h].
Proof.
  intros Hb Hh. induction Hb as [|x before Hx _ IH]; simpl.
  - by rewrite Hh.
  - by rewrite Hx, IH.
Qed.

Lemma exception_stops_context_witness :
  startThread (fun n : nat => if decide (n = 1)%nat then Throw length_error else Ok tt)
    ([0] ++ 1 :: [2; 3])%nat = [0; 1]%nat.
Proof.
  apply (exception_stops_context _ [0%nat] 1%nat [2; 3]%nat length_error);
    [by repeat constructor|done].
Defined.
