(* ===== verification/PoolRun.v ===== *)
(** * Running the pool of I/O contexts

    Models [CIoContextPool::run], [startThread] and [stop] of
    [src/net/CIoContextPool.cpp] as threads: the main thread that creates one
    thread per context and joins them, and those threads, each inside
    [io->run()] of its own context.

    A context has the handlers that are ready, the number of operations that
    are outstanding, a work guard and the flag [stopped()].  [run()] behaves as
    boost documents it: it executes ready handlers one after the other and
    returns when the context is stopped or there is no work left, a work guard
    counting as work.  What a handler does (which handlers it posts, which
    operations it starts, whether it throws or stops the server) is an argument
    of the move that executes it, so the theorems hold for every handler. *)
From S2P Require Import Prelude IoContextPool.

(** ** State *)
Section pool_run.
Context {H : Type}.

(** [executed] is a history variable. *)
Record io_context := Context_ {
  ready : list H;
  outstanding : nat;
  guard : bool;
  stopped : bool;
  executed : list H
}.

(** A context whose work guard is held, with what the main thread has posted to
    it and started on it before [run()]. *)
Definition new_context (boot : list H * nat) : io_context := Context_ boot.1 boot.2 true false [].

(** A thread of [startThread]: before [while (!io->stopped())], inside
    [io->run()], gone; and, inside a handler that has called [CServer::stop], at
    the head of the second loop of [CIoContextPool::stop] with the index [k], or
    between [_io_contexts.clear()] and [exit(0)]. *)
Inductive thread_pc := AtWhile | InRun | StopLoop (k : nat) | Exiting | ThreadExit.

(** The main thread: in the first loop of [run()], in the second, after it. *)
Inductive main_pc := Spawning (i : nat) | Joining (i : nat) | RunReturned.

Record pool_run := PoolRun {
  pool : CIoContextPool;
  contexts : gmap nat io_context; (* those that are alive *)
  threads : list (nat * thread_pc); (* with the context of each *)
  main_thread : main_pc;
  exited : bool (* exit(0) *)
}.

(** What a handler does. *)
Record effect := Effect { posts : list (nat * H); starts : list nat; stops : bool }.

(** ** Operations on contexts *)

Definition post_one (c : gmap nat io_context) (ih : nat * H) : outcome (gmap nat io_context) :=
  match c !! ih.1 with
  | Some x => Ok (<[ih.1 := Context_ (ready x ++ [ih.2]) (outstanding x) (guard x) (stopped x) (executed x)]> c)
  | None => UB use_after_free
  end.

Definition start_one (c : gmap nat io_context) (i : nat) : outcome (gmap nat io_context) :=
  match c !! i with
  | Some x => Ok (<[i := Context_ (ready x) (S (outstanding x)) (guard x) (stopped x) (executed x)]> c)
  | None => UB use_after_free
  end.

Fixpoint each {A} (f : gmap nat io_context -> A -> outcome (gmap nat io_context)) (l : list A)
    (c : gmap nat io_context) : outcome (gmap nat io_context) :=
  match l with [] => Ok c | a :: l => c ← f c a; each f l c end.

(** The handler at the front leaves the queue. *)
Definition pop (x : io_context) : io_context :=
  match ready x with
  | [] => x
  | h :: l => Context_ l (outstanding x) (guard x) (stopped x) (executed x ++ [h])
  end.

(** [stop()] of the pool in the parts between which other threads move: the
    flag is cleared and every work guard reset; the contexts are stopped one
    after the other; the vector is cleared. *)
Definition begin_stop (p : CIoContextPool) : CIoContextPool :=
  {| _io_contexts := _io_contexts p; _io_context_works := [];
     _next_context_index := _next_context_index p; _worker_num := _worker_num p; _started := false |}.
Definition reset_guards (c : gmap nat io_context) : gmap nat io_context :=
  (fun x => Context_ (ready x) (outstanding x) false (stopped x) (executed x)) <$> c.
(** [io->stop()]. *)
Definition mark_stopped (x : io_context) : io_context :=
  Context_ (ready x) (outstanding x) (guard x) true (executed x).
Definition clear_contexts (p : CIoContextPool) : CIoContextPool :=
  {| _io_contexts := []; _io_context_works := _io_context_works p;
     _next_context_index := _next_context_index p; _worker_num := _worker_num p; _started := _started p |}.

(** The same as [stop] of [IoContextPool.v]. *)
Lemma stop_parts p :
  IoContextPool._started p = true ->
  IoContextPool.stop p = (clear_contexts (begin_stop p), _io_contexts p).
Proof. unfold IoContextPool.stop. by intros ->. Qed.

(** [_io_contexts.clear()] drops the only owners of the contexts. *)
Definition destroy (l : list nat) (c : gmap nat io_context) : gmap nat io_context :=
  foldr delete c l.

(** ** Steps *)

Definition set_thread (i : nat) (pc : thread_pc) (s : pool_run) : pool_run :=
  PoolRun (pool s) (contexts s) (alter (fun t => (t.1, pc)) i (threads s)) (main_thread s) (exited s).
Definition set_contexts (c : gmap nat io_context) (s : pool_run) : pool_run :=
  PoolRun (pool s) c (threads s) (main_thread s) (exited s).
Definition set_main (m : main_pc) (s : pool_run) : pool_run :=
  PoolRun (pool s) (contexts s) (threads s) m (exited s).

(** A handler ran to its end: what it posted and started; or, if it stops the
    server, it is now inside [CIoContextPool::stop], which does nothing on a pool
    that is stopped already. *)
Definition finish (i : nat) (e : effect) (s : pool_run) : outcome pool_run :=
  c ← each post_one (posts e) (contexts s);
  c ← each start_one (starts e) c;
  Ok (if stops e then
        if IoContextPool._started (pool s)
        then set_thread i (StopLoop 0)
               (PoolRun (begin_stop (pool s)) (reset_guards c) (threads s) (main_thread s) (exited s))
        else set_thread i Exiting (set_contexts c s)
      else set_contexts c s).

(** One turn of the second loop of [CIoContextPool::stop], or, when the loop is
    over, [_io_contexts.clear()]. *)
Definition stop_turn (i k : nat) (s : pool_run) : outcome pool_run :=
  match _io_contexts (pool s) !! k with
  | Some j =>
      match contexts s !! j with
      | None => UB use_after_free
      | Some x => Ok (set_thread i (StopLoop (S k)) (set_contexts (<[j := mark_stopped x]> (contexts s)) s))
      end
  | None =>
      Ok (set_thread i Exiting
           (PoolRun (clear_contexts (pool s)) (destroy (_io_contexts (pool s)) (contexts s))
              (threads s) (main_thread s) (exited s)))
  end.

(** [None]: the thread waits, or is gone. *)
Definition thread_step (i : nat) (r : outcome effect) (s : pool_run) : option (outcome pool_run) :=
  '(io, pc) ← threads s !! i;
  match pc with
  | ThreadExit => None
  | Exiting => Some (Ok (PoolRun (pool s) (contexts s) (threads s) (main_thread s) true))
  | StopLoop k => Some (stop_turn i k s)
  | AtWhile =>
      Some (match contexts s !! io with
            | None => UB use_after_free
            | Some x => Ok (set_thread i (if stopped x then ThreadExit else InRun) s)
            end)
  | InRun =>
      match contexts s !! io with
      | None => Some (UB use_after_free)
      | Some x =>
          if stopped x then Some (Ok (set_thread i ThreadExit s)) (* run() returns; break *)
          else match ready x with
          | _ :: _ =>
              let s := set_contexts (<[io := pop x]> (contexts s)) s in
              Some (match r with
                    | Ok e => finish i e s
                    | Throw _ => Ok (set_thread i ThreadExit s) (* catch; break *)
                    | UB u => UB u
                    end)
          | [] =>
              if guard x || (0 <? outstanding x)%nat then None
              else Some (Ok (set_thread i ThreadExit (set_contexts
                     (<[io := Context_ [] (outstanding x) (guard x) true (executed x)]> (contexts s)) s)))
          end
      end
  end.

Definition main_step (s : pool_run) : option pool_run :=
  match main_thread s with
  | Spawning i =>
      match _io_contexts (pool s) !! i with
      | Some io => Some (PoolRun (pool s) (contexts s) (threads s ++ [(io, AtWhile)]) (Spawning (S i)) (exited s))
      | None => Some (set_main (Joining 0) s)
      end
  | Joining i =>
      match threads s !! i with
      | None => Some (set_main RunReturned s)
      | Some (_, ThreadExit) => Some (set_main (Joining (S i)) s)
      | Some _ => None
      end
  | RunReturned => None
  end.

(** [Complete]: the system completes an operation that is outstanding. *)
Inductive move := Main | Thread (i : nat) (r : outcome effect) | Complete (io : nat) (h : H).

Definition pool_step (m : move) (s : pool_run) : option (outcome pool_run) :=
  if exited s then None
  else match m with
  | Main => Ok <$> main_step s
  | Thread i r => thread_step i r s
  | Complete io h =>
      x ← contexts s !! io;
      match outstanding x with
      | O => None
      | S n => Some (Ok (set_contexts
                 (<[io := Context_ (ready x ++ [h]) n (guard x) (stopped x) (executed x)]> (contexts s)) s))
      end
  end.

(** [run()] on a new pool of [n] contexts, booted as [boot] says. *)
Definition run_init (n : nat) (boot : nat -> list H * nat) : pool_run :=
  PoolRun (new_pool n)
    (map_imap (fun i _ => Some (new_context (boot i))) (gset_to_gmap tt (list_to_set (seq 0 n))))
    [] (Spawning 0) false.

Fixpoint pool_steps (ms : list move) (s : pool_run) : option (outcome pool_run) :=
  match ms with
  | [] => Some (Ok s)
  | m :: ms => o ← pool_step m s; match o with Ok s => pool_steps ms s | o => Some o end
  end.

Definition reachable (n : nat) (s : pool_run) : Prop :=
  exists boot ms, pool_steps ms (run_init n boot) = Some (Ok s).

(** No handler throws or stops the server. *)
Definition calm (m : move) : bool :=
  match m with Thread _ (Ok e) => negb (stops e) | Thread _ _ => false | _ => true end.

Definition is_move_of (i : nat) (m : move) : nat :=
  match m with Thread j _ => if decide (j = i) then 1%nat else 0%nat | _ => 0%nat end.
Definition moves_of (i : nat) (ms : list move) : nat := sum_list_with (is_move_of i) ms.
End pool_run.
Arguments io_context : clear implicits.
Arguments pool_run : clear implicits.
Arguments effect : clear implicits.
Arguments move : clear implicits.

(** ** Contexts grow *)
Section growth.
Context {H : Type}.
Implicit Types (x : io_context H) (c : gmap nat (io_context H)) (s : pool_run H) (m : move H).

(** Handlers were executed from the front or added at the end. *)
Record grown x x' : Prop := {
  gr_all : executed x ++ ready x `prefix_of` executed x' ++ ready x';
  gr_done : (length (executed x) <= length (executed x'))%nat;
  gr_guard : guard x' = guard x;
  gr_stopped : stopped x' = stopped x
}.

#[export] Instance grown_preorder : PreOrder grown.
Proof.
  split.
  - by intros x.
  - intros x y z [? ? ? ?] [? ? ? ?]. split; [by etrans|lia|congruence..].
Qed.

Definition all_grown c c' : Prop := forall i, option_Forall2 grown (c !! i) (c' !! i).

#[export] Instance all_grown_preorder : PreOrder all_grown.
Proof.
  split.
  - intros c i. destruct (c !! i); by constructor.
  - intros c1 c2 c3 H12 H23 i. specialize (H12 i). specialize (H23 i).
    destruct H12; inversion H23; subst; constructor. by etrans.
Qed.

Lemma all_grown_insert c i x x' :
  c !! i = Some x -> grown x x' -> all_grown c (<[i := x']> c).
Proof.
  intros E Hg j. destruct (decide (i = j)) as [<-|].
  - rewrite E, lookup_insert_eq. by constructor.
  - rewrite lookup_insert_ne by done. destruct (c !! j); by constructor.
Qed.

(** A context that gets a handler at the end, or one more operation. *)
Lemma grown_add x l n :
  grown x (Context_ (ready x ++ l) n (guard x) (stopped x) (executed x)).
Proof. split; simpl; [|done..]. rewrite (assoc_L (++)). by apply prefix_app_r. Qed.

Lemma grown_pop x : grown x (pop x).
Proof.
  unfold pop. destruct x as [[|h l] o g st e]; simpl; [done|]. split; simpl; [|len|done..].
  by rewrite <-(assoc_L (++)).
Qed.

Lemma each_rel {A} (R : relation (gmap nat (io_context H))) `{!PreOrder R}
    (f : gmap nat (io_context H) -> A -> outcome (gmap nat (io_context H))) l c c' :
  (forall a c c', f c a = Ok c' -> R c c') -> each f l c = Ok c' -> R c c'.
Proof.
  intros Hf. revert c. induction l as [|a l IH]; intros c E; simpl in E; [by injection E as <-|].
  apply outcome_bind_Ok in E as (c1 & E1 & E). etrans; [by eapply Hf|by apply IH].
Qed.

Lemma post_one_grown ih c c' : post_one c ih = Ok c' -> all_grown c c'.
Proof.
  unfold post_one. destruct (c !! ih.1) as [x|] eqn:E; [|done]. intros [= <-].
  eapply all_grown_insert; [done|apply grown_add].
Qed.

Lemma start_one_grown i c c' : start_one c i = Ok c' -> all_grown c c'.
Proof.
  unfold start_one. destruct (c !! i) as [x|] eqn:E; [|done]. intros [= <-].
  eapply all_grown_insert; [done|]. rewrite <-(app_nil_r (ready x)). apply grown_add.
Qed.

Lemma finish_calm i e s s' :
  stops e = false -> finish i e s = Ok s' ->
  exists c, s' = set_contexts c s /\ all_grown (contexts s) c.
Proof.
  unfold finish. intros He E. apply outcome_bind_Ok in E as (c1 & E1 & E).
  apply outcome_bind_Ok in E as (c2 & E2 & E). rewrite He in E. injection E as <-.
  exists c2. split; [done|]. transitivity c1.
  - exact (each_rel all_grown _ _ _ _ post_one_grown E1).
  - exact (each_rel all_grown _ _ _ _ start_one_grown E2).
Qed.

(** ** Invariant of a pool that nobody stops and where nothing throws *)
Record calm_inv (n : nat) s : Prop := {
  ci_pool : _io_contexts (pool s) = seq 0 n;
  ci_contexts i : if decide (i < n)%nat
                  then exists x, contexts s !! i = Some x /\ guard x = true /\ stopped x = false
                  else contexts s !! i = None;
  ci_threads i io pc : threads s !! i = Some (io, pc) ->
                       io = i /\ (i < n)%nat /\ (pc = AtWhile \/ pc = InRun);
  ci_main : match main_thread s with
            | Spawning i => i = length (threads s) /\ (i <= n)%nat
            | Joining i => i = 0%nat /\ length (threads s) = n
            | RunReturned => n = 0%nat /\ threads s = []
            end;
  ci_exited : exited s = false
}.

Lemma calm_init n boot : calm_inv n (run_init n boot).
Proof.
  split; simpl; try done; [|split; lia].
  intros i. rewrite map_lookup_imap, lookup_gset_to_gmap. case_decide.
  - exists (new_context (boot i)). split; [|done]. rewrite option_guard_True; [done|].
    apply elem_of_list_to_set, elem_of_seq. lia.
  - rewrite option_guard_False; [done|]. intros Hi.
    apply elem_of_list_to_set, elem_of_seq in Hi. lia.
Qed.

Lemma calm_inv_contexts n s c :
  calm_inv n s -> all_grown (contexts s) c -> calm_inv n (set_contexts c s).
Proof.
  intros [Hp Hc Ht Hm He] Hg. split; simpl; try done. intros i. specialize (Hc i). specialize (Hg i).
  case_decide.
  - destruct Hc as (x & E & Eg & Es). rewrite E in Hg. inversion Hg as [? x' [_ _ ? ?]|]; subst.
    exists x'. split_and!; congruence.
  - rewrite Hc in Hg. by inversion Hg.
Qed.

(** What a calm thread move does. *)
Inductive thread_moved (i : nat) s : pool_run H -> Prop :=
| moved_enter : threads s !! i = Some (i, AtWhile) -> thread_moved i s (set_thread i InRun s)
| moved_exec x h l c :
    threads s !! i = Some (i, InRun) -> contexts s !! i = Some x -> ready x = h :: l ->
    all_grown (<[i := pop x]> (contexts s)) c -> thread_moved i s (set_contexts c s).

Lemma calm_thread n i r s s' :
  calm_inv n s -> calm (Thread i r) = true -> thread_step i r s = Some (Ok s') ->
  thread_moved i s s'.
Proof.
  intros Hi Hr E. unfold thread_step in E.
  destruct (threads s !! i) as [[io pc]|] eqn:Et; simpl in E; [|done].
  destruct (ci_threads n s Hi i io pc Et) as (-> & Hn & Hpc).
  pose proof (ci_contexts n s Hi i) as Hc. rewrite decide_True in Hc by done.
  destruct Hc as (x & Ex & Eg & Es). rewrite Ex, Es in E. destruct Hpc as [-> | ->].
  - injection E as <-. by constructor.
  - destruct (ready x) as [|h l] eqn:Er; [by rewrite Eg in E|].
    destruct r as [e| |]; simpl in Hr; try done. apply negb_true_iff in Hr. injection E as E.
    apply (finish_calm _ _ _ _ Hr) in E as (c & -> & Hc). simpl in Hc.
    by apply (moved_exec i s x h l c).
Qed.

(** How far thread [i] has come: the handlers it executed, and whether it is
    inside [run()]. *)
Definition progress (i : nat) s : nat :=
  (match contexts s !! i with Some x => length (executed x) | None => 0 end +
   match threads s !! i with Some (_, InRun) => 1 | _ => 0 end)%nat.

(** A calm move keeps the invariant, and every context and thread that it
    concerns comes further. *)
Definition advances n (m : move H) s s' : Prop :=
  calm_inv n s' /\ all_grown (contexts s) (contexts s') /\
  forall i, (progress i s + is_move_of i m <= progress i s')%nat.

Lemma calm_main n s s' : calm_inv n s -> main_step s = Some s' -> advances n Main s s'.
Proof.
  intros Hi E1. unfold main_step in E1.
  pose proof Hi as [Hp Hc Ht Hmain He]. destruct (main_thread s) as [i|i|].
  - destruct Hmain as [-> Hle]. destruct (_io_contexts (pool s) !! length (threads s)) as [io|] eqn:El.
    + injection E1 as <-. rewrite Hp in El. apply lookup_seq in El as [-> Hlt]. split_and!; simpl.
      * split; simpl; auto; [|rewrite length_app; simpl; lia].
         intros j io pc Ej. apply lookup_app_Some in Ej as [Ej|[Hj Ej]]; [by eapply Ht|].
         apply list_lookup_singleton_Some in Ej as [Ej [= <- <-]]. split_and!; [lia..|by left].
      * done.
      * intros j. unfold progress. simpl. rewrite Nat.add_0_r.
         destruct (threads s !! j) as [t|] eqn:Ej; [by rewrite (lookup_app_l_Some _ _ _ _ Ej)|lia].
    + injection E1 as <-. apply lookup_ge_None in El. rewrite Hp, length_seq in El.
      split_and!; [split; simpl; auto; lia|done|intros j; unfold progress; simpl; lia].
  - destruct Hmain as [-> Hl]. destruct (threads s !! 0%nat) as [[io pc]|] eqn:E0.
    + destruct (Ht _ _ _ E0) as (_ & _ & [-> | ->]); done.
    + injection E1 as <-. apply lookup_ge_None in E0.
      assert (threads s = []) as Hnil by (destruct (threads s); [done|simpl in E0; lia]).
      rewrite Hnil in Hl. simpl in Hl.
      split_and!; [split; simpl; auto|done|intros j; unfold progress; simpl; lia].
  - done.
Qed.

Lemma calm_moved n i r s s' : calm_inv n s -> thread_moved i s s' -> advances n (Thread i r) s s'.
Proof.
  intros Hi [Et|x h l c Et Ex Er Hc].
  - split_and!.
    + pose proof Hi as [Hp Hc Ht Hmain He]. split; simpl; auto.
      * intros j io pc Ej. rewrite list_lookup_alter in Ej. case_decide; [subst j|by eapply Ht].
         rewrite Et in Ej. injection Ej as <- <-.
         destruct (Ht _ _ _ Et) as (_ & ? & _). auto.
      * destruct (main_thread s); rewrite ?length_alter; auto. destruct Hmain as [? Hnil].
         by rewrite Hnil in *.
    + done.
    + intros j. unfold progress. simpl. rewrite list_lookup_alter.
      destruct (decide (i = j)) as [<-|Hne]; [|lia].
      rewrite Et. simpl. lia.
  - assert (all_grown (contexts s) c) as Hg
      by (etrans; [apply (all_grown_insert _ i x (pop x)); [done|apply grown_pop]|done]).
    split_and!; [by apply calm_inv_contexts|done|].
    intros j. unfold progress. simpl. specialize (Hc j).
    destruct (decide (i = j)) as [<-|Hne].
    + rewrite lookup_insert_eq in Hc. inversion Hc as [? x' [_ Hd _ _]|]; subst.
      rewrite Ex. unfold pop in Hd. rewrite Er in Hd. simpl in Hd. rewrite length_app in Hd. simpl in Hd. lia.
    + rewrite lookup_insert_ne in Hc by done. destruct Hc as [y y' [_ Hd _ _]|]; lia.
Qed.

Lemma calm_step n m s s' :
  calm_inv n s -> calm m = true -> pool_step m s = Some (Ok s') -> advances n m s s'.
Proof.
  intros Hi Hm E. unfold pool_step in E. rewrite (ci_exited n s Hi) in E. destruct m as [|i r|io h].
  - destruct (main_step s) as [s1|] eqn:E1; [|done]. injection E as <-. by apply calm_main.
  - eapply calm_moved, calm_thread; eauto.
  - destruct (contexts s !! io) as [x|] eqn:Ex; [|done]. simpl in E.
    destruct (outstanding x) as [|k]; [done|]. injection E as <-.
    assert (all_grown (contexts s) (<[io := Context_ (ready x ++ [h]) k (guard x) (stopped x) (executed x)]> (contexts s))) as Hg
      by (eapply all_grown_insert; [done|apply grown_add]).
    split_and!; [by apply calm_inv_contexts|done|].
    intros j. unfold progress. simpl. specialize (Hg j). destruct Hg as [y y' [_ Hd _ _]|]; lia.
Qed.

Lemma calm_steps n ms s s' :
  calm_inv n s -> forallb calm ms = true -> pool_steps ms s = Some (Ok s') ->
  calm_inv n s' /\ all_grown (contexts s) (contexts s') /\
  forall i, (progress i s + moves_of i ms <= progress i s')%nat.
Proof.
  revert s. induction ms as [|m ms IH]; intros s Hi Hm E; simpl in *.
  - injection E as <-. split_and!; [done..|]. intros i. unfold moves_of. simpl. lia.
  - apply andb_true_iff in Hm as [Hm Hms].
    destruct (pool_step m s) as [[s1| |]|] eqn:E1; try done. simpl in E.
    destruct (calm_step n m s s1 Hi Hm E1) as (Hi1 & Hg1 & Hp1).
    destruct (IH s1 Hi1 Hms E) as (Hi' & Hg' & Hp').
    split_and!; [done|by etrans|]. intros i. specialize (Hp1 i). specialize (Hp' i).
    unfold moves_of in *. simpl. lia.
Qed.
End growth.

(** ** Any run *)
Section any_run.
Context {H : Type}.
Implicit Types (s : pool_run H) (m : move H).

(** The contexts live as long as the vector holds them. *)
Definition pool_state (n : nat) s : Prop :=
  (_io_contexts (pool s) = seq 0 n /\ forall j, (j < n)%nat -> is_Some (contexts s !! j)) \/
  (_io_contexts (pool s) = [] /\ IoContextPool._started (pool s) = false /\
   forall j, (j < n)%nat -> contexts s !! j = None).

(** Creating, joining and ending of threads, whatever the handlers do. *)
Record run_inv (n : nat) s : Prop := {
  ri_pool : pool_state n s;
  ri_stop i io k : threads s !! i = Some (io, StopLoop k) -> IoContextPool._started (pool s) = false;
  ri_threads i io pc : threads s !! i = Some (io, pc) -> io = i /\ (i < n)%nat;
  ri_main : match main_thread s with
            | Spawning i => i = length (threads s)
            | Joining i => forall j, (j < i)%nat -> snd <$> threads s !! j = Some ThreadExit
            | RunReturned => forall j t, threads s !! j = Some t -> t.2 = ThreadExit
            end
}.

Lemma run_inv_init n boot : run_inv n (run_init n boot).
Proof.
  split; try done. left. split; [done|]. intros j Hj. simpl.
  rewrite map_lookup_imap, lookup_gset_to_gmap, option_guard_True; [by eexists|].
  apply elem_of_list_to_set, elem_of_seq. lia.
Qed.

(** Context [j] executed nothing, if it still exists. *)
Definition kept_at (j : nat) (c c' : gmap nat (io_context H)) : Prop :=
  forall x', c' !! j = Some x' -> exists x, c !! j = Some x /\ executed x' = executed x.

#[export] Instance kept_at_preorder j : PreOrder (kept_at j).
Proof.
  split; [intros c x Hx; eauto|]. intros c1 c2 c3 H12 H23 x3 E3.
  destruct (H23 x3 E3) as (x2 & E2 & ->). exact (H12 x2 E2).
Qed.

Lemma kept_insert j i x x' c :
  c !! i = Some x -> (i <> j \/ executed x' = executed x) -> kept_at j c (<[i := x']> c).
Proof.
  intros E Hij y Ey. destruct (decide (i = j)) as [<-|].
  - rewrite lookup_insert_eq in Ey. injection Ey as <-. exists x. by destruct Hij.
  - rewrite lookup_insert_ne in Ey by done. eauto.
Qed.

Lemma post_one_kept j ih c c' : post_one c ih = Ok c' -> kept_at j c c'.
Proof.
  unfold post_one. destruct (c !! ih.1) as [x|] eqn:E; [|done]. intros [= <-].
  eapply kept_insert; [done|by right].
Qed.

Lemma start_one_kept j i c c' : start_one c i = Ok c' -> kept_at j c c'.
Proof.
  unfold start_one. destruct (c !! i) as [x|] eqn:E; [|done]. intros [= <-].
  eapply kept_insert; [done|by right].
Qed.

Lemma lookup_destroy l c j : destroy l c !! j = if decide (j ∈ l) then None else c !! j :> option (io_context H).
Proof.
  induction l as [|i l IH]; [done|]. simpl. destruct (decide (i = j)) as [->|].
  - rewrite lookup_delete_eq, decide_True by set_solver. done.
  - rewrite lookup_delete_ne, IH by done. repeat case_decide; set_solver.
Qed.

Lemma reset_guards_kept j c : kept_at j c (reset_guards c).
Proof.
  intros x' E. unfold reset_guards in E. rewrite lookup_fmap in E.
  destruct (c !! j) as [x|]; [|done]. injection E as <-. eauto.
Qed.

(** The same contexts exist. *)
Definition same_dom (c c' : gmap nat (io_context H)) : Prop := forall j, is_Some (c' !! j) <-> is_Some (c !! j).

#[export] Instance same_dom_preorder : PreOrder same_dom.
Proof. split; [by intros c j|]. intros c1 c2 c3 H12 H23 j. by rewrite (H23 j), (H12 j). Qed.

Lemma same_dom_insert c i x x' : c !! i = Some x -> same_dom c (<[i := x']> c).
Proof.
  intros E j. destruct (decide (i = j)) as [<-|]; [|by rewrite lookup_insert_ne].
  rewrite lookup_insert_eq, E. split; by eexists.
Qed.

Lemma post_one_dom ih c c' : post_one c ih = Ok c' -> same_dom c c'.
Proof. unfold post_one. destruct (c !! ih.1) eqn:E; [|done]. intros [= <-]. by eapply same_dom_insert. Qed.
Lemma start_one_dom i c c' : start_one c i = Ok c' -> same_dom c c'.
Proof. unfold start_one. destruct (c !! i) eqn:E; [|done]. intros [= <-]. by eapply same_dom_insert. Qed.

(** Nothing is stopped or cleared; [stop] begins. *)
Definition pool_kept s s' : Prop := pool s' = pool s.
Definition pool_begun s s' : Prop := IoContextPool._started (pool s) = true /\ pool s' = begin_stop (pool s).

Lemma finish_spec i e s s' :
  finish i e s = Ok s' ->
  main_thread s' = main_thread s /\ exited s' = exited s /\
  (forall j, kept_at j (contexts s) (contexts s')) /\ same_dom (contexts s) (contexts s') /\
  (if stops e then
     (threads s' = alter (fun t => (t.1, StopLoop 0)) i (threads s) /\ pool_begun s s') \/
     (threads s' = alter (fun t => (t.1, Exiting)) i (threads s) /\ pool_kept s s' /\
      IoContextPool._started (pool s) = false)
   else threads s' = threads s /\ pool_kept s s').
Proof.
  unfold finish, pool_begun, pool_kept. intros E. apply outcome_bind_Ok in E as (c1 & E1 & E).
  apply outcome_bind_Ok in E as (c2 & E2 & E).
  assert (forall j, kept_at j (contexts s) c2) as Hk.
  { intros j. transitivity c1.
    - exact (each_rel (kept_at j) _ _ _ _ (post_one_kept j) E1).
    - exact (each_rel (kept_at j) _ _ _ _ (start_one_kept j) E2). }
  assert (same_dom (contexts s) c2) as Hd.
  { transitivity c1.
    - exact (each_rel same_dom _ _ _ _ post_one_dom E1).
    - exact (each_rel same_dom _ _ _ _ start_one_dom E2). }
  destruct (stops e); [|by injection E as <-].
  destruct (IoContextPool._started (pool s)) eqn:Es; injection E as <-; simpl; split_and!; try done; auto.
  - intros j. etrans; [apply Hk|apply reset_guards_kept].
  - etrans; [exact Hd|]. intros j. unfold reset_guards. by rewrite lookup_fmap, fmap_is_Some.
Qed.

(** What happens to the pool in a step of a thread. *)
Inductive pool_moved (pc pc' : thread_pc) s s' : Prop :=
| pm_kept : pool_kept s s' -> same_dom (contexts s) (contexts s') ->
    (forall k, pc' = StopLoop k -> exists k', pc = StopLoop k') -> pool_moved pc pc' s s'
| pm_begun : pool_begun s s' -> same_dom (contexts s) (contexts s') -> pool_moved pc pc' s s'
| pm_cleared k : pc = StopLoop k -> pc' = Exiting -> pool s' = clear_contexts (pool s) ->
    contexts s' = destroy (_io_contexts (pool s)) (contexts s) -> pool_moved pc pc' s s'.

(** A thread that moves was not gone; the other threads, and the contexts that
    are not its own, stay as they are. *)
Lemma thread_step_frame i r s s' :
  thread_step i r s = Some (Ok s') ->
  exists io pc pc', threads s !! i = Some (io, pc) /\ pc <> ThreadExit /\
    threads s' = alter (fun t => (t.1, pc')) i (threads s) /\ main_thread s' = main_thread s /\
    pool_moved pc pc' s s' /\ (forall j, j <> io -> kept_at j (contexts s) (contexts s')).
Proof.
  assert (forall io pc, threads s !! i = Some (io, pc) ->
    threads s = alter (fun t => (t.1, pc)) i (threads s)) as Hid.
  { intros io pc E. symmetry. apply list_eq. intros j. rewrite list_lookup_alter.
    case_decide; [subst j; by rewrite E|done]. }
  unfold thread_step. intros E. destruct (threads s !! i) as [[io pc]|] eqn:Et; simpl in E; [|done].
  exists io, pc. specialize (Hid io pc eq_refl). destruct pc as [| |k| |]; [| | | |done].
  - destruct (contexts s !! io) as [x|]; [|done]. injection E as <-.
    exists (if stopped x then ThreadExit else InRun). split_and!; auto; try done. apply pm_kept; [done|done|by destruct (stopped x)].
  - destruct (contexts s !! io) as [x|] eqn:Ex; [|done].
    destruct (stopped x); [injection E as <-; exists ThreadExit; split_and!; auto; try done; by apply pm_kept|].
    destruct (ready x) as [|h l] eqn:Er.
    + destruct (guard x || _); [done|]. injection E as <-. exists ThreadExit. simpl. split_and!; auto; try done.
      * apply pm_kept; [done|by eapply same_dom_insert|done].
      * intros j Hj. eapply kept_insert; [done|left; done].
    + assert (forall j, j <> io -> kept_at j (contexts s) (<[io := pop x]> (contexts s))) as Hpop
        by (intros j Hj; eapply kept_insert; [done|left; done]).
      assert (same_dom (contexts s) (<[io := pop x]> (contexts s))) as Hdom by by eapply same_dom_insert.
      destruct r as [e|ex|u]; [| |done].
      2: { injection E as <-; exists ThreadExit; simpl; split_and!; auto; try done. by apply pm_kept. }
      injection E as E. apply finish_spec in E as (Em & _ & Hk & Hd & E). simpl in *.
      assert (forall j, j <> io -> kept_at j (contexts s) (contexts s')) as Hk'
        by (intros j Hj; etrans; [by apply Hpop|apply Hk]).
      assert (same_dom (contexts s) (contexts s')) as Hd' by by etrans.
      destruct (stops e); [destruct E as [[E1 E2]|(E1 & E2 & _)]|destruct E as [E1 E2]].
      * exists (StopLoop 0). split_and!; auto; try done. by apply pm_begun.
      * exists Exiting. split_and!; auto; try done. by apply pm_kept.
      * exists InRun. rewrite E1. split_and!; auto; try done. by apply pm_kept.
  - unfold stop_turn in E. destruct (_io_contexts (pool s) !! k) as [j|] eqn:Ek.
    + destruct (contexts s !! j) as [x|] eqn:Ex; [|done]. injection E as <-. exists (StopLoop (S k)). simpl.
      split_and!; auto; try done.
      * apply pm_kept; [done|by eapply same_dom_insert|eauto].
      * intros j' _. eapply kept_insert; [done|by right].
    + injection E as <-. exists Exiting. simpl. split_and!; auto; try done.
      * by eapply pm_cleared.
      * intros j _ x Ex. simpl in Ex. rewrite lookup_destroy in Ex. case_decide; [done|]. eauto.
  - injection E as <-. exists Exiting. simpl. split_and!; auto; try done. by apply pm_kept.
Qed.

Lemma pool_state_kept n s s' :
  pool_state n s -> _io_contexts (pool s') = _io_contexts (pool s) ->
  (IoContextPool._started (pool s) = false -> IoContextPool._started (pool s') = false) ->
  same_dom (contexts s) (contexts s') -> pool_state n s'.
Proof.
  intros [[Ep Hc]|(Ep & Es & Hc)] E1 E2 Hd; [left|right]; rewrite E1, Ep.
  - split; [done|]. intros j Hj. apply Hd. auto.
  - split_and!; auto. intros j Hj. apply eq_None_not_Some. rewrite (Hd j), Hc by done. by intros [].
Qed.

Lemma pool_state_moved n s s' pc pc' :
  pool_moved pc pc' s s' -> (forall k, pc = StopLoop k -> IoContextPool._started (pool s) = false) ->
  pool_state n s ->
  pool_state n s' /\ (forall k, pc' = StopLoop k -> IoContextPool._started (pool s') = false) /\
  (IoContextPool._started (pool s) = false -> IoContextPool._started (pool s') = false).
Proof.
  intros [Hk Hd Hpc|[Hs Hk] Hd|k -> -> Hk Hc] Hst I; rewrite Hk.
  - split_and!; [eapply pool_state_kept; [exact I|by rewrite Hk|by rewrite Hk|done]|naive_solver|done].
  - split_and!; [eapply pool_state_kept; [exact I|by rewrite Hk|by rewrite Hk|done]|done|done].
  - specialize (Hst k eq_refl). split_and!; [|done|done]. right. rewrite Hk, Hc. simpl. split_and!; try done.
    intros j Hj. rewrite lookup_destroy. destruct I as [[-> _]|(_ & _ & Hn)]; [|case_decide; auto].
    rewrite decide_True; [done|]. apply elem_of_seq. lia.
Qed.

Lemma run_inv_main n s s' : run_inv n s -> main_step s = Some s' -> run_inv n s'.
Proof.
  intros [Hp Hst Ht Hm] E1. unfold main_step in E1. destruct (main_thread s) as [i|i|].
  - subst i. destruct (_io_contexts (pool s) !! length (threads s)) as [io|] eqn:El.
    + injection E1 as <-. split; simpl; [done| | |rewrite length_app; simpl; lia].
      * intros j io' k Ej. apply lookup_app_Some in Ej as [Ej|[_ Ej]]; [by eapply Hst|].
        by apply list_lookup_singleton_Some in Ej as [_ [= <- <-]].
      * destruct Hp as [[Ep _]|(Ep & _)]; rewrite Ep in El; [|done].
        apply lookup_seq in El as [-> Hlt]. intros j io pc Ej.
        apply lookup_app_Some in Ej as [Ej|[Hj Ej]]; [by eapply Ht|].
        apply list_lookup_singleton_Some in Ej as [Ej [= <- <-]]. lia.
    + injection E1 as <-. split; simpl; auto; lia.
  - destruct (threads s !! i) as [[io []]|] eqn:Ei; try done; injection E1 as <-; split; simpl; auto.
    + intros j Hj. destruct (decide (j = i)) as [->|]; [by rewrite Ei|apply Hm; lia].
    + intros j t Ej. apply lookup_ge_None in Ei. pose proof (lookup_lt_Some _ _ _ Ej).
      specialize (Hm j ltac:(lia)). rewrite Ej in Hm. by injection Hm.
  - done.
Qed.

Lemma run_inv_thread n i r s s' : run_inv n s -> thread_step i r s = Some (Ok s') -> run_inv n s'.
Proof.
  intros [Hp Hst Ht Hm] E. apply thread_step_frame in E as (io & pc & pc' & Ei & Hne & Et & Em & Epool & _).
  destruct (pool_state_moved n s s' pc pc' Epool) as (Hp' & Hst' & Hoff); [intros k ->; by eapply Hst|done|].
  split; [done| | |].
  - intros j io' k Ej. rewrite Et, list_lookup_alter in Ej. case_decide; [subst j|apply Hoff; by eapply Hst].
    rewrite Ei in Ej. injection Ej as <- ->. by eapply Hst'.
  - intros j io' pc1 Ej. rewrite Et, list_lookup_alter in Ej. case_decide; [subst j|by eapply Ht].
    rewrite Ei in Ej. injection Ej as <- <-. by eapply Ht.
  - rewrite Em, Et. destruct (main_thread s) as [k|k|].
    + by rewrite length_alter.
    + intros j Hj. specialize (Hm j Hj). rewrite list_lookup_alter. case_decide; [subst j|done].
      by rewrite Ei in Hm; injection Hm.
    + intros j t Ej. specialize (Hm i _ Ei). done.
Qed.

Lemma run_inv_step n m s s' :
  run_inv n s -> pool_step m s = Some (Ok s') -> run_inv n s'.
Proof.
  intros Hi E. unfold pool_step in E. destruct (exited s); [done|]. destruct m as [|i r|io h].
  - destruct (main_step s) as [s1|] eqn:E1; [|done]. injection E as <-. by eapply run_inv_main.
  - by eapply run_inv_thread.
  - destruct (contexts s !! io) as [x|] eqn:Ex; [|done]. simpl in E. destruct (outstanding x); [done|].
    injection E as <-. destruct Hi as [Hp Hst Ht Hm]. split; try done.
    eapply pool_state_kept; [exact Hp|done|done|by eapply same_dom_insert].
Qed.

Lemma run_inv_steps n ms s s' :
  run_inv n s -> pool_steps ms s = Some (Ok s') -> run_inv n s'.
Proof.
  revert s. induction ms as [|m ms IH]; intros s Hi E; simpl in E; [by injection E as <-|].
  destruct (pool_step m s) as [[s1| |]|] eqn:E1; try done. eauto using run_inv_step.
Qed.

Lemma reachable_inv n s : reachable n s -> run_inv n s.
Proof. intros (boot & ms & E). eauto using run_inv_steps, run_inv_init. Qed.

(** A thread that is gone stays so, and nothing runs on its context. *)
Lemma gone_step n m s s' i io :
  run_inv n s -> threads s !! i = Some (io, ThreadExit) -> pool_step m s = Some (Ok s') ->
  threads s' !! i = Some (io, ThreadExit) /\ kept_at io (contexts s) (contexts s').
Proof.
  intros Hi Ei E. destruct (ri_threads n s Hi i io _ Ei) as [-> _].
  unfold pool_step in E. destruct (exited s); [done|]. destruct m as [|j r|io h].
  - destruct (main_step s) as [s1|] eqn:E1; [|done]. injection E as <-. unfold main_step in E1.
    destruct (main_thread s) as [k|k|].
    + destruct (_io_contexts (pool s) !! k); injection E1 as <-; split; try done; simpl.
      by apply lookup_app_l_Some.
    + by destruct (threads s !! k) as [[? []]|]; try done; injection E1 as <-.
    + done.
  - apply thread_step_frame in E as (io' & pc & pc' & Ej & Hne & Et & _ & _ & Hk).
    destruct (ri_threads n s Hi j io' _ Ej) as [-> _].
    assert (i <> j) by (intros ->; congruence). split; [|by apply Hk].
    by rewrite Et, list_lookup_alter, decide_False by done.
  - destruct (contexts s !! io) as [x|] eqn:Ex; [|done]. simpl in E. destruct (outstanding x); [done|].
    injection E as <-. split; [done|]. eapply kept_insert; [done|by right].
Qed.

Lemma gone_steps n ms s s' i io :
  run_inv n s -> threads s !! i = Some (io, ThreadExit) -> pool_steps ms s = Some (Ok s') ->
  threads s' !! i = Some (io, ThreadExit) /\ kept_at io (contexts s) (contexts s').
Proof.
  revert s. induction ms as [|m ms IH]; intros s Hi Ei E; simpl in E; [by injection E as <-|].
  destruct (pool_step m s) as [[s1| |]|] eqn:E1; try done. simpl in E.
  destruct (gone_step n m s s1 i io Hi Ei E1) as [Ei1 Hk].
  destruct (IH s1 (run_inv_step n m s s1 Hi E1) Ei1 E) as [Ei' Hk']. split; [done|by etrans].
Qed.
End any_run.

(** ** Properties *)
Section properties.
Context {H : Type}.
Implicit Types (s : pool_run H).

(** C13. As long as no handler throws and nobody stops the pool, every handler
    that is ready is executed, in the order of the queue: the thread of its
    context can always move, and its [length l + 2]-nd move at the latest has
    executed it, whatever the other threads do meanwhile; and [run()] does not
    return. *)
Theorem calm_pool_serves n boot before s ms s' i x l h l' :
  pool_steps before (run_init n boot) = Some (Ok s) -> forallb calm before = true ->
  pool_steps ms s = Some (Ok s') -> forallb calm ms = true ->
  is_Some (threads s !! i) -> contexts s !! i = Some x -> ready x = l ++ h :: l' ->
  (forall r, is_Some (pool_step (Thread i r) s)) /\
  ((length l + 2 <= moves_of i ms)%nat ->
   exists x', contexts s' !! i = Some x' /\ executed x ++ l ++ [h] `prefix_of` executed x') /\
  main_thread s' <> RunReturned.
Proof.
  intros Eb Hb E Hm [[io pc] Et] Ex Er.
  destruct (calm_steps n before _ s (calm_init n boot) Hb Eb) as (Hi & _ & _).
  destruct (calm_steps n ms s s' Hi Hm E) as (Hi' & Hg & Hp).
  destruct (ci_threads n s Hi i io pc Et) as (-> & Hn & Hpc). split_and!.
  - intros r. unfold pool_step, thread_step. rewrite (ci_exited n s Hi), Et. simpl. rewrite Ex, Er.
    destruct Hpc as [-> | ->]; [by eexists|]. destruct (stopped x); [by eexists|].
    by destruct l; eexists.
  - intros Hmv. specialize (Hg i). specialize (Hp i). unfold progress in Hp. rewrite Ex in Hg, Hp.
    inversion Hg as [? x' [Hall _ _ _] E' Ex'|]; subst. exists x'. split; [done|].
    rewrite <-Ex', Et in Hp. rewrite Er in Hall.
    assert (executed x ++ l ++ [h] `prefix_of` executed x' ++ ready x') as Hpre.
    { etrans; [|exact Hall]. exists l'. by rewrite <-!app_assoc. }
    destruct (prefix_weak_total _ _ _ Hpre (prefix_app_r (executed x') _ (ready x') (reflexivity _)))
      as [?|Hle]; [done|].
    destruct Hle as [[|y k] Hk]; [by rewrite app_nil_r in Hk; rewrite Hk|].
    exfalso. apply (f_equal length) in Hk. rewrite !length_app in Hk. simpl in Hk.
    destruct (threads s' !! i) as [[? []]|], pc; lia.
  - intros Hr. pose proof (ci_main n s' Hi') as Hmain. rewrite Hr in Hmain. lia.
Qed.

(** C39. An exception that leaves a handler ends the thread of its context for
    good: whatever happens afterwards, no handler of that context is executed
    again, though handlers may still be posted to it, while [run()], and so the
    server, goes on until every other thread has ended. *)
Theorem dead_context_stalls n s i io x h l e ms s' :
  reachable n s -> exited s = false -> threads s !! i = Some (io, InRun) ->
  contexts s !! io = Some x -> stopped x = false -> ready x = h :: l ->
  pool_steps (Thread i (Throw e) :: ms) s = Some (Ok s') ->
  threads s' !! i = Some (io, ThreadExit) /\
  (forall x', contexts s' !! io = Some x' -> executed x' = executed x ++ [h]) /\
  (forall j t, threads s' !! j = Some t -> t.2 <> ThreadExit -> main_thread s' <> RunReturned).
Proof.
  intros Hr He Et Ex Es Er E. pose proof (reachable_inv n s Hr) as Hi. cbn [pool_steps] in E.
  set (s1 := set_thread i ThreadExit (set_contexts (<[io := pop x]> (contexts s)) s)).
  assert (pool_step (Thread i (Throw e)) s = Some (Ok s1)) as E1.
  { unfold pool_step, thread_step. rewrite He, Et. simpl. by rewrite Ex, Es, Er. }
  rewrite E1 in E. simpl in E. pose proof (run_inv_step n _ s s1 Hi E1) as Hi1.
  assert (threads s1 !! i = Some (io, ThreadExit)) as Et1.
  { simpl. by rewrite list_lookup_alter, decide_True, Et by done. }
  destruct (gone_steps n ms s1 s' i io Hi1 Et1 E) as [Et' Hk]. split_and!; [done| |].
  - intros x' Ex'. destruct (Hk x' Ex') as (x1 & Ex1 & ->). simpl in Ex1.
    rewrite lookup_insert_eq in Ex1. injection Ex1 as <-. unfold pop. by rewrite Er.
  - intros j t Ej Hne Hm. pose proof (ri_main n s' (run_inv_steps n ms s1 s' Hi1 E)) as Hall.
    rewrite Hm in Hall. by apply (Hall j t) in Ej.
Qed.

(** Nobody else's thread moves, and the contexts are stopped one by one, then
    destroyed. *)
Lemma stop_loop_alone n s i io k r :
  run_inv n s -> exited s = false -> threads s !! i = Some (io, StopLoop k) ->
  _io_contexts (pool s) = seq 0 n -> (k <= n)%nat ->
  exists s', pool_steps (replicate (S (n - k)) (Thread i r)) s = Some (Ok s') /\
    exited s' = false /\ _io_contexts (pool s') = [] /\
    forall j, j <> i -> threads s' !! j = threads s !! j.
Proof.
  remember (n - k)%nat as m eqn:Hm. revert s k Hm. induction m as [|m IH]; intros s k Hm Hi He Et Ep Hk.
  - eexists. split.
    + simpl. unfold pool_step. rewrite He. unfold thread_step. rewrite Et. simpl. unfold stop_turn.
      rewrite Ep, lookup_ge_None_2 by (rewrite length_seq; lia). reflexivity.
    + simpl. split_and!; [done|done|]. intros j Hj. by rewrite list_lookup_alter, decide_False.
  - assert (exists x, contexts s !! k = Some x) as [x Ex].
    { destruct (ri_pool n s Hi) as [[_ Hc]|(Ep' & _)]; [apply Hc; lia|].
      rewrite Ep in Ep'. apply (f_equal length) in Ep'. rewrite length_seq in Ep'. simpl in Ep'. lia. }
    set (s1 := set_thread i (StopLoop (S k)) (set_contexts (<[k := mark_stopped x]> (contexts s)) s)).
    assert (pool_step (Thread i r) s = Some (Ok s1)) as E1.
    { unfold pool_step. rewrite He. unfold thread_step. rewrite Et. simpl. unfold stop_turn.
      rewrite Ep, lookup_seq_lt by lia. simpl. by rewrite Ex. }
    destruct (IH s1 (S k)) as (s' & E & He' & Ep' & Ht'); try done; try lia.
    + by eapply run_inv_step.
    + simpl. by rewrite list_lookup_alter, decide_True, Et by done.
    + exists s'. split_and!; [|done|done|].
      * change (replicate (S (S m)) (Thread i r)) with (Thread i r :: replicate (S m) (Thread i r)).
        cbn [pool_steps]. rewrite E1. exact E.
      * intros j Hj. rewrite (Ht' j Hj). simpl. by rewrite list_lookup_alter, decide_False.
Qed.

(** C40. [stop] is not safe while the pool runs: it stops the contexts one after
    the other and then clears their vector, their only owner, from inside a
    handler of one of them.  A thread that moves after its context was stopped
    and before the vector is cleared leaves [run()] and ends well; but once the
    vector is cleared, and until [exit(0)], the next move of every thread that
    is still inside [run()] or about to test [stopped()] is a use after free.
    And nothing makes [stop] wait: whenever a handler calls it, the next n + 1
    moves of the handler's own thread lead to such a state, with every other
    thread where it was. *)
Theorem stop_frees_running_contexts n s :
  reachable n s -> exited s = false ->
  (forall j x r pc, threads s !! j = Some (j, pc) -> pc = AtWhile \/ pc = InRun ->
     contexts s !! j = Some x -> stopped x = true ->
     pool_step (Thread j r) s = Some (Ok (set_thread j ThreadExit s))) /\
  (_io_contexts (pool s) = [] ->
   forall j pc r, threads s !! j = Some (j, pc) -> pc = AtWhile \/ pc = InRun ->
     pool_step (Thread j r) s = Some (UB use_after_free)) /\
  (forall i x h e s1, threads s !! i = Some (i, InRun) -> IoContextPool._started (pool s) = true ->
     contexts s !! i = Some x -> stopped x = false -> head (ready x) = Some h ->
     stops e = true -> pool_step (Thread i (Ok e)) s = Some (Ok s1) ->
     exists s', pool_steps (replicate (S n) (Thread i (Ok e))) s1 = Some (Ok s') /\
       exited s' = false /\ _io_contexts (pool s') = [] /\
       forall j, j <> i -> threads s' !! j = threads s !! j).
Proof.
  intros Hr He. pose proof (reachable_inv n s Hr) as Hi. split_and!.
  - intros j x r pc Ej Hpc Ex Est. unfold pool_step, thread_step. rewrite He, Ej. simpl. rewrite Ex.
    destruct Hpc as [-> | ->]; by rewrite Est.
  - intros Ep j pc r Ej Hpc. destruct (ri_threads n s Hi j _ _ Ej) as [_ Hj].
    assert (contexts s !! j = None) as Ec.
    { destruct (ri_pool n s Hi) as [[Ep' _]|(_ & _ & Hn)]; [|auto].
      rewrite Ep in Ep'. apply (f_equal length) in Ep'. rewrite length_seq in Ep'. simpl in Ep'. lia. }
    unfold pool_step, thread_step. rewrite He, Ej. simpl. rewrite Ec. by destruct Hpc as [-> | ->].
  - intros i x h e s1 Et Hs Ex Est Eh Hst E. pose proof (run_inv_step n _ s s1 Hi E) as Hi1.
    assert (_io_contexts (pool s) = seq 0 n) as Ep
      by (destruct (ri_pool n s Hi) as [[? _]|(_ & ? & _)]; [done|congruence]).
    unfold pool_step, thread_step in E. rewrite He, Et in E. simpl in E. rewrite Ex, Est in E.
    destruct (ready x) as [|h' l]; [done|]. injection E as E.
    apply finish_spec in E as (_ & He1 & _ & _ & E). rewrite Hst in E. simpl in E, He1.
    destruct E as [[Eth [_ Ebegun]]|(_ & _ & Hoff)]; [|congruence].
    destruct (stop_loop_alone n s1 i i 0 (Ok e)) as (s' & E' & He' & Ep' & Ht'); try done.
    + by rewrite He1.
    + by rewrite Eth, list_lookup_alter, decide_True, Et by done.
    + by rewrite Ebegun.
    + lia.
    + exists s'. rewrite Nat.sub_0_r in E'. split_and!; try done. intros j Hj.
      by rewrite (Ht' j Hj), Eth, list_lookup_alter, decide_False.
Qed.
End properties.

(** ** A concrete run *)

(** Two contexts, on each of which an operation was started before [run()];
    both threads are inside [io->run()], the operation of context 1 completes
    with handler 5, which posts handlers 7 and 8 to context 0. *)
Definition demo_boot : nat -> list nat * nat := fun _ => ([], 1%nat).
Definition demo_before : list (move nat) :=
  [Main; Main; Main; Thread 0 (Ok (Effect [] [] false)); Thread 1 (Ok (Effect [] [] false));
   Complete 1 5; Thread 1 (Ok (Effect [(0, 7); (0, 8)] [1] false))]%nat.
Definition demo_run (ms : list (move nat)) : pool_run nat :=
  match pool_steps ms (run_init 2 demo_boot) with
  | Some (Ok s) => s
  | _ => run_init 2 demo_boot
  end.

Definition run_7_8 : list (move nat) :=
  [Thread 0 (Ok (Effect [] [] false)); Complete 1 6; Thread 0 (Ok (Effect [(1, 9)] [] false))]%nat.

Lemma demo_reachable : reachable 2 (demo_run demo_before).
Proof. exists demo_boot, demo_before. vm_compute. reflexivity. Qed.

Lemma calm_pool_serves_witness :
  exists x', contexts (demo_run (demo_before ++ run_7_8)) !! 0%nat = Some x' /\
    [7%nat] `prefix_of` executed x'.
Proof.
  refine (proj1 (proj2 (calm_pool_serves 2 demo_boot demo_before (demo_run demo_before) run_7_8 _ 0
    (Context_ [7; 8] 1 true false []) [] 7 [8] _ _ _ _ _ _ _)) _)%nat;
    [vm_compute; reflexivity..| | | |].
  - by eexists.
  - vm_compute. reflexivity.
  - reflexivity.
  - vm_compute. lia.
Defined.

(** Handler 7 throws; handler 8 is never executed, nor 9, posted later. *)
Definition after_throw : list (move nat) :=
  [Complete 1 6; Thread 1 (Ok (Effect [(0, 9)] [] false))]%nat.

Lemma dead_context_stalls_witness :
  let s' := demo_run (demo_before ++ Thread 0 (Throw length_error) :: after_throw) in
  threads s' !! 0%nat = Some (0%nat, ThreadExit) /\
  (forall x', contexts s' !! 0%nat = Some x' -> executed x' = [7%nat]) /\
  (forall j t, threads s' !! j = Some t -> t.2 <> ThreadExit -> main_thread s' <> RunReturned).
Proof.
  refine (dead_context_stalls 2 (demo_run demo_before) 0 0 (Context_ [7; 8] 1 true false []) 7 [8]
    length_error after_throw _ demo_reachable _ _ _ _ _ _)%nat; vm_compute; reflexivity.
Defined.

(** Handler 7 of context 0 stops the server and its thread goes on alone; the
    other thread is then inside [run()] of a context that is gone. *)
Definition stopping_run : pool_run nat :=
  demo_run (demo_before ++ replicate 4 (Thread 0 (Ok (Effect [] [] true))))%nat.

Lemma stopping_reachable : reachable 2 stopping_run.
Proof. exists demo_boot, (demo_before ++ replicate 4 (Thread 0 (Ok (Effect [] [] true))))%nat. vm_compute. reflexivity. Qed.

Lemma stop_frees_running_contexts_witness :
  pool_step (Thread 1 (Ok (Effect [] [] false))) stopping_run = Some (UB use_after_free).
Proof.
  refine (proj1 (proj2 (stop_frees_running_contexts 2 stopping_run stopping_reachable _)) _ 1 InRun _ _ _)%nat;
    [vm_compute; reflexivity..|by right].
Defined.
