(* ===== verification/RedisValue.v ===== *)
(** * Reply values of the redis client

    Models [src/redisclient/redisvalue.h] and
    [src/redisclient/impl/redisvalue.cpp]. *)
From S2P Require Import Prelude Util.

(** The variant [value] with the flag [error].  Only the constructor that takes
    an [ErrorTag] sets the flag, and it stores a byte array. *)
#[local] Unset Elimination Schemes.
Inductive RedisValue :=
| Null
| Int (i : Z) (* int64_t *)
| Bytes (b : bytes) (error : bool)
| Array (a : list RedisValue).
#[local] Set Elimination Schemes.

(** The constructors.  A C string ends at its first zero byte. *)
Fixpoint strlen (s : bytes) : outcome nat :=
  match s with
  | [] => UB out_of_bounds_read
  | c :: s => if decide (c = Init.Byte.x00) then Ok 0%nat else n ← strlen s; Ok (S n)
  end.

Definition RedisValue_default : RedisValue := Null.
Definition RedisValue_int (i : Z) : RedisValue := Int i.
Definition RedisValue_cstring (s : bytes) : outcome RedisValue :=
  n ← strlen s;
  b ← mem_read s 0 n;
  Ok (Bytes b false).
Definition RedisValue_string (s : bytes) : RedisValue := Bytes s false.
Definition RedisValue_buffer (buf : bytes) : RedisValue := Bytes buf false.
Definition RedisValue_error (buf : bytes) : RedisValue := Bytes buf true.
Definition RedisValue_array (a : list RedisValue) : RedisValue := Array a.

Definition isError (v : RedisValue) : bool := match v with Bytes _ e => e | _ => false end.
Definition isOk (v : RedisValue) : bool := negb (isError v).
Definition isNull (v : RedisValue) : bool := match v with Null => true | _ => false end.
Definition isInt (v : RedisValue) : bool := match v with Int _ => true | _ => false end.
Definition isByteArray (v : RedisValue) : bool := match v with Bytes _ _ => true | _ => false end.
Definition isString : RedisValue -> bool := isByteArray.
Definition isArray (v : RedisValue) : bool := match v with Array _ => true | _ => false end.

(** [castTo<T>()]: the content when the type fits, [T()] otherwise. *)
Definition toArray (v : RedisValue) : list RedisValue := match v with Array a => a | _ => [] end.
Definition toByteArray (v : RedisValue) : bytes := match v with Bytes b _ => b | _ => [] end.
Definition toString : RedisValue -> bytes := toByteArray.
Definition toInt (v : RedisValue) : Z := match v with Int i => i | _ => 0 end.

(** [operator ==] compares the variants, not the error flags. *)
Fixpoint value_eqb (v w : RedisValue) {struct v} : bool :=
  match v, w with
  | Null, Null => true
  | Int i, Int j => i =? j
  | Bytes a _, Bytes b _ => bool_decide (a = b)
  | Array a, Array b =>
      (fix go (a b : list RedisValue) : bool :=
         match a, b with
         | [], [] => true
         | v :: a, w :: b => value_eqb v w && go a b
         | _, _ => false
         end) a b
  | _, _ => false
  end.

(** [inspect()].  For a non-empty array the loop leaves a comma and a space
    behind the last element; the space is cut off and the comma overwritten. *)
Fixpoint inspect (v : RedisValue) : bytes :=
  match v with
  | Bytes b true => lit "error: " ++ b
  | Null => lit "(null)"
  | Int i => to_string i
  | Bytes b false => b
  | Array [] => lit "[" ++ lit "]"
  | Array values =>
      let result := lit "[" ++ concat (map (fun v => inspect v ++ lit ", ") values) in
      let result := take (length result - 1) result in
      take (length result - 1) result ++ lit "]"
  end.

Lemma strlen_Ok s rest : Init.Byte.x00 ∉ s -> strlen (s ++ Init.Byte.x00 :: rest) = Ok (length s).
Proof.
  induction s as [|c s IH]; intros Hs; [done|]. apply not_elem_of_cons in Hs as [Hc Hs]. simpl.
  rewrite decide_False by congruence. by rewrite IH.
Qed.

(** A text without zero bytes is the same from a C string and from a string. *)
Lemma RedisValue_cstring_Ok s rest :
  Init.Byte.x00 ∉ s -> RedisValue_cstring (s ++ Init.Byte.x00 :: rest) = Ok (RedisValue_string s).
Proof.
  intros Hs. unfold RedisValue_cstring. rewrite strlen_Ok, ok_bind by done.
  rewrite mem_read_Ok by len. by rewrite ok_bind, drop_0, take_app_length.
Qed.

(** ** Induction over nested arrays *)

Lemma RedisValue_nested_ind (P : RedisValue -> Prop) :
  P Null -> (forall i, P (Int i)) -> (forall b e, P (Bytes b e)) ->
  (forall a, Forall P a -> P (Array a)) -> forall v, P v.
Proof.
  intros HN HI HB HA. fix IH 1. intros [|i|b e|a]; [exact HN|apply HI|apply HB|].
  apply HA. induction a as [|v a IHa]; constructor; [apply IH|exact IHa].
Qed.

(** [operator ==] decides equality up to the error flags. *)
Fixpoint forget_errors (v : RedisValue) : RedisValue :=
  match v with
  | Bytes b _ => Bytes b false
  | Array a => Array (map forget_errors a)
  | v => v
  end.

Lemma value_eqb_spec v w : value_eqb v w = true <-> forget_errors v = forget_errors w.
Proof.
  revert w. induction v as [|i|b e|a IH] using RedisValue_nested_ind; intros w; destruct w as [|j|b' e'|a'];
    simpl; try (split; [done|congruence]).
  - rewrite Z.eqb_eq. split; congruence.
  - rewrite bool_decide_eq_true. split; congruence.
  - revert a'. induction IH as [|v a Hv _ IHa]; intros [|w a']; simpl; try (split; done).
    rewrite andb_true_iff, Hv, IHa. split; [intros [-> [= ->]]; done|].
    intros [= -> E]. split; [done|]. by rewrite E.
Qed.

Example inspect_array :
  inspect (Array [Int 5; Bytes (lit "ab") false; Array []]) = lit "[5, ab, []]".
Proof. reflexivity. Qed.
