(* ===== verification/RedisParser.v ===== *)
(** * The incremental reply parser

    Models [src/redisclient/redisparser.h] and
    [src/redisclient/impl/redisparser.cpp].  The parser is fed the chunks that
    the socket delivers; between chunks it keeps the state of the token being
    read and, on two stacks, the arrays being filled (the outermost on top).

    [parse], [parseArray] and [parseChunk] call each other.  The recursion is
    not structural: the definitions take fuel, and [parse_fuel] is proved to be
    enough in [RedisParserFacts.v]. *)
From S2P Require Import Prelude Util RedisValue.

Inductive ParseResult := Completed | Incompleted | Error.

#[export] Instance ParseResult_eq_decision : EqDecision ParseResult.
Proof. solve_decision. Defined.

Module State.
Inductive t :=
| Start
| String | StringLF
| ErrorString | ErrorLF
| Integer | IntegerLF
| BulkSize | BulkSizeLF | Bulk | BulkCR | BulkLF
| ArraySize | ArraySizeLF.
End State.

Record RedisParser := mkParser {
  state : State.t;
  bulkSize : Z; (* long int *)
  buf : bytes;
  arrayStack : list Z; (* std::stack<long int>, top first *)
  valueStack : list RedisValue (* std::stack<RedisValue>, top first *)
}.

Definition new_parser : RedisParser := mkParser State.Start 0 [] [] [].

Definition set_state (s : State.t) (p : RedisParser) : RedisParser :=
  mkParser s (bulkSize p) (buf p) (arrayStack p) (valueStack p).
Definition set_bulkSize (n : Z) (p : RedisParser) : RedisParser :=
  mkParser (state p) n (buf p) (arrayStack p) (valueStack p).
Definition set_buf (b : bytes) (p : RedisParser) : RedisParser :=
  mkParser (state p) (bulkSize p) b (arrayStack p) (valueStack p).
Definition push_value (v : RedisValue) (p : RedisParser) : RedisParser :=
  mkParser (state p) (bulkSize p) (buf p) (arrayStack p) (v :: valueStack p).
Definition push_array (n : Z) (p : RedisParser) : RedisParser :=
  mkParser (state p) (bulkSize p) (buf p) (n :: arrayStack p) (valueStack p).
Definition set_stacks (a : list Z) (v : list RedisValue) (p : RedisParser) : RedisParser :=
  mkParser (state p) (bulkSize p) (buf p) a v.

(** ** Characters and numbers *)

Definition isChar (c : byte) : bool := (0 <=? char_Z c) && (char_Z c <=? 127).
Definition isControl (c : byte) : bool :=
  ((0 <=? char_Z c) && (char_Z c <=? 31)) || (char_Z c =? 127).

Definition CR : byte := Init.Byte.x0d.
Definition LF : byte := Init.Byte.x0a.
Definition crlf : bytes := [CR; LF].
Definition minus : byte := Init.Byte.x2d.

(** [isdigit(c) || c == '-']. *)
Definition isNumChar (c : byte) : bool := is_digit c || bool_decide (c = minus).

Definition stringReply : byte := Init.Byte.x2b.
Definition errorReply : byte := Init.Byte.x2d.
Definition integerReply : byte := Init.Byte.x3a.
Definition bulkReply : byte := Init.Byte.x24.
Definition arrayReply : byte := Init.Byte.x2a.

(** The digits at the front of a string. *)
Fixpoint leading_digits (l : bytes) : bytes :=
  match l with
  | [] => []
  | c :: l => if is_digit c then c :: leading_digits l else []
  end.

(** Saturation of [strtol] and [strtoll] on a platform with 64-bit [long]. *)
Definition clamp64 (z : Z) : Z := Z.max (- 2 ^ 63) (Z.min (2 ^ 63 - 1) z).

(** [strtol(s, 0, 10)] on a string of digits and minus signs. *)
Definition strtol (l : bytes) : Z :=
  match l with
  | [] => 0
  | c :: l' =>
      if decide (c = minus) then clamp64 (- dec_value (leading_digits l'))
      else clamp64 (dec_value (leading_digits l))
  end.

(** What [reserve(n)] does on a vector of characters and on one of values: it
    finds the memory, or throws. *)
Class Reserve := {
  reserve_bytes : Z -> option cpp_exn;
  reserve_values : Z -> option cpp_exn
}.

(** ** One turn of the loop of [parseChunk] *)

Inductive turn :=
| Next (i : nat) (p : RedisParser) (* the loop goes on at index [i] *)
| Return (n : nat) (r : ParseResult) (p : RedisParser)
| Nested (n : nat) (p : RedisParser) (* [parseArray] on what follows index [n] *)
| Raise (e : cpp_exn) (p : RedisParser)
| Undefined (u : cpp_ub) (p : RedisParser).

Section parser.
Context `{Reserve}.
Implicit Types (ptr : bytes) (i : nat) (c : byte) (p : RedisParser).

Definition error_at i p : turn := Return (i + 1) Error (set_state State.Start p).
Definition goto i (s : State.t) p : turn := Next (i + 1) (set_state s p).
Definition complete i (v : RedisValue) p : turn :=
  Return (i + 1) Completed (push_value v (set_state State.Start p)).

Definition on_start i c p : turn :=
  let p := set_buf [] p in
  if decide (c = stringReply) then goto i State.String p
  else if decide (c = errorReply) then goto i State.ErrorString p
  else if decide (c = integerReply) then goto i State.Integer p
  else if decide (c = bulkReply) then goto i State.BulkSize (set_bulkSize 0 p)
  else if decide (c = arrayReply) then goto i State.ArraySize p
  else error_at i p.

(** The cases [String] and [ErrorString]. *)
Definition on_text (lf : State.t) i c p : turn :=
  if decide (c = CR) then goto i lf p
  else if isChar c && negb (isControl c) then Next (i + 1) (set_buf (buf p ++ [c]) p)
  else error_at i p.

Definition on_String := on_text State.StringLF.
Definition on_ErrorString := on_text State.ErrorLF.

(** The line feed behind a text. *)
Definition on_text_lf (error : bool) i c p : turn :=
  if decide (c = LF) then complete i (Bytes (buf p) error) p else error_at i p.
Definition on_StringLF := on_text_lf false.
Definition on_ErrorLF := on_text_lf true.

(** The cases [BulkSize], [ArraySize] and [Integer]. *)
Definition on_number (lf : State.t) i c p : turn :=
  if decide (c = CR) then if decide (buf p = []) then error_at i p else goto i lf p
  else if isNumChar c then Next (i + 1) (set_buf (buf p ++ [c]) p)
  else error_at i p.

Definition on_BulkSize := on_number State.BulkSizeLF.
Definition on_ArraySize := on_number State.ArraySizeLF.
Definition on_Integer := on_number State.IntegerLF.

Definition on_BulkSizeLF ptr i c p : turn :=
  if decide (c = LF) then
    let bulkSize := strtol (buf p) in
    let p := set_buf [] (set_bulkSize bulkSize p) in
    if bulkSize =? -1 then complete i Null p
    else if bulkSize =? 0 then goto i State.BulkCR p
    else if bulkSize <? 0 then error_at i p
    else
      match reserve_bytes bulkSize with
      | Some e => Raise e p
      | None =>
          let available := Z.of_nat (length ptr) - Z.of_nat i - 1 in
          let canRead := Z.min bulkSize available in
          let p := if 0 <? canRead
                   then set_buf (take (Z.to_nat canRead) (drop (i + 1) ptr)) p else p in
          let i := (i + Z.to_nat canRead)%nat in
          if available <? bulkSize then
            Return (i + 1) Incompleted
              (set_state State.Bulk (set_bulkSize (bulkSize - canRead) p))
          else goto i State.BulkCR p
      end
  else error_at i p.

(** [buf.insert(buf.end(), ptr + i, ptr + canRead)]: the range is valid only
    when it is not reversed. *)
Definition on_Bulk ptr i p : turn :=
  let available := Z.of_nat (length ptr) - Z.of_nat i in
  let canRead := Z.min available (bulkSize p) in
  if canRead <? Z.of_nat i then Undefined out_of_bounds_read p
  else
    let p := set_buf (buf p ++ take (Z.to_nat canRead - i) (drop i ptr)) p in
    let p := set_bulkSize (bulkSize p - canRead) p in
    let i := (i + Z.to_nat canRead - 1)%nat in
    if 0 <? bulkSize p then Return (i + 1) Incompleted p
    else
      let p := set_state State.BulkCR p in
      if decide (length ptr = i + 1)%nat then Return (i + 1) Incompleted p
      else Next (i + 1) p.

Definition on_ArraySizeLF ptr i c p : turn :=
  if decide (c = LF) then
    let arraySize := strtol (buf p) in
    let p := set_buf [] p in
    if (arraySize =? -1) || (arraySize =? 0) then complete i (Array []) p
    else if arraySize <? 0 then error_at i p
    else
      match reserve_values arraySize with
      | Some e => Raise e p
      | None =>
          let p := set_state State.Start (push_value (Array []) (push_array arraySize p)) in
          if decide (i + 1 = length ptr)%nat then Return (i + 1) Incompleted p
          else Nested (i + 1) p
      end
  else error_at i p.

Definition on_IntegerLF i c p : turn :=
  if decide (c = LF) then complete i (Int (strtol (buf p))) (set_buf [] p) else error_at i p.

Definition on_BulkCR i c p : turn :=
  if decide (c = CR) then goto i State.BulkLF p else error_at i p.
Definition on_BulkLF := on_text_lf false.

(** The [switch] over the state. *)
Definition chunk_turn ptr i c p : turn :=
  match state p with
  | State.Start => on_start i c p
  | State.String => on_String i c p
  | State.StringLF => on_StringLF i c p
  | State.ErrorString => on_ErrorString i c p
  | State.ErrorLF => on_ErrorLF i c p
  | State.BulkSize => on_BulkSize i c p
  | State.BulkSizeLF => on_BulkSizeLF ptr i c p
  | State.Bulk => on_Bulk ptr i p
  | State.BulkCR => on_BulkCR i c p
  | State.BulkLF => on_BulkLF i c p
  | State.ArraySize => on_ArraySize i c p
  | State.ArraySizeLF => on_ArraySizeLF ptr i c p
  | State.Integer => on_Integer i c p
  | State.IntegerLF => on_IntegerLF i c p
  end.

(** ** The three mutually recursive functions *)

(** What a call leaves: its outcome and the parser; [None] when out of fuel. *)
Definition parse_res : Type := option (outcome (nat * ParseResult) * RedisParser).

(** Continue with the number of bytes consumed and the result of a call. *)
Definition then_ (m : parse_res) (k : nat -> ParseResult -> RedisParser -> parse_res) : parse_res :=
  match m with
  | None => None
  | Some (Ok (i, r), p) => k i r p
  | Some (Throw e, p) => Some (Throw e, p)
  | Some (UB u, p) => Some (UB u, p)
  end.

Definition ret (i : nat) (r : ParseResult) (p : RedisParser) : parse_res := Some (Ok (i, r), p).

Fixpoint parse_with (n : nat) (ptr : bytes) (p : RedisParser) {struct n} : parse_res :=
  match n with
  | O => None
  | S n => match arrayStack p with [] => parseChunk n ptr 0 p | _ => parseArray n ptr p end
  end
(** Both stacks give up their top; deeper arrays are completed first, then
    the array itself. *)
with parseArray (n : nat) (ptr : bytes) (p : RedisParser) {struct n} : parse_res :=
  match n with
  | O => None
  | S n =>
      match arrayStack p, valueStack p with
      | arraySize :: arrays, v :: values =>
          let arrayValue := toArray v in
          let p := set_stacks arrays values p in
          match arrays with
          | [] => parseRest n ptr 0 arraySize arrayValue p
          | _ =>
              then_ (parseArray n ptr p) (fun i r p =>
                if decide (r = Completed) then
                  match valueStack p with
                  | [] => Some (UB empty_deque, p)
                  | v :: vs =>
                      parseRest n ptr i (arraySize - 1) (arrayValue ++ [v])
                        (set_stacks (arrayStack p) vs p)
                  end
                else ret i r (push_array arraySize (push_value (Array arrayValue) p)))
          end
      | _, _ => Some (UB empty_deque, p)
      end
  end
(** From the test [i == size] on. *)
with parseRest (n : nat) (ptr : bytes) (i : nat) (arraySize : Z) (arrayValue : list RedisValue)
    (p : RedisParser) {struct n} : parse_res :=
  match n with
  | O => None
  | S n =>
      if decide (i = length ptr) then
        let p := push_value (Array arrayValue) p in
        if arraySize =? 0 then ret i Completed p
        else ret i Incompleted (push_array arraySize p)
      else parseElements n ptr i 0 arraySize arrayValue p
  end
(** The loop over [x]. *)
with parseElements (n : nat) (ptr : bytes) (i : nat) (x arraySize : Z)
    (arrayValue : list RedisValue) (p : RedisParser) {struct n} : parse_res :=
  match n with
  | O => None
  | S n =>
      if x <? arraySize then
        then_ (parse_with n (drop i ptr) p) (fun k r p =>
          let i := (i + k)%nat in
          match r with
          | Error => ret i Error p
          | Incompleted =>
              ret i Incompleted
                (push_array (arraySize - x) (push_value (Array arrayValue) p))
          | Completed =>
              match valueStack p with
              | [] => Some (UB empty_deque, p)
              | v :: vs =>
                  parseElements n ptr i (x + 1) arraySize (arrayValue ++ [v])
                    (set_stacks (arrayStack p) vs p)
              end
          end)
      else ret i Completed (push_value (Array arrayValue) p)
  end
(** The loop over [i]. *)
with parseChunk (n : nat) (ptr : bytes) (i : nat) (p : RedisParser) {struct n} : parse_res :=
  match n with
  | O => None
  | S n =>
      match ptr !! i with
      | None => ret i Incompleted p
      | Some c =>
          match chunk_turn ptr i c p with
          | Next i p => parseChunk n ptr i p
          | Return i r p => ret i r p
          | Nested i p => then_ (parseArray n (drop i ptr) p) (fun k r p => ret (i + k) r p)
          | Raise e p => Some (Throw e, p)
          | Undefined u p => Some (UB u, p)
          end
      end
  end.

Definition parse_fuel (ptr : bytes) (p : RedisParser) : nat :=
  5 * length ptr + 2 * length (arrayStack p) + 8.

Definition parse (ptr : bytes) (p : RedisParser) : parse_res := parse_with (parse_fuel ptr p) ptr p.

(** [result()]: pops the value on top of the stack; a null value if there is
    none. *)
Definition result (p : RedisParser) : RedisValue * RedisParser :=
  match valueStack p with
  | v :: vs => (v, set_stacks (arrayStack p) vs p)
  | [] => (Null, p)
  end.
End parser.
