(* ===== verification/RedisParserFacts.v ===== *)
(** * The reply parser against a byte-wise specification

    [feed] is a reference parser: a lexer that takes one byte at a time and a
    stack of open arrays, innermost first.  The recursive parser of
    [RedisParser.v], which looks ahead in its chunk and rebuilds its stacks at
    every chunk boundary, is shown to compute the same. *)
From S2P Require Import Prelude Util RedisValue RedisParser.

(** ** The reference parser *)

Inductive num_kind := NInt | NBulk | NArray.

Inductive lex :=
| LStart
| LText (err : bool) (b : bytes)
| LTextLF (err : bool) (b : bytes)
| LNum (k : num_kind) (b : bytes)
| LNumLF (k : num_kind) (b : bytes)
| LBulk (n : Z) (b : bytes) (* [n] bytes of a bulk string are missing *)
| LBulkCR (b : bytes)
| LBulkLF (b : bytes).

Inductive lex_result :=
| More (l : lex)
| Token (v : RedisValue)
| Open (n : Z)
| LBad
| LFail (e : cpp_exn).

Abbreviation frames := (list (Z * list RedisValue)).

Inductive fres :=
| Running (l : lex) (fs : frames)
| Done (v : RedisValue)
| Bad
| Fail (e : cpp_exn).

Section reference.
Context `{Reserve}.

Definition lex_number (k : num_kind) (n : Z) : lex_result :=
  match k with
  | NInt => Token (Int n)
  | NBulk =>
      if n =? -1 then Token Null
      else if n =? 0 then More (LBulkCR [])
      else if n <? 0 then LBad
      else match reserve_bytes n with Some e => LFail e | None => More (LBulk n []) end
  | NArray =>
      if (n =? -1) || (n =? 0) then Token (Array [])
      else if n <? 0 then LBad
      else match reserve_values n with Some e => LFail e | None => Open n end
  end.

Definition lex_byte (l : lex) (c : byte) : lex_result :=
  match l with
  | LStart =>
      if decide (c = stringReply) then More (LText false [])
      else if decide (c = errorReply) then More (LText true [])
      else if decide (c = integerReply) then More (LNum NInt [])
      else if decide (c = bulkReply) then More (LNum NBulk [])
      else if decide (c = arrayReply) then More (LNum NArray [])
      else LBad
  | LText e b =>
      if decide (c = CR) then More (LTextLF e b)
      else if isChar c && negb (isControl c) then More (LText e (b ++ [c])) else LBad
  | LTextLF e b => if decide (c = LF) then Token (Bytes b e) else LBad
  | LNum k b =>
      if decide (c = CR) then if decide (b = []) then LBad else More (LNumLF k b)
      else if isNumChar c then More (LNum k (b ++ [c])) else LBad
  | LNumLF k b => if decide (c = LF) then lex_number k (strtol b) else LBad
  | LBulk n b => More (if n =? 1 then LBulkCR (b ++ [c]) else LBulk (n - 1) (b ++ [c]))
  | LBulkCR b => if decide (c = CR) then More (LBulkLF b) else LBad
  | LBulkLF b => if decide (c = LF) then Token (Bytes b false) else LBad
  end.

(** A finished value goes to the innermost open array, which may finish too. *)
Fixpoint deliver (v : RedisValue) (fs : frames) : fres :=
  match fs with
  | [] => Done v
  | (n, vs) :: fs =>
      if n =? 1 then deliver (Array (vs ++ [v])) fs else Running LStart ((n - 1, vs ++ [v]) :: fs)
  end.

Definition after_lex (r : lex_result) (fs : frames) : fres :=
  match r with
  | More l => Running l fs
  | Token v => deliver v fs
  | Open n => Running LStart ((n, []) :: fs)
  | LBad => Bad
  | LFail e => Fail e
  end.

Definition feed_byte (l : lex) (fs : frames) (c : byte) : fres := after_lex (lex_byte l c) fs.

Definition shift (k : nat) (x : nat * fres) : nat * fres := ((k + x.1)%nat, x.2).

(** Feed bytes until a value is done or an error is met; how many were used. *)
Fixpoint feed (l : lex) (fs : frames) (w : bytes) : nat * fres :=
  match w with
  | [] => (0%nat, Running l fs)
  | c :: w =>
      match feed_byte l fs c with
      | Running l fs => shift 1 (feed l fs w)
      | r => (1%nat, r)
      end
  end.

(** Go on with [w] after [k] bytes that led to [r]. *)
Definition resume (k : nat) (r : fres) (w : bytes) : nat * fres :=
  match r with Running l fs => shift k (feed l fs w) | r => (k, r) end.

(** ** Lemmas on the reference parser *)

Lemma shift_0 x : shift 0 x = x.
Proof. by destruct x. Qed.

Lemma shift_shift j k x : shift j (shift k x) = shift (j + k) x.
Proof. unfold shift. simpl. f_equal. lia. Qed.

Lemma shift_resume j k r w : shift j (resume k r w) = resume (j + k) r w.
Proof. destruct r; simpl; [by rewrite shift_shift|done..]. Qed.

Lemma feed_cons l fs c w : feed l fs (c :: w) = resume 1 (feed_byte l fs c) w.
Proof. simpl. by destruct (feed_byte l fs c). Qed.

Lemma deliver_app v fs outer :
  deliver v (fs ++ outer) =
  match deliver v fs with
  | Running l fs' => Running l (fs' ++ outer)
  | Done v => deliver v outer
  | r => r
  end.
Proof.
  revert v. induction fs as [|[n vs] fs IH]; intros v; simpl; [done|].
  destruct (n =? 1); [apply IH|done].
Qed.

Lemma feed_byte_app l fs outer c :
  feed_byte l (fs ++ outer) c =
  match feed_byte l fs c with
  | Running l fs' => Running l (fs' ++ outer)
  | Done v => deliver v outer
  | r => r
  end.
Proof. unfold feed_byte, after_lex. destruct (lex_byte l c); try done. apply deliver_app. Qed.

(** Open arrays around the value being read do not influence its reading. *)
Lemma feed_app l fs outer w :
  feed l (fs ++ outer) w =
  match feed l fs w with
  | (k, Running l fs') => (k, Running l (fs' ++ outer))
  | (k, Done v) => resume k (deliver v outer) (drop k w)
  | x => x
  end.
Proof.
  revert l fs. induction w as [|c w IH]; intros l fs; [done|]. simpl.
  rewrite feed_byte_app. destruct (feed_byte l fs c) as [l' fs'|v| |e]; try done.
  - rewrite IH. destruct (feed l' fs' w) as [k [l2 fs2|v| |e]]; try done.
    simpl. by destruct (deliver v outer).
  - simpl. by destruct (deliver v outer).
Qed.

(** Feeding is independent of how the bytes are cut. *)
Lemma feed_cut l fs w1 w2 :
  feed l fs (w1 ++ w2) =
  match feed l fs w1 with
  | (k, Running l fs) => shift k (feed l fs w2)
  | x => x
  end.
Proof.
  revert l fs. induction w1 as [|c w1 IH]; intros l fs; simpl; [by rewrite shift_0|].
  destruct (feed_byte l fs c) as [l' fs'|v| |e]; try done.
  rewrite IH. by destruct (feed l' fs' w1) as [k [l2 fs2|v| |e]].
Qed.

(** A stretch of a bulk string, and the rest of one. *)
Lemma feed_bulk n b fs w :
  0 < n ->
  feed (LBulk n b) fs w =
  if Z.of_nat (length w) <? n then (length w, Running (LBulk (n - Z.of_nat (length w)) (b ++ w)) fs)
  else shift (Z.to_nat n)
         (feed (LBulkCR (b ++ take (Z.to_nat n) w)) fs (drop (Z.to_nat n) w)).
Proof.
  revert n b. induction w as [|c w IH]; intros n b Hn.
  { rewrite (proj2 (Z.ltb_lt _ n)) by (simpl; lia). simpl. by rewrite app_nil_r, Z.sub_0_r. }
  simpl length. simpl feed at 1. unfold feed_byte. simpl. destruct (Z.eqb_spec n 1) as [->|Hn1].
  { destruct (Z.ltb_spec (Z.of_nat (S (length w))) 1); [lia|]. done. }
  rewrite IH by lia.
  destruct (Z.ltb_spec (Z.of_nat (length w)) (n - 1)) as [Hl|Hl];
  destruct (Z.ltb_spec (Z.of_nat (S (length w))) n) as [Hl'|Hl']; try lia.
  - unfold shift. simpl. rewrite <-app_assoc. simpl. do 3 f_equal. lia.
  - rewrite shift_shift, <-app_assoc.
    replace (Z.to_nat n) with (S (Z.to_nat (n - 1))) by lia. done.
Qed.
End reference.

(** ** The parser computes the reference *)

(** What the parser's token state stands for; in [Start] neither [buf] nor
    [bulkSize] matters. *)
Definition lex_of (p : RedisParser) : lex :=
  match state p with
  | State.Start => LStart
  | State.String => LText false (buf p)
  | State.StringLF => LTextLF false (buf p)
  | State.ErrorString => LText true (buf p)
  | State.ErrorLF => LTextLF true (buf p)
  | State.Integer => LNum NInt (buf p)
  | State.IntegerLF => LNumLF NInt (buf p)
  | State.BulkSize => LNum NBulk (buf p)
  | State.BulkSizeLF => LNumLF NBulk (buf p)
  | State.Bulk => LBulk (bulkSize p) (buf p)
  | State.BulkCR => LBulkCR (buf p)
  | State.BulkLF => LBulkLF (buf p)
  | State.ArraySize => LNum NArray (buf p)
  | State.ArraySizeLF => LNumLF NArray (buf p)
  end.

Definition lex_wf (l : lex) : Prop := match l with LBulk n _ => 0 < n | _ => True end.

(** The parser between two chunks: its stacks hold the open arrays, the
    outermost on top. *)
Record represents (p : RedisParser) (l : lex) (fs : frames) : Prop := {
  rep_lex : lex_of p = l;
  rep_wf : lex_wf l;
  rep_arrays : arrayStack p = reverse fs.*1;
  rep_values : valueStack p = reverse (Array <$> fs.*2);
  rep_open : Forall (fun f => 1 ≤ f.1) fs
}.

(** The parser with a finished value to hand out. *)
Definition finished (p : RedisParser) (v : RedisValue) : Prop :=
  state p = State.Start /\ arrayStack p = [] /\ valueStack p = [v].

(** [m] is the answer the reference result [x] asks for, [off] bytes having
    been consumed before. *)
Definition agrees (off : nat) (x : nat * fres) (m : parse_res) : Prop :=
  match m with
  | None => False
  | Some (o, p) =>
      match x.2 with
      | Running l fs => o = Ok ((off + x.1)%nat, Incompleted) /\ represents p l fs
      | Done v => o = Ok ((off + x.1)%nat, Completed) /\ finished p v
      | Bad => o = Ok ((off + x.1)%nat, Error)
      | Fail e => o = Throw e
      end
  end.

Lemma agrees_shift off k x m : agrees off (shift k x) m <-> agrees (off + k) x m.
Proof.
  unfold agrees, shift. destruct m as [[o p]|]; [|done]. simpl.
  by rewrite Nat.add_assoc.
Qed.

(** No array is open: all of [parseChunk] runs in this state. *)
Definition flat (p : RedisParser) : Prop := arrayStack p = [] /\ valueStack p = [].

Lemma flat_represents p : flat p -> lex_wf (lex_of p) -> represents p (lex_of p) [].
Proof. intros [Ha Hv] Hw. by split. Qed.

Section simulation.
Context `{Reserve}.
Implicit Types (ptr : bytes) (i n : nat) (p : RedisParser).

(** What one turn at index [i] does, in terms of the reference. *)
Definition turn_ok ptr i p (t : turn) : Prop :=
  match t with
  | Next j p' =>
      (i < j ≤ length ptr)%nat /\ flat p' /\ lex_wf (lex_of p') /\ state p' <> State.Bulk /\
      feed (lex_of p) [] (drop i ptr) = shift (j - i) (feed (lex_of p') [] (drop j ptr))
  | Return k r p' => agrees i (feed (lex_of p) [] (drop i ptr)) (ret k r p')
  | Nested j p' =>
      (i < j < length ptr)%nat /\
      exists a, 1 ≤ a /\ represents p' LStart [(a, [])] /\
        feed (lex_of p) [] (drop i ptr) = shift (j - i) (feed LStart [(a, [])] (drop j ptr))
  | Raise e p' => exists k, feed (lex_of p) [] (drop i ptr) = (k, Fail e)
  | Undefined _ _ => False
  end.

Lemma feed_here ptr i c l fs :
  ptr !! i = Some c ->
  feed l fs (drop i ptr) = resume 1 (feed_byte l fs c) (drop (i + 1) ptr).
Proof. intros Hc. rewrite (drop_S _ c i), feed_cons by done. by rewrite Nat.add_1_r. Qed.

Lemma turn_error ptr i c p p' :
  ptr !! i = Some c -> feed_byte (lex_of p) [] c = Bad -> turn_ok ptr i p (error_at i p').
Proof. intros Hc E. simpl. by rewrite (feed_here ptr i c _ _ Hc), E. Qed.

Lemma turn_complete ptr i c p v p' :
  ptr !! i = Some c -> flat p' -> feed_byte (lex_of p) [] c = Done v ->
  turn_ok ptr i p (complete i v p').
Proof.
  intros Hc [Ha Hv] E. simpl. rewrite (feed_here ptr i c _ _ Hc), E. simpl.
  split; [done|]. split_and!; [done|done|]. simpl. by rewrite Hv.
Qed.

(** A turn that takes just the byte [c] and goes on. *)
Lemma turn_next ptr i c p p' :
  ptr !! i = Some c -> flat p' -> lex_wf (lex_of p') -> state p' <> State.Bulk ->
  feed_byte (lex_of p) [] c = Running (lex_of p') [] -> turn_ok ptr i p (Next (i + 1) p').
Proof.
  intros Hc Hf Hw Hs E. pose proof (lookup_lt_Some _ _ _ Hc). simpl.
  split_and!; [lia|lia|exact Hf|exact Hw|exact Hs|].
  rewrite (feed_here ptr i c _ _ Hc), E. simpl.
  by replace (i + 1 - i)%nat with 1%nat by lia.
Qed.

Lemma BulkSizeLF_ok ptr i c p :
  ptr !! i = Some c -> flat p -> state p = State.BulkSizeLF ->
  turn_ok ptr i p (on_BulkSizeLF ptr i c p).
Proof.
  intros Hc Hf Hs. pose proof (lookup_lt_Some _ _ _ Hc) as Hi. unfold on_BulkSizeLF.
  assert (lex_of p = LNumLF NBulk (buf p)) as El by (unfold lex_of; by rewrite Hs).
  destruct (decide (c = LF)) as [->|Hn];
    [|apply turn_error with c; [done|]; rewrite El; unfold feed_byte; simpl; by rewrite decide_False].
  assert (feed_byte (lex_of p) [] LF = match lex_number NBulk (strtol (buf p)) with
    | More l => Running l [] | Token v => Done v | Open n => Running LStart [(n, [])]
    | LBad => Bad | LFail e => Fail e end) as E by (rewrite El; done).
  simpl in E. set (k := strtol (buf p)) in *.
  destruct (k =? -1) eqn:E1; [by apply turn_complete with LF|].
  destruct (k =? 0) eqn:E0; [by apply turn_next with LF|].
  destruct (k <? 0) eqn:En; [by apply turn_error with LF|]. bool_to_Z.
  destruct (reserve_bytes k) as [e|]; simpl in E.
  { simpl. exists 1%nat. by rewrite (feed_here ptr i LF _ _ Hc), E. }
  pose proof (feed_here ptr i LF (lex_of p) [] Hc) as F. rewrite E in F. simpl in F.
  rewrite feed_bulk, length_drop in F by lia. cbv zeta.
  remember (Z.of_nat (length ptr) - Z.of_nat i - 1) as avail eqn:Ea.
  replace (Z.of_nat (length ptr - (i + 1))) with avail in F by lia.
  replace (if 0 <? Z.min k avail then _ else _)
    with (set_buf (take (Z.to_nat (Z.min k avail)) (drop (i + 1) ptr)) (set_bulkSize k p)).
  2:{ destruct (0 <? Z.min k avail) eqn:Em; bool_to_Z; [done|].
      by replace (Z.to_nat (Z.min k avail)) with 0%nat by lia. }
  destruct (Z.ltb_spec avail k) as [Hl|Hl].
  - rewrite Z.min_r by lia. unfold turn_ok. rewrite F. simpl.
    rewrite take_ge by (rewrite length_drop; lia). split; [do 2 f_equal; lia|].
    split; try done; simpl; [lia|apply Hf|apply Hf].
  - rewrite Z.min_l by lia. simpl. rewrite F, shift_shift, drop_drop.
    split_and!; [lia|lia|exact Hf|done|done|]. unfold lex_of. simpl.
    f_equal; [lia|]. f_equal. f_equal. lia.
Qed.

Lemma Bulk_ok ptr i c p :
  ptr !! i = Some c -> flat p -> state p = State.Bulk -> 0 < bulkSize p -> i = 0%nat ->
  turn_ok ptr i p (on_Bulk ptr i p).
Proof.
  intros Hc Hf Hs Hb ->. pose proof (lookup_lt_Some _ _ _ Hc) as Hi. unfold on_Bulk.
  pose proof (feed_bulk (bulkSize p) (buf p) [] ptr Hb) as F.
  assert (lex_of p = LBulk (bulkSize p) (buf p)) as El by (unfold lex_of; by rewrite Hs).
  rewrite <-El in F. cbv zeta. change (Z.of_nat 0) with 0. rewrite Z.sub_0_r, drop_0, Nat.sub_0_r.
  rewrite (proj2 (Z.ltb_ge (Z.min _ _) 0)) by lia.
  destruct (Z.ltb_spec (Z.of_nat (length ptr)) (bulkSize p)) as [Hl|Hl].
  - rewrite Z.min_l by lia. simpl. destruct (0 <? _) eqn:E0; bool_to_Z; [|lia].
    unfold turn_ok. rewrite drop_0, F. simpl. rewrite take_ge by lia.
    split; [do 2 f_equal; lia|].
    split; simpl; [unfold lex_of; simpl; rewrite Hs; done|lia|apply Hf|apply Hf|done].
  - rewrite Z.min_r by lia. simpl. destruct (0 <? _) eqn:E0; bool_to_Z; [lia|].
    case_decide as Hd.
    + unfold turn_ok. rewrite drop_0, F. simpl. rewrite drop_ge by lia. simpl.
      split; [do 2 f_equal; lia|]. split; simpl; [done|done|apply Hf|apply Hf|done].
    + unfold turn_ok. rewrite drop_0, F.
      split_and!; [lia|lia|exact Hf|done|done|]. unfold lex_of. simpl.
      f_equal; [lia|]. f_equal. f_equal. lia.
Qed.

Lemma ArraySizeLF_ok ptr i c p :
  ptr !! i = Some c -> flat p -> state p = State.ArraySizeLF ->
  turn_ok ptr i p (on_ArraySizeLF ptr i c p).
Proof.
  intros Hc Hf Hs. pose proof (lookup_lt_Some _ _ _ Hc) as Hi. unfold on_ArraySizeLF.
  assert (lex_of p = LNumLF NArray (buf p)) as El by (unfold lex_of; by rewrite Hs).
  destruct (decide (c = LF)) as [->|Hn];
    [|apply turn_error with c; [done|]; rewrite El; unfold feed_byte; simpl; by rewrite decide_False].
  assert (feed_byte (lex_of p) [] LF = match lex_number NArray (strtol (buf p)) with
    | More l => Running l [] | Token v => Done v | Open n => Running LStart [(n, [])]
    | LBad => Bad | LFail e => Fail e end) as E by (rewrite El; done).
  simpl in E. set (k := strtol (buf p)) in *.
  destruct ((k =? -1) || (k =? 0)) eqn:E1; [by apply turn_complete with LF|].
  destruct (k <? 0) eqn:En; [by apply turn_error with LF|]. bool_to_Z.
  destruct (reserve_values k) as [e|]; simpl in E.
  { simpl. exists 1%nat. by rewrite (feed_here ptr i LF _ _ Hc), E. }
  pose proof (feed_here ptr i LF (lex_of p) [] Hc) as F. rewrite E in F. simpl in F.
  destruct Hf as [Ha Hv].
  assert (represents (set_state State.Start (push_value (Array []) (push_array k (set_buf [] p))))
    LStart [(k, [])]) as Hr.
  { split; simpl; [done|done|by rewrite Ha|by rewrite Hv|]. constructor; [simpl; lia|done]. }
  case_decide as Hd.
  - unfold turn_ok. rewrite F, drop_ge by lia. simpl. done.
  - simpl. split; [lia|]. exists k. split_and!; [lia|exact Hr|].
    rewrite F. by replace (i + 1 - i)%nat with 1%nat by lia.
Qed.

(** Every turn of the loop follows the reference. *)
Lemma chunk_turn_ok ptr i c p :
  ptr !! i = Some c -> flat p -> lex_wf (lex_of p) -> (state p = State.Bulk -> i = 0%nat) ->
  turn_ok ptr i p (chunk_turn ptr i c p).
Proof.
  intros Hc Hf Hw Hb. unfold chunk_turn. unfold lex_of in Hw. destruct (state p) eqn:Hs;
    try (by eapply Bulk_ok; eauto); try (by eapply BulkSizeLF_ok); try (by eapply ArraySizeLF_ok);
    unfold on_start, on_String, on_ErrorString, on_StringLF, on_ErrorLF, on_BulkSize, on_BulkCR, on_BulkLF,
      on_ArraySize, on_Integer, on_text, on_text_lf, on_number, on_IntegerLF; repeat case_decide; repeat case_cond;
    first
    [ apply turn_error with c; [done|]
    | apply turn_complete with c; [done|done|]
    | apply turn_next with c; [done|done|unfold lex_of; simpl; try rewrite Hs; done
                              |simpl; try rewrite Hs; done|] ];
    unfold feed_byte, lex_of; rewrite ?Hs; simpl; rewrite ?Hs; simpl; subst;
    repeat first [rewrite decide_True by done | rewrite decide_False by done]; try done; by rewrite E.
Qed.

(** Feeding uses at least one byte for a value or an error. *)
Lemma feed_Done_pos l fs w k v : feed l fs w = (k, Done v) -> (1 ≤ k ≤ length w)%nat.
Proof.
  revert l fs k. induction w as [|c w IH]; intros l fs k E; simpl in E; [done|].
  destruct (feed_byte l fs c) as [l' fs'|v'| |e]; try done.
  - destruct (feed l' fs' w) as [j r] eqn:Ef. injection E as <- ->.
    apply IH in Ef. simpl. lia.
  - injection E as <- _. simpl. lia.
Qed.

Definition elements_spec (L : nat) : Prop := forall n ptr i x size vals p,
  (length (drop i ptr) ≤ L)%nat -> (i ≤ length ptr)%nat -> (5 * L + 3 ≤ n)%nat ->
  flat p -> lex_wf (lex_of p) -> x < size ->
  agrees i (feed (lex_of p) [(size - x, vals)] (drop i ptr)) (parseElements n ptr i x size vals p).

Definition chunk_spec (L : nat) : Prop := forall n ptr i p,
  (length (drop i ptr) ≤ L)%nat -> (i ≤ length ptr)%nat -> (5 * L + 1 ≤ n)%nat ->
  flat p -> lex_wf (lex_of p) -> (state p = State.Bulk -> i = 0%nat) ->
  agrees i (feed (lex_of p) [] (drop i ptr)) (parseChunk n ptr i p).

(** An array around the open ones. *)
Lemma represents_outer p l fs a vals :
  represents p l fs -> 1 ≤ a ->
  represents (push_array a (push_value (Array vals) p)) l (fs ++ [(a, vals)]).
Proof.
  intros [E1 E2 E3 E4 E5] Ha. split; simpl; [done|done| | |].
  - by rewrite fmap_app, reverse_app, E3.
  - by rewrite !fmap_app, reverse_app, E4.
  - apply Forall_app. split; [done|]. by constructor.
Qed.

Lemma finished_flat p v : finished p v -> flat (set_stacks [] [] p) /\ lex_of (set_stacks [] [] p) = LStart.
Proof. intros (Hs & _ & _). split; [done|]. unfold lex_of. simpl. by rewrite Hs. Qed.

Lemma parseElements_S n ptr i x size vals p :
  parseElements (S n) ptr i x size vals p =
  if x <? size then
    then_ (parse_with n (drop i ptr) p) (fun k r p =>
      match r with
      | Error => ret (i + k) Error p
      | Incompleted => ret (i + k) Incompleted (push_array (size - x) (push_value (Array vals) p))
      | Completed =>
          match valueStack p with
          | [] => Some (UB empty_deque, p)
          | v :: vs =>
              parseElements n ptr (i + k) (x + 1) size (vals ++ [v]) (set_stacks (arrayStack p) vs p)
          end
      end)
  else ret i Completed (push_value (Array vals) p).
Proof. reflexivity. Qed.

(** The loop goes on after an element. *)
Lemma elements_next L n ptr i k x size vals v p :
  (forall L', (L' < L)%nat -> elements_spec L') ->
  (length (drop i ptr) ≤ L)%nat -> (1 ≤ k ≤ length (drop i ptr))%nat -> (5 * L + 2 ≤ n)%nat ->
  finished p v -> x < size ->
  agrees i (resume k (deliver v [(size - x, vals)]) (drop k (drop i ptr)))
    (parseElements n ptr (i + k) (x + 1) size (vals ++ [v]) (set_stacks [] [] p)).
Proof.
  intros IH HL Hk Hn Hp Hx. destruct (finished_flat _ _ Hp) as [Hf El].
  rewrite length_drop in HL, Hk. simpl. destruct (Z.eqb_spec (size - x) 1) as [E|E].
  - destruct n as [|n]; [lia|]. rewrite parseElements_S, (proj2 (Z.ltb_ge _ _)) by lia.
    simpl. split; [done|]. destruct Hp as (Hs & _ & _). by split_and!.
  - simpl. rewrite agrees_shift, drop_drop, <-El. replace (size - x - 1) with (size - (x + 1)) by lia.
    apply (IH (L - 1)%nat); try lia; [rewrite length_drop; lia|exact Hf|by rewrite El].
Qed.

(** The element loop, given the chunk loop on the same bytes. *)
Lemma elements_step L :
  chunk_spec L -> (forall L', (L' < L)%nat -> elements_spec L') -> elements_spec L.
Proof.
  intros HC IH n ptr i x size vals p HL Hi Hn [Ha Hv] Hw Hx.
  destruct n as [|[|n]]; [lia|lia|].
  rewrite parseElements_S, (proj2 (Z.ltb_lt _ _) Hx).
  change (parse_with (S n) (drop i ptr) p) with
    (match arrayStack p with [] => parseChunk n (drop i ptr) 0 p | _ => parseArray n (drop i ptr) p end).
  rewrite Ha. pose proof (HC n (drop i ptr) 0%nat p) as HE. rewrite drop_0 in HE.
  specialize (HE HL ltac:(lia) ltac:(lia) (conj Ha Hv) Hw ltac:(done)).
  change [(size - x, vals)] with ([] ++ [(size - x, vals)] : frames). rewrite feed_app.
  destruct (feed (lex_of p) [] (drop i ptr)) as [k r] eqn:Ef.
  destruct (parseChunk n (drop i ptr) 0 p) as [[o p']|]; [|done].
  destruct r as [l fs|v| |e]; simpl in HE.
  - destruct HE as [-> Hr]. simpl. split; [done|]. apply represents_outer; [done|lia].
  - destruct HE as [-> Hp]. cbn [then_]. destruct Hp as (Hs & Ha' & Hv'). rewrite Hv', Ha'.
    apply feed_Done_pos in Ef. by apply (elements_next L); [..|lia|split_and!|].
  - by rewrite HE.
  - by rewrite HE.
Qed.

Lemma parseArray_S n ptr p size v arrays values :
  arrayStack p = size :: arrays -> valueStack p = v :: values ->
  parseArray (S n) ptr p =
  match arrays with
  | [] => parseRest n ptr 0 size (toArray v) (set_stacks arrays values p)
  | _ =>
      then_ (parseArray n ptr (set_stacks arrays values p)) (fun i r p =>
        if decide (r = Completed) then
          match valueStack p with
          | [] => Some (UB empty_deque, p)
          | v' :: vs =>
              parseRest n ptr i (size - 1) (toArray v ++ [v']) (set_stacks (arrayStack p) vs p)
          end
        else ret i r (push_array size (push_value (Array (toArray v)) p)))
  end.
Proof. intros Ha Hv. simpl. by rewrite Ha, Hv. Qed.

(** The loop after the test for the end of the chunk: [a] elements are missing. *)
Lemma rest_agrees L n ptr i a vals p :
  elements_spec L -> (length (drop i ptr) ≤ L)%nat -> (i ≤ length ptr)%nat -> (5 * L + 4 ≤ n)%nat ->
  flat p -> lex_wf (lex_of p) -> 1 ≤ a ->
  agrees i (feed (lex_of p) [(a, vals)] (drop i ptr)) (parseRest n ptr i a vals p).
Proof.
  intros HE HL Hi Hn Hf Hw Ha. destruct n as [|n]; [lia|]. simpl. case_decide as Hd.
  - rewrite drop_ge by lia. rewrite (proj2 (Z.eqb_neq _ _)) by lia. simpl.
    split; [by rewrite Nat.add_0_r|].
    apply (represents_outer p (lex_of p) []); [by apply flat_represents|done].
  - pose proof (HE n ptr i 0 a vals p HL Hi ltac:(lia) Hf Hw ltac:(lia)) as R.
    by rewrite Z.sub_0_r in R.
Qed.

Lemma rest_complete n ptr i vals p :
  (2 ≤ n)%nat -> parseRest n ptr i 0 vals p = ret i Completed (push_value (Array vals) p).
Proof. intros Hn. destruct n as [|[|n]]; [lia|lia|]. simpl. by case_decide. Qed.

(** [parseArray] fills the open arrays, from the innermost to the outermost. *)
Lemma array_agrees L fs : forall n ptr p l,
  elements_spec L -> (length ptr ≤ L)%nat -> (5 * L + 4 + length fs ≤ n)%nat ->
  fs <> [] -> represents p l fs -> agrees 0 (feed l fs ptr) (parseArray n ptr p).
Proof.
  induction fs as [|[a vals] fs IH] using rev_ind; intros n ptr p l HE HL Hn Hne [E1 E2 E3 E4 E5]; [done|].
  rewrite length_app in Hn. simpl in Hn. apply Forall_app in E5 as [E5 E6].
  apply Forall_cons in E6 as [E6 _]. simpl in E6. rewrite fmap_app, reverse_app in E3.
  rewrite !fmap_app, reverse_app in E4. simpl in E3, E4. destruct n as [|n]; [lia|].
  rewrite (parseArray_S _ _ _ _ _ _ _ E3 E4). cbn [toArray].
  set (p0 := set_stacks _ _ p). assert (lex_of p0 = l) as El by exact E1.
  destruct (decide (fs = [])) as [->|Hfs].
  { simpl app. subst l. pose proof (rest_agrees L n ptr 0 a vals p0) as R. rewrite drop_0 in R.
    apply R; try done; lia. }
  rewrite feed_app. assert (represents p0 l fs) as Hr by by split.
  specialize (IH n ptr p0 l HE HL ltac:(lia) Hfs Hr).
  replace (match reverse fs.*1 with [] => _ | _ => _ end) with
    (then_ (parseArray n ptr p0) (fun i r p =>
        if decide (r = Completed) then
          match valueStack p with
          | [] => Some (UB empty_deque, p)
          | v' :: vs => parseRest n ptr i (a - 1) (vals ++ [v']) (set_stacks (arrayStack p) vs p)
          end
        else ret i r (push_array a (push_value (Array vals) p)))).
  2:{ destruct (reverse fs.*1) eqn:E; [|done]. apply (f_equal length) in E.
      rewrite length_reverse, length_fmap in E. by destruct fs. }
  destruct (feed l fs ptr) as [k r] eqn:Ef. destruct (parseArray n ptr p0) as [[o p']|]; [|done].
  destruct r as [l' fs'|v| |e]; simpl in IH.
  - destruct IH as [-> Hr']. simpl. split; [done|]. by apply represents_outer.
  - destruct IH as [-> Hp]. pose proof (finished_flat _ _ Hp) as [Hf Hl].
    apply feed_Done_pos in Ef. destruct Hp as (Hs & Ha & Hv). cbn [then_].
    rewrite decide_True by done. rewrite Ha, Hv. simpl. destruct (Z.eqb_spec a 1) as [->|Ha1].
    + rewrite rest_complete by lia. simpl. by split_and!.
    + simpl. rewrite agrees_shift, <-Hl. apply (rest_agrees L); try done; try lia;
        [rewrite length_drop; lia|by rewrite Hl].
  - by rewrite IH.
  - by rewrite IH.
Qed.

Lemma agrees_then j x m :
  agrees 0 x m -> agrees j x (then_ m (fun k r p => ret (j + k) r p)).
Proof.
  unfold agrees. destruct m as [[o p]|]; [|done].
  destruct x as [k [l fs|v| |e]]; simpl; [intros [-> ?]|intros [-> ?]|intros ->|intros ->]; done.
Qed.

(** The chunk loop, given both loops on fewer bytes. *)
Lemma chunk_step L :
  (forall L', (L' < L)%nat -> chunk_spec L' /\ elements_spec L') -> chunk_spec L.
Proof.
  intros IH n ptr i p HL Hi Hn Hf Hw Hb. destruct n as [|n]; [lia|]. simpl.
  destruct (ptr !! i) as [c|] eqn:Hc.
  2:{ apply lookup_ge_None in Hc. rewrite drop_ge by lia. simpl.
      split; [by rewrite Nat.add_0_r|]. by apply flat_represents. }
  pose proof (lookup_lt_Some _ _ _ Hc) as Hlt. rewrite length_drop in HL.
  pose proof (chunk_turn_ok ptr i c p Hc Hf Hw Hb) as Ht.
  destruct (chunk_turn ptr i c p) as [j p'|k r p'|j p'|e p'|u p'].
  - destruct Ht as (Hj & Hf' & Hw' & Hs' & ->). rewrite agrees_shift.
    replace (i + (j - i))%nat with j by lia.
    apply (IH (L - 1)%nat); try done; try lia. rewrite length_drop. lia.
  - exact Ht.
  - destruct Ht as (Hj & a & Ha & Hr & ->). rewrite agrees_shift.
    replace (i + (j - i))%nat with j by lia. apply agrees_then.
    apply (array_agrees (L - 1)); try done; [apply IH; lia|rewrite length_drop; lia|simpl; lia].
  - destruct Ht as [k ->]. done.
  - done.
Qed.

Lemma all_specs L : chunk_spec L /\ elements_spec L.
Proof.
  induction (lt_wf L) as [L _ IH].
  assert (chunk_spec L) as HC by (by apply chunk_step).
  split; [done|]. apply elements_step; [done|]. intros L' HL'. by apply IH.
Qed.

Lemma parse_agrees ptr p l fs :
  represents p l fs -> agrees 0 (feed l fs ptr) (parse ptr p).
Proof.
  intros Hr. pose proof Hr as [E1 E2 E3 E4 E5]. unfold parse, parse_fuel.
  assert (length (arrayStack p) = length fs) as Hl by (by rewrite E3, length_reverse, length_fmap).
  rewrite Hl. destruct (all_specs (length ptr)) as [HC HE].
  replace (5 * length ptr + 2 * length fs + 8)%nat with
    (S (5 * length ptr + 2 * length fs + 7)) by lia.
  cbn [parse_with]. destruct fs as [|f fs].
  - rewrite E3. cbn. rewrite <-E1 in *. pose proof (HC (5 * length ptr + 0 + 7)%nat ptr 0%nat p) as R.
    rewrite drop_0 in R. apply R; try done; lia.
  - assert (arrayStack p <> []) as Hne by (intros E; by rewrite E in Hl).
    destruct (arrayStack p); [done|]. apply (array_agrees (length ptr)); try done. simpl. lia.
Qed.
End simulation.

(** ** Parser states up to what matters

    [buf] and [bulkSize] keep garbage outside the states that use them:
    parsers are compared by what they stand for. *)

#[export] Instance parser_equiv : Equiv RedisParser := fun p q =>
  lex_of p = lex_of q /\ arrayStack p = arrayStack q /\ valueStack p = valueStack q.

#[export] Instance parser_equivalence : Equivalence (@equiv RedisParser _).
Proof.
  split; [done|intros p q (?&?&?); by split_and!|].
  intros p q r (?&?&?) (?&?&?). split_and!; congruence.
Qed.

#[export] Instance represents_proper : Proper ((≡) ==> (=) ==> (=) ==> iff) represents.
Proof.
  intros p q (E1 & E2 & E3) l ? <- fs ? <-. split; intros [R1 R2 R3 R4 R5]; split; first [done|congruence].
Qed.

Lemma represents_equiv p q l fs : represents p l fs -> represents q l fs -> p ≡ q.
Proof. intros [E1 _ E2 E3 _] [F1 _ F2 F3 _]. split_and!; congruence. Qed.

Lemma finished_equiv p q v : finished p v -> finished q v -> p ≡ q.
Proof.
  intros (E1 & E2 & E3) (F1 & F2 & F3). split_and!; try congruence.
  unfold lex_of. by rewrite E1, F1.
Qed.

(** A parser that waits for bytes, inside or between values. *)
Definition parser_ok (p : RedisParser) : Prop := exists l fs, represents p l fs.

(** The answer [m2] is the answer [m1] with [off] more bytes consumed. *)
Definition same_answer (off : nat) (m1 m2 : parse_res) : Prop :=
  match m1, m2 with
  | Some (Ok (i, r), q1), Some (Ok (j, s), q2) =>
      j = (off + i)%nat /\ r = s /\ (r <> Error -> q1 ≡ q2)
  | Some (Throw e, _), Some (Throw e', _) => e = e'
  | _, _ => False
  end.

Lemma agrees_same off x m1 m2 :
  agrees 0 x m1 -> agrees off x m2 -> same_answer off m1 m2.
Proof.
  unfold agrees, same_answer. destruct m1 as [[o1 q1]|], m2 as [[o2 q2]|]; try done.
  destruct x as [k [l fs|v| |e]]; simpl.
  - intros [-> R1] [-> R2]. split_and!; [done|done|]. intros _. by eapply represents_equiv.
  - intros [-> R1] [-> R2]. split_and!; [done|done|]. intros _. by eapply finished_equiv.
  - intros -> ->. by split_and!.
  - by intros -> ->.
Qed.

Section theorems.
Context `{Reserve}.

Lemma feed_Running_all l fs w k l' fs' :
  feed l fs w = (k, Running l' fs') -> k = length w.
Proof.
  revert l fs k. induction w as [|c w IH]; intros l fs k E; simpl in E; [by inversion E|].
  destruct (feed_byte l fs c) as [l1 fs1|v| |e]; try done.
  destruct (feed l1 fs1 w) as [j r] eqn:Ef. injection E as <- ->. simpl. f_equal. by eapply IH.
Qed.

(** ** Properties *)

(** C34. The parser refines the byte-wise reference: from a parser that waits
    in the reference state [l] with the open arrays [fs], [parse] on any chunk
    returns (its fuel is enough), consumes as many bytes as the reference, and
    reports the same: more input needed and the same state reached, the same
    value completed, an error, or an exception of an allocation.  It never
    touches an empty stack or memory outside the chunk. *)
Theorem parse_refines_reference ptr p l fs :
  represents p l fs -> agrees 0 (feed l fs ptr) (parse ptr p).
Proof.
  intros Hr. exact (parse_agrees ptr p l fs Hr).
Qed.

(** C35. Parsing does not depend on where the stream is cut: when a first chunk
    is not enough, it is consumed completely and the next chunk gives the
    answer that both together would have given; otherwise the bytes behind the
    first chunk make no difference. *)
Theorem parse_any_cut a b p :
  parser_ok p ->
  match parse a p with
  | Some (Ok (k, Incompleted), p1) =>
      k = length a /\ parser_ok p1 /\ same_answer k (parse b p1) (parse (a ++ b) p)
  | m => same_answer 0 m (parse (a ++ b) p)
  end.
Proof.
  intros (l & fs & Hr). pose proof (parse_agrees a p l fs Hr) as Ha.
  pose proof (parse_agrees (a ++ b) p l fs Hr) as Hab. rewrite feed_cut in Hab.
  destruct (feed l fs a) as [k [l1 fs1|v| |e]] eqn:Ef.
  - destruct (parse a p) as [[o p1]|]; [|done]. destruct Ha as [-> Hr1]. simpl in Hr1 |- *.
    split; [by eapply feed_Running_all|]. split; [by exists l1, fs1|].
    apply (agrees_same k (feed l1 fs1 b)); [by apply parse_agrees|].
    by rewrite agrees_shift in Hab.
  - pose proof (agrees_same 0 _ _ _ Ha Hab) as S. unfold agrees in Ha.
    destruct (parse a p) as [[o p1]|]; [|done]. by destruct Ha as [-> _].
  - pose proof (agrees_same 0 _ _ _ Ha Hab) as S. unfold agrees in Ha.
    destruct (parse a p) as [[o p1]|]; [|done]. simpl in Ha. by rewrite Ha in S |- *.
  - pose proof (agrees_same 0 _ _ _ Ha Hab) as S. unfold agrees in Ha.
    destruct (parse a p) as [[o p1]|]; [|done]. simpl in Ha. by rewrite Ha in S |- *.
Qed.
End theorems.

(** ** Witnesses *)

Definition small_memory : Reserve :=
  {| reserve_bytes n := if n <=? 1000 then None else Some bad_alloc;
     reserve_values n := if n <=? 100 then None else Some length_error |}.

(** Five bytes into ["$4\r\nabcd\r\n"], inside an array of two. *)
Definition demo_parser : RedisParser :=
  mkParser State.Bulk 3 (lit "a") [2] [Array []].

Lemma demo_parser_represents : represents demo_parser (LBulk 3 (lit "a")) [(2, [])].
Proof. split; [done|simpl; lia|done|done|]. constructor; [simpl; lia|done]. Qed.

Lemma parse_refines_reference_witness :
  let ptr := lit "bcd" ++ crlf ++ lit ":7" ++ crlf ++ lit "rest" in
  match parse (H := small_memory) ptr demo_parser with
  | Some (Ok (n, r), p) =>
      n = 9%nat /\ r = Completed /\ valueStack p = [Array [Bytes (lit "abcd") false; Int 7]]
  | _ => False
  end.
Proof.
  intros ptr. pose proof (parse_refines_reference (H := small_memory) ptr demo_parser
    (LBulk 3 (lit "a")) [(2, [])] demo_parser_represents) as R.
  unfold agrees in R. destruct (parse ptr demo_parser) as [[o p]|]; [|done].
  vm_compute in R. destruct R as [-> (_ & _ & Hv)]. split_and!; [done|done|exact Hv].
Defined.

Lemma parse_any_cut_witness :
  match parse (H := small_memory) (lit "b") demo_parser with
  | Some (Ok (k, Incompleted), p1) =>
      k = 1%nat /\ parser_ok p1 /\
      same_answer k (parse (H := small_memory) (lit "cd") p1)
        (parse (H := small_memory) (lit "bcd") demo_parser)
  | _ => False
  end.
Proof.
  exact (parse_any_cut (H := small_memory) (lit "b") (lit "cd") demo_parser
    (ex_intro _ _ (ex_intro _ _ demo_parser_represents))).
Defined.
