(* ===== verification/RedisClient.v ===== *)
(** * The redis client: shared implementation

    Models [src/redisclient/impl/redisclientimpl.h] and
    [src/redisclient/impl/redisclientimpl.cpp]: the state that the two client
    interfaces share, the command path [doAsyncCommand] -> [asyncWrite], and the
    reply path [asyncRead] -> [parse] -> [doProcessMessage], in and outside
    subscribe mode.  [RedisAsync.v] and [RedisSync.v] model the interfaces.

    [assert()] is compiled out, as in a build with [NDEBUG]. *)
From S2P Require Import Prelude Util RedisValue RedisParser.

(** ** [makeCommand] *)

Definition makeItem (item : bytes) : bytes :=
  [Init.Byte.x24] ++ dec_nonneg (Z.of_nat (length item)) ++ crlf ++ item ++ crlf.

Definition makeCommand (items : list bytes) : bytes :=
  [Init.Byte.x2a] ++ dec_nonneg (Z.of_nat (length items)) ++ crlf ++ concat (makeItem <$> items).

(** ** Client state *)

Inductive State := NotConnected | Connected | Subscribed | Closed.

#[export] Instance State_eq_decision : EqDecision State.
Proof. solve_decision. Defined.

Section RedisClientImpl.
(** [H] stands for the completion handlers and [MH] for the message handlers,
    [boost::function] objects both. *)
Context {H MH : Type}.

(** What is posted on the strand: a call of [doAsyncCommand], or of a message
    handler. *)
Inductive posted :=
| PostCommand (item : bytes * H)
| PostMessage (h : MH) (msg : bytes).

(** A multimap is the list of its entries; entries with equal keys stay in the
    order of their insertion. *)
Record RedisClientImpl := mkClient {
  state : State;
  redisParser : RedisParser;
  reads : nat; (* outstanding async_read_some operations *)
  strand_posts : list posted;
  queue : list (bytes * H); (* std::queue<QueueItem> *)
  handlers : list H; (* std::queue of handlers waiting for a reply *)
  writes : list bytes; (* outstanding async_write operations *)
  sent : list bytes; (* completed writes, oldest first *)
  calls : list (H * RedisValue); (* completion handlers that were called, oldest first *)
  subscribeSeq : Z; (* size_t *)
  msgHandlers : list (bytes * (Z * MH)); (* std::multimap *)
  singleShotMsgHandlers : list (bytes * MH); (* std::multimap *)
  delivered : list (MH * bytes); (* message handlers that were called, oldest first *)
  errorHandler : bytes -> outcome unit (* what the installed handler does *)
}.

(** [defaulErrorHandler(s)]. *)
Definition defaulErrorHandler (s : bytes) : outcome unit := Throw (runtime_error s).

(** The constructor, and the error handler that both interfaces install. *)
Definition new_client : RedisClientImpl :=
  mkClient NotConnected new_parser 0 [] [] [] [] [] [] 0 [] [] [] defaulErrorHandler.

(** Field assignments. *)
Definition set_state (s : State) (c : RedisClientImpl) : RedisClientImpl :=
  mkClient s (redisParser c) (reads c) (strand_posts c) (queue c) (handlers c) (writes c) (sent c)
    (calls c) (subscribeSeq c) (msgHandlers c) (singleShotMsgHandlers c) (delivered c)
    (errorHandler c).
Definition set_read (p : RedisParser) (n : nat) (c : RedisClientImpl) : RedisClientImpl :=
  mkClient (state c) p n (strand_posts c) (queue c) (handlers c) (writes c) (sent c) (calls c)
    (subscribeSeq c) (msgHandlers c) (singleShotMsgHandlers c) (delivered c) (errorHandler c).
Definition set_posts (l : list posted) (c : RedisClientImpl) : RedisClientImpl :=
  mkClient (state c) (redisParser c) (reads c) l (queue c) (handlers c) (writes c) (sent c)
    (calls c) (subscribeSeq c) (msgHandlers c) (singleShotMsgHandlers c) (delivered c)
    (errorHandler c).
Definition set_queue (q : list (bytes * H)) (ws : list bytes) (c : RedisClientImpl) : RedisClientImpl :=
  mkClient (state c) (redisParser c) (reads c) (strand_posts c) q (handlers c) ws (sent c)
    (calls c) (subscribeSeq c) (msgHandlers c) (singleShotMsgHandlers c) (delivered c)
    (errorHandler c).
Definition set_handlers (hs : list H) (c : RedisClientImpl) : RedisClientImpl :=
  mkClient (state c) (redisParser c) (reads c) (strand_posts c) (queue c) hs (writes c) (sent c)
    (calls c) (subscribeSeq c) (msgHandlers c) (singleShotMsgHandlers c) (delivered c)
    (errorHandler c).
Definition add_sent (w : bytes) (c : RedisClientImpl) : RedisClientImpl :=
  mkClient (state c) (redisParser c) (reads c) (strand_posts c) (queue c) (handlers c) (writes c)
    (sent c ++ [w]) (calls c) (subscribeSeq c) (msgHandlers c) (singleShotMsgHandlers c)
    (delivered c) (errorHandler c).
Definition add_call (h : H) (v : RedisValue) (c : RedisClientImpl) : RedisClientImpl :=
  mkClient (state c) (redisParser c) (reads c) (strand_posts c) (queue c) (handlers c) (writes c)
    (sent c) (calls c ++ [(h, v)]) (subscribeSeq c) (msgHandlers c) (singleShotMsgHandlers c)
    (delivered c) (errorHandler c).
Definition set_subs (n : Z) (ms : list (bytes * (Z * MH))) (ss : list (bytes * MH))
    (c : RedisClientImpl) : RedisClientImpl :=
  mkClient (state c) (redisParser c) (reads c) (strand_posts c) (queue c) (handlers c) (writes c)
    (sent c) (calls c) n ms ss (delivered c) (errorHandler c).
Definition add_delivered (h : MH) (msg : bytes) (c : RedisClientImpl) : RedisClientImpl :=
  mkClient (state c) (redisParser c) (reads c) (strand_posts c) (queue c) (handlers c) (writes c)
    (sent c) (calls c) (subscribeSeq c) (msgHandlers c) (singleShotMsgHandlers c)
    (delivered c ++ [(h, msg)]) (errorHandler c).
Definition installErrorHandler (f : bytes -> outcome unit) (c : RedisClientImpl) : RedisClientImpl :=
  mkClient (state c) (redisParser c) (reads c) (strand_posts c) (queue c) (handlers c) (writes c)
    (sent c) (calls c) (subscribeSeq c) (msgHandlers c) (singleShotMsgHandlers c) (delivered c) f.

(** [errorHandler(s); return]: the client is left as it is, unless the handler
    throws. *)
Definition report (s : bytes) (c : RedisClientImpl) : outcome RedisClientImpl :=
  _ ← errorHandler c s; Ok c.

Definition getState : RedisClientImpl -> State := state.

(** [close()]: the subscriptions go, except the single-shot ones. *)
Definition close (c : RedisClientImpl) : RedisClientImpl :=
  if decide (state c = Closed) then c
  else set_state Closed (set_subs (subscribeSeq c) [] (singleShotMsgHandlers c) c).

(** ** Commands *)

(** [strand.post]. *)
Definition post (p : posted) (c : RedisClientImpl) : RedisClientImpl :=
  set_posts (strand_posts c ++ [p]) c.

Definition doAsyncCommand (item : bytes * H) (c : RedisClientImpl) : RedisClientImpl :=
  let queue' := queue c ++ [item] in
  set_queue queue' (if decide (length queue' = 1)%nat then writes c ++ [item.1] else writes c)
    (set_handlers (handlers c ++ [item.2]) c).

(** The strand runs the oldest posted call. *)
Definition run_post (c : RedisClientImpl) : option RedisClientImpl :=
  match strand_posts c with
  | [] => None
  | PostCommand item :: posts => Some (doAsyncCommand item (set_posts posts c))
  | PostMessage h msg :: posts => Some (add_delivered h msg (set_posts posts c))
  end.

(** [asyncWrite(ec, _)], the completion of the oldest outstanding write; [ec] is
    the message of a set error code. *)
Definition asyncWrite (ec : option bytes) (c : RedisClientImpl) : option (outcome RedisClientImpl) :=
  match writes c with
  | [] => None
  | w :: ws =>
      Some (match ec with
      | Some msg => report msg (set_queue (queue c) ws c)
      | None =>
          match queue c with
          | [] => UB empty_deque (* queue.pop() *)
          | _ :: q =>
              Ok (set_queue q (ws ++ match q with [] => [] | (b, _) :: _ => [b] end) (add_sent w c))
          end
      end)
  end.

(** ** Replies *)

(** [processMessage()]: start a read. *)
Definition processMessage (c : RedisClientImpl) : RedisClientImpl :=
  set_read (redisParser c) (S (reads c)) c.

(** [handleAsyncConnect(ec, handler)]: [connected] is false when [ec] is set. *)
Definition handleAsyncConnect (connected : bool)
    (handler : bool -> RedisClientImpl -> outcome RedisClientImpl) (c : RedisClientImpl) :
    outcome RedisClientImpl :=
  if connected then c ← handler true (set_state Connected c); Ok (processMessage c)
  else handler false c.

(** [handlers.front()(v); handlers.pop()]. *)
Definition call_front (h : H) (hs : list H) (v : RedisValue) (c : RedisClientImpl) : RedisClientImpl :=
  set_handlers hs (add_call h v c).

(** [find] and [erase] of the single-shot handlers of a channel: the first entry. *)
Fixpoint take_first (ch : bytes) (l : list (bytes * MH)) : option (MH * list (bytes * MH)) :=
  match l with
  | [] => None
  | (k, h) :: l =>
      if decide (k = ch) then Some (h, l)
      else '(h', l') ← take_first ch l; Some (h', (k, h) :: l')
  end.

(** [equal_range]: the handlers of a channel. *)
Definition subscribers (ch : bytes) (l : list (bytes * (Z * MH))) : list MH :=
  (fun e => e.2.2) <$> filter (fun e => e.1 = ch) l.

Definition post_messages (hs : list MH) (msg : bytes) (c : RedisClientImpl) : RedisClientImpl :=
  set_posts (strand_posts c ++ ((fun h => PostMessage h msg) <$> hs)) c.

(** The case of a published message. *)
Definition on_message (ch msg : bytes) (c : RedisClientImpl) : RedisClientImpl :=
  let c :=
    match take_first ch (singleShotMsgHandlers c) with
    | Some (h, rest) => set_subs (subscribeSeq c) (msgHandlers c) rest (post (PostMessage h msg) c)
    | None => c
    end in
  post_messages (subscribers ch (msgHandlers c)) msg c.

Definition protocol_error : bytes := lit "[RedisClient] Protocol error".
Definition invalid_command : bytes := lit "[RedisClient] invalid command: ".
Definition unexpected_message : bytes := lit "[RedisClient] unexpected message: ".

(** [doProcessMessage(v)] in subscribe mode. *)
Definition process_subscribed (v : RedisValue) (c : RedisClientImpl) : outcome RedisClientImpl :=
  match toArray v with
  | [command; queueName; value] =>
      let cmd := toString command in
      if decide (cmd = lit "message") then
        Ok (on_message (toString queueName) (toByteArray value) c)
      else
        match handlers c with
        | h :: hs =>
            if decide (cmd = lit "subscribe") then Ok (call_front h hs v c)
            else if decide (cmd = lit "unsubscribe") then Ok (call_front h hs v c)
            else report (invalid_command ++ cmd) c
        | [] => report (invalid_command ++ cmd) c
        end
  | _ => report protocol_error c
  end.

(** [doProcessMessage(v)]: outside subscribe mode the oldest waiting handler
    gets the reply. *)
Definition doProcessMessage (v : RedisValue) (c : RedisClientImpl) : outcome RedisClientImpl :=
  if decide (state c = Subscribed) then process_subscribed v c
  else
    match handlers c with
    | h :: hs => Ok (call_front h hs v c)
    | [] => report (unexpected_message ++ inspect v) c
    end.

Definition parser_error : bytes := lit "[RedisClient] Parser error".

Section reading.
Context `{Reserve}.

(** The loop of [asyncRead] over what is left of the buffer; every value takes
    a byte at least, which bounds the fuel. *)
Fixpoint read_loop (fuel : nat) (data : bytes) (c : RedisClientImpl) :
    option (outcome RedisClientImpl) :=
  match data, fuel with
  | [], _ => Some (Ok (processMessage c))
  | _, O => None
  | _, S fuel =>
      match parse data (redisParser c) with
      | None => None
      | Some (Throw e, _) => Some (Throw e)
      | Some (UB u, _) => Some (UB u)
      | Some (Ok (k, r), p) =>
          match r with
          | Completed =>
              let '(v, p) := result p in
              match doProcessMessage v (set_read p (reads c) c) with
              | Ok c => read_loop fuel (drop k data) c
              | o => Some o
              end
          | Incompleted => Some (Ok (processMessage (set_read p (reads c) c)))
          | Error => Some (report parser_error (set_read p (reads c) c))
          end
      end
  end.

(** [asyncRead(ec, size)], the completion of an outstanding read: [msg] is what
    [ec.message()] says. *)
Definition asyncRead (ec : bool) (msg : bytes) (data : bytes) (c : RedisClientImpl) :
    option (outcome RedisClientImpl) :=
  match reads c with
  | O => None
  | S n =>
      let c := set_read (redisParser c) n c in
      if ec || bool_decide (data = []) then Some (report msg c)
      else read_loop (length data) data c
  end.

(** [onRedisError(v)]. *)
Definition onRedisError (v : RedisValue) (c : RedisClientImpl) : outcome RedisClientImpl :=
  report (toString v) c.
End reading.
End RedisClientImpl.
Arguments RedisClientImpl H MH : clear implicits.
Arguments posted H MH : clear implicits.
