(* ===== verification/RedisBuffer.v ===== *)
(** * Buffers and the encoding of commands

    Models [src/redisclient/redisbuffer.h] and the functions [append] and
    [makeCommand] of [src/redisclient/impl/redisclientimpl.cpp] as the code
    writes them, over pointers into memory: a [RedisBuffer] does not own its
    bytes.  [makeCommand] of [RedisClient.v] is the same function on the
    contents; the two are proved equal. *)
From S2P Require Import Prelude Util RedisValue RedisParser RedisClient.

(** ** [RedisBuffer] *)

(** The block that [ptr_] points to, [None] for a null pointer. *)
Record RedisBuffer := mkBuffer { ptr_ : option bytes; size_ : nat }.

Definition RedisBuffer_default : RedisBuffer := mkBuffer None 0.
Definition RedisBuffer_raw (ptr : option bytes) (dataSize : nat) : RedisBuffer := mkBuffer ptr dataSize.
Definition RedisBuffer_cstring (s : option bytes) : outcome RedisBuffer :=
  match s with
  | None => Ok (mkBuffer None 0)
  | Some m => n ← strlen m; Ok (mkBuffer (Some m) n)
  end.
(** [s.c_str()] has a zero byte behind the text. *)
Definition RedisBuffer_string (s : bytes) : RedisBuffer :=
  mkBuffer (Some (s ++ [Init.Byte.x00])) (length s).
Definition RedisBuffer_vector (buf : bytes) : RedisBuffer :=
  mkBuffer (match buf with [] => None | _ => Some buf end) (length buf).

(** What a caller writes where a [RedisBuffer] is expected: the constructor
    that is chosen and its argument.  A pointer is the block it points to. *)
Inductive buffer_arg :=
| ArgNone
| ArgRaw (ptr : option bytes) (dataSize : nat)
| ArgCString (s : option bytes)
| ArgString (s : bytes)
| ArgVector (buf : bytes).

Definition construct (a : buffer_arg) : outcome RedisBuffer :=
  match a with
  | ArgNone => Ok RedisBuffer_default
  | ArgRaw ptr n => Ok (RedisBuffer_raw ptr n)
  | ArgCString s => RedisBuffer_cstring s
  | ArgString s => Ok (RedisBuffer_string s)
  | ArgVector buf => Ok (RedisBuffer_vector buf)
  end.

Definition size (b : RedisBuffer) : nat := size_ b.
Definition data (b : RedisBuffer) : option bytes := ptr_ b.

(** The bytes of the range [data(), data() + size()). *)
Definition contents (b : RedisBuffer) : outcome bytes :=
  match data b with
  | None => if (size b =? 0)%nat then Ok [] else UB out_of_bounds_read
  | Some m => mem_read m 0 (size b)
  end.

(** ** [append], by the type of the second argument *)

Definition append_buffer (vec : bytes) (b : RedisBuffer) : outcome bytes :=
  l ← contents b;
  Ok (vec ++ l).
Definition append_string (vec s : bytes) : bytes := vec ++ s.
Definition append_cstring (vec s : bytes) : outcome bytes :=
  n ← strlen s;
  l ← mem_read s 0 n;
  Ok (vec ++ l).
(** All elements of an array: a terminator would be appended with the rest. *)
Definition append_array (vec s : bytes) : bytes := vec ++ s.
(** [resize] by one, then an assignment to the last element. *)
Definition append_char (vec : bytes) (c : byte) : outcome bytes :=
  let vec := vec ++ [Init.Byte.x00] in
  mem_write vec (length vec - 1) [c].

(** [lexical_cast<std::string>] of a [size_t]. *)
Definition lexical_cast_size (n : nat) : bytes := dec_nonneg (Z.of_nat n).

Fixpoint append_items (result : bytes) (items : list RedisBuffer) : outcome bytes :=
  match items with
  | [] => Ok result
  | it :: items =>
      result ← append_char result Init.Byte.x24;
      let result := append_string result (lexical_cast_size (size it)) in
      let result := append_array result crlf in
      result ← append_buffer result it;
      let result := append_array result crlf in
      append_items result items
  end.

Definition makeCommand_buffers (items : list RedisBuffer) : outcome bytes :=
  result ← append_char [] Init.Byte.x2a;
  let result := append_string result (lexical_cast_size (length items)) in
  let result := append_array result crlf in
  append_items result items.

(** ** Lemmas *)

Lemma append_char_Ok vec c : append_char vec c = Ok (vec ++ [c]).
Proof.
  unfold append_char. rewrite length_app. simpl. replace (length vec + 1 - 1)%nat with (length vec) by lia.
  rewrite mem_write_snoc by (simpl; lia). by rewrite drop_ge, app_nil_r by (simpl; lia).
Qed.

(** The text that an argument stands for, where it is a legal one: a raw
    pointer with no more bytes than its block has, a C string with its
    terminating zero, any string or vector, or null pointers of no length. *)
Inductive denotes : buffer_arg -> bytes -> Prop :=
| den_none : denotes ArgNone []
| den_raw_null : denotes (ArgRaw None 0) []
| den_raw m n : (n <= length m)%nat -> denotes (ArgRaw (Some m) n) (take n m)
| den_cstring_null : denotes (ArgCString None) []
| den_cstring s rest : Init.Byte.x00 ∉ s -> denotes (ArgCString (Some (s ++ Init.Byte.x00 :: rest))) s
| den_string s : denotes (ArgString s) s
| den_vector buf : denotes (ArgVector buf) buf.

(** The range of a buffer can be read and is a text. *)
Definition holds (b : RedisBuffer) (l : bytes) : Prop := contents b = Ok l /\ size b = length l.

Lemma holds_raw m n : (n <= length m)%nat -> holds (RedisBuffer_raw (Some m) n) (take n m).
Proof.
  intros Hn. split; [|unfold size; simpl; rewrite length_take; lia].
  unfold contents, RedisBuffer_raw. simpl. by rewrite mem_read_Ok, drop_0 by lia.
Qed.

Lemma holds_string s : holds (RedisBuffer_string s) s.
Proof.
  split; [|done]. unfold contents, RedisBuffer_string. simpl.
  rewrite mem_read_Ok by len. by rewrite drop_0, take_app_length.
Qed.

Lemma holds_vector l : holds (RedisBuffer_vector l) l.
Proof.
  split; [|done]. unfold contents, RedisBuffer_vector. simpl. destruct l as [|c l]; [done|].
  rewrite mem_read_Ok by done. by rewrite drop_0, firstn_all.
Qed.

Lemma holds_cstring s rest b :
  Init.Byte.x00 ∉ s -> RedisBuffer_cstring (Some (s ++ Init.Byte.x00 :: rest)) = Ok b -> holds b s.
Proof.
  intros Hs. unfold RedisBuffer_cstring. rewrite strlen_Ok, ok_bind by done. intros [= <-].
  split; [|done]. unfold contents. simpl. rewrite mem_read_Ok by len.
  by rewrite drop_0, take_app_length.
Qed.

(** Every constructor yields a buffer whose range can be read. *)
Lemma construct_holds a l : denotes a l -> exists b, construct a = Ok b /\ holds b l.
Proof.
  intros [| |m n Hn| |t rest Ht|t|buf]; simpl.
  1, 2, 4: by eexists.
  - eauto using holds_raw.
  - eexists. split; [by rewrite strlen_Ok|]. apply (holds_cstring t rest); [done|].
    unfold RedisBuffer_cstring. by rewrite strlen_Ok.
  - eauto using holds_string.
  - eauto using holds_vector.
Qed.

Lemma construct_all srcs ls :
  Forall2 denotes srcs ls -> exists items, mapM construct srcs = Ok items /\ Forall2 holds items ls.
Proof.
  induction 1 as [|a l srcs ls Ha _ (items & E & Hf)]; [by exists []|].
  destruct (construct_holds a l Ha) as (b & Eb & Hb). exists (b :: items).
  split; [simpl; by rewrite Eb, ok_bind, E|by constructor].
Qed.

Lemma append_items_Ok result items ls :
  Forall2 holds items ls -> append_items result items = Ok (result ++ concat (makeItem <$> ls)).
Proof.
  intros Hf. revert result. induction Hf as [|b l items ls [Hc Hs] _ IH]; intros result.
  - simpl. by rewrite app_nil_r.
  - cbn [append_items]. rewrite fmap_cons. cbn [concat]. rewrite append_char_Ok, ok_bind. unfold append_buffer. rewrite Hc, !ok_bind, IH.
    unfold append_string, append_array, makeItem, lexical_cast_size. rewrite Hs. f_equal.
    by rewrite <-!app_assoc.
Qed.

(** ** Property *)

(** C24. [makeCommand], which copies from pointers with four overloads of
    [append], called with items made by any of the five constructors of
    [RedisBuffer] from legal arguments (a raw pointer to at least the given
    number of bytes, a C string with its terminating zero, any [std::string] or
    vector, or null pointers of no length): no constructor and no copy reads
    outside the memory of its argument, and the result is exactly the array of
    bulk strings of the texts, as [makeCommand] of [RedisClient.v] writes it. *)
Theorem makeCommand_faithful srcs ls :
  Forall2 denotes srcs ls ->
  exists items, mapM construct srcs = Ok items /\ makeCommand_buffers items = Ok (makeCommand ls).
Proof.
  intros Hd. destruct (construct_all srcs ls Hd) as (items & E & Hf). exists items. split; [done|].
  unfold makeCommand_buffers. rewrite append_char_Ok, ok_bind, (append_items_Ok _ _ ls Hf).
  unfold append_string, append_array, makeCommand, lexical_cast_size. rewrite (Forall2_length _ _ _ Hf).
  f_equal. by rewrite <-!app_assoc.
Qed.

(** One argument of each form; the C string is followed by other memory. *)
Lemma makeCommand_faithful_witness :
  exists items,
    mapM construct [ArgCString (Some (lit "SET" ++ Init.Byte.x00 :: lit "junk")); ArgString (lit "key");
                    ArgRaw (Some (lit "value!")) 5; ArgVector []; ArgNone] = Ok items /\
    makeCommand_buffers items = Ok (makeCommand [lit "SET"; lit "key"; lit "value"; []; []]).
Proof.
  apply makeCommand_faithful.
  constructor; [apply den_cstring; apply (bool_decide_unpack _); vm_compute; exact I|].
  constructor; [constructor|]. constructor; [apply (den_raw (lit "value!") 5); vm_compute; lia|].
  repeat constructor.
Defined.
