(* ===== verification/RedisAsync.v ===== *)
(** * The asynchronous redis client

    Models [src/redisclient/redisasyncclient.h] and
    [src/redisclient/impl/redisasyncclient.cpp]: connecting, commands in all
    their overloads, publish and subscribe; and the runs of a client, in which
    the network completes connects, writes and reads at any time. *)
From S2P Require Import Prelude Util RedisValue RedisParser RedisClient.

(** ** The interface *)

Section RedisAsyncClient.
Context {H MH : Type}.
Abbreviation client := (RedisClientImpl H MH).
Implicit Types (c : client) (h : H).

Definition isConnected c : bool :=
  bool_decide (getState c = Connected) || bool_decide (getState c = Subscribed).

(** The constructor and the destructor; [disconnect()]. *)
Definition new_async : client := RedisClient.installErrorHandler defaulErrorHandler new_client.
Definition destroy_async c : client := close c.
Definition disconnect c : client := close c.

(** The number an enumerator prints as. *)
Definition state_number (s : State) : Z :=
  match s with NotConnected => 0 | Connected => 1 | Subscribed => 2 | Closed => 3 end.

Definition invalid_state c : bytes :=
  lit "RedisAsyncClient::command called with invalid state " ++ to_string (state_number (state c)).

(** [if(stateValid())]: otherwise the error is reported and nothing done. *)
Definition if_valid (f : client -> client) c : outcome client :=
  if decide (state c = Connected) then Ok (f c) else report (invalid_state c) c.

(** [post(bind(doAsyncCommand, makeCommand(items), handler))]. *)
Definition post_command (items : list bytes) h c : client :=
  post (PostCommand (makeCommand items, h)) c.

(** [command(cmd, args, handler)]. *)
Definition command (cmd : bytes) (args : list bytes) h c : outcome client :=
  if_valid (post_command (cmd :: args) h) c.

(** The overloads for a fixed number of arguments. *)
Definition command0 (s : bytes) h c : outcome client := if_valid (post_command [s] h) c.
Definition command1 (cmd a1 : bytes) h c : outcome client := if_valid (post_command [cmd; a1] h) c.
Definition command2 (cmd a1 a2 : bytes) h c : outcome client :=
  if_valid (post_command [cmd; a1; a2] h) c.
Definition command3 (cmd a1 a2 a3 : bytes) h c : outcome client :=
  if_valid (post_command [cmd; a1; a2; a3] h) c.
Definition command4 (cmd a1 a2 a3 a4 : bytes) h c : outcome client :=
  if_valid (post_command [cmd; a1; a2; a3; a4] h) c.
Definition command5 (cmd a1 a2 a3 a4 a5 : bytes) h c : outcome client :=
  if_valid (post_command [cmd; a1; a2; a3; a4; a5] h) c.
Definition command6 (cmd a1 a2 a3 a4 a5 a6 : bytes) h c : outcome client :=
  if_valid (post_command [cmd; a1; a2; a3; a4; a5; a6] h) c.
Definition command7 (cmd a1 a2 a3 a4 a5 a6 a7 : bytes) h c : outcome client :=
  if_valid (post_command [cmd; a1; a2; a3; a4; a5; a6; a7] h) c.

(** *** Publish and subscribe *)

Record Handle := mkHandle { h_id : Z (* size_t *); h_channel : bytes }.

Definition can_subscribe c : bool :=
  bool_decide (state c = Connected) || bool_decide (state c = Subscribed).

(** [subscribe(channel, msgHandler, handler)]; [Handle()] has the id 0. *)
Definition subscribe (channel : bytes) (msgHandler : MH) h c : outcome (Handle * client) :=
  if can_subscribe c then
    let id := subscribeSeq c in
    let c := post_command [lit "SUBSCRIBE"; channel] h c in
    let c := set_subs (wrap 64 (id + 1)) (msgHandlers c ++ [(channel, (id, msgHandler))])
               (singleShotMsgHandlers c) c in
    Ok (mkHandle id channel, set_state Subscribed c)
  else c ← report (invalid_state c) c; Ok (mkHandle 0 [], c).

(** The erasing loop over the handlers of the channel. *)
Definition without (hd : Handle) (l : list (bytes * (Z * MH))) : list (bytes * (Z * MH)) :=
  filter (fun e => ~ (e.1 = h_channel hd /\ e.2.1 = h_id hd)) l.

(** [unsubscribe(handle)]; the command's own handler does nothing. *)
Definition unsubscribe (dummyHandler : H) (hd : Handle) c : outcome client :=
  if can_subscribe c then
    let c := set_subs (subscribeSeq c) (without hd (msgHandlers c)) (singleShotMsgHandlers c) c in
    Ok (post_command [lit "UNSUBSCRIBE"; h_channel hd] dummyHandler c)
  else report (invalid_state c) c.

(** [singleShotSubscribe(channel, msgHandler, handler)]. *)
Definition singleShotSubscribe (channel : bytes) (msgHandler : MH) h c : outcome client :=
  if can_subscribe c then
    let c := post_command [lit "SUBSCRIBE"; channel] h c in
    let c := set_subs (subscribeSeq c) (msgHandlers c)
               (singleShotMsgHandlers c ++ [(channel, msgHandler)]) c in
    Ok (set_state Subscribed c)
  else report (invalid_state c) c.

(** [publish(channel, msg, handler)]. *)
Definition publish (channel msg : bytes) h c : outcome client :=
  if decide (state c = Connected)
  then Ok (post_command [lit "PUBLISH"; channel; msg] h c)
  else report (invalid_state c) c.
End RedisAsyncClient.

(** ** Runs of the client

    [client_run issued c]: [c] is reached from a new client, and [issued] lists
    the commands accepted so far with their handlers, oldest first.  The
    network decides when a connect, a write or a read completes; the handler of
    a connect issues one command or none. *)
Section runs.
Context {H MH : Type} `{Reserve} (dummyHandler : H).
Abbreviation client := (RedisClientImpl H MH).

Inductive client_run : list (bytes * H) -> client -> Prop :=
| run_new : client_run [] new_client
| run_install l c f : client_run l c -> client_run l (installErrorHandler f c)
| run_connect l c c' :
    client_run l c -> handleAsyncConnect true (fun _ => Ok) c = Ok c' -> client_run l c'
| run_connect_command l c cmd args h c' :
    client_run l c -> handleAsyncConnect true (fun _ => command cmd args h) c = Ok c' ->
    client_run (l ++ [(makeCommand (cmd :: args), h)]) c'
| run_close l c : client_run l c -> client_run l (close c)
| run_command l c cmd args h c' :
    client_run l c -> state c = Connected -> command cmd args h c = Ok c' ->
    client_run (l ++ [(makeCommand (cmd :: args), h)]) c'
| run_publish l c ch msg h c' :
    client_run l c -> state c = Connected -> publish ch msg h c = Ok c' ->
    client_run (l ++ [(makeCommand [lit "PUBLISH"; ch; msg], h)]) c'
| run_subscribe l c ch mh h hd c' :
    client_run l c -> can_subscribe c = true -> subscribe ch mh h c = Ok (hd, c') ->
    client_run (l ++ [(makeCommand [lit "SUBSCRIBE"; ch], h)]) c'
| run_single_shot l c ch mh h c' :
    client_run l c -> can_subscribe c = true -> singleShotSubscribe ch mh h c = Ok c' ->
    client_run (l ++ [(makeCommand [lit "SUBSCRIBE"; ch], h)]) c'
| run_unsubscribe l c hd c' :
    client_run l c -> can_subscribe c = true -> unsubscribe dummyHandler hd c = Ok c' ->
    client_run (l ++ [(makeCommand [lit "UNSUBSCRIBE"; h_channel hd], dummyHandler)]) c'
| run_posted l c c' : client_run l c -> run_post c = Some c' -> client_run l c'
| run_written l c c' :
    client_run l c -> asyncWrite None c = Some (Ok c') -> client_run l c'
| run_read l c ec data msg c' :
    client_run l c -> asyncRead ec msg data c = Some (Ok c') -> client_run l c'.

(** The write pipeline: at most one write is outstanding, and it is the head of
    the queue. *)
Definition pipeline (c : client) : Prop :=
  writes c = match queue c with [] => [] | (b, _) :: _ => [b] end.

(** The commands among the posted calls. *)
Definition command_of (p : posted H MH) : option (bytes * H) :=
  match p with PostCommand item => Some item | PostMessage _ _ => None end.
Definition posted_commands (c : client) : list (bytes * H) := omap command_of (strand_posts c).

Definition fifo (l : list (bytes * H)) (c : client) : Prop :=
  sent c ++ (queue c).*1 ++ (posted_commands c).*1 = l.*1 /\
  (calls c).*1 ++ handlers c ++ (posted_commands c).*2 = l.*2.

Definition client_inv (l : list (bytes * H)) (c : client) : Prop := pipeline c /\ fifo l c.

(** What these invariants look at. *)
Definition command_state (c : client) :
    list bytes * list (bytes * H) * list bytes * list (bytes * H) * list H * list (H * RedisValue) :=
  (writes c, queue c, sent c, posted_commands c, handlers c, calls c).

Lemma client_inv_state l c c' :
  command_state c' = command_state c -> client_inv l c -> client_inv l c'.
Proof.
  unfold command_state, client_inv, pipeline, fifo.
  intros [= -> -> -> -> -> ->]. done.
Qed.

Lemma pipeline_doAsyncCommand item c : pipeline c -> pipeline (doAsyncCommand item c).
Proof.
  unfold pipeline, doAsyncCommand. simpl. intros ->.
  destruct (queue c) as [|[b h] q]; simpl; [by destruct item|].
  rewrite decide_False; [done|]. rewrite length_app. simpl. lia.
Qed.

Lemma post_command_inv l c items h :
  client_inv l c -> client_inv (l ++ [(makeCommand items, h)]) (post_command items h c).
Proof.
  intros [IP [IS IC]]. split; [exact IP|]. unfold fifo, posted_commands in *. simpl.
  rewrite omap_app. simpl. by rewrite !fmap_app, !app_assoc, <-IS, <-IC, <-!app_assoc.
Qed.

Lemma report_Ok s (c c' : client) : report s c = Ok c' -> c' = c.
Proof. intros E. apply outcome_bind_Ok in E as (u & _ & [= <-]). done. Qed.

Lemma call_front_inv l c h hs v :
  handlers c = h :: hs -> client_inv l c -> client_inv l (call_front h hs v c).
Proof.
  intros Eh [IP [IS IC]]. split; [exact IP|]. split; [exact IS|].
  unfold posted_commands in *. simpl. by rewrite <-IC, Eh, fmap_app, <-!app_assoc.
Qed.

Lemma posted_messages (hs : list MH) msg :
  omap command_of ((fun h => PostMessage h msg) <$> hs) = [].
Proof. by induction hs. Qed.

Lemma on_message_state ch msg c : command_state (on_message ch msg c) = command_state c.
Proof.
  unfold on_message, command_state, posted_commands. destruct (take_first _ _) as [[h rest]|]; simpl;
    by rewrite ?omap_app, posted_messages, ?app_nil_r.
Qed.

Lemma process_inv l v c c' :
  client_inv l c -> doProcessMessage v c = Ok c' -> client_inv l c'.
Proof.
  intros Hi E. unfold doProcessMessage, process_subscribed in E.
  repeat case_match; try (apply report_Ok in E as ->; done); try (injection E as <-);
    try (by apply call_front_inv); by apply (client_inv_state _ c), Hi; apply on_message_state.
Qed.

Lemma read_loop_inv l fuel : forall data c c',
  client_inv l c -> read_loop fuel data c = Some (Ok c') -> client_inv l c'.
Proof.
  induction fuel as [|fuel IH]; intros [|b data] c c' Hi E; try (by injection E as <-); [done|].
  cbn [read_loop] in E. destruct (parse _ _) as [[[[k r]|?|?] p]|]; try done.
  destruct r; [|by injection E as <-|injection E as E; by apply report_Ok in E as ->].
  destruct (result p) as [v p'].
  destruct (doProcessMessage v (set_read p' (reads c) c)) as [c1|?|?] eqn:Ep; try done.
  apply IH in E; [done|]. by apply (process_inv l) in Ep.
Qed.

Lemma client_run_inv l c : client_run l c -> client_inv l c.
Proof.
  induction 1 as [|l c f _ IH|l c c' _ IH E|l c cmd args h c' _ IH E|l c _ IH|l c cmd args h c' _ IH Hs E
    |l c ch msg h c' _ IH Hs E|l c ch mh h hd c' _ IH Hs E|l c ch mh h c' _ IH Hs E
    |l c hd c' _ IH Hs E|l c c' _ [IP [IS IC]] E|l c c' _ [IP [IS IC]] E|l c ec data msg c' _ IH E].
  - done.
  - exact IH.
  - simpl in E. by injection E as <-.
  - unfold handleAsyncConnect in E. apply outcome_bind_Ok in E as (c1 & E1 & [= <-]).
    unfold command, if_valid in E1. simpl in E1. injection E1 as <-.
    by apply (post_command_inv l (set_state Connected c)).
  - unfold close. by case_decide.
  - unfold command, if_valid in E. rewrite decide_True in E by done. injection E as <-.
    by apply post_command_inv.
  - unfold publish in E. rewrite decide_True in E by done. injection E as <-.
    by apply post_command_inv.
  - unfold subscribe in E. rewrite Hs in E. injection E as <- <-. by apply post_command_inv.
  - unfold singleShotSubscribe in E. rewrite Hs in E. injection E as <-. by apply post_command_inv.
  - unfold unsubscribe in E. rewrite Hs in E. injection E as <-. by apply post_command_inv.
  - unfold run_post in E. unfold posted_commands in *.
    destruct (strand_posts c) as [|[item|mh msg] posts] eqn:Ep; [done|injection E as <-..].
    + split; [by apply pipeline_doAsyncCommand|]. unfold fifo, posted_commands. simpl.
      simpl in IS, IC. by rewrite fmap_app, <-!app_assoc, <-IS, <-IC.
    + by split.
  - unfold asyncWrite in E. destruct (writes c) as [|w ws] eqn:Ew; [done|].
    unfold pipeline in IP. rewrite Ew in IP.
    destruct (queue c) as [|[b h] q] eqn:Eq; [done|]. injection E as <-.
    injection IP as -> ->. split; [done|]. unfold fifo, posted_commands in *. simpl.
    simpl in IS. by rewrite <-IS, <-IC, <-!app_assoc.
  - unfold asyncRead in E. destruct (reads c) as [|n]; [done|].
    destruct (ec || _); [injection E as E; by apply report_Ok in E as ->|].
    by apply (read_loop_inv l) in E.
Qed.

End runs.

(** All overloads of [command] are the one that takes a list. *)
Lemma command_overloads {H MH} (s a1 a2 a3 a4 a5 a6 a7 : bytes) (h : H) (c : RedisClientImpl H MH) :
  command0 s h c = command s [] h c /\ command1 s a1 h c = command s [a1] h c /\
  command2 s a1 a2 h c = command s [a1; a2] h c /\ command3 s a1 a2 a3 h c = command s [a1; a2; a3] h c /\
  command4 s a1 a2 a3 a4 h c = command s [a1; a2; a3; a4] h c /\
  command5 s a1 a2 a3 a4 a5 h c = command s [a1; a2; a3; a4; a5] h c /\
  command6 s a1 a2 a3 a4 a5 a6 h c = command s [a1; a2; a3; a4; a5; a6] h c /\
  command7 s a1 a2 a3 a4 a5 a6 a7 h c = command s [a1; a2; a3; a4; a5; a6; a7] h c.
Proof. by split_and!. Qed.

#[export] Instance ample : Reserve := {| reserve_bytes _ := None; reserve_values _ := None |}.

(** Two commands, of which the first is being written, and a subscription. *)
Definition demo_client1 : RedisClientImpl nat nat :=
  from_ok new_client (handleAsyncConnect true (fun _ => command (lit "GET") [lit "a"] 1%nat) new_client).
Definition demo_client2 : RedisClientImpl nat nat :=
  from_ok new_client (command (lit "GET") [lit "b"] 2%nat demo_client1).
Definition demo_client3 : RedisClientImpl nat nat :=
  default new_client (c ← run_post demo_client2; run_post c).
Definition demo_client : RedisClientImpl nat nat :=
  from_ok new_client ('(_, c) ← subscribe (lit "news") 7%nat 3%nat demo_client3; Ok c).

Definition demo_issued : list (bytes * nat) :=
  [(makeCommand [lit "GET"; lit "a"], 1%nat); (makeCommand [lit "GET"; lit "b"], 2%nat);
   (makeCommand [lit "SUBSCRIBE"; lit "news"], 3%nat)].

Lemma demo_client_run : client_run 0%nat demo_issued demo_client.
Proof.
  apply (run_subscribe 0%nat (take 2 demo_issued) demo_client3 (lit "news") 7%nat 3%nat
    (mkHandle 0 (lit "news"))); [|done|done].
  apply (run_posted 0%nat _ (default new_client (run_post demo_client2))); [|done].
  apply (run_posted 0%nat _ demo_client2); [|done].
  apply (run_command 0%nat (take 1 demo_issued) demo_client1 (lit "GET") [lit "b"] 2%nat);
    [|done|done].
  apply (run_connect_command 0%nat [] new_client (lit "GET") [lit "a"] 1%nat); [|done].
  apply run_new.
Qed.

