(* ===== verification/RedisReplies.v ===== *)
(** * Replies on the wire

    The replies of the redis protocol ([Reply]: status lines, errors, integers,
    bulk strings, arrays, and the two null forms), how a server writes them
    ([encode]), the value the client makes of each ([value_of]), and that the
    reply parser computes just that, wherever the network cuts the stream.  A
    command, as the client writes it, is itself an array of bulk strings. *)
From S2P Require Import Prelude Util RedisValue RedisParser RedisParserFacts RedisClient RedisAsync.

(** ** Writing a reply *)

Inductive Reply :=
| RStatus (b : bytes)
| RError (b : bytes)
| RInt (i : Z)
| RBulk (b : bytes)
| RNull
| RNullArray
| RArray (a : list Reply).

Lemma Reply_nested_ind (P : Reply -> Prop) :
  (forall b, P (RStatus b)) -> (forall b, P (RError b)) -> (forall i, P (RInt i)) ->
  (forall b, P (RBulk b)) -> P RNull -> P RNullArray ->
  (forall a, Forall P a -> P (RArray a)) -> forall r, P r.
Proof.
  intros HS HE HI HB HN HM HA. fix IH 1.
  intros [b|b|i|b| | |a]; [apply HS|apply HE|apply HI|apply HB|exact HN|exact HM|].
  apply HA. induction a as [|r a IHa]; constructor; [apply IH|exact IHa].
Qed.

Fixpoint encode (r : Reply) : bytes :=
  match r with
  | RStatus b => stringReply :: b ++ crlf
  | RError b => errorReply :: b ++ crlf
  | RInt i => integerReply :: to_string i ++ crlf
  | RBulk b => bulkReply :: to_string (Z.of_nat (length b)) ++ crlf ++ b ++ crlf
  | RNull => bulkReply :: lit "-1" ++ crlf
  | RNullArray => arrayReply :: lit "-1" ++ crlf
  | RArray a => arrayReply :: to_string (Z.of_nat (length a)) ++ crlf ++ concat (map encode a)
  end.

(** What the client hands to a handler: a status and a bulk string are both
    strings, and the null array is an empty one. *)
Fixpoint value_of (r : Reply) : RedisValue :=
  match r with
  | RStatus b | RBulk b => Bytes b false
  | RError b => Bytes b true
  | RInt i => Int i
  | RNull => Null
  | RNullArray => Array []
  | RArray a => Array (map value_of a)
  end.

Definition text_char (c : byte) : bool := isChar c && negb (isControl c).
Definition fits64 (z : Z) : Prop := - 2 ^ 63 ≤ z < 2 ^ 63.

Section encoding.
Context `{Reserve}.

(** A reply that a server can send and for which there is memory: integers and
    lengths of 64 bits, status and error lines of ASCII. *)
Fixpoint encodable (r : Reply) : Prop :=
  match r with
  | RStatus b | RError b => Forall (fun c => text_char c = true) b
  | RInt i => fits64 i
  | RBulk b =>
      fits64 (Z.of_nat (length b)) /\ (b <> [] -> reserve_bytes (Z.of_nat (length b)) = None)
  | RNull | RNullArray => True
  | RArray a =>
      fits64 (Z.of_nat (length a)) /\ (a <> [] -> reserve_values (Z.of_nat (length a)) = None) /\
      foldr (fun r P => encodable r /\ P) True a
  end.

Lemma encodable_all a : foldr (fun r P => encodable r /\ P) True a <-> Forall encodable a.
Proof. induction a as [|r a IH]; simpl; [done|]. by rewrite Forall_cons, IH. Qed.

(** ** Numbers *)

Lemma is_digit_num c : is_digit c = true -> isNumChar c = true /\ c <> CR /\ c <> minus.
Proof.
  intros E. unfold isNumChar. rewrite E.
  split_and!; [done|intros ->; discriminate E..].
Qed.

Lemma leading_digits_all ds :
  Forall (fun c => is_digit c = true) ds -> leading_digits ds = ds.
Proof. induction 1 as [|c ds Hc _ IH]; simpl; [done|]. by rewrite Hc, IH. Qed.

Lemma to_string_spec z :
  Forall (fun c => isNumChar c = true /\ c <> CR) (to_string z) /\ to_string z <> [] /\
  (fits64 z -> strtol (to_string z) = z).
Proof.
  unfold to_string, fits64. destruct (Z.ltb_spec z 0) as [Hz|Hz].
  - destruct (dec_nonneg_spec (- z)) as (Hv & Hd & _); [lia|]. split; [|split; [done|]].
    + constructor; [done|]. eapply Forall_impl; [exact Hd|]. intros c Hc.
      by destruct (is_digit_num c Hc) as (? & ? & _).
    + intros Hf. simpl. rewrite leading_digits_all, Hv by done. unfold clamp64. lia.
  - destruct (dec_nonneg_spec z) as (Hv & Hd & Hn); [lia|]. split; [|split; [done|]].
    + eapply Forall_impl; [exact Hd|]. intros c Hc.
      by destruct (is_digit_num c Hc) as (? & ? & _).
    + intros Hf. revert Hv Hd Hn. destruct (dec_nonneg z) as [|c ds]; [done|]. intros Hv Hd _.
      pose proof Hd as [Hc _]%Forall_cons. destruct (is_digit_num c Hc) as (_ & _ & ?).
      unfold strtol. rewrite decide_False, leading_digits_all, Hv by done. unfold clamp64. lia.
Qed.

(** ** Reading back *)

Lemma feed_number_chars k b ds fs w :
  Forall (fun c => isNumChar c = true /\ c <> CR) ds ->
  feed (LNum k b) fs (ds ++ w) = shift (length ds) (feed (LNum k (b ++ ds)) fs w).
Proof.
  intros Hd. revert b. induction Hd as [|c ds [Hc Hr] _ IH]; intros b.
  { by rewrite app_nil_r, shift_0. }
  simpl app. rewrite feed_cons. unfold feed_byte. simpl.
  rewrite decide_False, Hc by done. simpl. by rewrite IH, shift_shift, <-app_assoc.
Qed.

Lemma feed_text_chars e b ds fs w :
  Forall (fun c => text_char c = true) ds ->
  feed (LText e b) fs (ds ++ w) = shift (length ds) (feed (LText e (b ++ ds)) fs w).
Proof.
  intros Hd. revert b. induction Hd as [|c ds Hc _ IH]; intros b.
  { by rewrite app_nil_r, shift_0. }
  simpl app. rewrite feed_cons. unfold feed_byte. simpl.
  rewrite decide_False by (by intros ->). unfold text_char in Hc. rewrite Hc. simpl.
  by rewrite IH, shift_shift, <-app_assoc.
Qed.

(** A tag, a number and the line end. *)
Lemma feed_number tag k z fs w :
  lex_byte LStart tag = More (LNum k []) -> fits64 z ->
  feed LStart fs (tag :: to_string z ++ crlf ++ w) =
  resume (length (tag :: to_string z ++ crlf)) (after_lex (lex_number k z) fs) w.
Proof.
  intros Ht Hz. destruct (to_string_spec z) as (Hc & Hn & Hs). rewrite feed_cons.
  unfold feed_byte. rewrite Ht. simpl. rewrite feed_number_chars by done. simpl app.
  rewrite feed_cons. unfold feed_byte at 1. simpl lex_byte. rewrite decide_False by done.
  simpl after_lex. unfold resume at 1. rewrite feed_cons. unfold feed_byte. simpl.
  rewrite Hs by done. rewrite !shift_resume. f_equal. rewrite length_app. simpl. lia.
Qed.

Definition reads_back (r : Reply) : Prop := forall fs w,
  feed LStart fs (encode r ++ w) = resume (length (encode r)) (deliver (value_of r) fs) w.

Lemma deliver_last v vs fs : deliver v ((1, vs) :: fs) = deliver (Array (vs ++ [v])) fs.
Proof. done. Qed.

Lemma deliver_more n v vs fs :
  1 < n -> deliver v ((n, vs) :: fs) = Running LStart ((n - 1, vs ++ [v]) :: fs).
Proof. intros Hn. cbn [deliver]. by rewrite (proj2 (Z.eqb_neq n 1)) by lia. Qed.

(** The elements of an array, [todo] of which are missing. *)
Lemma feed_elements todo : forall done fs w,
  Forall reads_back todo -> todo <> [] ->
  feed LStart ((Z.of_nat (length todo), done) :: fs) (concat (map encode todo) ++ w) =
  resume (length (concat (map encode todo))) (deliver (Array (done ++ map value_of todo)) fs) w.
Proof.
  induction todo as [|r todo IH]; intros dn fs w HF Hne; [done|].
  apply Forall_cons in HF as [Hr HF]. simpl map. simpl concat. rewrite <-app_assoc, Hr.
  rewrite length_app. destruct (decide (todo = [])) as [->|Hn].
  - rewrite deliver_last. simpl. by rewrite Nat.add_0_r.
  - rewrite deliver_more by (destruct todo; [done|simpl; lia]).
    replace (Z.of_nat (length (r :: todo)) - 1) with (Z.of_nat (length todo)) by (simpl; lia).
    unfold resume at 1. rewrite IH, shift_resume by done. by rewrite <-app_assoc.
Qed.

Lemma feed_bulk_end b fs w :
  feed (LBulkCR b) fs (crlf ++ w) = resume 2 (deliver (Bytes b false) fs) w.
Proof.
  cbn [app feed crlf]. unfold feed_byte. cbn.
  rewrite decide_True by done. cbn. rewrite decide_True by done. cbn.
  by destruct (deliver (Bytes b false) fs).
Qed.

Lemma feed_text_end e b fs w :
  feed (LText e b) fs (crlf ++ w) = resume 2 (deliver (Bytes b e) fs) w.
Proof.
  cbn [app feed crlf]. unfold feed_byte. cbn.
  rewrite decide_True by done. cbn. rewrite decide_True by done. cbn.
  by destruct (deliver (Bytes b e) fs).
Qed.

Lemma encode_bulk b fs w :
  encodable (RBulk b) ->
  feed LStart fs (encode (RBulk b) ++ w) =
  resume (length (encode (RBulk b))) (deliver (Bytes b false) fs) w.
Proof.
  intros [Hl Hr]. cbn [encode]. set (k := Z.of_nat (length b)) in *.
  rewrite <-app_comm_cons, <-!app_assoc, (feed_number bulkReply NBulk) by done.
  assert (after_lex (lex_number NBulk k) fs =
          Running (if decide (b = []) then LBulkCR [] else LBulk k []) fs) as ->.
  { destruct (decide (b = [])) as [->|Hn]; [done|]. unfold lex_number.
    assert (0 < k) by (destruct b; [done|unfold k; simpl; lia]).
    rewrite (proj2 (Z.eqb_neq k (-1))), (proj2 (Z.eqb_neq k 0)), (proj2 (Z.ltb_ge k 0)) by lia.
    by rewrite Hr. }
  cbn [resume]. destruct (decide (b = [])) as [->|Hn].
  - by rewrite app_nil_l, feed_bulk_end, shift_resume.
  - rewrite feed_bulk by (destruct b; [done|unfold k; simpl; lia]).
    rewrite (proj2 (Z.ltb_ge _ _)) by (unfold k; len).
    unfold k. rewrite Nat2Z.id, take_app_length, drop_app_length, feed_bulk_end, !shift_resume.
    f_equal. len.
Qed.

Lemma encode_array a fs w :
  encodable (RArray a) -> Forall reads_back a ->
  feed LStart fs (encode (RArray a) ++ w) =
  resume (length (encode (RArray a))) (deliver (Array (map value_of a)) fs) w.
Proof.
  intros (Hl & Hr & _) Ha. cbn [encode]. set (k := Z.of_nat (length a)) in *.
  rewrite <-app_comm_cons, <-!app_assoc, (feed_number arrayReply NArray) by done.
  destruct (decide (a = [])) as [->|Hn]; [done|]. unfold lex_number.
  assert (0 < k) by (destruct a; [done|unfold k; simpl; lia]).
  rewrite (proj2 (Z.eqb_neq k (-1))), (proj2 (Z.eqb_neq k 0)), (proj2 (Z.ltb_ge k 0)) by lia.
  rewrite Hr by done. simpl orb. cbn [after_lex resume]. unfold k.
  rewrite feed_elements, shift_resume by done. f_equal. len.
Qed.

(** A status or error line. *)
Lemma encode_text tag e b fs w :
  feed_byte LStart fs tag = Running (LText e []) fs -> Forall (fun c => text_char c = true) b ->
  feed LStart fs ((tag :: b ++ crlf) ++ w) =
  resume (length (tag :: b ++ crlf)) (deliver (Bytes b e) fs) w.
Proof.
  intros Ht Hb. rewrite <-app_comm_cons, <-app_assoc, feed_cons, Ht. cbn [resume].
  rewrite feed_text_chars by done. rewrite app_nil_l, feed_text_end, !shift_resume.
  f_equal. len.
Qed.

(** Every encodable reply is read back, whatever arrays it stands in and
    whatever follows it. *)
Lemma encode_reads_back r : encodable r -> reads_back r.
Proof.
  induction r as [b|b|i|b| | |a IH] using Reply_nested_ind; intros He fs w.
  - by apply encode_text.
  - by apply encode_text.
  - simpl. rewrite <-app_assoc. exact (feed_number integerReply NInt i fs w eq_refl He).
  - by apply encode_bulk.
  - exact (feed_number bulkReply NBulk (-1) fs w eq_refl ltac:(split; lia)).
  - exact (feed_number arrayReply NArray (-1) fs w eq_refl ltac:(split; lia)).
  - apply encode_array; [done|]. destruct He as (_ & _ & Ha). apply encodable_all in Ha.
    rewrite Forall_forall in *. auto.
Qed.
End encoding.

(** ** The client reads a stream of replies *)

Section stream.
Context {H MH : Type} `{Reserve}.
Abbreviation client := (RedisClientImpl H MH).
Implicit Types (c : client).

(** Feeding [w] from [l] and [fs] yields the values [vs] one after the other and
    ends in [l'] and [fs']. *)
Inductive stream : lex -> frames -> bytes -> list RedisValue -> lex -> frames -> Prop :=
| stream_end l fs w k l' fs' : feed l fs w = (k, Running l' fs') -> stream l fs w [] l' fs'
| stream_value l fs w k v vs l' fs' :
    feed l fs w = (k, Done v) -> stream LStart [] (drop k w) vs l' fs' ->
    stream l fs w (v :: vs) l' fs'.

Lemma stream_encode rs :
  Forall encodable rs -> stream LStart [] (concat (map encode rs)) (map value_of rs) LStart [].
Proof.
  induction 1 as [|r rs Hv _ IH]; [by eapply stream_end|]. simpl.
  eapply stream_value; [by rewrite encode_reads_back|]. by rewrite drop_app_length.
Qed.

Lemma stream_cut a b l fs vs l' fs' :
  stream l fs (a ++ b) vs l' fs' ->
  exists vs1 vs2 lm fsm, vs = vs1 ++ vs2 /\ stream l fs a vs1 lm fsm /\ stream lm fsm b vs2 l' fs'.
Proof.
  remember (a ++ b) as w eqn:Ew. intros Hs. revert a Ew.
  induction Hs as [l fs w k l' fs' E|l fs w k v vs l' fs' E Hs IH]; intros a ->;
    rewrite feed_cut in E; destruct (feed l fs a) as [ka ra] eqn:Ea.
  - destruct ra as [lm fsm|?| |?]; try done. destruct (feed lm fsm b) as [kb rb] eqn:Eb.
    injection E as _ ->. exists [], [], lm, fsm. split_and!; [done|by eapply stream_end..].
  - destruct ra as [lm fsm|v'| |?]; try done.
    + destruct (feed lm fsm b) as [kb rb] eqn:Eb. injection E as <- ->.
      pose proof (feed_Running_all _ _ _ _ _ _ Ea) as ->.
      exists [], (v :: vs), lm, fsm. split_and!; [done|by eapply stream_end|].
      eapply stream_value; [exact Eb|]. rewrite drop_app_add in Hs. exact Hs.
    + injection E as -> ->. pose proof (feed_Done_pos _ _ _ _ _ Ea) as Hk.
      destruct (IH (drop k a)) as (vs1 & vs2 & lm & fsm & -> & S1 & S2).
      { by rewrite drop_app_le by lia. }
      exists (v :: vs1), vs2, lm, fsm. split_and!; [done|by eapply stream_value|done].
Qed.

(** ** Handing out replies *)

Fixpoint process_all (vs : list RedisValue) c : outcome client :=
  match vs with
  | [] => Ok c
  | v :: vs => c ← doProcessMessage v c; process_all vs c
  end.

Lemma process_all_app vs1 vs2 c :
  process_all (vs1 ++ vs2) c = (c ← process_all vs1 c; process_all vs2 c).
Proof.
  revert c. induction vs1 as [|v vs1 IH]; intros c; simpl; [done|].
  destruct (doProcessMessage v c); simpl; auto.
Qed.

(** Handing out a reply neither uses nor changes the reading side. *)
Lemma report_read s p n c : report s (set_read p n c) = (c ← report s c; Ok (set_read p n c)).
Proof. unfold report. simpl. by destruct (errorHandler c s). Qed.

Lemma process_read v p n c :
  doProcessMessage v (set_read p n c) = (c ← doProcessMessage v c; Ok (set_read p n c)).
Proof.
  unfold doProcessMessage, process_subscribed, on_message. simpl.
  repeat case_match; simpl; rewrite ?report_read; done.
Qed.

Lemma process_all_read vs p n c :
  process_all vs (set_read p n c) = (c ← process_all vs c; Ok (set_read p n c)).
Proof.
  revert c. induction vs as [|v vs IH]; intros c; simpl; [done|].
  rewrite process_read. destruct (doProcessMessage v c); simpl; auto.
Qed.

(** A read of bytes that make up the replies [vs]: they are handed out, and if
    all goes well the client waits for more in state [l'], [fs']. *)
Lemma read_loop_stream fuel : forall w c l fs vs l' fs',
  stream l fs w vs l' fs' -> represents (redisParser c) l fs -> (length w ≤ fuel)%nat ->
  exists p, read_loop fuel w c = Some (c1 ← process_all vs c; Ok (set_read p (S (reads c)) c1)) /\
    (is_Ok (process_all vs c) = true -> represents p l' fs').
Proof.
  induction fuel as [|fuel IH]; intros [|b w] c l fs vs l' fs' Hs Hr Hl; simpl in Hl; [|lia| |].
  1, 2: inversion Hs as [? ? ? ? ? ? E|? ? ? ? ? ? ? ? E]; subst; simpl in E; [|done];
    injection E as <- <- <-; exists (redisParser c); done.
  cbn [read_loop]. pose proof (parse_agrees (b :: w) _ _ _ Hr) as Ha. unfold agrees in Ha.
  inversion Hs as [? ? ? k ? ? E|? ? ? k v vs0 ? ? E Hs']; subst; rewrite E in Ha;
    destruct (parse (b :: w) (redisParser c)) as [[o p]|]; try done; destruct Ha as [-> Hp].
  - exists p. done.
  - destruct Hp as (Hs1 & Hs2 & Hs3). simpl Nat.add. unfold result. rewrite Hs3. simpl.
    rewrite process_read. pose proof (feed_Done_pos _ _ _ _ _ E) as Hk. simpl in Hk.
    destruct (doProcessMessage v c) as [c1|e|u]; simpl; [|by exists p..].
    destruct (IH (drop k (b :: w)) (set_read (set_stacks (arrayStack p) [] p) (reads c) c1)
      LStart [] vs0 l' fs') as (p' & E' & Hr'); [done| |rewrite length_drop; simpl; lia|].
    + split; simpl; [by unfold lex_of; simpl; rewrite Hs1|done|by rewrite Hs2|done|done].
    + rewrite process_all_read in E', Hr'. exists p'. rewrite E'. split; [by destruct (process_all vs0 c1)|].
      intros Hok. apply Hr'. by destruct (process_all vs0 c1).
Qed.

(** The reads complete one after the other, with these bytes. *)
Fixpoint read_chunks (chunks : list bytes) c : option (outcome client) :=
  match chunks with
  | [] => Some (Ok c)
  | w :: chunks =>
      match asyncRead false [] w c with
      | Some (Ok c) => read_chunks chunks c
      | o => o
      end
  end.

Lemma read_chunks_stream chunks : forall c l fs vs l' fs',
  stream l fs (concat chunks) vs l' fs' -> represents (redisParser c) l fs ->
  Forall (fun w => w <> []) chunks -> reads c = 1%nat ->
  exists p, read_chunks chunks c = Some (c1 ← process_all vs c; Ok (set_read p 1 c1)) /\
    (is_Ok (process_all vs c) = true -> represents p l' fs').
Proof.
  induction chunks as [|w chunks IH]; intros c l fs vs l' fs' Hs Hr Hne H1.
  - simpl in Hs. inversion Hs as [? ? ? ? ? ? E|? ? ? ? ? ? ? ? E]; subst; simpl in E; [|done].
    injection E as <- <- <-. exists (redisParser c). split; [|done]. simpl. rewrite <-H1.
    by destruct c.
  - apply Forall_cons in Hne as [Hw Hne]. simpl in Hs.
    apply stream_cut in Hs as (vs1 & vs2 & lm & fsm & -> & S1 & S2).
    simpl. unfold asyncRead. rewrite H1. simpl. rewrite bool_decide_eq_false_2 by done.
    destruct (read_loop_stream (length w) w (set_read (redisParser c) 0 c) l fs vs1 lm fsm)
      as (p1 & -> & Hr1); [done|done|done|]. simpl.
    rewrite process_all_read in *. rewrite process_all_app.
    destruct (process_all vs1 c) as [c1|e|u]; simpl in *; [|by exists new_parser..].
    destruct (IH (set_read p1 1 c1) lm fsm vs2 l' fs') as (p & E & Hp); try done; [by apply Hr1|].
    rewrite process_all_read in E, Hp. exists p.
    change (set_read p1 1 (set_read _ 0 c1)) with (set_read p1 1 c1). rewrite E.
    split; [by destruct (process_all vs2 c1)|]. intros Hok. apply Hp. by destruct (process_all vs2 c1).
Qed.

(** Outside subscribe mode the replies go to the waiting handlers. *)
Lemma process_replies vs c :
  state c <> Subscribed -> (length vs ≤ length (handlers c))%nat ->
  exists c', process_all vs c = Ok c' /\ calls c' = calls c ++ zip (handlers c) vs /\
    handlers c' = drop (length vs) (handlers c).
Proof.
  revert c. induction vs as [|v vs IH]; intros c Hs Hh; simpl.
  { exists c. by rewrite zip_with_nil_r, app_nil_r. }
  unfold doProcessMessage. rewrite decide_False by done. simpl in Hh.
  destruct (handlers c) as [|h hs] eqn:Eh; [simpl in Hh; lia|].
  destruct (IH (call_front h hs v c)) as (c' & E & Ec & Eh'); [done|simpl in *; lia|].
  exists c'. simpl. split_and!; [exact E| |exact Eh'].
  rewrite Ec. simpl. by rewrite <-app_assoc.
Qed.
End stream.

(** ** Properties *)

(** A command is written like the array of its items. *)
Lemma encode_command items : makeCommand items = encode (RArray (map RBulk items)).
Proof.
  assert (forall n : nat, to_string (Z.of_nat n) = dec_nonneg (Z.of_nat n)) as Hn.
  { intros n. unfold to_string. by rewrite (proj2 (Z.ltb_ge _ _)) by lia. }
  cbn [encode]. unfold makeCommand. rewrite length_map, Hn. cbn [app]. do 3 f_equal.
  induction items as [|b items IH]; [done|]. cbn [map fmap list_fmap concat encode].
  unfold makeItem at 1. rewrite Hn. cbn [app]. by rewrite <-IH.
Qed.

(** C23. Replies reach their handlers.  The server sends any number of replies:
    status and error lines of ASCII, 64-bit integers, bulk strings, null, null
    arrays, and arrays of replies to any depth, for which the client has memory.
    The client is not in subscribe mode, has a read outstanding, an idle parser
    and a handler waiting for each reply.  Then, wherever the network cuts the
    stream into non-empty reads, each handler is called with the value of its
    reply, in order, the other handlers go on waiting, the parser is idle again
    and exactly one read is outstanding. *)
Theorem replies_reach_handlers {H MH} `{Reserve} (c : RedisClientImpl H MH) rs chunks :
  Forall encodable rs -> concat chunks = concat (map encode rs) ->
  Forall (fun w => w <> []) chunks -> state c <> Subscribed ->
  (length rs ≤ length (handlers c))%nat -> reads c = 1%nat -> represents (redisParser c) LStart [] ->
  exists c', read_chunks chunks c = Some (Ok c') /\ reads c' = 1%nat /\
    calls c' = calls c ++ zip (handlers c) (map value_of rs) /\
    handlers c' = drop (length rs) (handlers c) /\
    represents (redisParser c') LStart [].
Proof.
  intros He Hc Hne Hs Hh Hr Hp.
  destruct (read_chunks_stream chunks c LStart [] (map value_of rs) LStart []) as (p & -> & Hp'); try done.
  { rewrite Hc. by apply stream_encode. }
  destruct (process_replies (map value_of rs) c) as (c' & E & Ec & Eh); [done|by rewrite length_map|].
  rewrite length_map in Eh. rewrite E in *.
  exists (set_read p 1 c'). split_and!; try done. by apply Hp'.
Qed.

(** A command as [makeCommand] writes it is read back by the parser, which
    takes exactly its bytes, as the array of its items. *)
Theorem command_roundtrip `{Reserve} items p w :
  encodable (RArray (map RBulk items)) -> represents p LStart [] ->
  exists p', parse (makeCommand items ++ w) p =
      Some (Ok (length (makeCommand items), Completed), p') /\
    result p' = (Array (map (fun b => Bytes b false) items), set_stacks [] [] p').
Proof.
  intros He Hr. pose proof (parse_agrees (makeCommand items ++ w) p _ _ Hr) as Ha.
  rewrite encode_command in Ha |- *. rewrite encode_reads_back in Ha by done. unfold agrees in Ha.
  destruct (parse _ _) as [[o p']|]; [|done]. destruct Ha as [-> (_ & Ha & Hv)].
  exists p'. split; [done|]. unfold result. rewrite Hv, Ha. simpl. by rewrite map_map.
Qed.

(** ** Witnesses *)

Definition demo_replies : list Reply :=
  [RStatus (lit "OK"); RArray [RInt (-12); RArray []; RBulk (lit "abc"); RNullArray]; RNull;
   RError (lit "ERR no")].

(** The stream of these replies in reads of three bytes. *)
Fixpoint cut3 (fuel : nat) (l : bytes) : list bytes :=
  match fuel, l with
  | S fuel, _ :: _ => take 3 l :: cut3 fuel (drop 3 l)
  | _, _ => []
  end.

Definition demo_chunks : list bytes := cut3 100 (concat (map encode demo_replies)).

Definition demo_waiting : RedisClientImpl nat nat :=
  set_handlers [1; 2; 3; 4; 5]%nat (set_read new_parser 1 new_client).

Lemma replies_reach_handlers_witness :
  length demo_chunks = 16%nat /\
  exists c', read_chunks demo_chunks demo_waiting = Some (Ok c') /\
    calls c' = zip [1; 2; 3; 4]%nat (map value_of demo_replies) /\ handlers c' = [5%nat].
Proof.
  split; [by vm_compute|].
  destruct (replies_reach_handlers demo_waiting demo_replies demo_chunks)
    as (c' & E & _ & Ec & Eh & _).
  - repeat constructor; done.
  - by vm_compute.
  - unfold demo_chunks. vm_compute. repeat constructor; done.
  - done.
  - simpl. lia.
  - done.
  - by split.
  - exists c'. split_and!; [exact E|exact Ec|exact Eh].
Defined.

Lemma command_roundtrip_witness :
  exists p', parse (makeCommand [lit "GET"; lit "key"] ++ lit "+OK") new_parser =
      Some (Ok (22%nat, Completed), p') /\
    result p' = (Array [Bytes (lit "GET") false; Bytes (lit "key") false], set_stacks [] [] p').
Proof.
  apply (command_roundtrip [lit "GET"; lit "key"] new_parser (lit "+OK")).
  - repeat split; done.
  - by split.
Defined.
