(* ===== verification/RedisPubSub.v ===== *)
(** * Subscribe mode of the redis client

    What a subscriber receives over any run in subscribe mode, and what
    subscribing does to commands that are still waiting for their replies. *)
From S2P Require Import Prelude Util RedisValue RedisParser RedisParserFacts RedisClient RedisAsync RedisReplies.

(** ** Runs in subscribe mode *)

Section pubsub.
Context {H MH : Type} `{EqDecision MH} (dummyHandler : H).
Abbreviation client := (RedisClientImpl H MH).
Implicit Types (c : client).

(** What can happen to a connected client, short of a disconnect. *)
Inductive client_event :=
| CeCommand (cmd : bytes) (args : list bytes) (h : H)
| CePublish (ch msg : bytes) (h : H)
| CeSubscribe (ch : bytes) (mh : MH) (h : H)
| CeSingleShot (ch : bytes) (mh : MH) (h : H)
| CeUnsubscribe (hd : Handle)
| CePost (* the strand runs a posted call *)
| CeWritten (ec : option bytes)
| CeReply (v : RedisValue). (* a reply is complete *)

Definition client_step (e : client_event) c : option (outcome client) :=
  match e with
  | CeCommand cmd args h => Some (command cmd args h c)
  | CePublish ch msg h => Some (publish ch msg h c)
  | CeSubscribe ch mh h => Some ('(_, c) ← subscribe ch mh h c; Ok c)
  | CeSingleShot ch mh h => Some (singleShotSubscribe ch mh h c)
  | CeUnsubscribe hd => Some (unsubscribe dummyHandler hd c)
  | CePost => Ok <$> run_post c
  | CeWritten ec => asyncWrite ec c
  | CeReply v => Some (doProcessMessage v c)
  end.

Inductive client_steps : list client_event -> client -> client -> Prop :=
| cs_nil c : client_steps [] c c
| cs_cons e es c c1 c2 :
    client_step e c = Some (Ok c1) -> client_steps es c1 c2 -> client_steps (e :: es) c c2.

(** The payload of a reply that publishes a message on [ch]. *)
Definition published (ch : bytes) (v : RedisValue) : option bytes :=
  match toArray v with
  | [command; queueName; value] =>
      if decide (toString command = lit "message" /\ toString queueName = ch)
      then Some (toByteArray value) else None
  | _ => None
  end.

Definition messages_on (ch : bytes) (es : list client_event) : list bytes :=
  omap (fun e => match e with CeReply v => published ch v | _ => None end) es.

(** What the message handler [mh] was, or will be, called with: what has been
    delivered, and what is posted. *)
Definition message_for (mh : MH) (p : posted H MH) : option bytes :=
  match p with PostMessage h msg => if decide (h = mh) then Some msg else None | _ => None end.
Definition delivery_for (mh : MH) (d : MH * bytes) : option bytes :=
  if decide (d.1 = mh) then Some d.2 else None.
Definition received (mh : MH) c : list bytes :=
  omap (delivery_for mh) (delivered c) ++ omap (message_for mh) (strand_posts c).

(** [mh] occurs in the subscriptions once, as [hd], and not as a single-shot handler. *)
Record subscribed_once (mh : MH) (hd : Handle) c : Prop := {
  so_one : filter (fun e => e.2.2 = mh) (msgHandlers c) = [(h_channel hd, (h_id hd, mh))];
  so_single : Forall (fun e => e.2 <> mh) (singleShotMsgHandlers c)
}.

(** [mh] is the next single-shot handler of [ch], and is used nowhere else. *)
Record single_once (mh : MH) (ch : bytes) c : Prop := {
  sg_none : Forall (fun e => e.2.2 <> mh) (msgHandlers c);
  sg_one : filter (fun e => e.2 = mh) (singleShotMsgHandlers c) = [(ch, mh)];
  sg_first : fst <$> take_first ch (singleShotMsgHandlers c) = Some mh
}.

(** [mh] is in no subscription. *)
Definition not_subscribed (mh : MH) c : Prop :=
  Forall (fun e => e.2.2 <> mh) (msgHandlers c) /\ Forall (fun e => e.2 <> mh) (singleShotMsgHandlers c).

(** The event neither ends the subscription [hd] nor starts another for [mh]. *)
Definition keeps (mh : MH) (hd : Handle) (e : client_event) : Prop :=
  match e with
  | CeUnsubscribe hd' => hd' <> hd
  | CeSubscribe _ mh' _ | CeSingleShot _ mh' _ => mh' <> mh
  | _ => True
  end.

(** ** Lemmas *)

Lemma received_post mh c p :
  received mh (post p c) = received mh c ++ option_list (message_for mh p).
Proof.
  unfold received. simpl. by rewrite omap_app, app_assoc.
Qed.

Lemma received_command mh items h c : received mh (post_command items h c) = received mh c.
Proof. unfold post_command. rewrite received_post. simpl. apply app_nil_r. Qed.

Lemma received_run_post mh c c' : run_post c = Some c' -> received mh c' = received mh c.
Proof.
  unfold run_post, received. destruct (strand_posts c) as [|[item|h msg] posts]; [done|..];
    intros [= <-]; simpl; [done|].
  rewrite omap_app, <-app_assoc. f_equal. simpl. unfold delivery_for. simpl. by case_decide.
Qed.

Lemma messages_for (mh : MH) (hs : list MH) msg :
  omap (message_for mh) ((fun h => PostMessage h msg) <$> hs) =
  replicate (length (filter (fun h => h = mh) hs)) msg.
Proof.
  induction hs as [|h hs IH]; [done|]. rewrite fmap_cons. cbn [omap list_omap message_for].
  rewrite filter_cons. case_decide; simpl; by rewrite <-IH.
Qed.

Lemma filter_map_comm {A B} (f : A -> B) (P : B -> Prop) `{forall x, Decision (P x)} (l : list A) :
  filter P (f <$> l) = f <$> filter (fun x => P (f x)) l.
Proof.
  induction l as [|x l IH]; [done|]. rewrite fmap_cons, !filter_cons, IH. by case_decide.
Qed.

Lemma filter_swap {A} (P Q : A -> Prop) `{forall x, Decision (P x), forall x, Decision (Q x)} (l : list A) :
  filter P (filter Q l) = filter Q (filter P l).
Proof. rewrite !list_filter_filter. apply list_filter_iff. naive_solver. Qed.

Lemma count_subscribers mh ch (l : list (bytes * (Z * MH))) :
  filter (fun h => h = mh) (subscribers ch l) =
  (fun e => e.2.2) <$> filter (fun e => e.1 = ch) (filter (fun e => e.2.2 = mh) l).
Proof. unfold subscribers. by rewrite filter_map_comm, filter_swap. Qed.

Lemma take_first_spec ch (l : list (bytes * MH)) h rest :
  take_first ch l = Some (h, rest) ->
  exists l1 l2, l = l1 ++ (ch, h) :: l2 /\ rest = l1 ++ l2.
Proof.
  revert h rest. induction l as [|[k h0] l IH]; intros h rest; [done|]. simpl.
  case_decide as Hk.
  - intros [= <- <-]. subst k. by exists [], l.
  - destruct (take_first ch l) as [[h1 l']|]; [|done]. simpl. intros [= <- <-].
    destruct (IH _ _ eq_refl) as (l1 & l2 & -> & ->). by exists ((k, h0) :: l1), l2.
Qed.

Lemma received_on_message mh ch msg c :
  received mh (on_message ch msg c) = received mh c ++
    (match take_first ch (singleShotMsgHandlers c) with
     | Some (h, _) => if decide (h = mh) then [msg] else []
     | None => []
     end) ++
    replicate (length (filter (fun h => h = mh) (subscribers ch (msgHandlers c)))) msg.
Proof.
  unfold on_message. destruct (take_first _ _) as [[h rest]|]; unfold received; simpl;
    rewrite !omap_app, messages_for, <-?app_assoc; [|done].
  do 2 f_equal. simpl. by case_decide.
Qed.

(** The event did not concern subscriptions and messages. *)
Record same_subs (mh : MH) c c' : Prop := {
  ss_state : state c' = state c;
  ss_multi : msgHandlers c' = msgHandlers c;
  ss_single : singleShotMsgHandlers c' = singleShotMsgHandlers c;
  ss_received : received mh c' = received mh c
}.

Lemma same_subs_refl mh c : same_subs mh c c.
Proof. by split. Qed.

Lemma same_subs_post mh items h c : same_subs mh c (post_command items h c).
Proof. split; try done. apply received_command. Qed.

Lemma same_subs_report mh s c c' : report s c = Ok c' -> same_subs mh c c'.
Proof. intros ->%report_Ok. apply same_subs_refl. Qed.

Lemma same_subs_call mh h hs v c : same_subs mh c (call_front h hs v c).
Proof. by split. Qed.

Lemma same_subs_run_post mh c c' : run_post c = Some c' -> same_subs mh c c'.
Proof.
  intros E. pose proof (received_run_post mh _ _ E) as R. unfold run_post in E.
  destruct (strand_posts c) as [|[|] ?]; [done|..]; injection E as <-; by split.
Qed.

Lemma same_subs_written mh ec c c' : asyncWrite ec c = Some (Ok c') -> same_subs mh c c'.
Proof.
  unfold asyncWrite. destruct (writes c) as [|w ws]; [done|]. destruct ec as [msg|].
  - intros [= E]. by apply (same_subs_report mh) in E as [].
  - destruct (queue c); [done|]. intros [= <-]. by split.
Qed.

Lemma same_subs_if_valid mh f c c' :
  (forall c, same_subs mh c (f c)) -> if_valid f c = Ok c' -> same_subs mh c c'.
Proof.
  intros Hf. unfold if_valid. case_decide; [intros [= <-]; apply Hf|apply same_subs_report].
Qed.

(** Events other than replies and subscriptions. *)
Definition plain (e : client_event) : Prop :=
  match e with
  | CeSubscribe _ _ _ | CeSingleShot _ _ _ | CeUnsubscribe _ | CeReply _ => False
  | _ => True
  end.

#[local] Instance plain_dec e : Decision (plain e).
Proof. destruct e; apply _. Defined.

Lemma plain_step mh e c c' : plain e -> client_step e c = Some (Ok c') -> same_subs mh c c'.
Proof.
  destruct e; simpl; try done; intros _.
  - intros [= E]. eapply same_subs_if_valid; [|exact E]. intros. apply same_subs_post.
  - intros [= E]. unfold publish in E. case_decide.
    + injection E as <-. apply same_subs_post.
    + by eapply same_subs_report.
  - destruct (run_post c) as [c1|] eqn:E; [|done]. intros [= <-]. by apply same_subs_run_post.
  - apply same_subs_written.
Qed.

(** What a reply does in subscribe mode. *)
Lemma reply_step mh v c c' :
  state c = Subscribed -> doProcessMessage v c = Ok c' ->
  (exists command queueName value, toArray v = [command; queueName; value] /\
     toString command = lit "message" /\
     c' = on_message (toString queueName) (toByteArray value) c) \/
  same_subs mh c c' /\ forall ch, published ch v = None.
Proof.
  intros Hs. unfold doProcessMessage. rewrite decide_True by done. unfold process_subscribed.
  assert (forall ch, match toArray v with
    | [command; _; _] => toString command <> lit "message" | _ => True end -> published ch v = None) as Hp.
  { intros ch. unfold published. destruct (toArray v) as [|a [|b [|d [|? ?]]]]; try done.
    intros Hne. rewrite decide_False; naive_solver. }
  destruct (toArray v) as [|command [|queueName [|value [|? ?]]]] eqn:Ea;
    try (intros E; right; split; [by eapply same_subs_report|]; intros; by apply Hp).
  destruct (decide (toString command = lit "message")) as [Hc|Hc].
  - intros [= <-]. left. by exists command, queueName, value.
  - intros E. right. split; [|intros; by apply Hp].
    repeat case_match; try (injection E as <-; apply same_subs_call); by eapply same_subs_report.
Qed.

Lemma published_message ch v command queueName value :
  toArray v = [command; queueName; value] -> toString command = lit "message" ->
  published ch v = if decide (toString queueName = ch) then Some (toByteArray value) else None.
Proof.
  intros Ea Hc. unfold published. rewrite Ea, Hc.
  destruct (decide (toString queueName = ch)) as [He|He].
  - by rewrite decide_True.
  - rewrite decide_False; [done|]. naive_solver.
Qed.

Lemma on_message_subs ch msg c :
  state (on_message ch msg c) = state c /\ msgHandlers (on_message ch msg c) = msgHandlers c /\
  singleShotMsgHandlers (on_message ch msg c) =
    match take_first ch (singleShotMsgHandlers c) with
    | Some (_, rest) => rest | None => singleShotMsgHandlers c end.
Proof. unfold on_message. by destruct (take_first _ _) as [[h rest]|]. Qed.

Lemma take_first_other (mh : MH) ch (l : list (bytes * MH)) h rest :
  Forall (fun e => e.2 <> mh) l -> take_first ch l = Some (h, rest) ->
  h <> mh /\ Forall (fun e => e.2 <> mh) rest.
Proof.
  intros Hf (l1 & l2 & -> & ->)%take_first_spec.
  apply Forall_app in Hf as [H1 [H2 H3]%Forall_cons]. split; [exact H2|by apply Forall_app].
Qed.

(** A message and a handler subscribed once. *)
Lemma once_message mh hd ch msg c :
  subscribed_once mh hd c ->
  received mh (on_message ch msg c) =
    received mh c ++ (if decide (ch = h_channel hd) then [msg] else []) /\
  subscribed_once mh hd (on_message ch msg c).
Proof.
  intros [So Ss]. destruct (on_message_subs ch msg c) as (_ & Em & Es).
  assert (match take_first ch (singleShotMsgHandlers c) with
          | Some (h, rest) => h <> mh /\ Forall (fun e => e.2 <> mh) rest | None => True end) as Ht.
  { destruct (take_first _ _) as [[h rest]|] eqn:Et; [|done]. by eapply take_first_other. }
  split.
  - rewrite received_on_message, count_subscribers, So, filter_cons. simpl. f_equal.
    destruct (take_first _ _) as [[h rest]|]; [rewrite decide_False by apply Ht|]; simpl;
      repeat case_decide; try done; congruence.
  - split; [by rewrite Em|]. rewrite Es. destruct (take_first _ _) as [[h rest]|]; [apply Ht|done].
Qed.

Lemma same_subs_once mh hd c c' :
  same_subs mh c c' -> subscribed_once mh hd c -> subscribed_once mh hd c'.
Proof. intros [_ E1 E2 _] [S1 S2]. split; by rewrite ?E1, ?E2. Qed.

Definition reply_payload (ch : bytes) (e : client_event) : list bytes :=
  match e with CeReply v => option_list (published ch v) | _ => [] end.

(** The event starts no subscription of [mh]. *)
Definition fresh_for (mh : MH) (e : client_event) : Prop :=
  match e with CeSubscribe _ mh' _ | CeSingleShot _ mh' _ => mh' <> mh | _ => True end.

(** Events other than replies: handlers other than [mh] may be added, and the
    handler of a handle removed. *)
Lemma other_step mh e c c' :
  match e with CeReply _ => False | _ => True end -> fresh_for mh e -> state c = Subscribed ->
  client_step e c = Some (Ok c') ->
  state c' = Subscribed /\ received mh c' = received mh c /\
  (exists l, singleShotMsgHandlers c' = singleShotMsgHandlers c ++ l /\ Forall (fun e => e.2 <> mh) l) /\
  ((exists l, msgHandlers c' = msgHandlers c ++ l /\ Forall (fun e => e.2.2 <> mh) l) \/
   exists hd, e = CeUnsubscribe hd /\ msgHandlers c' = without hd (msgHandlers c)).
Proof.
  intros Hr Hk Hs E. assert (can_subscribe c = true) as Hc by (unfold can_subscribe; by rewrite Hs).
  assert (forall A (P : A -> Prop) (l : list A), exists l', l = l ++ l' /\ Forall P l') as Hnil.
  { intros A P l. exists []. by rewrite app_nil_r. }
  destruct (decide (plain e)) as [Hp|Hp]; [|destruct e; simpl in Hp, Hr; try done; simpl in Hk, E].
  - destruct (plain_step mh e c c' Hp E) as [E1 E2 E3 E4]. rewrite E1, E2, E3, E4. eauto.
  - unfold subscribe in E. rewrite Hc in E. simpl in E. injection E as <-.
    split_and!; [done|by apply (received_command mh)|apply Hnil|].
    left. eexists. split; [done|]. by repeat constructor.
  - unfold singleShotSubscribe in E. rewrite Hc in E. injection E as <-.
    split_and!; [done|by apply (received_command mh)| |left; apply Hnil].
    eexists. split; [done|]. by repeat constructor.
  - unfold unsubscribe in E. rewrite Hc in E. injection E as <-.
    split_and!; [done|by rewrite received_command|apply Hnil|right; by exists hd].
Qed.

Lemma filter_none (mh : MH) {K} (f : K -> MH) (l : list K) :
  Forall (fun e => f e <> mh) l -> filter (fun e => f e = mh) l = [].
Proof.
  induction 1 as [|x l Hx _ IH]; [done|]. rewrite filter_cons, decide_False by done. exact IH.
Qed.

Lemma Forall_without (P : bytes * (Z * MH) -> Prop) hd l : Forall P l -> Forall P (without hd l).
Proof.
  rewrite !Forall_forall. intros Hf x Hx. unfold without in Hx.
  apply list_elem_of_filter in Hx as [_ Hx]. by apply Hf.
Qed.

Lemma once_step mh hd e c c' :
  subscribed_once mh hd c -> state c = Subscribed -> keeps mh hd e ->
  client_step e c = Some (Ok c') ->
  subscribed_once mh hd c' /\ state c' = Subscribed /\
  received mh c' = received mh c ++ reply_payload (h_channel hd) e.
Proof.
  intros Ho Hs Hk E. destruct (match e with CeReply v => Some v | _ => None end) as [v|] eqn:Ev.
  - destruct e; try done. injection Ev as ->. simpl in E. injection E as E.
    destruct (reply_step mh v c c' Hs E) as [(command & q & value & Ea & Em & ->)|[Hss Hn]].
    + destruct (once_message mh hd (toString q) (toByteArray value) c Ho) as [R1 R2].
      split_and!; [done|by rewrite (proj1 (on_message_subs _ _ _))|]. rewrite R1. simpl.
      rewrite (published_message _ _ _ _ _ Ea Em). by case_decide.
    + split_and!; [by eapply same_subs_once|by rewrite (ss_state _ _ _ Hss)|].
      simpl. rewrite Hn. simpl. rewrite app_nil_r. apply Hss.
  - destruct Ho as [So Ss].
    destruct (other_step mh e c c') as (E1 & E2 & (l & E3 & Hl) & E4); try done;
      [by destruct e|by destruct e|].
    split_and!; [split|done|rewrite E2; destruct e; simpl; by rewrite ?app_nil_r].
    + destruct E4 as [(l' & -> & Hl')|(hd' & -> & ->)].
      * by rewrite filter_app, So, (filter_none mh (fun e => e.2.2)).
      * unfold without. rewrite filter_swap, So, filter_cons. simpl in Hk |- *.
        rewrite decide_True; [done|]. intros [F1 F2]. apply Hk. destruct hd, hd'. simpl in *. congruence.
    + rewrite E3. by apply Forall_app.
Qed.

(** *** Single-shot handlers *)

Lemma take_first_app ch (l1 l2 : list (bytes * MH)) :
  take_first ch (l1 ++ l2) =
  match take_first ch l1 with
  | Some (h, r) => Some (h, r ++ l2)
  | None => '(h, r) ← take_first ch l2; Some (h, l1 ++ r)
  end.
Proof.
  induction l1 as [|[k h] l1 IH]; simpl; [by destruct (take_first ch l2) as [[? ?]|]|].
  case_decide; [done|]. rewrite IH. destruct (take_first ch l1) as [[h1 r1]|]; simpl; [done|].
  by destruct (take_first ch l2) as [[? ?]|].
Qed.

Lemma take_first_elsewhere ch ch' (l : list (bytes * MH)) h rest :
  ch' <> ch -> take_first ch' l = Some (h, rest) ->
  fst <$> take_first ch rest = fst <$> take_first ch l.
Proof.
  intros Hn (l1 & l2 & -> & ->)%take_first_spec. rewrite !take_first_app. simpl.
  rewrite decide_False by done. destruct (take_first ch l1) as [[? ?]|]; [done|].
  by destruct (take_first ch l2) as [[? ?]|].
Qed.

(** A message and a handler that is the next single-shot handler of [ch]. *)
Lemma single_message mh ch ch' msg c :
  single_once mh ch c ->
  (ch' = ch /\ received mh (on_message ch' msg c) = received mh c ++ [msg] /\
   not_subscribed mh (on_message ch' msg c)) \/
  (ch' <> ch /\ received mh (on_message ch' msg c) = received mh c /\
   single_once mh ch (on_message ch' msg c)).
Proof.
  intros [Sn So Sf]. destruct (on_message_subs ch' msg c) as (_ & Em & Es).
  assert (filter (fun h => h = mh) (subscribers ch' (msgHandlers c)) = []) as Hz.
  { by rewrite count_subscribers, (filter_none mh (fun e => e.2.2)). }
  destruct (decide (ch' = ch)) as [->|Hn]; [left|right]; (split; [done|]).
  - destruct (take_first ch (singleShotMsgHandlers c)) as [[h rest]|] eqn:Et; [|done].
    simpl in Sf. injection Sf as ->.
    rewrite received_on_message, Hz, Et, decide_True by done. simpl. split; [done|].
    split; [by rewrite Em|]. rewrite Es.
    apply take_first_spec in Et as (l1 & l2 & El & ->). rewrite El, filter_app, filter_cons in So.
    simpl in So. rewrite decide_True in So by done.
    assert (filter (fun e => e.2 = mh) (l1 ++ l2) = []) as Hf.
    { apply (f_equal length) in So. rewrite length_app in So. simpl in So.
      apply length_zero_iff_nil. rewrite filter_app, length_app. lia. }
    apply Forall_forall. intros x Hx Ex.
    assert (x ∈ filter (fun e => e.2 = mh) (l1 ++ l2)) as Hin by by apply list_elem_of_filter.
    rewrite Hf in Hin. by apply not_elem_of_nil in Hin.
  - rewrite received_on_message, Hz. simpl.
    destruct (take_first ch' (singleShotMsgHandlers c)) as [[h rest]|] eqn:Et.
    2:{ rewrite app_nil_r. split; [done|]. split; [by rewrite Em|by rewrite Es..]. }
    pose proof (take_first_elsewhere ch ch' _ _ _ Hn Et) as Hfirst.
    apply take_first_spec in Et as (l1 & l2 & El & ->).
    assert (h <> mh) as Hh.
    { intros ->. rewrite El, filter_app, filter_cons in So. simpl in So.
      rewrite decide_True in So by done. destruct (filter _ l1) as [|x [|? ?]]; simpl in So; congruence. }
    rewrite decide_False by done. rewrite app_nil_r. split; [done|]. split.
    + by rewrite Em.
    + rewrite Es, <-So, El, !filter_app, filter_cons. simpl. by rewrite decide_False.
    + by rewrite Es, Hfirst.
Qed.

Lemma unsubscribed_message mh ch msg c :
  not_subscribed mh c ->
  received mh (on_message ch msg c) = received mh c /\ not_subscribed mh (on_message ch msg c).
Proof.
  intros [Sn Ss]. destruct (on_message_subs ch msg c) as (_ & Em & Es).
  rewrite received_on_message, count_subscribers, (filter_none mh (fun e => e.2.2)) by done.
  unfold not_subscribed. rewrite Em, Es.
  destruct (take_first ch (singleShotMsgHandlers c)) as [[h rest]|] eqn:Et; simpl;
    rewrite app_nil_r; [|done].
  destruct (take_first_other mh _ _ _ _ Ss Et) as [Hh Hr]. by rewrite decide_False, app_nil_r.
Qed.

Lemma unsubscribed_step mh e c c' :
  not_subscribed mh c -> state c = Subscribed -> fresh_for mh e -> client_step e c = Some (Ok c') ->
  not_subscribed mh c' /\ state c' = Subscribed /\ received mh c' = received mh c.
Proof.
  intros [Sn Ss] Hs Hk E. destruct (match e with CeReply v => Some v | _ => None end) as [v|] eqn:Ev.
  - destruct e; try done. injection Ev as ->. simpl in E. injection E as E.
    destruct (reply_step mh v c c' Hs E) as [(command & q & value & Ea & Em & ->)|[[E1 E2 E3 E4] _]].
    + destruct (unsubscribed_message mh (toString q) (toByteArray value) c) as [R1 R2]; [done|].
      split_and!; [apply R2..|by rewrite (proj1 (on_message_subs _ _ _))|done].
    + unfold not_subscribed. rewrite E2, E3. split_and!; [done..|congruence|done].
  - destruct (other_step mh e c c') as (E1 & E2 & (l & E3 & Hl) & E4); try done; [by destruct e|].
    split_and!; [split|done|done]; [|rewrite E3; by apply Forall_app].
    destruct E4 as [(l' & -> & Hl')|(hd' & -> & ->)]; [by apply Forall_app|].
    by apply Forall_without.
Qed.

Lemma single_step mh ch e c c' :
  single_once mh ch c -> state c = Subscribed -> fresh_for mh e -> client_step e c = Some (Ok c') ->
  state c' = Subscribed /\ received mh c' = received mh c ++ reply_payload ch e /\
  (if decide (reply_payload ch e = []) then single_once mh ch c' else not_subscribed mh c').
Proof.
  intros Ho Hs Hk E. destruct (match e with CeReply v => Some v | _ => None end) as [v|] eqn:Ev.
  - destruct e; try done. injection Ev as ->. simpl in E. injection E as E.
    destruct (reply_step mh v c c' Hs E) as [(command & q & value & Ea & Em & ->)|[[E1 E2 E3 E4] Hn]].
    + rewrite (proj1 (on_message_subs _ _ _)). split; [done|]. simpl.
      rewrite (published_message _ _ _ _ _ Ea Em).
      destruct (single_message mh ch (toString q) (toByteArray value) c Ho) as [(Hq & R1 & R2)|(Hq & R1 & R2)].
      * by rewrite decide_True.
      * by rewrite decide_False, app_nil_r.
    + simpl. rewrite Hn. simpl. rewrite app_nil_r. split_and!; [congruence|done|].
      destruct Ho as [S1 S2 S3]. split; by rewrite ?E2, ?E3.
  - assert (reply_payload ch e = []) as Hp by by destruct e. rewrite Hp, decide_True, app_nil_r by done.
    destruct Ho as [S1 S2 S3].
    destruct (other_step mh e c c') as (E1 & E2 & (l & E3 & Hl) & E4); try done; [by destruct e|].
    split_and!; [done|done|]. split.
    + destruct E4 as [(l' & -> & Hl')|(hd' & -> & ->)]; [by apply Forall_app|].
      by apply Forall_without.
    + by rewrite E3, filter_app, S2, (filter_none mh snd).
    + rewrite E3, take_first_app. destruct (take_first ch (singleShotMsgHandlers c)) as [[h r]|]; done.
Qed.

Lemma messages_on_cons ch e es :
  messages_on ch (e :: es) = reply_payload ch e ++ messages_on ch es.
Proof. unfold messages_on. simpl. destruct e; simpl; try done. by destruct (published ch v). Qed.

(** ** Properties *)

(** C25. A subscriber gets every message of its channel: over any run of a
    client in subscribe mode that does not end this subscription, the message
    handler is called (or queued on the strand to be called) with exactly the
    messages published on its channel, each once and in order, whatever else
    is subscribed, unsubscribed, published, written or answered meanwhile. *)
Theorem subscriber_gets_every_message mh hd es c c' :
  subscribed_once mh hd c -> state c = Subscribed -> Forall (keeps mh hd) es ->
  client_steps es c c' ->
  received mh c' = received mh c ++ messages_on (h_channel hd) es.
Proof.
  intros Ho Hs Hk Hr. induction Hr as [c|e es c c1 c2 E _ IH].
  { unfold messages_on. by rewrite app_nil_r. }
  apply Forall_cons in Hk as [Hk Hks]. destruct (once_step mh hd e c c1) as (Ho1 & Hs1 & R); try done.
  by rewrite IH, R, messages_on_cons, <-app_assoc.
Qed.

(** A single-shot handler that is next in line for its channel gets the
    first message published there and no other. *)
Theorem single_shot_gets_first mh ch es c c' :
  single_once mh ch c -> state c = Subscribed -> Forall (fresh_for mh) es ->
  client_steps es c c' ->
  received mh c' = received mh c ++ take 1 (messages_on ch es).
Proof.
  intros Ho Hs Hk Hr.
  assert (forall es c c', not_subscribed mh c -> state c = Subscribed -> Forall (fresh_for mh) es ->
    client_steps es c c' -> received mh c' = received mh c) as Hnone.
  { clear. intros es c c' Hn Hs Hk Hr. induction Hr as [c|e es c c1 c2 E _ IH]; [done|].
    apply Forall_cons in Hk as [Hk Hks].
    destruct (unsubscribed_step mh e c c1) as (Hn1 & Hs1 & R); try done. by rewrite IH, R. }
  induction Hr as [c|e es c c1 c2 E Hr IH]; [by rewrite app_nil_r|].
  apply Forall_cons in Hk as [Hk Hks]. destruct (single_step mh ch e c c1) as (Hs1 & R & Ho1); try done.
  rewrite messages_on_cons. case_decide as Hp.
  - rewrite Hp in *. rewrite app_nil_r in R. by rewrite IH, R.
  - rewrite (Hnone _ _ _ Ho1 Hs1 Hks Hr), R. f_equal.
    destruct e; simpl in *; try done. by destruct (published ch v).
Qed.

(** Subscribing loses the replies of commands that are still waiting: the
    mode changes at once, and from then on a reply that is not an array of
    three is a protocol error, which the default error handler throws; the
    handler that waits for it is not called and stays first in the queue.  The
    client never leaves the mode but by closing or reconnecting, and accepts no
    command in it. *)
Theorem subscribe_loses_replies ch mh h c hd c' v :
  state c = Connected -> subscribe ch mh h c = Ok (hd, c') -> length (toArray v) <> 3%nat ->
  doProcessMessage v c' = report protocol_error c' /\ handlers c' = handlers c /\
  (forall es c'', client_steps es c' c'' -> state c'' = Subscribed) /\
  (forall cmd args h' c'', state c'' = Subscribed ->
     command cmd args h' c'' = report (invalid_state c'') c'').
Proof.
  intros Hs E Hv. unfold subscribe, can_subscribe in E. rewrite Hs in E. injection E as <- <-.
  split_and!; [|done| |].
  - unfold doProcessMessage. rewrite decide_True by done. unfold process_subscribed.
    destruct (toArray v) as [|? [|? [|? [|? ?]]]]; done.
  - intros es c'' Hr. remember (set_state _ _) as c1 eqn:E1.
    assert (state c1 = Subscribed) as Hs1 by by rewrite E1. clear E1.
    induction Hr as [c1|e es c1 c2 c3 E _ IH]; [done|]. apply IH.
    destruct (match e with CeReply v => Some v | _ => None end) as [v'|] eqn:Ev.
    + destruct e; try done. simpl in E. injection E as E.
      destruct (reply_step mh v0 c1 c2 Hs1 E) as [(? & ? & ? & _ & _ & ->)|[[E1 _ _ _] _]];
        [by rewrite (proj1 (on_message_subs _ _ _))|congruence].
    + destruct (decide (plain e)) as [Hp|Hp].
      { destruct (plain_step mh e c1 c2 Hp E) as [E1 _ _ _]. congruence. }
      assert (can_subscribe c1 = true) as Hc by (unfold can_subscribe; by rewrite Hs1).
      destruct e; simpl in Hp; try done; simpl in E;
        unfold subscribe, singleShotSubscribe, unsubscribe in E; rewrite Hc in E; simpl in E;
        injection E as <-; done.
  - intros cmd args h' c'' Hs'. unfold command, if_valid. by rewrite decide_False by congruence.
Qed.
End pubsub.

(** ** Witnesses *)

Definition message (ch msg : bytes) : RedisValue :=
  Array [Bytes (lit "message") false; Bytes ch false; Bytes msg false].

(** Two subscribers of a channel and one single-shot handler. *)
Definition demo_subscribed : RedisClientImpl nat nat :=
  from_ok new_client (
    '(_, c) ← subscribe (lit "news") 8%nat 4%nat demo_client;
    singleShotSubscribe (lit "news") 9%nat 5%nat c).

Definition demo_events : list (client_event (H := nat) (MH := nat)) :=
  [CeReply (message (lit "news") (lit "one")); CePost; CeUnsubscribe (mkHandle 1 (lit "news"));
   CeReply (message (lit "other") (lit "x")); CeReply (message (lit "news") (lit "two"))].

Fixpoint run_client (es : list client_event) (c : RedisClientImpl nat nat) :
    option (RedisClientImpl nat nat) :=
  match es with
  | [] => Some c
  | e :: es => match client_step 0%nat e c with Some (Ok c) => run_client es c | _ => None end
  end.

Lemma run_client_steps es c c' : run_client es c = Some c' -> client_steps 0%nat es c c'.
Proof.
  revert c. induction es as [|e es IH]; intros c E; simpl in E; [injection E as <-; constructor|].
  destruct (client_step 0%nat e c) as [[c1|?|?]|] eqn:E1; try done. econstructor; eauto.
Qed.

Definition demo_after : RedisClientImpl nat nat :=
  default new_client (run_client demo_events demo_subscribed).

Lemma demo_events_run : client_steps 0%nat demo_events demo_subscribed demo_after.
Proof.
  apply run_client_steps. unfold demo_after.
  destruct (run_client demo_events demo_subscribed) eqn:E; [done|]. vm_compute in E. discriminate E.
Qed.

Lemma subscriber_gets_every_message_witness :
  received 7%nat demo_after = [lit "one"; lit "two"].
Proof.
  rewrite (subscriber_gets_every_message 0%nat 7%nat (mkHandle 0 (lit "news")) demo_events demo_subscribed);
    [by vm_compute| |done| |exact demo_events_run].
  - split; [by vm_compute|]. vm_compute. repeat constructor; done.
  - unfold demo_events. repeat constructor; done.
Defined.

Lemma single_shot_gets_first_witness :
  received 9%nat demo_after = [lit "one"].
Proof.
  rewrite (single_shot_gets_first 0%nat 9%nat (lit "news") demo_events demo_subscribed);
    [by vm_compute| |done| |exact demo_events_run].
  - split; [|by vm_compute..]. vm_compute. repeat constructor; done.
  - unfold demo_events. repeat constructor; done.
Defined.

Lemma subscribe_loses_replies_witness :
  state demo_client3 = Connected /\ handlers demo_client3 = [1; 2]%nat /\
  doProcessMessage (Bytes (lit "OK") false) demo_client = Throw (runtime_error protocol_error) /\
  handlers demo_client = [1; 2]%nat.
Proof.
  split_and!; [done|done| |].
  - exact (proj1 (subscribe_loses_replies 0%nat (lit "news") 7%nat 3%nat demo_client3
      (mkHandle 0 (lit "news")) demo_client (Bytes (lit "OK") false) eq_refl eq_refl ltac:(done))).
  - exact (proj1 (proj2 (subscribe_loses_replies 0%nat (lit "news") 7%nat 3%nat demo_client3
      (mkHandle 0 (lit "news")) demo_client (Bytes (lit "OK") false) eq_refl eq_refl ltac:(done)))).
Defined.
