(* ===== verification/RedisSync.v ===== *)
(** * The synchronous redis client

    Models [src/redisclient/redissyncclient.h],
    [src/redisclient/impl/redissyncclient.cpp] and
    [RedisClientImpl::doSyncCommand].  The results of the blocking system calls
    are arguments: what a write reports, and what the reads return one after the
    other.  A call that waits for a read that never comes has no result. *)
From S2P Require Import Prelude Util RedisValue RedisParser RedisParserFacts RedisClient RedisAsync RedisReplies.

Section RedisSyncClient.
Context {H MH : Type} `{Reserve}.
Abbreviation client := (RedisClientImpl H MH).
Implicit Types (c : client).

(** What [read_some] returns: bytes, or an error that it throws. *)
Abbreviation read_result := (option bytes).

(** What the loop over one buffer ends in: a [return], or its end. *)
Inductive sync_turn :=
| SReturn (o : outcome (RedisValue * client))
| SMore (c : client)
| SFuel.

(** The inner loop of [doSyncCommand] over what is left of the buffer. *)
Fixpoint sync_loop (fuel : nat) (data : bytes) c : sync_turn :=
  match data, fuel with
  | [], _ => SMore c
  | _, O => SFuel
  | _, S fuel =>
      match parse data (redisParser c) with
      | None => SFuel
      | Some (Throw e, _) => SReturn (Throw e)
      | Some (UB u, _) => SReturn (UB u)
      | Some (Ok (k, r), p) =>
          let c := set_read p (reads c) c in
          match r with
          | Completed => let '(v, p) := result p in SReturn (Ok (v, set_read p (reads c) c))
          | Incompleted => sync_loop fuel (drop k data) c
          | Error => SReturn (c ← report parser_error c; Ok (Null, c))
          end
      end
  end.

(** The reads: the value returned, the client, and the reads not used. *)
Fixpoint sync_reads (rs : list read_result) c :
    option (outcome (RedisValue * client) * list read_result) :=
  match rs with
  | [] => None
  | None :: rs => Some (Throw system_error, rs)
  | Some data :: rs =>
      match sync_loop (length data) data c with
      | SReturn o => Some (o, rs)
      | SMore c => sync_reads rs c
      | SFuel => None
      end
  end.

(** [doSyncCommand(buff)]; [ec] is the message of a failed write. *)
Definition doSyncCommand (items : list bytes) (ec : option bytes) (rs : list read_result) c :
    option (outcome (RedisValue * client) * list read_result) :=
  match ec with
  | Some msg => Some (c ← report msg c; Ok (Null, c), rs)
  | None => sync_reads rs (add_sent (makeCommand items) c)
  end.

(** The constructor, the destructor and [installErrorHandler]. *)
Definition new_sync : client := installErrorHandler defaulErrorHandler new_client.
Definition destroy_sync c : client := close c.
Definition sync_installErrorHandler (f : bytes -> outcome unit) c : client := installErrorHandler f c.

(** [connect(endpoint, errmsg)]: the errors of [open], [set_option] and
    [connect], which are called in turn until one fails. *)
Definition sync_connect (open option_ connect : option bytes) c : bool * bytes * client :=
  match open with
  | Some e => (false, e, c)
  | None =>
      match option_ with
      | Some e => (false, e, c)
      | None =>
          match connect with
          | Some e => (false, e, c)
          | None => (true, [], set_state Connected c)
          end
      end
  end.

Definition sync_invalid_state c : bytes :=
  lit "RedisClient::command called with invalid state " ++ to_string (state_number (state c)).

(** [stateValid()]: false after the error has been reported. *)
Definition sync_stateValid c : outcome (bool * client) :=
  if decide (state c = Connected) then Ok (true, c)
  else c ← report (sync_invalid_state c) c; Ok (false, c).

(** [if(stateValid()) return pimpl->doSyncCommand(items); else return RedisValue()]. *)
Definition sync_items (items : list bytes) (ec : option bytes) (rs : list read_result) c :
    option (outcome (RedisValue * client) * list read_result) :=
  match sync_stateValid c with
  | Ok (true, c) => doSyncCommand items ec rs c
  | Ok (false, c) => Some (Ok (Null, c), rs)
  | Throw e => Some (Throw e, rs)
  | UB u => Some (UB u, rs)
  end.

(** [command(cmd, args)] and its overloads for a fixed number of arguments. *)
Definition sync_command (cmd : bytes) (args : list bytes) := sync_items (cmd :: args).
Definition sync_command0 (s : bytes) := sync_items [s].
Definition sync_command1 (cmd a1 : bytes) := sync_items [cmd; a1].
Definition sync_command2 (cmd a1 a2 : bytes) := sync_items [cmd; a1; a2].
Definition sync_command3 (cmd a1 a2 a3 : bytes) := sync_items [cmd; a1; a2; a3].
Definition sync_command4 (cmd a1 a2 a3 a4 : bytes) := sync_items [cmd; a1; a2; a3; a4].
Definition sync_command5 (cmd a1 a2 a3 a4 a5 : bytes) := sync_items [cmd; a1; a2; a3; a4; a5].
Definition sync_command6 (cmd a1 a2 a3 a4 a5 a6 : bytes) := sync_items [cmd; a1; a2; a3; a4; a5; a6].
Definition sync_command7 (cmd a1 a2 a3 a4 a5 a6 a7 : bytes) :=
  sync_items [cmd; a1; a2; a3; a4; a5; a6; a7].

(** ** Lemmas *)

(** The loop over a buffer follows the reference parser. *)
Lemma sync_loop_more data c l fs k l' fs' :
  represents (redisParser c) l fs -> feed l fs data = (k, Running l' fs') ->
  exists p, sync_loop (length data) data c = SMore (set_read p (reads c) c) /\ represents p l' fs'.
Proof.
  intros Hr E. destruct data as [|b data].
  { simpl in E. injection E as <- <- <-. exists (redisParser c). by destruct c. }
  pose proof (feed_Running_all _ _ _ _ _ _ E) as ->.
  pose proof (parse_agrees (b :: data) _ _ _ Hr) as Ha. unfold agrees in Ha. rewrite E in Ha.
  cbn [length sync_loop]. destruct (parse (b :: data) (redisParser c)) as [[o p]|]; [|done].
  destruct Ha as [-> Hp]. exists p. split; [|done]. simpl. rewrite drop_ge by (simpl; lia).
  by destruct (length data).
Qed.

Lemma sync_loop_done data c l fs k v :
  represents (redisParser c) l fs -> feed l fs data = (k, Done v) ->
  exists p, sync_loop (length data) data c = SReturn (Ok (v, set_read p (reads c) c)) /\
    represents p LStart [].
Proof.
  intros Hr E. pose proof (feed_Done_pos _ _ _ _ _ E) as Hk.
  destruct data as [|b data]; [simpl in Hk; lia|].
  pose proof (parse_agrees (b :: data) _ _ _ Hr) as Ha. unfold agrees in Ha. rewrite E in Ha.
  cbn [length sync_loop]. destruct (parse (b :: data) (redisParser c)) as [[o p]|]; [|done].
  destruct Ha as [-> (Hs & Ha & Hv)]. exists (set_stacks (arrayStack p) [] p). simpl.
  unfold result. rewrite Hv. split; [done|].
  split; simpl; [unfold lex_of; simpl; by rewrite Hs|done|by rewrite Ha|done|done].
Qed.

(** The reads [init] are not enough for the value, the read [last] is. *)
Lemma sync_reads_value init last rest : forall c l fs k v,
  represents (redisParser c) l fs -> feed l fs (concat init ++ last) = (k, Done v) ->
  (length (concat init) < k)%nat ->
  exists p, sync_reads ((Some <$> init) ++ Some last :: rest) c =
      Some (Ok (v, set_read p (reads c) c), rest) /\ represents p LStart [].
Proof.
  induction init as [|d init IH]; intros c l fs k v Hr E Hl.
  - destruct (sync_loop_done last c l fs k v Hr E) as (p & Ep & Hp). exists p. cbn [fmap list_fmap app sync_reads]. by rewrite Ep.
  - simpl in E, Hl. rewrite length_app in Hl. rewrite <-app_assoc, feed_cut in E.
    destruct (feed l fs d) as [kd rd] eqn:Ed. destruct rd as [l' fs'|v'| |?]; try done.
    + pose proof (feed_Running_all _ _ _ _ _ _ Ed) as ->.
      destruct (feed l' fs' (concat init ++ last)) as [k' r'] eqn:E'. injection E as <- ->.
      destruct (sync_loop_more d c l fs _ l' fs' Hr Ed) as (p & Ep & Hp).
      destruct (IH (set_read p (reads c) c) l' fs' k' v Hp E') as (p' & Ep' & Hp'); [lia|].
      exists p'. rewrite fmap_cons. cbn [app sync_reads]. rewrite Ep. by rewrite Ep'.
    + injection E as -> ->. pose proof (feed_Done_pos _ _ _ _ _ Ed). lia.
Qed.

(** ** Properties *)

End RedisSyncClient.

(** Commands one after the other, the reads coming from one stream. *)
Fixpoint sync_session {H MH} `{Reserve} (cmds : list (bytes * list bytes)) (rs : list (option bytes))
    (c : RedisClientImpl H MH) : option (outcome (list RedisValue * RedisClientImpl H MH)) :=
  match cmds with
  | [] => Some (Ok ([], c))
  | (cmd, args) :: cmds =>
      match sync_command cmd args None rs c with
      | Some (Ok (v, c), rs) =>
          (fun o => '(vs, c) ← o; Ok (v :: vs, c)) <$> sync_session cmds rs c
      | Some (Throw e, _) => Some (Throw e)
      | Some (UB u, _) => Some (UB u)
      | None => None
      end
  end.

(** How a server that answers every command after it was sent is read: the
    reply to each is cut into non-empty reads of its own. *)
Definition answers (r : Reply) (ds : list bytes) : Prop :=
  concat ds = encode r /\ Forall (fun d => d <> []) ds.

(** A non-empty list of non-empty reads, split before its last. *)
Lemma answers_split r ds : answers r ds -> exists init last,
  ds = init ++ [last] /\ concat init ++ last = encode r /\ (length (concat init) < length (encode r))%nat.
Proof.
  intros [Hc Hn]. destruct ds as [|last init _] using rev_ind.
  { by destruct r. }
  exists init, last. rewrite concat_app in Hc. simpl in Hc. rewrite app_nil_r in Hc.
  apply Forall_app in Hn as [_ [Hl _]%Forall_cons]. split_and!; [done|done|].
  rewrite <-Hc, length_app. destruct last; [done|simpl; lia].
Qed.

(** A session of synchronous commands with a server that answers each of
    them returns the replies in order. *)
Theorem sync_session_replies {H MH} `{Reserve} cmds rs dss (c : RedisClientImpl H MH) :
  state c = Connected -> represents (redisParser c) LStart [] -> Forall encodable rs ->
  length cmds = length rs -> Forall2 answers rs dss ->
  exists c', sync_session cmds (Some <$> concat dss) c = Some (Ok (map value_of rs, c')).
Proof.
  intros Hs Hr He Hl Ha. revert cmds c Hs Hr He Hl.
  induction Ha as [|r ds rs dss Hv _ IH]; intros [|[cmd args] cmds] c Hs Hr He Hl; try done.
  { by exists c. }
  apply Forall_cons in He as [Hev He]. simpl in Hl. injection Hl as Hl.
  destruct (answers_split r ds Hv) as (init & last & -> & Hc & Hlt).
  cbn [sync_session concat]. rewrite !fmap_app, <-app_assoc. cbn [fmap list_fmap app].
  unfold sync_command, sync_items, sync_stateValid, doSyncCommand. rewrite decide_True by done.
  destruct (sync_reads_value init last (Some <$> concat dss) (add_sent (makeCommand (cmd :: args)) c)
    LStart [] (length (encode r)) (value_of r)) as (p & -> & Hp); [done| |done|].
  { rewrite Hc. pose proof (encode_reads_back r Hev [] []) as R. by rewrite app_nil_r in R. }
  destruct (IH cmds (set_read p (reads (add_sent (makeCommand (cmd :: args)) c))
    (add_sent (makeCommand (cmd :: args)) c))) as (c' & E); try done.
  exists c'. by rewrite E.
Qed.

(** ** Witnesses *)

Definition demo_sync : RedisClientImpl nat nat := (sync_connect None None None new_sync).2.


Lemma sync_session_replies_witness :
  exists c', sync_session [(lit "DEL", [lit "a"]); (lit "GET", [lit "b"])]
      [Some (lit ":"); Some (lit "1" ++ crlf); Some (lit "$1" ++ crlf ++ lit "x" ++ crlf)] demo_sync =
    Some (Ok ([Int 1; Bytes (lit "x") false], c')).
Proof.
  apply (sync_session_replies [(lit "DEL", [lit "a"]); (lit "GET", [lit "b"])]
    [RInt 1; RBulk (lit "x")]
    [[lit ":"; lit "1" ++ crlf]; [lit "$1" ++ crlf ++ lit "x" ++ crlf]] demo_sync);
    [done|by split| |done|].
  - constructor; [by split|]. constructor; [by split|done].
  - constructor; [|constructor; [|done]]; (split; [by vm_compute|]); repeat constructor; done.
Defined.
