(* ===== verification/SessionStore.v ===== *)
(** * What the session manager expects of the session database

    The interface between [CSessionMgr] (its client, [SessionMgr.v]) and
    [CSessionDb] (its implementation, [SessionDb.v]). *)
From S2P Require Import Prelude Protocol.

(** [st_view] is the abstract content: what the store holds once everything it
    was told has been processed.  The store also works in the background, in a
    thread of its own: [st_bg] relates its states before and after one step of
    that thread.  [st_inv] is the store's own invariant. *)
Class SessionStore (D : Type) := {
  st_add : SSessionInfo -> D -> D;
  st_del : Z -> D -> D;
  st_output : D -> bytes;
  st_bg : D -> D -> Prop;
  st_view : D -> gmap Z SSessionInfo;
  st_inv : D -> Prop
}.

(** Insertion that keeps an existing entry, as [unordered_map::insert]. *)
Definition insert_new (i : SSessionInfo) (m : gmap Z SSessionInfo) : gmap Z SSessionInfo :=
  match m !! uiId i with Some _ => m | None => <[uiId i := i]> m end.

Class SessionStoreLaws (D : Type) `{SessionStore D} := {
  st_add_view : forall i d, st_view (st_add i d) = insert_new i (st_view d);
  st_del_view : forall id d, st_view (st_del id d) = delete id (st_view d);
  st_add_inv : forall i d, st_inv d -> st_inv (st_add i d);
  st_del_inv : forall id d, st_inv d -> st_inv (st_del id d);
  st_bg_view : forall d d', st_inv d -> st_bg d d' -> st_view d' = st_view d /\ st_inv d'
}.
