(* ===== verification/SessionDb.v ===== *)
(** * The session database

    Models [src/net/CSessionDb.hpp] and [src/net/CSessionDb.cpp]: the queue of
    operations that the session threads fill, the worker thread that applies
    them to the map and to redis, and the serialised list of proxies that
    answers the GETPROXIES requests.

    [CSessionDb] implements the interface [SessionStore] of the session
    manager. *)
From S2P Require Import Prelude Protocol Util RedisClient RedisAsync SessionStore.

(** ** State *)

Module OPT.
Definition ADD : Z := 0.
Definition DEL : Z := 1.
End OPT.

Record OperationItem := { op : Z (* uint8_t *); info : SSessionInfo }.

Definition kRedisKeySession : bytes := lit "SESSION:".
Definition kRedisFieldSessionId : bytes := lit "ID".
Definition kRedisFieldSessionAddr : bytes := lit "ADDR".
Definition kRedisFieldSessionGuid : bytes := lit "GUID".
Definition kRedisAUTH : bytes := lit "AUTH".
Definition kRedisHMSET : bytes := lit "HMSET".
Definition kRedisHDEL : bytes := lit "HDEL".

(** The completion handlers the database binds. *)
Inductive db_handler := onRedisAuth | onRedisSetSessionCompleted (id : Z)
  | onRedisDelSessionCompleted (id : Z).

Definition MAX_LENGTH : nat := 2048.

Record CSessionDb := {
  _redis : RedisClientImpl db_handler Empty_set;
  _redis_passwd : bytes;
  _db : gmap Z SSessionInfo;
  _op_stack : list OperationItem;
  _out_buff : bytes;
  _buff : bytes; (* char _buff[MAX_LENGTH] *)
  _buff_len : Z;
  _started : bool
}.

Definition new_db (passwd : bytes) : CSessionDb :=
  {| _redis := new_client; _redis_passwd := passwd; _db := ∅; _op_stack := []; _out_buff := [];
     _buff := replicate MAX_LENGTH Init.Byte.x00; _buff_len := 0; _started := false |}.

Definition set_redis (r : RedisClientImpl db_handler Empty_set) (d : CSessionDb) : CSessionDb :=
  {| _redis := r; _redis_passwd := _redis_passwd d; _db := _db d; _op_stack := _op_stack d;
     _out_buff := _out_buff d; _buff := _buff d; _buff_len := _buff_len d; _started := _started d |}.
Definition set_db (m : gmap Z SSessionInfo) (d : CSessionDb) : CSessionDb :=
  {| _redis := _redis d; _redis_passwd := _redis_passwd d; _db := m; _op_stack := _op_stack d;
     _out_buff := _out_buff d; _buff := _buff d; _buff_len := _buff_len d; _started := _started d |}.
Definition set_op_stack (l : list OperationItem) (d : CSessionDb) : CSessionDb :=
  {| _redis := _redis d; _redis_passwd := _redis_passwd d; _db := _db d; _op_stack := l;
     _out_buff := _out_buff d; _buff := _buff d; _buff_len := _buff_len d; _started := _started d |}.
Definition set_buff (b : bytes) (n : Z) (out : bytes) (d : CSessionDb) : CSessionDb :=
  {| _redis := _redis d; _redis_passwd := _redis_passwd d; _db := _db d; _op_stack := _op_stack d;
     _out_buff := out; _buff := b; _buff_len := n; _started := _started d |}.
Definition set_started (s : bool) (d : CSessionDb) : CSessionDb :=
  {| _redis := _redis d; _redis_passwd := _redis_passwd d; _db := _db d; _op_stack := _op_stack d;
     _out_buff := _out_buff d; _buff := _buff d; _buff_len := _buff_len d; _started := s |}.

(** ** Operations of the session threads *)

(** [add(info)] and [del(id)]: one push under the mutex. *)
Definition add (i : SSessionInfo) (d : CSessionDb) : CSessionDb :=
  set_op_stack (_op_stack d ++ [{| op := OPT.ADD; info := i |}]) d.
Definition del (id : Z) (d : CSessionDb) : CSessionDb :=
  set_op_stack (_op_stack d ++
    [{| op := OPT.DEL; info := {| uiId := id; uiAddr := 0; sGuid := [] |} |}]) d.
Definition output (d : CSessionDb) : bytes := _out_buff d.

Definition start (d : CSessionDb) : CSessionDb := set_started true d.
Definition stop (d : CSessionDb) : CSessionDb :=
  if _started d then set_redis (disconnect (_redis d)) (set_started false d) else d.

(** [onRedisConnected(ok, _)]. *)
Definition onRedisConnected (ok : bool) (d : CSessionDb) : outcome CSessionDb :=
  if negb ok then Ok d
  else r ← command kRedisAUTH [_redis_passwd d] onRedisAuth (_redis d);
       Ok (set_redis r d).

(** ** The worker thread *)

Definition redis_if_connected (cmd : bytes) (args : list bytes) (h : db_handler) (d : CSessionDb) :
    outcome CSessionDb :=
  if isConnected (_redis d) then
    r ← command cmd args h (_redis d);
    Ok (set_redis r d)
  else Ok d.

(** The body of [operate] for the front item, up to [pop_front]. *)
Definition apply_item (item : OperationItem) (d : CSessionDb) : outcome CSessionDb :=
  if op item =? OPT.ADD then
    let i := info item in
    let d := set_db (insert_new i (_db d)) d in
    redis_if_connected kRedisHMSET
      [kRedisKeySession ++ sGuid i; kRedisFieldSessionId; to_string (uiId i);
       kRedisFieldSessionAddr; to_string (uiAddr i); kRedisFieldSessionGuid; sGuid i]
      (onRedisSetSessionCompleted (uiId i)) d
  else if op item =? OPT.DEL then
    match _db d !! uiId (info item) with
    | None => Ok d
    | Some i =>
        let d := set_db (delete (uiId i) (_db d)) d in
        redis_if_connected kRedisHDEL
          [kRedisKeySession ++ sGuid i; kRedisFieldSessionId; kRedisFieldSessionAddr;
           kRedisFieldSessionGuid]
          (onRedisDelSessionCompleted (uiId i)) d
    end
  else Ok d.

Definition operate_front (d : CSessionDb) : outcome CSessionDb :=
  match _op_stack d with
  | [] => UB empty_deque
  | item :: items =>
      d ← apply_item item d;
      Ok (set_op_stack items d)
  end.

(** [boost::unordered_map] does not specify its iteration order: it is a
    parameter, of which only the entries are known. *)
Class IterOrder := {
  iter : gmap Z SSessionInfo -> list SSessionInfo;
  iter_perm : forall m, iter m ≡ₚ (map_to_list m).*2
}.

Section worker.
Context {IO : IterOrder}.

(** The loop of [serial()]: [cnt] is a [uint8_t]; [max_cnt] a [uint16_t]. *)
Definition max_cnt : Z := wrap 16 (Z.of_nat MAX_LENGTH / SSessionInfo_size).

Fixpoint serial_loop (it : list SSessionInfo) (buff : bytes) (buff_len : nat) (cnt : Z) :
    outcome (bytes * nat * Z) :=
  match it with
  | [] => Ok (buff, buff_len, cnt)
  | i :: it =>
      if (buff_len <? MAX_LENGTH)%nat && (cnt <? max_cnt) then
        buff ← mem_write buff buff_len (le_bytes 4 (uiId i));
        let buff_len := (buff_len + 4)%nat in
        buff ← mem_write buff buff_len (le_bytes 4 (uiAddr i));
        let buff_len := (buff_len + 4)%nat in
        serial_loop it buff buff_len (wrap 8 (cnt + 1))
      else Ok (buff, buff_len, cnt)
  end.

Definition serial (d : CSessionDb) : outcome CSessionDb :=
  let buff := replicate MAX_LENGTH Init.Byte.x00 in (* bzero *)
  '(buff, buff_len, cnt) ← serial_loop (iter (_db d)) buff 1 0;
  buff ← mem_write buff 0 [Z_byte cnt];
  buff ← mem_write buff buff_len [Init.Byte.x00];
  out ← mem_read buff 0 buff_len;
  Ok (set_buff buff (Z.of_nat buff_len) out d).

(** Where the worker thread is: at the head of [while(_started)], blocked in
    [_op_cond.wait], or gone. *)
Inductive worker_pc := WorkerLoop | WorkerWait | WorkerExit.

(** One step of the worker: from one blocking point or loop head to the next.
    Leaving [WorkerWait] is a wake-up, notified or spurious. *)
Definition worker_step (pc : worker_pc) (d : CSessionDb) : outcome (worker_pc * CSessionDb) :=
  let process (d : CSessionDb) :=
    match _op_stack d with
    | [] => Ok (WorkerWait, d)
    | _ :: _ => d ← operate_front d; d ← serial d; Ok (WorkerLoop, d)
    end in
  match pc with
  | WorkerLoop => if _started d then process d else Ok (WorkerExit, d)
  | WorkerWait =>
      if _started d then process d
      else d ← serial d; Ok (WorkerLoop, d) (* operate() returns at once *)
  | WorkerExit => Ok (WorkerExit, d)
  end.
End worker.

(** ** The abstract store *)

Definition apply_view (item : OperationItem) (m : gmap Z SSessionInfo) : gmap Z SSessionInfo :=
  if op item =? OPT.ADD then insert_new (info item) m
  else if op item =? OPT.DEL then delete (uiId (info item)) m
  else m.

(** What the database holds once the pending operations are applied. *)
Definition db_view (d : CSessionDb) : gmap Z SSessionInfo :=
  foldl (fun m item => apply_view item m) (_db d) (_op_stack d).

(** Every entry is stored under its own id. *)
Definition db_wf (d : CSessionDb) : Prop := map_Forall (fun k i => uiId i = k) (_db d).

(** The client never subscribes: the worker's redis commands are accepted. *)
Definition redis_wf (d : CSessionDb) : Prop := state (_redis d) <> Subscribed.

Lemma insert_new_wf i m :
  map_Forall (fun k j => uiId j = k) m ->
  map_Forall (fun k j => uiId j = k) (insert_new i m).
Proof.
  unfold insert_new. intros H. destruct (m !! uiId i); [done|]. by apply map_Forall_insert_2.
Qed.

Lemma redis_if_connected_Ok cmd args h d :
  redis_wf d -> exists r, redis_if_connected cmd args h d = Ok (set_redis r d)
                          /\ state r = state (_redis d).
Proof.
  unfold redis_wf, redis_if_connected, isConnected, command, if_valid, getState. intros Hs.
  assert (Ok d = Ok (set_redis (_redis d) d)) as Hd by (by destruct d).
  destruct (state (_redis d)) eqn:E; simpl; [eauto| |done|eauto].
  eexists. split; [reflexivity|]. exact E.
Qed.

Lemma apply_item_spec item d :
  db_wf d -> redis_wf d ->
  exists r, apply_item item d = Ok (set_redis r (set_db (apply_view item (_db d)) d))
            /\ state r = state (_redis d).
Proof.
  intros Hw Hr. unfold apply_item, apply_view.
  destruct (op item =? OPT.ADD); [exact (redis_if_connected_Ok _ _ _ (set_db _ d) Hr)|].
  destruct (op item =? OPT.DEL).
  - destruct (_db d !! uiId (info item)) as [i|] eqn:E.
    + rewrite (Hw _ _ E). exact (redis_if_connected_Ok _ _ _ (set_db _ d) Hr).
    + exists (_redis d). rewrite delete_id by done. by destruct d.
  - exists (_redis d). by destruct d.
Qed.

Lemma apply_view_wf item m :
  map_Forall (fun k j => uiId j = k) m ->
  map_Forall (fun k j => uiId j = k) (apply_view item m).
Proof.
  intros H. unfold apply_view. repeat case_match.
  - by apply insert_new_wf.
  - by apply map_Forall_delete.
  - done.
Qed.

Lemma operate_front_spec item items d :
  db_wf d -> redis_wf d -> _op_stack d = item :: items ->
  exists r, operate_front d =
    Ok (set_op_stack items (set_redis r (set_db (apply_view item (_db d)) d)))
    /\ state r = state (_redis d).
Proof.
  intros Hw Hr E. unfold operate_front. rewrite E.
  destruct (apply_item_spec item d Hw Hr) as (r & -> & Hs). by exists r.
Qed.

(** ** The serialised list *)

Definition entry (i : SSessionInfo) : bytes := le_bytes 4 (uiId i) ++ le_bytes 4 (uiAddr i).
Definition encode_sessions (it : list SSessionInfo) : bytes :=
  Z_byte (Z.of_nat (length it)) :: concat (entry <$> it).

(** What a client reads from the list: pairs of id and address. *)
Fixpoint decode_entries (n : nat) (l : bytes) : list (Z * Z) :=
  match n with
  | O => []
  | S n => (le_Z (take 4 l), le_Z (take 4 (drop 4 l))) :: decode_entries n (drop 8 l)
  end.
Definition decode_sessions (l : bytes) : list (Z * Z) :=
  match l with
  | [] => []
  | c :: l => decode_entries (Z.to_nat (byte_Z c)) l
  end.

Definition info_wf (i : SSessionInfo) : Prop := 0 ≤ uiId i < 2 ^ 32 /\ 0 ≤ uiAddr i < 2 ^ 32.

Lemma length_entries it : length (concat (entry <$> it)) = (8 * length it)%nat.
Proof.
  induction it as [|i it IH]; [done|].
  rewrite fmap_cons. cbn [concat]. rewrite length_app, IH. simpl. lia.
Qed.
#[export] Hint Rewrite length_entries : len.

Lemma decode_entries_S n i l :
  decode_entries (S n) (entry i ++ l) =
  (le_Z (le_bytes 4 (uiId i)), le_Z (le_bytes 4 (uiAddr i))) :: decode_entries n l.
Proof. reflexivity. Qed.

Lemma decode_entries_entries it rest :
  Forall info_wf it ->
  decode_entries (length it) (concat (entry <$> it) ++ rest)
  = (fun i => (uiId i, uiAddr i)) <$> it.
Proof.
  induction 1 as [|i it [Hi Ha] _ IH]; [done|].
  rewrite fmap_cons. cbn [concat length]. rewrite <-app_assoc, decode_entries_S, IH.
  by rewrite !le_Z_le_bytes_small.
Qed.

(** The ids alone, whatever the addresses. *)
Lemma decode_entries_ids it rest :
  Forall (fun i => 0 ≤ uiId i < 2 ^ 32) it ->
  (decode_entries (length it) (concat (entry <$> it) ++ rest)).*1 = uiId <$> it.
Proof.
  induction 1 as [|i it Hi _ IH]; [done|].
  rewrite fmap_cons. cbn [concat length]. rewrite <-app_assoc, decode_entries_S, !fmap_cons, IH.
  by rewrite le_Z_le_bytes_small.
Qed.

(** The published list is up to date with the map: it is its encoding, in
    the order in which some iteration went over it, or nothing has been
    applied yet. *)
Definition list_current (d : CSessionDb) : Prop :=
  (_out_buff d = [] /\ _db d = ∅) \/
  ((size (_db d) ≤ 255)%nat /\ exists IO : IterOrder, _out_buff d = encode_sessions (iter (_db d))).

Section serial_lemmas.
Context {IO : IterOrder}.
Abbreviation zeros n := (replicate n Init.Byte.x00).

Lemma serial_loop_step i it pre r cnt :
  length pre = (1 + 8 * cnt)%nat -> (cnt < 255)%nat -> (8 ≤ r)%nat ->
  serial_loop (i :: it) (pre ++ zeros r) (length pre) (Z.of_nat cnt) =
  serial_loop it ((pre ++ entry i) ++ zeros (r - 8)) (length (pre ++ entry i)) (Z.of_nat (S cnt)).
Proof.
  intros Hp Hc Hr. unfold serial_loop at 1; fold serial_loop.
  rewrite (proj2 (Nat.ltb_lt _ _)) by (unfold MAX_LENGTH; lia).
  rewrite (proj2 (Z.ltb_lt _ _)) by (change max_cnt with 256; lia).
  simpl andb. rewrite mem_write_snoc, ok_bind, length_le_bytes, drop_replicate by len.
  replace (length pre + 4)%nat with (length (pre ++ le_bytes 4 (uiId i))) by len.
  rewrite mem_write_snoc, ok_bind, length_le_bytes, drop_replicate by len.
  unfold wrap. rewrite Z.mod_small by lia. unfold entry. rewrite <-!app_assoc.
  f_equal; [do 3 f_equal; f_equal; lia|len|lia].
Qed.

Lemma serial_loop_Ok it pre r cnt :
  length pre = (1 + 8 * cnt)%nat -> (cnt + length it ≤ 255)%nat -> (8 * length it ≤ r)%nat ->
  serial_loop it (pre ++ zeros r) (length pre) (Z.of_nat cnt) =
  Ok ((pre ++ concat (entry <$> it)) ++ zeros (r - 8 * length it),
      length (pre ++ concat (entry <$> it)), Z.of_nat (cnt + length it)).
Proof.
  revert pre r cnt. induction it as [|i it IH]; intros pre r cnt Hp Hc Hr.
  - simpl. rewrite !app_nil_r, Nat.sub_0_r, Nat.add_0_r. done.
  - simpl in Hc, Hr. rewrite serial_loop_step by lia.
    rewrite IH by len. rewrite fmap_cons. cbn [concat length].
    replace (r - 8 - 8 * length it)%nat with (r - 8 * S (length it))%nat by lia.
    replace (S cnt + length it)%nat with (cnt + S (length it))%nat by lia.
    by rewrite <-!app_assoc.
Qed.

Lemma serial_loop_UB it pre r cnt :
  length pre = (1 + 8 * cnt)%nat -> (length pre + r = MAX_LENGTH)%nat ->
  (cnt ≤ 255)%nat -> (256 ≤ cnt + length it)%nat ->
  serial_loop it (pre ++ zeros r) (length pre) (Z.of_nat cnt) = UB out_of_bounds_write.
Proof.
  revert pre r cnt. induction it as [|i it IH]; intros pre r cnt Hp Hm Hc Hi; simpl in Hi; [lia|].
  unfold MAX_LENGTH in Hm. destruct (decide (cnt = 255)%nat) as [->|].
  - unfold serial_loop. rewrite (proj2 (Nat.ltb_lt _ _)) by (unfold MAX_LENGTH; lia).
    simpl andb. rewrite mem_write_snoc, ok_bind by len.
    by rewrite mem_write_UB by len.
  - rewrite serial_loop_step by lia. apply IH; unfold MAX_LENGTH; len.
Qed.

Lemma serial_Ok d :
  (length (iter (_db d)) ≤ 255)%nat ->
  exists b n, serial d = Ok (set_buff b n (encode_sessions (iter (_db d))) d).
Proof.
  intros Hl. unfold serial.
  change (replicate MAX_LENGTH Init.Byte.x00) with ([Init.Byte.x00] ++ zeros 2047).
  assert (8 * 255 < 2047)%nat as Hr by lia. revert Hr. generalize 2047%nat. intros r Hr.
  epose proof (serial_loop_Ok (iter (_db d)) [Init.Byte.x00] r 0 eq_refl
    ltac:(simpl; lia) ltac:(lia)
    : serial_loop _ ([Init.Byte.x00] ++ zeros r) 1 0 = _) as E.
  rewrite E, ok_bind. simpl app.
  rewrite mem_write_Ok by len. rewrite ok_bind. simpl app. rewrite drop_0.
  rewrite mem_write_Ok by len. rewrite ok_bind.
  rewrite mem_read_Ok by len. rewrite ok_bind. eexists _, _. do 2 f_equal.
  simpl. unfold encode_sessions. f_equal.
  rewrite take_app_le by len. rewrite take_take, Nat.min_id.
  by rewrite take_app_length.
Qed.

Lemma serial_UB d :
  (256 ≤ length (iter (_db d)))%nat -> serial d = UB out_of_bounds_write.
Proof.
  intros Hl. unfold serial.
  change (replicate MAX_LENGTH Init.Byte.x00) with ([Init.Byte.x00] ++ zeros 2047).
  epose proof (serial_loop_UB (iter (_db d)) [Init.Byte.x00] 2047 0 eq_refl eq_refl
    ltac:(lia) ltac:(simpl; lia)
    : serial_loop _ ([Init.Byte.x00] ++ zeros 2047) 1 0 = _) as E.
  by rewrite E.
Qed.

Lemma length_iter m : length (iter m) = size m.
Proof.
  rewrite (Permutation_length (iter_perm m)), length_fmap. by rewrite length_map_to_list.
Qed.
End serial_lemmas.

(** ** Runs of the worker *)
Section worker_lemmas.
Context {IO : IterOrder}.

Fixpoint worker_steps (n : nat) (pc : worker_pc) (d : CSessionDb) :
    outcome (worker_pc * CSessionDb) :=
  match n with
  | O => Ok (pc, d)
  | S n => '(pc, d) ← worker_step pc d; worker_steps n pc d
  end.

(** [serial] only touches the output. *)
Lemma serial_frame d d' :
  serial d = Ok d' ->
  _db d' = _db d /\ _op_stack d' = _op_stack d /\ _started d' = _started d /\ _redis d' = _redis d.
Proof.
  unfold serial. intros H.
  apply outcome_bind_Ok in H as ([[b n] c] & _ & H).
  apply outcome_bind_Ok in H as (b1 & _ & H).
  apply outcome_bind_Ok in H as (b2 & _ & H).
  apply outcome_bind_Ok in H as (o & _ & [= <-]). done.
Qed.

Lemma serial_current d d' : serial d = Ok d' -> list_current d'.
Proof.
  intros E. destruct (decide (length (iter (_db d)) ≤ 255)%nat) as [Hl|Hl];
    [|rewrite serial_UB in E by lia; done].
  destruct (serial_Ok d Hl) as (b & n & E'). rewrite E' in E. injection E as <-.
  right. simpl. rewrite <-(length_iter (_db d)). split; [done|]. by exists IO.
Qed.

(** One iteration of the loop on a non-empty queue. *)
Lemma worker_iteration item items d :
  db_wf d -> redis_wf d -> _started d = true -> _op_stack d = item :: items ->
  (size (apply_view item (_db d)) ≤ 255)%nat ->
  exists d', worker_step WorkerLoop d = Ok (WorkerLoop, d') /\
    _db d' = apply_view item (_db d) /\ _op_stack d' = items /\ _started d' = true /\
    _out_buff d' = encode_sessions (iter (_db d')) /\ db_wf d' /\ redis_wf d'.
Proof.
  intros Hw Hr Hs Eo Hsz. unfold worker_step. rewrite Hs, Eo.
  destruct (operate_front_spec item items d Hw Hr Eo) as (r & -> & Hst). rewrite ok_bind.
  destruct (serial_Ok (set_op_stack items (set_redis r (set_db (apply_view item (_db d)) d))))
    as (b & n & ->); [simpl; by rewrite length_iter|].
  rewrite ok_bind. eexists. split; [done|]. simpl. unfold db_wf, redis_wf. simpl.
  rewrite Hst. split_and!; auto using apply_view_wf.
Qed.

Lemma size_apply_view item m : (size (apply_view item m) ≤ S (size m))%nat.
Proof.
  unfold apply_view, insert_new. repeat case_match; try lia.
  - rewrite map_size_insert_None by done. lia.
  - pose proof (map_subseteq_size _ _ (delete_subseteq m (uiId (info item)))). lia.
Qed.

Lemma worker_drains n d :
  db_wf d -> redis_wf d -> _started d = true -> n = length (_op_stack d) ->
  (size (_db d) + n ≤ 255)%nat ->
  exists d', worker_steps n WorkerLoop d = Ok (WorkerLoop, d') /\
    _op_stack d' = [] /\ _db d' = db_view d /\
    ((0 < n)%nat -> _out_buff d' = encode_sessions (iter (db_view d))).
Proof.
  intros Hw Hr Hs. revert Hw Hr Hs. generalize (eq_refl (_op_stack d)).
  generalize (_op_stack d) at 2 3. intros items. revert n d.
  induction items as [|item items IH]; intros n d Eo Hw Hr Hs -> Hsz.
  - exists d. split_and!; [done|done|unfold db_view; by rewrite Eo|simpl; intros; lia].
  - pose proof (size_apply_view item (_db d)) as Hsz'. simpl in Hsz.
    destruct (worker_iteration item items d) as (d1 & E1 & Edb & Eop & Hs1 & Ho & Hw1 & Hr1);
      [done..|lia|].
    destruct (IH (length items) d1) as (d2 & E2 & E2o & E2d & E2b); try done; [rewrite Edb; lia|].
    assert (db_view d1 = db_view d) as Hv by (unfold db_view; by rewrite Edb, Eop, Eo).
    exists d2. cbn [worker_steps length]. rewrite E1, ok_bind. split_and!; [done|done|by rewrite <-Hv|].
    intros _. rewrite <-Hv. destruct items as [|it2 items]; [|apply E2b; simpl; lia].
    simpl in E2. injection E2 as <-. rewrite Ho. unfold db_view. by rewrite Eop.
Qed.
(** The worker never changes the abstract content. *)
Lemma worker_view pc d pc' d' :
  db_wf d -> redis_wf d -> worker_step pc d = Ok (pc', d') ->
  db_view d' = db_view d /\ db_wf d' /\ redis_wf d'.
Proof.
  intros Hw Hr H.
  assert (forall d1, serial d = Ok d1 -> db_view d1 = db_view d /\ db_wf d1 /\ redis_wf d1) as Hser.
  { intros d1 (E1 & E2 & _ & E4)%serial_frame. unfold db_view, db_wf, redis_wf.
    by rewrite E1, E2, E4. }
  assert (forall o, match _op_stack d with
      | [] => Ok (WorkerWait, d)
      | _ :: _ => d1 ← operate_front d; d1 ← serial d1; Ok (WorkerLoop, d1) end = Ok o ->
    db_view o.2 = db_view d /\ db_wf o.2 /\ redis_wf o.2) as Hproc.
  { intros o Ho. destruct (_op_stack d) as [|item items] eqn:Eo; [by injection Ho as <-|].
    destruct (operate_front_spec item items d Hw Hr Eo) as (r & E & Hst).
    rewrite E, ok_bind in Ho. apply outcome_bind_Ok in Ho as (d1 & E1 & [= <-]).
    apply serial_frame in E1 as (Ed & Es & _ & Er). simpl in Ed, Es, Er.
    unfold db_view, db_wf, redis_wf. simpl. rewrite Ed, Es, Er, Hst, Eo.
    split_and!; [done|by apply apply_view_wf|done]. }
  unfold worker_step in H. destruct pc; [destruct (_started d)..|].
  - exact (Hproc _ H).
  - by injection H as <- <-.
  - exact (Hproc _ H).
  - apply outcome_bind_Ok in H as (d1 & E1 & [= <- <-]). by apply Hser.
  - by injection H as <- <-.
Qed.

(** After every step of the worker the list is up to date with the map. *)
Lemma worker_current pc d pc' d' : list_current d -> worker_step pc d = Ok (pc', d') -> list_current d'.
Proof.
  intros Hc H.
  assert (forall o, match _op_stack d with
      | [] => Ok (WorkerWait, d)
      | _ :: _ => d1 ← operate_front d; d1 ← serial d1; Ok (WorkerLoop, d1) end = Ok o ->
    list_current o.2) as Hproc.
  { intros o Ho. destruct (_op_stack d); [by injection Ho as <-|].
    apply outcome_bind_Ok in Ho as (d1 & _ & Ho).
    apply outcome_bind_Ok in Ho as (d2 & E2 & [= <-]). by eapply serial_current. }
  unfold worker_step in H. destruct pc; [destruct (_started d)..|].
  - exact (Hproc _ H).
  - by injection H as <- <-.
  - exact (Hproc _ H).
  - apply outcome_bind_Ok in H as (d1 & E1 & [= <- <-]). by eapply serial_current.
  - by injection H as <- <-.
Qed.

Lemma worker_steps_inv n pc d pc' d' :
  db_wf d -> redis_wf d -> list_current d -> worker_steps n pc d = Ok (pc', d') ->
  db_wf d' /\ redis_wf d' /\ list_current d'.
Proof.
  revert pc d. induction n as [|n IH]; intros pc d Hw Hr Hc E; [by injection E as <- <-|].
  cbn [worker_steps] in E. apply outcome_bind_Ok in E as ([pc1 d1] & E1 & E).
  destruct (worker_view _ _ _ _ Hw Hr E1) as (_ & Hw1 & Hr1).
  apply (IH pc1 d1); eauto using worker_current.
Qed.
End worker_lemmas.

(** A client that decodes an up-to-date list gets the ids in the map. *)
Lemma current_ids d :
  db_wf d -> list_current d -> map_Forall (fun k _ => 0 ≤ k < 2 ^ 32) (_db d) ->
  (decode_sessions (output d)).*1 ≡ₚ (map_to_list (_db d)).*1.
Proof.
  intros Hw [[E1 E2]|(Hsz & IO & E)] Hr; unfold output; [by rewrite E1, E2, map_to_list_empty|].
  rewrite E. unfold decode_sessions, encode_sessions.
  rewrite byte_Z_byte, length_iter, Z.mod_small, Nat2Z.id by lia.
  rewrite <-length_iter, <-(app_nil_r (concat _)), decode_entries_ids.
  - rewrite iter_perm, <-list_fmap_compose. apply reflexive_eq, list_fmap_ext.
    intros j [k i] Hj. apply list_elem_of_lookup_2, elem_of_map_to_list in Hj. exact (Hw _ _ Hj).
  - rewrite Forall_forall. intros i. rewrite iter_perm, list_elem_of_fmap.
    intros ([k j] & -> & Hin%elem_of_map_to_list). simpl. rewrite (Hw _ _ Hin). exact (Hr _ _ Hin).
Qed.

(** ** The database implements the store

    Its background step is a step of the worker thread, for some iteration
    order of the hash map. *)
#[export] Instance CSessionDb_store : SessionStore CSessionDb :=
  {| st_add := add; st_del := del; st_output := output; st_view := db_view;
     st_bg d d' := exists (IO : IterOrder) pc pc', worker_step pc d = Ok (pc', d');
     st_inv d := db_wf d /\ redis_wf d /\ list_current d |}.

Lemma db_view_add i d : db_view (add i d) = insert_new i (db_view d).
Proof. unfold db_view, add. simpl. by rewrite foldl_app. Qed.

Lemma db_view_del id d : db_view (del id d) = delete id (db_view d).
Proof. unfold db_view, del. simpl. by rewrite foldl_app. Qed.

#[export] Instance CSessionDb_store_laws : SessionStoreLaws CSessionDb.
Proof.
  split; [exact db_view_add|exact db_view_del|done|done|].
  intros d d' (Hw & Hr & Hc) (IO & pc & pc' & E). simpl.
  destruct (worker_view pc d pc' d' Hw Hr E) as (? & ? & ?).
  split_and!; try done. by eapply worker_current.
Qed.

(** ** Properties *)

(** Refinement: whatever the worker thread does (apply an operation,
    refresh the list, block, wake up, exit), the abstract content of the
    database does not change, and its well-formedness is kept; only [add] and
    [del] change the content, as insertion of a new id and removal of an id. *)
Theorem worker_refines {IO : IterOrder} pc d pc' d' :
  db_wf d -> redis_wf d -> worker_step pc d = Ok (pc', d') ->
  db_view d' = db_view d /\ db_wf d' /\ redis_wf d' /\
  (forall i, db_view (add i d) = insert_new i (db_view d)) /\
  (forall id, db_view (del id d) = delete id (db_view d)).
Proof.
  intros Hw Hr H. destruct (worker_view pc d pc' d' Hw Hr H) as (? & ? & ?).
  split_and!; [done..| |]; intros; [apply db_view_add|apply db_view_del].
Qed.

(** A concrete iteration order, for the examples. *)
Definition iter_by_key : IterOrder :=
  {| iter m := (map_to_list m).*2; iter_perm m := reflexivity _ |}.

Definition demo_info (id : Z) : SSessionInfo :=
  {| uiId := id; uiAddr := 16777343; sGuid := lit "g" |}.
Definition demo_db (n : nat) : CSessionDb :=
  foldl (fun d k => add (demo_info (1000 + Z.of_nat k)) d) (start (new_db [])) (seq 0 n).

Definition demo_step : worker_pc * CSessionDb :=
  from_ok (WorkerExit, new_db []) (worker_step (IO := iter_by_key) WorkerLoop (demo_db 2)).

Lemma worker_refines_witness : db_view demo_step.2 = db_view (demo_db 2).
Proof.
  refine (proj1 (worker_refines (IO := iter_by_key) WorkerLoop (demo_db 2)
                   demo_step.1 demo_step.2 _ _ _)); [done|done|].
  vm_compute. reflexivity.
Defined.

(** Progress and eventual consistency: a worker that finds [n > 0]
    operations queued needs [n] iterations to apply them all; then the map is
    the abstract content, and the published list is its encoding.  (The size
    bound is the one under which the list fits its buffer, see C20.) *)
Theorem worker_reaches_view {IO : IterOrder} n d :
  db_wf d -> redis_wf d -> _started d = true -> n = length (_op_stack d) -> (0 < n)%nat ->
  (size (_db d) + n ≤ 255)%nat ->
  exists d', worker_steps n WorkerLoop d = Ok (WorkerLoop, d') /\
    _op_stack d' = [] /\ _db d' = db_view d /\
    output d' = encode_sessions (iter (db_view d)).
Proof.
  intros Hw Hr Hs Hn H0 Hsz.
  destruct (worker_drains n d Hw Hr Hs Hn Hsz) as (d' & E & Eo & Ed & Eb).
  exists d'. by split_and!; auto.
Qed.

Lemma worker_reaches_view_witness :
  exists d', worker_steps (IO := iter_by_key) 3 WorkerLoop (del 1000 (demo_db 2))
             = Ok (WorkerLoop, d') /\
    _op_stack d' = [] /\ _db d' = db_view (del 1000 (demo_db 2)) /\
    output d' = encode_sessions (iter (IterOrder := iter_by_key) (db_view (del 1000 (demo_db 2)))).
Proof.
  apply (worker_reaches_view (IO := iter_by_key));
    [done|done|reflexivity|reflexivity|lia|vm_compute; lia].
Defined.

(** C27. The published list is correct: with at most 255 proxies in the map,
    [serial] succeeds, and a client that decodes the list gets exactly the ids
    and addresses of the map, each once. *)
Theorem serial_roundtrip {IO : IterOrder} d :
  (size (_db d) ≤ 255)%nat -> map_Forall (fun _ i => info_wf i) (_db d) ->
  exists d', serial d = Ok d' /\
    decode_sessions (output d') ≡ₚ (fun ki => (uiId ki.2, uiAddr ki.2)) <$> map_to_list (_db d).
Proof.
  intros Hsz Hw. destruct (serial_Ok d) as (b & n & ->); [by rewrite length_iter|].
  eexists. split; [done|]. unfold output, decode_sessions, encode_sessions, set_buff.
  cbn [_out_buff]. rewrite byte_Z_byte, length_iter, Z.mod_small, Nat2Z.id by lia.
  rewrite <-length_iter, <-(app_nil_r (concat _)), decode_entries_entries.
  - rewrite iter_perm, <-list_fmap_compose. done.
  - rewrite Forall_forall. intros i. rewrite iter_perm, list_elem_of_fmap.
    intros ([k j] & -> & Hin%elem_of_map_to_list). exact (Hw _ _ Hin).
Qed.

Lemma serial_roundtrip_witness :
  exists d', serial (IO := iter_by_key) (set_db {[1000 := demo_info 1000]} (new_db [])) = Ok d' /\
    decode_sessions (output d') ≡ₚ (fun ki => (uiId ki.2, uiAddr ki.2)) <$>
      map_to_list ({[1000 := demo_info 1000]} : gmap Z SSessionInfo).
Proof.
  refine (serial_roundtrip (IO := iter_by_key)
            (set_db {[1000 := demo_info 1000]} (new_db [])) _ _).
  - vm_compute. lia.
  - intros k i Hk. simpl in Hk. apply lookup_singleton_Some in Hk as [_ <-].
    unfold info_wf. simpl. lia.
Defined.

(** C36. From 256 proxies on, [serial] overruns [_buff]: the 8-bit counter
    wraps instead of reaching the intended limit of 256 entries, and the last
    entry the length test admits ends one byte past the buffer. *)
Theorem serial_overflow {IO : IterOrder} d :
  (256 ≤ size (_db d))%nat -> serial d = UB out_of_bounds_write.
Proof. intros H. apply serial_UB. by rewrite length_iter. Qed.

Definition big_map : gmap Z SSessionInfo :=
  list_to_map ((fun k => (Z.of_nat k, demo_info (Z.of_nat k))) <$> seq 0 256).

Lemma serial_overflow_witness :
  serial (IO := iter_by_key) (set_db big_map (new_db [])) = UB out_of_bounds_write.
Proof.
  apply (serial_overflow (IO := iter_by_key)).
  apply Nat.leb_le. vm_compute. reflexivity.
Defined.
