(* ===== verification/DbMonitor.v ===== *)
(** * The session database as a monitor

    [SessionDb.v] gives the worker thread one step per iteration.  Here its
    loop ([CSessionDb::worker], [operate], [serial]) is interleaved, lock
    operation by lock operation, with any number of session threads that call
    [add], [del] and [stop]: [_op_mutex] with its owner, the wait set of
    [_op_cond], the window between [push_back] and [notify_all], and the flag
    [_started], which [stop] clears without the mutex.

    A monitor carries a history variable, the operations in the order in which
    they were pushed; no step of the program reads it. *)
From stdpp Require Import relations.
From S2P Require Import Prelude Protocol RedisClient RedisAsync SessionStore SessionDb.

(** ** State *)

(** Where the worker thread is; from [WTest], [WRecheck] and [WApply] it holds
    [_op_mutex]. *)
Inductive wpc :=
| WHead    (* while(_started) *)
| WLock    (* scoped_lock lk(_op_mutex) *)
| WTest    (* while (_op_stack.empty()) *)
| WSleep   (* in the wait set of _op_cond, the mutex released *)
| WWoken   (* out of the wait set, acquiring the mutex again *)
| WRecheck (* if (!_started) *)
| WApply   (* the switch and pop_front() *)
| WSerial  (* serial() *)
| WExit.

(** Where a session thread is. *)
Inductive tpc :=
| TIdle
| TLock (item : OperationItem)  (* scoped_lock lk(_op_mutex) *)
| TPush (item : OperationItem)  (* holds it: push_back(item) *)
| TNotify                       (* _op_cond.notify_all() *)
| TStopTest                     (* if (_started) *)
| TStopFlag                     (* _started = false *)
| TStopRedis.                   (* _redis.disconnect() *)

Inductive owner := ByWorker | ByThread (i : nat).

Record monitor := Monitor {
  m_db : CSessionDb;
  m_worker : wpc;
  m_mutex : option owner;
  m_threads : list tpc;
  m_history : list OperationItem
}.

(** What a thread calls. *)
Inductive call := CallAdd (i : SSessionInfo) | CallDel (id : Z) | CallStop.

Definition call_entry (c : call) : tpc :=
  match c with
  | CallAdd i => TLock {| op := OPT.ADD; info := i |}
  | CallDel id => TLock {| op := OPT.DEL; info := {| uiId := id; uiAddr := 0; sGuid := [] |} |}
  | CallStop => TStopTest
  end.

Definition push (item : OperationItem) (d : CSessionDb) : CSessionDb :=
  set_op_stack (_op_stack d ++ [item]) d.

(** [notify_all]: whoever is in the wait set leaves it. *)
Definition notify (w : wpc) : wpc := match w with WSleep => WWoken | w => w end.

(** The moves: the worker, a thread inside a call, a spurious wake-up of
    [wait], a thread entering a call, and an I/O thread running a handler of
    the redis client (which never subscribes). *)
Inductive move :=
| Worker
| Thread (i : nat)
| Spurious
| Call (i : nat) (c : call)
| Redis (r : RedisClientImpl db_handler Empty_set).

Section monitor.
Context {IO : IterOrder}.

(** [None]: the worker is blocked or gone. *)
Definition worker_move (m : monitor) : option (outcome monitor) :=
  let '(Monitor d w mu ts h) := m in
  match w with
  | WHead => Some (Ok (Monitor d (if _started d then WLock else WExit) mu ts h))
  | WLock => if mu is None then Some (Ok (Monitor d WTest (Some ByWorker) ts h)) else None
  | WTest =>
      Some (Ok (match _op_stack d with
                | [] => Monitor d WSleep None ts h
                | _ :: _ => Monitor d WApply mu ts h end))
  | WSleep => None
  | WWoken => if mu is None then Some (Ok (Monitor d WRecheck (Some ByWorker) ts h)) else None
  | WRecheck =>
      Some (Ok (if _started d then Monitor d WTest mu ts h else Monitor d WSerial None ts h))
  | WApply => Some (d ← operate_front d; Ok (Monitor d WSerial None ts h))
  | WSerial => Some (d ← serial d; Ok (Monitor d WHead mu ts h))
  | WExit => None
  end.

Definition thread_move (i : nat) (m : monitor) : option monitor :=
  let '(Monitor d w mu ts h) := m in
  pc ← ts !! i;
  match pc with
  | TIdle => None
  | TLock item =>
      if mu is None then Some (Monitor d w (Some (ByThread i)) (<[i := TPush item]> ts) h) else None
  | TPush item => Some (Monitor (push item d) w None (<[i := TNotify]> ts) (h ++ [item]))
  | TNotify => Some (Monitor d (notify w) mu (<[i := TIdle]> ts) h)
  | TStopTest => Some (Monitor d w mu (<[i := if _started d then TStopFlag else TIdle]> ts) h)
  | TStopFlag => Some (Monitor (set_started false d) w mu (<[i := TStopRedis]> ts) h)
  | TStopRedis => Some (Monitor (set_redis (disconnect (_redis d)) d) w mu (<[i := TNotify]> ts) h)
  end.

Definition mon_step (e : move) (m : monitor) : option (outcome monitor) :=
  match e with
  | Worker => worker_move m
  | Thread i => Ok <$> thread_move i m
  | Spurious =>
      let '(Monitor d w mu ts h) := m in
      if w is WSleep then Some (Ok (Monitor d WWoken mu ts h)) else None
  | Call i c =>
      let '(Monitor d w mu ts h) := m in
      if ts !! i is Some TIdle then Some (Ok (Monitor d w mu (<[i := call_entry c]> ts) h)) else None
  | Redis r =>
      let '(Monitor d w mu ts h) := m in
      if decide (state r = Subscribed) then None else Some (Ok (Monitor (set_redis r d) w mu ts h))
  end.

(** After [start()], with [k] session threads. *)
Definition mon_init (k : nat) (passwd : bytes) : monitor :=
  Monitor (start (new_db passwd)) WHead None (replicate k TIdle) [].

Inductive mon_reach (k : nat) (passwd : bytes) : monitor -> Prop :=
| mon_reach_init : mon_reach k passwd (mon_init k passwd)
| mon_reach_step e m m' :
    mon_reach k passwd m -> mon_step e m = Some (Ok m') -> mon_reach k passwd m'.

Fixpoint mon_run (es : list move) (m : monitor) : option monitor :=
  match es with
  | [] => Some m
  | e :: es => o ← mon_step e m; if o is Ok m then mon_run es m else None
  end.

Lemma mon_run_reach k passwd es m m' :
  mon_reach k passwd m -> mon_run es m = Some m' -> mon_reach k passwd m'.
Proof.
  revert m. induction es as [|e es IH]; intros m Hr E; simpl in E; [by injection E as <-|].
  destruct (mon_step e m) as [[m1| |]|] eqn:Em; try done. simpl in E. eauto using mon_reach_step.
Qed.

(** The moves of the program itself: no new call, no spurious wake-up. *)
Definition own (e : move) : bool :=
  match e with Worker | Thread _ => true | _ => false end.

(** Nobody can move: the calls have returned, the worker sleeps or is gone. *)
Definition settled (m : monitor) : Prop := forall e, own e = true -> mon_step e m = None.

(** The content after a history of operations. *)
Definition view_of (h : list OperationItem) : gmap Z SSessionInfo :=
  foldl (fun m item => apply_view item m) ∅ h.

(** [output()] is the list of the servers after [n] of the operations. *)
Definition published_at (n : nat) (m : monitor) : Prop :=
  _out_buff (m_db m) = encode_sessions (iter (view_of (take n (m_history m)))).

(** No more servers at a time than the list has room for. *)
Definition fits (h : list OperationItem) : Prop :=
  forall n, (size (view_of (take n h)) ≤ 255)%nat.
End monitor.

(** ** Invariant *)

Definition holds_mutex (w : wpc) : bool :=
  match w with WTest | WRecheck | WApply => true | _ => false end.

Definition holds_lock (pc : tpc) : bool := if pc is TPush _ then true else false.

Record mutex_inv (w : wpc) (mu : option owner) (ts : list tpc) : Prop := {
  mx_worker : mu = Some ByWorker <-> holds_mutex w = true;
  mx_thread i : mu = Some (ByThread i) <-> holds_lock <$> ts !! i = Some true
}.

(** [k] operations are applied, the others queued, [n] of them published. *)
Definition content_inv `{IterOrder} (m : monitor) : Prop :=
  exists k n, (n <= k <= length (m_history m))%nat /\
    _op_stack (m_db m) = drop k (m_history m) /\ _db (m_db m) = view_of (take k (m_history m)) /\
    (_out_buff (m_db m) = [] \/ published_at n m) /\
    (m_worker m <> WSerial -> (0 < k)%nat -> published_at k m).

Definition wake_inv (m : monitor) : Prop :=
  match m_worker m with
  | WSleep => _op_stack (m_db m) = [] \/ exists i, m_threads m !! i = Some TNotify
  | WApply => _op_stack (m_db m) <> []
  | WExit => _started (m_db m) = false
  | _ => True
  end.

Record mon_inv `{IterOrder} (m : monitor) : Prop := {
  mi_mutex : mutex_inv (m_worker m) (m_mutex m) (m_threads m);
  mi_wf : db_wf (m_db m) /\ redis_wf (m_db m);
  mi_content : content_inv m;
  mi_wake : wake_inv m
}.

Section invariant.
Context {IO : IterOrder}.

(** The worker acquires, keeps or releases the mutex. *)
Lemma mutex_inv_worker w w' mu mu' ts :
  mutex_inv w mu ts ->
  (mu' = mu /\ holds_mutex w' = holds_mutex w) \/
  (mu = None /\ mu' = Some ByWorker /\ holds_mutex w' = true) \/
  (holds_mutex w = true /\ mu' = None /\ holds_mutex w' = false) ->
  mutex_inv w' mu' ts.
Proof.
  intros [Hw Ht] [[-> E]|[(-> & -> & E)|(E & -> & E')]]; split.
  - by rewrite E.
  - exact Ht.
  - done.
  - intros i. split; [done|]. intros Hi. by apply Ht in Hi.
  - by rewrite E'.
  - intros i. split; [done|]. intros Hi. apply Ht in Hi. apply Hw in E. congruence.
Qed.

(** So does a thread. *)
Lemma mutex_inv_thread w mu mu' ts i pc pc' :
  mutex_inv w mu ts -> ts !! i = Some pc ->
  match holds_lock pc, holds_lock pc' with
  | true, true => False
  | true, false => mu' = None
  | false, true => mu = None /\ mu' = Some (ByThread i)
  | false, false => mu' = mu
  end -> mutex_inv w mu' (<[i := pc']> ts).
Proof.
  intros [Hw Ht] Ei Hm. pose proof (Ht i) as Hi. rewrite Ei in Hi. simpl in Hi.
  assert (i < length ts)%nat as Hl by by eapply lookup_lt_Some.
  assert (forall j, holds_lock <$> <[i := pc']> ts !! j = Some true <->
    (j = i /\ holds_lock pc' = true) \/ (j <> i /\ mu = Some (ByThread j))) as Hins.
  { intros j. destruct (decide (i = j)) as [<-|].
    - rewrite list_lookup_insert_eq by done. simpl. split; [intros [= ?]; auto|].
      intros [[_ ->]|[? _]]; done.
    - rewrite list_lookup_insert_ne, <-Ht by done. naive_solver. }
  destruct (holds_lock pc), (holds_lock pc'); try done; split; try intros j; rewrite ?Hins;
    [subst mu'|subst mu'|destruct Hm as [-> ->]|destruct Hm as [-> ->]|subst mu'|subst mu'];
    naive_solver.
Qed.

(** Applying the front operation is the next one of the history. *)
Lemma view_of_next h k item items :
  drop k h = item :: items ->
  view_of (take (S k) h) = apply_view item (view_of (take k h)) /\ items = drop (S k) h /\
  (k < length h)%nat.
Proof.
  intros E.
  assert (h !! k = Some item) as Hk.
  { rewrite <-(Nat.add_0_r k), <-lookup_drop, E. done. }
  split_and!; [|by rewrite (drop_S h item k Hk) in E; injection E|by eapply lookup_lt_Some].
  unfold view_of. rewrite (take_S_r _ _ _ Hk), foldl_app. done.
Qed.

(** Steps that leave the database alone, but for the redis client and the
    flag. *)
Lemma content_frame m m' :
  content_inv m ->
  _op_stack (m_db m') = _op_stack (m_db m) -> _db (m_db m') = _db (m_db m) ->
  _out_buff (m_db m') = _out_buff (m_db m) -> m_history m' = m_history m ->
  (m_worker m' <> WSerial -> m_worker m <> WSerial) -> content_inv m'.
Proof.
  intros (k & n & Hkn & Ho & Hd & Hp & Hq) Eo Ed Eb Eh Hw. exists k, n.
  unfold published_at in *. rewrite Eo, Ed, Eb, Eh. split_and!; auto; lia.
Qed.

Lemma content_push item d w mu mu' ts ts' h :
  content_inv (Monitor d w mu ts h) -> content_inv (Monitor (push item d) w mu' ts' (h ++ [item])).
Proof.
  intros (k & n & Hkn & Ho & Hd & Hp & Hq). simpl in *. exists k, n. unfold published_at in *. simpl in *.
  rewrite length_app. simpl. rewrite drop_app_le, !take_app_le by lia. rewrite Ho.
  split_and!; auto; lia.
Qed.

Lemma content_apply d d' mu mu' ts h :
  db_wf d -> redis_wf d -> content_inv (Monitor d WApply mu ts h) -> operate_front d = Ok d' ->
  db_wf d' /\ redis_wf d' /\ _started d' = _started d /\ content_inv (Monitor d' WSerial mu' ts h).
Proof.
  intros Hw Hr (k & n & Hkn & Ho & Hd & Hp & Hq) E. simpl in *.
  destruct (_op_stack d) as [|item items] eqn:Es; [unfold operate_front in E; by rewrite Es in E|].
  destruct (operate_front_spec item items d Hw Hr Es) as (r & E' & Hst).
  rewrite E' in E. injection E as <-.
  destruct (view_of_next h k item items (eq_sym Ho)) as (Hv & -> & Hk).
  unfold db_wf, redis_wf. simpl. rewrite Hst. split_and!; [by apply apply_view_wf|done|done|].
  exists (S k), n. unfold published_at in *. simpl in *. rewrite Hv, Hd.
  split_and!; [lia..|done|done|done|done].
Qed.

Lemma content_serial d d' mu ts h :
  content_inv (Monitor d WSerial mu ts h) -> serial d = Ok d' ->
  _db d' = _db d /\ _redis d' = _redis d /\ _op_stack d' = _op_stack d /\
  _started d' = _started d /\ content_inv (Monitor d' WHead mu ts h).
Proof.
  intros (k & n & Hkn & Ho & Hd & Hp & Hq) E. simpl in *.
  destruct (serial_frame d d' E) as (Fd & Fo & Fs & Fr). split_and!; try done.
  destruct (decide (length (iter (_db d)) ≤ 255)%nat) as [Hl|Hl];
    [|rewrite serial_UB in E by lia; done].
  destruct (serial_Ok d Hl) as (b & z & E'). rewrite E' in E. injection E as <-.
  exists k, k. unfold published_at. simpl. rewrite Hd. split_and!; auto; lia.
Qed.

Lemma mon_inv_init k passwd : mon_inv (mon_init k passwd).
Proof.
  split; simpl.
  - split; [done|]. intros i. destruct (replicate k TIdle !! i) as [pc|] eqn:E; simpl; [|done].
    apply lookup_replicate in E as [-> _]. done.
  - done.
  - exists 0%nat, 0%nat. simpl. split_and!; auto; lia.
  - done.
Qed.

Lemma worker_move_inv m m' : mon_inv m -> worker_move m = Some (Ok m') -> mon_inv m'.
Proof.
  destruct m as [d w mu ts h]. intros [Hmx [Hw Hr] Hc Hwk] E. unfold wake_inv in Hwk.
  destruct w; simpl in *.
  - injection E as <-. split; simpl; [|done|by eapply content_frame|].
    + eapply mutex_inv_worker; [done|left]. by destruct (_started d).
    + unfold wake_inv. simpl. by destruct (_started d) eqn:Es.
  - destruct mu; [done|]. injection E as <-. split; [|done|by eapply content_frame|done].
    eapply mutex_inv_worker; [done|right; left]. done.
  - injection E as <-. destruct (_op_stack d) eqn:Es; (split; [|done|by eapply content_frame|]).
    + eapply mutex_inv_worker; [done|right; right]. done.
    + unfold wake_inv. simpl. auto.
    + eapply mutex_inv_worker; [done|left]. done.
    + unfold wake_inv. simpl. by rewrite Es.
  - done.
  - destruct mu; [done|]. injection E as <-. split; [|done|by eapply content_frame|done].
    eapply mutex_inv_worker; [done|right; left]. done.
  - injection E as <-. destruct (_started d); (split; [|done|by eapply content_frame|done]).
    + eapply mutex_inv_worker; [done|left]. done.
    + eapply mutex_inv_worker; [done|right; right]. done.
  - injection E as E. apply outcome_bind_Ok in E as (d1 & E1 & [= <-]).
    destruct (content_apply d d1 mu None ts h Hw Hr Hc E1) as (? & ? & _ & ?).
    split; [|done|done|done]. eapply mutex_inv_worker; [done|right; right]. done.
  - injection E as E. apply outcome_bind_Ok in E as (d1 & E1 & [= <-]).
    destruct (content_serial d d1 mu ts h Hc E1) as (Ed & Er & _ & _ & ?).
    split; [|unfold db_wf, redis_wf; simpl; by rewrite Ed, Er|done|done].
    eapply mutex_inv_worker; [done|left]. done.
  - done.
Qed.

(** A thread that moves keeps a pending [notify_all] pending, unless it is its
    own, which empties the wait set. *)
Lemma wake_thread d d' w mu mu' ts h h' i pc pc' :
  wake_inv (Monitor d w mu ts h) -> ts !! i = Some pc -> pc <> TNotify ->
  (_op_stack d' = _op_stack d \/ (_op_stack d' <> [] /\ pc' = TNotify)) ->
  (_started d' = _started d \/ _started d' = false) ->
  wake_inv (Monitor d' w mu' (<[i := pc']> ts) h').
Proof.
  intros Hwk Ei Hn Ho Hs. unfold wake_inv in *. simpl in *.
  assert (i < length ts)%nat by by eapply lookup_lt_Some.
  destruct w; try done.
  - destruct Ho as [->|[_ ->]].
    + destruct Hwk as [?|[j Ej]]; [by left|right; exists j].
      rewrite list_lookup_insert_ne by congruence. done.
    + right. exists i. by rewrite list_lookup_insert_eq.
  - destruct Ho as [->|[? _]]; done.
  - destruct Hs as [->|?]; done.
Qed.

Lemma thread_move_inv i m m' : mon_inv m -> thread_move i m = Some m' -> mon_inv m'.
Proof.
  destruct m as [d w mu ts h]. intros [Hmx [Hw Hr] Hc Hwk] E. simpl in *.
  destruct (ts !! i) as [pc|] eqn:Ei; [|done]. simpl in E. destruct pc.
  - done.
  - destruct mu; [done|]. injection E as <-.
    split; [by eapply mutex_inv_thread|done|by eapply content_frame|eapply wake_thread; eauto; done].
  - injection E as <-.
    split; [by eapply mutex_inv_thread|done|by eapply content_push|].
    eapply wake_thread; [exact Hwk|exact Ei|done|right; simpl; by destruct (_op_stack d)|by left].
  - injection E as <-. split; [|done|eapply content_frame; try done; by destruct w|].
    + eapply mutex_inv_worker; [by eapply mutex_inv_thread|left]. by destruct w.
    + unfold wake_inv in *. by destruct w.
  - injection E as <-. split; [|done|by eapply content_frame|eapply wake_thread; eauto; done].
    eapply mutex_inv_thread; [done..|]. by destruct (_started d).
  - injection E as <-.
    split; [by eapply mutex_inv_thread|done|by eapply content_frame|eapply wake_thread; eauto; done].
  - injection E as <-.
    split; [by eapply mutex_inv_thread|split; [done|]|by eapply content_frame|eapply wake_thread; eauto; done].
    unfold redis_wf, disconnect, close. simpl. case_decide; [done|]. discriminate.
Qed.

Lemma mon_step_inv e m m' : mon_inv m -> mon_step e m = Some (Ok m') -> mon_inv m'.
Proof.
  intros Hi E. destruct e as [|i| |i c|r]; simpl in E.
  - by eapply worker_move_inv.
  - destruct (thread_move i m) as [m1|] eqn:Et; [|done]. injection E as <-. by eapply thread_move_inv.
  - destruct m as [d w mu ts h], w; try done. injection E as <-. destruct Hi as [Hmx Hw Hc Hwk].
    split; [|done|by eapply content_frame|done]. eapply mutex_inv_worker; [done|left]. done.
  - destruct m as [d w mu ts h], (ts !! i) as [[]|] eqn:Ei; try done. injection E as <-.
    destruct Hi as [Hmx Hw Hc Hwk].
    split; [|done|by eapply content_frame|eapply wake_thread; eauto; done].
    eapply mutex_inv_thread; [done..|]. by destruct c.
  - destruct m as [d w mu ts h]. case_decide as Hr; [done|]. injection E as <-.
    destruct Hi as [Hmx [Hw _] Hc Hwk]. split; [done|done|by eapply content_frame|done].
Qed.

Lemma mon_reach_inv k passwd m : mon_reach k passwd m -> mon_inv m.
Proof. induction 1; eauto using mon_inv_init, mon_step_inv. Qed.

(** ** Termination *)

(** A bound on the moves that are left: each queued operation costs the worker
    one iteration, each call its own steps and one wake-up. *)
Definition worker_weight (w : wpc) : nat :=
  match w with
  | WHead => 3 | WLock => 2 | WTest => 1 | WSleep => 0 | WWoken => 6 | WRecheck => 5
  | WApply => 0 | WSerial => 4 | WExit => 0
  end.
Definition thread_weight (pc : tpc) : nat :=
  match pc with
  | TIdle => 0 | TLock _ => 14 | TPush _ => 13 | TNotify => 7 | TStopTest => 10
  | TStopFlag => 9 | TStopRedis => 8
  end.
Definition weight (m : monitor) : nat :=
  worker_weight (m_worker m) + 5 * length (_op_stack (m_db m)) +
  sum_list_with thread_weight (m_threads m).

Lemma sum_insert (f : tpc -> nat) ts i pc pc' :
  ts !! i = Some pc ->
  (sum_list_with f (<[i := pc']> ts) + f pc = sum_list_with f ts + f pc')%nat.
Proof.
  revert i. induction ts as [|x ts IH]; intros [|i] E; simpl in *; [done|done|injection E as ->; lia|].
  specialize (IH i E). lia.
Qed.

Lemma own_move_weight e m m' :
  mon_inv m -> own e = true -> mon_step e m = Some (Ok m') -> (weight m' < weight m)%nat.
Proof.
  destruct m as [d w mu ts h]. intros Hi He E. destruct e as [|i| | |]; try done; simpl in E; unfold weight.
  - destruct w; simpl in *; try done.
    + injection E as <-. destruct (_started d); simpl; lia.
    + destruct mu; [done|]. injection E as <-. simpl. lia.
    + injection E as <-. destruct (_op_stack d) eqn:Es; simpl; rewrite Es; simpl; lia.
    + destruct mu; [done|]. injection E as <-. simpl. lia.
    + injection E as <-. destruct (_started d); simpl; lia.
    + injection E as E. apply outcome_bind_Ok in E as (d1 & E1 & [= <-]). simpl.
      pose proof (mi_wf _ Hi) as [Hw Hr]. pose proof (mi_wake _ Hi) as Hwk. unfold wake_inv in Hwk. simpl in *.
      destruct (_op_stack d) as [|item items] eqn:Es; [done|].
      destruct (operate_front_spec item items d Hw Hr Es) as (r & E' & _).
      rewrite E' in E1. injection E1 as <-. simpl. lia.
    + injection E as E. apply outcome_bind_Ok in E as (d1 & E1 & [= <-]). simpl.
      destruct (serial_frame d d1 E1) as (_ & -> & _). lia.
  - destruct (ts !! i) as [pc|] eqn:Ei; simpl in E; [|done].
    destruct pc; try done; [destruct mu; [done|]|..]; injection E as <-; simpl;
      match goal with |- context [ <[i := ?p]> ts ] => pose proof (sum_insert thread_weight ts i _ p Ei) as Hs end;
      rewrite ?length_app; simpl in *; try lia.
    + destruct w; simpl in *; lia.
    + destruct (_started d); simpl in *; lia.
Qed.

(** ** Progress *)

Lemma serial_fits d mu ts h :
  content_inv (Monitor d WSerial mu ts h) -> fits h -> exists d', serial d = Ok d'.
Proof.
  intros (k & n & _ & _ & Hd & _) Hf. simpl in Hd.
  destruct (serial_Ok d) as (b & z & E); [rewrite length_iter, Hd; apply Hf|]. eauto.
Qed.

(** Every move of the program succeeds. *)
Lemma own_move_Ok e m o :
  mon_inv m -> fits (m_history m) -> own e = true -> mon_step e m = Some o -> exists m', o = Ok m'.
Proof.
  destruct m as [d w mu ts h]. intros Hi Hf He E. destruct e as [|i| | |]; try done; simpl in E.
  - destruct w; simpl in *; try (destruct mu; [done|]); try done; injection E as <-; eauto.
    + pose proof (mi_wf _ Hi) as [Hw Hr]. pose proof (mi_wake _ Hi) as Hwk. unfold wake_inv in Hwk. simpl in *.
      destruct (_op_stack d) as [|item items] eqn:Es; [done|].
      destruct (operate_front_spec item items d Hw Hr Es) as (r & -> & _). rewrite ok_bind. eauto.
    + destruct (serial_fits d mu ts h (mi_content _ Hi) Hf) as (d' & ->). rewrite ok_bind. eauto.
  - match type of E with context [?x ≫= ?f] => destruct (x ≫= f) end; simpl in E; [|done].
    injection E as <-. eauto.
Qed.

(** Where nobody can move, every call has returned and the worker sleeps or is
    gone. *)
Lemma settled_idle m :
  mon_inv m -> settled m ->
  (forall i pc, m_threads m !! i = Some pc -> pc = TIdle) /\
  (m_worker m = WSleep \/ m_worker m = WExit).
Proof.
  destruct m as [d w mu ts h]. intros Hi Hs. simpl in *.
  pose proof (mi_mutex _ Hi) as [Hmw Hmt]. simpl in *.
  pose proof (Hs Worker eq_refl) as Hw. simpl in Hw.
  assert (forall i pc, ts !! i = Some pc -> mu = None \/ (exists item, pc = TLock item) \/ pc = TIdle) as Ht.
  { intros i pc Ei. specialize (Hs (Thread i) eq_refl). simpl in Hs. rewrite Ei in Hs. simpl in Hs.
    destruct pc; try done; eauto. }
  assert (mu = None) as ->.
  { destruct mu as [[|i]|]; [| |done].
    - destruct w; try done; by pose proof (proj1 Hmw eq_refl).
    - pose proof (proj1 (Hmt i) eq_refl) as Hh. destruct (ts !! i) as [pc|] eqn:Ei; [|done].
      destruct (Ht i pc Ei) as [?|[[? ->]| ->]]; done. }
  split; [|destruct w; auto; done].
  intros i pc Ei. specialize (Hs (Thread i) eq_refl). simpl in Hs. rewrite Ei in Hs. simpl in Hs.
  by destruct pc.
Qed.

Lemma mon_run_weight es m m' :
  mon_inv m -> forallb own es = true -> mon_run es m = Some m' ->
  (length es + weight m' <= weight m)%nat.
Proof.
  revert m. induction es as [|e es IH]; intros m Hi Ho E; simpl in *; [injection E as ->; lia|].
  apply andb_true_iff in Ho as [He Ho].
  destruct (mon_step e m) as [[m1| |]|] eqn:Em; try done. simpl in E.
  pose proof (own_move_weight e m m1 Hi He Em).
  pose proof (IH m1 (mon_step_inv e m m1 Hi Em) Ho E). lia.
Qed.

(** Either somebody can move, or nobody. *)
Lemma settled_or_moves m :
  mon_inv m -> fits (m_history m) ->
  (exists e m', own e = true /\ mon_step e m = Some (Ok m')) \/ settled m.
Proof.
  intros Hi Hf.
  assert (forall e o, own e = true -> mon_step e m = Some o ->
    exists e m', own e = true /\ mon_step e m = Some (Ok m')) as Hmove.
  { intros e o He E. destruct (own_move_Ok e m o Hi Hf He E) as [m' ->]. eauto. }
  destruct (mon_step Worker m) as [o|] eqn:Ew; [left; by eapply (Hmove Worker)|].
  destruct (decide (Exists (fun i => is_Some (mon_step (Thread i) m)) (seq 0 (length (m_threads m)))))
    as [(i & _ & o & E)%Exists_exists|Hn]; [left; by eapply (Hmove (Thread i))|].
  right. intros [|i| | |] He; try done. destruct (mon_step (Thread i) m) eqn:Et; [|done].
  exfalso. apply Hn, Exists_exists. exists i. split; [|by rewrite Et].
  apply elem_of_seq. split; [lia|]. destruct m as [d w mu ts h]. simpl in *.
  destruct (ts !! i) eqn:Ei; [by apply lookup_lt_Some in Ei|done].
Qed.

(** A settled monitor that was not stopped has done everything. *)
Lemma settled_done m :
  mon_inv m -> settled m -> _started (m_db m) = true ->
  m_worker m = WSleep /\ _op_stack (m_db m) = [] /\ _db (m_db m) = view_of (m_history m) /\
  (m_history m <> [] -> output (m_db m) = encode_sessions (iter (view_of (m_history m)))).
Proof.
  intros Hi Hs Hst. destruct (settled_idle m Hi Hs) as [Ht Hw].
  pose proof (mi_wake _ Hi) as Hwk. unfold wake_inv in Hwk.
  destruct Hw as [Hw|Hw]; rewrite Hw in Hwk; [|congruence].
  assert (_op_stack (m_db m) = []) as Ho by (destruct Hwk as [?|[i Ei%Ht]]; done).
  destruct (mi_content _ Hi) as (k & n & Hkn & Hq & Hd & _ & Hp).
  assert (k = length (m_history m)) as ->.
  { rewrite Ho in Hq. apply (f_equal length) in Hq. rewrite length_drop in Hq. simpl in Hq. lia. }
  unfold published_at in Hp. rewrite take_ge in * by lia. split_and!; try done.
  intros Hne. apply Hp; [by rewrite Hw|]. by destruct (m_history m); simpl; [|lia].
Qed.
End invariant.

(** ** The abstract machine: a log of operations

    Operations are appended to a log; the map is a prefix of it, and the
    published list shows a prefix of that. *)
Record oplog := { ops : list OperationItem; applied : nat; shown : option nat }.

Inductive log_step : oplog -> oplog -> Prop :=
| log_push item l a s : log_step (Build_oplog l a s) (Build_oplog (l ++ [item]) a s)
| log_apply l a s : (a < length l)%nat -> log_step (Build_oplog l a s) (Build_oplog l (S a) s)
| log_show l a s : log_step (Build_oplog l a s) (Build_oplog l a (Some a)).

Definition log_init : oplog := Build_oplog [] 0 None.

Section refinement.
Context {IO : IterOrder}.

Definition shows (m : monitor) (l : oplog) : Prop :=
  ops l = m_history m /\ (applied l <= length (ops l))%nat /\
  _op_stack (m_db m) = drop (applied l) (ops l) /\ _db (m_db m) = view_of (take (applied l) (ops l)) /\
  output (m_db m) = (if shown l is Some n then encode_sessions (iter (view_of (take n (ops l)))) else []) /\
  (if shown l is Some n then (n <= applied l)%nat else True).

(** What a step of the log never takes back. *)
Definition later (l l' : oplog) : Prop :=
  ops l `prefix_of` ops l' /\ (applied l <= applied l')%nat /\
  match shown l with
  | None => True
  | Some n => exists n', shown l' = Some n' /\ (n <= n')%nat
  end.

(** Nothing is shown that is not applied. *)
Definition log_ok (l : oplog) : Prop := if shown l is Some n then (n <= applied l)%nat else True.

Lemma log_step_later l l' : log_ok l -> log_step l l' -> later l l' /\ log_ok l'.
Proof.
  intros Hok Hs. unfold later, log_ok in *.
  destruct Hs as [item l a s|l a s _|l a s]; simpl in *;
    (split; [split_and!; [try done; by apply prefix_app_r|lia|]|]); destruct s as [n|]; eauto; lia.
Qed.

Lemma later_refl l : later l l.
Proof. unfold later. split_and!; [done|lia|]. destruct (shown l); eauto. Qed.

Lemma later_trans l1 l2 l3 : later l1 l2 -> later l2 l3 -> later l1 l3.
Proof.
  unfold later. intros (P1 & A1 & S1) (P2 & A2 & S2). split_and!; [by etrans|lia|].
  destruct (shown l1) as [n|]; [|done]. destruct S1 as (n' & E & Hn). rewrite E in S2.
  destruct S2 as (n2 & ? & ?). exists n2. split; [done|lia].
Qed.

(** Every step is a step of the log, or none. *)
Lemma mon_step_log e m m' l :
  mon_inv m -> mon_step e m = Some (Ok m') -> shows m l ->
  exists l', (l' = l \/ log_step l l') /\ shows m' l'.
Proof.
  destruct m as [d w mu ts h], l as [lo a s].
  intros Hi E (Hh & Ha & Hq & Hd & Ho & Hn). simpl in *. subst lo.
  assert (forall d', _op_stack d' = _op_stack d -> _db d' = _db d -> _out_buff d' = _out_buff d ->
    forall w' mu' ts', exists l', (l' = Build_oplog h a s \/ log_step (Build_oplog h a s) l') /\
      shows (Monitor d' w' mu' ts' h) l') as Hsame.
  { intros d' E1 E2 E3 w' mu' ts'. exists (Build_oplog h a s). split; [by left|].
    unfold shows, output in *. simpl. rewrite E1, E2, E3. done. }
  destruct e as [|i| |i c|r]; simpl in E.
  - destruct w; try (injection E as E); try done.
    + subst m'. by destruct (_started d); apply Hsame.
    + destruct mu; [done|]. injection E as <-. by apply Hsame.
    + subst m'. by destruct (_op_stack d) eqn:Es; apply Hsame; rewrite ?Es.
    + destruct mu; [done|]. injection E as <-. by apply Hsame.
    + subst m'. by destruct (_started d); apply Hsame.
    + apply outcome_bind_Ok in E as (d1 & E1 & [= <-]).
      pose proof (mi_wf _ Hi) as [Hw Hr]. pose proof (mi_wake _ Hi) as Hwk. unfold wake_inv in Hwk. simpl in *.
      destruct (_op_stack d) as [|item items] eqn:Es; [done|].
      destruct (operate_front_spec item items d Hw Hr Es) as (r & E' & _). rewrite E' in E1. injection E1 as <-.
      destruct (view_of_next h a item items (eq_sym Hq)) as (Hv & -> & Hk).
      exists (Build_oplog h (S a) s). split; [right; by constructor|].
      unfold shows, output in *. simpl. rewrite Hv, Hd. split_and!; try done. destruct s; [lia|done].
    + apply outcome_bind_Ok in E as (d1 & E1 & [= <-]).
      destruct (serial_frame d d1 E1) as (Fd & Fo & Fs & Fr).
      destruct (decide (length (iter (_db d)) ≤ 255)%nat) as [Hl|Hl];
        [|rewrite serial_UB in E1 by lia; done].
      destruct (serial_Ok d Hl) as (b & z & E'). rewrite E' in E1. injection E1 as <-.
      exists (Build_oplog h a (Some a)). split; [right; constructor|].
      unfold shows, output in *. simpl. rewrite Hd. by split_and!.
  - destruct (ts !! i) as [[]|] eqn:Ei; simpl in E; try done;
      try (injection E as <-); try (by apply Hsame).
    + destruct mu; [done|]. injection E as <-. by apply Hsame.
    + exists (Build_oplog (h ++ [item]) a s). split; [right; constructor|].
      unfold shows, output in *. simpl. rewrite length_app. simpl.
      rewrite drop_app_le, take_app_le, <-Hq by lia. split_and!; try done; [lia|].
      destruct s as [n|]; [|done]. by rewrite take_app_le by lia.
  - destruct w; try done. injection E as <-. by apply Hsame.
  - destruct (ts !! i) as [[]|]; try done. injection E as <-. by apply Hsame.
  - case_decide; [done|]. injection E as <-. by apply Hsame.
Qed.

Lemma mon_run_log es m m' l :
  mon_inv m -> mon_run es m = Some m' -> shows m l ->
  exists l', rtc log_step l l' /\ later l l' /\ shows m' l'.
Proof.
  revert m l. induction es as [|e es IH]; intros m l Hi E Hs; simpl in E.
  { injection E as <-. exists l. split_and!; [done|apply later_refl|done]. }
  destruct (mon_step e m) as [[m1| |]|] eqn:Em; try done. simpl in E.
  destruct (mon_step_log e m m1 l Hi Em Hs) as (l1 & Hl1 & Hs1).
  destruct (IH m1 l1 (mon_step_inv e m m1 Hi Em) E Hs1) as (l' & Hl' & Hle & Hs').
  exists l'. destruct Hl1 as [->|Hstep]; [done|]. split_and!; [by eapply rtc_l| |done].
  eapply later_trans; [|exact Hle].
  destruct Hs as (_ & _ & _ & _ & _ & Hok). by apply (log_step_later l l1 Hok).
Qed.
End refinement.

(** ** Properties *)
Section properties.
Context {IO : IterOrder}.

(** C4. No wake-up is lost: while the worker sleeps on a queue that is not
    empty, some thread (one that pushed, or that stops the database) is still
    about to call [notify_all].  Any number of threads, any interleaving,
    spurious wake-ups included. *)
Theorem no_lost_wakeup k passwd m :
  mon_reach k passwd m -> m_worker m = WSleep -> _op_stack (m_db m) <> [] ->
  exists i, m_threads m !! i = Some TNotify.
Proof.
  intros Hr Hw Ho. pose proof (mi_wake _ (mon_reach_inv k passwd m Hr)) as Hwk.
  unfold wake_inv in Hwk. rewrite Hw in Hwk. by destruct Hwk.
Qed.

(** C3. Refinement: the monitor implements a log of operations, of which the
    map holds a prefix, the queue the rest, and the published list is empty
    until the first [serial()] and from then on the encoding of the servers
    after a prefix of the operations that are applied.  Every run from a
    reachable state is matched, from whatever state of the log shows that
    state, by steps of the log: so along the run operations are only appended,
    in the order in which they were pushed, and neither the applied nor the
    shown prefix ever shrinks. *)
Theorem monitor_refines_log k passwd :
  shows (mon_init k passwd) log_init /\
  forall m es m' l, mon_reach k passwd m -> mon_run es m = Some m' -> shows m l ->
    exists l', rtc log_step l l' /\ later l l' /\ shows m' l'.
Proof.
  split; [by unfold shows|]. intros m es m' l Hr E Hs.
  by apply (mon_run_log es m m' l (mon_reach_inv k passwd m Hr)).
Qed.

(** C5. Termination and eventual consistency, as long as no prefix of the
    operations leaves more than 255 servers in the map: from any reachable
    state, and for any schedule without new calls, the threads inside [add],
    [del] or [stop] and the worker come to rest within [weight] moves, none of
    which fails; then every call has returned and, unless the database was
    stopped, the worker sleeps on an empty queue, the map is what the
    operations make of it and, if there was an operation at all, the published
    list is its encoding. *)
Theorem database_settles k passwd m es m' :
  mon_reach k passwd m -> forallb own es = true -> mon_run es m = Some m' -> fits (m_history m') ->
  (length es <= weight m)%nat /\
  ((exists e m'', own e = true /\ mon_step e m' = Some (Ok m'')) \/
   ((forall i pc, m_threads m' !! i = Some pc -> pc = TIdle) /\
    (m_worker m' = WSleep \/ m_worker m' = WExit) /\
    (_started (m_db m') = true ->
     m_worker m' = WSleep /\ _op_stack (m_db m') = [] /\
     _db (m_db m') = view_of (m_history m') /\
     (m_history m' <> [] ->
      output (m_db m') = encode_sessions (iter (view_of (m_history m'))))))).
Proof.
  intros Hr Ho E Hf. pose proof (mon_reach_inv k passwd m Hr) as Hi.
  pose proof (mon_reach_inv k passwd m' (mon_run_reach k passwd es m m' Hr E)) as Hi'.
  split; [pose proof (mon_run_weight es m m' Hi Ho E); lia|].
  destruct (settled_or_moves m' Hi' Hf) as [?|Hs]; [by left|right].
  destruct (settled_idle m' Hi' Hs). auto using settled_done.
Qed.

(** [stop] can be lost: it clears the flag and notifies without the mutex,
    so when it runs between the worker's test of the queue and its [wait], the
    worker then sleeps for good (no spurious wake-up helping), although [stop]
    has returned. *)
Theorem stop_wakeup_lost k passwd :
  exists es m, ~ (Spurious ∈ es) /\ mon_run es (mon_init (S k) passwd) = Some m /\
    _started (m_db m) = false /\ m_worker m = WSleep /\ settled m.
Proof.
  exists [Worker; Worker; Call 0 CallStop; Thread 0; Thread 0; Thread 0; Thread 0; Worker].
  eexists. split_and!; [set_solver|reflexivity|reflexivity|reflexivity|].
  intros [|i| | |] He; try done. simpl. destruct i as [|i]; [done|]. simpl.
  destruct (replicate k TIdle !! i) as [pc|] eqn:E; [|done].
  by apply lookup_replicate in E as [-> _].
Qed.
End properties.

(** ** Concrete runs *)

Lemma size_view_of h : (size (view_of h) ≤ length h)%nat.
Proof.
  unfold view_of. induction h as [|item h IH] using rev_ind; [by vm_compute|].
  rewrite foldl_app, length_app. simpl. pose proof (size_apply_view item (foldl (fun m item => apply_view item m) ∅ h)). lia.
Qed.

Lemma fits_short h : (length h ≤ 255)%nat -> fits h.
Proof. intros H n. pose proof (size_view_of (take n h)) as Hs. rewrite length_take in Hs. lia. Qed.

Definition mon_demo (es : list move) : monitor :=
  from_option id (mon_init 2 []) (mon_run (IO := iter_by_key) es (mon_init 2 [])).

(** The worker goes to sleep, then a thread adds a session, up to the
    notification. *)
Definition demo_push : list move :=
  [Worker; Worker; Worker; Call 0 (CallAdd (demo_info 1001)); Thread 0; Thread 0].

(** A second thread starts to add; then the worker serves both. *)
Definition demo_calls : list move := demo_push ++ [Thread 0; Call 1 (CallAdd (demo_info 1002))].
Definition demo_serve : list move :=
  [Worker; Worker; Worker; Worker; Thread 1; Thread 1; Worker; Worker; Worker; Worker; Worker;
   Worker; Worker; Thread 1; Worker; Worker].

Lemma demo_reach es m :
  mon_run (IO := iter_by_key) es (mon_init 2 []) = Some m -> mon_reach (IO := iter_by_key) 2 [] m.
Proof. intros E. eapply (mon_run_reach (IO := iter_by_key)); [apply mon_reach_init|exact E]. Qed.

Lemma no_lost_wakeup_witness :
  exists i, m_threads (mon_demo demo_push) !! i = Some TNotify.
Proof.
  apply (no_lost_wakeup (IO := iter_by_key) 2 []);
    [apply (demo_reach demo_push); vm_compute; reflexivity|vm_compute; reflexivity|vm_compute; discriminate].
Defined.

Lemma monitor_refines_log_witness :
  exists l, rtc log_step log_init l /\ later log_init l /\
    shows (IO := iter_by_key) (mon_demo (demo_calls ++ demo_serve)) l.
Proof.
  destruct (monitor_refines_log (IO := iter_by_key) 2 []) as [H0 H].
  apply (H (mon_init 2 []) (demo_calls ++ demo_serve)); [apply mon_reach_init| |exact H0].
  vm_compute. reflexivity.
Defined.

Definition demo_settled : monitor := mon_demo (demo_calls ++ demo_serve).

Lemma database_settles_witness :
  (length demo_serve <= weight (mon_demo demo_calls))%nat /\
  ((exists e m'', own e = true /\ mon_step (IO := iter_by_key) e demo_settled = Some (Ok m'')) \/
   ((forall i pc, m_threads demo_settled !! i = Some pc -> pc = TIdle) /\
    (m_worker demo_settled = WSleep \/ m_worker demo_settled = WExit) /\
    (_started (m_db demo_settled) = true ->
     m_worker demo_settled = WSleep /\ _op_stack (m_db demo_settled) = [] /\
     _db (m_db demo_settled) = view_of (m_history demo_settled) /\
     (m_history demo_settled <> [] ->
      output (m_db demo_settled) =
      encode_sessions (iter (IterOrder := iter_by_key) (view_of (m_history demo_settled))))))).
Proof.
  apply (database_settles (IO := iter_by_key) 2 []).
  - apply (demo_reach demo_calls). vm_compute. reflexivity.
  - reflexivity.
  - vm_compute. reflexivity.
  - apply fits_short. vm_compute. lia.
Defined.
