(* ===== verification/World.v ===== *)
(** * The objects of the running server

    The state that the session, channel, manager and server methods share:
    the fields of [CSession] ([src/net/CSession.hpp]), of [CChannel] and its
    two ends ([src/net/CChannel.hpp]), of [CSessionMgr]
    ([src/net/CSessionMgr.hpp]) and of [CServer] ([src/net/CServer.hpp]).

    Objects live in a heap: an address ([sref], [cref]) is looked up in a
    finite map, and a [weak_ptr] is an address whose [lock()] succeeds when
    the object is still there.  What boost.asio keeps for an object (the
    outstanding operations, the handlers posted on a strand, the endpoints of
    a socket) is part of the object's record. *)
From S2P Require Import Prelude Protocol SafeContainers SessionStore.

Abbreviation sref := nat.
Abbreviation cref := nat.

(** An IPv4 endpoint; every socket of the program is opened for IPv4. *)
Record endpoint := mkEndpoint { ep_addr : Z; ep_port : Z }.

#[export] Instance endpoint_eq_decision : EqDecision endpoint.
Proof. solve_decision. Defined.

(** ** Sessions *)

(** An outstanding [async_read] and the handler it completes with. *)
Inductive read_op := ReadHead | ReadBody (n : Z).

(** The one wait on [_timer]: not started, running, or over with its handler
    queued, which will be told that the time is up or that the wait was
    cancelled. *)
Inductive timer_state := TimerNone | TimerWait | TimerFired | TimerCancelled.

#[export] Instance timer_state_eq_decision : EqDecision timer_state.
Proof. solve_decision. Defined.

Record CSession := mkSession {
  _timeout : Z; (* uint32_t *)
  _id : Z; (* uint32_t *)
  _session_type : Z; (* uint32_t *)
  _private_addr : Z; (* uint32_t *)
  _guid : bytes;
  _logined : bool;
  _started : bool;
  _hdr : TagPktHdr;
  _rbuf : bytes; (* readable part of the streambuf *)
  _sque : list bytes;
  _src_channels : CChannelMap.Map;
  _dst_channels : CChannelMap.Map;
  sock_local : option endpoint; (* local_endpoint(ec); None when ec is set *)
  sock_remote : option endpoint; (* remote_endpoint(ec) *)
  timer : timer_state; (* the async_wait of _timer *)
  reads : list read_op; (* outstanding async_read operations *)
  writes : list bytes; (* outstanding async_write operations *)
  posts : list bytes; (* writeImpl calls posted on _strand *)
  wire : list bytes (* messages written completely, oldest first *)
}.

(** Field assignments. *)
Definition set_id (v : Z) (x : CSession) : CSession :=
  mkSession (_timeout x) v (_session_type x) (_private_addr x) (_guid x) (_logined x)
    (_started x) (_hdr x) (_rbuf x) (_sque x) (_src_channels x) (_dst_channels x)
    (sock_local x) (sock_remote x) (timer x) (reads x) (writes x) (posts x) (wire
    x).
Definition set_login (g : bytes) (a : Z) (t : Z) (x : CSession) : CSession :=
  mkSession (_timeout x) (_id x) t a g (_logined x) (_started x) (_hdr x) (_rbuf x)
    (_sque x) (_src_channels x) (_dst_channels x) (sock_local x) (sock_remote x)
    (timer x) (reads x) (writes x) (posts x) (wire x).
Definition set_logined (v : bool) (x : CSession) : CSession :=
  mkSession (_timeout x) (_id x) (_session_type x) (_private_addr x) (_guid x) v
    (_started x) (_hdr x) (_rbuf x) (_sque x) (_src_channels x) (_dst_channels x)
    (sock_local x) (sock_remote x) (timer x) (reads x) (writes x) (posts x) (wire
    x).
Definition set_started (v : bool) (x : CSession) : CSession :=
  mkSession (_timeout x) (_id x) (_session_type x) (_private_addr x) (_guid x) (_logined
    x) v (_hdr x) (_rbuf x) (_sque x) (_src_channels x) (_dst_channels x) (sock_local x)
    (sock_remote x) (timer x) (reads x) (writes x) (posts x) (wire x).
Definition set_rbuf (h : TagPktHdr) (b : bytes) (x : CSession) : CSession :=
  mkSession (_timeout x) (_id x) (_session_type x) (_private_addr x) (_guid x) (_logined
    x) (_started x) h b (_sque x) (_src_channels x) (_dst_channels x) (sock_local x)
    (sock_remote x) (timer x) (reads x) (writes x) (posts x) (wire x).
Definition set_sque (v : list bytes) (x : CSession) : CSession :=
  mkSession (_timeout x) (_id x) (_session_type x) (_private_addr x) (_guid x) (_logined
    x) (_started x) (_hdr x) (_rbuf x) v (_src_channels x) (_dst_channels x) (sock_local
    x) (sock_remote x) (timer x) (reads x) (writes x) (posts x) (wire x).
Definition set_src (v : CChannelMap.Map) (x : CSession) : CSession :=
  mkSession (_timeout x) (_id x) (_session_type x) (_private_addr x) (_guid x) (_logined
    x) (_started x) (_hdr x) (_rbuf x) (_sque x) v (_dst_channels x) (sock_local x)
    (sock_remote x) (timer x) (reads x) (writes x) (posts x) (wire x).
Definition set_dst (v : CChannelMap.Map) (x : CSession) : CSession :=
  mkSession (_timeout x) (_id x) (_session_type x) (_private_addr x) (_guid x) (_logined
    x) (_started x) (_hdr x) (_rbuf x) (_sque x) (_src_channels x) v (sock_local x)
    (sock_remote x) (timer x) (reads x) (writes x) (posts x) (wire x).
Definition set_sock (l : option endpoint) (r : option endpoint) (x : CSession) : CSession :=
  mkSession (_timeout x) (_id x) (_session_type x) (_private_addr x) (_guid x) (_logined
    x) (_started x) (_hdr x) (_rbuf x) (_sque x) (_src_channels x) (_dst_channels x) l r
    (timer x) (reads x) (writes x) (posts x) (wire x).
Definition set_timer (v : timer_state) (x : CSession) : CSession :=
  mkSession (_timeout x) (_id x) (_session_type x) (_private_addr x) (_guid x) (_logined
    x) (_started x) (_hdr x) (_rbuf x) (_sque x) (_src_channels x) (_dst_channels x)
    (sock_local x) (sock_remote x) v (reads x) (writes x) (posts x) (wire x).
Definition set_reads (v : list read_op) (x : CSession) : CSession :=
  mkSession (_timeout x) (_id x) (_session_type x) (_private_addr x) (_guid x) (_logined
    x) (_started x) (_hdr x) (_rbuf x) (_sque x) (_src_channels x) (_dst_channels x)
    (sock_local x) (sock_remote x) (timer x) v (writes x) (posts x) (wire x).
Definition set_writes (v : list bytes) (x : CSession) : CSession :=
  mkSession (_timeout x) (_id x) (_session_type x) (_private_addr x) (_guid x) (_logined
    x) (_started x) (_hdr x) (_rbuf x) (_sque x) (_src_channels x) (_dst_channels x)
    (sock_local x) (sock_remote x) (timer x) (reads x) v (posts x) (wire x).
Definition set_posts (v : list bytes) (x : CSession) : CSession :=
  mkSession (_timeout x) (_id x) (_session_type x) (_private_addr x) (_guid x) (_logined
    x) (_started x) (_hdr x) (_rbuf x) (_sque x) (_src_channels x) (_dst_channels x)
    (sock_local x) (sock_remote x) (timer x) (reads x) (writes x) v (wire x).
Definition set_wire (v : list bytes) (x : CSession) : CSession :=
  mkSession (_timeout x) (_id x) (_session_type x) (_private_addr x) (_guid x) (_logined
    x) (_started x) (_hdr x) (_rbuf x) (_sque x) (_src_channels x) (_dst_channels x)
    (sock_local x) (sock_remote x) (timer x) (reads x) (writes x) (posts x) v.

(** ** Channels *)

(** Where a coroutine of a channel is suspended: not spawned, spawned but not
    run yet, at the receive or the send of its authentication loop, at the
    receive or the send of its relay loop, or finished.  An expiry checker is
    spawned but not run yet, or in its wait; it is no part of the channel:
    it only holds a plain [this], so its frame lives in the world until the
    coroutine ends. *)
Inductive co_pc := CoNone | CoInit | CoAuthRecv | CoAuthSend | CoRecv | CoSend | CoDone.
Inductive display_pc := DispNone | DispInit | DispWait | DispDone.
Inductive checker_pc := CheckInit | CheckWait.

#[export] Instance co_pc_eq_decision : EqDecision co_pc.
Proof. solve_decision. Defined.
#[export] Instance display_pc_eq_decision : EqDecision display_pc.
Proof. solve_decision. Defined.

#[export] Instance checker_pc_eq_decision : EqDecision checker_pc.
Proof. solve_decision. Defined.

Record CEnd := mkEnd {
  _local_ep : endpoint;
  _remote_ep : endpoint;
  _owner_ss : option sref; (* weak_ptr *)
  _owner_id : Z; (* uint32_t *)
  _buf : bytes;
  _port_expired : Z; (* uint32_t *)
  _endtime : Z; (* seconds *)
  _opened : bool;
  sock_open : bool; (* _socket.is_open() *)
  sock_peer : option endpoint; (* peer of a connected _socket *)
  datagrams : list (endpoint * bytes) (* datagrams handed to the socket, oldest first *)
}.

(** Field assignments. *)
Definition set_local (v : endpoint) (x : CEnd) : CEnd :=
  mkEnd v (_remote_ep x) (_owner_ss x) (_owner_id x) (_buf x) (_port_expired x)
    (_endtime x) (_opened x) (sock_open x) (sock_peer x) (datagrams x).
Definition set_remote (v : endpoint) (x : CEnd) : CEnd :=
  mkEnd (_local_ep x) v (_owner_ss x) (_owner_id x) (_buf x) (_port_expired x) (_endtime
    x) (_opened x) (sock_open x) (sock_peer x) (datagrams x).
Definition set_owner (o : option sref) (i : Z) (x : CEnd) : CEnd :=
  mkEnd (_local_ep x) (_remote_ep x) o i (_buf x) (_port_expired x) (_endtime x)
    (_opened x) (sock_open x) (sock_peer x) (datagrams x).
Definition set_buf (v : bytes) (x : CEnd) : CEnd :=
  mkEnd (_local_ep x) (_remote_ep x) (_owner_ss x) (_owner_id x) v (_port_expired x)
    (_endtime x) (_opened x) (sock_open x) (sock_peer x) (datagrams x).
Definition set_endtime (v : Z) (x : CEnd) : CEnd :=
  mkEnd (_local_ep x) (_remote_ep x) (_owner_ss x) (_owner_id x) (_buf x) (_port_expired
    x) v (_opened x) (sock_open x) (sock_peer x) (datagrams x).
Definition set_opened (v : bool) (x : CEnd) : CEnd :=
  mkEnd (_local_ep x) (_remote_ep x) (_owner_ss x) (_owner_id x) (_buf x) (_port_expired
    x) (_endtime x) v (sock_open x) (sock_peer x) (datagrams x).
Definition set_open (v : bool) (x : CEnd) : CEnd :=
  mkEnd (_local_ep x) (_remote_ep x) (_owner_ss x) (_owner_id x) (_buf x) (_port_expired
    x) (_endtime x) (_opened x) v (sock_peer x) (datagrams x).
Definition set_peer (v : option endpoint) (x : CEnd) : CEnd :=
  mkEnd (_local_ep x) (_remote_ep x) (_owner_ss x) (_owner_id x) (_buf x) (_port_expired
    x) (_endtime x) (_opened x) (sock_open x) v (datagrams x).
Definition set_datagrams (v : list (endpoint * bytes)) (x : CEnd) : CEnd :=
  mkEnd (_local_ep x) (_remote_ep x) (_owner_ss x) (_owner_id x) (_buf x) (_port_expired
    x) (_endtime x) (_opened x) (sock_open x) (sock_peer x) v.

Record CChannel := mkChannel {
  ch_id : Z; (* _id *)
  _src_end : CEnd;
  _dst_end : CEnd;
  _up_bytes : Z; (* uint64_t *)
  _up_packs : Z; (* uint64_t *)
  _down_bytes : Z; (* uint64_t *)
  _down_packs : Z; (* uint64_t *)
  _display_interval : Z; (* uint32_t *)
  ch_started : bool; (* _started *)
  stop_posts : nat; (* stop calls posted by toStop *)
  up_at : co_pc; (* the uploader coroutine *)
  down_at : co_pc; (* the downloader coroutine *)
  display_at : display_pc (* the displayer coroutine *)
}.

(** Field assignments. *)
Definition set_src_end (v : CEnd) (x : CChannel) : CChannel :=
  mkChannel (ch_id x) v (_dst_end x) (_up_bytes x) (_up_packs x) (_down_bytes x)
    (_down_packs x) (_display_interval x) (ch_started x) (stop_posts x) (up_at x)
    (down_at x) (display_at x).
Definition set_dst_end (v : CEnd) (x : CChannel) : CChannel :=
  mkChannel (ch_id x) (_src_end x) v (_up_bytes x) (_up_packs x) (_down_bytes x)
    (_down_packs x) (_display_interval x) (ch_started x) (stop_posts x) (up_at x)
    (down_at x) (display_at x).
Definition set_up_count (b : Z) (p : Z) (x : CChannel) : CChannel :=
  mkChannel (ch_id x) (_src_end x) (_dst_end x) b p (_down_bytes x) (_down_packs x)
    (_display_interval x) (ch_started x) (stop_posts x) (up_at x) (down_at x)
    (display_at x).
Definition set_down_count (b : Z) (p : Z) (x : CChannel) : CChannel :=
  mkChannel (ch_id x) (_src_end x) (_dst_end x) (_up_bytes x) (_up_packs x) b p
    (_display_interval x) (ch_started x) (stop_posts x) (up_at x) (down_at x)
    (display_at x).
Definition set_ch_started (v : bool) (x : CChannel) : CChannel :=
  mkChannel (ch_id x) (_src_end x) (_dst_end x) (_up_bytes x) (_up_packs x) (_down_bytes
    x) (_down_packs x) (_display_interval x) v (stop_posts x) (up_at x) (down_at x)
    (display_at x).
Definition set_stop_posts (v : nat) (x : CChannel) : CChannel :=
  mkChannel (ch_id x) (_src_end x) (_dst_end x) (_up_bytes x) (_up_packs x) (_down_bytes
    x) (_down_packs x) (_display_interval x) (ch_started x) v (up_at x) (down_at x)
    (display_at x).
Definition set_up_at (v : co_pc) (x : CChannel) : CChannel :=
  mkChannel (ch_id x) (_src_end x) (_dst_end x) (_up_bytes x) (_up_packs x) (_down_bytes
    x) (_down_packs x) (_display_interval x) (ch_started x) (stop_posts x) v (down_at x)
    (display_at x).
Definition set_down_at (v : co_pc) (x : CChannel) : CChannel :=
  mkChannel (ch_id x) (_src_end x) (_dst_end x) (_up_bytes x) (_up_packs x) (_down_bytes
    x) (_down_packs x) (_display_interval x) (ch_started x) (stop_posts x) (up_at x) v
    (display_at x).
Definition set_display_at (v : display_pc) (x : CChannel) : CChannel :=
  mkChannel (ch_id x) (_src_end x) (_dst_end x) (_up_bytes x) (_up_packs x) (_down_bytes
    x) (_down_packs x) (_display_interval x) (ch_started x) (stop_posts x) (up_at x)
    (down_at x) v.

(** ** Manager, server and configuration *)

(** The values of [CConfig] that these classes read. *)
Record config := {
  maxSessions : Z;
  freeSessionExpired : Z;
  channMTU : nat;
  channPortExpired : Z;
  channDisplayInterval : Z
}.

Section World.
(** [D] is the session database behind its interface. *)
Context {D : Type}.

Record CSessionMgr := mkMgr {
  _ss_map : gmap Z sref; (* SessionMap: id to weak_ptr<CSession> *)
  _ss_db : D;
  _guid_set : gset bytes;
  _session_id : Z; (* atomic<uint32_t> *)
  _channel_id : Z (* atomic<uint32_t> *)
}.

Definition set_ss_map (v : gmap Z sref) (m : CSessionMgr) : CSessionMgr :=
  mkMgr v (_ss_db m) (_guid_set m) (_session_id m) (_channel_id m).
Definition set_ss_db (v : D) (m : CSessionMgr) : CSessionMgr :=
  mkMgr (_ss_map m) v (_guid_set m) (_session_id m) (_channel_id m).
Definition set_guid_set (v : gset bytes) (m : CSessionMgr) : CSessionMgr :=
  mkMgr (_ss_map m) (_ss_db m) v (_session_id m) (_channel_id m).
Definition set_session_id (v : Z) (m : CSessionMgr) : CSessionMgr :=
  mkMgr (_ss_map m) (_ss_db m) (_guid_set m) v (_channel_id m).
Definition set_channel_id (v : Z) (m : CSessionMgr) : CSessionMgr :=
  mkMgr (_ss_map m) (_ss_db m) (_guid_set m) (_session_id m) v.

Record World := mkWorld {
  sessions : gmap sref CSession;
  channels : gmap cref CChannel;
  mgr : CSessionMgr;
  server_alive : bool; (* _server.lock() succeeds *)
  _conn_num : Z; (* CServer: atomic<uint32_t> *)
  now : Z; (* second_clock::local_time(), in seconds *)
  gConfig : config;
  checkers : gmap (cref * bool) checker_pc; (* the portExpiredChecker coroutines that have not
    ended, by the CEnd their [this] points to: channel, and whether it is its source end *)
  heap_next : nat (* no object has had an address from here on *)
}.

Definition set_sessions (v : gmap sref CSession) (w : World) : World :=
  mkWorld v (channels w) (mgr w) (server_alive w) (_conn_num w) (now w) (gConfig w) (checkers w) (heap_next w).
Definition set_channels (v : gmap cref CChannel) (w : World) : World :=
  mkWorld (sessions w) v (mgr w) (server_alive w) (_conn_num w) (now w) (gConfig w) (checkers w) (heap_next w).
Definition set_mgr (v : CSessionMgr) (w : World) : World :=
  mkWorld (sessions w) (channels w) v (server_alive w) (_conn_num w) (now w) (gConfig w) (checkers w) (heap_next w).
Definition set_conn_num (v : Z) (w : World) : World :=
  mkWorld (sessions w) (channels w) (mgr w) (server_alive w) v (now w) (gConfig w) (checkers w) (heap_next w).
Definition set_now (v : Z) (w : World) : World :=
  mkWorld (sessions w) (channels w) (mgr w) (server_alive w) (_conn_num w) v (gConfig w) (checkers w) (heap_next w).

Definition set_checkers (v : gmap (cref * bool) checker_pc) (w : World) : World :=
  mkWorld (sessions w) (channels w) (mgr w) (server_alive w) (_conn_num w) (now w) (gConfig w) v (heap_next w).
Definition set_heap_next (v : nat) (w : World) : World :=
  mkWorld (sessions w) (channels w) (mgr w) (server_alive w) (_conn_num w) (now w) (gConfig w) (checkers w) v.

(** Assignments through a pointer. *)
Definition upd_session (r : sref) (f : CSession -> CSession) (w : World) : World :=
  set_sessions (alter f r (sessions w)) w.
Definition upd_channel (c : cref) (f : CChannel -> CChannel) (w : World) : World :=
  set_channels (alter f c (channels w)) w.
Definition upd_mgr (f : CSessionMgr -> CSessionMgr) (w : World) : World :=
  set_mgr (f (mgr w)) w.

(** Methods that may throw: the state at the throw is kept. *)
Definition M (A : Type) : Type := World -> outcome A * World.

#[global] Instance M_ret : MRet M := fun A a w => (Ok a, w).
#[global] Instance M_bind : MBind M := fun A B f m w =>
  match m w with
  | (Ok a, w) => f a w
  | (Throw e, w) => (Throw e, w)
  | (UB u, w) => (UB u, w)
  end.

Definition modify (f : World -> World) : M unit := fun w => (Ok tt, f w).
Definition gets {A} (f : World -> A) : M A := fun w => (Ok (f w), w).
Definition lift {A} (o : outcome A) : M A := fun w => (o, w).
End World.
Arguments CSessionMgr D : clear implicits.
Arguments World D : clear implicits.
Arguments M D A : clear implicits.
