(* ===== verification/Config.v ===== *)
(** * The configuration

    Models [src/util/CConfig.hpp]: the command line, the ini file with its
    defaults, and the addresses of the local network interfaces.

    [boost::property_tree] and [boost::program_options] are parameters: the
    tree that an ini file is read into, and the options that a command line is
    parsed into. *)
From S2P Require Import Prelude Util Protocol SafeContainers SessionStore World.

(** ** Parameters *)

(** [get<T>(path)] for strings and for unsigned integers of a width: the value
    at a path, when there is one that can be converted. *)
Class PropertyTree (ptree : Type) := {
  get_string : ptree -> bytes -> option bytes;
  get_unsigned : Z -> ptree -> bytes -> option Z;
  read_ini : bytes -> option ptree (* None: ini_parser_error *)
}.

(** A converted value fits the type it was converted to. *)
Class PropertyTreeLaws (ptree : Type) `{PropertyTree ptree} := {
  get_unsigned_range w t path z : get_unsigned w t path = Some z -> 0 ≤ z < 2 ^ w
}.

(** What [parse_command_line] and [store] find of the options of [parseCmd]. *)
Record cmdline := {
  opt_help : bool;
  opt_version : bool;
  opt_file : option bytes;
  opt_log : option bytes;
  opt_daemon : option bool
}.

Class CommandLine := {
  parse_command_line : list bytes -> cmdline + bytes (* or the message of the error it throws *)
}.

(** ** State *)

Record CConfig := mkConfig {
  _proc_name : bytes;
  _cfg_file : bytes;
  _log_path : bytes;
  _log_rotation_size : Z; (* size_t *)
  _log_print_level : Z; (* uint8_t *)
  _daemon : bool;
  _srv_ips : list bytes;
  _srv_ip : bytes;
  _srv_port : Z; (* uint16_t *)
  _srv_workers : Z; (* uint8_t *)
  _srv_max_sessions : Z; (* uint32_t *)
  _srv_max_channels : Z; (* uint32_t *)
  _srv_per_session_max_channels : Z; (* uint32_t *)
  _srv_free_session_expired : Z; (* uint32_t *)
  _rds_ip : bytes;
  _rds_port : Z; (* uint16_t *)
  _rds_passwd : bytes;
  _chann_mtu : Z; (* uint32_t *)
  _chann_port_expired : Z; (* uint32_t *)
  _chann_display_interval : Z (* uint32_t *)
}.

Definition new_config : CConfig :=
  mkConfig [] (lit "/usr/local/etc/") (lit "/usr/local/log/") 0 0 false [] [] 0 0 0 0 0 0 [] 0 []
    1500 0 0.

(** ** The command line *)

Definition npos : Z := 2 ^ 64 - 1.

(** [find_last_of(c)]: the position of the last [c]. *)
Fixpoint last_index (c : byte) (s : bytes) : option nat :=
  match s with
  | [] => None
  | b :: s =>
      match last_index c s with
      | Some i => Some (S i)
      | None => if decide (b = c) then Some 0%nat else None
      end
  end.
Definition find_last_of (c : byte) (s : bytes) : Z := from_option Z.of_nat npos (last_index c s).

Definition out_of_range : cpp_exn := logic_error (lit "basic_string::substr").

(** [substr(pos)]. *)
Definition substr (pos : Z) (s : bytes) : outcome bytes :=
  if Z.of_nat (length s) <? pos then Throw out_of_range else Ok (drop (Z.to_nat pos) s).

Definition slash : byte := Init.Byte.x2f.

(** [_proc_name]: [pos + 1] wraps to 0 when there is no slash. *)
Definition proc_name (argv0 : bytes) : outcome bytes :=
  substr (wrap 64 (find_last_of slash argv0 + 1)) argv0.

(** What [notify] stores, and the default path of the file. *)
Definition set_options (name : bytes) (o : cmdline) (c : CConfig) : CConfig :=
  mkConfig name (default (_cfg_file c) (opt_file o)) (default (_log_path c) (opt_log o))
    (_log_rotation_size c) (_log_print_level c) (default (_daemon c) (opt_daemon o)) (_srv_ips c)
    (_srv_ip c) (_srv_port c) (_srv_workers c) (_srv_max_sessions c) (_srv_max_channels c)
    (_srv_per_session_max_channels c) (_srv_free_session_expired c) (_rds_ip c) (_rds_port c)
    (_rds_passwd c) (_chann_mtu c) (_chann_port_expired c) (_chann_display_interval c).
Definition set_cfg_file (f : bytes) (c : CConfig) : CConfig :=
  mkConfig (_proc_name c) f (_log_path c) (_log_rotation_size c) (_log_print_level c) (_daemon c)
    (_srv_ips c) (_srv_ip c) (_srv_port c) (_srv_workers c) (_srv_max_sessions c)
    (_srv_max_channels c) (_srv_per_session_max_channels c) (_srv_free_session_expired c)
    (_rds_ip c) (_rds_port c) (_rds_passwd c) (_chann_mtu c) (_chann_port_expired c)
    (_chann_display_interval c).

Definition parseCmd `{CommandLine} (argv : list bytes) (c : CConfig) : outcome (bool * CConfig) :=
  match argv with
  | [] => UB out_of_bounds_read (* argv[0] *)
  | argv0 :: _ =>
      name ← proc_name argv0;
      match parse_command_line argv with
      | inr msg => Throw (logic_error msg)
      | inl o =>
          let c := set_options name o c in
          if opt_help o then Ok (false, c)
          else if opt_version o then Ok (false, c)
          else
            match opt_file o with
            | Some _ => Ok (true, c)
            | None => Ok (true, set_cfg_file (_cfg_file c ++ name ++ lit ".cfg") c)
            end
      end
  end.

(** ** Local addresses *)

(** An entry of [getifaddrs]: its address, when it has one, is an IPv4 address
    or of another family. *)
Inductive if_address := IfInet (a b c d : byte) | IfOther.
Record ifaddr := { ifa_name : bytes; ifa_addr : option if_address }.

(** [find(sub) != npos]. *)
Fixpoint starts_with (sub s : bytes) : bool :=
  match sub, s with
  | [], _ => true
  | x :: sub, y :: s => bool_decide (x = y) && starts_with sub s
  | _ :: _, [] => false
  end.
Fixpoint contains (sub s : bytes) : bool :=
  starts_with sub s || match s with [] => false | _ :: s => contains sub s end.

Definition dot : bytes := lit ".".
Definition inet_ntop (a b c d : byte) : bytes :=
  to_string (byte_Z a) ++ dot ++ to_string (byte_Z b) ++ dot ++ to_string (byte_Z c) ++ dot
  ++ to_string (byte_Z d).

(** The loop of [loadLocalIp]. *)
Fixpoint load_ips (l : list ifaddr) : list bytes :=
  match l with
  | [] => []
  | pif :: l =>
      match ifa_addr pif with
      | Some (IfInet a b c d) =>
          if negb (contains (lit "lo") (ifa_name pif)) && negb (contains (lit "tun") (ifa_name pif))
          then inet_ntop a b c d :: load_ips l else load_ips l
      | _ => load_ips l
      end
  end.

(** [loadLocalIp(iplist)]; [None]: [getifaddrs] fails. *)
Definition loadLocalIp (ifaddrs : option (list ifaddr)) : bool * list bytes :=
  match ifaddrs with None => (false, []) | Some l => (true, load_ips l) end.

(** ** [init] *)

Section init.
Context {ptree : Type} `{PropertyTree ptree, CommandLine}.

(** [get<T>(path, default)]. *)
Definition get_uint (w : Z) (t : ptree) (path : bytes) (d : Z) : Z := default d (get_unsigned w t path).
Definition get_str (t : ptree) (path : bytes) (d : bytes) : bytes := default d (get_string t path).

(** The assignments of [init] from the tree. *)
Definition load (t : ptree) (ifaddrs : option (list ifaddr)) (c : CConfig) : CConfig :=
  {| _proc_name := _proc_name c;
     _cfg_file := _cfg_file c;
     _log_path := _log_path c;
     _log_rotation_size := Z.min (get_uint 64 t (lit "log.RotationSize") 100) 100;
     _log_print_level := get_uint 8 t (lit "log.PrintLevel") 0;
     _srv_ip := get_str t (lit "srv.IP") (lit "0.0.0.0");
     _srv_port := get_uint 16 t (lit "srv.ListenPort") 10001;
     _srv_workers := get_uint 8 t (lit "srv.Workers") 2;
     _srv_max_sessions := get_uint 32 t (lit "srv.MaxSessions") 0;
     _srv_max_channels := get_uint 32 t (lit "srv.MaxChannels") 0;
     _srv_per_session_max_channels := get_uint 32 t (lit "srv.PerSessionMaxChannels") 0;
     _srv_free_session_expired := get_uint 32 t (lit "srv.FreeSessionExpired") 10;
     _daemon := if _daemon c then true else get_uint 32 t (lit "srv.Daemon") 0 =? 1;
     _rds_ip := get_str t (lit "redis.IP") (lit "127.0.0.1");
     _rds_port := get_uint 16 t (lit "redis.Port") 6379;
     _rds_passwd := get_str t (lit "redis.Passwd") [];
     _chann_mtu := get_uint 32 t (lit "channel.MTU") 1500;
     _chann_port_expired := get_uint 32 t (lit "channel.PortExpired") 30;
     _chann_display_interval := get_uint 32 t (lit "channel.DisplayInterval") 0;
     _srv_ips := (loadLocalIp ifaddrs).2 |}.

(** [init(argc, argv)]: only the error of the ini parser is caught. *)
Definition init (argv : list bytes) (ifaddrs : option (list ifaddr)) (c : CConfig) :
    outcome (bool * CConfig) :=
  '(ok, c) ← parseCmd argv c;
  if negb ok then Ok (false, c)
  else
    match read_ini (_cfg_file c) with
    | None => Ok (false, c)
    | Some t => Ok (true, load t ifaddrs c)
    end.
End init.

(** The values that the server's classes read. *)
Definition server_config (c : CConfig) : config :=
  {| maxSessions := _srv_max_sessions c; freeSessionExpired := _srv_free_session_expired c;
     channMTU := Z.to_nat (_chann_mtu c); channPortExpired := _chann_port_expired c;
     channDisplayInterval := _chann_display_interval c |}.

(** [print()]: the settings, as the server logs them when it starts. *)
Definition print_field (name value : bytes) : bytes := lit "[" ++ name ++ lit ": " ++ value ++ lit "]".
Definition print_bool (b : bool) : bytes := if b then lit "true" else lit "false".

Definition print (c : CConfig) : bytes :=
  concat [
    print_field (lit "config file") (_cfg_file c);
    print_field (lit "log path") (_log_path c);
    print_field (lit "log rotation size") (to_string (_log_rotation_size c));
    print_field (lit "log level") (to_string (_log_print_level c));
    print_field (lit "server ip") (_srv_ip c);
    print_field (lit "listen port") (to_string (_srv_port c));
    print_field (lit "workers") (to_string (_srv_workers c));
    print_field (lit "max sessions") (to_string (_srv_max_sessions c));
    print_field (lit "max channels") (to_string (_srv_max_channels c));
    print_field (lit "per session max channels") (to_string (_srv_per_session_max_channels c));
    print_field (lit "free session expired") (to_string (_srv_free_session_expired c));
    print_field (lit "redis addr") (_rds_ip c);
    print_field (lit "redis port") (to_string (_rds_port c));
    print_field (lit "channel mtu") (to_string (_chann_mtu c));
    print_field (lit "channel port expired") (to_string (_chann_port_expired c));
    print_field (lit "channel display interval") (to_string (_chann_display_interval c));
    print_field (lit "is daemon") (print_bool (_daemon c))].

(** ** Lemmas *)

(** The log never contains the password of redis. *)
Lemma print_hides_password c passwd :
  print (mkConfig (_proc_name c) (_cfg_file c) (_log_path c) (_log_rotation_size c) (_log_print_level c)
    (_daemon c) (_srv_ips c) (_srv_ip c) (_srv_port c) (_srv_workers c) (_srv_max_sessions c)
    (_srv_max_channels c) (_srv_per_session_max_channels c) (_srv_free_session_expired c) (_rds_ip c)
    (_rds_port c) passwd (_chann_mtu c) (_chann_port_expired c) (_chann_display_interval c)) = print c.
Proof. by destruct c. Qed.

Lemma last_index_Some c s i :
  last_index c s = Some i -> exists a b, s = a ++ c :: b /\ length a = i /\ (c ∉ b).
Proof.
  revert i. induction s as [|x s IH]; intros i E; simpl in E; [done|].
  destruct (last_index c s) as [j|] eqn:Ej.
  - injection E as <-. destruct (IH j eq_refl) as (a & b & -> & <- & Hb). by exists (x :: a), b.
  - case_decide as Hx; [|done]. injection E as <-. subst x. exists [], s. split_and!; [done..|].
    clear IH. induction s as [|y s IH]; [apply not_elem_of_nil|]. simpl in Ej.
    destruct (last_index c s) eqn:E'; [done|]. case_decide; [done|].
    apply not_elem_of_cons. split; [congruence|by apply IH].
Qed.

Lemma last_index_None c s : last_index c s = None <-> c ∉ s.
Proof.
  induction s as [|x s IH]; simpl; [split; [intros _; apply not_elem_of_nil|done]|].
  rewrite not_elem_of_cons, <-IH. destruct (last_index c s).
  - split; [done|by intros [_ ?]].
  - case_decide as Hb; split; [done|by intros [[] _]|done|done].
Qed.

Lemma last_index_app c a b : c ∉ b -> last_index c (a ++ c :: b) = Some (length a).
Proof.
  intros Hb. induction a as [|x a IH]; simpl; [|by rewrite IH].
  apply last_index_None in Hb. rewrite Hb. by rewrite decide_True.
Qed.

(** The name of the program is what follows the last slash, or all of
    [argv[0]] when there is none. *)
Lemma proc_name_spec argv0 :
  Z.of_nat (length argv0) < npos ->
  exists dir name, proc_name argv0 = Ok name /\ (slash ∉ name) /\
    (argv0 = dir ++ slash :: name \/ (dir = [] /\ argv0 = name)).
Proof.
  intros Hl. unfold proc_name, find_last_of, substr, wrap. unfold npos in *.
  destruct (last_index slash argv0) as [i|] eqn:E; simpl.
  - apply last_index_Some in E as (a & b & -> & <- & Hb). rewrite length_app in *. simpl in *.
    exists a, b. rewrite Z.mod_small by lia. case_cond; bool_to_Z; [lia|]. split_and!; [|done|by left].
    f_equal. replace (Z.to_nat _) with (S (length a)) by lia.
    rewrite (cons_middle slash a b), app_assoc. apply drop_app_length'. rewrite length_app. simpl. lia.
  - apply last_index_None in E. exists [], argv0. change ((2 ^ 64 - 1 + 1) `mod` 2 ^ 64) with 0. case_cond; bool_to_Z; [lia|].
    split_and!; [by rewrite drop_0|done|by right].
Qed.

Lemma starts_with_spec sub s : starts_with sub s = true <-> exists b, s = sub ++ b.
Proof.
  revert s. induction sub as [|x sub IH]; intros s; simpl; [split; [by exists s|done]|].
  destruct s as [|y s]; [split; [done|by intros [b [=]]]|].
  rewrite andb_true_iff, bool_decide_eq_true, IH. split.
  - intros [-> [b ->]]. by exists b.
  - intros [b [= -> ->]]. split; [done|by exists b].
Qed.

Lemma contains_spec sub s : contains sub s = true <-> exists a b, s = a ++ sub ++ b.
Proof.
  induction s as [|y s IH]; simpl; rewrite orb_true_iff, starts_with_spec.
  - split; [intros [[b ->]|[=]]; by exists [], b|].
    intros (a & b & E). left. exists b. by destruct a.
  - rewrite IH. split.
    + intros [[b E]|(a & b & ->)]; [by exists [], b|by exists (y :: a), b].
    + intros ([|x a] & b & E); [left; by exists b|right]. injection E as -> ->. by exists a, b.
Qed.

(** An interface that the server listens on, and its address. *)
Definition usable (i : ifaddr) (ip : bytes) : Prop :=
  (exists a b c d, ifa_addr i = Some (IfInet a b c d) /\ ip = inet_ntop a b c d) /\
  ~ (exists x y, ifa_name i = x ++ lit "lo" ++ y) /\
  ~ (exists x y, ifa_name i = x ++ lit "tun" ++ y).

Definition usable_ip (i : ifaddr) : option bytes :=
  match ifa_addr i with
  | Some (IfInet a b c d) =>
      if contains (lit "lo") (ifa_name i) || contains (lit "tun") (ifa_name i) then None
      else Some (inet_ntop a b c d)
  | _ => None
  end.

Lemma usable_ip_spec i ip : usable_ip i = Some ip <-> usable i ip.
Proof.
  unfold usable_ip, usable. rewrite <-!contains_spec. split.
  - intros E. destruct (ifa_addr i) as [[a b c d|]|]; [|done..].
    destruct (contains (lit "lo") _), (contains (lit "tun") _); try done. injection E as <-.
    split_and!; [by exists a, b, c, d|done..].
  - intros ((a & b & c & d & -> & ->) & Hl%not_true_is_false & Ht%not_true_is_false).
    by rewrite Hl, Ht.
Qed.

Lemma load_ips_omap l : load_ips l = omap usable_ip l.
Proof.
  induction l as [|i l IH]; [done|]. simpl. unfold usable_ip at 1. rewrite IH.
  destruct (ifa_addr i) as [[a b c d|]|]; [|done..].
  by destruct (contains (lit "lo") _), (contains (lit "tun") _).
Qed.

Lemma load_ips_spec l ip : ip ∈ load_ips l <-> exists i, (i ∈ l) /\ usable i ip.
Proof.
  rewrite load_ips_omap, list_elem_of_omap. by setoid_rewrite usable_ip_spec.
Qed.

(** Every setting is in the range of its C++ type. *)
Record well_typed (c : CConfig) : Prop := {
  wt_rotation : 0 ≤ _log_rotation_size c < 2 ^ 64;
  wt_print_level : 0 ≤ _log_print_level c < 2 ^ 8;
  wt_port : 0 ≤ _srv_port c < 2 ^ 16;
  wt_workers : 0 ≤ _srv_workers c < 2 ^ 8;
  wt_max_sessions : 0 ≤ _srv_max_sessions c < 2 ^ 32;
  wt_max_channels : 0 ≤ _srv_max_channels c < 2 ^ 32;
  wt_per_session : 0 ≤ _srv_per_session_max_channels c < 2 ^ 32;
  wt_expired : 0 ≤ _srv_free_session_expired c < 2 ^ 32;
  wt_rds_port : 0 ≤ _rds_port c < 2 ^ 16;
  wt_mtu : 0 ≤ _chann_mtu c < 2 ^ 32;
  wt_port_expired : 0 ≤ _chann_port_expired c < 2 ^ 32;
  wt_display : 0 ≤ _chann_display_interval c < 2 ^ 32
}.

Lemma new_config_typed : well_typed new_config.
Proof. constructor; simpl; lia. Qed.

Section facts.
Context {ptree : Type} `{PropertyTreeLaws ptree, CommandLine}.

Lemma get_uint_range w (t : ptree) path d : 0 ≤ d < 2 ^ w -> 0 ≤ get_uint w t path d < 2 ^ w.
Proof.
  intros Hd. unfold get_uint. destruct (get_unsigned w t path) as [z|] eqn:E; simpl; [|done].
  by apply get_unsigned_range in E.
Qed.

Lemma load_typed (t : ptree) ifs c : well_typed (load t ifs c).
Proof.
  constructor; simpl; try (apply get_uint_range; lia).
  pose proof (get_uint_range 64 t (lit "log.RotationSize") 100). lia.
Qed.

Lemma init_cases argv ifs c ok c' :
  init (ptree := ptree) argv ifs c = Ok (ok, c') ->
  exists c1, parseCmd argv c = Ok (true, c1) /\
    ((ok = false /\ c' = c1 /\ read_ini (ptree := ptree) (_cfg_file c1) = None) \/
     (ok = true /\ exists t, read_ini (ptree := ptree) (_cfg_file c1) = Some t /\ c' = load t ifs c1))
  \/ (parseCmd argv c = Ok (false, c') /\ ok = false).
Proof.
  unfold init. intros E. apply outcome_bind_Ok in E as ([[] c1] & E1 & E); simpl in E.
  - exists c1. left. split; [done|].
    destruct (read_ini (_cfg_file c1)) as [t|]; injection E as <- <-; [right|by left]; eauto.
  - injection E as <- <-. exists c. by right.
Qed.

Lemma parseCmd_ok argv0 args c :
  Z.of_nat (length argv0) < npos ->
  exists name, proc_name argv0 = Ok name /\ (slash ∉ name) /\
    parseCmd (argv0 :: args) c =
      match parse_command_line (argv0 :: args) with
      | inr msg => Throw (logic_error msg)
      | inl o =>
          let c' := set_options name o c in
          Ok (negb (opt_help o || opt_version o),
              if opt_help o || opt_version o then c'
              else if opt_file o is Some _ then c' else set_cfg_file (_cfg_file c ++ name ++ lit ".cfg") c')
      end.
Proof.
  intros Hl. destruct (proc_name_spec argv0 Hl) as (dir & name & E & Hn & _).
  exists name. split_and!; [done..|]. unfold parseCmd. rewrite E, ok_bind.
  destruct (parse_command_line _) as [o|msg]; [|done].
  destruct (opt_help o); [done|]. destruct (opt_version o); [done|]. simpl.
  by destruct (opt_file o) eqn:Ef; simpl; rewrite ?Ef.
Qed.

(** ** Properties *)

(** Every setting stays in the range of its C++ type, whatever the command
    line and the file say and also when [init] reports failure; after a
    successful [init] the log files rotate at 100 MB at the latest. *)
Theorem config_well_typed argv ifs c ok c' :
  well_typed c -> init (ptree := ptree) argv ifs c = Ok (ok, c') ->
  well_typed c' /\ (ok = true -> _log_rotation_size c' ≤ 100).
Proof.
  intros Hc E. assert (forall b c1, parseCmd argv c = Ok (b, c1) -> well_typed c1) as Hp.
  { intros b c1. unfold parseCmd. destruct argv as [|a args]; [done|]. intros Ep.
    apply outcome_bind_Ok in Ep as (name & _ & Ep).
    repeat case_match; simplify_eq; destruct Hc; by constructor. }
  destruct (init_cases _ _ _ _ _ E) as (c1 & [(E1 & [(-> & -> & _)|(-> & t & _ & ->)])|(E1 & ->)]).
  - split; [by eapply Hp|done].
  - split; [apply load_typed|]. intros _. simpl. lia.
  - split; [by eapply Hp|done].
Qed.

(** From the initial settings, [init] with a command line that can be
    parsed fails exactly when help or the version is asked for or the file
    cannot be read; the file is the one named on the command line or
    [/usr/local/etc/<program>.cfg], [<program>] being [argv[0]] without its
    directories.  When it succeeds, the program becomes a daemon iff the
    command line or the file says so: [--daemon 0] does not override the
    file. *)
Theorem init_outcome argv0 args ifs o :
  Z.of_nat (length argv0) < npos ->
  parse_command_line (argv0 :: args) = inl o ->
  exists name c',
    proc_name argv0 = Ok name /\ (slash ∉ name) /\
    let path := default (lit "/usr/local/etc/" ++ name ++ lit ".cfg") (opt_file o) in
    match (if opt_help o || opt_version o then None else read_ini (ptree := ptree) path) with
    | None => init (ptree := ptree) (argv0 :: args) ifs new_config = Ok (false, c')
    | Some t =>
        init (ptree := ptree) (argv0 :: args) ifs new_config = Ok (true, c') /\
        _cfg_file c' = path /\
        (_daemon c' = true <->
          opt_daemon o = Some true \/ get_unsigned 32 t (lit "srv.Daemon") = Some 1)
    end.
Proof.
  intros Hl Ep. destruct (parseCmd_ok argv0 args new_config Hl) as (name & En & Hn & Epc).
  exists name. rewrite Ep in Epc. unfold init. rewrite Epc, ok_bind.
  destruct (opt_help o || opt_version o); simpl; [by eexists|].
  replace (_cfg_file _) with (default (lit "/usr/local/etc/" ++ name ++ lit ".cfg") (opt_file o))
    by (by destruct (opt_file o) eqn:Ef; simpl; rewrite ?Ef).
  destruct (read_ini _) as [t|]; [|by eexists].
  eexists. split_and!; [done..|by destruct (opt_file o) eqn:Ef; simpl; rewrite ?Ef|].
  unfold load, get_uint. simpl.
  replace (_daemon _) with (default false (opt_daemon o)) by (by destruct (opt_file o)).
  destruct (opt_daemon o) as [[]|]; simpl; [by split; [left|]|..];
    destruct (get_unsigned 32 t _) as [z|]; simpl; rewrite Z.eqb_eq || idtac;
    (split; [intros ->; by right|by intros [[=]|[= ->]]]) || (split; [done|by intros [[=]|[=]]]).
Qed.

(** After a successful [init] the addresses the server listens on are
    exactly the IPv4 addresses of the interfaces whose names contain neither
    [lo] nor [tun], at any position. *)
Theorem listen_addresses argv l c c' ip :
  init (ptree := ptree) argv (Some l) c = Ok (true, c') ->
  ip ∈ _srv_ips c' <-> exists i, (i ∈ l) /\ usable i ip.
Proof.
  intros E.
  destruct (init_cases _ _ _ _ _ E) as (c1 & [(_ & [(? & _)|(_ & t & _ & ->)])|(_ & ?)]);
    [done| |done].
  apply load_ips_spec.
Qed.
End facts.

(** ** A concrete configuration *)

(** Pairs of a path and its text; a number is written in decimal. *)
#[local] Instance pairs_ptree : PropertyTree (list (bytes * bytes)) := {
  get_string t path := '(_, (_, v)) ← list_find (fun e => e.1 = path) t; Some v;
  get_unsigned w t path :=
    '(_, (_, v)) ← list_find (fun e => e.1 = path) t;
    if forallb is_digit v && (dec_value v <? 2 ^ w) && (0 <=? dec_value v)
    then Some (dec_value v) else None;
  read_ini path :=
    if decide (path = lit "/usr/local/etc/nat_proxy.cfg") then
      Some [(lit "srv.ListenPort", lit "70000"); (lit "srv.Daemon", lit "1");
            (lit "srv.MaxSessions", lit "500"); (lit "log.RotationSize", lit "400")]
    else None
}.

#[local] Instance pairs_ptree_laws : PropertyTreeLaws (list (bytes * bytes)).
Proof.
  constructor. intros w t path z E. simpl in E.
  destruct (list_find _ t) as [[? [? v]]|]; [|done]. simpl in E.
  destruct (forallb _ v && _ && _) eqn:Eb; [|done]. injection E as <-.
  apply andb_true_iff in Eb as [Eb ?]. apply andb_true_iff in Eb as [_ ?]. bool_to_Z. lia.
Qed.

(** [-d 0] is the only option given. *)
#[local] Instance no_daemon : CommandLine := {
  parse_command_line argv :=
    if decide (argv !! 1%nat = Some (lit "-d")) then
      inl {| opt_help := false; opt_version := false; opt_file := None; opt_log := None;
             opt_daemon := Some false |}
    else inr (lit "unrecognised option")
}.

Definition demo_argv : list bytes := [lit "/usr/bin/nat_proxy"; lit "-d"; lit "0"].
Definition demo_if (name : string) (d : byte) : ifaddr :=
  {| ifa_name := lit name;
     ifa_addr := Some (IfInet Init.Byte.x0a Init.Byte.x00 Init.Byte.x00 d) |}.
(** The loopback interface, a wired and a wireless one. *)
Definition demo_ifs : list ifaddr :=
  [demo_if "lo" Init.Byte.x01; demo_if "eth0" Init.Byte.x02; demo_if "wlo1" Init.Byte.x03].
Definition demo_config : CConfig :=
  (from_ok (false, new_config)
     (init (ptree := list (bytes * bytes)) demo_argv (Some demo_ifs) new_config)).2.

Lemma demo_init :
  init (ptree := list (bytes * bytes)) demo_argv (Some demo_ifs) new_config = Ok (true, demo_config).
Proof. vm_compute. reflexivity. Qed.

Lemma config_well_typed_witness :
  well_typed demo_config /\ (true = true -> _log_rotation_size demo_config ≤ 100).
Proof.
  exact (config_well_typed demo_argv (Some demo_ifs) new_config true demo_config
           new_config_typed demo_init).
Defined.

(** The file is read, and it makes the program a daemon in spite of [-d 0]. *)
Lemma init_outcome_witness :
  exists name c',
    proc_name (lit "/usr/bin/nat_proxy") = Ok name /\ (slash ∉ name) /\
    init (ptree := list (bytes * bytes)) demo_argv None new_config = Ok (true, c') /\
    _cfg_file c' = lit "/usr/local/etc/" ++ name ++ lit ".cfg" /\
    _daemon c' = true.
Proof.
  destruct (init_outcome (ptree := list (bytes * bytes)) (lit "/usr/bin/nat_proxy")
    [lit "-d"; lit "0"] None
    {| opt_help := false; opt_version := false; opt_file := None; opt_log := None;
       opt_daemon := Some false |} ltac:(vm_compute; done) eq_refl) as (name & c' & E & Hn & Hc).
  exists name, c'. split_and!; [done..| | |];
    vm_compute in E; injection E as <-; vm_compute in Hc; destruct Hc as (E1 & E2 & E3); try done.
  by apply E3; right.
Defined.

(** Of the three interfaces only [eth0] is listened on: [wlo1] contains [lo]. *)
Lemma listen_addresses_witness :
  (lit "10.0.0.2" ∈ _srv_ips demo_config) /\ _srv_ips demo_config = [lit "10.0.0.2"].
Proof.
  split; [|vm_compute; reflexivity].
  apply (listen_addresses demo_argv demo_ifs new_config demo_config (lit "10.0.0.2") demo_init).
  exists (demo_if "eth0" Init.Byte.x02). split; [by right; left|].
  apply usable_ip_spec. vm_compute. reflexivity.
Defined.
