(* ===== verification/Startup.v ===== *)
(** * Start-up, shutdown and the main program

    Models [src/main.cpp], [util::daemon] of [src/util/util.cpp], and [init],
    [start], [signalHandle] and [stop] of [src/net/CServer.cpp], with [run] of
    [src/net/CIoContextPool.cpp].

    A program that makes system calls is a tree ([prog]); [exec] runs it on an
    operating system, a function from the calls made so far to the answer of
    the next one. *)
From S2P Require Import Prelude Util IoContextPool RedisClient SessionDb Config Logger.

(** ** Programs with system calls *)

Inductive sig_handler := SIG_IGN | printBacktrace.

Inductive call :=
| Signal (sig : Z) (h : sig_handler)
| Fork
| Setsid
| Close (fd : Z)
| Chdir (path : bytes)
| Umask (mode : Z)
| JoinThreads (n : nat) (* the threads of the pool run: the number of a caught signal, or 0 when all of them end *).

Inductive prog (A : Type) :=
| Ret (a : A)
| Exit (status : Z)
| Call (c : call) (k : Z -> prog A).
Arguments Ret {A} a.
Arguments Exit {A} status.
Arguments Call {A} c k.

#[global] Instance prog_ret : MRet prog := fun A a => Ret a.
#[global] Instance prog_bind : MBind prog := fun A B f =>
  fix bind m :=
    match m with
    | Ret a => f a
    | Exit s => Exit s
    | Call c k => Call c (fun z => bind (k z))
    end.

Definition sys (c : call) : prog Z := Call c Ret.

(** What a process ends with: a value, or [exit]. *)
Inductive ended (A : Type) := Returned (a : A) | Exited (status : Z).
Arguments Returned {A} a.
Arguments Exited {A} status.

Definition os := list call -> call -> Z.

(** The calls of a run, after those of [past], and how it ends. *)
Fixpoint exec {A} (o : os) (past : list call) (m : prog A) : list call * ended A :=
  match m with
  | Ret a => (past, Returned a)
  | Exit s => (past, Exited s)
  | Call c k => exec o (past ++ [c]) (k (o past c))
  end.

(** ** [util::daemon] *)

Definition SIG_ERR : Z := -1.
Definition SIGHUP : Z := 1.
Definition SIGINT : Z := 2.
Definition SIGQUIT : Z := 3.
Definition SIGABRT : Z := 6.
Definition SIGSEGV : Z := 11.
Definition SIGPIPE : Z := 13.
Definition SIGTERM : Z := 15.
Definition SIGTTIN : Z := 21.
Definition SIGTTOU : Z := 22.

Definition root_dir : bytes := lit "/".

(** [if (signal(sig, SIG_IGN) == SIG_ERR) return false;] for each. *)
Fixpoint ignore_signals (sigs : list Z) (k : prog bool) : prog bool :=
  match sigs with
  | [] => k
  | s :: sigs =>
      r ← sys (Signal s SIG_IGN);
      if r =? SIG_ERR then Ret false else ignore_signals sigs k
  end.

Fixpoint close_from (i : Z) (n : nat) : prog unit :=
  match n with
  | O => Ret tt
  | S n => _ ← sys (Close i); close_from (i + 1) n
  end.

Section daemon.
Context (NOFILE : nat). (* of <sys/param.h> *)

Definition daemon : prog bool :=
  ignore_signals [SIGINT; SIGHUP; SIGPIPE; SIGTTOU; SIGTTIN] (
    pid ← sys Fork;
    if negb (pid =? 0) then Exit 0
    else if pid <? 0 then Ret false
    else
      ret ← sys Setsid;
      if ret <? 0 then Ret false
      else
        pid ← sys Fork;
        if negb (pid =? 0) then Exit 0
        else if pid <? 0 then Ret false
        else
          _ ← close_from 0 NOFILE;
          ret ← sys (Chdir root_dir);
          if ret <? 0 then Ret false
          else _ ← sys (Umask 0); Ret true).
End daemon.

(** ** The server *)

(** An acceptor coroutine that was spawned. *)
Record spawned := { sp_id : Z (* uint32_t *); sp_ip : bytes; sp_port : Z; sp_context : nat }.

(** The members of [CServer] that start-up and shutdown work on; its counter of
    connections is [_conn_num] of the [World]. *)
Record CServer := {
  _io_context_pool : CIoContextPool;
  sig_context : nat; (* the context of _signal_sets *)
  _signal_sets : list Z;
  sig_waiting : bool; (* signalHandle is installed *)
  _session_mgr : option (nat * CSessionDb); (* the context and the state of its database *)
  _started : bool;
  acceptors : list spawned
}.

(** [CServer(pool_size)]. *)
Definition new_server (pool_size : Z) : outcome CServer :=
  '(io, p) ← getIoContext (new_pool (Z.to_nat pool_size));
  Ok {| _io_context_pool := p; sig_context := io; _signal_sets := []; sig_waiting := false;
        _session_mgr := None; _started := false; acceptors := [] |}.

(** [init()]; it always returns true. *)
Definition CServer_init (c : CConfig) (s : CServer) : outcome (bool * CServer) :=
  '(io, p) ← getIoContext (_io_context_pool s);
  Ok (true,
      {| _io_context_pool := p; sig_context := sig_context s;
         _signal_sets := [SIGTERM; SIGINT; SIGABRT; SIGSEGV; SIGQUIT]; sig_waiting := true;
         _session_mgr := Some (io, new_db (_rds_passwd c)); _started := true;
         acceptors := acceptors s |}).

Definition set_pool (p : CIoContextPool) (s : CServer) : CServer :=
  {| _io_context_pool := p; sig_context := sig_context s; _signal_sets := _signal_sets s;
     sig_waiting := sig_waiting s; _session_mgr := _session_mgr s; _started := _started s;
     acceptors := acceptors s |}.
Definition set_mgr (m : option (nat * CSessionDb)) (s : CServer) : CServer :=
  {| _io_context_pool := _io_context_pool s; sig_context := sig_context s;
     _signal_sets := _signal_sets s; sig_waiting := sig_waiting s; _session_mgr := m;
     _started := _started s; acceptors := acceptors s |}.
Definition add_acceptor (a : spawned) (s : CServer) : CServer :=
  {| _io_context_pool := _io_context_pool s; sig_context := sig_context s;
     _signal_sets := _signal_sets s; sig_waiting := sig_waiting s;
     _session_mgr := _session_mgr s; _started := _started s; acceptors := acceptors s ++ [a] |}.

(** [CServer::stop()], up to the [exit(0)]; false: the server was not started,
    and nothing is done. *)
Definition CServer_stop (s : CServer) : bool * CServer :=
  if _started s then
    (true,
     {| _io_context_pool := (IoContextPool.stop (_io_context_pool s)).1;
        sig_context := sig_context s; _signal_sets := _signal_sets s; sig_waiting := false;
        _session_mgr := prod_map id SessionDb.stop <$> _session_mgr s; _started := false;
        acceptors := acceptors s |})
  else (false, s).

(** Whether [make_address] and [from_string] accept a text. *)
Class AddressSyntax := { valid_address : bytes -> bool }.

Section server.
Context `{AddressSyntax}.

(** [CSessionMgr::start()], that is [CSessionDb::start()]: the flag is set
    before the address is looked at. *)
Definition start_mgr (c : CConfig) (s : CServer) : outcome unit * CServer :=
  let s := set_mgr (prod_map id SessionDb.start <$> _session_mgr s) s in
  (if valid_address (_rds_ip c) then Ok tt else Throw system_error, s).

(** The loop of [start()]: [i] is its counter. *)
Fixpoint spawn_acceptors (c : CConfig) (i : nat) (ips : list bytes) (s : CServer) :
    outcome CServer :=
  match ips with
  | [] => Ok s
  | ip :: ips =>
      if valid_address ip then
        '(io, p) ← getIoContext (_io_context_pool s);
        spawn_acceptors c (S i) ips
          (add_acceptor {| sp_id := wrap 32 (Z.of_nat i + 1); sp_ip := ip; sp_port := _srv_port c;
                           sp_context := io |} (set_pool p s))
      else Throw system_error
  end.

(** [start()] up to [_io_context_pool.run()]. *)
Definition CServer_start (c : CConfig) (s : CServer) : outcome (bool * CServer) :=
  '(ok, s) ← CServer_init c s;
  if negb ok then Ok (false, (CServer_stop s).2)
  else
    let '(r, s) := start_mgr c s in
    _ ← r;
    s ← spawn_acceptors c 0 (_srv_ips c) s;
    Ok (true, s).

(** The server runs: until all its threads have ended, or a signal is handled. *)
Definition serve (s : CServer) : prog unit :=
  r ← sys (JoinThreads (length (_io_contexts (_io_context_pool s))));
  if bool_decide (r ∈ _signal_sets s) then
    (if (CServer_stop s).1 then Exit 0 else Ret tt)
  else Ret tt.
End server.

(** ** [main] *)

Section main.
Context `{AddressSyntax, FileSystem, CommandLine}.
Context {ptree : Type} `{PropertyTree ptree}.
Context (NOFILE : nat) (tid : Z).

(** The [try] block: whatever is thrown is printed and forgotten. *)
Definition main_server (c : CConfig) : prog (outcome Z) :=
  match (_ ← initLog tid (_proc_name c) (_log_path c) (_log_rotation_size c) (_log_print_level c);
         s ← new_server (_srv_workers c);
         CServer_start c s) with
  | Ok (true, s) => _ ← serve s; Ret (Ok 0)
  | Ok (false, _) => Ret (Ok 0)
  | Throw _ => Ret (Ok 0)
  | UB u => Ret (UB u)
  end.

Definition main_signals : list call :=
  [Signal SIGHUP SIG_IGN; Signal SIGPIPE SIG_IGN; Signal SIGTTOU SIG_IGN; Signal SIGTTIN SIG_IGN;
   Signal SIGABRT printBacktrace; Signal SIGTERM printBacktrace; Signal SIGSEGV printBacktrace].

Fixpoint calls (l : list call) : prog unit :=
  match l with [] => Ret tt | c :: l => _ ← sys c; calls l end.

(** [main(argc, argv)]: an exception that leaves it ends the program abnormally. *)
Definition main (argv : list bytes) (ifaddrs : option (list ifaddr)) : prog (outcome Z) :=
  match Config.init (ptree := ptree) argv ifaddrs new_config with
  | UB u => Ret (UB u)
  | Throw e => Ret (Throw e)
  | Ok (false, _) => Ret (Ok 0)
  | Ok (true, c) =>
      _ ← calls main_signals;
      if _daemon c then
        ok ← daemon NOFILE;
        if negb ok then Ret (Ok 0) else main_server c
      else main_server c
  end.
End main.

(** ** Lemmas *)

Lemma app_cons_snoc {A} (l k : list A) x : l ++ x :: k = (l ++ [x]) ++ k.
Proof. by rewrite <-app_assoc. Qed.

Lemma exec_bind {A B} o past (m : prog A) (f : A -> prog B) :
  exec o past (m ≫= f) =
    match (exec o past m).2 with
    | Returned a => exec o (exec o past m).1 (f a)
    | Exited s => ((exec o past m).1, Exited s)
    end.
Proof.
  revert past. induction m as [a|s|c k IH]; intros past; [done..|].
  exact (IH (o past c) (past ++ [c])).
Qed.

Lemma exec_sys {A} o past c (k : Z -> prog A) :
  exec o past (r ← sys c; k r) = exec o (past ++ [c]) (k (o past c)).
Proof. done. Qed.

Lemma exec_ignore_signals o sigs k past :
  exec o past (ignore_signals sigs k) =
    exec o (past ++ ((fun s => Signal s SIG_IGN) <$> sigs)) k \/
  exists tr s, exec o past (ignore_signals sigs k) = (tr ++ [Signal s SIG_IGN], Returned false) /\
    o tr (Signal s SIG_IGN) = SIG_ERR.
Proof.
  revert past. induction sigs as [|s sigs IH]; intros past; [left; by rewrite app_nil_r|].
  cbn [ignore_signals]. rewrite exec_sys. case_cond.
  - right. bool_to_Z. by exists past, s.
  - rewrite fmap_cons, (app_cons_snoc past (_ <$> _)). apply IH.
Qed.

Definition closes (i : Z) (n : nat) : list call := (fun k => Close (i + Z.of_nat k)) <$> seq 0 n.

Lemma closes_S i n : closes i (S n) = Close i :: closes (i + 1) n.
Proof.
  unfold closes. simpl. rewrite <-seq_shift, <-list_fmap_compose. f_equal; [by rewrite Z.add_0_r|].
  apply list_fmap_ext. intros k x _. simpl. f_equal. lia.
Qed.

Lemma exec_close_from o i n past :
  exec o past (close_from i n) = (past ++ closes i n, Returned tt).
Proof.
  revert i past. induction n as [|n IH]; intros i past; [by rewrite app_nil_r|].
  cbn [close_from]. by rewrite exec_sys, IH, closes_S, (app_cons_snoc past (closes _ _)).
Qed.

Lemma exec_calls o l past : exec o past (calls l) = (past ++ l, Returned tt).
Proof.
  revert past. induction l as [|c l IH]; intros past; [by rewrite app_nil_r|].
  cbn [calls]. by rewrite exec_sys, IH, (app_cons_snoc past l).
Qed.

(** What [daemon] calls when it succeeds. *)
Definition daemon_calls (NOFILE : nat) : list call :=
  ((fun s => Signal s SIG_IGN) <$> [SIGINT; SIGHUP; SIGPIPE; SIGTTOU; SIGTTIN]) ++
  [Fork; Setsid; Fork] ++ closes 0 NOFILE ++ [Chdir root_dir; Umask 0].

(** [daemon] ends in one of three ways.  It returns true after having
    ignored five signals, forked, left the session, forked again, closed every
    descriptor below [NOFILE], gone to the root directory and cleared the
    umask, in this order.  It returns false when the last call, which is not a
    fork, failed.  Otherwise the process exits with status 0 right after a fork
    that answered anything but 0: a parent's exit and a failed fork look the
    same, and the code that reports a failed fork is never reached. *)
Theorem daemon_outcomes NOFILE o past tr r :
  exec o past (daemon NOFILE) = (tr, r) ->
  match r with
  | Returned true => tr = past ++ daemon_calls NOFILE
  | Returned false => exists tr' c, tr = tr' ++ [c] /\ c <> Fork /\ o tr' c < 0
  | Exited s => s = 0 /\ exists tr', tr = tr' ++ [Fork] /\ o tr' Fork <> 0
  end.
Proof.
  unfold daemon. intros E.
  edestruct exec_ignore_signals as [E1|(tr' & s & E1 & Hs)]; rewrite E1 in E;
    [clear E1|injection E as <- <-; exists tr'; eexists; split_and!; [done..|by rewrite Hs]].
  set (d1 := past ++ _) in E. rewrite exec_sys in E.
  destruct (o d1 Fork =? 0) eqn:E1; cbn -[root_dir] in E; bool_to_Z; [|injection E as <- <-; eauto].
  rewrite E1 in E. cbn -[root_dir] in E. set (d2 := d1 ++ _) in E.
  destruct (o d2 Setsid <? 0) eqn:E2; cbn -[root_dir] in E; bool_to_Z;
    [injection E as <- <-; by do 2 eexists|].
  set (d3 := d2 ++ _) in E.
  destruct (o d3 Fork =? 0) eqn:E3; cbn -[root_dir] in E; bool_to_Z; [|injection E as <- <-; eauto].
  rewrite E3 in E. cbn -[root_dir] in E. rewrite exec_bind, exec_close_from in E.
  cbn -[root_dir] in E.
  set (d4 := _ ++ closes _ _) in E.
  destruct (o d4 (Chdir root_dir) <? 0) eqn:E4; cbn -[root_dir] in E; bool_to_Z;
    [injection E as <- <-; by do 2 eexists|].
  injection E as <- <-. unfold d4, d3, d2, d1, daemon_calls. by rewrite <-!app_assoc.
Qed.

(** Every call succeeds; forks answer as in the child. *)
Definition friendly_os : os := fun _ c => 0.
(** No process can be forked. *)
Definition no_fork_os : os := fun _ c => if c is Fork then -1 else 0.

(** When no process can be forked, the program exits with status 0. *)
Lemma daemon_outcomes_witness :
  (0 = 0 /\ exists tr', ((fun s => Signal s SIG_IGN) <$> [SIGINT; SIGHUP; SIGPIPE; SIGTTOU; SIGTTIN])
      ++ [Fork] = tr' ++ [Fork] /\ no_fork_os tr' Fork <> 0) /\
  (exec friendly_os [] (daemon 256)).1 = daemon_calls 256.
Proof.
  split.
  - exact (daemon_outcomes 256 no_fork_os [] _ (Exited 0) eq_refl).
  - apply (daemon_outcomes 256 friendly_os [] _ (Returned true)). vm_compute. reflexivity.
Defined.

Section server_facts.
Context `{AddressSyntax}.

Lemma getIoContext_seq n i :
  (0 < n)%nat ->
  getIoContext (with_index (new_pool n) (i mod n)) =
    Ok ((i mod n)%nat, with_index (new_pool n) (S i mod n)).
Proof.
  intros Hn. unfold getIoContext, with_index. simpl. rewrite length_seq.
  pose proof (Nat.mod_upper_bound i n ltac:(lia)) as Hm.
  rewrite lookup_seq_lt by done. simpl. do 3 f_equal.
  replace (S i mod n)%nat with (S (i mod n) mod n)%nat
    by (apply (Nat.Div0.add_mod_idemp_r 1 i n)).
  case_decide as Hd.
  - by rewrite Hd, Nat.Div0.mod_same.
  - symmetry. apply Nat.mod_small. lia.
Qed.

(** The acceptors that the loop of [start] spawns from its turn [i] on, when
    the next context is [k]. *)
Definition spawned_for (c : CConfig) (n i k : nat) (ips : list bytes) : list spawned :=
  imap (fun j ip => {| sp_id := wrap 32 (Z.of_nat (i + j) + 1); sp_ip := ip;
                       sp_port := _srv_port c; sp_context := ((k + j) mod n)%nat |}) ips.

Lemma spawned_for_cons c n i k ip ips :
  spawned_for c n i k (ip :: ips) =
    {| sp_id := wrap 32 (Z.of_nat i + 1); sp_ip := ip; sp_port := _srv_port c;
       sp_context := (k mod n)%nat |} :: spawned_for c n (S i) (S k) ips.
Proof.
  unfold spawned_for. simpl. rewrite !Nat.add_0_r. f_equal. apply imap_ext.
  intros j x _. simpl. by rewrite !Nat.add_succ_r.
Qed.

Lemma spawn_acceptors_ok c n i k ips s :
  (0 < n)%nat -> Forall (fun ip => valid_address ip = true) ips ->
  _io_context_pool s = with_index (new_pool n) (k mod n) ->
  spawn_acceptors c i ips s =
    Ok {| _io_context_pool := with_index (new_pool n) ((k + length ips) mod n);
          sig_context := sig_context s; _signal_sets := _signal_sets s;
          sig_waiting := sig_waiting s; _session_mgr := _session_mgr s; _started := _started s;
          acceptors := acceptors s ++ spawned_for c n i k ips |}.
Proof.
  intros Hn Hv. revert i k s. induction Hv as [|ip ips Hip _ IH]; intros i k s Hs.
  - simpl. rewrite Nat.add_0_r, <-Hs, app_nil_r. by destruct s.
  - simpl. rewrite Hip, Hs, (getIoContext_seq _ _ Hn), ok_bind, (IH (S i) (S k)) by done.
    by rewrite spawned_for_cons, Nat.add_succ_r, (app_cons_snoc (acceptors s)).
Qed.

(** When there is at least one worker and the addresses are well formed,
    [start] succeeds: the signal set is on context 0, the database on the next
    one, and every local address gets exactly one acceptor, numbered from 1, on
    the contexts in turn; there may be no address at all.  With no worker, the
    constructor already reads outside the vector of contexts. *)
Theorem server_starts c :
  0 ≤ _srv_workers c -> valid_address (_rds_ip c) = true ->
  Forall (fun ip => valid_address ip = true) (_srv_ips c) ->
  let n := Z.to_nat (_srv_workers c) in
  (s ← new_server (_srv_workers c); CServer_start c s) =
    if _srv_workers c =? 0 then UB out_of_bounds_read
    else
      Ok (true,
          {| _io_context_pool := with_index (new_pool n) ((2 + length (_srv_ips c)) mod n);
             sig_context := 0;
             _signal_sets := [SIGTERM; SIGINT; SIGABRT; SIGSEGV; SIGQUIT];
             sig_waiting := true;
             _session_mgr := Some ((1 mod n)%nat, SessionDb.start (new_db (_rds_passwd c)));
             _started := true;
             acceptors :=
               imap (fun i ip => {| sp_id := wrap 32 (Z.of_nat i + 1); sp_ip := ip;
                                    sp_port := _srv_port c; sp_context := ((2 + i) mod n)%nat |})
                 (_srv_ips c) |}).
Proof.
  intros Hw Hr Hv n. unfold new_server. fold n. case_cond; bool_to_Z.
  - unfold n. by rewrite E.
  - assert (0 < n)%nat as Hn by lia.
    change (new_pool n) with (with_index (new_pool n) 0) at 1.
    rewrite <-(Nat.Div0.mod_0_l n) at 1. rewrite (getIoContext_seq n 0 Hn), !ok_bind.
    unfold CServer_start, CServer_init. simpl _io_context_pool.
    rewrite (getIoContext_seq n 1 Hn), !ok_bind. unfold start_mgr. rewrite Hr. simpl.
    rewrite (spawn_acceptors_ok c n 0 2) by done. by rewrite Nat.Div0.mod_0_l.
Qed.

(** The first [stop] of a started server cancels the wait for signals,
    stops the database and every context of the pool, and leads to [exit(0)];
    a second one does nothing.  From then on [getIoContext] reads outside the
    emptied vector, so an acceptor that is at the head of its loop on another
    thread is undefined behaviour until [exit] has ended it. *)
Theorem server_stops s :
  _started s = true ->
  let s' := (CServer_stop s).2 in
  (CServer_stop s).1 = true /\ CServer_stop s' = (false, s') /\
  _started s' = false /\ sig_waiting s' = false /\
  (forall x d, _session_mgr s' = Some (x, d) ->
     SessionDb._started d = false /\ SessionDb.stop d = d) /\
  (IoContextPool._started (_io_context_pool s) = true ->
     (IoContextPool.stop (_io_context_pool s)).2 = _io_contexts (_io_context_pool s) /\
     getIoContext (_io_context_pool s') = UB out_of_bounds_read).
Proof.
  intros Hs. unfold CServer_stop. rewrite Hs. simpl. split_and!; [done..| |].
  - intros x d. destruct (_session_mgr s) as [[y e]|]; [|done]. simpl. intros [= _ <-].
    unfold SessionDb.stop. destruct (SessionDb._started e) eqn:E; simpl; rewrite ?E; done.
  - intros Hp. unfold IoContextPool.stop, getIoContext. by rewrite Hp.
Qed.
End server_facts.

Section main_facts.
Context `{AddressSyntax, FileSystem, CommandLine}.
Context {ptree : Type} `{PropertyTree ptree, !PropertyTreeLaws ptree}.
Context (NOFILE : nat) (tid : Z).

Lemma CServer_start_no_ub c n s u :
  (0 < n)%nat -> _io_context_pool s = with_index (new_pool n) (1 mod n) ->
  CServer_start c s <> UB u.
Proof.
  intros Hn Hs. unfold CServer_start, CServer_init. rewrite Hs, (getIoContext_seq n 1 Hn), !ok_bind.
  unfold start_mgr. simpl. destruct (valid_address (_rds_ip c)); [|done]. simpl.
  match goal with |- context [spawn_acceptors c 0 _ ?x] => set (s1 := x) end.
  assert (_io_context_pool s1 = with_index (new_pool n) (2 mod n)) as Hs1 by done. clearbody s1.
  assert (forall ips i k s, _io_context_pool s = with_index (new_pool n) (k mod n) ->
    spawn_acceptors c i ips s <> UB u) as Hsp.
  { clear -Hn. induction ips as [|ip ips IH]; intros i k s Hs; simpl; [done|].
    destruct (valid_address ip); [|done]. rewrite Hs, (getIoContext_seq n k Hn), ok_bind.
    by apply (IH _ (S k)). }
  specialize (Hsp (_srv_ips c) 0%nat 2%nat s1 Hs1).
  destruct (spawn_acceptors c 0 _ s1); simpl; congruence.
Qed.

Lemma new_server_no_ub c u :
  0 < _srv_workers c -> (s ← new_server (_srv_workers c); CServer_start c s) <> UB u.
Proof.
  intros Hw. set (n := Z.to_nat (_srv_workers c)). assert (0 < n)%nat as Hn by lia.
  unfold new_server. fold n. change (new_pool n) with (with_index (new_pool n) 0).
  rewrite <-(Nat.Div0.mod_0_l n). rewrite (getIoContext_seq n 0 Hn), !ok_bind.
  by apply (CServer_start_no_ub c n).
Qed.

(** How [main] may end: by [exit] or a return with status 0, or by an
    exception or undefined behaviour for one of the reasons given. *)
Definition main_end (argv : list bytes) (ifaddrs : option (list ifaddr)) (r : ended (outcome Z)) :
    Prop :=
  match r with
  | Exited s => s = 0
  | Returned (Ok s) => s = 0
  | Returned (Throw e) => exists msg, parse_command_line argv = inr msg /\ e = logic_error msg
  | Returned (UB _) =>
      argv = [] \/
      exists c, Config.init (ptree := ptree) argv ifaddrs new_config = Ok (true, c) /\
                _srv_workers c = 0
  end.

Lemma exec_serve o past s :
  (exec o past (serve s)).2 = Returned tt \/ (exec o past (serve s)).2 = Exited 0.
Proof. unfold serve. simpl. case_cond; [case_cond|]; auto. Qed.

Lemma exec_main_server o past argv ifaddrs c :
  Config.init (ptree := ptree) argv ifaddrs new_config = Ok (true, c) -> 0 ≤ _srv_workers c ->
  main_end argv ifaddrs (exec o past (main_server tid c)).2.
Proof.
  intros Hi Hw. unfold main_server. destruct (decide (_srv_workers c = 0)) as [Hz|Hz].
  - assert (main_end argv ifaddrs (Returned (UB out_of_bounds_read))) as Hub by (right; eauto).
    destruct (initLog _ _ _ _ _) eqn:El; simpl; [|done|unfold initLog in El; by case_match].
    by rewrite Hz.
  - pose proof (fun u => new_server_no_ub c u ltac:(lia)) as Hn.
    destruct (initLog _ _ _ _ _) eqn:El; [rewrite ok_bind|done|unfold initLog in El; by case_match].
    destruct (new_server _ ≫= _) as [[[] s]|e|u] eqn:E; [|done|done|by destruct (Hn u)].
    rewrite exec_bind. by destruct (exec_serve o past s) as [-> | ->].
Qed.

(** The program never reports a failure in its exit status: whatever the
    system answers, [main] ends with status 0 -- also when the configuration
    cannot be read, the log directory cannot be made, an address is malformed,
    no process can be forked or the last thread has died -- unless a malformed
    command line throws out of it, or no worker is configured.  (What the
    destruction of sessions does to a server that is stopped while clients are
    connected is the subject of [Shutdown.v].) *)
Theorem main_status argv ifaddrs o :
  Z.of_nat (length (default [] (head argv))) < npos ->
  main_end argv ifaddrs (exec o [] (main (ptree := ptree) NOFILE tid argv ifaddrs)).2.
Proof.
  intros Hl. unfold main. destruct argv as [|argv0 args]; [by left|].
  destruct (Config.init _ _ _) as [[[] c]|e|u] eqn:Ei; [|done|..].
  - assert (0 ≤ _srv_workers c) as Hw.
    { destruct (init_cases _ _ _ _ _ Ei) as (c1 & [(_ & [(? & _)|(_ & t & _ & ->)])|(_ & ?)]);
        [done| |done]. apply (load_typed t ifaddrs c1). }
    rewrite exec_bind, exec_calls. cbn [fst snd].
    destruct (_daemon c); [|by apply exec_main_server].
    rewrite exec_bind. destruct (exec o _ (daemon NOFILE)) as [tr r] eqn:Ed.
    destruct r as [[]|s]; cbn [fst snd negb]; [by apply exec_main_server|done|].
    by apply daemon_outcomes in Ed as [-> _].
  - unfold init in Ei. destruct (parseCmd_ok argv0 args new_config Hl) as (name & _ & _ & Ep).
    rewrite Ep in Ei. destruct (parse_command_line _) as [cl|msg] eqn:Epc.
    + rewrite ok_bind in Ei. simpl in Ei. by repeat case_match.
    + injection Ei as <-. by exists msg.
  - unfold init in Ei. destruct (parseCmd_ok argv0 args new_config Hl) as (name & _ & _ & Ep).
    rewrite Ep in Ei. destruct (parse_command_line _); [|done].
    rewrite ok_bind in Ei. simpl in Ei. by repeat case_match.
Qed.
End main_facts.

(** ** Concrete runs *)

(** Every text is an address, and every directory can be made. *)
#[local] Instance any_address : AddressSyntax := {| valid_address := fun _ => true |}.
#[local] Instance any_path : FileSystem :=
  {| fs_exists := fun _ => false; fs_create_directories := fun _ => true |}.
#[local] Existing Instance Config.pairs_ptree.
#[local] Existing Instance Config.pairs_ptree_laws.
#[local] Existing Instance Config.no_daemon.

(** Two addresses, two workers. *)
Definition two_ips : CConfig :=
  load (ptree := list (bytes * bytes)) []
    (Some [demo_if "eth0" Init.Byte.x02; demo_if "eth1" Init.Byte.x03]) new_config.

Lemma server_starts_witness :
  (exists s, (s ← new_server (_srv_workers two_ips); CServer_start two_ips s) = Ok (true, s) /\
     acceptors s =
       [{| sp_id := 1; sp_ip := lit "10.0.0.2"; sp_port := 10001; sp_context := 0 |};
        {| sp_id := 2; sp_ip := lit "10.0.0.3"; sp_port := 10001; sp_context := 1 |}]) /\
  (s ← new_server 0; CServer_start new_config s) = UB out_of_bounds_read.
Proof.
  split.
  - eexists. split; [apply (server_starts two_ips); [done|done|by repeat constructor]|].
    vm_compute. reflexivity.
  - apply (server_starts new_config); [done|done|constructor].
Defined.

Definition running_server : CServer :=
  {| _io_context_pool := new_pool 2; sig_context := 0; _signal_sets := [SIGINT];
     sig_waiting := true; _session_mgr := Some (1%nat, SessionDb.start (new_db []));
     _started := true; acceptors := [] |}.

Lemma server_stops_witness :
  (CServer_stop running_server).1 = true /\
  getIoContext (_io_context_pool (CServer_stop running_server).2) = UB out_of_bounds_read.
Proof.
  destruct (server_stops running_server eq_refl) as (H1 & _ & _ & _ & _ & H2).
  split; [exact H1|]. by apply H2.
Defined.

(** The program starts as a daemon, serves, and ends by a SIGINT. *)
Definition sigint_os : os := fun _ c => if c is JoinThreads _ then SIGINT else 0.

Lemma main_status_witness :
  main_end (ptree := list (bytes * bytes)) demo_argv (Some demo_ifs) (Exited 0) /\
  (exec sigint_os [] (main (ptree := list (bytes * bytes)) 256 7 demo_argv (Some demo_ifs))).2
  = Exited 0.
Proof.
  assert ((exec sigint_os [] (main (ptree := list (bytes * bytes)) 256 7 demo_argv
    (Some demo_ifs))).2 = Exited 0) as E by (vm_compute; reflexivity).
  split; [|exact E]. rewrite <-E.
  apply (main_status (ptree := list (bytes * bytes)) 256 7 demo_argv (Some demo_ifs) sigint_os).
  vm_compute. reflexivity.
Defined.
