(* ===== verification/SessionOut.v ===== *)
(** * Sessions: sending and channel bookkeeping

    The part of [src/net/CSession.cpp] that channels and the manager call back
    into: the write path ([doWrite], [writeImpl], [write],
    [onWriteComplete]), the responses about channels and the two channel maps
    of a session. *)
From S2P Require Import Prelude Protocol SafeContainers SessionStore World.

(** ** The write path *)

Section write_path.
Context {D : Type}.
Implicit Types (w : World D) (r : sref).

(** [doWrite(msg)]: posts [writeImpl] on the strand. *)
Definition doWrite r (msg : bytes) w : World D :=
  if (length msg =? 0)%nat then w
  else upd_session r (fun s => set_posts (posts s ++ [msg]) s) w.
End write_path.

(** [write()]: starts an [async_write] of [_sque\[0\]]. *)
Definition write (s : CSession) : outcome CSession :=
  match _sque s with
  | [] => UB empty_deque
  | msg :: _ => Ok (set_writes (writes s ++ [msg]) s)
  end.

Definition writeImpl (msg : bytes) (s : CSession) : outcome CSession :=
  let s := set_sque (_sque s ++ [msg]) s in
  if (1 <? length (_sque s))%nat then Ok s else write s.

(** The strand runs the oldest posted [writeImpl]. *)
Definition run_post (s : CSession) : option (outcome CSession) :=
  match posts s with
  | [] => None
  | msg :: ps => Some (writeImpl msg (set_posts ps s))
  end.

(** [onWriteComplete(ec, _)] for the oldest outstanding write; [failed] tells
    whether [ec] is set. *)
Definition onWriteComplete (failed : bool) (s : CSession) : option (outcome CSession) :=
  match writes s with
  | [] => None
  | w :: ws =>
      let s := set_writes ws (if failed then s else set_wire (wire s ++ [w]) s) in
      Some (match _sque s with
      | [] => UB empty_deque (* _sque[0] *)
      | _ :: q =>
          let s := set_sque q s in
          if failed then Ok s
          else match q with [] => Ok s | _ :: _ => write s end
      end)
  end.

(** ** Responses *)

(** [host_to_network_short] on a little-endian machine. *)
Definition host_to_network_short (p : Z) : Z := 256 * (p `mod` 256) + p / 256.

Section responses.
Context {D : Type}.
Implicit Types (w : World D) (r : sref).

(** [resp.serialize(hdr)] for the four fixed-size packets, which always
    succeeds (see [resp_layout]). *)
Definition serialized {P} `{CRespPktBase P} (hdr : TagPktHdr) (p : P) : bytes :=
  from_ok [] (resp_serialize hdr p).

(** [onRespStopProxy(id, ep)].  The body length of [hdr] is not assigned by the
    code; the packet does not depend on it. *)
Definition stopproxy_hdr : TagPktHdr :=
  {| ucHead1 := HEADER.H1; ucHead2 := HEADER.H2; ucPrtVersion := PROTOVERSION.V1;
     ucSvrVersion := SVRVERSION.NOENCRYP; ucFunc := FUNC_RESP.STOPPROXY;
     ucKeyIndex := Init.Byte.x00; usBodyLen := 0 |}.

Definition stopproxy_msg (id : Z) (ep : endpoint) : bytes :=
  serialized stopproxy_hdr
    {| rs_uiUdpId := id; rs_uiUdpAddr := ep_addr ep;
       rs_usUdpPort := host_to_network_short (ep_port ep) |}.

Definition onRespStopProxy r (id : Z) (ep : endpoint) w : World D :=
  doWrite r (stopproxy_msg id ep) w.

Definition set_func (f : byte) (h : TagPktHdr) : TagPktHdr :=
  {| ucHead1 := ucHead1 h; ucHead2 := ucHead2 h; ucPrtVersion := ucPrtVersion h;
     ucSvrVersion := ucSvrVersion h; ucFunc := f; ucKeyIndex := ucKeyIndex h;
     usBodyLen := usBodyLen h |}.

(** [onRespAccess(req, chann)], a method of the destination session: [_id] and
    [_private_addr] are the destination's own. *)
Definition access_msg (s : CSession) (req : CReqProxyPkt) (chann : CChannel) : bytes :=
  serialized (set_func FUNC_RESP.ACCESS (px_header req))
    {| ra_uiSrcId := _id s; ra_uiUdpId := ch_id chann;
       ra_uiUdpAddr := ep_addr (_local_ep (_dst_end chann));
       ra_usUdpPort := host_to_network_short (ep_port (_local_ep (_dst_end chann)));
       ra_uiPrivateAddr := _private_addr s |}.

Definition onRespAccess r (req : CReqProxyPkt) (chann : CChannel) w : World D :=
  match sessions w !! r with
  | None => w
  | Some s => doWrite r (access_msg s req chann) w
  end.

Definition proxy_ok_msg (req : CReqProxyPkt) (chann : CChannel) : bytes :=
  serialized (px_header req)
    {| rp_ucErr := ERRCODE.SUCCESS; rp_uiUdpId := ch_id chann;
       rp_uiUdpAddr := ep_addr (_local_ep (_src_end chann));
       rp_usUdpPort := host_to_network_short (ep_port (_local_ep (_src_end chann))) |}.

Definition onRespProxyOk r (req : CReqProxyPkt) (chann : CChannel) w : World D :=
  doWrite r (proxy_ok_msg req chann) w.

Definition proxy_err_msg (req : CReqProxyPkt) (errcode : byte) : bytes :=
  serialized (px_header req)
    {| rp_ucErr := errcode; rp_uiUdpId := 0; rp_uiUdpAddr := 0; rp_usUdpPort := 0 |}.

Definition onRespProxyErr r (req : CReqProxyPkt) (errcode : byte) w : World D :=
  doWrite r (proxy_err_msg req errcode) w.

(** ** The channel maps of a session *)

Definition addSrcChannel r (id : Z) (c : cref) w : bool * World D :=
  match sessions w !! r with
  | None => (false, w)
  | Some s =>
      let '(ret, m) := CChannelMap.insert (id, c) (_src_channels s) in
      (ret, upd_session r (set_src m) w)
  end.

Definition addDstChannel r (id : Z) (c : cref) w : bool * World D :=
  match sessions w !! r with
  | None => (false, w)
  | Some s =>
      let '(ret, m) := CChannelMap.insert (id, c) (_dst_channels s) in
      (ret, upd_session r (set_dst m) w)
  end.

Definition closeSrcChannel r (chann : CChannel) w : World D :=
  let w := upd_session r
    (fun s => set_src (CChannelMap.remove (ch_id chann) (_src_channels s)).2 s) w in
  onRespStopProxy r (ch_id chann) (_local_ep (_src_end chann)) w.

Definition closeDstChannel r (chann : CChannel) w : World D :=
  let w := upd_session r
    (fun s => set_dst (CChannelMap.remove (ch_id chann) (_dst_channels s)).2 s) w in
  onRespStopProxy r (ch_id chann) (_local_ep (_dst_end chann)) w.
End responses.

(** ** Lemmas: the write pipeline of one session *)

(** At most one write is outstanding, and it is the head of the queue. *)
Definition pipe_ok (s : CSession) : Prop :=
  writes s = [] \/ exists m q, _sque s = m :: q /\ writes s = [m].

(** No write has failed so far: the pipeline is busy exactly when the queue is
    not empty. *)
Definition pipe_live (s : CSession) : Prop :=
  writes s = match _sque s with [] => [] | m :: _ => [m] end.

Lemma pipe_live_ok s : pipe_live s -> pipe_ok s.
Proof.
  unfold pipe_live, pipe_ok. destruct (_sque s) as [|m q]; [by left|]. right. eauto.
Qed.

Lemma writeImpl_ok msg s :
  pipe_ok s -> exists s', writeImpl msg s = Ok s' /\ pipe_ok s' /\ (pipe_live s -> pipe_live s').
Proof.
  intros Hp. unfold writeImpl, write. simpl.
  destruct (_sque s) as [|m q] eqn:Eq; simpl.
  - eexists. split; [done|]. unfold pipe_ok, pipe_live. simpl.
    destruct Hp as [->|(m & q & ? & _)]; [|congruence]. split; [right|]; eauto.
  - destruct (length (q ++ [msg])) eqn:El; [rewrite length_app in El; simpl in El; lia|].
    simpl. eexists. split; [done|]. unfold pipe_ok, pipe_live in *. simpl. rewrite Eq in *.
    split; [|done]. destruct Hp as [->|(? & ? & [= <- <-] & ->)]; [by left|right; eauto].
Qed.

Lemma onWriteComplete_ok failed s o :
  pipe_ok s -> onWriteComplete failed s = Some o ->
  exists s', o = Ok s' /\ pipe_ok s' /\ (failed = false -> pipe_live s').
Proof.
  intros Hp. unfold onWriteComplete, write.
  destruct Hp as [->|(m & q & Eq & ->)]; [done|]. intros [= <-].
  destruct failed; simpl; rewrite Eq.
  - eexists. split; [done|]. unfold pipe_ok. simpl. split; [by left|done].
  - destruct q as [|m' q]; eexists; (split; [done|]); unfold pipe_ok, pipe_live; simpl; eauto 6.
Qed.

(** Every message of a session is in exactly one place, in sending order:
    written, queued, or posted. *)
Definition outbox (s : CSession) : list bytes := wire s ++ _sque s ++ posts s.

Lemma run_post_outbox s s' : run_post s = Some (Ok s') -> outbox s' = outbox s.
Proof.
  unfold run_post, writeImpl, write, outbox. destruct (posts s) as [|msg ps] eqn:Ep; [done|].
  simpl. destruct (_sque s) as [|m q]; simpl.
  - by intros [= <-].
  - destruct (length (q ++ [msg])) eqn:El; [rewrite length_app in El; simpl in El; lia|].
    simpl. intros [= <-]. simpl. by rewrite <-app_assoc.
Qed.

Lemma onWriteComplete_outbox s s' :
  pipe_ok s -> onWriteComplete false s = Some (Ok s') -> outbox s' = outbox s.
Proof.
  unfold onWriteComplete, write, outbox.
  intros [->|(m & q & Eq & ->)]; [done|]. simpl. rewrite Eq.
  destruct q as [|m' q]; intros [= <-]; simpl; by rewrite <-app_assoc.
Qed.
