(* ===== verification/Channel.v ===== *)
(** * Channels: set-up, shutdown and the relay coroutines

    Models [src/net/CChannel.cpp] and the class [CChannel] of
    [src/net/CChannel.hpp].  A channel relays UDP datagrams between two ends,
    each owned by a session.  Two coroutines do the work: [uploader] takes
    datagrams from the source end to the destination end, [downloader] the
    other way round; each first runs an authentication loop.

    A coroutine is a state machine: its state is the point where it is
    suspended, and one step takes it, on the completion it waits for, to the
    next suspension. *)
From S2P Require Import Prelude Protocol SafeContainers SessionStore World SessionOut.

(** ** One end of a channel *)

Definition updateTime (t : Z) (e : CEnd) : CEnd :=
  if 0 <? _port_expired e then set_endtime t e else e.

(** [CEnd(io, chann_id, dir, mtu, port_expired)]. *)
Definition new_end (mtu : nat) (port_expired t : Z) : CEnd :=
  updateTime t
    (mkEnd (mkEndpoint 0 0) (mkEndpoint 0 0) None 0 (replicate mtu Init.Byte.x00) port_expired 0
       false true None []).

(** [stop()]: a closed socket is connected to nobody. *)
Definition CEnd_stop (e : CEnd) : CEnd :=
  set_owner None (_owner_id e) (set_peer None (set_open false e)).

Definition zeroBuf (e : CEnd) : CEnd := set_buf (replicate (length (_buf e)) Init.Byte.x00) e.

(** [init(ss)] up to the spawning of the expiry checker ([spawn_checker]).
    [bound] is the port the system chose, [None] when [bind] failed. *)
Definition CEnd_init (r : sref) (ss : CSession) (bound : option Z) (e : CEnd) : bool * CEnd :=
  match sock_local ss with
  | None => (false, e)
  | Some ep =>
      match bound with
      | None => (false, e)
      | Some port =>
          let e := set_owner (Some r) (_id ss) e in
          let e := set_local (mkEndpoint (ep_addr ep) port) e in
          match sock_remote ss with
          | None => (false, e)
          | Some rep =>
              let e := set_remote (mkEndpoint (ep_addr rep) (ep_port (_remote_ep e))) e in
              (true, e)
          end
      end
  end.

(** [portExpiredChecker]: the loop head.  The first part of the result is where
    the coroutine is suspended next, [None] when it ends. *)
Definition checker_loop (t : Z) (e : CEnd) : option checker_pc * CEnd :=
  if sock_open e then
    if _port_expired e <=? t - _endtime e then (None, CEnd_stop e)
    else (Some CheckWait, e)
  else (None, e).

(** Its first run, or the end of its 10 second wait; [failed] when the timer
    reports an error. *)
Definition checker_step (t : Z) (failed : bool) (pc : checker_pc) (e : CEnd) : option checker_pc * CEnd :=
  match pc with
  | CheckInit => checker_loop t e
  | CheckWait => checker_loop t (if failed then CEnd_stop e else e)
  end.

(** [async_receive_from] into [_buf]: a datagram is cut to the buffer. *)
Definition receive (data : bytes) (e : CEnd) : nat * CEnd :=
  let n := (length data `min` length (_buf e))%nat in
  (n, set_buf (take n data ++ drop n (_buf e)) e).

(** [async_send_to(asio::buffer(buf, n), dest)] on the socket of [e]; on a
    closed socket the operation fails and nothing leaves. *)
Definition send_to (dest : endpoint) (buf : bytes) (n : nat) (e : CEnd) : CEnd :=
  if sock_open e then set_datagrams (datagrams e ++ [(dest, take n buf)]) e else e.

(** [async_send]: on a socket that is closed or not connected the operation
    fails and nothing leaves. *)
Definition send (buf : bytes) (n : nat) (e : CEnd) : CEnd :=
  match sock_peer e with None => e | Some peer => send_to peer buf n e end.

Definition doAuth (buf : bytes) (n : nat) : bool := (0 <? n)%nat.

(** ** The coroutines *)

(** What a suspended coroutine is resumed with. *)
Inductive io_event :=
| IoRun (* first run after spawn *)
| IoRecvErr
| IoRecv (from : endpoint) (data : bytes)
| IoSendErr
| IoSend (n : nat).

(** A step yields the channel and whether it calls [CChannel::stop()]; the
    coroutine then ends, because [_started] is false afterwards. *)
Definition co_result : Type := CChannel * bool.

Definition goto_up (pc : co_pc) (ch : CChannel) : co_result := (set_up_at pc ch, false).
Definition goto_down (pc : co_pc) (ch : CChannel) : co_result := (set_down_at pc ch, false).

Definition upload_loop (ch : CChannel) : co_result :=
  goto_up (if ch_started ch then CoRecv else CoDone) ch.

(** The head of the loop of [srcAuth]; when it is left, the relay loop starts. *)
Definition srcAuth_loop (ch : CChannel) : co_result :=
  if ch_started ch && negb (_opened (_src_end ch)) then goto_up CoAuthRecv ch
  else upload_loop ch.

(** After a failed operation on the socket of [e]: [stop()] if the socket is
    closed, otherwise go on with the loop. *)
Definition up_failed (e : CEnd) (loop : CChannel -> co_result) (ch : CChannel) : co_result :=
  if sock_open e then loop ch else (set_up_at CoDone ch, true).
Definition down_failed (e : CEnd) (loop : CChannel -> co_result) (ch : CChannel) : co_result :=
  if sock_open e then loop ch else (set_down_at CoDone ch, true).

Definition src_auth_recv (t : Z) (from : endpoint) (data : bytes) (ch : CChannel) : co_result :=
  let '(n, src) := receive data (set_remote from (_src_end ch)) in
  if (n =? 0)%nat then up_failed src srcAuth_loop (set_src_end src ch) else
  let src := updateTime t src in
  let src := if doAuth (_buf src) n && _opened (_dst_end ch) then set_opened true src
             else zeroBuf src in
  let src := send_to (_remote_ep src) (_buf src) n src in
  goto_up CoAuthSend (set_src_end src ch).

Definition src_auth_send (ok : bool) (ch : CChannel) : co_result :=
  if ok then srcAuth_loop ch
  else let src := set_opened false (_src_end ch) in
       up_failed src srcAuth_loop (set_src_end src ch).

Definition upload_recv (t : Z) (from : endpoint) (data : bytes) (ch : CChannel) : co_result :=
  let '(n, src) := receive data (_src_end ch) in
  let ch := set_src_end src ch in
  if (n =? 0)%nat then up_failed src upload_loop ch else
  if bool_decide (from <> _remote_ep src /\ ep_addr from <> ep_addr (_remote_ep src)) then
    upload_loop ch
  else
  let src := if decide (from = _remote_ep src) then src
             else set_remote (mkEndpoint (ep_addr (_remote_ep src)) (ep_port from)) src in
  let src := updateTime t src in
  let ch := set_src_end src ch in
  if (n <=? 2)%nat then upload_loop ch
  else goto_up CoSend (set_dst_end (send (_buf src) n (_dst_end ch)) ch).

Definition upload_send (n : nat) (ch : CChannel) : co_result :=
  if (n =? 0)%nat then up_failed (_dst_end ch) upload_loop ch
  else upload_loop (set_up_count (wrap 64 (_up_bytes ch + Z.of_nat n))
                                 (wrap 64 (_up_packs ch + 1)) ch).

Definition uploader_step (t : Z) (ev : io_event) (ch : CChannel) : option co_result :=
  match up_at ch, ev with
  | CoInit, IoRun => Some (srcAuth_loop ch)
  | CoAuthRecv, IoRecvErr => Some (up_failed (_src_end ch) srcAuth_loop ch)
  | CoAuthRecv, IoRecv from data => Some (src_auth_recv t from data ch)
  | CoAuthSend, IoSendErr => Some (src_auth_send false ch)
  | CoAuthSend, IoSend n => Some (src_auth_send (negb (n =? 0)%nat) ch)
  | CoRecv, IoRecvErr => Some (up_failed (_src_end ch) upload_loop ch)
  | CoRecv, IoRecv from data => Some (upload_recv t from data ch)
  | CoSend, IoSendErr => Some (upload_send 0 ch)
  | CoSend, IoSend n => Some (upload_send n ch)
  | _, _ => None
  end.

Definition download_loop (ch : CChannel) : co_result :=
  goto_down (if ch_started ch then CoRecv else CoDone) ch.

(** [_dst_end._socket.connect(remote, ec)]: a closed socket is opened first;
    an error is only logged. *)
Definition dst_connect (ok : bool) (e : CEnd) : CEnd :=
  let e := set_open true e in
  if ok then set_peer (Some (_remote_ep e)) e else e.

(** The head of the loop of [dstAuth]; when it is left, the socket is connected
    and the relay loop starts. *)
Definition dstAuth_loop (conn_ok : bool) (ch : CChannel) : co_result :=
  if ch_started ch && negb (_opened (_dst_end ch)) then goto_down CoAuthRecv ch
  else download_loop (set_dst_end (dst_connect conn_ok (_dst_end ch)) ch).

Definition dst_auth_recv (t : Z) (from : endpoint) (data : bytes) (ch : CChannel)
    (loop : CChannel -> co_result) : co_result :=
  let '(n, dst) := receive data (set_remote from (_dst_end ch)) in
  if (n =? 0)%nat then down_failed dst loop (set_dst_end dst ch) else
  let dst := updateTime t dst in
  let dst := if doAuth (_buf dst) n then set_opened true dst else zeroBuf dst in
  let dst := send_to (_remote_ep dst) (_buf dst) n dst in
  goto_down CoAuthSend (set_dst_end dst ch).

Definition dst_auth_send (ok : bool) (ch : CChannel) (loop : CChannel -> co_result) : co_result :=
  if ok then loop ch else down_failed (_dst_end ch) loop ch.

Definition download_recv (t : Z) (data : bytes) (ch : CChannel) : co_result :=
  let '(n, dst) := receive data (_dst_end ch) in
  if (n =? 0)%nat then down_failed dst download_loop (set_dst_end dst ch) else
  let dst := updateTime t dst in
  let ch := set_dst_end dst ch in
  if (n <=? 2)%nat then download_loop ch
  else goto_down CoSend
    (set_src_end (send_to (_remote_ep (_src_end ch)) (_buf dst) n (_src_end ch)) ch).

Definition download_send (n : nat) (ch : CChannel) : co_result :=
  if (n =? 0)%nat then down_failed (_src_end ch) download_loop ch
  else download_loop (set_down_count (wrap 64 (_down_bytes ch + Z.of_nat n))
                                     (wrap 64 (_down_packs ch + 1)) ch).

Definition downloader_step (t : Z) (conn_ok : bool) (ev : io_event) (ch : CChannel) :
    option co_result :=
  let loop := dstAuth_loop conn_ok in
  match down_at ch, ev with
  | CoInit, IoRun => Some (loop ch)
  | CoAuthRecv, IoRecvErr => Some (down_failed (_dst_end ch) loop ch)
  | CoAuthRecv, IoRecv from data => Some (dst_auth_recv t from data ch loop)
  | CoAuthSend, IoSendErr => Some (dst_auth_send false ch loop)
  | CoAuthSend, IoSend n => Some (dst_auth_send (negb (n =? 0)%nat) ch loop)
  | CoRecv, IoRecvErr => Some (down_failed (_dst_end ch) download_loop ch)
  | CoRecv, IoRecv _ data => Some (download_recv t data ch)
  | CoSend, IoSendErr => Some (download_send 0 ch)
  | CoSend, IoSend n => Some (download_send n ch)
  | _, _ => None
  end.

(** The displayer only logs; it lives until it sees [_started] false. *)
Definition displayer_step (ch : CChannel) : option CChannel :=
  match display_at ch with
  | DispInit | DispWait => Some (set_display_at (if ch_started ch then DispWait else DispDone) ch)
  | _ => None
  end.

(** ** Construction, start and stop *)

(** [CChannel(io, id, mtu, port_expired, display_interval)]. *)
Definition new_channel (cfg : config) (id t : Z) : CChannel :=
  let e := new_end (channMTU cfg) (channPortExpired cfg) t in
  mkChannel id e e 0 0 0 0 (channDisplayInterval cfg) false 0 CoNone CoNone DispNone.

Section control.
Context {D : Type}.
Implicit Types (w : World D) (r : sref) (c : cref).

(** The frame of the expiry checker of an end: [None] when it has ended. *)
Definition set_checker c (src : bool) (pc : option checker_pc) w : World D :=
  set_checkers (partial_alter (fun _ => pc) (c, src) (checkers w)) w.

(** The last statement of [CEnd::init]. *)
Definition spawn_checker c (src : bool) (e : CEnd) w : World D :=
  set_checkers (if 0 <? _port_expired e then <[(c, src) := CheckInit]> (checkers w) else checkers w) w.

(** [weak_ptr<CSession>::lock()]. *)
Definition lock_session (o : option sref) w : option sref :=
  match o with
  | None => None
  | Some r => match sessions w !! r with Some _ => Some r | None => None end
  end.

(** [CChannel::stop()]. *)
Definition CChannel_stop c w : World D :=
  match channels w !! c with
  | None => w
  | Some ch =>
      if ch_started ch then
        let w := upd_channel c (set_ch_started false) w in
        let w := match lock_session (_owner_ss (_src_end ch)) w with
                 | Some r => closeSrcChannel r ch w
                 | None => w
                 end in
        let w := match lock_session (_owner_ss (_dst_end ch)) w with
                 | Some r => closeDstChannel r ch w
                 | None => w
                 end in
        upd_channel c (fun ch => set_dst_end (CEnd_stop (_dst_end ch))
                                 (set_src_end (CEnd_stop (_src_end ch)) ch)) w
      else w
  end.

(** [toStop()]: posts [stop] on the strand of the channel. *)
Definition CChannel_toStop c w : World D :=
  upd_channel c (fun ch => set_stop_posts (S (stop_posts ch)) ch) w.

(** The strand runs one posted [stop]. *)
Definition run_stop_post c w : option (World D) :=
  match channels w !! c with
  | Some ch =>
      match stop_posts ch with
      | S n => Some (CChannel_stop c (upd_channel c (set_stop_posts n) w))
      | O => None
      end
  | None => None
  end.

(** [start()]: spawns the coroutines. *)
Definition start_channel (ch : CChannel) : CChannel :=
  if ch_started ch then ch
  else
    let ch := set_ch_started true ch in
    let ch := set_down_at CoInit (set_up_at CoInit ch) in
    if 0 <? _display_interval ch then set_display_at DispInit ch else ch.

Definition CChannel_start c w : World D := upd_channel c start_channel w.

(** [init(src_ss, dst_ss)] with the ports the system binds. *)
Definition CChannel_init c (src dst : sref) (src_port dst_port : option Z) w : bool * World D :=
  match channels w !! c, sessions w !! src, sessions w !! dst with
  | Some ch, Some src_ss, Some dst_ss =>
      let '(ok, e) := CEnd_init src src_ss src_port (_src_end ch) in
      let w := upd_channel c (set_src_end e) w in
      if negb ok then (false, w) else
      let w := spawn_checker c true e w in
      let '(ok, e) := CEnd_init dst dst_ss dst_port (_dst_end ch) in
      let w := upd_channel c (set_dst_end e) w in
      if negb ok then (false, w) else
      let w := spawn_checker c false e w in
      let '(ok, w) := addSrcChannel src (ch_id ch) c w in
      if negb ok then (false, w) else
      let '(ok, w) := addDstChannel dst (ch_id ch) c w in
      if negb ok then
        match channels w !! c with
        | Some ch => (false, closeSrcChannel src ch w)
        | None => (false, w)
        end
      else (true, w)
  | _, _, _ => (false, w)
  end.

(** The last [shared_ptr] to a channel that is not started goes away: the
    destructor's [stop()] does nothing and the object is gone. *)
Definition CChannel_destroy c w : World D := set_channels (delete c (channels w)) w.

(** No [shared_ptr] to the channel is left: the ones that its relay coroutines
    ([uploader], [downloader], [displayer]) and the posted [stop] calls are
    bound to are gone.  An expiry checker is bound to a plain [this]. *)
Definition channel_unreferenced (ch : CChannel) : bool :=
  bool_decide (up_at ch = CoNone \/ up_at ch = CoDone)
  && bool_decide (down_at ch = CoNone \/ down_at ch = CoDone)
  && bool_decide (display_at ch = DispNone \/ display_at ch = DispDone)
  && (stop_posts ch =? 0)%nat.

Definition apply_co c (res : co_result) w : World D :=
  let w := upd_channel c (fun _ => res.1) w in
  if res.2 then CChannel_stop c w else w.

Definition resume_up c (ev : io_event) w : option (World D) :=
  ch ← channels w !! c;
  res ← uploader_step (now w) ev ch;
  Some (apply_co c res w).

Definition resume_down c (conn_ok : bool) (ev : io_event) w : option (World D) :=
  ch ← channels w !! c;
  res ← downloader_step (now w) conn_ok ev ch;
  Some (apply_co c res w).

Definition resume_display c w : option (World D) :=
  ch ← channels w !! c;
  ch' ← displayer_step ch;
  Some (upd_channel c (fun _ => ch') w).

(** The expiry checker of the source ([true]) or destination end goes on.  All
    it does goes through its [this], a [CEnd] inside the channel: when the
    channel is gone, the first access ([_strand] on the first run, [_socket]
    or [_id] after a wait) is one to freed memory. *)
Definition resume_checker c (src failed : bool) w : option (outcome unit * World D) :=
  pc ← checkers w !! (c, src);
  Some (match channels w !! c with
        | None => (UB use_after_free, w)
        | Some ch =>
            let '(pc', e) := checker_step (now w) failed pc (if src then _src_end ch else _dst_end ch) in
            (Ok tt, set_checker c src pc' (upd_channel c (if src then set_src_end e else set_dst_end e) w))
        end).
End control.
