(* ===== verification/SessionMgr.v ===== *)
(** * The session manager

    Models [src/net/CSessionMgr.cpp] and [src/net/CSessionMgr.hpp], with
    [CServer::sessionClosed], which it calls back.  [_ss_map] holds weak
    pointers: an entry whose session is gone finds nothing.

    The manager is a client of the interface [SessionStore]; nothing here
    depends on how [CSessionDb] implements it. *)
From S2P Require Import Prelude Protocol SafeContainers SessionStore World SessionOut Channel.

Section mgr.
Context {D : Type} `{SessionStore D}.
Implicit Types (w : World D) (r : sref).

(** [CSessionMgr(server, ...)] with the database it constructs. *)
Definition new_mgr (d : D) : CSessionMgr D := mkMgr ∅ d ∅ 1000 1.

(** [CServer::sessionClosed]. *)
Definition sessionClosed w : World D := set_conn_num (wrap 32 (_conn_num w - 1)) w.

Definition addSessionWithLock (id : Z) r w : bool * World D :=
  match _ss_map (mgr w) !! id with
  | Some _ => (false, w)
  | None => (true, upd_mgr (fun m => set_ss_map (<[id := r]> (_ss_map m)) m) w)
  end.

Definition getSessionWithLock (id : Z) w : option sref :=
  match _ss_map (mgr w) !! id with
  | None => None
  | Some r => lock_session (Some r) w
  end.

Definition guid_insert (g : bytes) w : bool * World D :=
  let '(ok, s) := CSafeSet.insert g (_guid_set (mgr w)) in (ok, upd_mgr (set_guid_set s) w).

Definition guid_remove (g : bytes) w : World D :=
  upd_mgr (fun m => set_guid_set (CSafeSet.remove g (_guid_set m)).2 m) w.

Definition closeSessionWithLock r w : World D :=
  match sessions w !! r with
  | None => w
  | Some s =>
      let w :=
        if _logined s then
          let w := guid_remove (_guid s) w in
          let w := upd_mgr (fun m => set_ss_db (st_del (_id s) (_ss_db m)) m) w in
          upd_mgr (fun m => set_ss_map (delete (_id s) (_ss_map m)) m) w
        else w in
      if server_alive w then sessionClosed w else w
  end.

(** The two counters: [fetch_add(1)] on [atomic<uint32_t>]. *)
Definition allocSessionId w : Z * World D :=
  (_session_id (mgr w), upd_mgr (fun m => set_session_id (wrap 32 (_session_id m + 1)) m) w).
Definition allocChannelId w : Z * World D :=
  (_channel_id (mgr w), upd_mgr (fun m => set_channel_id (wrap 32 (_channel_id m + 1)) m) w).

(** [type() == SERVER || type() == ANYONE]: such a session is published and
    can be the destination of a proxy request. *)
Definition is_server (t : Z) : bool := (t =? SESSIONTYPE.SERVER) || (t =? SESSIONTYPE.ANYONE).

Definition onSessionLogin r w : bool * World D :=
  match sessions w !! r with
  | None => (false, w)
  | Some s =>
      let '(fresh, w) := guid_insert (_guid s) w in
      if negb fresh then (false, w) else
      let '(id, w) := allocSessionId w in
      let w := upd_session r (set_id id) w in
      if is_server (_session_type s) then
        let '(added, w) := addSessionWithLock id r w in
        if negb added then (false, guid_remove (_guid s) w) else
        match sock_remote s with
        | None => (false, w)
        | Some ep =>
            let info := {| uiId := id; uiAddr := ep_addr ep; sGuid := _guid s |} in
            (true, upd_mgr (fun m => set_ss_db (st_add info (_ss_db m)) m) w)
        end
      else (true, w)
  end.

Definition getAllSessions w : bytes := st_output (_ss_db (mgr w)).

(** [_func_name_map] and its lookup; an unknown code is streamed as the
    character it is. *)
Definition _func_name_map : gmap Z bytes :=
  list_to_map [
    (FUNC_REQ.HEARTBEAT, lit "HEARTB"); (FUNC_REQ.LOGIN, lit "LOGIN");
    (FUNC_REQ.PROXY, lit "PROXY"); (FUNC_REQ.GETPROXIES, lit "GETPROXIES");
    (byte_Z FUNC_RESP.ACCESS, lit "ACCESS"); (byte_Z FUNC_RESP.STOPPROXY, lit "STOPPROXY") ].

Definition getFuncName (func : byte) : bytes :=
  match _func_name_map !! byte_Z func with
  | Some name => name
  | None => [func]
  end.

(** [make_shared<CChannel>]: a new object at an address never used before. *)
Definition make_channel (id : Z) w : cref * World D :=
  let c := heap_next w in
  (c, set_heap_next (S c) (set_channels (<[c := new_channel (gConfig w) id (now w)]> (channels w)) w)).

(** What the system answers while a channel is created: whether the socket
    options can be set, and the port each [bind] chooses. *)
Record chan_env := { ctor_ok : bool; src_port : option Z; dst_port : option Z }.

Definition createChannel (env : chan_env) (src : sref) (dst_id : Z) : M D (option cref) := fun w =>
  if negb (server_alive w) then (Ok None, w) else
  match getSessionWithLock dst_id w with
  | None => (Ok None, w)
  | Some dst =>
      let '(id, w) := allocChannelId w in
      if negb (ctor_ok env) then (Throw system_error, w) else
      let '(c, w) := make_channel id w in
      let '(ok, w) := CChannel_init c src dst (src_port env) (dst_port env) w in
      if ok then (Ok (Some c), w)
      else (Ok None, CChannel_destroy c (CChannel_stop c w))
  end.
End mgr.
