(* ===== verification/Session.v ===== *)
(** * Sessions: lifetime, reading and request handling

    The rest of [src/net/CSession.cpp]: [start], [stop], the timer, the read
    loop and the three request handlers.  A handler that may throw or run into
    undefined behaviour is a computation in the monad [M]. *)
From S2P Require Import Prelude Protocol SafeContainers SessionStore World SessionOut Channel SessionMgr.

Section session.
Context {D : Type} `{SessionStore D}.
Implicit Types (w : World D) (r : sref) (s : CSession).

(** [CSession(mgr, io, timeout)] around a socket that has been accepted. *)
Definition new_session (timeout : Z) (local remote : option endpoint) : CSession :=
  mkSession timeout 0 0 0 [] false false zero_hdr [] [] ∅ ∅ local remote TimerNone [] [] [] [].

(** ** Stop *)

(** [_timer.cancel()]: a running wait ends; an expired one is not recalled. *)
Definition timer_cancel s : CSession :=
  match timer s with TimerWait => set_timer TimerCancelled s | _ => s end.

(** [CChannelMap::stopAll()]: [toStop] for every channel that still exists;
    the map is empty afterwards. *)
Definition stopAll (m : CChannelMap.Map) w : World D :=
  foldr CChannel_toStop w (map_to_list m).*2.

Definition stop_src_channels r w : World D :=
  match sessions w !! r with
  | None => w
  | Some s =>
      if (0 <? CChannelMap.size (_src_channels s))%nat
      then upd_session r (set_src ∅) (stopAll (_src_channels s) w) else w
  end.
Definition stop_dst_channels r w : World D :=
  match sessions w !! r with
  | None => w
  | Some s =>
      if (0 <? CChannelMap.size (_dst_channels s))%nat
      then upd_session r (set_dst ∅) (stopAll (_dst_channels s) w) else w
  end.

(** [stop()] up to its call of the manager. *)
Definition stop_local r w : World D :=
  let w := upd_session r (fun s => set_started false (set_sock None None (timer_cancel s))) w in
  stop_dst_channels r (stop_src_channels r w).

Definition CSession_stop r w : World D :=
  match sessions w !! r with
  | None => w
  | Some s =>
      if _started s then closeSessionWithLock r (stop_local r w)
      else upd_session r (fun s => set_sock None None (timer_cancel s)) w
  end.

(** [~CSession()] when the last [shared_ptr] goes: for a session that is still
    started, [shared_from_this()] throws. *)
Definition CSession_destroy r : M D unit := fun w =>
  match sessions w !! r with
  | None => (Ok tt, w)
  | Some s =>
      if _started s then (Throw bad_weak_ptr, stop_local r w)
      else (Ok tt, set_sessions (delete r (sessions w)) w)
  end.

(** Outstanding operations and posted calls keep a session alive. *)
Definition session_unreferenced s : bool :=
  bool_decide (reads s = []) && bool_decide (writes s = []) && bool_decide (posts s = [])
  && bool_decide (timer s = TimerNone).

(** ** Start, timer, reading *)

Definition doRead r w : World D :=
  upd_session r (fun s => if _started s then set_reads (reads s ++ [ReadHead]) s else s) w.

(** [start()]; [opt_ok]: the [no_delay] option can be set. *)
Definition CSession_start r (opt_ok : bool) : M D unit := fun w =>
  match sessions w !! r with
  | None => (Ok tt, w)
  | Some s =>
      if _started s then (Ok tt, w)
      else
        let w := upd_session r (fun s => set_timer TimerWait (set_started true s)) w in
        if opt_ok then (Ok tt, doRead r w) else (Throw system_error, w)
  end.

(** The wait runs out: its handler is queued. *)
Definition timer_fire s : option CSession :=
  match timer s with TimerWait => Some (set_timer TimerFired s) | _ => None end.

(** The queued handler of the timer, [onTimeout(ec)]. *)
Definition onTimeout r w : option (World D) :=
  s ← sessions w !! r;
  match timer s with
  | TimerFired => Some (CSession_stop r (upd_session r (set_timer TimerNone) w))
  | TimerCancelled => Some (upd_session r (set_timer TimerNone) w)
  | _ => None
  end.

Definition head_ok (h : TagPktHdr) : bool :=
  bool_decide (ucHead1 h = HEADER.H1) && bool_decide (ucHead2 h = HEADER.H2)
  && (bool_decide (SVRVERSION.ENCRYP = ucSvrVersion h)
      || bool_decide (SVRVERSION.NOENCRYP = ucSvrVersion h)).

Definition checkHead s : outcome (bool * CSession) :=
  h ← memcpy_hdr (_rbuf s) 0;
  if head_ok h then Ok (true, set_rbuf h (_rbuf s) s)
  else Ok (false, set_rbuf zero_hdr (drop sizeof_hdr (_rbuf s)) s).

(** [onReadHead(ec, bytes)]. *)
Definition onReadHead r (ec : bool) (n : nat) : M D unit := fun w =>
  match sessions w !! r with
  | None => (Ok tt, w)
  | Some s =>
      if ec || (n =? 0)%nat then (Ok tt, CSession_stop r w) else
      match checkHead s with
      | Ok (ok, s) =>
          let w := upd_session r (fun _ => s) w in
          if ok then
            (Ok tt, upd_session r (fun s => set_reads (reads s ++ [ReadBody (usBodyLen (_hdr s))]) s) w)
          else (Ok tt, CSession_stop r w)
      | Throw e => (Throw e, w)
      | UB u => (UB u, w)
      end
  end.

(** ** Request handlers *)

Definition login_resp (req : CReqLoginPkt) (err : byte) (id : Z) : bytes :=
  serialized (lg_header req) {| rl_ucErr := err; rl_uiId := id |}.

Definition session_id_of r w : Z :=
  match sessions w !! r with Some s => _id s | None => 0 end.

Definition onReqLogin r (req : CReqLoginPkt) w : World D :=
  match sessions w !! r with
  | None => w
  | Some s =>
      if negb (_logined s) then
        let w := upd_session r
          (set_login (lg_szGuid req) (lg_uiPrivateAddr req) (lg_uctype req)) w in
        let '(ok, w) := onSessionLogin r w in
        let w := upd_session r (set_logined ok) w in
        if ok then
          let w := upd_session r timer_cancel w in
          doWrite r (login_resp req ERRCODE.SUCCESS (session_id_of r w)) w
        else doWrite r (login_resp req ERRCODE.LOGINED_FAILED 0) w
      else doWrite r (login_resp req ERRCODE.REPEAT_LOGINED_ERR (_id s)) w
  end.

(** [chann->getDstSession().lock()]. *)
Definition dst_session (c : cref) w : option sref :=
  match channels w !! c with
  | Some ch => lock_session (_owner_ss (_dst_end ch)) w
  | None => None
  end.

Definition isRuning r w : bool :=
  match sessions w !! r with Some s => _started s | None => false end.

(** After [start] the coroutines own the channel; when [onReqProxy] returns
    before that, its [ChannelPtr] is the last one. *)
Definition onReqProxy (env : chan_env) r (req : CReqProxyPkt) : M D unit := fun w =>
  match createChannel env r (px_uiDstId req) w with
  | (Ok None, w) => (Ok tt, onRespProxyErr r req ERRCODE.CREATE_UDP_FAILED w)
  | (Ok (Some c), w) =>
      match dst_session c w with
      | None => (Ok tt, CChannel_destroy c w)
      | Some dst =>
          if negb (isRuning dst w) then (Ok tt, CChannel_destroy c w) else
          let w := CChannel_start c w in
          match channels w !! c with
          | Some ch => (Ok tt, onRespProxyOk r req ch (onRespAccess dst req ch w))
          | None => (Ok tt, w)
          end
      end
  | (Throw e, w) => (Throw e, w)
  | (UB u, w) => (UB u, w)
  end.

Definition onReqGetProxies r (req : CReqGetProxiesPkt) : M D unit := fun w =>
  match resp_serialize (gp_header req) {| rg_sessions := getAllSessions w |} with
  | Ok msg => (Ok tt, doWrite r msg w)
  | Throw e => (Throw e, w)
  | UB u => (UB u, w)
  end.

(** [_session_type == CLIENT || _session_type == ANYONE]. *)
Definition is_client (t : Z) : bool := (t =? SESSIONTYPE.CLIENT) || (t =? SESSIONTYPE.ANYONE).

(** The [switch] of [onReadBody] on the received packet.  [tail] is the memory
    behind the readable bytes; the results of [deserialize] are not looked at. *)
Definition dispatch (env : chan_env) r s (tail : bytes) : M D unit :=
  let pbuf := _rbuf s ++ tail in
  let nmax := Z.of_nat (length (_rbuf s)) in
  let func := byte_Z (ucFunc (_hdr s)) in
  if func =? FUNC_REQ.LOGIN then
    res ← lift (CReqLoginPkt_deserialize pbuf nmax new_login);
    modify (onReqLogin r res.2)
  else if func =? FUNC_REQ.PROXY then
    if is_client (_session_type s) then
      res ← lift (CReqProxyPkt_deserialize pbuf nmax new_proxy);
      onReqProxy env r res.2
    else mret tt
  else if func =? FUNC_REQ.GETPROXIES then
    if is_client (_session_type s) then
      res ← lift (CReqGetProxiesPkt_deserialize pbuf nmax new_getproxies);
      onReqGetProxies r res.2
    else mret tt
  else mret tt.

(** [_rbuf.consume(n)]. *)
Definition consume (n : nat) s : CSession := set_rbuf (_hdr s) (drop n (_rbuf s)) s.

(** [onReadBody(ec, bytes)]. *)
Definition onReadBody (env : chan_env) r (ec : bool) (n : nat) (tail : bytes) : M D unit := fun w =>
  match sessions w !! r with
  | None => (Ok tt, w)
  | Some s =>
      if ec || (n =? 0)%nat then (Ok tt, CSession_stop r w) else
      match dispatch env r s tail w with
      | (Ok _, w) =>
          (Ok tt, doRead r (upd_session r
                    (consume (sizeof_hdr + Z.to_nat (usBodyLen (_hdr s)))) w))
      | (Throw e, w) => (Throw e, w)
      | (UB u, w) => (UB u, w)
      end
  end.

(** An outstanding read completes with [data] appended to the buffer.  Without
    an error [transfer_exactly(n)] delivers [n] bytes, with one at most [n]. *)
Definition read_len (op : read_op) : Z :=
  match op with ReadHead => Z.of_nat sizeof_hdr | ReadBody n => n end.

Definition read_complete (env : chan_env) r (ec : bool) (data tail : bytes) w :
    option (outcome unit * World D) :=
  s ← sessions w !! r;
  match reads s with
  | [] => None
  | op :: ops =>
      if negb ec && negb (Z.of_nat (length data) =? read_len op) then None else
      if read_len op <? Z.of_nat (length data) then None else
      let w := upd_session r (fun s => set_reads ops (set_rbuf (_hdr s) (_rbuf s ++ data) s)) w in
      Some (match op with
            | ReadHead => onReadHead r ec (length data) w
            | ReadBody _ => onReadBody env r ec (length data) tail w
            end)
  end.

(** [getType()]. *)
Definition getType s : bytes :=
  if _session_type s =? SESSIONTYPE.CLIENT then lit "CLIENT"
  else if _session_type s =? SESSIONTYPE.SERVER then lit "SERVER"
  else if _session_type s =? SESSIONTYPE.ANYONE then lit "ANYONE"
  else lit "NONE".
End session.
