(* ===== verification/Server.v ===== *)
(** * The server: accepting connections, and the program as a step relation

    Models [src/net/CServer.cpp] and puts the parts together: [step] takes one
    event of the environment (a connection, a completed read or write, a
    datagram, a timer, ...) to the handler that the program runs for it.
    A handler runs to its end before the next one starts. *)
From S2P Require Import Prelude Protocol SafeContainers SessionStore World SessionOut Channel SessionMgr Session.

Section server.
Context {D : Type} `{SessionStore D}.
Implicit Types (w : World D) (r : sref).

(** ** Accepting *)

(** What one [async_accept] and the calls after it report. *)
Record accepted := {
  acc_ec : bool;
  acc_open : bool;
  acc_remote : option endpoint;
  acc_local : option endpoint;
  acc_no_delay : bool
}.

(** [make_shared<CSession>]: a new object at an address never used before. *)
Definition make_session (s : CSession) w : sref * World D :=
  let r := heap_next w in
  (r, set_heap_next (S r) (set_sessions (<[r := s]> (sessions w)) w)).

Definition exceeds w : bool :=
  (0 <? maxSessions (gConfig w)) && (maxSessions (gConfig w) <? _conn_num w).

(** [make_shared<CSession>] at the head of the loop, with the socket that was
    accepted into it, and [ss->start()] at its end. *)
Definition start_accepted (a : accepted) : M D unit := fun w =>
  let '(r, w) := make_session
    (new_session (freeSessionExpired (gConfig w)) (acc_local a) (acc_remote a)) w in
  CSession_start r (acc_no_delay a) w.

Definition count_conn w : World D := set_conn_num (wrap 32 (_conn_num w + 1)) w.

(** One turn of the loop of [acceptor].  At each [continue] the session that
    was made for the connection goes away again, not started. *)
Definition acceptor (a : accepted) : M D unit := fun w =>
  if acc_ec a then (Ok tt, w) else
  if negb (acc_open a) then (Ok tt, w) else
  match acc_remote a with
  | None => (Ok tt, w)
  | Some _ => if exceeds w then (Ok tt, w) else start_accepted a (count_conn w)
  end.

(** ** Events *)

Inductive event :=
| EvAccept (a : accepted)
| EvRead (r : sref) (ec : bool) (data tail : bytes) (env : chan_env)
| EvPost (r : sref)
| EvWrite (r : sref) (failed : bool)
| EvTimerFire (r : sref)
| EvTimeout (r : sref)
| EvPeerGone (r : sref) (* the peer's address can no longer be read *)
| EvSessionGone (r : sref) (* the last shared_ptr goes *)
| EvUp (c : cref) (ev : io_event)
| EvDown (c : cref) (conn_ok : bool) (ev : io_event)
| EvDisplay (c : cref)
| EvChecker (c : cref) (src failed : bool)
| EvStopPost (c : cref)
| EvChannelGone (c : cref)
| EvClock (t : Z).

(** A handler on one session. *)
Definition on_session r (f : CSession -> option (outcome CSession)) w :
    option (outcome unit * World D) :=
  s ← sessions w !! r;
  o ← f s;
  Some (match o with
        | Ok s => (Ok tt, upd_session r (fun _ => s) w)
        | Throw e => (Throw e, w)
        | UB u => (UB u, w)
        end).

Definition quiet (o : option (World D)) : option (outcome unit * World D) :=
  (fun w => (Ok tt, w)) <$> o.

Definition step (e : event) w : option (outcome unit * World D) :=
  match e with
  | EvAccept a => Some (acceptor a w)
  | EvRead r ec data tail env => read_complete env r ec data tail w
  | EvPost r => on_session r run_post w
  | EvWrite r failed => on_session r (onWriteComplete failed) w
  | EvTimerFire r => on_session r (fun s => Ok <$> timer_fire s) w
  | EvTimeout r => quiet (onTimeout r w)
  | EvPeerGone r => on_session r (fun s => Some (Ok (set_sock (sock_local s) None s))) w
  | EvSessionGone r =>
      s ← sessions w !! r;
      if session_unreferenced s then Some (CSession_destroy r w) else None
  | EvUp c ev => quiet (resume_up c ev w)
  | EvDown c ok ev => quiet (resume_down c ok ev w)
  | EvDisplay c => quiet (resume_display c w)
  | EvChecker c src failed => resume_checker c src failed w
  | EvStopPost c => quiet (run_stop_post c w)
  | EvChannelGone c =>
      ch ← channels w !! c;
      if channel_unreferenced ch then Some (Ok tt, CChannel_destroy c w) else None
  | EvClock t => Some (Ok tt, set_now t w)
  end.

(** The program goes on after a handler that returns, and after one that
    throws (the other contexts still run); [bad_weak_ptr] leaves a destructor,
    which ends the program. *)
Definition goes_on (o : outcome unit) : bool :=
  match o with
  | Ok _ => true
  | Throw bad_weak_ptr => false
  | Throw _ => true
  | UB _ => false
  end.

(** The server after [init] and [start], before the first connection. *)
Definition initial (cfg : config) (t : Z) (d : D) : World D :=
  mkWorld ∅ ∅ (new_mgr d) true 0 t cfg ∅ 0.

(** [n] handlers and steps of the database thread have run. *)
Inductive reach (cfg : config) (t : Z) (d : D) : nat -> World D -> Prop :=
| reach_init : reach cfg t d 0 (initial cfg t d)
| reach_step n w e o w' :
    reach cfg t d n w -> step e w = Some (o, w') -> goes_on o = true ->
    reach cfg t d (S n) w'
| reach_store n w d' :
    reach cfg t d n w -> st_bg (_ss_db (mgr w)) d' ->
    reach cfg t d (S n) (upd_mgr (set_ss_db d') w).

(** Running a list of events, for concrete runs: the last outcome and world. *)
Fixpoint run (es : list event) w : option (outcome unit * World D) :=
  match es with
  | [] => Some (Ok tt, w)
  | e :: es =>
      match step e w with
      | None => None
      | Some (o, w) =>
          match es with
          | [] => Some (o, w)
          | _ => if goes_on o then run es w else None
          end
      end
  end.

Lemma run_reach cfg t d n w es o w' :
  reach cfg t d n w -> run es w = Some (o, w') -> goes_on o = true ->
  reach cfg t d (n + length es) w'.
Proof.
  revert n w. induction es as [|e es IH]; intros n w Hr Hrun Ho; simpl in Hrun |- *.
  - injection Hrun as <- <-. by rewrite Nat.add_0_r.
  - destruct (step e w) as [[o1 w1]|] eqn:E; [|done]. rewrite <-Nat.add_succ_comm.
    destruct es as [|e' es].
    + injection Hrun as <- <-. simpl. rewrite Nat.add_0_r. eauto using reach_step.
    + destruct (goes_on o1) eqn:G; [|done]. eauto using reach_step.
Qed.
End server.
