(* ===== verification/Scenario.v ===== *)
(** * Concrete runs

    Small configurations, packets and event sequences on which the theorems
    about the running server are instantiated, with [CSessionDb] as the
    session database. *)
From S2P Require Import Prelude Protocol SafeContainers SessionStore SessionDb World SessionOut Channel SessionMgr Session Server.

Definition demo_cfg : config :=
  {| maxSessions := 2; freeSessionExpired := 60; channMTU := 16; channPortExpired := 30;
     channDisplayInterval := 0 |}.

Definition demo_init : World CSessionDb := initial demo_cfg 0 (start (new_db [])).

Definition server_ep : endpoint := mkEndpoint 3232235521 9000.
Definition client_ep (k : Z) : endpoint := mkEndpoint (3232235530 + k) 40000.

Definition accept_from (k : Z) : event :=
  EvAccept {| acc_ec := false; acc_open := true; acc_remote := Some (client_ep k);
              acc_local := Some server_ep; acc_no_delay := true |}.

Definition req_hdr (func : Z) (len : nat) : TagPktHdr :=
  {| ucHead1 := HEADER.H1; ucHead2 := HEADER.H2; ucPrtVersion := PROTOVERSION.V1;
     ucSvrVersion := SVRVERSION.NOENCRYP; ucFunc := Z_byte func; ucKeyIndex := Init.Byte.x00;
     usBodyLen := Z.of_nat len |}.

Definition demo_env : chan_env :=
  {| ctor_ok := true; src_port := Some 50001; dst_port := Some 50002 |}.

(** A packet arrives: its header and its body are two completed reads. *)
Definition packet (r : sref) (func : Z) (body : bytes) : list event :=
  [EvRead r false (hdr_bytes (req_hdr func (length body))) [] demo_env;
   EvRead r false body [] demo_env].

Definition login_packet (r : sref) (guid : bytes) (ty : Z) : list event :=
  packet r FUNC_REQ.LOGIN (login_body guid 167772161 [Z_byte ty]).

Definition proxy_packet (r : sref) (src dst : Z) : list event :=
  packet r FUNC_REQ.PROXY (proxy_body src dst []).

(** The world after a run that returns, and the one before it otherwise. *)
Definition after (es : list event) (w : World CSessionDb) : World CSessionDb :=
  match run es w with Some (Ok _, w') => w' | _ => w end.

(** A server with id 1000 and a client with id 1001 log in; the client asks
    for a channel. *)
Definition two_logins : list event :=
  [accept_from 0; accept_from 1]
  ++ login_packet 0 (lit "srv") SESSIONTYPE.SERVER ++ login_packet 1 (lit "cli") SESSIONTYPE.CLIENT.
Definition with_channel : list event := two_logins ++ proxy_packet 1 1001 1000.

Definition logins_world : World CSessionDb := after two_logins demo_init.
Definition channel_world : World CSessionDb := after with_channel demo_init.

Lemma reach_after es w' :
  run es demo_init = Some (Ok tt, w') ->
  reach demo_cfg 0 (start (new_db [])) (length es) w'.
Proof. intros E. by eapply (run_reach demo_cfg 0 _ 0 demo_init es); [constructor|exact E|]. Qed.

Lemma reach_logins : reach demo_cfg 0 (start (new_db [])) 6 logins_world.
Proof. apply (reach_after two_logins). vm_compute. reflexivity. Qed.

Lemma reach_channel : reach demo_cfg 0 (start (new_db [])) 8 channel_world.
Proof. apply (reach_after with_channel). vm_compute. reflexivity. Qed.

Lemma demo_db_inv : st_inv (start (new_db [])).
Proof. split_and!; [by intros ? ? ?|done|by left]. Qed.

(** The session at an address, for stating what a run leads to. *)
Definition session_at {D} (r : sref) (w : World D) : CSession :=
  default (new_session 0 None None) (sessions w !! r).
Definition channel_at {D} (c : cref) (w : World D) : CChannel :=
  default (new_channel demo_cfg 0 0) (channels w !! c).
