(* ===== verification/Frames.v ===== *)
(** * What the channel code leaves alone

    Handlers about channels touch a session only in two ways: they post
    messages on it and they change its channel maps.  [frame w w'] says that
    [w'] differs from [w] in nothing else that the registry of sessions (see
    [Registry.v]) and the read and write pipelines depend on; every channel
    operation is a frame step. *)
From S2P Require Import Prelude Protocol SafeContainers SessionStore World SessionOut Channel SessionMgr Session.

(** A session without its posted messages and channel maps. *)
Definition core (s : CSession) : CSession := set_posts [] (set_src ∅ (set_dst ∅ s)).

Definition quiet_to (s s' : CSession) : Prop := core s' = core s /\ posts s `prefix_of` posts s'.

#[export] Instance quiet_to_preorder : PreOrder quiet_to.
Proof.
  split; [intros s; by split|].
  intros s1 s2 s3 [E1 P1] [E2 P2]. split; [congruence|by etrans].
Qed.

Section frames.
Context {D : Type} `{SessionStore D}.
Implicit Types (w : World D) (r : sref) (c : cref).

Record frame w w' : Prop := {
  fr_sess : forall r, option_Forall2 quiet_to (sessions w !! r) (sessions w' !! r);
  fr_mgr : set_channel_id 0 (mgr w') = set_channel_id 0 (mgr w);
  fr_alive : server_alive w' = server_alive w;
  fr_conn : _conn_num w' = _conn_num w;
  fr_cfg : gConfig w' = gConfig w;
  fr_next : (heap_next w <= heap_next w')%nat
}.

#[export] Instance frame_preorder : PreOrder frame.
Proof.
  split.
  - intros w. split; auto. intros r. by destruct (sessions w !! r); constructor.
  - intros w1 w2 w3 [S1 M1 A1 C1 G1 N1] [S2 M2 A2 C2 G2 N2].
    split; try congruence; [|lia].
    intros r. specialize (S1 r). specialize (S2 r).
    destruct S1; inversion S2; subst; constructor; by etrans.
Qed.

Lemma frame_lookup w w' r s :
  frame w w' -> sessions w !! r = Some s ->
  exists s', sessions w' !! r = Some s' /\ quiet_to s s'.
Proof.
  intros F E. pose proof (fr_sess w w' F r) as Hs. rewrite E in Hs. inversion Hs; subst; eauto.
Qed.

Lemma frame_lookup_None w w' r :
  frame w w' -> sessions w !! r = None -> sessions w' !! r = None.
Proof. intros F E. pose proof (fr_sess w w' F r) as Hs. rewrite E in Hs. by inversion Hs. Qed.

(** The view of the sessions that a frame step preserves. *)
Definition view w : gmap sref CSession := core <$> sessions w.

Lemma frame_view w w' : frame w w' -> view w' = view w.
Proof.
  intros F. apply map_eq. intros r. unfold view. rewrite !lookup_fmap.
  destruct (fr_sess w w' F r) as [s s' [E _]|]; simpl; congruence.
Qed.

(** ** Base cases *)

Lemma frame_upd_session r f w : (forall s, quiet_to s (f s)) -> frame w (upd_session r f w).
Proof.
  intros Hf. split; try done. intros r'. simpl.
  destruct (decide (r = r')) as [->|Hne].
  - rewrite lookup_alter_eq. destruct (sessions w !! r'); simpl; constructor; auto.
  - rewrite lookup_alter_ne by done. by destruct (sessions w !! r'); constructor.
Qed.

Lemma frame_channels m w : frame w (set_channels m w).
Proof. by split. Qed.

Lemma frame_heap n w : (heap_next w <= n)%nat -> frame w (set_heap_next n w).
Proof. by split. Qed.

Lemma frame_checkers v w : frame w (set_checkers v w).
Proof. by split. Qed.

Lemma frame_now n w : frame w (set_now n w).
Proof. by split. Qed.

Lemma frame_channel_id v w : frame w (upd_mgr (set_channel_id v) w).
Proof. by split. Qed.

(** A chain of frame steps, innermost call first. *)
Ltac chain :=
  repeat first
    [ apply frame_channels | apply frame_heap; simpl; lia | apply frame_checkers
    | apply frame_channel_id | reflexivity
    | apply frame_upd_session; intros ?; split; [done|simpl; try done; by apply prefix_app_r] ].

(** ** Sending and channel maps *)

Lemma frame_doWrite r msg w : frame w (doWrite r msg w).
Proof. unfold doWrite. case_match; chain. Qed.

Lemma frame_onRespAccess r req ch w : frame w (onRespAccess r req ch w).
Proof. unfold onRespAccess. case_match; [apply frame_doWrite|chain]. Qed.

Lemma frame_addSrcChannel r id c w : frame w (addSrcChannel r id c w).2.
Proof. unfold addSrcChannel. repeat case_match; chain. Qed.

Lemma frame_addDstChannel r id c w : frame w (addDstChannel r id c w).2.
Proof. unfold addDstChannel. repeat case_match; chain. Qed.

Lemma frame_closeSrcChannel r ch w : frame w (closeSrcChannel r ch w).
Proof. etrans; [|apply frame_doWrite]. chain. Qed.

Lemma frame_closeDstChannel r ch w : frame w (closeDstChannel r ch w).
Proof. etrans; [|apply frame_doWrite]. chain. Qed.

(** ** Channels *)

Lemma frame_CChannel_stop c w : frame w (CChannel_stop c w).
Proof.
  unfold CChannel_stop. do 2 (case_match; [|chain]).
  etrans; [|apply frame_channels].
  etrans; [|case_match; [apply frame_closeDstChannel|reflexivity]].
  etrans; [|case_match; [apply frame_closeSrcChannel|reflexivity]]. apply frame_channels.
Qed.

Lemma frame_run_stop_post c w w' : run_stop_post c w = Some w' -> frame w w'.
Proof.
  unfold run_stop_post. repeat case_match; try done. intros [= <-].
  etrans; [|apply frame_CChannel_stop]. chain.
Qed.

Lemma frame_CChannel_init c r1 r2 p1 p2 w : frame w (CChannel_init c r1 r2 p1 p2 w).2.
Proof.
  unfold CChannel_init. repeat (case_match; try apply frame_channels; try reflexivity).
  all: repeat match goal with
  | E : addSrcChannel ?r ?i ?c ?w = (_, ?w') |- _ =>
      assert (frame w w') by (pose proof (frame_addSrcChannel r i c w) as Hf; by rewrite E in Hf);
      clear E
  | E : addDstChannel ?r ?i ?c ?w = (_, ?w') |- _ =>
      assert (frame w w') by (pose proof (frame_addDstChannel r i c w) as Hf; by rewrite E in Hf);
      clear E
  end; simpl.
  all: try (etrans; [|apply frame_closeSrcChannel]).
  all: repeat (etrans; [|eassumption]); try apply frame_channels.
  all: unfold spawn_checker; repeat first [apply frame_channels | apply frame_checkers | etrans; [|apply frame_channels] | etrans; [|apply frame_checkers]].
Qed.

Lemma frame_CChannel_destroy c w : frame w (CChannel_destroy c w).
Proof. apply frame_channels. Qed.

Lemma frame_apply_co c res w : frame w (apply_co c res w).
Proof.
  unfold apply_co. etrans; [|case_match; [apply frame_CChannel_stop|reflexivity]].
  apply frame_channels.
Qed.

Lemma frame_resume_up c ev w w' : resume_up c ev w = Some w' -> frame w w'.
Proof. unfold resume_up. intros E. simplify_option_eq. apply frame_apply_co. Qed.

Lemma frame_resume_down c ok ev w w' : resume_down c ok ev w = Some w' -> frame w w'.
Proof. unfold resume_down. intros E. simplify_option_eq. apply frame_apply_co. Qed.

Lemma frame_resume_display c w w' : resume_display c w = Some w' -> frame w w'.
Proof. unfold resume_display. intros E. simplify_option_eq. apply frame_channels. Qed.

Lemma frame_spawn_checker c src e w : frame w (spawn_checker c src e w).
Proof. apply frame_checkers. Qed.

Lemma frame_resume_checker c src failed w o w' :
  resume_checker c src failed w = Some (o, w') -> frame w w' /\ (o = Ok tt \/ o = UB use_after_free).
Proof.
  unfold resume_checker. intros E. apply bind_Some in E as (pc & _ & E).
  destruct (channels w !! c); [|by simplify_eq; split; [|auto]].
  destruct (checker_step _ _ _ _). simplify_eq. split; [|auto].
  etrans; [apply frame_channels|apply frame_checkers].
Qed.

(** ** Stopping a session: the registry fields of that session only *)

Lemma frame_stopAll m w : frame w (stopAll m w).
Proof.
  unfold stopAll. induction (map_to_list m).*2 as [|c l IH]; simpl; [done|].
  etrans; [exact IH|apply frame_channels].
Qed.

Lemma frame_stop_src_channels r w : frame w (stop_src_channels r w).
Proof. unfold stop_src_channels. repeat (case_match; [|try done]). etrans; [apply frame_stopAll|chain]. all: done. Qed.

Lemma frame_stop_dst_channels r w : frame w (stop_dst_channels r w).
Proof. unfold stop_dst_channels. repeat (case_match; [|try done]). etrans; [apply frame_stopAll|chain]. all: done. Qed.

Definition stopped (s : CSession) : CSession :=
  set_started false (set_sock None None (timer_cancel s)).

Lemma frame_stop_local r w : frame (upd_session r stopped w) (stop_local r w).
Proof. unfold stop_local. etrans; [apply frame_stop_src_channels|apply frame_stop_dst_channels]. Qed.

(** ** Proxy requests *)

Lemma frame_createChannel env src dst w : frame w (createChannel env src dst w).2.
Proof.
  unfold createChannel. case_match; [done|]. case_match; [|done]. simpl.
  case_match; [apply frame_channel_id|].
  match goal with |- context [CChannel_init ?c ?r1 ?r2 ?p1 ?p2 ?w0] =>
    pose proof (frame_CChannel_init c r1 r2 p1 p2 w0) as Hf;
    destruct (CChannel_init c r1 r2 p1 p2 w0) as [[] w1] end; simpl in *.
  - etrans; [|exact Hf]. etrans; [apply frame_channel_id|].
    etrans; [apply frame_channels|]. apply frame_heap. simpl. lia.
  - etrans; [|apply frame_CChannel_destroy]. etrans; [|apply frame_CChannel_stop].
    etrans; [|exact Hf]. etrans; [apply frame_channel_id|].
    etrans; [apply frame_channels|]. apply frame_heap. simpl. lia.
Qed.

Lemma frame_onReqProxy env r req w : frame w (onReqProxy env r req w).2.
Proof.
  unfold onReqProxy. pose proof (frame_createChannel env r (px_uiDstId req) w) as Hf.
  destruct (createChannel env r (px_uiDstId req) w) as [[[c|]| |] w1]; simpl in *; try done.
  - case_match; [case_match|]; simpl.
    1, 3: etrans; [exact Hf|apply frame_CChannel_destroy].
    case_match; simpl; [|etrans; [exact Hf|apply frame_channels]].
    etrans; [|apply frame_doWrite]. etrans; [|apply frame_onRespAccess].
    etrans; [exact Hf|apply frame_channels].
  - etrans; [exact Hf|apply frame_doWrite].
Qed.

Lemma frame_onReqGetProxies r req w : frame w (onReqGetProxies r req w).2.
Proof. unfold onReqGetProxies. case_match; simpl; [apply frame_doWrite|done|done]. Qed.
End frames.
