(* ===== verification/Registry.v ===== *)
(** * The registry: an abstract specification of who is connected

    What [CServer], [CSessionMgr] and the login part of [CSession] keep
    together, without sockets, buffers, channels and handlers: the clients, the
    GUIDs in use, the directory of proxy servers, the published list and the
    counters.  [Refinement.v] shows that every handler of the program is one
    step of this machine; here the machine itself is proved correct. *)
From S2P Require Import Prelude Protocol SessionStore World SessionMgr.

Record client := mkClient {
  online : bool;
  logined : bool;
  cguid : bytes;
  ctype : Z;
  cid : Z
}.

Record registry := mkReg {
  clients : gmap sref client;
  guids : gset bytes;
  directory : gmap Z sref;
  published : gmap Z SSessionInfo;
  next_id : Z;
  conns : Z;
  next_ref : nat
}.

Definition new_client : client := mkClient true false [] 0 0.

(** ** The operations *)

Definition reg_accept (r : sref) (g : registry) : registry :=
  mkReg (<[r := new_client]> (clients g)) (guids g) (directory g) (published g) (next_id g)
    (wrap 32 (conns g + 1)) (S r).

(** The clients and GUIDs after an attempt to log in [r]. *)
Definition with_client (r : sref) (c : client) (gs : gset bytes) (g : registry) : registry :=
  mkReg (<[r := c]> (clients g)) gs (directory g) (published g) (next_id g) (conns g) (next_ref g).

Definition issue_id (g : registry) : registry :=
  mkReg (clients g) (guids g) (directory g) (published g) (wrap 32 (next_id g + 1)) (conns g)
    (next_ref g).
Definition list_server (id : Z) (r : sref) (g : registry) : registry :=
  mkReg (clients g) (guids g) (<[id := r]> (directory g)) (published g) (next_id g) (conns g)
    (next_ref g).
Definition publish (i : SSessionInfo) (g : registry) : registry :=
  mkReg (clients g) (guids g) (directory g) (insert_new i (published g)) (next_id g) (conns g)
    (next_ref g).

(** A login of a client that is not logged in; [remote] is the address of its
    peer, if it still has one. *)
Definition reg_login (r : sref) (c : client) (guid : bytes) (ty : Z) (remote : option Z)
    (g : registry) : registry :=
  let id := next_id g in
  let in_ ok i := mkClient (online c) ok guid ty i in
  if decide (guid ∈ guids g) then with_client r (in_ false (cid c)) (guids g) g
  else if is_server ty then
    match directory g !! id with
    | Some _ =>
        with_client r (in_ false id) (({[guid]} ∪ guids g) ∖ {[guid]}) (issue_id g)
    | None =>
        let g' := list_server id r (issue_id g) in
        match remote with
        | None => with_client r (in_ false id) ({[guid]} ∪ guids g) g'
        | Some a =>
            with_client r (in_ true id) ({[guid]} ∪ guids g)
              (publish {| uiId := id; uiAddr := a; sGuid := guid |} g')
        end
    end
  else with_client r (in_ true id) ({[guid]} ∪ guids g) (issue_id g).

Definition reg_stop (r : sref) (c : client) (g : registry) : registry :=
  let off := <[r := mkClient false (logined c) (cguid c) (ctype c) (cid c)]> (clients g) in
  if logined c then
    mkReg off (guids g ∖ {[cguid c]}) (delete (cid c) (directory g))
      (delete (cid c) (published g)) (next_id g) (wrap 32 (conns g - 1)) (next_ref g)
  else
    mkReg off (guids g) (directory g) (published g) (next_id g) (wrap 32 (conns g - 1)) (next_ref g).

Definition reg_gone (r : sref) (g : registry) : registry :=
  mkReg (delete r (clients g)) (guids g) (directory g) (published g) (next_id g) (conns g)
    (next_ref g).

Definition reg_bump (n : nat) (g : registry) : registry :=
  mkReg (clients g) (guids g) (directory g) (published g) (next_id g) (conns g) n.

(** [max]: the configured number of sessions, 0 for no limit. *)
Definition full (max : Z) (g : registry) : bool := (0 <? max) && (max <? conns g).

(** ** The machine *)

Inductive reg_step (max : Z) : registry -> registry -> Prop :=
| step_bump n g : (next_ref g <= n)%nat -> reg_step max g (reg_bump n g)
| step_accept r g :
    full max g = false -> (next_ref g <= r)%nat -> reg_step max g (reg_accept r g)
| step_login r c guid ty remote g :
    clients g !! r = Some c -> logined c = false ->
    (remote <> None -> online c = true) ->
    reg_step max g (reg_login r c guid ty remote g)
| step_stop r c g :
    clients g !! r = Some c -> online c = true -> reg_step max g (reg_stop r c g)
| step_gone r c g :
    clients g !! r = Some c -> online c = false -> reg_step max g (reg_gone r g).

(** ** Invariants

    First: addresses are below [next_ref]; logged-in clients that are online
    own their GUID, and no two own the same. *)
Definition active (c : client) : Prop := online c = true /\ logined c = true.

Record guid_inv (g : registry) : Prop := {
  gi_ref : forall r c, clients g !! r = Some c -> (r < next_ref g)%nat;
  gi_owned : forall r c, clients g !! r = Some c -> active c -> cguid c ∈ guids g;
  gi_unique : forall r1 c1 r2 c2,
    clients g !! r1 = Some c1 -> clients g !! r2 = Some c2 -> active c1 -> active c2 ->
    cguid c1 = cguid c2 -> r1 = r2
}.

(** Case analysis on which client a lookup in an updated map finds. *)
Ltac find_client :=
  repeat match goal with
  | H : <[_ := _]> _ !! _ = Some _ |- _ => apply lookup_insert_Some in H as [[? ?]|[? H]]; subst
  | H : delete _ _ !! _ = Some _ |- _ => apply lookup_delete_Some in H as [? H]
  end.

Lemma guid_inv_client r c c' g gs :
  guid_inv g -> clients g !! r = Some c ->
  (forall x, x ∈ guids g -> x ∈ gs) ->
  (active c' -> cguid c' ∈ gs /\ (active c /\ cguid c' = cguid c \/ cguid c' ∉ guids g)) ->
  guid_inv (with_client r c' gs g).
Proof.
  intros [Hr Ho Hu] Ec Hsub Hc. split; simpl.
  - intros r1 c1 E. find_client; eauto.
  - intros r1 c1 E A. find_client; [by apply Hc|eauto].
  - intros r1 c1 r2 c2 E1 E2 A1 A2 Eg. find_client; try done.
    + destruct (Hc A2) as [_ [[A Eq]|Hn]]; [eapply Hu; eauto; congruence|].
      destruct Hn. rewrite <-Eg. eauto.
    + destruct (Hc A1) as [_ [[A Eq]|Hn]]; [eapply Hu; eauto; congruence|].
      destruct Hn. rewrite Eg. eauto.
    + eauto.
Qed.

(** The invariant looks at clients, GUIDs and addresses only. *)
Lemma guid_inv_same g g' :
  clients g' = clients g -> guids g' = guids g -> next_ref g' = next_ref g ->
  guid_inv g -> guid_inv g'.
Proof. intros Ec Eg En [Hr Ho Hu]. split; rewrite ?Ec, ?Eg, ?En; auto. Qed.

Lemma guid_inv_login r c guid ty remote g :
  guid_inv g -> clients g !! r = Some c -> logined c = false ->
  guid_inv (reg_login r c guid ty remote g).
Proof.
  intros I Ec Hl. unfold reg_login. case_decide as Hin; [|case_match; [case_match; [|case_match]|]].
  all: eapply guid_inv_client; [by apply (guid_inv_same g)|exact Ec|set_solver|].
  all: unfold active; simpl; set_solver.
Qed.

Lemma offline_not_active l gu t i : ~ active (mkClient false l gu t i).
Proof. by intros [E _]. Qed.

Lemma guid_inv_stop r c g :
  guid_inv g -> clients g !! r = Some c -> online c = true -> guid_inv (reg_stop r c g).
Proof.
  intros [Hr Ho Hu] Ec Hon. unfold reg_stop. destruct (logined c) eqn:El; split; simpl.
  - intros r1 c1 E. find_client; eauto.
  - intros r1 c1 E A. find_client; [by destruct (offline_not_active _ _ _ _ A)|].
    apply elem_of_difference. split; [eauto|]. rewrite elem_of_singleton.
    intros Eg. by destruct (Hu r1 c1 r c E Ec A (conj Hon El) Eg).
  - intros r1 c1 r2 c2 E1 E2 A1 A2 Eg.
    find_client; try (by destruct (offline_not_active _ _ _ _ ltac:(eassumption))); eauto.
  - intros r1 c1 E. find_client; eauto.
  - intros r1 c1 E A. find_client; [by destruct (offline_not_active _ _ _ _ A)|eauto].
  - intros r1 c1 r2 c2 E1 E2 A1 A2 Eg.
    find_client; try (by destruct (offline_not_active _ _ _ _ ltac:(eassumption))); eauto.
Qed.

Lemma new_client_not_active : ~ active new_client.
Proof. by intros [_ E]. Qed.

Lemma guid_inv_step max g g' : reg_step max g g' -> guid_inv g -> guid_inv g'.
Proof.
  intros Hs I. destruct Hs; eauto using guid_inv_login, guid_inv_stop.
  all: destruct I as [Hr Ho Hu]; split; simpl.
  - intros r1 c1 E. specialize (Hr _ _ E). lia.
  - eauto.
  - eauto.
  - intros r1 c1 E. find_client; [lia|]. specialize (Hr _ _ E). lia.
  - intros r1 c1 E A. find_client; [by destruct (new_client_not_active A)|eauto].
  - intros r1 c1 r2 c2 E1 E2 A1 A2 Eg.
    find_client; try (by destruct (new_client_not_active ltac:(eassumption))); eauto.
  - intros r1 c1 E. find_client; eauto.
  - intros r1 c1 E A. find_client; eauto.
  - intros r1 c1 r2 c2 E1 E2 A1 A2 Eg. find_client; eauto.
Qed.

(** Second: the connection counter is the number of clients that are online,
    modulo 2^32. *)
Definition is_online (kv : sref * client) : Prop := online kv.2 = true.
#[export] Instance is_online_dec kv : Decision (is_online kv) := decide (online kv.2 = true).

Definition count_online (g : registry) : Z := Z.of_nat (size (filter is_online (clients g))).

Definition conn_inv (g : registry) : Prop := conns g = wrap 32 (count_online g).

Lemma count_new r c' (m : gmap sref client) :
  m !! r = None ->
  Z.of_nat (size (filter is_online (<[r := c']> m))) =
  Z.of_nat (size (filter is_online m)) + Z.b2z (online c').
Proof.
  intros E. destruct (online c') eqn:Eo.
  - rewrite map_filter_insert_True by done. rewrite map_size_insert_None; [simpl; lia|].
    apply map_lookup_filter_None_2. by left.
  - rewrite map_filter_insert_not'; [simpl; lia| |].
    + unfold is_online. simpl. congruence.
    + intros y Ey. congruence.
Qed.

Lemma count_delete r c (m : gmap sref client) :
  m !! r = Some c ->
  Z.of_nat (size (filter is_online (delete r m))) =
  Z.of_nat (size (filter is_online m)) - Z.b2z (online c).
Proof.
  intros E. rewrite <-(insert_delete_id m r c E) at 2.
  rewrite count_new by apply lookup_delete_eq. lia.
Qed.

Lemma count_insert r c c' (m : gmap sref client) :
  m !! r = Some c ->
  Z.of_nat (size (filter is_online (<[r := c']> m))) =
  Z.of_nat (size (filter is_online m)) - Z.b2z (online c) + Z.b2z (online c').
Proof.
  intros E. rewrite <-insert_delete_eq, count_new, (count_delete r c) by (done || apply lookup_delete_eq).
  done.
Qed.

Lemma fresh_client g r : guid_inv g -> (next_ref g <= r)%nat -> clients g !! r = None.
Proof.
  intros I Hr. destruct (clients g !! r) as [c|] eqn:E; [|done].
  pose proof (gi_ref g I r c E). lia.
Qed.

Lemma conn_inv_login r c guid ty remote g :
  conn_inv g -> clients g !! r = Some c -> conn_inv (reg_login r c guid ty remote g).
Proof.
  unfold conn_inv, count_online. intros I E.
  assert (forall gs g' c', clients g' = clients g -> conns g' = conns g -> online c' = online c ->
    conns (with_client r c' gs g') =
    wrap 32 (Z.of_nat (size (filter is_online (clients (with_client r c' gs g')))))) as Hw.
  { intros gs g' c' Ec En Eo. simpl. rewrite Ec, En, (count_insert r c) by done.
    rewrite Eo, I. f_equal. lia. }
  unfold reg_login. repeat case_match; by apply Hw.
Qed.

Lemma conn_inv_step max g g' :
  reg_step max g g' -> guid_inv g -> conn_inv g -> conn_inv g'.
Proof.
  intros Hs Ig I. destruct Hs; eauto using conn_inv_login; unfold conn_inv, count_online in *.
  - simpl. rewrite count_new by eauto using fresh_client. rewrite I. unfold wrap.
    by rewrite Zplus_mod_idemp_l.
  - unfold reg_stop. case_match; simpl;
      rewrite (count_insert r c), H0, I by done; unfold wrap; simpl;
      rewrite Zminus_mod_idemp_l; f_equal; lia.
  - simpl. rewrite (count_delete r c), H0, I by done. f_equal. simpl. lia.
Qed.

(** Third, as long as the session counter has not wrapped: ids are unique, the
    directory finds every server that is online under its id, and the
    published list is exactly the servers that are online. *)
Definition server_online (g : registry) (r : sref) (c : client) : Prop :=
  clients g !! r = Some c /\ active c /\ is_server (ctype c) = true.

Record id_inv (g : registry) : Prop := {
  ii_low : 1000 <= next_id g;
  ii_cid : forall r c, clients g !! r = Some c -> logined c = true -> 1000 <= cid c < next_id g;
  ii_unique : forall r1 c1 r2 c2,
    clients g !! r1 = Some c1 -> clients g !! r2 = Some c2 ->
    logined c1 = true -> logined c2 = true -> cid c1 = cid c2 -> r1 = r2;
  ii_issued : forall id r, directory g !! id = Some r -> id < next_id g;
  ii_dir : forall r c, server_online g r c -> directory g !! cid c = Some r;
  ii_pub : forall id i, published g !! id = Some i ->
    uiId i = id /\ exists r c, server_online g r c /\ cid c = id /\ cguid c = sGuid i;
  ii_listed : forall r c, server_online g r c -> is_Some (published g !! cid c)
}.

Lemma server_online_with r c' gs g r1 c1 :
  server_online (with_client r c' gs g) r1 c1 ->
  r1 = r /\ c1 = c' /\ active c' /\ is_server (ctype c') = true \/
  r1 <> r /\ server_online g r1 c1.
Proof.
  intros (E & A & S). simpl in E.
  apply lookup_insert_Some in E as [[-> ->]|[Hne E]]; [by left|].
  right. split; [done|exact (conj E (conj A S))].
Qed.

Lemma server_online_keep r c' gs g r1 c1 :
  server_online g r1 c1 -> r1 <> r -> server_online (with_client r c' gs g) r1 c1.
Proof. intros (E & A & S) Hne. split; [|done]. simpl. by rewrite lookup_insert_ne. Qed.

Lemma id_inv_issue g : next_id g < 2 ^ 32 - 1 -> id_inv g -> id_inv (issue_id g).
Proof.
  intros Hw [Hl Hc Hu Hi Hd Hp Hs].
  assert (wrap 32 (next_id g + 1) = next_id g + 1) as E by (apply Z.mod_small; lia).
  split; simpl; rewrite ?E; auto; try lia.
  - intros r c Er Hg. specialize (Hc _ _ Er Hg). lia.
  - intros id r Er. specialize (Hi _ _ Er). lia.
Qed.

(** A client that is not logged in and does not become so. *)
Lemma id_inv_failed r c c' gs g :
  id_inv g -> clients g !! r = Some c -> logined c = false -> logined c' = false ->
  id_inv (with_client r c' gs g).
Proof.
  intros [Hl Hc Hu Hi Hd Hp Hs] Er El El'.
  split; simpl; auto.
  - intros r1 c1 E. find_client; [congruence|eauto].
  - intros r1 c1 r2 c2 E1 E2 L1 L2. find_client; try congruence. eauto.
  - intros r1 c1 [(-> & -> & [_ ?] & _)|[_ S]]%server_online_with; [congruence|eauto].
  - intros id i E. destruct (Hp id i E) as (Ei & r1 & c1 & S & Ec). split; [done|].
    exists r1, c1. split; [|done]. apply server_online_keep; [done|].
    intros ->. destruct S as (S & [_ A] & _). congruence.
  - intros r1 c1 [(-> & -> & [_ ?] & _)|[_ S]]%server_online_with; [congruence|eauto].
Qed.

Lemma id_inv_list id r g :
  id_inv g -> id < next_id g -> (forall r c, clients g !! r = Some c -> logined c = true -> cid c <> id) ->
  id_inv (list_server id r g).
Proof.
  intros [Hl Hc Hu Hi Hd Hp Hs] Hid Hn. split; simpl; auto.
  - intros id' r' [[<- _]|[_ E]]%lookup_insert_Some; eauto.
  - intros r1 c1 S. rewrite lookup_insert_ne; [by apply Hd|].
    intros E. destruct S as (S & [_ A] & _). by apply (Hn r1 c1 S A).
Qed.

(** A client logs in under an id that no client has. *)
Lemma id_inv_logged r c c' gs g :
  id_inv g -> clients g !! r = Some c -> logined c = false ->
  1000 <= cid c' < next_id g ->
  (forall r1 c1, clients g !! r1 = Some c1 -> logined c1 = true -> cid c1 <> cid c') ->
  is_server (ctype c') = false ->
  id_inv (with_client r c' gs g).
Proof.
  intros [Hl Hc Hu Hi Hd Hp Hs] Er El Hid Hn Ht.
  split; simpl; auto.
  - intros r1 c1 E. find_client; eauto.
  - intros r1 c1 r2 c2 E1 E2 L1 L2 Eq. find_client; try done; [| |eauto].
    + by destruct (Hn r1 c1).
    + by destruct (Hn r2 c2).
  - intros r1 c1 [(-> & -> & _ & ?)|[_ S]]%server_online_with; [congruence|eauto].
  - intros id i E. destruct (Hp id i E) as (Ei & r1 & c1 & S & Ec). split; [done|].
    exists r1, c1. split; [|done]. apply server_online_keep; [done|].
    intros ->. destruct S as (S & [_ A] & _). congruence.
  - intros r1 c1 [(-> & -> & _ & ?)|[_ S]]%server_online_with; [congruence|eauto].
Qed.

Lemma id_inv_published r c c' a gs g :
  id_inv g -> clients g !! r = Some c -> logined c = false -> active c' ->
  1000 <= cid c' < next_id g ->
  (forall r1 c1, clients g !! r1 = Some c1 -> logined c1 = true -> cid c1 <> cid c') ->
  directory g !! cid c' = Some r -> is_server (ctype c') = true ->
  id_inv (with_client r c' gs
    (publish {| uiId := cid c'; uiAddr := a; sGuid := cguid c' |} g)).
Proof.
  intros [Hl Hc Hu Hi Hd Hp Hs] Er El Ha Hid Hn Hdir Ht.
  assert (published g !! cid c' = None) as Hnone.
  { destruct (published g !! cid c') as [i|] eqn:E; [|done].
    destruct (Hp _ _ E) as (_ & r1 & c1 & (S & [_ A] & _) & Eq & _).
    by destruct (Hn r1 c1 S A). }
  split; simpl; unfold insert_new; simpl; rewrite ?Hnone; auto.
  - intros r1 c1 E. find_client; eauto.
  - intros r1 c1 r2 c2 E1 E2 L1 L2 Eq. find_client; try done; [| |eauto].
    + by destruct (Hn r1 c1).
    + by destruct (Hn r2 c2).
  - intros r1 c1 [(-> & -> & _)|[_ S]]%server_online_with; eauto.
  - intros id i [[<- <-]|[_ E]]%lookup_insert_Some.
    + split; [done|]. exists r, c'. repeat split; try apply Ha; try done. simpl. apply lookup_insert_eq.
    + destruct (Hp id i E) as (Ei & r1 & c1 & S & Ec). split; [done|].
      exists r1, c1. split; [|done]. apply server_online_keep; [done|].
      intros ->. destruct S as (S & [_ A] & _). congruence.
  - intros r1 c1 [(-> & -> & _)|[_ S]]%server_online_with.
    + by rewrite lookup_insert_eq.
    + destruct (decide (cid c' = cid c1)) as [->|Hne]; [by rewrite lookup_insert_eq|].
      rewrite lookup_insert_ne by done. by apply (Hs r1).
Qed.

Lemma id_inv_login r c guid ty remote g :
  next_id g < 2 ^ 32 - 1 -> id_inv g -> clients g !! r = Some c -> logined c = false ->
  (remote <> None -> online c = true) -> id_inv (reg_login r c guid ty remote g).
Proof.
  intros Hw I Ec El Hon.
  assert (forall r1 c1, clients g !! r1 = Some c1 -> logined c1 = true -> cid c1 <> next_id g) as Hn.
  { intros r1 c1 E L. pose proof (ii_cid g I r1 c1 E L). lia. }
  assert (1000 <= next_id g < next_id (issue_id g)) as Hid.
  { pose proof (ii_low g I). simpl. unfold wrap. rewrite Z.mod_small; lia. }
  pose proof (id_inv_issue g Hw I) as I'.
  unfold reg_login. case_decide; [by eapply id_inv_failed|].
  destruct (is_server ty) eqn:Et; [|by eapply id_inv_logged].
  destruct (directory g !! next_id g) eqn:Ed.
  { pose proof (ii_issued g I _ _ Ed). lia. }
  assert (id_inv (list_server (next_id g) r (issue_id g))) as I''.
  { apply id_inv_list; [done|lia|done]. }
  destruct remote as [a|]; [|by eapply id_inv_failed].
  eapply (id_inv_published r c (mkClient (online c) true guid ty (next_id g))); try done.
  - by split; [apply Hon|].
  - simpl. by rewrite lookup_insert_eq.
Qed.

Lemma id_inv_stop r c g :
  id_inv g -> clients g !! r = Some c -> online c = true -> id_inv (reg_stop r c g).
Proof.
  intros [Hl Hc Hu Hi Hd Hp Hs] Er Hon.
  set (g' := reg_stop r c g).
  assert (clients g' = <[r := mkClient false (logined c) (cguid c) (ctype c) (cid c)]> (clients g)) as Ecl.
  { unfold g', reg_stop. by destruct (logined c). }
  assert (next_id g' = next_id g) as En by (unfold g', reg_stop; by destruct (logined c)).
  assert (forall r1 c1, server_online g' r1 c1 -> r1 <> r /\ server_online g r1 c1) as Hin.
  { intros r1 c1 (E & A & S). rewrite Ecl in E.
    find_client; [by destruct (offline_not_active _ _ _ _ A)|].
    split; [congruence|exact (conj E (conj A S))]. }
  assert (forall r1 c1, server_online g r1 c1 -> r1 <> r -> server_online g' r1 c1) as Hout.
  { intros r1 c1 (E & A & S) Hne. split; [|done]. rewrite Ecl. by rewrite lookup_insert_ne. }
  assert (forall r1 c1, server_online g r1 c1 -> r1 <> r -> logined c = true -> cid c <> cid c1) as Hne.
  { intros r1 c1 (E & [_ A] & S) Hne El Eq. eauto. }
  split; rewrite ?En, ?Ecl; auto.
  - intros r1 c1 E. find_client; simpl; eauto.
  - intros r1 c1 r2 c2 E1 E2 L1 L2 Eq. find_client; simpl in *; eauto.
  - intros id r1. unfold g', reg_stop. destruct (logined c); simpl; intros E; find_client; eauto.
  - intros r1 c1 S. apply Hin in S as [Hr S]. pose proof (Hd _ _ S) as Ed.
    unfold g', reg_stop. destruct (logined c) eqn:El; simpl; [|done].
    rewrite lookup_delete_ne; eauto.
  - intros id i E. assert (published g !! id = Some i /\ (logined c = true -> cid c <> id)) as [E' Hid].
    { revert E. unfold g', reg_stop. destruct (logined c); simpl; intros E; find_client; by split. }
    destruct (Hp id i E') as (Ei & r1 & c1 & S & Ec & Eg). split; [done|].
    exists r1, c1. split; [|done]. apply Hout; [done|]. intros ->.
    destruct S as (S & [_ A] & _). rewrite Er in S. injection S as <-. by apply Hid.
  - intros r1 c1 S. apply Hin in S as [Hr S]. pose proof (Hs _ _ S) as Ed.
    unfold g', reg_stop. destruct (logined c) eqn:El; simpl; [|done].
    rewrite lookup_delete_ne; eauto.
Qed.

Lemma id_inv_accept r g : guid_inv g -> (next_ref g <= r)%nat -> id_inv g -> id_inv (reg_accept r g).
Proof.
  intros Ig Hr [Hl Hc Hu Hi Hd Hp Hs]. pose proof (fresh_client g r Ig Hr) as Hf.
  assert (forall r1 c1, server_online (reg_accept r g) r1 c1 <-> server_online g r1 c1) as Hso.
  { intros r1 c1. unfold server_online. simpl. split.
    - intros (E & A & S). find_client; [by destruct (new_client_not_active A)|]. exact (conj E (conj A S)).
    - intros (E & A & S). split; [|done]. rewrite lookup_insert_ne; [done|congruence]. }
  split; simpl; auto.
  - intros r1 c1 E L. find_client; eauto. done.
  - intros r1 c1 r2 c2 E1 E2 L1 L2. find_client; try done. eauto.
  - intros r1 c1 S. by apply Hd, Hso.
  - intros id i E. destruct (Hp id i E) as (Ei & r1 & c1 & S & Ec). split; [done|].
    exists r1, c1. split; [by apply Hso|done].
  - intros r1 c1 S. by apply (Hs r1), Hso.
Qed.

Lemma id_inv_gone r c g :
  clients g !! r = Some c -> online c = false -> id_inv g -> id_inv (reg_gone r g).
Proof.
  intros Er Hon [Hl Hc Hu Hi Hd Hp Hs].
  assert (forall r1 c1, server_online (reg_gone r g) r1 c1 <-> server_online g r1 c1) as Hso.
  { intros r1 c1. unfold server_online. simpl. split.
    - intros (E & A & S). find_client. exact (conj E (conj A S)).
    - intros (E & A & S). split; [|done]. rewrite lookup_delete_ne; [done|].
      intros <-. destruct A. congruence. }
  split; simpl; auto.
  - intros r1 c1 E L. find_client; eauto.
  - intros r1 c1 r2 c2 E1 E2 L1 L2. find_client; eauto.
  - intros r1 c1 S. by apply Hd, Hso.
  - intros id i E. destruct (Hp id i E) as (Ei & r1 & c1 & S & Ec). split; [done|].
    exists r1, c1. split; [by apply Hso|done].
  - intros r1 c1 S. by apply (Hs r1), Hso.
Qed.

Lemma id_inv_step max g g' :
  reg_step max g g' -> next_id g < 2 ^ 32 - 1 -> guid_inv g -> id_inv g -> id_inv g'.
Proof.
  intros Hs Hw Ig I. destruct Hs; eauto using id_inv_login, id_inv_stop, id_inv_accept, id_inv_gone.
  by destruct I.
Qed.

(** A step issues at most one id. *)
Lemma next_id_step max g g' :
  reg_step max g g' -> next_id g < 2 ^ 32 - 1 -> 0 <= next_id g -> next_id g <= next_id g' <= next_id g + 1.
Proof.
  intros Hs Hw Hp.
  assert (wrap 32 (next_id g + 1) = next_id g + 1) as E by (apply Z.mod_small; lia).
  destruct Hs; simpl; try lia.
  - unfold reg_login. repeat case_match; simpl; lia.
  - unfold reg_stop. case_match; simpl; lia.
Qed.

(** Fourth: the session limit, as long as the counter cannot wrap. *)
Lemma conns_small g : conn_inv g -> 0 <= count_online g < 2 ^ 32 -> conns g = count_online g.
Proof. intros I Hc. rewrite I. by apply Z.mod_small. Qed.

Lemma limit_step max g g' :
  0 < max < 2 ^ 32 - 1 -> reg_step max g g' -> guid_inv g -> conn_inv g ->
  count_online g <= max + 1 -> count_online g' <= max + 1.
Proof.
  intros Hm Hs Ig Ic Hc.
  assert (0 <= count_online g) as Hp by (unfold count_online; lia).
  destruct Hs as [n g Hn|r g Hf Hr|r c guid ty remote g Er El Hon|r c g Er Hon|r c g Er Hon].
  - done.
  - unfold full in Hf. rewrite conns_small in Hf by (done || lia).
    apply andb_false_iff in Hf as [Hf|Hf]; bool_to_Z; [lia|].
    unfold count_online in *. simpl. rewrite count_new by by apply fresh_client. simpl. lia.
  - assert (count_online (reg_login r c guid ty remote g) = count_online g) as ->; [|done].
    unfold count_online, reg_login.
    repeat case_match; simpl; rewrite (count_insert r c) by done; simpl; lia.
  - unfold count_online, reg_stop in *. case_match; simpl;
      rewrite (count_insert r c), Hon by done; simpl; lia.
  - unfold count_online, reg_gone in *. simpl. rewrite (count_delete r c), Hon by done. simpl. lia.
Qed.
