(* ===== verification/SessionMachine.v ===== *)
(** * A session seen on its own: the session state machine

    [sess_step] lists what the program ever does to one [CSession] object; its
    parameter tells whether a write may fail.
    [session_machine_step] shows that every handler, whatever object it runs
    on, moves every session along such steps; a property of single sessions is
    then proved on [sess_step] alone. *)
From stdpp Require Import relations.
From S2P Require Import Prelude Protocol SafeContainers SessionStore World SessionOut Channel SessionMgr Session Frames Server.

(** ** The machine *)

(** A [uint32_t]. *)
Definition u32 (z : Z) : Prop := 0 ≤ z < 2 ^ 32.

Inductive sess_step (wf : bool) : CSession -> CSession -> Prop :=
| ss_quiet s s' : quiet_to s s' -> sess_step wf s s'
| ss_stop s : sess_step wf s (stopped s)
| ss_login s g a t : _logined s = false -> u32 a -> u32 t -> sess_step wf s (set_login g a t s)
| ss_id s v : _logined s = false -> u32 v -> sess_step wf s (set_id v s)
| ss_logined s :
    _logined s = false -> sess_step wf s (timer_cancel (set_logined true s))
| ss_timer_fire s s' : timer_fire s = Some s' -> sess_step wf s s'
| ss_timer_done s :
    timer s = TimerFired \/ timer s = TimerCancelled -> sess_step wf s (set_timer TimerNone s)
| ss_peer_gone s : sess_step wf s (set_sock (sock_local s) None s)
| ss_post s s' : run_post s = Some (Ok s') -> sess_step wf s s'
| ss_written failed s s' :
    (failed = true -> wf = true) -> onWriteComplete failed s = Some (Ok s') -> sess_step wf s s'
| ss_read_head s :
    reads s = [] -> _rbuf s = [] -> _started s = true -> sess_step wf s (set_reads [ReadHead] s)
| ss_head s data :
    reads s = [ReadHead] -> _rbuf s = [] -> length data = sizeof_hdr ->
    head_ok (hdr_of_bytes data) = true ->
    sess_step wf s (set_reads [ReadBody (usBodyLen (hdr_of_bytes data))]
                   (set_rbuf (hdr_of_bytes data) data s))
| ss_body s n data :
    reads s = [ReadBody n] -> Z.of_nat (length data) = n ->
    sess_step wf s (set_reads [] (set_rbuf (_hdr s) (_rbuf s ++ data) s))
| ss_consume s :
    reads s = [] -> length (_rbuf s) = (sizeof_hdr + Z.to_nat (usBodyLen (_hdr s)))%nat ->
    sess_step wf s (set_rbuf (_hdr s) [] s)
| ss_read_over s op h b :
    reads s = [op] -> h = _hdr s \/ h = zero_hdr ->
    Z.of_nat (length b) <= Z.of_nat (length (_rbuf s)) + Z.max 0 (read_len op) ->
    sess_step wf s (set_reads [] (set_rbuf h b s)).

(** A session as [acceptor] makes it. *)
Inductive sess_init (cfg : config) : CSession -> Prop :=
| si_started local remote :
    sess_init cfg (set_timer TimerWait (set_started true
      (new_session (freeSessionExpired cfg) local (Some remote)))).

(** ** The read pipeline

    At most one read is outstanding; a head is read into an empty buffer, a
    body behind exactly the header that announced it. *)
Definition read_ok (s : CSession) : Prop :=
  reads s = [] \/
  reads s = [ReadHead] /\ _rbuf s = [] \/
  exists data, length data = sizeof_hdr /\ _rbuf s = data /\ _hdr s = hdr_of_bytes data /\
    head_ok (_hdr s) = true /\ reads s = [ReadBody (usBodyLen (_hdr s))].

Lemma core_eq_io s s' :
  core s = core s' ->
  reads s = reads s' /\ _rbuf s = _rbuf s' /\ _hdr s = _hdr s' /\ writes s = writes s' /\
  _sque s = _sque s' /\ wire s = wire s' /\ _started s = _started s' /\
  _logined s = _logined s' /\ timer s = timer s' /\ sock_remote s = sock_remote s' /\
  _guid s = _guid s' /\ _id s = _id s' /\ _session_type s = _session_type s' /\
  sock_local s = sock_local s' /\ _private_addr s = _private_addr s'.
Proof. destruct s, s'. unfold core, set_posts, set_src, set_dst. simpl. intros [=]. by subst. Qed.

(** A step changes the named part of the state in one way only. *)
Ltac ss_cases Hs :=
  destruct Hs as
    [s s' [Hc Hp]|s|s g a t Hl Ha Ht|s v Hl Hv|s Hl|s s' Hf|s Hf|s|s s' Hr|failed s s' Hwf Hw
    |s Hr Hb Hst|s data Hr Hb Hd Hh|s n data Hr Hd|s Hr Hd|s op h b Hr Hh Hb];
  try (apply core_eq_io in Hc as (?&?&?&?&?&?&?&?&?&?&?&?&?&?&?)).

Lemma timer_fire_eq s s' : timer_fire s = Some s' -> s' = set_timer TimerFired s.
Proof. unfold timer_fire. by destruct (timer s); intros [= <-]. Qed.

Lemma writeImpl_frame msg s s' :
  writeImpl msg s = Ok s' ->
  exists w, s' = set_writes w (set_sque (_sque s ++ [msg]) s).
Proof.
  unfold writeImpl, write. destruct (1 <? _)%nat.
  - intros [= <-]. by exists (writes s).
  - destruct (_sque _); [done|]. intros [= <-]. eauto.
Qed.

Lemma run_post_frame s s' :
  run_post s = Some (Ok s') -> exists w q p, s' = set_writes w (set_sque q (set_posts p s)).
Proof.
  unfold run_post. case_match; [done|]. intros [= E]. apply writeImpl_frame in E as [w ->]. eauto.
Qed.

Lemma onWriteComplete_frame failed s s' :
  onWriteComplete failed s = Some (Ok s') ->
  exists w q v, s' = set_writes w (set_sque q (set_wire v s)).
Proof.
  unfold onWriteComplete, write. destruct (writes s) as [|m ws]; [done|].
  destruct failed; simpl; destruct (_sque s) as [|m0 q]; try done; simpl.
  - intros [= <-]. by exists ws, q, (wire s).
  - destruct q; intros [= <-]; eauto.

Qed.

Lemma read_ok_step wf s s' : sess_step wf s s' -> read_ok s -> read_ok s'.
Proof.
  intros Hs I. ss_cases Hs; try (apply timer_fire_eq in Hf as ->);
    try (apply run_post_frame in Hr as (?&?&?&->));
    try (apply onWriteComplete_frame in Hw as (?&?&?&->)); try exact I.
  - unfold read_ok in *.
    repeat match goal with E : ?f s' = ?f s |- _ => rewrite E; clear E end. done.
  - unfold stopped, timer_cancel; simpl. destruct (timer s); exact I.
  - unfold stopped, timer_cancel; simpl. destruct (timer s); exact I.
  - right; left. by split.
  - right; right. by exists data.
  - by left.
  - left. exact Hr.
  - by left.
Qed.

(** ** Handlers move sessions along the machine *)

Section evolve.
Context {D : Type} `{SessionStore D} (wf : bool) (cfg : config).
Implicit Types (w : World D) (r : sref) (c : cref).

(** The counters that sessions take their ids from and are counted in, and the
    configuration they are made with. *)
Definition ids_ok w : Prop :=
  u32 (_session_id (mgr w)) /\ u32 (_conn_num w) /\ gConfig w = cfg.

Definition moved w w' : Prop :=
  forall r s', sessions w' !! r = Some s' ->
  exists s, sessions w !! r = Some s /\ rtc (sess_step wf) s s'.
Definition evolve w w' : Prop := ids_ok w -> ids_ok w' /\ moved w w'.

#[export] Instance evolve_preorder : PreOrder evolve.
Proof.
  split; [intros w Hi; split; [done|]; intros r s E; by exists s|].
  intros w1 w2 w3 H1 H2 I1. destruct (H1 I1) as [I2 M1]. destruct (H2 I2) as [I3 M2].
  split; [done|]. intros r s3 E3.
  destruct (M2 r s3 E3) as (s2 & E2 & R2). destruct (M1 r s2 E2) as (s1 & E1 & R1).
  exists s1. split; [done|by etrans].
Qed.

Lemma evolve_frame w w' : frame w w' -> evolve w w'.
Proof.
  intros F I. split.
  { unfold ids_ok in *. rewrite (fr_conn w w' F), (fr_cfg w w' F).
    pose proof (f_equal _session_id (fr_mgr w w' F)) as E. simpl in E. by rewrite E. }
  intros r s' E'. destruct (sessions w !! r) as [s|] eqn:E.
  - destruct (frame_lookup w w' r s F E) as (s2 & E2 & Hq).
    exists s. split; [done|]. rewrite E' in E2. injection E2 as <-. by apply rtc_once, ss_quiet.
  - by rewrite (frame_lookup_None w w' r F E) in E'.
Qed.

Lemma evolve_same w w' : sessions w' = sessions w -> (ids_ok w -> ids_ok w') -> evolve w w'.
Proof. intros Es Hi I. split; [by apply Hi|]. intros r s E. rewrite Es in E. by exists s. Qed.

Lemma evolve_upd r f w :
  (forall s, sessions w !! r = Some s -> rtc (sess_step wf) s (f s)) -> evolve w (upd_session r f w).
Proof.
  intros Hf I. split; [exact I|]. intros r' s' E. simpl in E. destruct (decide (r = r')) as [->|Hne].
  - rewrite lookup_alter_eq in E. destruct (sessions w !! r') as [s|] eqn:E0; [|done].
    injection E as <-. exists s. auto.
  - rewrite lookup_alter_ne in E by done. by exists s'.
Qed.

Lemma evolve_insert r s s' w w' :
  sessions w !! r = Some s -> sessions w' = <[r := s']> (sessions w) -> rtc (sess_step wf) s s' ->
  (ids_ok w -> ids_ok w') -> evolve w w'.
Proof.
  intros Es E Hr Hi I. split; [by apply Hi|]. intros r1 s1 E1. rewrite E in E1.
  apply lookup_insert_Some in E1 as [[<- <-]|[_ E1]]; [by exists s|by exists s1].
Qed.

Lemma alter_insert_at {A} (f : A -> A) r a (m : gmap nat A) :
  m !! r = Some a -> alter f r m = <[r := f a]> m.
Proof. intros E. apply map_eq. intros r'. destruct (decide (r = r')) as [->|Hne].
  - by rewrite lookup_alter_eq, E, lookup_insert_eq.
  - by rewrite lookup_alter_ne, lookup_insert_ne.
Qed.

Lemma evolve_delete r w : evolve w (set_sessions (delete r (sessions w)) w).
Proof.
  intros I. split; [exact I|]. intros r' s' E. simpl in E.
  apply lookup_delete_Some in E as [_ E]. by exists s'.
Qed.

Lemma sessions_closeSessionWithLock r w : sessions (closeSessionWithLock r w) = sessions w.
Proof. unfold closeSessionWithLock. repeat case_match; done. Qed.

Lemma u32_wrap z : u32 (wrap 32 z).
Proof. apply Z.mod_pos_bound. lia. Qed.

Lemma ids_ok_closeSessionWithLock r w : ids_ok w -> ids_ok (closeSessionWithLock r w).
Proof.
  intros (Hs & Hc & Hg). unfold closeSessionWithLock.
    repeat case_match; split_and!; simpl; by try apply u32_wrap.
Qed.

Lemma not_started_stopped s :
  _started s = false -> set_sock None None (timer_cancel s) = stopped s.
Proof.
  intros E. unfold stopped, timer_cancel. destruct s; simpl in *. subst.
  by destruct timer.
Qed.

Lemma evolve_CSession_stop r w : evolve w (CSession_stop r w).
Proof.
  unfold CSession_stop. destruct (sessions w !! r) as [s|] eqn:Es; [|done].
  destruct (_started s) eqn:Est.
  - etrans; [|apply evolve_same; [apply sessions_closeSessionWithLock|apply ids_ok_closeSessionWithLock]].
    etrans; [|apply evolve_frame, frame_stop_local].
    apply evolve_upd. intros; by apply rtc_once, ss_stop.
  - apply evolve_upd. intros s0 E0. rewrite Es in E0. injection E0 as <-.
    rewrite not_started_stopped by done. by apply rtc_once, ss_stop.
Qed.

Lemma sessions_onSessionLogin r w s :
  sessions w !! r = Some s ->
  sessions (onSessionLogin r w).2 = sessions w \/
  exists id, (ids_ok w -> u32 id) /\ sessions (onSessionLogin r w).2 = alter (set_id id) r (sessions w).
Proof.
  intros E. unfold onSessionLogin. rewrite E. unfold guid_insert.
  destruct (CSafeSet.insert _ _) as [[] gs]; simpl; [|by left].
  right. exists (_session_id (mgr w)). split; [by intros [? _]|].
  repeat first [case_match; simplify_eq/= | done].
  all: unfold addSessionWithLock in *; repeat case_match; simplify_eq/=; done.
Qed.

Lemma ids_ok_onSessionLogin r w : ids_ok w -> ids_ok (onSessionLogin r w).2.
Proof.
  intros (Hs & Hc & Hg). unfold onSessionLogin, guid_insert, guid_remove, addSessionWithLock, allocSessionId.
  repeat (case_match; simplify_eq/=); split_and!; simpl; by try apply u32_wrap.
Qed.

(** A login request as the parser fills it. *)
Definition login_ok (req : CReqLoginPkt) : Prop := u32 (lg_uiPrivateAddr req) /\ u32 (lg_uctype req).

(** The session after the login of a client that is not logged in. *)
Lemma evolve_onReqLogin r req w : login_ok req -> evolve w (onReqLogin r req w).
Proof.
  intros [Ha Ht]. unfold onReqLogin. destruct (sessions w !! r) as [s|] eqn:Es; [|done].
  destruct (_logined s) eqn:El; simpl; [apply evolve_frame, frame_doWrite|].
  set (w1 := upd_session r _ w).
  assert (sessions w1 !! r = Some (set_login (lg_szGuid req) (lg_uiPrivateAddr req) (lg_uctype req) s)) as E1.
  { simpl. by rewrite lookup_alter_eq, Es. }
  assert (evolve w w1) as V1.
  { apply evolve_upd. intros s0 E0. rewrite Es in E0. injection E0 as <-. by apply rtc_once, ss_login. }
  pose proof (sessions_onSessionLogin r w1 _ E1) as Hs2.
  pose proof (ids_ok_onSessionLogin r w1) as Hi2.
  destruct (onSessionLogin r w1) as [ok w2]. cbn [snd] in Hs2, Hi2. clearbody w1.
  assert (exists s2, sessions w2 !! r = Some s2 /\ _logined s2 = false) as (s2 & E2 & L2).
  { destruct Hs2 as [->|(id & _ & ->)]; [by eexists|]. eexists. by rewrite lookup_alter_eq, E1. }
  assert (evolve w1 w2) as V2.
  { destruct Hs2 as [Hs2|(id & Hid & Hs2)]; [by apply evolve_same|]. intros I1.
    eapply (evolve_insert r _ (set_id id _)); [exact E1| |by apply rtc_once, ss_id; [|apply Hid]|exact Hi2|exact I1].
    rewrite Hs2. by apply alter_insert_at. }
  etrans; [exact V1|]. etrans; [exact V2|].
  destruct ok; (etrans; [|apply evolve_frame, frame_doWrite]).
  - eapply (evolve_insert r s2); [done| |by apply rtc_once, ss_logined|done].
    simpl. rewrite (alter_insert_at _ r s2 (sessions w2) E2).
    erewrite alter_insert_at by apply lookup_insert_eq. by rewrite insert_insert_eq.
  - apply evolve_upd. intros s0 E0. rewrite E2 in E0. injection E0 as <-.
    replace (set_logined false s2) with s2; [done|]. destruct s2. simpl in L2. by subst.
Qed.

Lemma memcpy_u32_range m off z : memcpy_u32 m off = Ok z -> u32 z.
Proof.
  unfold memcpy_u32, mem_read. intros (l & E & [= <-])%outcome_bind_Ok. case_match; [|done].
  injection E as <-. pose proof (le_Z_range (take 4 (drop off m))) as Hr.
  assert (Z.of_nat (length (take 4 (drop off m))) <= 4) as Hl by (rewrite length_take; lia).
  pose proof (Z.pow_le_mono_r 256 _ 4 ltac:(lia) Hl). unfold u32. lia.
Qed.

Lemma login_deserialize_ok m n res :
  CReqLoginPkt_deserialize m n new_login = Ok res -> login_ok res.2.
Proof.
  unfold CReqLoginPkt_deserialize. case_match; [intros [= <-]; by split|].
  intros (h & _ & (c & _ & E)%outcome_bind_Ok)%outcome_bind_Ok.
  case_match; [injection E as <-; by split|].
  apply outcome_bind_Ok in E as (g & _ & E). apply outcome_bind_Ok in E as (a & Ha & E).
  apply outcome_bind_Ok in E as (ty & Ht & [= <-]). split; simpl; [by eapply memcpy_u32_range|].
  case_match; [by injection Ht as <-|]. case_match; [|by injection Ht as <-].
  apply outcome_bind_Ok in Ht as (b & _ & [= <-]). pose proof (byte_Z_range b). unfold u32. lia.
Qed.

Lemma evolve_dispatch env r s tail w : evolve w (dispatch env r s tail w).2.
Proof.
  unfold dispatch, mbind, mret, M_bind, M_ret, lift, modify.
  repeat case_match; simpl; simplify_eq/=; try done;
    first [apply evolve_onReqLogin; by eapply login_deserialize_ok | apply evolve_frame, frame_onReqProxy
          | apply evolve_frame, frame_onReqGetProxies].
Qed.

(** Projections of all sessions. *)
Lemma frame_proj {A} (p : CSession -> A) w w' :
  (forall s s', core s' = core s -> p s' = p s) -> frame w w' ->
  p <$> sessions w' = p <$> sessions w.
Proof.
  intros Hp F. apply map_eq. intros r. rewrite !lookup_fmap.
  pose proof (fr_sess w w' F r) as Hs. inversion Hs as [s s' [E _]|]; simpl; [|done].
  f_equal. by apply Hp.
Qed.

Lemma upd_proj {A} (p : CSession -> A) r f w :
  (forall s, p (f s) = p s) -> p <$> sessions (upd_session r f w) = p <$> sessions w.
Proof.
  intros Hp. apply map_eq. intros r'. simpl. rewrite !lookup_fmap.
  destruct (decide (r = r')) as [->|Hne].
  - rewrite lookup_alter_eq. destruct (sessions w !! r'); simpl; [by rewrite Hp|done].
  - by rewrite lookup_alter_ne.
Qed.

Definition read_state (s : CSession) := (reads s, _rbuf s, _hdr s).

Lemma read_state_core s s' : core s' = core s -> read_state s' = read_state s.
Proof. intros (E1&E2&E3&_)%core_eq_io. unfold read_state. congruence. Qed.

(** A login changes nothing but these fields. *)
Lemma proj_onReqLogin {A} (p : CSession -> A) r req w :
  (forall s v, p (set_posts v s) = p s) -> (forall s g a t, p (set_login g a t s) = p s) ->
  (forall s v, p (set_id v s) = p s) -> (forall s v, p (set_logined v s) = p s) ->
  (forall s, p (timer_cancel s) = p s) ->
  p <$> sessions (onReqLogin r req w) = p <$> sessions w.
Proof.
  intros Hp Hl Hi Hd Ht.
  assert (forall msg w, p <$> sessions (doWrite r msg w) = p <$> sessions w) as Hw.
  { intros msg w0. unfold doWrite. case_match; [done|]. by apply upd_proj. }
  unfold onReqLogin. destruct (sessions w !! r) as [s|] eqn:Es; [|done].
  destruct (_logined s); cbn [negb]; [by rewrite Hw|].
  set (w1 := upd_session r _ w).
  assert (p <$> sessions w1 = p <$> sessions w) as <- by by apply upd_proj.
  assert (exists s1, sessions w1 !! r = Some s1) as [s1 E1].
  { unfold w1. simpl. rewrite lookup_alter_eq, Es. by eexists. }
  pose proof (sessions_onSessionLogin r w1 s1 E1) as Hs2.
  destruct (onSessionLogin r w1) as [ok w2]. cbn [snd] in Hs2. clearbody w1.
  assert (p <$> sessions w2 = p <$> sessions w1) as <-.
  { destruct Hs2 as [->|(id & _ & ->)]; [done|]. by apply (upd_proj p r (set_id id) w1). }
  destruct ok; rewrite Hw; [rewrite upd_proj by done|]; by apply upd_proj.
Qed.

Lemma read_state_onReqLogin r req w :
  read_state <$> sessions (onReqLogin r req w) = read_state <$> sessions w.
Proof. apply proj_onReqLogin; try done. intros s. unfold timer_cancel. by destruct (timer s). Qed.

Lemma read_state_dispatch env r s tail w :
  read_state <$> sessions (dispatch env r s tail w).2 = read_state <$> sessions w.
Proof.
  unfold dispatch, mbind, mret, M_bind, M_ret, lift, modify.
  repeat case_match; simpl; simplify_eq/=; try done;
    first [apply read_state_onReqLogin
          | apply frame_proj; [apply read_state_core|apply frame_onReqProxy]
          | apply frame_proj; [apply read_state_core|apply frame_onReqGetProxies]].
Qed.

(** ** Reading *)

Lemma evolve_doRead r w :
  (forall s, sessions w !! r = Some s -> reads s = [] /\ _rbuf s = []) -> evolve w (doRead r w).
Proof.
  intros Hr. apply evolve_upd. intros s Es. destruct (Hr s Es) as [E1 E2].
  destruct (_started s) eqn:Est; [|done]. rewrite E1. simpl. by apply rtc_once, ss_read_head.
Qed.

Lemma checkHead_eq s data :
  _rbuf s = data -> length data = sizeof_hdr ->
  checkHead s = Ok (if head_ok (hdr_of_bytes data)
                    then (true, set_rbuf (hdr_of_bytes data) data s)
                    else (false, set_rbuf zero_hdr [] s)).
Proof.
  intros E Hd. unfold checkHead, memcpy_hdr. rewrite E.
  rewrite mem_read_Ok by lia. rewrite drop_0, take_ge by lia. rewrite ok_bind. simpl.
  rewrite drop_ge by lia. by destruct (head_ok _).
Qed.

Lemma evolve_read_head env r ec data tail w s o w' :
  sessions w !! r = Some s -> reads s = [ReadHead] -> _rbuf s = [] ->
  read_complete env r ec data tail w = Some (o, w') -> evolve w w'.
Proof.
  intros Es Er Eb. unfold read_complete. rewrite Es. simpl. rewrite Er. simpl.
  case_match eqn:Hlen; [done|]. case_match eqn:Hmax; [done|]. apply Z.ltb_ge in Hmax. simpl in Hmax.
  intros [= E]. revert E.
  set (w1 := upd_session r _ w).
  set (s1 := set_reads [] (set_rbuf (_hdr s) data s)).
  assert (sessions w1 = <[r := s1]> (sessions w)) as Ew1.
  { unfold w1. simpl. rewrite (alter_insert_at _ _ s) by done. by rewrite Eb. }
  assert (sessions w1 !! r = Some s1) as Es1 by by rewrite Ew1, lookup_insert_eq.
  assert (ids_ok w -> ids_ok w1) as Hi1 by done.
  clearbody w1. unfold onReadHead. rewrite Es1.
  destruct (ec || (length data =? 0)%nat) eqn:Hec.
  - intros [= <- <-]. etrans; [|apply evolve_CSession_stop].
    eapply evolve_insert; [done|done| |done].
    apply rtc_once, (ss_read_over wf s ReadHead); [done|by left|]. rewrite Eb. simpl in *. lia.
  - apply orb_false_iff in Hec as [-> _]. simpl in Hlen. apply negb_false_iff, Z.eqb_eq in Hlen.
    simpl in Hlen. rewrite (checkHead_eq s1 data) by (done || unfold sizeof_hdr in *; lia).
    destruct (head_ok (hdr_of_bytes data)) eqn:Hh; intros [= <- <-].
    + eapply evolve_insert; [exact Es| | |done].
      * simpl. rewrite (alter_insert_at _ r s1 (sessions w1) Es1).
        erewrite alter_insert_at by apply lookup_insert_eq.
        rewrite insert_insert_eq, Ew1, insert_insert_eq. reflexivity.
      * apply rtc_once. apply (ss_head wf s data); try done. unfold sizeof_hdr in *. lia.
    + etrans; [|apply evolve_CSession_stop]. eapply evolve_insert; [exact Es| | |done].
      * simpl. rewrite (alter_insert_at _ r s1 (sessions w1) Es1). by rewrite Ew1, insert_insert_eq.
      * apply rtc_once, (ss_read_over wf s ReadHead zero_hdr []); [exact Er|by right|simpl; lia].
Qed.

Lemma evolve_read_body env r ec data tail w s n o w' :
  sessions w !! r = Some s -> reads s = [ReadBody n] -> length (_rbuf s) = sizeof_hdr ->
  n = usBodyLen (_hdr s) ->
  read_complete env r ec data tail w = Some (o, w') -> evolve w w'.
Proof.
  intros Es Er Eb En. unfold read_complete. rewrite Es. simpl. rewrite Er. simpl.
  case_match eqn:Hlen; [done|]. case_match eqn:Hmax; [done|]. apply Z.ltb_ge in Hmax. simpl in Hmax.
  intros [= E]. revert E.
  set (w1 := upd_session r _ w).
  set (s1 := set_reads [] (set_rbuf (_hdr s) (_rbuf s ++ data) s)).
  assert (sessions w1 = <[r := s1]> (sessions w)) as Ew1.
  { unfold w1. simpl. by rewrite (alter_insert_at _ _ s) by done. }
  assert (sessions w1 !! r = Some s1) as Es1 by by rewrite Ew1, lookup_insert_eq.
  assert (ids_ok w -> ids_ok w1) as Hi1 by done.
  clearbody w1. unfold onReadBody. rewrite Es1.
  destruct (ec || (length data =? 0)%nat) eqn:Hec.
  - intros [= <- <-]. etrans; [|apply evolve_CSession_stop].
    eapply evolve_insert; [done|done| |done].
    apply rtc_once, (ss_read_over wf s (ReadBody n)); [done|by left|]. rewrite length_app. simpl in *. lia.
  - apply orb_false_iff in Hec as [-> _]. simpl in Hlen. apply negb_false_iff, Z.eqb_eq in Hlen.
    assert (evolve w w1) as V1.
    { eapply evolve_insert; [exact Es|exact Ew1| |done]. by eapply rtc_once, ss_body. }
    pose proof (evolve_dispatch env r s1 tail w1) as V2.
    pose proof (read_state_dispatch env r s1 tail w1) as Hrs.
    destruct (dispatch env r s1 tail w1) as [[[]|e|u] w2]; simpl in V2, Hrs;
      intros [= <- <-]; (etrans; [exact V1|]); try exact V2. etrans; [exact V2|].
    assert (exists s2, sessions w2 !! r = Some s2 /\ read_state s2 = read_state s1) as (s2 & E2 & R2).
    { pose proof (f_equal (lookup r) Hrs) as Hl. rewrite !lookup_fmap, Es1 in Hl.
      destruct (sessions w2 !! r) as [s2|]; [|done]. simpl in Hl. injection Hl as Hl1 Hl2 Hl3.
      exists s2. split; [done|]. unfold read_state. by rewrite Hl1, Hl2, Hl3. }
    unfold read_state in R2. simpl in R2. injection R2 as R2 B2 H2.
    assert (length (_rbuf s ++ data) = (sizeof_hdr + Z.to_nat (usBodyLen (_hdr s)))%nat) as Hl.
    { rewrite length_app. simpl in Hlen. lia. }
    change (_hdr s1) with (_hdr s).
    etrans; [|apply evolve_doRead].
    + apply evolve_upd. intros x Ex. rewrite E2 in Ex. injection Ex as <-.
      unfold consume. rewrite drop_ge.
      * apply rtc_once, ss_consume; [done|]. by rewrite B2, H2.
      * rewrite B2, Hl. done.
    + intros x Ex. simpl in Ex. rewrite lookup_alter_eq, E2 in Ex. injection Ex as <-.
      split; [done|]. simpl. apply drop_ge. rewrite B2, Hl. done.
Qed.

Lemma evolve_read env r ec data tail w o w' :
  (forall r s, sessions w !! r = Some s -> read_ok s) ->
  read_complete env r ec data tail w = Some (o, w') -> evolve w w'.
Proof.
  intros I E. destruct (sessions w !! r) as [s|] eqn:Es; [|by unfold read_complete in E; rewrite Es in E].
  destruct (I r s Es) as [Er|[[Er Eb]|(h & Hh & Eb & Eh & _ & Er)]].
  - unfold read_complete in E. rewrite Es in E. simpl in E. by rewrite Er in E.
  - by eapply evolve_read_head.
  - eapply evolve_read_body; [exact Es|exact Er| |done|exact E]. by rewrite Eb.
Qed.

(** ** Every step of the program *)

Lemma evolve_on_session r f w o w' :
  (forall s s', f s = Some (Ok s') -> sess_step wf s s') ->
  on_session r f w = Some (o, w') -> evolve w w'.
Proof.
  intros Hf E. unfold on_session in E.
  destruct (sessions w !! r) as [s|] eqn:Es; [|done]. simpl in E.
  destruct (f s) as [[s'|e|u]|] eqn:Ef; simplify_eq/=; try done.
  apply evolve_upd. intros s0 E0. rewrite Es in E0. injection E0 as <-. apply rtc_once. auto.
Qed.

Lemma evolve_onTimeout r w w' : onTimeout r w = Some w' -> evolve w w'.
Proof.
  unfold onTimeout. destruct (sessions w !! r) as [s|] eqn:Es; [|done]. simpl.
  assert (timer s = TimerFired \/ timer s = TimerCancelled ->
    evolve w (upd_session r (set_timer TimerNone) w)) as V.
  { intros Ht. apply evolve_upd. intros s0 E0. rewrite Es in E0. injection E0 as <-.
    by apply rtc_once, ss_timer_done. }
  destruct (timer s); intros [= <-]; [etrans; [|apply evolve_CSession_stop]|]; auto.
Qed.

Lemma evolve_quiet (f : option (World D)) w o w' :
  (forall w', f = Some w' -> evolve w w') -> quiet f = Some (o, w') -> evolve w w'.
Proof. intros Hf E. destruct f; simplify_eq/=. auto. Qed.

(** The one event that makes a session. *)
Lemma start_accepted_sessions a w r s' :
  is_Some (acc_remote a) -> sessions (start_accepted a w).2 !! r = Some s' ->
  (exists s, sessions w !! r = Some s /\ rtc (sess_step wf) s s') \/
  (r = heap_next w /\ exists s0, sess_init (gConfig w) s0 /\ rtc (sess_step wf) s0 s').
Proof.
  intros [ep Eep]. unfold start_accepted, CSession_start. simpl. rewrite lookup_insert_eq, Eep. simpl.
  destruct (decide (r = heap_next w)) as [->|Hne].
  - intros Er. right. split; [done|]. eexists. split; [apply (si_started _ (acc_local a) ep)|].
    revert Er. case_match; simpl; rewrite ?lookup_alter_eq, ?lookup_insert_eq; simpl; intros [= <-].
    + by apply rtc_once, ss_read_head.
    + done.
  - intros Er. left. exists s'. split; [|done]. revert Er.
    case_match; simpl; by rewrite ?lookup_alter_ne, ?lookup_insert_ne by done.
Qed.

Lemma step_accept_sessions a w o w' r s' :
  acceptor a w = (o, w') -> sessions w' !! r = Some s' ->
  (exists s, sessions w !! r = Some s /\ rtc (sess_step wf) s s') \/
  (r = heap_next w /\ exists s0, sess_init (gConfig w) s0 /\ rtc (sess_step wf) s0 s').
Proof.
  unfold acceptor. repeat (case_match; [by intros [= <- <-]; eauto using rtc_refl|]).
  destruct (acc_remote a) as [ep|] eqn:Eep; [|by intros [= <- <-]; eauto using rtc_refl].
  case_match; [by intros [= <- <-]; eauto using rtc_refl|].
  intros E Er. pose proof (start_accepted_sessions a (count_conn w) r s' ltac:(by exists ep)) as Hs.
  rewrite E in Hs. exact (Hs Er).
Qed.

(** No other event makes one. *)
Lemma step_evolves e w o w' :
  (forall a, e <> EvAccept a) ->
  (forall r s, sessions w !! r = Some s -> read_ok s) ->
  (forall r0, e = EvWrite r0 true -> wf = true) ->
  step e w = Some (o, w') -> goes_on o = true -> evolve w w'.
Proof.
  intros Hna I Hwf E Ho. destruct e; simpl in E; [by destruct (Hna a)|..].
  - by eapply evolve_read.
  - eapply evolve_on_session; [|exact E]. intros s s' Hs. by apply ss_post.
  - eapply evolve_on_session; [|exact E]. intros s s' Hs.
    eapply ss_written; [|exact Hs]. intros ->. by eapply Hwf.
  - eapply evolve_on_session; [|exact E]. intros s s' Hs. apply ss_timer_fire.
    by apply fmap_Some in Hs as (x & -> & [= ->]).
  - eapply evolve_quiet; [|exact E]. intros. by eapply evolve_onTimeout.
  - eapply evolve_on_session; [|exact E]. intros s s' [= <-]. apply ss_peer_gone.
  - destruct (sessions w !! r) as [s|] eqn:Es; [|done]. simpl in E.
    destruct (session_unreferenced s); [|done]. unfold CSession_destroy in E. rewrite Es in E.
    destruct (_started s); injection E as <- <-; [done|apply evolve_delete].
  - eapply evolve_quiet; [|exact E]. intros. by eapply evolve_frame, frame_resume_up.
  - eapply evolve_quiet; [|exact E]. intros. by eapply evolve_frame, frame_resume_down.
  - eapply evolve_quiet; [|exact E]. intros. by eapply evolve_frame, frame_resume_display.
  - apply frame_resume_checker in E as [F _]. by eapply evolve_frame.
  - eapply evolve_quiet; [|exact E]. intros. by eapply evolve_frame, frame_run_stop_post.
  - destruct (channels w !! c) as [ch|]; [|done]. simpl in E.
    destruct (channel_unreferenced ch); [|done]. injection E as <- <-.
    apply evolve_frame, frame_CChannel_destroy.
  - injection E as <- <-. apply evolve_frame, frame_now.
Qed.

Lemma ids_ok_start_accepted a w : ids_ok w -> ids_ok (start_accepted a w).2.
Proof.
  intros I. unfold start_accepted, CSession_start. simpl. rewrite lookup_insert_eq. simpl.
  by destruct (acc_no_delay a).
Qed.

Lemma ids_ok_accept a w : ids_ok w -> ids_ok (acceptor a w).2.
Proof.
  intros I. unfold acceptor. repeat (case_match; [done|]). case_match; [|done]. case_match; [done|].
  apply ids_ok_start_accepted. destruct I as (Hs & Hc & Hg). split_and!; simpl; by try apply u32_wrap.
Qed.

Lemma ids_ok_step e w o w' :
  (forall r s, sessions w !! r = Some s -> read_ok s) ->
  (forall r0, e = EvWrite r0 true -> wf = true) ->
  step e w = Some (o, w') -> goes_on o = true -> ids_ok w -> ids_ok w'.
Proof.
  intros I Hwf E Ho Hi. destruct e;
    [injection E as E; pose proof (ids_ok_accept a w Hi) as Ha; by rewrite E in Ha|..];
    (eapply step_evolves; [|exact I|exact Hwf|exact E|exact Ho|exact Hi]; done).
Qed.

Lemma session_machine_step e w o w' r s' :
  (forall r s, sessions w !! r = Some s -> read_ok s) ->
  (forall r0, e = EvWrite r0 true -> wf = true) ->
  step e w = Some (o, w') -> goes_on o = true -> ids_ok w -> sessions w' !! r = Some s' ->
  (exists s, sessions w !! r = Some s /\ rtc (sess_step wf) s s') \/
  (r = heap_next w /\ exists s0, sess_init cfg s0 /\ rtc (sess_step wf) s0 s').
Proof.
  intros I Hwf E Ho Hi Es'. destruct e.
  { injection E as E. rewrite <-(proj2 (proj2 Hi)). by eapply step_accept_sessions. }
  all: left; revert Es';
    (eapply step_evolves; [|exact I|exact Hwf|exact E|exact Ho|exact Hi]; done).
Qed.
End evolve.

(** ** Invariants of single sessions *)

Section invariants.
Context {D : Type} `{SessionStore D}.
Implicit Types (w : World D) (r : sref).

Lemma rtc_invariant (P : CSession -> Prop) s s' :
  (forall s s', sess_step true s s' -> P s -> P s') -> rtc (sess_step true) s s' -> P s -> P s'.
Proof. intros Hp. induction 1; eauto. Qed.

Lemma sess_init_read_ok cfg s : sess_init cfg s -> read_ok s.
Proof. intros [l re]. by left. Qed.

Lemma reach_machine cfg t d n w :
  reach cfg t d n w ->
  ids_ok cfg w /\ forall r s, sessions w !! r = Some s -> read_ok s.
Proof.
  induction 1 as [|n w e o w' Hr [Hi IH] E Ho|n w d' Hr IH Hb]; [by split| |exact IH].
  split; [by eapply (ids_ok_step true)|]. intros r s' Es.
  destruct (session_machine_step true cfg e w o w' r s' IH ltac:(done) E Ho Hi Es)
    as [(s & Es0 & Hs)|(_ & s0 & H0 & Hs)];
    (eapply rtc_invariant; [apply read_ok_step|exact Hs|]); eauto using sess_init_read_ok.
Qed.

Lemma reach_ids_ok cfg t d n w : reach cfg t d n w -> ids_ok cfg w.
Proof. by intros [Hi _]%reach_machine. Qed.

Lemma reach_read_ok cfg t d n w :
  reach cfg t d n w -> forall r s, sessions w !! r = Some s -> read_ok s.
Proof. by intros [_ Hr]%reach_machine. Qed.

(** A property of sessions that the machine keeps holds in every reachable
    state. *)
Lemma reach_session_inv (P : CSession -> Prop) cfg t d n w r s :
  (forall s, sess_init cfg s -> P s) ->
  (forall s s', sess_step true s s' -> P s -> P s') ->
  reach cfg t d n w -> sessions w !! r = Some s -> P s.
Proof.
  intros Hi Hp Hr. revert r s. induction Hr as [|n w e o w' Hr IH E Ho|n w d' Hr IH Hb]; [done| |exact IH]. intros r s' Es.
  destruct (reach_machine _ _ _ _ _ Hr) as [Hids Hread].
  destruct (session_machine_step true cfg e w o w' r s' Hread ltac:(done) E Ho Hids Es)
    as [(s & Es0 & Hs)|(_ & s0 & H0 & Hs)];
    (eapply rtc_invariant; [apply Hp|exact Hs|]); eauto.
Qed.
End invariants.
