(* ===== verification/Refinement.v ===== *)
(** * The program refines the registry

    [reg] abstracts the running program to the machine of [Registry.v]: every
    handler and every step of the database thread is one step of that machine.
    The registry's theorems then hold of the program. *)
From stdpp Require Import relations.
From S2P Require Import Prelude Protocol SafeContainers SessionStore SessionDb World SessionOut Channel SessionMgr Session Server Scenario Frames Registry SessionMachine.

(** ** Abstraction *)

Definition client_of (s : CSession) : client :=
  mkClient (_started s) (_logined s) (_guid s) (_session_type s) (_id s).

Section refinement.
Context {D : Type} `{SL : SessionStoreLaws D}.
Implicit Types (w : World D) (r : sref).

Definition reg w : registry :=
  mkReg (client_of <$> sessions w) (_guid_set (mgr w)) (_ss_map (mgr w))
    (st_view (_ss_db (mgr w))) (_session_id (mgr w)) (_conn_num w) (heap_next w).

(** What the simulation itself needs of the concrete state. *)
Record conc_inv (cfg : config) w : Prop := {
  ci_alive : server_alive w = true;
  ci_cfg : gConfig w = cfg;
  ci_db : st_inv (_ss_db (mgr w))
}.

Lemma client_of_core s s' : core s' = core s -> client_of s' = client_of s.
Proof.
  intros (?&?&?&?&?&?&?&?&?&?&?&?&?&_)%core_eq_io. unfold client_of. congruence.
Qed.

Lemma mgr_eq w w' :
  set_channel_id 0 (mgr w') = set_channel_id 0 (mgr w) ->
  _guid_set (mgr w') = _guid_set (mgr w) /\ _ss_map (mgr w') = _ss_map (mgr w) /\
  _ss_db (mgr w') = _ss_db (mgr w) /\ _session_id (mgr w') = _session_id (mgr w).
Proof. destruct (mgr w), (mgr w'). by intros [= -> -> -> ->]. Qed.

Lemma reg_frame w w' : frame w w' -> reg w' = reg_bump (heap_next w') (reg w).
Proof.
  intros F. unfold reg, reg_bump. simpl.
  rewrite (frame_proj client_of w w' client_of_core F), (fr_conn w w' F).
  by destruct (mgr_eq w w' (fr_mgr w w' F)) as (-> & -> & -> & ->).
Qed.

Lemma conc_inv_frame cfg w w' : frame w w' -> conc_inv cfg w -> conc_inv cfg w'.
Proof.
  intros F [A C Db]. destruct (mgr_eq w w' (fr_mgr w w' F)) as (_ & _ & E & _).
  split; [by rewrite (fr_alive w w' F)|by rewrite (fr_cfg w w' F)|by rewrite E].
Qed.

Lemma reg_step_refl max g : reg_step max g g.
Proof. assert (g = reg_bump (next_ref g) g) as E by by destruct g. rewrite E at 2. by apply step_bump. Qed.

(** ** Handlers that the registry does not see *)

Definition unseen (cfg : config) w w' : Prop :=
  conc_inv cfg w -> conc_inv cfg w' /\ reg_step (maxSessions cfg) (reg w) (reg w').

Lemma unseen_frame cfg w w' : frame w w' -> unseen cfg w w'.
Proof.
  intros F I. split; [by eapply conc_inv_frame|]. rewrite (reg_frame w w' F).
  apply step_bump. exact (fr_next w w' F).
Qed.

Lemma reg_upd r f w : (forall s, client_of (f s) = client_of s) -> reg (upd_session r f w) = reg w.
Proof. intros Hf. unfold reg. by rewrite (upd_proj client_of r f w Hf). Qed.

Lemma client_of_alter r s f (m : gmap sref CSession) :
  m !! r = Some s -> client_of <$> alter f r m = <[r := client_of (f s)]> (client_of <$> m).
Proof. intros E. by rewrite (alter_insert_at f r s _ E), fmap_insert. Qed.

Lemma client_of_alter2 r s f h (m : gmap sref CSession) :
  m !! r = Some s ->
  client_of <$> alter f r (alter h r m) = <[r := client_of (f (h s))]> (client_of <$> m).
Proof.
  intros E. rewrite (client_of_alter r (h s)) by (by rewrite lookup_alter_eq, E).
  by rewrite (client_of_alter r s), insert_insert_eq.
Qed.

(** ** Stop *)

Lemma remove_difference (g : bytes) (gs : gset bytes) : (CSafeSet.remove g gs).2 = gs ∖ {[g]}.
Proof. unfold CSafeSet.remove. case_decide; simpl; set_solver. Qed.

Lemma heap_next_stopAll m w : heap_next (stopAll m w) = heap_next w.
Proof. unfold stopAll. by induction (map_to_list m).*2. Qed.

Lemma heap_next_stop_local r w : heap_next (stop_local r w) = heap_next w.
Proof.
  unfold stop_local, stop_src_channels, stop_dst_channels.
  repeat case_match; simpl; rewrite ?heap_next_stopAll; simpl; by rewrite ?heap_next_stopAll.
Qed.

(** [closeSessionWithLock] on a session that is off already. *)
Lemma reg_close cfg r s c w :
  conc_inv cfg w -> sessions w !! r = Some s ->
  client_of s = mkClient false (logined c) (cguid c) (ctype c) (cid c) ->
  conc_inv cfg (closeSessionWithLock r w) /\
  forall g, reg w = with_client r (client_of s) (guids g) g ->
    reg (closeSessionWithLock r w) = reg_stop r c g.
Proof.
  intros [Ha Hc Hd] Es Ec. unfold closeSessionWithLock. rewrite Es.
  pose proof Ec as Ecl. injection Ec as E1 E2 E3 E4 E5. rewrite E2, E3, E5.
  unfold reg_stop. destruct (logined c) eqn:El.
  - unfold guid_remove. simpl. rewrite Ha. split; [split; [done|done|by apply st_del_inv]|].
    unfold reg, with_client. simpl. rewrite remove_difference, st_del_view.
    intros g [= -> -> -> -> -> -> ->]. by rewrite Ecl.
  - rewrite Ha. split; [by split|]. unfold reg, with_client. simpl.
    intros g [= -> -> -> -> -> -> ->]. by rewrite Ecl.
Qed.

Lemma timer_cancel_client s : client_of (timer_cancel s) = client_of s.
Proof. unfold timer_cancel. by destruct (timer s). Qed.

Lemma client_of_stopped s :
  client_of (stopped s) =
  mkClient false (logined (client_of s)) (cguid (client_of s)) (ctype (client_of s)) (cid (client_of s)).
Proof. unfold stopped, timer_cancel. by destruct (timer s). Qed.

Lemma unseen_stop cfg r w : unseen cfg w (CSession_stop r w).
Proof.
  intros I. unfold CSession_stop. destruct (sessions w !! r) as [s|] eqn:Es;
    [|split; [done|apply reg_step_refl]].
  destruct (_started s) eqn:Est.
  - set (w1 := upd_session r stopped w). pose proof (frame_stop_local r w : frame w1 _) as F.
    assert (sessions w1 !! r = Some (stopped s)) as E1.
    { simpl. by rewrite lookup_alter_eq, Es. }
    destruct (frame_lookup _ _ _ _ F E1) as (s2 & E2 & Hq & _).
    pose proof (client_of_core _ _ Hq) as Ec. rewrite client_of_stopped in Ec.
    destruct (reg_close cfg r s2 (client_of s) (stop_local r w)) as [I' Hreg]; [|done|done|].
    { eapply conc_inv_frame; [exact F|]. by destruct I; split. }
    split; [done|]. rewrite (Hreg (reg w)).
    + apply step_stop; [|done]. unfold reg. simpl. by rewrite lookup_fmap, Es.
    + rewrite (reg_frame _ _ F), heap_next_stop_local, Ec. unfold reg, reg_bump, with_client. simpl.
      by rewrite (client_of_alter r s), client_of_stopped.
  - split; [by destruct I; split|]. rewrite reg_upd; [apply reg_step_refl|].
    intros x. rewrite <-(timer_cancel_client x). done.
Qed.

(** ** Login *)

(** The manager's part of a login, on a session whose GUID and type have been
    set. *)
Lemma reg_onSessionLogin cfg r s c g w :
  conc_inv cfg w -> sessions w !! r = Some s -> online c = _started s -> cid c = _id s ->
  reg w = with_client r (client_of s) (guids g) g ->
  let '(ok, w') := onSessionLogin r w in
  conc_inv cfg w' /\
  reg (upd_session r (set_logined ok) w') =
  reg_login r c (_guid s) (_session_type s) (ep_addr <$> sock_remote s) g.
Proof.
  intros [Ha Hc Hd] Es Eon Eid Hg. unfold onSessionLogin. rewrite Es.
  unfold reg_login, guid_insert, CSafeSet.insert.
  unfold reg, with_client in Hg. injection Hg as Hcl Hgu Hdir Hpub Hid Hcn Hnx.
  rewrite Hgu. destruct (decide (_guid s ∈ guids g)) as [Hin|Hin]; simpl.
  { split; [by split|]. unfold reg, with_client. simpl.
    rewrite (client_of_alter r s) by done. rewrite Hcl, insert_insert_eq.
    unfold client_of. simpl. by rewrite Eon, Eid, Hdir, Hpub, Hid, Hcn, Hnx. }
  destruct (is_server (_session_type s)); simpl.
  2: { split; [by split|]. unfold reg, with_client, issue_id. simpl.
    rewrite (client_of_alter2 r s) by done. rewrite Hcl, insert_insert_eq.
    unfold client_of. simpl. by rewrite Eon, Hid, Hdir, Hpub, Hcn, Hnx. }
  unfold addSessionWithLock. simpl. rewrite Hdir, Hid.
  destruct (directory g !! next_id g) eqn:Ed; simpl.
  - split; [by split|]. unfold reg, with_client, issue_id. simpl.
    rewrite (client_of_alter2 r s) by done. rewrite Hcl, insert_insert_eq, remove_difference.
    unfold client_of. simpl. by rewrite Eon, Hdir, Hid, Hpub, Hcn, Hnx.
  - destruct (sock_remote s) as [ep|]; simpl.
    + split; [split; [done|done|by apply st_add_inv]|].
      unfold reg, with_client, issue_id, list_server, publish. simpl.
      rewrite (client_of_alter2 r s) by done. rewrite Hcl, insert_insert_eq, st_add_view.
      unfold client_of. simpl. by rewrite Eon, Hdir, Hid, Hpub, Hcn, Hnx.
    + split; [by split|]. unfold reg, with_client, issue_id, list_server. simpl.
      rewrite (client_of_alter2 r s) by done. rewrite Hcl, insert_insert_eq.
      unfold client_of. simpl. by rewrite Eon, Hdir, Hid, Hpub, Hcn, Hnx.
Qed.

Lemma reg_doWrite r msg w : reg (doWrite r msg w) = reg w.
Proof. unfold doWrite. case_match; [done|]. by apply reg_upd. Qed.

Lemma unseen_onReqLogin cfg r req w :
  (forall s, sessions w !! r = Some s -> sock_remote s <> None -> _started s = true) ->
  unseen cfg w (onReqLogin r req w).
Proof.
  intros Hsock I. unfold onReqLogin.
  destruct (sessions w !! r) as [s|] eqn:Es; [|split; [done|apply reg_step_refl]].
  destruct (_logined s) eqn:El; cbn [negb]; [by apply unseen_frame; [apply frame_doWrite|]|].
  set (s1 := set_login (lg_szGuid req) (lg_uiPrivateAddr req) (lg_uctype req) s).
  set (w1 := upd_session r _ w).
  pose proof (reg_onSessionLogin cfg r s1 (client_of s) (reg w) w1) as Hl.
  destruct (onSessionLogin r w1) as [ok w2]. destruct Hl as [I2 R2]; try done.
  - by destruct I; split.
  - simpl. by rewrite lookup_alter_eq, Es.
  - unfold reg, with_client, w1. simpl. by rewrite (client_of_alter r s).
  - assert (reg_step (maxSessions cfg) (reg w) (reg (upd_session r (set_logined ok) w2))) as Hstep.
    { rewrite R2. apply step_login; [unfold reg; simpl; by rewrite lookup_fmap, Es|done|].
      simpl. destruct (sock_remote s) eqn:Esk; [|done]. intros _. apply (Hsock s); congruence. }
    assert (conc_inv cfg (upd_session r (set_logined ok) w2)) as I3 by (by destruct I2; split).
    destruct ok; (split; [eapply conc_inv_frame; [apply frame_doWrite|]|rewrite reg_doWrite]); try done.
    + by destruct I3; split.
    + by rewrite (reg_upd r timer_cancel) by apply timer_cancel_client.
Qed.

(** ** Reading *)

Lemma unseen_upd cfg r f w : (forall s, client_of (f s) = client_of s) -> unseen cfg w (upd_session r f w).
Proof. intros Hf I. split; [by destruct I; split|]. rewrite reg_upd by done. apply reg_step_refl. Qed.

(** What happens before or after, unseen and without a change of [reg]. *)
Lemma unseen_after cfg r f w w' :
  (forall s, client_of (f s) = client_of s) -> unseen cfg w w' -> unseen cfg w (upd_session r f w').
Proof.
  intros Hf U I. destruct (U I) as [I' Hs]. split; [by destruct I'; split|]. by rewrite reg_upd.
Qed.

Lemma unseen_before cfg r f w w' :
  (forall s, client_of (f s) = client_of s) ->
  unseen cfg (upd_session r f w) w' -> unseen cfg w w'.
Proof.
  intros Hf U I. rewrite <-(reg_upd r f w Hf). apply U. by destruct I; split.
Qed.

Lemma unseen_dispatch cfg env r s tail w :
  (forall s, sessions w !! r = Some s -> sock_remote s <> None -> _started s = true) ->
  unseen cfg w (dispatch env r s tail w).2.
Proof.
  intros Hsock. unfold dispatch, mbind, mret, M_bind, M_ret, lift, modify.
  repeat case_match; simpl; simplify_eq/=; try by apply unseen_frame.
  all: first [by apply unseen_onReqLogin | apply unseen_frame, frame_onReqProxy
          | apply unseen_frame, frame_onReqGetProxies].
Qed.

Lemma client_of_checkHead s b s' : checkHead s = Ok (b, s') -> client_of s' = client_of s.
Proof.
  unfold checkHead. intros (h & _ & E)%outcome_bind_Ok. destruct (head_ok h); by injection E as <- <-.
Qed.

Lemma unseen_onReadHead cfg r ec n w : unseen cfg w (onReadHead r ec n w).2.
Proof.
  unfold onReadHead. destruct (sessions w !! r) as [s|] eqn:Es; [|by apply unseen_frame].
  destruct (ec || _); [apply unseen_stop|].
  destruct (checkHead s) as [[ok s']|e|u] eqn:Ec; [|by apply unseen_frame..].
  apply client_of_checkHead in Ec.
  assert (reg (upd_session r (fun _ => s') w) = reg w) as Hr.
  { unfold reg. simpl. rewrite (client_of_alter r s), Ec by done.
    rewrite insert_id; [done|]. by rewrite lookup_fmap, Es. }
  intros I. rewrite <-Hr. destruct ok; cbn [snd]; [apply unseen_upd|apply unseen_stop]; try done;
    by destruct I; split.
Qed.

Lemma unseen_onReadBody cfg env r ec n tail w :
  (forall s, sessions w !! r = Some s -> sock_remote s <> None -> _started s = true) ->
  unseen cfg w (onReadBody env r ec n tail w).2.
Proof.
  intros Hsock. unfold onReadBody. destruct (sessions w !! r) as [s|] eqn:Es; [|by apply unseen_frame].
  destruct (ec || _); [apply unseen_stop|].
  pose proof (unseen_dispatch cfg env r s tail w) as U. rewrite Es in U. specialize (U Hsock).
  destruct (dispatch env r s tail w) as [[[]|e|u] w2]; simpl in U; [|exact U..].
  cbn [snd]. unfold doRead. apply unseen_after; [intros x; by case_match|]. by apply unseen_after.
Qed.

(** ** Every step *)

(** A socket that still has a peer belongs to a session that is started. *)
Definition sock_inv (s : CSession) : Prop := sock_remote s <> None -> _started s = true.

Lemma sock_inv_step s s' : sess_step true s s' -> sock_inv s -> sock_inv s'.
Proof.
  intros Hs I. ss_cases Hs; try (apply timer_fire_eq in Hf as ->);
    try (apply run_post_frame in Hr as (?&?&?&->));
    try (apply onWriteComplete_frame in Hw as (?&?&?&->)); try exact I; try done.
  - unfold sock_inv in *. intros Hx. enough (_started s = true) by congruence. apply I. congruence.
  - by intros [].
  - unfold timer_cancel. simpl. destruct (timer s); exact I.
  - by intros [].
Qed.

Lemma unseen_read cfg env r ec data tail w o w' :
  (forall s, sessions w !! r = Some s -> sock_inv s) ->
  read_complete env r ec data tail w = Some (o, w') -> unseen cfg w w'.
Proof.
  intros Hsock. unfold read_complete. destruct (sessions w !! r) as [s|] eqn:Es; [|done]. simpl.
  destruct (reads s) as [|op ops]; [done|]. do 2 (case_match; [done|]). intros [= E].
  eapply (unseen_before _ r (fun s => set_reads ops (set_rbuf (_hdr s) (_rbuf s ++ data) s)));
    [|apply (f_equal snd) in E; simpl in E; rewrite <-E; destruct op].
  - done.
  - apply unseen_onReadHead.
  - apply unseen_onReadBody. simpl. rewrite lookup_alter_eq, Es. simpl.
    intros ? [= <-]. exact (Hsock s eq_refl).
Qed.

Lemma unseen_on_session cfg r f w o w' :
  (forall s s', f s = Some (Ok s') -> client_of s' = client_of s) ->
  on_session r f w = Some (o, w') -> unseen cfg w w'.
Proof.
  intros Hf E. unfold on_session in E.
  destruct (sessions w !! r) as [s|] eqn:Es; [|done]. simpl in E.
  destruct (f s) as [[s'|e|u]|] eqn:Ef; simplify_eq/=; [|by apply unseen_frame..].
  intros I. split; [by destruct I; split|]. unfold reg. simpl.
  rewrite (client_of_alter r s), (Hf s s' Ef), insert_id by (by rewrite ?lookup_fmap, ?Es).
  apply reg_step_refl.
Qed.

Lemma unseen_quiet cfg (f : option (World D)) w o w' :
  (forall w', f = Some w' -> unseen cfg w w') -> quiet f = Some (o, w') -> unseen cfg w w'.
Proof. intros Hf E. destruct f; simplify_eq/=. auto. Qed.

(** The registry after a session was made and started, the counter apart. *)
Lemma reg_start_accepted a w :
  reg (start_accepted a w).2 =
    mkReg (<[heap_next w := new_client]> (clients (reg w))) (guids (reg w)) (directory (reg w))
      (published (reg w)) (next_id (reg w)) (conns (reg w)) (S (heap_next w)).
Proof.
  unfold start_accepted, CSession_start. simpl. rewrite lookup_insert_eq. simpl.
  destruct (acc_no_delay a); unfold reg; simpl.
  - by rewrite (client_of_alter2 _ _ _ _ _ (lookup_insert_eq _ _ _)), fmap_insert, insert_insert_eq.
  - by rewrite (client_of_alter _ _ _ _ (lookup_insert_eq _ _ _)), fmap_insert, insert_insert_eq.
Qed.

Lemma conc_inv_start_accepted cfg a w : conc_inv cfg w -> conc_inv cfg (start_accepted a w).2.
Proof.
  intros I. unfold start_accepted, CSession_start. simpl. rewrite lookup_insert_eq. simpl.
  destruct (acc_no_delay a); by destruct I; split.
Qed.

Lemma unseen_accept cfg a w : unseen cfg w (acceptor a w).2.
Proof.
  unfold acceptor. do 2 (case_match; [by apply unseen_frame|]).
  destruct (acc_remote a) as [ep|]; [|by apply unseen_frame].
  destruct (exceeds w) eqn:Ex; [by apply unseen_frame|]. intros I.
  assert (full (maxSessions cfg) (reg w) = false) as Hfull.
  { unfold full, exceeds in *. by rewrite <-(ci_cfg cfg w I). }
  split; [apply conc_inv_start_accepted; by destruct I; split|].
  rewrite reg_start_accepted. by apply (step_accept _ (heap_next w)).
Qed.

Lemma unseen_onTimeout cfg r w w' : onTimeout r w = Some w' -> unseen cfg w w'.
Proof.
  unfold onTimeout. destruct (sessions w !! r) as [s|] eqn:Es; [|done]. simpl.
  destruct (timer s); intros [= <-]; [eapply unseen_before; [|apply unseen_stop]|apply unseen_upd]; done.
Qed.

Lemma unseen_gone cfg r s w :
  sessions w !! r = Some s -> _started s = false ->
  unseen cfg w (set_sessions (delete r (sessions w)) w).
Proof.
  intros Es Est I. split; [by destruct I; split|].
  assert (reg (set_sessions (delete r (sessions w)) w) = reg_gone r (reg w)) as ->.
  { unfold reg, reg_gone. simpl. by rewrite fmap_delete. }
  eapply (step_gone _ r (client_of s)); [unfold reg; simpl; by rewrite lookup_fmap, Es|done].
Qed.

Lemma step_refines cfg e w o w' :
  (forall r s, sessions w !! r = Some s -> sock_inv s) ->
  step e w = Some (o, w') -> goes_on o = true -> unseen cfg w w'.
Proof.
  intros Hsock E Ho. destruct e; simpl in E.
  - injection E as E. pose proof (unseen_accept cfg a w) as U. by rewrite E in U.
  - eapply unseen_read; [|exact E]. eauto.
  - eapply unseen_on_session; [|exact E]. by intros s s' (?&?&?&->)%run_post_frame.
  - eapply unseen_on_session; [|exact E]. by intros s s' (?&?&?&->)%onWriteComplete_frame.
  - eapply unseen_on_session; [|exact E]. by intros s s' (x & ->%timer_fire_eq & [= ->])%fmap_Some.
  - eapply unseen_quiet; [|exact E]. intros. by eapply unseen_onTimeout.
  - eapply unseen_on_session; [|exact E]. by intros s s' [= <-].
  - destruct (sessions w !! r) as [s|] eqn:Es; [|done]. simpl in E.
    destruct (session_unreferenced s); [|done]. unfold CSession_destroy in E. rewrite Es in E.
    destruct (_started s) eqn:Est; injection E as <- <-; [done|]. by eapply unseen_gone.
  - eapply unseen_quiet; [|exact E]. intros. by eapply unseen_frame, frame_resume_up.
  - eapply unseen_quiet; [|exact E]. intros. by eapply unseen_frame, frame_resume_down.
  - eapply unseen_quiet; [|exact E]. intros. by eapply unseen_frame, frame_resume_display.
  - apply frame_resume_checker in E as [F _]. by eapply unseen_frame.
  - eapply unseen_quiet; [|exact E]. intros. by eapply unseen_frame, frame_run_stop_post.
  - destruct (channels w !! c) as [ch|]; [|done]. simpl in E.
    destruct (channel_unreferenced ch); [|done]. injection E as <- <-.
    apply unseen_frame, frame_CChannel_destroy.
  - injection E as <- <-. apply unseen_frame, frame_now.
Qed.

Lemma store_refines cfg d' w :
  st_bg (_ss_db (mgr w)) d' -> unseen cfg w (upd_mgr (set_ss_db d') w).
Proof.
  intros Hb [A C Db]. destruct (st_bg_view _ _ Db Hb) as [Hv Hi].
  split; [by split|]. unfold reg. simpl. rewrite Hv. apply reg_step_refl.
Qed.

Lemma reach_sock_inv cfg t d n w :
  reach cfg t d n w -> forall r s, sessions w !! r = Some s -> sock_inv s.
Proof.
  intros Hr r s Es. eapply (reach_session_inv sock_inv); [|exact sock_inv_step|exact Hr|exact Es].
  intros ? [l re]. by intros _.
Qed.

(** ** Reachable states *)

Lemma reach_conc_inv cfg t d n w : st_inv d -> reach cfg t d n w -> conc_inv cfg w.
Proof.
  intros Hd Hr. induction Hr as [|n w e o w' Hr IH E Ho|n w d' Hr IH Hb].
  - by split.
  - by apply (step_refines cfg e w o w' (reach_sock_inv _ _ _ _ _ Hr) E Ho IH).
  - by apply (store_refines cfg d' w Hb IH).
Qed.

(** The state of the registry that corresponds to [initial]. *)
Definition empty_reg (d : D) : registry := mkReg ∅ ∅ ∅ (st_view d) 1000 0 0.

Inductive reg_reach (max : Z) (g0 : registry) : nat -> registry -> Prop :=
| rr_init : reg_reach max g0 0 g0
| rr_step n g g' : reg_reach max g0 n g -> reg_step max g g' -> reg_reach max g0 (S n) g'.

Lemma reach_reg cfg t d n w :
  st_inv d -> reach cfg t d n w -> reg_reach (maxSessions cfg) (empty_reg d) n (reg w).
Proof.
  intros Hd Hr. induction Hr as [|n w e o w' Hr IH E Ho|n w d' Hr IH Hb].
  - assert (reg (initial cfg t d) = empty_reg d) as -> by (unfold reg, empty_reg; simpl; by rewrite fmap_empty).
    constructor.
  - econstructor; [exact IH|]. apply (step_refines cfg e w o w' (reach_sock_inv _ _ _ _ _ Hr) E Ho).
    by eapply reach_conc_inv.
  - econstructor; [exact IH|]. apply (store_refines cfg d' w Hb). by eapply reach_conc_inv.
Qed.

Lemma reg_reach_inv max d n g :
  reg_reach max (empty_reg d) n g -> guid_inv g /\ conn_inv g.
Proof.
  induction 1 as [|n g g' _ [Ig Ic] Hs].
  - split; [by split|]. unfold conn_inv, count_online. simpl. by rewrite map_filter_empty.
  - eauto using guid_inv_step, conn_inv_step.
Qed.

Lemma reg_reach_id max d n g :
  st_view d = ∅ -> Z.of_nat n < 2 ^ 32 - 1001 -> reg_reach max (empty_reg d) n g ->
  id_inv g /\ next_id g <= 1000 + Z.of_nat n.
Proof.
  intros Hd Hn Hr. induction Hr as [|n g g' Hr IH Hs].
  - split; [|simpl; lia]. split; simpl; rewrite ?Hd; try done; by intros r c [E _].
  - destruct IH as [Ii Hi]; [lia|]. destruct (reg_reach_inv _ _ _ _ Hr) as [Ig _].
    pose proof (ii_low g Ii).
    split; [eapply id_inv_step; eauto; lia|].
    pose proof (next_id_step _ _ _ Hs ltac:(lia) ltac:(lia)). lia.
Qed.

Lemma reg_reach_limit max d n g :
  0 < max < 2 ^ 32 - 1 -> reg_reach max (empty_reg d) n g -> count_online g <= max + 1.
Proof.
  intros Hm Hr. induction Hr as [|n g g' Hr IH Hs].
  - unfold count_online. simpl. rewrite map_filter_empty, map_size_empty. lia.
  - destruct (reg_reach_inv _ _ _ _ Hr). by eapply limit_step.
Qed.

Definition started_sessions w : Z :=
  Z.of_nat (size (filter (fun kv => _started kv.2 = true) (sessions w))).

Lemma count_online_reg w : count_online (reg w) = started_sessions w.
Proof.
  unfold count_online, started_sessions. simpl. rewrite map_filter_fmap, map_size_fmap. done.
Qed.

(** A session that is on line and logged in, and one that is published. *)
Definition active_session (s : CSession) : Prop := _started s = true /\ _logined s = true.
Definition proxy_server (s : CSession) : Prop :=
  active_session s /\ is_server (_session_type s) = true.

Lemma client_lookup w r s : sessions w !! r = Some s -> clients (reg w) !! r = Some (client_of s).
Proof. intros E. simpl. by rewrite lookup_fmap, E. Qed.

Lemma server_online_reg w r c :
  server_online (reg w) r c <-> exists s, sessions w !! r = Some s /\ c = client_of s /\ proxy_server s.
Proof.
  unfold server_online, proxy_server, active_session, active. simpl. rewrite lookup_fmap. split.
  - intros (E & A & S). destruct (sessions w !! r) as [s|]; [|done]. injection E as <-. eauto.
  - intros (s & -> & -> & A & S). done.
Qed.
End refinement.

(** ** Properties *)

(** C1. The program refines the registry: the initial states correspond, and
    from every reachable state every handler that lets the program go on (a
    connection, a packet, a timer, a datagram, a posted call, a destructor)
    and every step of the database thread is one step of the registry: a new
    client, a login, a stop, a removal, or no visible change. *)
Theorem program_refines_registry `{SL : SessionStoreLaws D} cfg t (d : D) n w :
  st_inv d -> reach cfg t d n w ->
  reg (initial cfg t d) = empty_reg d /\
  (forall e o w', step e w = Some (o, w') -> goes_on o = true ->
     reg_step (maxSessions cfg) (reg w) (reg w')) /\
  (forall d', st_bg (_ss_db (mgr w)) d' ->
     reg_step (maxSessions cfg) (reg w) (reg (upd_mgr (set_ss_db d') w))).
Proof.
  intros Hd Hr. pose proof (reach_conc_inv cfg t d n w Hd Hr) as I. split_and!.
  - unfold reg, empty_reg. simpl. by rewrite fmap_empty.
  - intros e o w' E Ho. by apply (step_refines cfg e w o w' (reach_sock_inv _ _ _ _ _ Hr) E Ho).
  - intros d' Hb. by apply (store_refines cfg d' w Hb).
Qed.

Lemma program_refines_registry_witness :
  reg_step 2 (reg logins_world) (reg (after [EvRead 0 true [] [] demo_env] logins_world)).
Proof.
  destruct (program_refines_registry demo_cfg 0 _ 6 logins_world demo_db_inv reach_logins)
    as (_ & Hs & _).
  apply (Hs (EvRead 0 true [] [] demo_env) (Ok tt)); vm_compute; reflexivity.
Defined.

(** C7. No two clients share a GUID: in every reachable state two sessions that
    are started and logged in with the same GUID are the same session. *)
Theorem guid_unique `{SL : SessionStoreLaws D} cfg t (d : D) n w r1 s1 r2 s2 :
  st_inv d -> reach cfg t d n w ->
  sessions w !! r1 = Some s1 -> sessions w !! r2 = Some s2 ->
  active_session s1 -> active_session s2 -> _guid s1 = _guid s2 -> r1 = r2.
Proof.
  intros Hd Hr E1 E2 A1 A2 Eg. destruct (reg_reach_inv _ _ _ _ (reach_reg cfg t d n w Hd Hr)) as [Ig _].
  exact (gi_unique _ Ig _ _ _ _ (client_lookup w r1 s1 E1) (client_lookup w r2 s2 E2) A1 A2 Eg).
Qed.

Lemma guid_unique_witness :
  active_session (session_at 0 logins_world) /\ (0 = 0)%nat.
Proof.
  split; [by vm_compute|].
  apply (guid_unique demo_cfg 0 _ 6 logins_world 0 (session_at 0 logins_world) 0
           (session_at 0 logins_world) demo_db_inv reach_logins); by vm_compute.
Defined.

(** C11. The connection counter: [_conn_num] is the number of sessions that are
    started, modulo 2^32, whatever way they end. *)
Theorem conn_num_counts `{SL : SessionStoreLaws D} cfg t (d : D) n w :
  st_inv d -> reach cfg t d n w -> _conn_num w = wrap 32 (started_sessions w).
Proof.
  intros Hd Hr. destruct (reg_reach_inv _ _ _ _ (reach_reg cfg t d n w Hd Hr)) as [_ Ic].
  rewrite <-count_online_reg. exact Ic.
Qed.

Lemma conn_num_counts_witness : _conn_num logins_world = wrap 32 (started_sessions logins_world).
Proof. exact (conn_num_counts demo_cfg 0 _ 6 logins_world demo_db_inv reach_logins). Defined.

(** The session limit: with [maxSessions] set to [max > 0] never more than
    [max + 1] sessions are started (the check compares with [>], so one more
    than the configured number is let in). *)
Theorem session_limit `{SL : SessionStoreLaws D} cfg t (d : D) n w :
  st_inv d -> 0 < maxSessions cfg < 2 ^ 32 - 1 -> reach cfg t d n w ->
  started_sessions w <= maxSessions cfg + 1.
Proof.
  intros Hd Hm Hr. rewrite <-count_online_reg. eapply reg_reach_limit; [done|].
  exact (reach_reg cfg t d n w Hd Hr).
Qed.

(** The bound is reached: four connections, a limit of two, three sessions. *)
Definition crowd : list event := accept_from <$> [0; 1; 2; 3].

Lemma session_limit_witness :
  started_sessions (after crowd demo_init) = 3 /\
  started_sessions (after crowd demo_init) <= maxSessions demo_cfg + 1.
Proof.
  split; [vm_compute; reflexivity|].
  apply (session_limit demo_cfg 0 (start (new_db [])) 4); [exact demo_db_inv|simpl; lia|].
  apply (reach_after crowd). vm_compute. reflexivity.
Defined.

(** The content of the database with every queued operation applied. *)
Lemma view_exact `{SL : SessionStoreLaws D} cfg t (d : D) n w :
  st_inv d -> st_view d = ∅ -> Z.of_nat n < 2 ^ 32 - 1001 -> reach cfg t d n w ->
  (forall id i, st_view (_ss_db (mgr w)) !! id = Some i -> 0 <= id < 2 ^ 32 /\
     exists r s, sessions w !! r = Some s /\ proxy_server s /\ _id s = id /\
                 uiId i = id /\ sGuid i = _guid s) /\
  (forall r s, sessions w !! r = Some s -> proxy_server s ->
     is_Some (st_view (_ss_db (mgr w)) !! _id s)).
Proof.
  intros Hd Hv Hn Hr.
  destruct (reg_reach_id _ _ _ _ Hv Hn (reach_reg cfg t d n w Hd Hr)) as [Ii Hi]. split.
  - intros id i E. destruct (ii_pub _ Ii id i E) as (Ei & r & c & S & Ec & Eg).
    apply server_online_reg in S as (s & Es & -> & P). split; [|exists r, s; split_and!; auto].
    pose proof (ii_cid _ Ii r (client_of s) (client_lookup w r s Es) (proj2 (proj1 P))). simpl in *. lia.
  - intros r s Es P. apply (ii_listed _ Ii r (client_of s)). apply server_online_reg. eauto.
Qed.

(** A client that is sent [out] learns the ids of the proxy servers on line,
    all of them and nothing else, each once. *)
Definition tells {D} (out : bytes) (w : World D) : Prop :=
  NoDup (decode_sessions out).*1 /\
  forall id, id ∈ (decode_sessions out).*1 <->
    exists r s, sessions w !! r = Some s /\ proxy_server s /\ _id s = id.

Lemma tells_current cfg t passwd n (w : World CSessionDb) d :
  Z.of_nat n < 2 ^ 32 - 1001 -> reach cfg t (start (new_db passwd)) n w -> st_inv (start (new_db passwd)) ->
  st_inv d -> _db d = db_view (_ss_db (mgr w)) -> tells (output d) w.
Proof.
  intros Hn Hr H0 (Hw & _ & Hc) Ed.
  destruct (view_exact cfg t _ n w H0 eq_refl Hn Hr) as [V1 V2]. simpl in V1, V2.
  assert ((decode_sessions (output d)).*1 ≡ₚ (map_to_list (_db d)).*1) as P.
  { apply current_ids; [done..|]. intros k i E. rewrite Ed in E. exact (proj1 (V1 k i E)). }
  split; [rewrite P; apply NoDup_fst_map_to_list|].
  intros id. rewrite P, list_elem_of_fmap, Ed. split.
  - intros ([k i] & -> & E%elem_of_map_to_list). destruct (V1 k i E) as (_ & r & s & Es & Hp & Ei & _). eauto.
  - intros (r & s & Es & Hp & <-). destruct (V2 r s Es Hp) as [i E]. exists (_id s, i).
    split; [done|]. by apply elem_of_map_to_list.
Qed.



(** C15. Every proxy server can be reached: under the same bound,
    [getSessionWithLock] finds each published session by its id, and no two
    logged-in sessions have the same id. *)
Theorem directory_finds_servers `{SL : SessionStoreLaws D} cfg t (d : D) n w r1 s1 :
  st_inv d -> st_view d = ∅ -> Z.of_nat n < 2 ^ 32 - 1001 -> reach cfg t d n w ->
  sessions w !! r1 = Some s1 ->
  (proxy_server s1 -> getSessionWithLock (_id s1) w = Some r1) /\
  (forall r2 s2, sessions w !! r2 = Some s2 -> _logined s1 = true -> _logined s2 = true ->
     _id s1 = _id s2 -> r1 = r2).
Proof.
  intros Hd Hv Hn Hr E1.
  destruct (reg_reach_id _ _ _ _ Hv Hn (reach_reg cfg t d n w Hd Hr)) as [Ii _]. split.
  - intros P. assert (directory (reg w) !! _id s1 = Some r1) as Ed.
    { apply (ii_dir _ Ii r1 (client_of s1)). apply server_online_reg. eauto. }
    simpl in Ed. unfold getSessionWithLock. rewrite Ed. simpl. by rewrite E1.
  - intros r2 s2 E2 L1 L2 Eq.
    exact (ii_unique _ Ii _ _ _ _ (client_lookup w r1 s1 E1) (client_lookup w r2 s2 E2) L1 L2 Eq).
Qed.

Lemma directory_finds_servers_witness : getSessionWithLock 1000 logins_world = Some 0%nat.
Proof.
  apply (proj1 (directory_finds_servers demo_cfg 0 (start (new_db [])) 6 logins_world 0
           (session_at 0 logins_world) demo_db_inv eq_refl ltac:(lia) reach_logins
           ltac:(vm_compute; reflexivity))).
  by vm_compute.
Defined.
