(* ===== verification/Acceptors.v ===== *)
(** * Several acceptors

    [CServer::start] spawns one acceptor per local address, on contexts that
    different threads run.  An acceptor does not check and count a connection
    in one go: between the comparison of [_conn_num] with the limit, the
    [fetch_add] and [ss->start()] others move.  Here each acceptor is a
    coroutine with its own program counter, interleaved with the other
    acceptors and with every other event of the server. *)
From stdpp Require Import relations.
From S2P Require Import Prelude Protocol SessionStore SessionDb World Session Server Scenario Frames Registry SessionMachine Refinement.

(** Where an acceptor is: waiting in [async_accept], before the comparison,
    between it and the [fetch_add], before [start()], or gone with an
    exception. *)
Inductive acceptor_pc :=
| AccWait
| AccCheck (a : accepted)
| AccCount (a : accepted)
| AccStart (a : accepted)
| AccDead.

Definition counted (pc : acceptor_pc) : bool := match pc with AccStart _ => true | _ => false end.
Definition admitted (pc : acceptor_pc) : bool := match pc with AccCount _ => true | _ => false end.
(** The connection an acceptor deals with has a peer. *)
Definition pc_ok (pc : acceptor_pc) : Prop :=
  match pc with
  | AccCheck a | AccCount a | AccStart a => is_Some (acc_remote a)
  | _ => True
  end.

Section acceptors.
Context {D : Type} `{SessionStore D}.
Implicit Types (w : World D).

(** One move of an acceptor; [a] is what [async_accept] reports. *)
Definition acceptor_step (a : accepted) (pc : acceptor_pc) w :
    outcome unit * (acceptor_pc * World D) :=
  match pc with
  | AccWait =>
      (Ok tt,
       (if acc_ec a then AccWait
        else if negb (acc_open a) then AccWait
        else match acc_remote a with None => AccWait | Some _ => AccCheck a end, w))
  | AccCheck a => (Ok tt, (if exceeds w then AccWait else AccCount a, w))
  | AccCount a => (Ok tt, (AccStart a, count_conn w))
  | AccStart a =>
      let '(o, w) := start_accepted a w in
      (o, (if is_Ok o then AccWait else AccDead, w))
  | AccDead => (Ok tt, (AccDead, w))
  end.

(** The moves of one acceptor, nobody else moving. *)
Fixpoint acceptor_alone (n : nat) (a : accepted) (pc : acceptor_pc) w :
    outcome unit * (acceptor_pc * World D) :=
  match n with
  | O => (Ok tt, (pc, w))
  | S n =>
      let '(o, (pc, w)) := acceptor_step a pc w in
      if is_Ok o && negb (if pc is AccWait then true else false) then acceptor_alone n a pc w
      else (o, (pc, w))
  end.

(** The server with its acceptors. *)
Inductive mevent :=
| MAcceptor (i : nat) (a : accepted)
| MEvent (e : event).

Definition mstep (e : mevent) (m : list acceptor_pc * World D) :
    option (outcome unit * (list acceptor_pc * World D)) :=
  match e with
  | MAcceptor i a =>
      pc ← m.1 !! i;
      let '(o, (pc, w)) := acceptor_step a pc m.2 in
      Some (o, (<[i := pc]> m.1, w))
  | MEvent (EvAccept _) => None
  | MEvent e => '(o, w) ← step e m.2; Some (o, (m.1, w))
  end.

Inductive mreach (cfg : config) (t : Z) (d : D) (k : nat) : list acceptor_pc * World D -> Prop :=
| mreach_init : mreach cfg t d k (replicate k AccWait, initial cfg t d)
| mreach_step m e o m' :
    mreach cfg t d k m -> mstep e m = Some (o, m') -> goes_on o = true -> mreach cfg t d k m'
| mreach_store accs w d' :
    mreach cfg t d k (accs, w) -> st_bg (_ss_db (mgr w)) d' ->
    mreach cfg t d k (accs, upd_mgr (set_ss_db d') w).

(** Running a list of events, for concrete runs. *)
Fixpoint mrun (es : list mevent) (m : list acceptor_pc * World D) :
    option (list acceptor_pc * World D) :=
  match es with
  | [] => Some m
  | e :: es => '(o, m) ← mstep e m; if goes_on o then mrun es m else None
  end.

Lemma mrun_mreach cfg t d k es m m' :
  mreach cfg t d k m -> mrun es m = Some m' -> mreach cfg t d k m'.
Proof.
  revert m. induction es as [|e es IH]; intros m Hr E; simpl in E; [by injection E as <-|].
  destruct (mstep e m) as [[o m1]|] eqn:Em; [|done]. simpl in E.
  destruct (goes_on o) eqn:Ho; [|done]. eauto using mreach_step.
Qed.
End acceptors.

(** ** Invariant *)

Definition count_pc (p : acceptor_pc -> bool) (l : list acceptor_pc) : Z :=
  Z.of_nat (length (filter (fun pc => p pc = true) l)).

Lemma count_pc_insert p l i pc pc' :
  l !! i = Some pc ->
  count_pc p (<[i := pc']> l) = count_pc p l - Z.b2z (p pc) + Z.b2z (p pc').
Proof.
  intros E. unfold count_pc. rewrite insert_take_drop by by eapply lookup_lt_Some.
  rewrite <-(take_drop_middle l i pc E) at 3. rewrite !filter_app, !length_app, !filter_cons.
  destruct (p pc) eqn:Ep, (p pc') eqn:Ep'; simpl; rewrite ?Ep, ?Ep'; simpl; lia.
Qed.

Lemma count_pc_disjoint l : count_pc counted l + count_pc admitted l <= Z.of_nat (length l).
Proof.
  unfold count_pc. induction l as [|pc l IH]; [done|]. rewrite !filter_cons.
  destruct pc; simpl; lia.
Qed.

Lemma count_pc_nonneg p l : 0 <= count_pc p l.
Proof. unfold count_pc. lia. Qed.

Definition with_conns (n : Z) (g : registry) : registry :=
  mkReg (clients g) (guids g) (directory g) (published g) (next_id g) n (next_ref g).

(** A step of the registry that adds no client: the counter follows the clients
    on line, whatever it is ahead of them. *)
Lemma reg_step_drift max g g' x :
  reg_step max g g' -> guid_inv g ->
  (forall r, is_Some (clients g' !! r) -> is_Some (clients g !! r)) ->
  conns g = wrap 32 (count_online g + x) ->
  conns g' = wrap 32 (count_online g' + x) /\ count_online g' <= count_online g.
Proof.
  intros Hs Ig Hd Hc. destruct Hs as [n g Hn|r g Hf Hr|r c guid ty remote g Er El Hon|r c g Er Hon|r c g Er Hon].
  - done.
  - destruct (Hd r) as [c Ec]; [simpl; rewrite lookup_insert_eq; by eexists|].
    pose proof (gi_ref g Ig r c Ec). lia.
  - assert (count_online (reg_login r c guid ty remote g) = count_online g) as ->.
    { unfold count_online, reg_login. repeat case_match; simpl; rewrite (count_insert r c) by done; simpl; lia. }
    assert (conns (reg_login r c guid ty remote g) = conns g) as ->; [|done].
    unfold reg_login. by repeat case_match.
  - assert (count_online (reg_stop r c g) = count_online g - 1) as ->.
    { unfold count_online, reg_stop. case_match; simpl; rewrite (count_insert r c), Hon by done; simpl; lia. }
    assert (conns (reg_stop r c g) = wrap 32 (conns g - 1)) as ->.
    { unfold reg_stop. by case_match. }
    rewrite Hc. unfold wrap. rewrite Zminus_mod_idemp_l. split; [f_equal; lia|lia].
  - assert (count_online (reg_gone r g) = count_online g) as ->; [|done].
    unfold count_online, reg_gone. simpl. rewrite (count_delete r c), Hon by done. simpl. lia.
Qed.

Section invariant.
Context {D : Type} `{SL : SessionStoreLaws D}.
Implicit Types (w : World D) (m : list acceptor_pc * World D).

Record minv (cfg : config) (k : nat) m : Prop := {
  mi_conc : conc_inv cfg m.2;
  mi_ids : ids_ok cfg m.2;
  mi_sess : forall r s, sessions m.2 !! r = Some s -> read_ok s /\ sock_inv s;
  mi_guid : guid_inv (reg m.2);
  mi_len : length m.1 = k;
  mi_pc : Forall pc_ok m.1;
  mi_conn : _conn_num m.2 = wrap 32 (count_online (reg m.2) + count_pc counted m.1)
}.

Lemma sess_ok_moved w w' :
  moved true w w' ->
  (forall r s, sessions w !! r = Some s -> read_ok s /\ sock_inv s) ->
  (forall r s, sessions w' !! r = Some s -> read_ok s /\ sock_inv s).
Proof.
  intros Hev I r s' Es'. destruct (Hev r s' Es') as (s & Es & Hr).
  apply (rtc_invariant (fun s => read_ok s /\ sock_inv s) s s'); [|done|by eapply I].
  intros s1 s2 Hs [??]. eauto using read_ok_step, sock_inv_step.
Qed.

Lemma minv_event cfg k accs w e o w' :
  (forall a, e <> EvAccept a) -> step e w = Some (o, w') -> goes_on o = true ->
  minv cfg k (accs, w) ->
  minv cfg k (accs, w') /\ count_online (reg w') <= count_online (reg w).
Proof.
  intros Hna E Ho [Hc Hi Hs Hg Hl Hp Hn]. simpl in *.
  assert (ids_ok cfg w' /\ moved true w w') as [Hi' Hev].
  { eapply step_evolves; [exact Hna|by intros r s [??]%Hs|done|exact E|exact Ho|exact Hi]. }
  destruct (step_refines cfg e w o w' ltac:(by intros r s [??]%Hs) E Ho Hc) as [Hc' Hr].
  destruct (reg_step_drift _ _ _ (count_pc counted accs) Hr Hg) as [Hn' Hle]; [|done|].
  - intros r [c Ec]. simpl in *. rewrite lookup_fmap in *.
    destruct (sessions w' !! r) as [s'|] eqn:Es'; [|done].
    destruct (Hev r s' Es') as (s & -> & _). by eexists.
  - split; [|done]. split; simpl; try done; [by eapply sess_ok_moved|by eapply guid_inv_step].
Qed.

Lemma minv_start cfg k accs w i a :
  accs !! i = Some (AccStart a) -> minv cfg k (accs, w) ->
  let pc := if is_Ok (start_accepted a w).1 then AccWait else AccDead in
  minv cfg k (<[i := pc]> accs, (start_accepted a w).2) /\
  count_online (reg (start_accepted a w).2) = count_online (reg w) + 1.
Proof.
  intros Ei [Hc Hi Hs Hg Hl Hp Hn] pc. simpl in *.
  assert (is_Some (acc_remote a)) as Ha by exact (Forall_lookup_1 _ _ _ _ Hp Ei).
  assert (guid_inv (reg_accept (heap_next w) (reg w))) as Hga.
  { apply (guid_inv_step 0 (reg w)); [by apply step_accept|done]. }
  assert (count_online (reg (start_accepted a w).2) = count_online (reg w) + 1) as Hcount.
  { rewrite reg_start_accepted. unfold count_online. cbn [clients].
    rewrite count_new by by apply fresh_client. done. }
  split; [|done]. split; cbn [fst snd].
  - by apply conc_inv_start_accepted.
  - by apply ids_ok_start_accepted.
  - intros r s Es. destruct (start_accepted_sessions true a w r s Ha Es)
      as [(s0 & E0 & Hr)|(_ & s0 & H0 & Hr)];
      (apply (rtc_invariant (fun s => read_ok s /\ sock_inv s) s0 s); [|done|]);
      try (intros s1 s2 Hst [??]; eauto using read_ok_step, sock_inv_step; done); [by eapply Hs|].
    split; [by eapply sess_init_read_ok|]. destruct H0. by intros _.
  - rewrite reg_start_accepted. by apply (guid_inv_same (reg_accept (heap_next w) (reg w))).
  - by rewrite length_insert.
  - apply Forall_insert; [done|]. unfold pc. by case_match.
  - rewrite Hcount, (count_pc_insert _ _ _ _ _ Ei). cbn [counted].
    assert (_conn_num (start_accepted a w).2 = _conn_num w) as ->.
    { change (conns (reg (start_accepted a w).2) = conns (reg w)). by rewrite reg_start_accepted. }
    rewrite Hn. f_equal. unfold pc. case_match; simpl; lia.
Qed.
(** Sessions that are started, and connections on their way to be. *)
Definition inflow m : Z :=
  count_online (reg m.2) + count_pc counted m.1 + count_pc admitted m.1.

(** The moves of an acceptor before it starts a session. *)
Lemma minv_pc cfg k accs w i pc pc' w' :
  accs !! i = Some pc -> pc_ok pc' -> reg w' = with_conns (_conn_num w') (reg w) ->
  sessions w' = sessions w -> (conc_inv cfg w -> conc_inv cfg w') -> (ids_ok cfg w -> ids_ok cfg w') ->
  _conn_num w' = wrap 32 (_conn_num w + (Z.b2z (counted pc') - Z.b2z (counted pc))) ->
  minv cfg k (accs, w) -> minv cfg k (<[i := pc']> accs, w').
Proof.
  intros Ei Hok Hr Hs Hc Hi Hn [Ic Ii Is Ig Il Ip In]. split; cbn [fst snd] in *.
  - auto.
  - auto.
  - by rewrite Hs.
  - rewrite Hr. by apply (guid_inv_same (reg w)).
  - by rewrite length_insert.
  - by apply Forall_insert.
  - rewrite Hn, In, Hr, (count_pc_insert _ _ _ _ _ Ei). unfold wrap. rewrite Zplus_mod_idemp_l.
    unfold count_online. cbn [with_conns clients]. f_equal. lia.
Qed.

Lemma minv_acceptor cfg k accs w i a pc o pc' w' :
  0 < maxSessions cfg -> maxSessions cfg + Z.of_nat k < 2 ^ 32 ->
  accs !! i = Some pc -> acceptor_step a pc w = (o, (pc', w')) ->
  minv cfg k (accs, w) -> inflow (accs, w) <= maxSessions cfg + Z.of_nat k ->
  minv cfg k (<[i := pc']> accs, w') /\
  inflow (<[i := pc']> accs, w') <= maxSessions cfg + Z.of_nat k.
Proof.
  intros Hm Hk Ei E I Hl. unfold inflow in *. cbn [fst snd] in *.
  pose proof (Forall_lookup_1 _ _ _ _ (mi_pc _ _ _ I) Ei) as Hpc. simpl in Hpc.
  rewrite !(count_pc_insert _ _ _ _ _ Ei).
  assert (forall pc', pc_ok pc' -> counted pc' = counted pc ->
    minv cfg k (<[i := pc']> accs, w)) as Hsame.
  { intros pc1 Hok Hco. eapply minv_pc; try done.
    pose proof (mi_conn _ _ _ I) as Hn. cbn [fst snd] in Hn.
    rewrite Hco, Z.sub_diag, Z.add_0_r, Hn. unfold wrap. by rewrite Zmod_mod. }
  destruct pc as [|b|b|b|]; simpl in E.
  - injection E as <- <- <-. split; [|repeat case_match; simpl; lia].
    apply Hsame; [|by repeat case_match]. repeat case_match; simpl; eauto.
  - injection E as <- <- <-. split; [apply Hsame; by case_match|].
    destruct (exceeds w) eqn:Ex; simpl; [lia|].
    pose proof (ci_cfg _ _ (mi_conc _ _ _ I)) as Hcfg. cbn [fst snd] in Hcfg.
    unfold exceeds in Ex. rewrite Hcfg in Ex.
    pose proof (mi_conn _ _ _ I) as Hn. cbn [fst snd] in Hn.
    pose proof (count_pc_nonneg counted accs). pose proof (count_pc_nonneg admitted accs).
    rewrite Hn in Ex. unfold wrap in Ex. unfold count_online in *. rewrite Z.mod_small in Ex by lia.
    apply andb_false_iff in Ex as [Ex|Ex]; bool_to_Z; [lia|].
    pose proof (count_pc_disjoint (<[i := AccCount b]> accs)) as Hd.
    pose proof (mi_len _ _ _ I) as Hlen. cbn [fst] in Hlen.
    rewrite length_insert, !(count_pc_insert _ _ _ _ _ Ei), Hlen in Hd. simpl in Hd. lia.
  - injection E as <- <- <-. split;
      [|change (count_online (reg (count_conn w))) with (count_online (reg w)); simpl; lia].
    eapply (minv_pc cfg k accs w); try done; [by destruct 1; split|].
    intros (Hi & Hc & Hg). split_and!; simpl; by try apply u32_wrap.
  - destruct (minv_start cfg k accs w i b Ei I) as [I' Hc].
    destruct (start_accepted b w) as [o1 w1]. injection E as <- <- <-. simpl in *.
    split; [done|]. rewrite Hc. case_match; simpl; lia.
  - injection E as <- <- <-. split; [by apply Hsame|simpl; lia].
Qed.

Lemma minv_init cfg t d k :
  st_inv d -> minv cfg k (replicate k AccWait, initial cfg t d).
Proof.
  intros Hd. split; simpl.
  - by split.
  - by split.
  - intros r s Es. by rewrite lookup_empty in Es.
  - split; simpl; intros *; rewrite ?fmap_empty, ?lookup_empty; done.
  - apply length_replicate.
  - by apply Forall_replicate.
  - unfold count_online, count_pc. simpl. rewrite fmap_empty, map_filter_empty. simpl.
    assert (filter (fun pc => counted pc = true) (replicate k AccWait) = []) as ->; [|done].
    induction k; [done|]. simpl. by rewrite filter_cons.
Qed.

Lemma mreach_minv cfg t d k m :
  st_inv d -> 0 < maxSessions cfg -> maxSessions cfg + Z.of_nat k < 2 ^ 32 ->
  mreach cfg t d k m -> minv cfg k m /\ inflow m <= maxSessions cfg + Z.of_nat k.
Proof.
  intros Hd Hm Hk Hr. induction Hr as [|m e o m' Hr [I Hl] E Ho|accs w d' Hr [I Hl] Hb].
  - split; [by apply minv_init|]. unfold inflow, count_online, count_pc. simpl.
    rewrite fmap_empty, map_filter_empty, map_size_empty.
    assert (forall p, p AccWait = false ->
      filter (fun pc => p pc = true) (replicate k AccWait) = []) as Hf.
    { intros p Hp. clear -Hp. induction k; [done|]. simpl. by rewrite filter_cons, Hp. }
    rewrite !Hf by done. simpl. lia.
  - destruct m as [accs w], e as [i a|e]; simpl in E.
    + destruct (accs !! i) as [pc|] eqn:Ei; [|done]. simpl in E.
      destruct (acceptor_step a pc w) as [o1 [pc' w']] eqn:Ea. injection E as <- <-.
      by eapply minv_acceptor.
    + assert (forall a, e <> EvAccept a) as Hna by (by intros a ->).
      assert (('(o, w) ← step e w; Some (o, (accs, w))) = Some (o, m')) as E' by by destruct e.
      clear E. destruct (step e w) as [[o1 w']|] eqn:Es; [|done]. injection E' as <- <-.
      destruct (minv_event cfg k accs w e o1 w' Hna Es Ho I) as [I' Hle]. split; [done|].
      unfold inflow in *. simpl in *. lia.
  - destruct I as [Ic Ii Is Ig Il Ip In]. cbn [fst snd] in *.
    destruct (store_refines cfg d' w Hb Ic) as [Ic' Hr'].
    split; [split; try done; by eapply guid_inv_step|exact Hl].
Qed.
End invariant.

(** ** Properties *)

(** C12. With [k] acceptors on different threads the limit on sessions holds
    up to [k]: however their checks and increments interleave with each other
    and with the rest of the server, at most [maxSessions + k] sessions are
    started, and [_conn_num] counts those and the connections between
    [fetch_add] and [start()]. *)
Theorem concurrent_limit `{SL : SessionStoreLaws D} cfg t (d : D) k m :
  st_inv d -> 0 < maxSessions cfg -> maxSessions cfg + Z.of_nat k < 2 ^ 32 ->
  mreach cfg t d k m ->
  started_sessions m.2 <= maxSessions cfg + Z.of_nat k /\
  _conn_num m.2 = started_sessions m.2 + count_pc counted m.1.
Proof.
  intros Hd Hm Hk Hr. destruct (mreach_minv cfg t d k m Hd Hm Hk Hr) as [I Hl].
  unfold inflow in Hl. rewrite (mi_conn _ _ _ I). rewrite count_online_reg in *.
  pose proof (count_pc_nonneg counted m.1). pose proof (count_pc_nonneg admitted m.1).
  unfold wrap, started_sessions in *. rewrite Z.mod_small by lia. lia.
Qed.

(** An acceptor that nobody interrupts from the acceptance of a
    connection to the start of its session does exactly what [acceptor], the
    handler of the atomic model, does. *)
Theorem acceptor_alone_atomic {D : Type} `{SessionStore D} a (w : World D) :
  (acceptor_alone 4 a AccWait w).1 = (acceptor a w).1 /\
  (acceptor_alone 4 a AccWait w).2.2 = (acceptor a w).2 /\
  (acceptor_alone 4 a AccWait w).2.1 = if is_Ok (acceptor a w).1 then AccWait else AccDead.
Proof.
  unfold acceptor, acceptor_alone. simpl. destruct (acc_ec a); [done|].
  destruct (acc_open a); [|done]. destruct (acc_remote a); [|done]. simpl.
  destruct (exceeds w); [done|]. simpl.
  destruct (start_accepted a (count_conn w)) as [[]w']; done.
Qed.

(** Two acceptors and a limit of two: two connections one after the other,
    then two at the same time, which both pass the check. *)
Definition conn_from (k : Z) : accepted :=
  {| acc_ec := false; acc_open := true; acc_remote := Some (client_ep k);
     acc_local := Some server_ep; acc_no_delay := true |}.
Definition two_at_once : list mevent :=
  replicate 4 (MAcceptor 0 (conn_from 0)) ++ replicate 4 (MAcceptor 0 (conn_from 1))
  ++ concat (replicate 4 [MAcceptor 0 (conn_from 2); MAcceptor 1 (conn_from 3)]).
Definition crowded : list acceptor_pc * World CSessionDb :=
  default ([], demo_init) (mrun two_at_once (replicate 2 AccWait, demo_init)).

Lemma crowded_reach : mreach demo_cfg 0 (start (new_db [])) 2 crowded.
Proof.
  apply (mrun_mreach demo_cfg 0 (start (new_db [])) 2 two_at_once (replicate 2 AccWait, demo_init));
    [constructor|]. vm_compute. reflexivity.
Qed.

(** The bound is reached: four sessions. *)
Lemma concurrent_limit_witness :
  started_sessions crowded.2 = 4 /\ maxSessions demo_cfg = 2 /\
  started_sessions crowded.2 <= maxSessions demo_cfg + 2 /\
  _conn_num crowded.2 = started_sessions crowded.2 + count_pc counted crowded.1.
Proof.
  split; [vm_compute; reflexivity|]. split; [done|].
  exact (concurrent_limit demo_cfg 0 (start (new_db [])) 2 crowded demo_db_inv
           ltac:(simpl; lia) ltac:(simpl; lia) crowded_reach).
Defined.
