(* ===== verification/SessionFacts.v ===== *)
(** * Properties of sessions in the running program

    Consequences of the session machine: the read and the write pipeline, the
    order of messages, the idle timer, and what a login fixes. *)
From stdpp Require Import relations.
From S2P Require Import Prelude Protocol SafeContainers SessionStore SessionDb World SessionOut Channel SessionMgr Session Server Scenario Frames Registry SessionMachine Refinement.

(** ** Invariants of the machine *)

(** Reduce a step to the record update it is. *)
Ltac ss_updates :=
  repeat match goal with
  | H : timer_fire _ = Some _ |- _ => apply timer_fire_eq in H as ->
  | H : run_post _ = Some _ |- _ => apply run_post_frame in H as (?&?&?&->)
  | H : onWriteComplete _ _ = Some _ |- _ => apply onWriteComplete_frame in H as (?&?&?&->)
  end.

Lemma run_post_ok s o :
  pipe_ok s -> run_post s = Some o ->
  exists s', o = Ok s' /\ pipe_ok s' /\ (pipe_live s -> pipe_live s').
Proof.
  intros Hp. unfold run_post. destruct (posts s) as [|msg ps]; [done|]. intros [= <-].
  apply (writeImpl_ok msg (set_posts ps s)). exact Hp.
Qed.

Lemma pipe_ok_step wf s s' : sess_step wf s s' -> pipe_ok s -> pipe_ok s'.
Proof.
  intros Hs I. ss_cases Hs; try (apply timer_fire_eq in Hf as ->); try exact I.
  - unfold pipe_ok in *. destruct I as [I|(m & q & I1 & I2)]; [left; congruence|right].
    exists m, q. split; congruence.
  - unfold stopped, timer_cancel. destruct (timer s); exact I.
  - unfold timer_cancel. simpl. destruct (timer s); exact I.
  - destruct (run_post_ok s (Ok s') I Hr) as (x & [= <-] & Hx & _). exact Hx.
  - destruct (onWriteComplete_ok failed s (Ok s') I Hw) as (x & [= <-] & Hx & _). exact Hx.
Qed.

(** Posted, queued and written messages: only a failed write takes one away. *)
Lemma outbox_step s s' :
  sess_step false s s' -> pipe_ok s -> outbox s `prefix_of` outbox s'.
Proof.
  intros Hs I. ss_cases Hs; try (apply timer_fire_eq in Hf as ->); try done.
  - unfold outbox.
    repeat match goal with E : ?f s' = ?f s |- _ => rewrite E; clear E end.
    by do 2 apply prefix_app.
  - unfold stopped, timer_cancel. by destruct (timer s).
  - unfold timer_cancel. simpl. by destruct (timer s).
  - by rewrite (run_post_outbox s s').
  - destruct failed; [by specialize (Hwf eq_refl)|].
    by rewrite (onWriteComplete_outbox s s' I Hw).
Qed.

Lemma outbox_steps s s' :
  rtc (sess_step false) s s' -> pipe_ok s -> outbox s `prefix_of` outbox s'.
Proof.
  induction 1 as [|s1 s2 s3 H1 H2 IH]; intros I; [done|].
  etrans; [by apply outbox_step|]. apply IH. by eapply pipe_ok_step.
Qed.

(** The wait on the timer is over before a login is answered. *)
Definition timer_ok (s : CSession) : Prop := _logined s = true -> timer s <> TimerWait.

Lemma timer_ok_step s s' : sess_step true s s' -> timer_ok s -> timer_ok s'.
Proof.
  unfold timer_ok. intros Hs I. ss_cases Hs; ss_updates; simpl in *; try done; try exact I.
  - intros Hl. enough (timer s <> TimerWait) by congruence. apply I. congruence.
  - intros _. unfold timer_cancel. destruct (timer s) eqn:E; simpl; congruence.
  - intros _. unfold timer_cancel; simpl. destruct (timer s) eqn:E; simpl; congruence.
Qed.

(** What a login fixes. *)
Definition identity (s : CSession) := (_guid s, _id s, _session_type s, _private_addr s).

Lemma identity_step wf s s' :
  sess_step wf s s' -> _logined s = true -> _logined s' = true /\ identity s' = identity s.
Proof.
  unfold identity. intros Hs HL. ss_cases Hs; ss_updates; simpl; try done; try congruence.
  - split; congruence.
  - unfold timer_cancel. by destruct (timer s).
Qed.

Lemma identity_steps wf s s' :
  rtc (sess_step wf) s s' -> _logined s = true -> _logined s' = true /\ identity s' = identity s.
Proof.
  induction 1 as [|s1 s2 s3 H1 H2 IH]; intros Hl; [done|].
  destruct (identity_step wf s1 s2 H1 Hl) as [Hl2 E2]. destruct (IH Hl2). split; congruence.
Qed.

(** A pipeline that a failed write has left behind. *)
Definition stalled (s : CSession) : Prop := writes s = [] /\ _sque s <> [].

Lemma stalled_step wf s s' : sess_step wf s s' -> stalled s -> stalled s' /\ wire s' = wire s.
Proof.
  unfold stalled. intros Hs [Hw0 Hq]. ss_cases Hs; try (apply timer_fire_eq in Hf as ->);
    simpl; try done; try (split_and!; congruence).
  - unfold timer_cancel. by destruct (timer s).
  - unfold timer_cancel. simpl. by destruct (timer s).
  - revert Hr. unfold run_post, writeImpl. destruct (posts s) as [|m ps]; [done|]. simpl.
    destruct (_sque s) as [|m0 q]; [done|]. simpl.
    destruct (length (q ++ [m])) eqn:El; [rewrite length_app in El; simpl in El; lia|].
    simpl. intros [= <-]. done.
  - unfold onWriteComplete in Hw. by rewrite Hw0 in Hw.
Qed.

(** ** Reachable states *)

Section reachable.
Context {D : Type} `{SL : SessionStoreLaws D}.
Implicit Types (w : World D) (r : sref).

Lemma reach_pipe_ok cfg t d n w r s :
  reach cfg t d n w -> sessions w !! r = Some s -> pipe_ok s.
Proof.
  apply reach_session_inv; [|apply pipe_ok_step]. intros ? [l re]. by left.
Qed.

Lemma reach_ref cfg t d n w r s :
  st_inv d -> reach cfg t d n w -> sessions w !! r = Some s -> (r < heap_next w)%nat.
Proof.
  intros Hd Hr E. destruct (reg_reach_inv _ _ _ _ (reach_reg cfg t d n w Hd Hr)) as [Ig _].
  exact (gi_ref _ Ig r _ (client_lookup w r s E)).
Qed.

(** A step on a session that exists before and after it. *)
Lemma reach_session_step wf cfg t d n w e o w' r s s' :
  st_inv d -> reach cfg t d n w -> (forall r0, e = EvWrite r0 true -> wf = true) ->
  step e w = Some (o, w') -> goes_on o = true ->
  sessions w !! r = Some s -> sessions w' !! r = Some s' -> rtc (sess_step wf) s s'.
Proof.
  intros Hd Hr Hwf E Ho Es Es'.
  destruct (session_machine_step wf cfg e w o w' r s' (reach_read_ok _ _ _ _ _ Hr) Hwf E Ho
    (reach_ids_ok _ _ _ _ _ Hr) Es')
    as [(s0 & E0 & Hs)|(-> & _)]; [by simplify_eq|].
  pose proof (reach_ref _ _ _ _ _ _ _ Hd Hr Es). lia.
Qed.

Lemma heap_next_step cfg t d n w e o w' :
  st_inv d -> reach cfg t d n w -> step e w = Some (o, w') -> goes_on o = true ->
  (heap_next w <= heap_next w')%nat.
Proof.
  intros Hd Hr E Ho.
  destruct (step_refines cfg e w o w' (reach_sock_inv _ _ _ _ _ Hr) E Ho) as [_ Hs];
    [by eapply reach_conc_inv|].
  change (next_ref (reg w) <= next_ref (reg w'))%nat.
  revert Hs. generalize (reg w) (reg w'). intros g g' Hs. destruct Hs; simpl; try lia.
  - unfold reg_login. by repeat case_match.
  - unfold reg_stop. by case_match.
Qed.

(** A failed write on another session. *)
Lemma other_write r0 w o w' r :
  step (EvWrite r0 true) w = Some (o, w') -> r <> r0 -> sessions w' !! r = sessions w !! r.
Proof.
  simpl. unfold on_session. intros E Hne.
  destruct (sessions w !! r0) as [s|]; [|done]. simpl in E.
  destruct (onWriteComplete true s) as [[]|]; simplify_eq/=; try done.
  by rewrite lookup_alter_ne.
Qed.

Lemma outbox_one_step cfg t d n w e o w' r s s' :
  st_inv d -> reach cfg t d n w -> e <> EvWrite r true ->
  step e w = Some (o, w') -> goes_on o = true ->
  sessions w !! r = Some s -> sessions w' !! r = Some s' -> outbox s `prefix_of` outbox s'.
Proof.
  intros Hd Hr He E Ho Es Es'.
  assert ((exists r0, e = EvWrite r0 true) \/ (forall r0, e = EvWrite r0 true -> false = true))
    as [[r0 ->]|Hwf].
  { destruct e as [| | |r0 []| | | | | | | | | | |]; try (by right). left. eauto. }
  - rewrite (other_write r0 w o w' r E) in Es' by congruence. by simplify_eq.
  - apply outbox_steps; [by eapply (reach_session_step false)|by eapply reach_pipe_ok].
Qed.

(** Sessions do not come back. *)
Lemma session_before cfg t d n w e o w' r s' :
  st_inv d -> reach cfg t d n w -> step e w = Some (o, w') -> goes_on o = true ->
  (r < heap_next w)%nat -> sessions w' !! r = Some s' -> is_Some (sessions w !! r).
Proof.
  intros Hd Hr E Ho Hlt Es'.
  destruct (session_machine_step true cfg e w o w' r s' (reach_read_ok _ _ _ _ _ Hr) ltac:(done) E Ho
    (reach_ids_ok _ _ _ _ _ Hr) Es')
    as [(s0 & -> & _)|(-> & _)]; [done|lia].
Qed.

Lemma outbox_run cfg t d n w es o w' r s s' :
  st_inv d -> reach cfg t d n w -> EvWrite r true ∉ es ->
  run es w = Some (o, w') -> goes_on o = true ->
  sessions w !! r = Some s -> sessions w' !! r = Some s' -> outbox s `prefix_of` outbox s'.
Proof.
  intros Hd. revert n w s. induction es as [|e es IH]; intros n w s Hr Hes Hrun Ho Es Es'.
  { simpl in Hrun. by simplify_eq. }
  apply not_elem_of_cons in Hes as [He Hes]. simpl in Hrun.
  destruct (step e w) as [[o1 w1]|] eqn:E; [|done].
  destruct es as [|e' es]; [simplify_eq; by eapply outbox_one_step|].
  destruct (goes_on o1) eqn:G; [|done].
  assert (reach cfg t d (S n) w1) as Hr1 by by eapply reach_step.
  assert (is_Some (sessions w1 !! r)) as [s1 Es1].
  { pose proof (reach_ref _ _ _ _ _ _ _ Hd Hr Es) as Hlt.
    pose proof (heap_next_step _ _ _ _ _ _ _ _ Hd Hr E G) as Hle.
    assert (forall es n w, reach cfg t d n w -> (r < heap_next w)%nat -> run es w = Some (o, w') ->
      is_Some (sessions w !! r)) as Hback; [|by eapply Hback; [exact Hr1|lia|exact Hrun]].
    clear -Hd Ho Es' SL. induction es as [|e es IH]; intros n w Hr Hlt Hrun; simpl in Hrun.
    { by simplify_eq. }
    destruct (step e w) as [[o1 w1]|] eqn:E; [|done].
    assert (goes_on o1 = true -> is_Some (sessions w1 !! r) -> is_Some (sessions w !! r)) as Hb.
    { intros G [x Ex]. by eapply session_before. }
    destruct es as [|e' es]; [simplify_eq; eauto|].
    destruct (goes_on o1) eqn:G; [|done]. apply Hb; [done|].
    eapply IH; [by eapply reach_step| |exact Hrun].
    pose proof (heap_next_step _ _ _ _ _ _ _ _ Hd Hr E G). lia. }
  etrans; [by eapply (outbox_one_step cfg t d n w e o1 w1)|].
  by eapply (IH (S n) w1).
Qed.
End reachable.

(** ** Properties *)

(** C17. The read pipeline: in every reachable state a session has at most one
    read outstanding; a header is read into an empty buffer, and a body is
    read with exactly its eight header bytes in the buffer, the header
    accepted by [checkHead] and the length it announces. *)
Theorem read_pipeline `{SL : SessionStoreLaws D} cfg t (d : D) n w r s :
  reach cfg t d n w -> sessions w !! r = Some s -> (length (reads s) <= 1)%nat /\ read_ok s.
Proof.
  intros Hr E. pose proof (reach_read_ok cfg t d n w Hr r s E) as I. split; [|done].
  destruct I as [->|[[-> _]|(x & _ & _ & _ & _ & ->)]]; simpl; lia.
Qed.

Lemma read_pipeline_witness :
  (length (reads (session_at 0 logins_world)) <= 1)%nat /\ read_ok (session_at 0 logins_world).
Proof.
  apply (read_pipeline demo_cfg 0 (start (new_db [])) 6 logins_world 0); [exact reach_logins|].
  vm_compute. reflexivity.
Defined.

(** C16. The write pipeline: in every reachable state at most one write is
    outstanding on a session, it is the head of the send queue, and running a
    posted [writeImpl] or completing a write, failed or not, never touches an
    empty queue. *)
Theorem write_pipeline_safe `{SL : SessionStoreLaws D} cfg t (d : D) n w r s :
  reach cfg t d n w -> sessions w !! r = Some s ->
  pipe_ok s /\
  (forall o w', step (EvPost r) w = Some (o, w') -> o = Ok tt) /\
  (forall failed o w', step (EvWrite r failed) w = Some (o, w') -> o = Ok tt).
Proof.
  intros Hr Es. pose proof (reach_pipe_ok cfg t d n w r s Hr Es) as I.
  split; [done|]. simpl. unfold on_session. rewrite Es. simpl. split.
  - intros o w'. destruct (run_post s) as [x|] eqn:E; [|done].
    destruct (run_post_ok s x I E) as (s' & -> & _). by intros [= <- _].
  - intros failed o w'. destruct (onWriteComplete failed s) as [x|] eqn:E; [|done].
    destruct (onWriteComplete_ok failed s x I E) as (s' & -> & _). by intros [= <- _].
Qed.

Lemma write_pipeline_safe_witness :
  pipe_ok (session_at 1 (after [EvPost 1; EvPost 1] channel_world)).
Proof.
  apply (write_pipeline_safe demo_cfg 0 (start (new_db [])) 10
           (after [EvPost 1; EvPost 1] channel_world) 1).
  - apply (reach_after (with_channel ++ [EvPost 1; EvPost 1])). vm_compute. reflexivity.
  - vm_compute. reflexivity.
Defined.

(** C6. Messages go out in order: over any run in which no write on the session
    fails, the sequence of its written, queued and posted messages is only
    extended at the end; so none is lost, doubled or overtaken, whatever other
    sessions, channels and timers do meanwhile. *)
Theorem messages_in_order `{SL : SessionStoreLaws D} cfg t (d : D) n w es o w' r s s' :
  st_inv d -> reach cfg t d n w -> EvWrite r true ∉ es ->
  run es w = Some (o, w') -> goes_on o = true ->
  sessions w !! r = Some s -> sessions w' !! r = Some s' ->
  wire s ++ _sque s ++ posts s `prefix_of` wire s' ++ _sque s' ++ posts s'.
Proof. intros Hd Hr He E Ho Es Es'. by eapply outbox_run. Qed.

Definition busy : list event := [EvPost 1; EvWrite 1 false; EvRead 0 true [] [] demo_env; EvPost 1].

Lemma messages_in_order_witness :
  outbox (session_at 1 channel_world) `prefix_of` outbox (session_at 1 (after busy channel_world)).
Proof.
  apply (messages_in_order demo_cfg 0 (start (new_db [])) 8 channel_world busy (Ok tt)
           (after busy channel_world) 1);
    [exact demo_db_inv|exact reach_channel|..|reflexivity| |]; try (vm_compute; reflexivity).
  unfold busy. rewrite !not_elem_of_cons. split_and!; try done. apply not_elem_of_nil.
Defined.

(** The idle timer: once a session is logged in its timer is no longer
    running, so it can never fire again. *)
Theorem login_disarms_timer `{SL : SessionStoreLaws D} cfg t (d : D) n w r s :
  reach cfg t d n w -> sessions w !! r = Some s -> _logined s = true ->
  timer s <> TimerWait /\ step (EvTimerFire r) w = None.
Proof.
  intros Hr Es Hl.
  assert (timer_ok s) as I.
  { eapply (reach_session_inv timer_ok); [|apply timer_ok_step|exact Hr|exact Es].
    intros ? [l re]. done. }
  pose proof (I Hl) as Ht. split; [done|]. simpl. unfold on_session. rewrite Es. simpl.
  unfold timer_fire. by destruct (timer s).
Qed.

Lemma login_disarms_timer_witness : step (EvTimerFire 0) logins_world = None.
Proof.
  apply (login_disarms_timer demo_cfg 0 (start (new_db [])) 6 logins_world 0
           (session_at 0 logins_world)); [exact reach_logins|vm_compute; reflexivity..].
Defined.

(** C30. A login is final: whatever is sent or happens later (repeated logins
    included), a logged-in session keeps its GUID, id, type and private
    address, and stays logged in as long as the object exists. *)
Theorem login_is_final `{SL : SessionStoreLaws D} cfg t (d : D) n w e o w' r s s' :
  st_inv d -> reach cfg t d n w -> step e w = Some (o, w') -> goes_on o = true ->
  sessions w !! r = Some s -> sessions w' !! r = Some s' -> _logined s = true ->
  _logined s' = true /\ identity s' = identity s.
Proof.
  intros Hd Hr E Ho Es Es' Hl. eapply (identity_steps true); [|done].
  eapply (reach_session_step true); eauto.
Qed.

Definition second_login : bytes := login_body (lit "xyz") 1 [Z_byte SESSIONTYPE.ANYONE].

Lemma login_is_final_witness :
  identity (session_at 1 (after (login_packet 1 (lit "xyz") SESSIONTYPE.ANYONE) logins_world)) =
  identity (session_at 1 logins_world).
Proof.
  set (w1 := after [EvRead 1 false (hdr_bytes (req_hdr FUNC_REQ.LOGIN 9)) [] demo_env] logins_world).
  transitivity (identity (session_at 1 w1)); [|vm_compute; reflexivity].
  apply (login_is_final demo_cfg 0 (start (new_db [])) 7 w1
           (EvRead 1 false second_login [] demo_env) (Ok tt)
           (after (login_packet 1 (lit "xyz") SESSIONTYPE.ANYONE) logins_world) 1
           (session_at 1 w1));
    [exact demo_db_inv| |vm_compute; reflexivity..].
  apply (reach_after (two_logins ++ [EvRead 1 false (hdr_bytes (req_hdr FUNC_REQ.LOGIN 9)) [] demo_env])).
  vm_compute. reflexivity.
Defined.

(** A failed write with messages still queued silences the session: nothing
    restarts the pipeline, so from then on no message of the session is
    written, although the session itself goes on. *)
Theorem write_failure_stalls `{SL : SessionStoreLaws D} cfg t (d : D) n w e o w' r s s' :
  st_inv d -> reach cfg t d n w -> step e w = Some (o, w') -> goes_on o = true ->
  sessions w !! r = Some s -> sessions w' !! r = Some s' -> stalled s ->
  stalled s' /\ wire s' = wire s.
Proof.
  intros Hd Hr E Ho Es Es'.
  assert (rtc (sess_step true) s s') as Hs by (eapply (reach_session_step true); eauto).
  clear -Hs. induction Hs as [|s1 s2 s3 H1 H2 IH]; intros Hst; [done|].
  destruct (stalled_step true s1 s2 H1 Hst) as [Hst2 E2]. destruct (IH Hst2). split; congruence.
Qed.

Definition stalling : list event := [EvPost 1; EvPost 1; EvWrite 1 true].

Lemma write_failure_stalls_witness :
  stalled (session_at 1 (after stalling channel_world)) /\
  _started (session_at 1 (after stalling channel_world)) = true /\
  stalled (session_at 1 (after (stalling ++ [EvClock 5]) channel_world)).
Proof.
  assert (stalled (session_at 1 (after stalling channel_world))) as Hst by (split; by vm_compute).
  split; [done|]. split; [by vm_compute|].
  apply (write_failure_stalls demo_cfg 0 (start (new_db [])) 11 (after stalling channel_world)
           (EvClock 5) (Ok tt) (after (stalling ++ [EvClock 5]) channel_world) 1
           (session_at 1 (after stalling channel_world)));
    [exact demo_db_inv| |vm_compute; reflexivity..|exact Hst].
  apply (reach_after (with_channel ++ stalling)). vm_compute. reflexivity.
Defined.
