(* ===== verification/Typing.v ===== *)
(** * Types of the running program

    Every number that a session of the running program holds is in the range of
    its C++ type, and its receive buffer is bounded: an invariant of the machine
    of [SessionMachine.v], carried over to the program. *)
From stdpp Require Import relations.
From S2P Require Import Prelude Protocol SessionStore SessionDb World SessionOut Session Frames Server Scenario SessionMachine SessionFacts.

(** The longest packet: a header and the body that 16 bits can announce. *)
Definition max_packet : Z := 8 + 65535.

Record session_typed (cfg : config) (s : CSession) : Prop := {
  st_timeout : _timeout s = freeSessionExpired cfg;
  st_id : u32 (_id s);
  st_type : u32 (_session_type s);
  st_addr : u32 (_private_addr s);
  st_hdr : hdr_wf (_hdr s);
  st_reads : Forall (fun op => 0 <= read_len op < 2 ^ 16) (reads s);
  st_rbuf : Z.of_nat (length (_rbuf s)) <= max_packet
}.

Lemma hdr_of_bytes_wf l : hdr_wf (hdr_of_bytes l).
Proof.
  unfold hdr_wf, hdr_of_bytes. cbn [usBodyLen]. pose proof (le_Z_range (take 2 (drop 6 l))) as Hr.
  assert (Z.of_nat (length (take 2 (drop 6 l))) <= 2) as Hl by (rewrite length_take; lia).
  pose proof (Z.pow_le_mono_r 256 _ 2 ltac:(lia) Hl). lia.
Qed.

Lemma stopped_typed cfg s : session_typed cfg s -> session_typed cfg (timer_cancel s).
Proof. intros []. unfold timer_cancel. by destruct (timer s). Qed.

Lemma session_typed_step cfg s s' :
  sess_step true s s' -> read_ok s -> session_typed cfg s -> session_typed cfg s'.
Proof.
  intros Hs Hr I. unfold max_packet in *.
  assert (forall s', core s' = core s -> session_typed cfg s') as Hcore.
  { intros s1 Hc. pose proof (f_equal _timeout Hc) as Et. simpl in Et.
    apply core_eq_io in Hc as (?&?&?&?&?&?&?&?&?&?&?&?&?&?&?).
    destruct I. split; congruence. }
  destruct Hs as [s s' [Hc _]|s|s g a t Hl Ha Ht|s v Hl Hv|s Hl|s s' Hf|s Hf|s|s s' Hp|failed s s' _ Hw
    |s Hn Hb Hst|s data Hn Hb Hd Hh|s n data Hn Hd|s Hn Hd|s op h b Hn Hh Hb]; ss_updates.
  - by apply Hcore.
  - unfold stopped. apply (stopped_typed cfg) in I. by destruct I.
  - by destruct I.
  - by destruct I.
  - apply stopped_typed. by destruct I.
  - by destruct I.
  - by destruct I.
  - by destruct I.
  - by destruct I.
  - by destruct I.
  - destruct I. split; simpl; try done. by repeat constructor.
  - destruct I. pose proof (hdr_of_bytes_wf data) as Hw. unfold hdr_wf in Hw.
    split; simpl; try done; [by apply Forall_singleton|]. unfold max_packet, sizeof_hdr in *. lia.
  - destruct I as [????? Hrs ?]. rewrite Hn in Hrs. apply Forall_cons in Hrs as [Hrl _]. simpl in Hrl.
    assert (length (_rbuf s) = sizeof_hdr) as Hlen.
    { destruct Hr as [Hr|[[Hr _]|(x & Hx & -> & _)]]; congruence. }
    split; simpl; try done. rewrite length_app, Hlen. unfold max_packet, sizeof_hdr. lia.
  - destruct I. split; simpl; try done.
  - destruct I as [????? Hrs ?]. rewrite Hn in Hrs. apply Forall_cons in Hrs as [Hrl _].
    assert (Z.of_nat (length (_rbuf s)) <= 8) as Hlen.
    { destruct Hr as [Hr|[[_ ->]|(x & Hx & -> & _)]]; [congruence|simpl; lia|].
      rewrite Hx. unfold sizeof_hdr. lia. }
    split; simpl; try done; [destruct Hh as [-> | ->]; [done|apply hdr_of_bytes_wf]|].
    unfold max_packet. lia.
Qed.

(** ** Property *)

(** C31. Every value of the running program that a session or the server keeps
    in an unsigned integer is in the range of its C++ type: the ids, types,
    addresses and timeouts of sessions, the lengths in their headers and of
    their outstanding reads, the next session id and the connection counter;
    and no session's receive buffer ever holds more than one packet of the
    largest size, 8 + 65535 bytes. *)
Theorem sessions_well_typed `{SessionStore D} cfg t (d : D) n w :
  u32 (freeSessionExpired cfg) -> reach cfg t d n w ->
  u32 (_session_id (mgr w)) /\ u32 (_conn_num w) /\
  forall r s, sessions w !! r = Some s -> u32 (_timeout s) /\ session_typed cfg s.
Proof.
  intros Hc Hr. destruct (reach_ids_ok _ _ _ _ _ Hr) as (Hs & Hn & _). split_and!; [done..|].
  intros r s Es. enough (session_typed cfg s) as I by (split; [by rewrite (st_timeout _ _ I)|done]).
  enough (read_ok s /\ session_typed cfg s) by tauto.
  apply (reach_session_inv (fun s => read_ok s /\ session_typed cfg s) cfg t d n w r s).
  - intros s0 Hi. split; [by eapply sess_init_read_ok|]. destruct Hi. by split.
  - intros s1 s2 Hst [Hrd Ht]. split; [by eapply read_ok_step|by eapply session_typed_step].
  - done.
  - done.
Qed.

Lemma sessions_well_typed_witness :
  u32 (_id (session_at 0 logins_world)) /\ _id (session_at 0 logins_world) = 1000.
Proof.
  split; [|by vm_compute].
  destruct (sessions_well_typed demo_cfg 0 (start (new_db [])) 6 logins_world
    ltac:(by vm_compute) reach_logins) as (_ & _ & Hs).
  exact (st_id _ _ (proj2 (Hs 0%nat (session_at 0 logins_world) ltac:(vm_compute; reflexivity)))).
Defined.
