(* ===== verification/RequestFacts.v ===== *)
(** * What the handlers do: teardown and proxy requests

    Functional descriptions of [CSession::stop], [CChannel::stop],
    [CSession::onReqProxy] and the dispatch of packets, branch by branch. *)
From S2P Require Import Prelude Protocol SafeContainers SessionStore SessionDb World SessionOut Channel SessionMgr Session Server Scenario Frames SessionMachine.

Section lemmas.
Context {D : Type} `{SessionStore D}.
Implicit Types (w : World D) (r : sref) (c : cref).

(** ** Teardown *)

Lemma sessions_stopAll m w : sessions (stopAll m w) = sessions w.
Proof. unfold stopAll. by induction (map_to_list m).*2. Qed.

(** How often [stopAll] reaches a channel. *)
Definition occurrences (m : CChannelMap.Map) c : nat := length (filter (fun x => x = c) (map_to_list m).*2).

Lemma channels_stopAll m w c :
  channels (stopAll m w) !! c =
  (fun ch => set_stop_posts (occurrences m c + stop_posts ch) ch) <$> channels w !! c.
Proof.
  unfold stopAll, occurrences. induction (map_to_list m).*2 as [|x l IH]; simpl.
  - destruct (channels w !! c) as [[]|]; done.
  - rewrite filter_cons. destruct (decide (x = c)) as [->|Hne].
    + rewrite lookup_alter_eq, IH. by destruct (channels w !! c).
    + by rewrite lookup_alter_ne, IH.
Qed.

Lemma occurrences_pos m id c : m !! id = Some c -> (0 < occurrences m c)%nat.
Proof.
  intros E. unfold occurrences.
  assert (c ∈ filter (fun x => x = c) (map_to_list m).*2) as Hin.
  { apply list_elem_of_filter. split; [done|]. apply list_elem_of_fmap.
    exists (id, c). split; [done|]. by apply elem_of_map_to_list. }
  destruct (filter _ _); [by apply not_elem_of_nil in Hin|simpl; lia].
Qed.

Lemma occurrences_none m c : (forall id, m !! id <> Some c) -> occurrences m c = 0%nat.
Proof.
  intros Hn. unfold occurrences. destruct (filter _ _) as [|x l] eqn:E; [done|]. exfalso.
  assert (x ∈ filter (fun x => x = c) (map_to_list m).*2) as Hin by (rewrite E; apply list_elem_of_here).
  apply list_elem_of_filter in Hin as [-> Hin]. apply list_elem_of_fmap in Hin as ([id c'] & -> & Hin).
  apply elem_of_map_to_list in Hin. by apply (Hn id).
Qed.

Lemma occurrences_zero m c : CChannelMap.size m = 0%nat -> occurrences m c = 0%nat.
Proof. intros ->%map_size_empty_inv. by unfold occurrences; rewrite map_to_list_empty. Qed.

(** A session after [stop()], and how its channels are told. *)
Definition torn_down (s : CSession) : CSession := set_dst ∅ (set_src ∅ (stopped s)).

Lemma sessions_stop_src r s w :
  sessions w !! r = Some s ->
  sessions (stop_src_channels r w) = <[r := set_src ∅ s]> (sessions w) /\
  (forall c, channels (stop_src_channels r w) !! c =
     (fun ch => set_stop_posts (occurrences (_src_channels s) c + stop_posts ch) ch) <$> channels w !! c) /\
  mgr (stop_src_channels r w) = mgr w.
Proof.
  intros Es. unfold stop_src_channels. rewrite Es. case_match eqn:E.
  - simpl. rewrite sessions_stopAll, (alter_insert_at _ r s) by done. split_and!; [done| |].
    + intros c. apply channels_stopAll.
    + unfold stopAll. by induction (map_to_list _).*2.
  - apply Nat.ltb_ge in E. assert (CChannelMap.size (_src_channels s) = 0%nat) as E0 by lia.
    split_and!; [|intros c; rewrite occurrences_zero by done; by destruct (channels w !! c) as [[]|]|done].
    apply map_size_empty_inv in E0. rewrite insert_id; [done|]. rewrite Es. f_equal.
    destruct s. simpl in E0. by subst.
Qed.

Lemma sessions_stop_dst r s w :
  sessions w !! r = Some s ->
  sessions (stop_dst_channels r w) = <[r := set_dst ∅ s]> (sessions w) /\
  (forall c, channels (stop_dst_channels r w) !! c =
     (fun ch => set_stop_posts (occurrences (_dst_channels s) c + stop_posts ch) ch) <$> channels w !! c) /\
  mgr (stop_dst_channels r w) = mgr w.
Proof.
  intros Es. unfold stop_dst_channels. rewrite Es. case_match eqn:E.
  - simpl. rewrite sessions_stopAll, (alter_insert_at _ r s) by done. split_and!; [done| |].
    + intros c. apply channels_stopAll.
    + unfold stopAll. by induction (map_to_list _).*2.
  - apply Nat.ltb_ge in E. assert (CChannelMap.size (_dst_channels s) = 0%nat) as E0 by lia.
    split_and!; [|intros c; rewrite occurrences_zero by done; by destruct (channels w !! c) as [[]|]|done].
    apply map_size_empty_inv in E0. rewrite insert_id; [done|]. rewrite Es. f_equal.
    destruct s. simpl in E0. by subst.
Qed.

Lemma stopped_maps s :
  _src_channels (stopped s) = _src_channels s /\ _dst_channels (stopped s) = _dst_channels s.
Proof. unfold stopped, timer_cancel. by destruct (timer s). Qed.

Lemma stop_local_spec r s w :
  sessions w !! r = Some s ->
  sessions (stop_local r w) = <[r := torn_down s]> (sessions w) /\
  (forall c, channels (stop_local r w) !! c =
     (fun ch => set_stop_posts
        (occurrences (_dst_channels s) c + (occurrences (_src_channels s) c + stop_posts ch)) ch)
     <$> channels w !! c) /\
  mgr (stop_local r w) = mgr w.
Proof.
  intros Es. unfold stop_local.
  change (fun s => set_started false _) with stopped.
  set (w1 := upd_session r stopped w).
  assert (sessions w1 = <[r := stopped s]> (sessions w)) as E1 by by apply alter_insert_at.
  destruct (stopped_maps s) as [Hsrc Hdst].
  destruct (sessions_stop_src r (stopped s) w1) as (S2 & C2 & M2); [by rewrite E1, lookup_insert_eq|].
  destruct (sessions_stop_dst r (set_src ∅ (stopped s)) (stop_src_channels r w1)) as (S3 & C3 & M3);
    [by rewrite S2, lookup_insert_eq|].
  rewrite S3, S2, E1, !insert_insert_eq. split_and!; [done| |by rewrite M3, M2].
  intros c. rewrite C3, C2, Hsrc. change (_dst_channels (set_src ∅ (stopped s))) with (_dst_channels (stopped s)).
  rewrite Hdst. simpl. by destruct (channels w !! c).
Qed.

(** Neither the sessions' nor the channels' part of [stop()] touches the
    server object. *)
Lemma stopAll_server m w :
  _conn_num (stopAll m w) = _conn_num w /\ server_alive (stopAll m w) = server_alive w.
Proof. unfold stopAll. by induction (map_to_list m).*2. Qed.

Lemma stop_local_server r w :
  _conn_num (stop_local r w) = _conn_num w /\ server_alive (stop_local r w) = server_alive w.
Proof.
  unfold stop_local, stop_src_channels, stop_dst_channels.
  repeat (case_match; simpl; rewrite ?(proj1 (stopAll_server _ _)), ?(proj2 (stopAll_server _ _)); try done).
Qed.

Lemma guid_set_remove (g : bytes) (gs : gset bytes) : (CSafeSet.remove g gs).2 = gs ∖ {[g]}.
Proof. unfold CSafeSet.remove. case_decide; [|done]. simpl. set_solver. Qed.

Lemma closeSession_same r w :
  sessions (closeSessionWithLock r w) = sessions w /\ channels (closeSessionWithLock r w) = channels w.
Proof. unfold closeSessionWithLock. by repeat case_match. Qed.

Lemma stop_idempotent r w : CSession_stop r (CSession_stop r w) = CSession_stop r w.
Proof.
  set (w' := CSession_stop r w).
  assert (match sessions w' !! r with
          | None => True
          | Some s => _started s = false /\ set_sock None None (timer_cancel s) = s end) as Hw.
  { unfold w', CSession_stop. destruct (sessions w !! r) as [s|] eqn:Es; [|by rewrite Es].
    destruct (_started s) eqn:Est.
    - destruct (closeSession_same r (stop_local r w)) as [-> _].
      destruct (stop_local_spec r s w Es) as [-> _]. rewrite lookup_insert_eq.
      unfold torn_down, stopped, timer_cancel. destruct (timer s) eqn:Et; simpl; by rewrite ?Et.
    - simpl. rewrite lookup_alter_eq, Es. simpl. unfold timer_cancel.
      destruct (timer s) eqn:Et; simpl; by rewrite ?Et. }
  unfold CSession_stop at 1. destruct (sessions w' !! r) as [s|] eqn:Es; [|done].
  destruct Hw as [-> Hid]. clearbody w'. destruct w'. unfold upd_session, set_sessions. simpl in *.
  f_equal. by rewrite (alter_insert_at _ r s), Hid, insert_id.
Qed.

(** ** Channel stop *)

Definition closed_ends (ch : CChannel) : CChannel :=
  set_dst_end (CEnd_stop (_dst_end ch)) (set_src_end (CEnd_stop (_src_end ch)) (set_ch_started false ch)).

(** [closeSrcChannel] and [closeDstChannel] on a session. *)
Definition src_closed (ch : CChannel) (s : CSession) : CSession :=
  set_posts (posts s ++ [stopproxy_msg (ch_id ch) (_local_ep (_src_end ch))])
    (set_src (delete (ch_id ch) (_src_channels s)) s).
Definition dst_closed (ch : CChannel) (s : CSession) : CSession :=
  set_posts (posts s ++ [stopproxy_msg (ch_id ch) (_local_ep (_dst_end ch))])
    (set_dst (delete (ch_id ch) (_dst_channels s)) s).

Lemma sessions_closeSrc r ch s w :
  sessions w !! r = Some s ->
  sessions (closeSrcChannel r ch w) = <[r := src_closed ch s]> (sessions w).
Proof.
  intros E. unfold closeSrcChannel, onRespStopProxy, doWrite. simpl.
  rewrite (alter_insert_at _ r s (sessions w) E), CChannelMap.remove_delete.
  erewrite alter_insert_at by apply lookup_insert_eq. by rewrite insert_insert_eq.
Qed.

Lemma sessions_closeDst r ch s w :
  sessions w !! r = Some s ->
  sessions (closeDstChannel r ch w) = <[r := dst_closed ch s]> (sessions w).
Proof.
  intros E. unfold closeDstChannel, onRespStopProxy, doWrite. simpl.
  rewrite (alter_insert_at _ r s (sessions w) E), CChannelMap.remove_delete.
  erewrite alter_insert_at by apply lookup_insert_eq. by rewrite insert_insert_eq.
Qed.


Lemma lock_session_Some r s w : sessions w !! r = Some s -> lock_session (Some r) w = Some r.
Proof. intros E. simpl. by rewrite E. Qed.

Lemma CChannel_stop_spec c ch r1 s1 r2 s2 w :
  channels w !! c = Some ch -> ch_started ch = true ->
  _owner_ss (_src_end ch) = Some r1 -> _owner_ss (_dst_end ch) = Some r2 -> r1 <> r2 ->
  sessions w !! r1 = Some s1 -> sessions w !! r2 = Some s2 ->
  sessions (CChannel_stop c w) = <[r2 := dst_closed ch s2]> (<[r1 := src_closed ch s1]> (sessions w)) /\
  channels (CChannel_stop c w) = <[c := closed_ends ch]> (channels w).
Proof.
  intros Ec Hst O1 O2 Hne E1 E2. unfold CChannel_stop. rewrite Ec, Hst.
  set (w1 := upd_channel c (set_ch_started false) w).
  assert (sessions w1 = sessions w) as S1 by done.
  assert (channels w1 = <[c := set_ch_started false ch]> (channels w)) as C1 by by apply alter_insert_at.
  clearbody w1. rewrite O1, O2, (lock_session_Some r1 s1 w1) by congruence.
  set (w2 := closeSrcChannel r1 ch w1).
  assert (sessions w2 = <[r1 := src_closed ch s1]> (sessions w)) as S2.
  { unfold w2. rewrite (sessions_closeSrc r1 ch s1); congruence. }
  assert (sessions w2 !! r2 = Some s2) as E2' by by rewrite S2, lookup_insert_ne.
  assert (channels w2 = channels w1) as C2 by done. clearbody w2.
  rewrite (lock_session_Some r2 s2 w2 E2'). split.
  - transitivity (sessions (closeDstChannel r2 ch w2)); [done|].
    by rewrite (sessions_closeDst r2 ch s2 w2 E2'), S2.
  - transitivity (alter (fun ch => set_dst_end (CEnd_stop (_dst_end ch))
                            (set_src_end (CEnd_stop (_src_end ch)) ch)) c (channels w2)); [done|].
    rewrite C2, C1.
    erewrite alter_insert_at by apply lookup_insert_eq. by rewrite insert_insert_eq.
Qed.

Lemma CChannel_stop_server c w :
  mgr (CChannel_stop c w) = mgr w /\ _conn_num (CChannel_stop c w) = _conn_num w.
Proof. unfold CChannel_stop, closeSrcChannel, closeDstChannel. by repeat (case_match; simpl; try done). Qed.

(** ** Proxy requests *)

(** The end that [init] makes for a session with both endpoints known. *)
Definition bound_end (cfg : config) (t : Z) r (s : CSession) (l re : endpoint) (port : Z) : CEnd :=
  set_remote (mkEndpoint (ep_addr re) 0)
    (set_local (mkEndpoint (ep_addr l) port)
      (set_owner (Some r) (_id s) (new_end (channMTU cfg) (channPortExpired cfg) t))).

Lemma CEnd_init_spec cfg t r s l re port :
  sock_local s = Some l -> sock_remote s = Some re ->
  CEnd_init r s (Some port) (new_end (channMTU cfg) (channPortExpired cfg) t) =
  (true, bound_end cfg t r s l re port).
Proof.
  intros El Er. unfold CEnd_init. rewrite El, Er. unfold bound_end, new_end, updateTime. simpl.
  by destruct (0 <? channPortExpired cfg).
Qed.

(** The channel that a granted request leaves behind. *)
Definition granted_channel (cfg : config) (id : Z) (e1 e2 : CEnd) (t : Z) : CChannel :=
  start_channel (set_dst_end e2 (set_src_end e1 (new_channel cfg id t))).

Lemma CChannel_init_spec c src s1 dst s2 l1 e1 l2 e2 p1 p2 id cfg t w :
  channels w !! c = Some (new_channel cfg id t) ->
  sessions w !! src = Some s1 -> sessions w !! dst = Some s2 -> src <> dst ->
  sock_local s1 = Some l1 -> sock_remote s1 = Some e1 ->
  sock_local s2 = Some l2 -> sock_remote s2 = Some e2 ->
  _src_channels s1 !! id = None -> _dst_channels s2 !! id = None ->
  exists w', CChannel_init c src dst (Some p1) (Some p2) w = (true, w') /\
    sessions w' = <[dst := set_dst (<[id := c]> (_dst_channels s2)) s2]>
                    (<[src := set_src (<[id := c]> (_src_channels s1)) s1]> (sessions w)) /\
    channels w' = <[c := set_dst_end (bound_end cfg t dst s2 l2 e2 p2)
                    (set_src_end (bound_end cfg t src s1 l1 e1 p1) (new_channel cfg id t))]> (channels w) /\
    mgr w' = mgr w.
Proof.
  intros Ec E1 E2 Hne L1 R1 L2 R2 M1 M2. unfold CChannel_init. rewrite Ec, E1, E2. simpl.
  rewrite (CEnd_init_spec cfg t src s1 l1 e1 p1 L1 R1). simpl.
  rewrite (CEnd_init_spec cfg t dst s2 l2 e2 p2 L2 R2). simpl.
  unfold addSrcChannel, addDstChannel, CChannelMap.insert. simpl. rewrite E1, M1. simpl.
  rewrite lookup_alter_ne, E2, M2 by done. simpl. eexists. split; [done|]. split_and!; simpl; [| |done].
  - rewrite (alter_insert_at _ src s1) by done.
    rewrite (alter_insert_at _ dst s2) by by rewrite lookup_insert_ne. done.
  - rewrite (alter_insert_at _ c _ _ Ec). erewrite alter_insert_at by apply lookup_insert_eq.
    by rewrite insert_insert_eq.
Qed.

Lemma sessions_doWrite r msg s w :
  msg <> [] -> sessions w !! r = Some s ->
  sessions (doWrite r msg w) = <[r := set_posts (posts s ++ [msg]) s]> (sessions w).
Proof.
  intros Hm E. unfold doWrite. destruct msg as [|b l]; [done|]. simpl. by rewrite (alter_insert_at _ r s _ E).
Qed.

Lemma owner_bound_end cfg t r s l e port : _owner_ss (bound_end cfg t r s l e port) = Some r.
Proof. done. Qed.

Lemma dst_end_granted cfg id e1 e2 t : _dst_end (granted_channel cfg id e1 e2 t) = e2.
Proof. unfold granted_channel, start_channel. simpl. by case_match. Qed.

Lemma onReqProxy_granted env src s1 dst s2 l1 e1 l2 e2 p1 p2 req w :
  server_alive w = true -> _ss_map (mgr w) !! px_uiDstId req = Some dst ->
  sessions w !! src = Some s1 -> sessions w !! dst = Some s2 -> src <> dst -> _started s2 = true ->
  sock_local s1 = Some l1 -> sock_remote s1 = Some e1 ->
  sock_local s2 = Some l2 -> sock_remote s2 = Some e2 ->
  env = {| ctor_ok := true; src_port := Some p1; dst_port := Some p2 |} ->
  _src_channels s1 !! _channel_id (mgr w) = None -> _dst_channels s2 !! _channel_id (mgr w) = None ->
  let id := _channel_id (mgr w) in
  let c := heap_next w in
  let ch := granted_channel (gConfig w) id (bound_end (gConfig w) (now w) src s1 l1 e1 p1)
              (bound_end (gConfig w) (now w) dst s2 l2 e2 p2) (now w) in
  exists w', onReqProxy env src req w = (Ok tt, w') /\
    channels w' = <[c := ch]> (channels w) /\
    sessions w' =
      <[src := set_posts (posts s1 ++ [proxy_ok_msg req ch])
                 (set_src (<[id := c]> (_src_channels s1)) s1)]>
      (<[dst := set_posts (posts s2 ++ [access_msg s2 req ch])
                 (set_dst (<[id := c]> (_dst_channels s2)) s2)]> (sessions w)) /\
    mgr w' = set_channel_id (wrap 32 (id + 1)) (mgr w).
Proof.
  intros Ha Hd E1 E2 Hne Hst L1 R1 L2 R2 -> M1 M2 id c ch.
  unfold onReqProxy, createChannel, getSessionWithLock. rewrite Ha, Hd, (lock_session_Some dst s2 w E2). simpl.
  match goal with |- context [CChannel_init _ src dst _ _ ?x] => set (w1 := x) end.
  change (heap_next w) with c.
  destruct (CChannel_init_spec c src s1 dst s2 l1 e1 l2 e2 p1 p2 id (gConfig w) (now w) w1)
    as (w2 & -> & S2 & C2 & G2); try done; [simpl; by rewrite lookup_insert_eq|].
  change (sessions w1) with (sessions w) in S2.
  change (channels w1) with (<[c := new_channel (gConfig w) id (now w)]> (channels w)) in C2.
  rewrite insert_insert_eq in C2. change (mgr w1) with (set_channel_id (wrap 32 (id + 1)) (mgr w)) in G2.
  clearbody w1. unfold dst_session. rewrite C2, lookup_insert_eq. cbn [_dst_end set_dst_end].
  rewrite owner_bound_end, (lock_session_Some dst _ w2) by (by rewrite S2, lookup_insert_eq).
  unfold isRuning. rewrite S2, lookup_insert_eq. cbn [_started set_dst]. rewrite Hst. cbn [negb].
  assert (channels w2 !! c = Some (set_dst_end (bound_end (gConfig w) (now w) dst s2 l2 e2 p2)
    (set_src_end (bound_end (gConfig w) (now w) src s1 l1 e1 p1) (new_channel (gConfig w) id (now w)))))
    as Ech by by rewrite C2, lookup_insert_eq.
  set (w3 := CChannel_start c w2).
  assert (channels w3 = <[c := ch]> (channels w)) as C3.
  { unfold w3. simpl. rewrite (alter_insert_at _ c _ (channels w2) Ech).
    by rewrite C2, insert_insert_eq. }
  assert (sessions w3 = sessions w2) as S3 by done. assert (mgr w3 = mgr w2) as G3 by done.
  clearbody w3. rewrite S2 in S3. rewrite lookup_alter_eq, lookup_insert_eq. cbn [fmap option_fmap option_map].
  change (start_channel _) with ch.
  eexists. split; [done|]. unfold onRespProxyOk, onRespAccess. rewrite S3, lookup_insert_eq.
  split_and!.
  - by rewrite <-C3.
  - erewrite sessions_doWrite; [| done |].
    2: { erewrite sessions_doWrite; [|done|by rewrite S3, lookup_insert_eq].
         rewrite lookup_insert_ne by done. rewrite S3, lookup_insert_ne by done. apply lookup_insert_eq. }
    erewrite sessions_doWrite; [|done|by rewrite S3, lookup_insert_eq].
    rewrite S3, insert_insert_eq. rewrite (insert_insert_ne _ dst src) by done.
    by rewrite insert_insert_eq.
  - by rewrite <-G2, <-G3.
Qed.
End lemmas.

(** ** Properties *)

(** C19. [CSession::stop()] on a started session: the session is off, its socket
    closed, its timer not running and both channel maps empty; every channel
    it took part in has been told to stop, at least once, and is otherwise as
    before; the other channels and sessions do not change.  In the manager, if
    the session was logged in its GUID leaves the set, its id the directory and
    the database is told to delete it; if it was not, the manager is as before
    (so that a GUID entered by a login that failed later stays).  The
    connection counter of a live server goes down by one.  A second [stop()]
    does nothing. *)
Theorem session_stop_spec `{SessionStore D} (w : World D) r s :
  sessions w !! r = Some s -> _started s = true ->
  let w' := CSession_stop r w in
  let m := mgr w in
  sessions w' = <[r := torn_down s]> (sessions w) /\
  (forall id c ch,
     (_src_channels s !! id = Some c \/ _dst_channels s !! id = Some c) -> channels w !! c = Some ch ->
     exists k, channels w' !! c = Some (set_stop_posts (S k + stop_posts ch)%nat ch)) /\
  (forall c, (forall id, _src_channels s !! id <> Some c /\ _dst_channels s !! id <> Some c) ->
     channels w' !! c = channels w !! c) /\
  mgr w' =
    (if _logined s
     then mkMgr (delete (_id s) (_ss_map m)) (st_del (_id s) (_ss_db m)) (_guid_set m ∖ {[_guid s]})
            (_session_id m) (_channel_id m)
     else m) /\
  _conn_num w' = (if server_alive w then wrap 32 (_conn_num w - 1) else _conn_num w) /\
  CSession_stop r w' = w'.
Proof.
  intros Es Hst. cbn zeta. rewrite stop_idempotent.
  unfold CSession_stop. rewrite Es, Hst.
  destruct (stop_local_spec r s w Es) as (S1 & C1 & M1).
  destruct (stop_local_server r w) as [N1 A1].
  destruct (closeSession_same r (stop_local r w)) as [-> ->].
  assert (_logined (torn_down s) = _logined s /\ _guid (torn_down s) = _guid s /\ _id (torn_down s) = _id s)
    as (El & Eg & Ei) by (unfold torn_down, stopped, timer_cancel; by destruct (timer s)).
  split_and!; [done| | | | |done].
  - intros id c ch Hc Ec. rewrite C1, Ec. simpl.
    assert (0 < occurrences (_dst_channels s) c + occurrences (_src_channels s) c)%nat as Hp.
    { destruct Hc as [Hc|Hc]; pose proof (occurrences_pos _ _ _ Hc); lia. }
    exists (occurrences (_dst_channels s) c + occurrences (_src_channels s) c - 1)%nat.
    do 2 f_equal. lia.
  - intros c Hn. rewrite C1, !occurrences_none by apply Hn. by destruct (channels w !! c) as [[]|].
  - unfold closeSessionWithLock. rewrite S1, lookup_insert_eq, El, Eg, Ei.
    destruct (_logined s); case_match; simpl; rewrite ?guid_set_remove, M1; done.
  - unfold closeSessionWithLock. rewrite S1, lookup_insert_eq, El. rewrite <-A1, <-N1.
    destruct (_logined s); simpl; by case_match.
Qed.

Lemma session_stop_spec_witness :
  _started (session_at 1 channel_world) = true /\
  _ss_map (mgr (CSession_stop 1 channel_world)) =
    delete (_id (session_at 1 channel_world)) (_ss_map (mgr channel_world)) /\
  CSession_stop 1 (CSession_stop 1 channel_world) = CSession_stop 1 channel_world.
Proof.
  split; [by vm_compute|].
  destruct (session_stop_spec channel_world 1 (session_at 1 channel_world)) as (_ & _ & _ & M & _ & I);
    [by vm_compute..|].
  split; [|exact I]. rewrite M. vm_compute. reflexivity.
Defined.

(** C20. [CChannel::stop()] on a started channel both of whose ends still own a
    live session (two different ones; an end whose port has expired owns none):
    both sessions are told with one STOPPROXY message each, carrying the
    channel id and their own side's address and port; the channel leaves both
    maps, both sockets are closed and the channel is off; no other session or
    channel changes, nor do the manager and the connection counter. *)
Theorem channel_stop_spec `{SessionStore D} (w : World D) c ch r1 s1 r2 s2 :
  channels w !! c = Some ch -> ch_started ch = true ->
  _owner_ss (_src_end ch) = Some r1 -> _owner_ss (_dst_end ch) = Some r2 -> r1 <> r2 ->
  sessions w !! r1 = Some s1 -> sessions w !! r2 = Some s2 ->
  let w' := CChannel_stop c w in
  sessions w' = <[r2 := dst_closed ch s2]> (<[r1 := src_closed ch s1]> (sessions w)) /\
  channels w' = <[c := closed_ends ch]> (channels w) /\
  mgr w' = mgr w /\ _conn_num w' = _conn_num w /\
  ch_started (closed_ends ch) = false /\
  sock_open (_src_end (closed_ends ch)) = false /\ sock_open (_dst_end (closed_ends ch)) = false /\
  parse_frame (stopproxy_msg (ch_id ch) (_local_ep (_src_end ch))) =
    Some (with_body_len stopproxy_hdr 10,
          le_bytes 4 (ch_id ch) ++ le_bytes 4 (ep_addr (_local_ep (_src_end ch)))
          ++ le_bytes 2 (host_to_network_short (ep_port (_local_ep (_src_end ch))))).
Proof.
  intros Ec Hst O1 O2 Hne E1 E2.
  destruct (CChannel_stop_spec c ch r1 s1 r2 s2 w Ec Hst O1 O2 Hne E1 E2) as [S C].
  destruct (CChannel_stop_server c w) as [M N]. by split_and!.
Qed.

Lemma channel_stop_spec_witness :
  posts (session_at 0 (CChannel_stop 2 channel_world)) =
  posts (session_at 0 channel_world) ++ [stopproxy_msg 1 (mkEndpoint 3232235521 50002)].
Proof.
  destruct (channel_stop_spec channel_world 2 (channel_at 2 channel_world) 1
              (session_at 1 channel_world) 0 (session_at 0 channel_world)) as [S _];
    [vm_compute; congruence..|].
  unfold session_at at 1. rewrite S, lookup_insert_eq. vm_compute. reflexivity.
Defined.

(** C18. A granted proxy request: when the destination, another session than
    the requester, is in the directory and running, the sockets are alive and the system gives two ports, a channel
    with the next channel id is created, bound on both sides to the local
    addresses of the two sessions, entered in both channel maps and started;
    the destination gets exactly one ACCESS message and the requester exactly
    one positive PROXY answer with the channel's addresses; no other session,
    channel or manager field changes. *)
Theorem proxy_granted `{SessionStore D} (w : World D) env src s1 dst s2 l1 e1 l2 e2 p1 p2 req :
  server_alive w = true -> _ss_map (mgr w) !! px_uiDstId req = Some dst ->
  sessions w !! src = Some s1 -> sessions w !! dst = Some s2 -> src <> dst -> _started s2 = true ->
  sock_local s1 = Some l1 -> sock_remote s1 = Some e1 ->
  sock_local s2 = Some l2 -> sock_remote s2 = Some e2 ->
  env = {| ctor_ok := true; src_port := Some p1; dst_port := Some p2 |} ->
  _src_channels s1 !! _channel_id (mgr w) = None -> _dst_channels s2 !! _channel_id (mgr w) = None ->
  exists w' ch, onReqProxy env src req w = (Ok tt, w') /\
    channels w' = <[heap_next w := ch]> (channels w) /\
    ch_id ch = _channel_id (mgr w) /\ ch_started ch = true /\ up_at ch = CoInit /\ down_at ch = CoInit /\
    _local_ep (_src_end ch) = mkEndpoint (ep_addr l1) p1 /\
    _local_ep (_dst_end ch) = mkEndpoint (ep_addr l2) p2 /\
    sessions w' =
      <[src := set_posts (posts s1 ++ [proxy_ok_msg req ch])
                 (set_src (<[ch_id ch := heap_next w]> (_src_channels s1)) s1)]>
      (<[dst := set_posts (posts s2 ++ [access_msg s2 req ch])
                 (set_dst (<[ch_id ch := heap_next w]> (_dst_channels s2)) s2)]> (sessions w)) /\
    mgr w' = set_channel_id (wrap 32 (_channel_id (mgr w) + 1)) (mgr w).
Proof.
  intros Ha Hd E1 E2 Hne Hst L1 R1 L2 R2 He M1 M2.
  destruct (onReqProxy_granted env src s1 dst s2 l1 e1 l2 e2 p1 p2 req w) as (w' & E & C & S & G); try done.
  eexists w', _. split; [exact E|]. split; [exact C|].
  assert (forall cfg id a b t, ch_id (granted_channel cfg id a b t) = id /\
    ch_started (granted_channel cfg id a b t) = true /\ up_at (granted_channel cfg id a b t) = CoInit /\
    down_at (granted_channel cfg id a b t) = CoInit /\ _src_end (granted_channel cfg id a b t) = a) as Hg.
  { intros. unfold granted_channel, start_channel. simpl. by case_match. }
  assert (forall cfg t r s l e p, _local_ep (bound_end cfg t r s l e p) = mkEndpoint (ep_addr l) p) as Hb.
  { done. }
  edestruct Hg as (G1 & G2 & G3 & G4 & G5). rewrite G1, G2, G3, G4, G5, dst_end_granted, !Hb.
  split_and!; done.
Qed.

Lemma proxy_granted_witness :
  let req := {| px_header := req_hdr FUNC_REQ.PROXY 9; px_uiId := 1001; px_uiDstId := 1000;
                px_szGameId := [] |} in
  exists w' ch, onReqProxy demo_env 1 req logins_world = (Ok tt, w') /\
    channels w' = <[2%nat := ch]> (channels logins_world).
Proof.
  intros req.
  destruct (proxy_granted logins_world demo_env 1 (session_at 1 logins_world) 0
              (session_at 0 logins_world) server_ep (client_ep 1) server_ep (client_ep 0) 50001 50002 req)
    as (w' & ch & E & C & _); [vm_compute; congruence..|].
  exists w', ch. split; [exact E|exact C].
Defined.

(** A refused proxy request: when the destination id is not in the
    directory, or its session is gone, the requester gets exactly one PROXY
    answer with the error code CREATE_UDP_FAILED and nothing else changes;
    no channel id is used up. *)
Theorem proxy_refused `{SessionStore D} (w : World D) env src req :
  getSessionWithLock (px_uiDstId req) w = None ->
  onReqProxy env src req w =
    (Ok tt, doWrite src (proxy_err_msg req ERRCODE.CREATE_UDP_FAILED) w) /\
  parse_frame (proxy_err_msg req ERRCODE.CREATE_UDP_FAILED) =
    Some (with_body_len (px_header req) 11, ERRCODE.CREATE_UDP_FAILED :: replicate 10 Init.Byte.x00).
Proof.
  intros E. split.
  - unfold onReqProxy, createChannel. rewrite E. by destruct (server_alive w).
  - reflexivity.
Qed.

Lemma proxy_refused_witness :
  let req := {| px_header := req_hdr FUNC_REQ.PROXY 9; px_uiId := 1001; px_uiDstId := 7; px_szGameId := [] |} in
  onReqProxy demo_env 1 req logins_world =
    (Ok tt, doWrite 1 (proxy_err_msg req ERRCODE.CREATE_UDP_FAILED) logins_world).
Proof. intros req. apply (proxy_refused logins_world demo_env 1 req). vm_compute. reflexivity. Defined.

(** Requests are dispatched by role: a session whose type is neither CLIENT
    nor ANYONE gets no answer and no effect from PROXY and GETPROXIES, and a
    heartbeat or an unknown function code has no effect for anybody. *)
Theorem dispatch_by_role `{SessionStore D} (w : World D) env r s tail :
  let func := byte_Z (ucFunc (_hdr s)) in
  (is_client (_session_type s) = false /\ (func = FUNC_REQ.PROXY \/ func = FUNC_REQ.GETPROXIES)) \/
  func = FUNC_REQ.HEARTBEAT \/ FUNC_REQ.GETPROXIES < func ->
  dispatch env r s tail w = (Ok tt, w).
Proof.
  cbn zeta. unfold dispatch. intros Hf.
  destruct (byte_Z (ucFunc (_hdr s)) =? FUNC_REQ.LOGIN) eqn:E1;
    [apply Z.eqb_eq in E1; unfold FUNC_REQ.LOGIN, FUNC_REQ.PROXY, FUNC_REQ.GETPROXIES, FUNC_REQ.HEARTBEAT in *; lia|].
  destruct (is_client (_session_type s)).
  - destruct (byte_Z (ucFunc (_hdr s)) =? FUNC_REQ.PROXY) eqn:E2;
      [apply Z.eqb_eq in E2; unfold FUNC_REQ.PROXY, FUNC_REQ.GETPROXIES, FUNC_REQ.HEARTBEAT in *; naive_solver lia|].
    destruct (byte_Z (ucFunc (_hdr s)) =? FUNC_REQ.GETPROXIES) eqn:E3;
      [apply Z.eqb_eq in E3; unfold FUNC_REQ.PROXY, FUNC_REQ.GETPROXIES, FUNC_REQ.HEARTBEAT in *; naive_solver lia|].
    done.
  - by repeat case_match.
Qed.

Lemma dispatch_by_role_witness :
  dispatch demo_env 0 (set_rbuf (req_hdr FUNC_REQ.PROXY 9) [] (session_at 0 logins_world)) [] logins_world
  = (Ok tt, logins_world).
Proof.
  apply (dispatch_by_role logins_world demo_env 0). left. split; [|left]; vm_compute; reflexivity.
Defined.
