(* ===== verification/ChannelFacts.v ===== *)
(** * Properties of channels

    The relay as a state machine per channel, its invariants in the running
    program, and what the coroutines do with datagrams. *)
From stdpp Require Import relations.
From S2P Require Import Prelude Protocol SafeContainers SessionStore SessionDb World SessionOut Channel SessionMgr Session Server Scenario Frames Registry SessionMachine Refinement RequestFacts.

(** ** The channel machine *)

(** [stop()] as the channel sees it. *)
Definition stop_of (ch : CChannel) : CChannel := if ch_started ch then closed_ends ch else ch.

Inductive chan_step : CChannel -> CChannel -> Prop :=
| cs_up t ev ch ch' b :
    uploader_step t ev ch = Some (ch', b) -> chan_step ch (if b then stop_of ch' else ch')
| cs_down t ok ev ch ch' b :
    downloader_step t ok ev ch = Some (ch', b) -> chan_step ch (if b then stop_of ch' else ch')
| cs_display ch ch' : displayer_step ch = Some ch' -> chan_step ch ch'
| cs_check_src t failed pc ch :
    chan_step ch (set_src_end (checker_step t failed pc (_src_end ch)).2 ch)
| cs_check_dst t failed pc ch :
    chan_step ch (set_dst_end (checker_step t failed pc (_dst_end ch)).2 ch)
| cs_posts n ch : chan_step ch (set_stop_posts n ch)
| cs_stop ch : chan_step ch (stop_of ch).

(** What an end never loses: the size of its buffer and its expiry, and that no
    datagram is longer than the buffer. *)
Record end_typed (cfg : config) (e : CEnd) : Prop := {
  et_buf : length (_buf e) = channMTU cfg;
  et_expired : _port_expired e = channPortExpired cfg;
  et_datagrams : Forall (fun d => length d.2 <= channMTU cfg)%nat (datagrams e)
}.

(** A channel before [start()]. *)
Record unstarted (cfg : config) (ch : CChannel) : Prop := {
  us_src : _opened (_src_end ch) = false;
  us_dst : _opened (_dst_end ch) = false;
  us_started : ch_started ch = false;
  us_ends : end_typed cfg (_src_end ch) /\ end_typed cfg (_dst_end ch);
  us_interval : _display_interval ch = channDisplayInterval cfg;
  us_display : display_at ch = DispNone;
  us_counters : _up_bytes ch = 0 /\ _up_packs ch = 0 /\ _down_bytes ch = 0 /\ _down_packs ch = 0
}.

(** ** Invariant of a channel

    The source end is opened only after the destination end; while the channel
    is started both coroutines are alive; a coroutine relays only once its own
    end is opened. *)
Definition alive (pc : co_pc) : Prop := pc <> CoNone /\ pc <> CoDone.
Definition relaying (pc : co_pc) : Prop := pc = CoRecv \/ pc = CoSend.

Record chan_ok (ch : CChannel) : Prop := {
  co_auth : _opened (_src_end ch) = true -> _opened (_dst_end ch) = true;
  co_up : ch_started ch = true -> alive (up_at ch);
  co_down : ch_started ch = true -> alive (down_at ch);
  co_up_relay : ch_started ch = true -> relaying (up_at ch) -> _opened (_src_end ch) = true;
  co_down_relay : ch_started ch = true -> relaying (down_at ch) -> _opened (_dst_end ch) = true
}.

Lemma chan_ok_start cfg ch : unstarted cfg ch -> chan_ok (start_channel ch).
Proof.
  intros [Us Ud Ust _ _ _ _]. unfold start_channel. rewrite Ust.
  case_match; split; simpl; rewrite ?Us, ?Ud; unfold alive, relaying; simpl; naive_solver.
Qed.

Lemma chan_ok_stop_of ch :
  (_opened (_src_end ch) = true -> _opened (_dst_end ch) = true) ->
  (ch_started ch = false -> chan_ok ch) -> chan_ok (stop_of ch).
Proof.
  intros Ha Hf. unfold stop_of. destruct (ch_started ch) eqn:E; [|auto].
  split; simpl; try done.
Qed.

(** The ends after a coroutine has worked on them: same owner of the flags. *)
Lemma updateTime_opened t e : _opened (updateTime t e) = _opened e.
Proof. unfold updateTime. by case_match. Qed.

Lemma checker_step_opened t failed pc e : _opened (checker_step t failed pc e).2 = _opened e.
Proof. unfold checker_step, checker_loop. by repeat case_match. Qed.

Lemma send_to_opened dest buf n e : _opened (send_to dest buf n e) = _opened e.
Proof. unfold send_to. by destruct (sock_open e). Qed.

Lemma send_opened buf n e : _opened (send buf n e) = _opened e.
Proof. unfold send. destruct (sock_peer e); [apply send_to_opened|done]. Qed.

(** What one step of the uploader does to flags and program counters. *)
Record up_effect (ch : CChannel) (ch' : CChannel) (b : bool) : Prop := {
  ue_dst : _opened (_dst_end ch') = _opened (_dst_end ch);
  ue_started : ch_started ch' = ch_started ch;
  ue_down : down_at ch' = down_at ch;
  ue_src : _opened (_src_end ch') = true ->
    _opened (_dst_end ch) = true \/ _opened (_src_end ch) = true;
  ue_alive : b = false -> ch_started ch = true -> alive (up_at ch');
  ue_relay : relaying (up_at ch') -> ch_started ch = true ->
    (relaying (up_at ch) -> _opened (_src_end ch) = true) -> _opened (_src_end ch') = true
}.

(** Flags and program counters, by cases. *)
Ltac flags := split; simpl; unfold alive, relaying in *; intuition congruence.

Lemma srcAuth_loop_effect ch1 ch :
  _opened (_dst_end ch1) = _opened (_dst_end ch) -> ch_started ch1 = ch_started ch ->
  down_at ch1 = down_at ch ->
  (_opened (_src_end ch1) = true -> _opened (_dst_end ch) = true \/ _opened (_src_end ch) = true) ->
  up_effect ch (srcAuth_loop ch1).1 (srcAuth_loop ch1).2.
Proof.
  intros Hd Hs Hdn Ho. unfold srcAuth_loop, upload_loop, goto_up.
  destruct (ch_started ch1) eqn:Es, (_opened (_src_end ch1)) eqn:Eo; simpl;
    flags.
Qed.

Lemma upload_loop_effect ch1 ch :
  _opened (_dst_end ch1) = _opened (_dst_end ch) -> ch_started ch1 = ch_started ch ->
  down_at ch1 = down_at ch -> _opened (_src_end ch1) = _opened (_src_end ch) ->
  relaying (up_at ch) -> up_effect ch (upload_loop ch1).1 (upload_loop ch1).2.
Proof.
  intros Hd Hs Hdn Ho Hr. unfold upload_loop, goto_up.
  destruct (ch_started ch1) eqn:Es; flags.
Qed.

Lemma up_failed_effect e loop ch1 ch :
  _opened (_dst_end ch1) = _opened (_dst_end ch) -> ch_started ch1 = ch_started ch ->
  down_at ch1 = down_at ch ->
  (_opened (_src_end ch1) = true -> _opened (_src_end ch) = true) ->
  up_effect ch (loop ch1).1 (loop ch1).2 ->
  up_effect ch (up_failed e loop ch1).1 (up_failed e loop ch1).2.
Proof.
  intros Hd Hs Hdn Ho Hl. unfold up_failed. destruct (sock_open e); [done|].
  flags.
Qed.

Lemma receive_opened data e : _opened (receive data e).2 = _opened e.
Proof. done. Qed.

Lemma src_auth_recv_effect t from data ch :
  up_effect ch (src_auth_recv t from data ch).1 (src_auth_recv t from data ch).2.
Proof.
  unfold src_auth_recv, receive. cbv zeta iota beta. case_match.
  - apply up_failed_effect; auto. by apply srcAuth_loop_effect; auto.
  - case_match; bool_to_Z; split; simpl; rewrite ?send_to_opened; simpl; rewrite ?updateTime_opened; simpl;
      unfold alive, relaying in *; intuition congruence.
Qed.

Lemma src_auth_send_effect ok ch :
  up_effect ch (src_auth_send ok ch).1 (src_auth_send ok ch).2.
Proof.
  unfold src_auth_send. cbv zeta. destruct ok; [apply srcAuth_loop_effect; auto|].
  apply up_failed_effect; auto; [done|]. by apply srcAuth_loop_effect.
Qed.

Lemma upload_recv_effect t from data ch :
  relaying (up_at ch) -> up_effect ch (upload_recv t from data ch).1 (upload_recv t from data ch).2.
Proof.
  intros Hr. unfold upload_recv, receive. cbv zeta iota beta.
  case_match; [apply up_failed_effect; auto; by apply upload_loop_effect|].
  case_match; [by apply upload_loop_effect|].
  set (src := if decide _ then _ else _).
  assert (_opened (updateTime t src) = _opened (_src_end ch)) as Ho.
  { rewrite updateTime_opened. unfold src. by case_decide. }
  clearbody src. case_match; [by apply upload_loop_effect|].
  split; simpl; rewrite ?send_opened, ?Ho; unfold alive, relaying in *; intuition congruence.
Qed.

Lemma upload_send_effect n ch :
  relaying (up_at ch) -> up_effect ch (upload_send n ch).1 (upload_send n ch).2.
Proof.
  intros Hr. unfold upload_send. case_match; [apply up_failed_effect; auto|]; by apply upload_loop_effect.
Qed.

Lemma uploader_effect t ev ch ch' b : uploader_step t ev ch = Some (ch', b) -> up_effect ch ch' b.
Proof.
  intros E.
  enough (forall p, uploader_step t ev ch = Some p -> up_effect ch p.1 p.2) as Hp
    by exact (Hp _ E).
  clear. intros p. unfold uploader_step.
  assert (up_at ch = CoRecv -> relaying (up_at ch)) by (by left).
  assert (up_at ch = CoSend -> relaying (up_at ch)) by (by right).
  destruct (up_at ch) eqn:Ep; rewrite <-?Ep in *; destruct ev; try done;
    intros Hp; apply (inj Some) in Hp as <-;
    try first [apply src_auth_recv_effect | apply src_auth_send_effect
              | apply upload_recv_effect; by auto | apply upload_send_effect; by auto].
  - apply srcAuth_loop_effect; auto.
  - apply up_failed_effect; auto. apply srcAuth_loop_effect; auto.
  - apply up_failed_effect; auto. apply upload_loop_effect; auto.
Qed.

(** The same for the downloader. *)
Record down_effect (ch : CChannel) (ch' : CChannel) (b : bool) : Prop := {
  de_src : _opened (_src_end ch') = _opened (_src_end ch);
  de_started : ch_started ch' = ch_started ch;
  de_up : up_at ch' = up_at ch;
  de_dst : _opened (_dst_end ch) = true -> _opened (_dst_end ch') = true;
  de_alive : b = false -> ch_started ch = true -> alive (down_at ch');
  de_relay : relaying (down_at ch') -> ch_started ch = true ->
    (relaying (down_at ch) -> _opened (_dst_end ch) = true) -> _opened (_dst_end ch') = true
}.

Lemma dstAuth_loop_effect ok ch1 ch :
  _opened (_src_end ch1) = _opened (_src_end ch) -> ch_started ch1 = ch_started ch ->
  up_at ch1 = up_at ch ->
  (_opened (_dst_end ch) = true -> _opened (_dst_end ch1) = true) ->
  down_effect ch (dstAuth_loop ok ch1).1 (dstAuth_loop ok ch1).2.
Proof.
  intros Hd Hs Hdn Ho. unfold dstAuth_loop, download_loop, goto_down, dst_connect.
  destruct (ch_started ch1) eqn:Es, (_opened (_dst_end ch1)) eqn:Eo, ok; simpl; rewrite ?Es; simpl; flags.
Qed.

Lemma download_loop_effect ch1 ch :
  _opened (_src_end ch1) = _opened (_src_end ch) -> ch_started ch1 = ch_started ch ->
  up_at ch1 = up_at ch -> _opened (_dst_end ch1) = _opened (_dst_end ch) ->
  relaying (down_at ch) -> down_effect ch (download_loop ch1).1 (download_loop ch1).2.
Proof.
  intros Hd Hs Hdn Ho Hr. unfold download_loop, goto_down. destruct (ch_started ch1) eqn:Es; flags.
Qed.

Lemma down_failed_effect e loop ch1 ch :
  _opened (_src_end ch1) = _opened (_src_end ch) -> ch_started ch1 = ch_started ch ->
  up_at ch1 = up_at ch -> _opened (_dst_end ch1) = _opened (_dst_end ch) ->
  down_effect ch (loop ch1).1 (loop ch1).2 ->
  down_effect ch (down_failed e loop ch1).1 (down_failed e loop ch1).2.
Proof.
  intros Hd Hs Hdn Ho Hl. unfold down_failed. destruct (sock_open e); [done|]. flags.
Qed.

Lemma dst_auth_recv_effect t from data ok ch :
  down_effect ch (dst_auth_recv t from data ch (dstAuth_loop ok)).1
                 (dst_auth_recv t from data ch (dstAuth_loop ok)).2.
Proof.
  unfold dst_auth_recv, receive. cbv zeta iota beta. case_match.
  - apply down_failed_effect; auto. by apply dstAuth_loop_effect; auto.
  - case_match; split; simpl; rewrite ?send_to_opened; simpl; rewrite ?updateTime_opened; simpl;
      unfold alive, relaying in *; intuition congruence.
Qed.

Lemma dst_auth_send_effect sent ok ch :
  down_effect ch (dst_auth_send sent ch (dstAuth_loop ok)).1 (dst_auth_send sent ch (dstAuth_loop ok)).2.
Proof.
  unfold dst_auth_send. destruct sent; [|apply down_failed_effect; auto]; by apply dstAuth_loop_effect.
Qed.

Lemma download_recv_effect t data ch :
  relaying (down_at ch) -> down_effect ch (download_recv t data ch).1 (download_recv t data ch).2.
Proof.
  intros Hr. unfold download_recv, receive. cbv zeta iota beta.
  case_match; [apply down_failed_effect; auto; by apply download_loop_effect|].
  case_match; [apply download_loop_effect; auto; simpl; by rewrite updateTime_opened|].
  split; simpl; rewrite ?send_to_opened, ?updateTime_opened; simpl; unfold alive, relaying in *; intuition congruence.
Qed.

Lemma download_send_effect n ch :
  relaying (down_at ch) -> down_effect ch (download_send n ch).1 (download_send n ch).2.
Proof.
  intros Hr. unfold download_send. case_match; [apply down_failed_effect; auto|];
    by apply download_loop_effect.
Qed.

Lemma downloader_effect t ok ev ch ch' b :
  downloader_step t ok ev ch = Some (ch', b) -> down_effect ch ch' b.
Proof.
  intros E.
  enough (forall p, downloader_step t ok ev ch = Some p -> down_effect ch p.1 p.2) as Hp
    by exact (Hp _ E).
  clear. intros p. unfold downloader_step. cbv zeta.
  assert (down_at ch = CoRecv -> relaying (down_at ch)) by (by left).
  assert (down_at ch = CoSend -> relaying (down_at ch)) by (by right).
  destruct (down_at ch) eqn:Ep; rewrite <-?Ep in *; destruct ev; try done;
    intros Hp; apply (inj Some) in Hp as <-;
    try first [apply dst_auth_recv_effect | apply dst_auth_send_effect
              | apply download_recv_effect; by auto | apply download_send_effect; by auto].
  - apply dstAuth_loop_effect; auto.
  - apply down_failed_effect; auto. apply dstAuth_loop_effect; auto.
  - apply down_failed_effect; auto. apply download_loop_effect; auto.
Qed.

Lemma chan_ok_step ch ch' : chan_step ch ch' -> chan_ok ch -> chan_ok ch'.
Proof.
  intros Hs [A1 A2 A3 A4 A5].
  destruct Hs as [t ev ch ch' b Hu|t ok ev ch ch' b Hd|ch ch' Hp|t f pc ch|t f pc ch|n ch|ch].
  - apply uploader_effect in Hu as [U1 U2 U3 U4 U5 U6].
    assert (_opened (_src_end ch') = true -> _opened (_dst_end ch') = true) as Ha.
    { rewrite U1. intuition. }
    destruct b; [apply chan_ok_stop_of; [done|]; intros Hf|];
      split; rewrite ?U1, ?U2, ?U3 in *; auto; intros; try congruence; intuition.
  - apply downloader_effect in Hd as [U1 U2 U3 U4 U5 U6].
    assert (_opened (_src_end ch') = true -> _opened (_dst_end ch') = true) as Ha.
    { rewrite U1. intuition. }
    destruct b; [apply chan_ok_stop_of; [done|]; intros Hf|];
      split; rewrite ?U1, ?U2, ?U3 in *; auto; intros; try congruence; intuition.
  - unfold displayer_step in Hp. destruct (display_at ch); simplify_eq/=; by split.
  - split; simpl; rewrite ?checker_step_opened; auto.
  - split; simpl; rewrite ?checker_step_opened; auto.
  - by split.
  - apply chan_ok_stop_of; [done|]. by split.
Qed.

(** ** Handlers move channels along the machine *)

Section channels.
Context {D : Type} `{SessionStore D}.
Context (cfg : config) (P : CChannel -> Prop)
  (P_step : forall ch ch', chan_step ch ch' -> P ch -> P ch')
  (P_start : forall ch, unstarted cfg ch -> P (start_channel ch)).
Implicit Types (w : World D) (r : sref) (c : cref).

Definition all_channels w : Prop := forall c ch, channels w !! c = Some ch -> P ch.

Lemma all_same w w' : channels w' = channels w -> all_channels w -> all_channels w'.
Proof. intros E I c ch. rewrite E. apply I. Qed.

Lemma channels_doWrite r msg w : channels (doWrite r msg w) = channels w.
Proof. unfold doWrite. by case_match. Qed.

Lemma channels_onRespAccess r req ch w : channels (onRespAccess r req ch w) = channels w.
Proof. unfold onRespAccess. case_match; [apply channels_doWrite|done]. Qed.

Lemma channels_CChannel_stop c w : channels (CChannel_stop c w) = alter stop_of c (channels w).
Proof.
  unfold CChannel_stop. destruct (channels w !! c) as [ch|] eqn:Ec.
  2: { apply map_eq. intros c'. destruct (decide (c = c')) as [<-|Hne];
         [by rewrite lookup_alter_eq, Ec|by rewrite lookup_alter_ne]. }
  rewrite (alter_insert_at stop_of c ch) by done. unfold stop_of.
  destruct (ch_started ch) eqn:Est; [|by rewrite insert_id].
  transitivity (alter (fun ch => set_dst_end (CEnd_stop (_dst_end ch))
                          (set_src_end (CEnd_stop (_src_end ch)) ch)) c
                  (alter (set_ch_started false) c (channels w))); [by repeat case_match|].
  rewrite (alter_insert_at _ c ch (channels w) Ec).
  erewrite alter_insert_at by apply lookup_insert_eq. by rewrite insert_insert_eq.
Qed.

Lemma all_alter c f w w' :
  (forall ch, channels w !! c = Some ch -> P ch -> P (f ch)) ->
  channels w' = alter f c (channels w) -> all_channels w -> all_channels w'.
Proof.
  intros Hf E I c' ch'. rewrite E. destruct (decide (c = c')) as [<-|Hne].
  - rewrite lookup_alter_eq. destruct (channels w !! c) as [ch|] eqn:Ec; [|done].
    intros [= <-]. eauto.
  - rewrite lookup_alter_ne by done. apply I.
Qed.

Lemma all_apply_co c ch (res : co_result) w :
  channels w !! c = Some ch -> (P ch -> P (if res.2 then stop_of res.1 else res.1)) ->
  all_channels w -> all_channels (apply_co c res w).
Proof.
  intros Ec Hr. apply (all_alter c (fun _ : CChannel => if res.2 then stop_of res.1 else res.1)).
  - intros ch0 E0. rewrite Ec in E0. by injection E0 as <-.
  - unfold apply_co. destruct (res.2); [|done]. rewrite channels_CChannel_stop. simpl.
    rewrite !(alter_insert_at _ c ch (channels w) Ec). erewrite alter_insert_at by apply lookup_insert_eq.
    by rewrite insert_insert_eq.
Qed.

Lemma all_CSession_stop r w : all_channels w -> all_channels (CSession_stop r w).
Proof.
  intros I. unfold CSession_stop. destruct (sessions w !! r) as [s|] eqn:Es; [|done].
  destruct (_started s); [|done].
  intros c ch'. destruct (closeSession_same r (stop_local r w)) as [_ ->].
  destruct (stop_local_spec r s w Es) as (_ & -> & _).
  destruct (channels w !! c) as [ch|] eqn:Ec; [|done]. intros [= <-].
  eapply P_step; [apply cs_posts|eauto].
Qed.

(** Creation: the new channel is not started yet. *)
Definition all_but c w : Prop :=
  (forall c' ch, c' <> c -> channels w !! c' = Some ch -> P ch) /\
  (forall ch, channels w !! c = Some ch -> unstarted cfg ch).

Definition end_kept (e e' : CEnd) : Prop :=
  _opened e' = _opened e /\ (end_typed cfg e -> end_typed cfg e').

Lemma CEnd_init_kept r s p e : end_kept e (CEnd_init r s p e).2.
Proof. unfold CEnd_init. repeat case_match; (split; [done|]; intros []; by split). Qed.

Lemma new_end_typed t : end_typed cfg (new_end (channMTU cfg) (channPortExpired cfg) t).
Proof. unfold new_end, updateTime. case_match; split; simpl; by rewrite ?length_replicate. Qed.

Lemma new_channel_unstarted id t : unstarted cfg (new_channel cfg id t).
Proof.
  split; simpl; [unfold new_end; by rewrite ?updateTime_opened..|done| |done|done|done].
  split; apply new_end_typed.
Qed.

Lemma channels_CChannel_init c src dst p1 p2 ch w :
  channels w !! c = Some ch ->
  exists e1 e2, channels (CChannel_init c src dst p1 p2 w).2 =
    <[c := set_dst_end e2 (set_src_end e1 ch)]> (channels w) /\
    end_kept (_src_end ch) e1 /\ end_kept (_dst_end ch) e2.
Proof.
  intros Ec. unfold CChannel_init. rewrite Ec.
  assert (exists e1 e2, channels w = <[c := set_dst_end e2 (set_src_end e1 ch)]> (channels w) /\
    end_kept (_src_end ch) e1 /\ end_kept (_dst_end ch) e2) as H0.
  { exists (_src_end ch), (_dst_end ch). split; [|done]. rewrite insert_id; [done|].
    rewrite Ec. by destruct ch. }
  destruct (sessions w !! src) as [s1|]; [|done]. destruct (sessions w !! dst) as [s2|]; [|done].
  pose proof (CEnd_init_kept src s1 p1 (_src_end ch)) as O1.
  destruct (CEnd_init src s1 p1 (_src_end ch)) as [ok1 e1]. simpl in O1.
  destruct ok1; simpl.
  2: { exists e1, (_dst_end ch). split; [|done]. rewrite (alter_insert_at _ c ch) by done.
       by destruct ch. }
  pose proof (CEnd_init_kept dst s2 p2 (_dst_end ch)) as O2.
  destruct (CEnd_init dst s2 p2 (_dst_end ch)) as [ok2 e2]. simpl in O2.
  match goal with |- context [upd_channel c (set_dst_end e2) ?x] => set (w1 := upd_channel c (set_dst_end e2) x) end.
  assert (channels w1 = <[c := set_dst_end e2 (set_src_end e1 ch)]> (channels w)) as C1.
  { unfold w1. simpl. rewrite (alter_insert_at _ c ch (channels w) Ec).
    erewrite alter_insert_at by apply lookup_insert_eq. by rewrite insert_insert_eq. }
  clearbody w1. exists e1, e2. split; [|done]. rewrite <-C1. destruct ok2; simpl; [|done].
  unfold addSrcChannel, addDstChannel.
  repeat (case_match; simplify_eq/=; try done).
Qed.

Lemma all_but_createChannel env src dst_id w o w' :
  gConfig w = cfg -> createChannel env src dst_id w = (o, w') -> all_channels w ->
  match o with Ok (Some c) => all_but c w' | _ => all_channels w' end.
Proof.
  intros Hcfg. unfold createChannel. case_match; [by intros [= <- <-]|].
  destruct (getSessionWithLock dst_id w) as [dst|]; [|by intros [= <- <-]]. simpl.
  case_match; [by intros [= <- <-]|].
  match goal with |- context [CChannel_init _ src dst _ _ ?x] => set (w1 := x) end.
  assert (channels w1 = <[heap_next w := new_channel cfg (_channel_id (mgr w)) (now w)]> (channels w)) as C1
    by (rewrite <-Hcfg; done).
  assert (channels w1 !! heap_next w = Some (new_channel cfg (_channel_id (mgr w)) (now w))) as E1
    by by rewrite C1, lookup_insert_eq.
  clearbody w1. destruct (channels_CChannel_init (heap_next w) src dst (src_port env) (dst_port env) _ w1 E1)
    as (e1 & e2 & C2 & O1 & O2).
  destruct (CChannel_init (heap_next w) src dst (src_port env) (dst_port env) w1) as [ok w2]. simpl in C2.
  rewrite C1, insert_insert_eq in C2. intros E I.
  destruct (new_channel_unstarted (_channel_id (mgr w)) (now w)) as [U1 U2 U3 [U4 U5] U6 U7 U8].
  destruct ok; injection E as <- <-.
  - unfold all_but. rewrite C2. split.
    + intros c' ch' Hne. rewrite lookup_insert_ne by done. apply I.
    + intros ch'. rewrite lookup_insert_eq. intros [= <-]. destruct O1, O2. split; simpl; auto; congruence.
  - intros c' ch'. simpl. rewrite channels_CChannel_stop, C2.
    rewrite lookup_delete_Some. intros [Hne Ec]. rewrite lookup_alter_ne, lookup_insert_ne in Ec by done.
    eauto.
Qed.

Lemma all_but_destroy c w : all_but c w -> all_channels (CChannel_destroy c w).
Proof.
  intros [I _] c' ch'. simpl. rewrite lookup_delete_Some. intros [Hne E]. by apply (I c').
Qed.

Lemma all_destroy c w : all_channels w -> all_channels (CChannel_destroy c w).
Proof.
  intros I c' ch'. simpl. rewrite lookup_delete_Some. intros [_ E]. by apply (I c').
Qed.

Lemma all_but_start c w : all_but c w -> all_channels (CChannel_start c w).
Proof.
  intros [I Hu] c' ch'. simpl. destruct (decide (c = c')) as [<-|Hne].
  - rewrite lookup_alter_eq. destruct (channels w !! c) as [ch|] eqn:Ec; [|done].
    intros [= <-]. auto.
  - rewrite lookup_alter_ne by done. apply I. congruence.
Qed.

Lemma all_onReqProxy env r req w :
  gConfig w = cfg -> all_channels w -> all_channels (onReqProxy env r req w).2.
Proof.
  intros Hcfg I. unfold onReqProxy.
  destruct (createChannel env r (px_uiDstId req) w) as [o w1] eqn:E.
  pose proof (all_but_createChannel _ _ _ _ _ _ Hcfg E I) as I1.
  destruct o as [[c|]| |]; simpl; try done.
  case_match; [case_match|]; simpl; [by apply all_but_destroy| |by apply all_but_destroy].
  pose proof (all_but_start c w1 I1) as I2. simpl in I2.
  case_match; simpl; [|done].
  eapply all_same; [etrans; [apply channels_doWrite|apply channels_onRespAccess]|done].
Qed.

Lemma channels_onSessionLogin r w : channels (onSessionLogin r w).2 = channels w.
Proof.
  unfold onSessionLogin, guid_insert, addSessionWithLock. repeat (case_match; simplify_eq/=; try done).
Qed.

Lemma channels_onReqLogin r req w : channels (onReqLogin r req w) = channels w.
Proof.
  unfold onReqLogin. destruct (sessions w !! r) as [s|]; [|done].
  destruct (_logined s); cbn [negb]; [apply channels_doWrite|].
  set (w1 := upd_session r _ w). assert (channels w1 = channels w) as <- by done. clearbody w1.
  rewrite <-(channels_onSessionLogin r w1).
  destruct (onSessionLogin r w1) as [[] w2]; by rewrite channels_doWrite.
Qed.

Lemma all_dispatch env r s tail w :
  gConfig w = cfg -> all_channels w -> all_channels (dispatch env r s tail w).2.
Proof.
  intros Hcfg I. pose proof (fun req => all_onReqProxy env r req w Hcfg I) as Hproxy. clear Hcfg.
  unfold dispatch, mbind, mret, M_bind, M_ret, lift, modify.
  repeat case_match; simpl; simplify_eq/=; try done; try by apply Hproxy.
  - eapply all_same; [apply channels_onReqLogin|done].
  - unfold onReqGetProxies. case_match; simpl; try done.
    eapply all_same; [apply channels_doWrite|done].
Qed.

Lemma all_read env r ec data tail w o w' :
  gConfig w = cfg -> read_complete env r ec data tail w = Some (o, w') ->
  all_channels w -> all_channels w'.
Proof.
  intros Hcfg E I. unfold read_complete in E. destruct (sessions w !! r) as [s|]; [|done]. simpl in E.
  destruct (reads s) as [|op ops]; [done|]. do 2 (case_match; [done|]). injection E as E.
  set (w1 := upd_session r _ w) in E. assert (all_channels w1) as I1 by exact I.
  assert (gConfig w1 = cfg) as Hcfg1 by exact Hcfg. clearbody w1.
  destruct op; [unfold onReadHead in E|unfold onReadBody in E].
  - repeat (case_match; simplify_eq/=); try done; by apply all_CSession_stop.
  - destruct (sessions w1 !! r) as [s1|]; [|by injection E as <- <-].
    case_match; [injection E as <- <-; by apply all_CSession_stop|].
    pose proof (all_dispatch env r s1 tail w1 Hcfg1 I1) as I2.
    destruct (dispatch env r s1 tail w1) as [[[]|e|u] w2]; injection E as <- <-; exact I2.
Qed.

Lemma all_on_session r f w o w' :
  on_session r f w = Some (o, w') -> all_channels w -> all_channels w'.
Proof. unfold on_session. intros E I. simplify_option_eq. by case_match; simplify_eq/=. Qed.

Lemma all_onTimeout r w w' : onTimeout r w = Some w' -> all_channels w -> all_channels w'.
Proof.
  unfold onTimeout. intros E I. destruct (sessions w !! r) as [s|]; [|done]. simpl in E.
  destruct (timer s); simplify_eq/=; [by apply all_CSession_stop|done].
Qed.

Lemma all_quiet (f : option (World D)) w o w' :
  (forall w', f = Some w' -> all_channels w -> all_channels w') ->
  quiet f = Some (o, w') -> all_channels w -> all_channels w'.
Proof. intros Hf E. destruct f; simplify_eq/=. auto. Qed.

Lemma all_accept a w : all_channels w -> all_channels (acceptor a w).2.
Proof.
  intros I. unfold acceptor, start_accepted, CSession_start. repeat (case_match; simplify_eq/=); exact I.
Qed.

Lemma all_step e w o w' :
  gConfig w = cfg -> step e w = Some (o, w') -> all_channels w -> all_channels w'.
Proof.
  intros Hcfg. destruct e; simpl; intros E.
  - injection E as E. intros I. pose proof (all_accept a w I) as I'. by rewrite E in I'.
  - by eapply all_read.
  - by eapply all_on_session.
  - by eapply all_on_session.
  - by eapply all_on_session.
  - eapply all_quiet; [|exact E]. intros. by eapply all_onTimeout.
  - by eapply all_on_session.
  - intros I. destruct (sessions w !! r) as [s|] eqn:Es; [|done]. simpl in E. case_match; [|done].
    unfold CSession_destroy in E. rewrite Es in E. destruct (_started s); injection E as <- <-; [|exact I].
    intros c ch'. destruct (stop_local_spec r s w Es) as (_ & -> & _).
    destruct (channels w !! c) as [ch|] eqn:Ec; [|done]. intros [= <-].
    eapply P_step; [apply cs_posts|eauto].
  - eapply all_quiet; [|exact E]. intros w1 E1. unfold resume_up in E1.
    apply bind_Some in E1 as (ch & Ec & E1). apply bind_Some in E1 as ([ch' b] & Es & [= <-]).
    eapply all_apply_co; [exact Ec|]. simpl. eauto using cs_up.
  - eapply all_quiet; [|exact E]. intros w1 E1. unfold resume_down in E1.
    apply bind_Some in E1 as (ch & Ec & E1). apply bind_Some in E1 as ([ch' b] & Es & [= <-]).
    eapply all_apply_co; [exact Ec|]. simpl. eauto using cs_down.
  - eapply all_quiet; [|exact E]. intros w1 E1. unfold resume_display in E1.
    apply bind_Some in E1 as (ch & Ec & E1). apply bind_Some in E1 as (ch' & Es & [= <-]).
    eapply all_alter; [|done]. intros ch0 E0. simplify_eq. eauto using cs_display.
  - intros I. unfold resume_checker in E. apply bind_Some in E as (pc & _ & E).
    destruct (channels w !! c) as [ch|] eqn:Ec; [|by injection E as <- <-].
    destruct (checker_step _ _ _ _) as [pc' e'] eqn:Es. injection E as <- <-.
    eapply all_alter; [|done|exact I]. intros ch0 E0. simplify_eq. apply (f_equal snd) in Es. simpl in Es. subst e'.
    destruct src; eauto using cs_check_src, cs_check_dst.
  - eapply all_quiet; [|exact E]. intros w1 E1. unfold run_stop_post in E1.
    destruct (channels w !! c) as [ch|] eqn:Ec; [|done]. destruct (stop_posts ch); simplify_eq/=.
    intros I. eapply (all_alter c stop_of); [|apply channels_CChannel_stop|].
    + intros; eauto using cs_stop.
    + eapply all_alter; [|done|exact I]. intros; eauto using cs_posts.
  - intros I. destruct (channels w !! c) as [ch|]; [|done]. simpl in E. case_match; [|done].
    injection E as <- <-. by apply all_destroy.
  - by injection E as <- <-.
Qed.

(** A property that the machine keeps holds of every channel of a reachable
    state. *)
Lemma reach_channel_inv t d n w : reach cfg t d n w -> all_channels w.
Proof.
  induction 1 as [|n w e o w' Hr IH E Ho|n w d' Hr IH Hb]; [done| |exact IH].
  destruct (reach_ids_ok _ _ _ _ _ Hr) as (_ & _ & Hcfg). by eapply all_step.
Qed.
End channels.

Lemma reach_chan_ok `{SessionStore D} cfg t (d : D) n w c ch :
  reach cfg t d n w -> channels w !! c = Some ch -> chan_ok ch.
Proof.
  intros Hr Ec. exact (reach_channel_inv cfg chan_ok chan_ok_step (chan_ok_start cfg) t d n w Hr c ch Ec).
Qed.

(** ** Datagrams *)

(** A datagram that fits the buffer is received whole. *)
Lemma receive_fits data e :
  (length data <= length (_buf e))%nat ->
  receive data e = (length data, set_buf (data ++ drop (length data) (_buf e)) e).
Proof. intros Hl. unfold receive. rewrite Nat.min_l by done. by rewrite take_ge. Qed.

Lemma updateTime_fields t e :
  _buf (updateTime t e) = _buf e /\ _remote_ep (updateTime t e) = _remote_ep e /\
  datagrams (updateTime t e) = datagrams e /\ sock_open (updateTime t e) = sock_open e.
Proof. unfold updateTime. by case_match. Qed.

Lemma datagrams_up_failed e (loop : CChannel -> co_result) ch :
  (forall ch, _src_end (loop ch).1 = _src_end ch /\ _dst_end (loop ch).1 = _dst_end ch) ->
  _src_end (up_failed e loop ch).1 = _src_end ch /\ _dst_end (up_failed e loop ch).1 = _dst_end ch.
Proof. intros Hl. unfold up_failed. by destruct (sock_open e). Qed.

(** ** Draining a stopped channel *)

Definition co_left (pc : co_pc) : nat :=
  match pc with
  | CoNone | CoDone => 0
  | CoInit => 1
  | CoAuthSend | CoSend => 1
  | CoAuthRecv | CoRecv => 2
  end.
Definition display_left (pc : display_pc) : nat :=
  match pc with DispInit | DispWait => 1 | _ => 0 end.
Definition work_left (ch : CChannel) : nat :=
  (co_left (up_at ch) + co_left (down_at ch) + display_left (display_at ch))%nat.

(** The loops end at once when the channel is off. *)
Lemma upload_loop_off ch : ch_started ch = false -> up_at (upload_loop ch).1 = CoDone.
Proof. intros E. unfold upload_loop. by rewrite E. Qed.
Lemma srcAuth_loop_off ch : ch_started ch = false -> up_at (srcAuth_loop ch).1 = CoDone.
Proof. intros E. unfold srcAuth_loop. rewrite E. by apply upload_loop_off. Qed.
Lemma up_failed_off e loop ch :
  (forall ch, ch_started ch = false -> up_at (loop ch).1 = CoDone) ->
  ch_started ch = false -> up_at (up_failed e loop ch).1 = CoDone.
Proof. intros Hl E. unfold up_failed. destruct (sock_open e); [by apply Hl|done]. Qed.
Lemma download_loop_off ch : ch_started ch = false -> down_at (download_loop ch).1 = CoDone.
Proof. intros E. unfold download_loop. by rewrite E. Qed.
Lemma dstAuth_loop_off ok ch : ch_started ch = false -> down_at (dstAuth_loop ok ch).1 = CoDone.
Proof. intros E. unfold dstAuth_loop. rewrite E. by apply download_loop_off. Qed.
Lemma down_failed_off e loop ch :
  (forall ch, ch_started ch = false -> down_at (loop ch).1 = CoDone) ->
  ch_started ch = false -> down_at (down_failed e loop ch).1 = CoDone.
Proof. intros Hl E. unfold down_failed. destruct (sock_open e); [by apply Hl|done]. Qed.

Lemma uploader_off t ev ch ch' b :
  ch_started ch = false -> uploader_step t ev ch = Some (ch', b) ->
  (co_left (up_at ch') < co_left (up_at ch))%nat.
Proof.
  intros Est E.
  enough (forall p, uploader_step t ev ch = Some p -> (co_left (up_at p.1) < co_left (up_at ch))%nat) as Hp
    by exact (Hp _ E).
  clear E. intros p. unfold uploader_step, src_auth_recv, src_auth_send, upload_recv, upload_send, receive.
  destruct (up_at ch) eqn:Ep; destruct ev; try done; cbv zeta iota beta;
    intros Hp; apply (inj Some) in Hp as <-.
  all: repeat (case_match; rewrite ?upload_loop_off, ?srcAuth_loop_off, ?up_failed_off
                 by auto using upload_loop_off, srcAuth_loop_off; simpl; try lia).
  all: rewrite ?upload_loop_off, ?srcAuth_loop_off, ?up_failed_off
         by auto using upload_loop_off, srcAuth_loop_off; simpl; lia.
Qed.

Lemma downloader_off t ok ev ch ch' b :
  ch_started ch = false -> downloader_step t ok ev ch = Some (ch', b) ->
  (co_left (down_at ch') < co_left (down_at ch))%nat.
Proof.
  intros Est E.
  enough (forall p, downloader_step t ok ev ch = Some p -> (co_left (down_at p.1) < co_left (down_at ch))%nat) as Hp
    by exact (Hp _ E).
  clear E. intros p. unfold downloader_step, dst_auth_recv, dst_auth_send, download_recv, download_send, receive.
  destruct (down_at ch) eqn:Ep; destruct ev; try done; cbv zeta iota beta;
    intros Hp; apply (inj Some) in Hp as <-.
  all: repeat (case_match; rewrite ?download_loop_off, ?dstAuth_loop_off, ?down_failed_off
                 by auto using download_loop_off, dstAuth_loop_off; simpl; try lia).
  all: rewrite ?download_loop_off, ?dstAuth_loop_off, ?down_failed_off
         by auto using download_loop_off, dstAuth_loop_off; simpl; lia.
Qed.

(** What the relay coroutines leave alone. *)
Definition fixed_part (ch : CChannel) :=
  (ch_started ch, ch_id ch, stop_posts ch, display_at ch,
   (_owner_ss (_src_end ch), _owner_ss (_dst_end ch))).

Lemma uploader_fixed t ev ch res : uploader_step t ev ch = Some res -> fixed_part res.1 = fixed_part ch.
Proof.
  unfold uploader_step, src_auth_recv, src_auth_send, upload_recv, upload_send, receive, updateTime, send, send_to,
    up_failed, srcAuth_loop, upload_loop, goto_up.
  intros E. destruct (up_at ch), ev; try done; cbv zeta iota beta in E; apply (inj Some) in E as <-;
    by repeat case_match.
Qed.

Lemma downloader_fixed t ok ev ch res :
  downloader_step t ok ev ch = Some res -> fixed_part res.1 = fixed_part ch.
Proof.
  unfold downloader_step, dst_auth_recv, dst_auth_send, download_recv, download_send, receive, updateTime, send_to,
    down_failed, dstAuth_loop, download_loop, dst_connect, goto_down.
  intros E. destruct (down_at ch), ev; try done; cbv zeta iota beta in E; apply (inj Some) in E as <-;
    by repeat case_match.
Qed.

Lemma uploader_display t ev ch ch' b :
  uploader_step t ev ch = Some (ch', b) -> display_at ch' = display_at ch.
Proof. intros E%uploader_fixed. unfold fixed_part in E. simpl in E. congruence. Qed.

Lemma downloader_display t ok ev ch ch' b :
  downloader_step t ok ev ch = Some (ch', b) -> display_at ch' = display_at ch.
Proof. intros E%downloader_fixed. unfold fixed_part in E. simpl in E. congruence. Qed.

(** ** Properties *)

(** C8. Authentication before relaying: in every reachable state the source end
    of a channel is opened only if the destination end is; while the channel
    is started, the uploader relays only when both ends are opened, and the
    downloader only when the destination end is. *)
Theorem relay_needs_auth `{SessionStore D} cfg t (d : D) n w c ch :
  reach cfg t d n w -> channels w !! c = Some ch ->
  (_opened (_src_end ch) = true -> _opened (_dst_end ch) = true) /\
  (ch_started ch = true -> relaying (up_at ch) ->
     _opened (_src_end ch) = true /\ _opened (_dst_end ch) = true) /\
  (ch_started ch = true -> relaying (down_at ch) -> _opened (_dst_end ch) = true).
Proof. intros Hr Ec. destruct (reach_chan_ok cfg t d n w c ch Hr Ec). intuition. Qed.

(** The destination authenticates, then the source. *)
Definition opening : list event :=
  [EvUp 2 IoRun; EvDown 2 true IoRun;
   EvDown 2 true (IoRecv (mkEndpoint 3232235530 6000) (lit "hello")); EvDown 2 true (IoSend 5);
   EvUp 2 (IoRecv (mkEndpoint 3232235531 7000) (lit "world")); EvUp 2 (IoSend 5)].

Definition open_world : World CSessionDb := after opening channel_world.

Lemma reach_open : reach demo_cfg 0 (start (new_db [])) 14 open_world.
Proof. apply (reach_after (with_channel ++ opening)). vm_compute. reflexivity. Qed.

Lemma relay_needs_auth_witness :
  _opened (_src_end (channel_at 2 open_world)) = true /\
  _opened (_dst_end (channel_at 2 open_world)) = true.
Proof.
  assert (_opened (_src_end (channel_at 2 open_world)) = true) as Ho by (vm_compute; reflexivity).
  split; [exact Ho|].
  apply (proj1 (relay_needs_auth demo_cfg 0 (start (new_db [])) 14 open_world 2 (channel_at 2 open_world)
                  reach_open ltac:(vm_compute; reflexivity))). exact Ho.
Defined.

(** A channel that nothing refers to any more is not started: its destructor
    has nothing left to stop (and does not need [shared_from_this]). *)
Theorem dead_channel_is_off `{SessionStore D} cfg t (d : D) n w c ch :
  reach cfg t d n w -> channels w !! c = Some ch -> channel_unreferenced ch = true ->
  ch_started ch = false.
Proof.
  intros Hr Ec Hu. destruct (reach_chan_ok cfg t d n w c ch Hr Ec) as [_ Hup _ _ _].
  destruct (ch_started ch); [|done]. destruct (Hup eq_refl) as [N1 N2].
  unfold channel_unreferenced in Hu. rewrite !andb_true_iff in Hu.
  destruct Hu as [[[Hu _] _] _]. apply bool_decide_eq_true in Hu. intuition.
Qed.

(** The destination session breaks off; the channel is stopped and drains. *)
Definition closing : list event :=
  [EvRead 0 true [] [] demo_env; EvStopPost 2; EvUp 2 IoRecvErr; EvDown 2 true IoRecvErr].

Lemma dead_channel_is_off_witness : ch_started (channel_at 2 (after closing open_world)) = false.
Proof.
  apply (dead_channel_is_off demo_cfg 0 (start (new_db [])) 18 (after closing open_world) 2).
  - apply (reach_after (with_channel ++ opening ++ closing)). vm_compute. reflexivity.
  - vm_compute. reflexivity.
  - vm_compute. reflexivity.
Defined.

(** C22. Uploading: a datagram that fits the buffer and comes from the address of
    the source is sent on, unchanged and once, to the peer of the destination's
    socket, if that socket is open and connected and the datagram is longer
    than two bytes; nothing leaves a socket that is closed (by the expiry
    checker or with the channel) or not connected; shorter datagrams are
    heartbeats and only refresh the expiry time; the source's port is
    followed; datagrams from other addresses are dropped and no end sends
    anything. *)
Theorem upload_forwards t from data ch :
  up_at ch = CoRecv -> (0 < length data <= length (_buf (_src_end ch)))%nat ->
  exists ch', uploader_step t (IoRecv from data) ch = Some (ch', false) /\
    datagrams (_src_end ch') = datagrams (_src_end ch) /\
    if decide (ep_addr from = ep_addr (_remote_ep (_src_end ch))) then
      _remote_ep (_src_end ch') = from /\
      datagrams (_dst_end ch') =
        datagrams (_dst_end ch) ++
          (if sock_open (_dst_end ch) && (2 <? length data)%nat
           then (fun peer => (peer, data)) <$> option_list (sock_peer (_dst_end ch)) else [])
    else
      _remote_ep (_src_end ch') = _remote_ep (_src_end ch) /\
      datagrams (_dst_end ch') = datagrams (_dst_end ch).
Proof.
  intros Ep [Hp Hl]. unfold uploader_step. rewrite Ep. unfold upload_recv.
  rewrite receive_fits by done. cbv zeta iota beta.
  rewrite (proj2 (Nat.eqb_neq _ 0)) by lia. simpl.
  destruct (decide (ep_addr from = ep_addr (_remote_ep (_src_end ch)))) as [Ea|Ea].
  - rewrite bool_decide_eq_false_2 by naive_solver.
    set (src := if decide _ then _ else _).
    assert (_remote_ep src = from /\ datagrams src = datagrams (_src_end ch) /\
            _buf src = data ++ drop (length data) (_buf (_src_end ch))) as (R & Dg & B).
    { unfold src. destruct (decide (from = _remote_ep (_src_end ch))) as [->|]; [done|]. simpl.
      rewrite <-Ea. by destruct from. }
    clearbody src. destruct (updateTime_fields t src) as (B' & R' & D' & _).
    destruct (Nat.leb_spec (length data) 2) as [H2|H2].
    + rewrite (proj2 (Nat.ltb_ge _ _)) by lia. unfold upload_loop, goto_up. eexists. split; [done|].
      simpl. rewrite R', D', andb_false_r, app_nil_r. done.
    + rewrite (proj2 (Nat.ltb_lt _ _)) by lia. unfold goto_up. eexists. split; [done|].
      simpl. rewrite R', D', andb_true_r. split_and!; [done|done|]. unfold send, send_to.
      destruct (sock_open (_dst_end ch)), (sock_peer (_dst_end ch)); simpl; rewrite ?app_nil_r; try done.
      by rewrite B', B, take_app_length.
  - rewrite bool_decide_eq_true_2 by naive_solver.
    unfold upload_loop, goto_up. eexists. split; [done|]. done.
Qed.

Lemma upload_forwards_witness :
  exists ch', uploader_step 9 (IoRecv (mkEndpoint 3232235531 7001) (lit "data!")) (channel_at 2 open_world)
              = Some (ch', false) /\
    datagrams (_dst_end ch') =
      datagrams (_dst_end (channel_at 2 open_world)) ++ [(mkEndpoint 3232235530 6000, lit "data!")].
Proof.
  destruct (upload_forwards 9 (mkEndpoint 3232235531 7001) (lit "data!") (channel_at 2 open_world)
              ltac:(vm_compute; reflexivity) ltac:(vm_compute; lia)) as (ch' & E & _ & Hd).
  exists ch'. split; [exact E|]. exact (proj2 Hd).
Defined.

(** Downloading: a datagram from the connected destination that fits the
    buffer and is longer than two bytes is sent, unchanged and once, from the
    source end to the source's current endpoint, while the socket of the
    source end is open; shorter ones are heartbeats. *)
Theorem download_forwards t ok from data ch :
  down_at ch = CoRecv -> (0 < length data <= length (_buf (_dst_end ch)))%nat ->
  sock_open (_src_end ch) = true ->
  exists ch', downloader_step t ok (IoRecv from data) ch = Some (ch', false) /\
    datagrams (_dst_end ch') = datagrams (_dst_end ch) /\
    datagrams (_src_end ch') = datagrams (_src_end ch) ++
      (if (2 <? length data)%nat then [(_remote_ep (_src_end ch), data)] else []).
Proof.
  intros Ep [Hp Hl] Hop. unfold downloader_step. rewrite Ep. unfold download_recv.
  rewrite receive_fits by done. cbv zeta iota beta.
  rewrite (proj2 (Nat.eqb_neq _ 0)) by lia. simpl.
  match goal with |- context [updateTime t ?e] => destruct (updateTime_fields t e) as (B & _ & Dg & _) end.
  destruct (Nat.leb_spec (length data) 2) as [H2|H2].
  - rewrite (proj2 (Nat.ltb_ge _ _)) by lia. unfold download_loop, goto_down. eexists. split; [done|].
    simpl. by rewrite Dg, app_nil_r.
  - rewrite (proj2 (Nat.ltb_lt _ _)) by lia. unfold goto_down. eexists. split; [done|].
    simpl. unfold send_to. rewrite Hop. simpl. rewrite Dg, B. simpl. by rewrite take_app_length.
Qed.

Lemma download_forwards_witness :
  exists ch', downloader_step 9 true (IoRecv (mkEndpoint 3232235530 6000) (lit "reply")) (channel_at 2 open_world)
              = Some (ch', false) /\
    datagrams (_src_end ch') =
      datagrams (_src_end (channel_at 2 open_world)) ++ [(mkEndpoint 3232235531 7000, lit "reply")].
Proof.
  destruct (download_forwards 9 true (mkEndpoint 3232235530 6000) (lit "reply") (channel_at 2 open_world)
              ltac:(vm_compute; reflexivity) ltac:(vm_compute; lia) ltac:(vm_compute; reflexivity))
    as (ch' & E & _ & Hd).
  exists ch'. split; [exact E|exact Hd].
Defined.

(** The authentication echo of the source: whoever sends a first datagram
    becomes the source's endpoint and gets an answer of the same length: the
    datagram itself, with the end opened, when the destination is opened, and
    zero bytes, with the end still closed, when it is not. *)
Theorem source_auth_echo t from data ch :
  up_at ch = CoAuthRecv -> (0 < length data <= length (_buf (_src_end ch)))%nat ->
  _opened (_src_end ch) = false -> sock_open (_src_end ch) = true ->
  exists ch', uploader_step t (IoRecv from data) ch = Some (ch', false) /\
    up_at ch' = CoAuthSend /\ _remote_ep (_src_end ch') = from /\
    _opened (_src_end ch') = _opened (_dst_end ch) /\
    datagrams (_src_end ch') = datagrams (_src_end ch) ++
      [(from, if _opened (_dst_end ch) then data else replicate (length data) Init.Byte.x00)].
Proof.
  intros Ep [Hp Hl] Ho Hop. unfold uploader_step. rewrite Ep. unfold src_auth_recv.
  rewrite receive_fits by done. cbv zeta iota beta.
  rewrite (proj2 (Nat.eqb_neq _ 0)) by lia.
  set (src := updateTime t _).
  assert (_buf src = data ++ drop (length data) (_buf (_src_end ch)) /\ _remote_ep src = from /\
    datagrams src = datagrams (_src_end ch) /\ _opened src = false /\ sock_open src = true)
    as (B & R & Dg & O & Op).
  { unfold src. match goal with |- context [updateTime t ?e] =>
      destruct (updateTime_fields t e) as (-> & -> & -> & ->); rewrite (updateTime_opened t e) end. done. }
  clearbody src. unfold doAuth. rewrite (proj2 (Nat.ltb_lt 0 _)) by done.
  destruct (_opened (_dst_end ch)); simpl; eexists; (split; [done|]); unfold send_to; simpl; rewrite Op; simpl.
  - rewrite B, R, Dg, take_app_length. done.
  - rewrite R, Dg, O, take_replicate. split_and!; try done. do 4 f_equal.
    rewrite B, length_app, length_drop. lia.
Qed.

Lemma source_auth_echo_witness :
  exists ch', uploader_step 9 (IoRecv (mkEndpoint 1 2) (lit "early"))
                (channel_at 2 (after [EvUp 2 IoRun] channel_world)) = Some (ch', false) /\
    datagrams (_src_end ch') = [(mkEndpoint 1 2, replicate 5 Init.Byte.x00)].
Proof.
  destruct (source_auth_echo 9 (mkEndpoint 1 2) (lit "early") (channel_at 2 (after [EvUp 2 IoRun] channel_world))
              ltac:(vm_compute; reflexivity) ltac:(vm_compute; lia) ltac:(vm_compute; reflexivity)
              ltac:(vm_compute; reflexivity))
    as (ch' & E & _ & _ & _ & Hd).
  exists ch'. split; [exact E|exact Hd].
Defined.

(** C21. A stopped channel winds down: once [_started] is false every step of a
    coroutine brings the channel strictly closer to the end of all of them and
    does not restart it; as long as one is pending it can be resumed; and when
    none is pending and no [stop] is posted the channel is released.  So it is
    gone after at most [work_left] steps of its coroutines. *)
Theorem stopped_channel_drains ch :
  ch_started ch = false ->
  (forall t ev ch' b, uploader_step t ev ch = Some (ch', b) ->
     ch_started ch' = false /\ (work_left ch' < work_left ch)%nat) /\
  (forall t ok ev ch' b, downloader_step t ok ev ch = Some (ch', b) ->
     ch_started ch' = false /\ (work_left ch' < work_left ch)%nat) /\
  (forall ch', displayer_step ch = Some ch' ->
     ch_started ch' = false /\ (work_left ch' < work_left ch)%nat) /\
  ((0 < work_left ch)%nat ->
     (exists t ev res, uploader_step t ev ch = Some res) \/
     (exists t ok ev res, downloader_step t ok ev ch = Some res) \/
     (exists ch', displayer_step ch = Some ch')) /\
  (work_left ch = 0%nat -> stop_posts ch = 0%nat -> channel_unreferenced ch = true).
Proof.
  intros Est. unfold work_left. split_and!.
  - intros t ev ch' b E. pose proof (uploader_off _ _ _ _ _ Est E). apply uploader_display in E as Ed.
    apply uploader_effect in E as [_ U2 U3 _ _ _]. rewrite U2, U3, Ed. split; [done|lia].
  - intros t ok ev ch' b E. pose proof (downloader_off _ _ _ _ _ _ Est E).
    apply downloader_display in E as Ed.
    apply downloader_effect in E as [_ U2 U3 _ _ _]. rewrite U2, U3, Ed. split; [done|lia].
  - intros ch' E. unfold displayer_step in E. rewrite Est in E.
    destruct (display_at ch); simplify_eq/=; (split; [done|lia]).
  - intros Hw. unfold uploader_step, downloader_step, displayer_step.
    destruct (display_at ch); try (by right; right; eauto);
      (destruct (up_at ch); [simpl in Hw|by left; exists 0, IoRun; eauto
        |by left; exists 0, IoRecvErr; eauto|by left; exists 0, IoSendErr; eauto
        |by left; exists 0, IoRecvErr; eauto|by left; exists 0, IoSendErr; eauto|simpl in Hw]);
      right; left; exists 0, true;
      (destruct (down_at ch); [simpl in Hw; lia|by exists IoRun; eauto|by exists IoRecvErr; eauto
        |by exists IoSendErr; eauto|by exists IoRecvErr; eauto|by exists IoSendErr; eauto|simpl in Hw; lia]).
  - intros Hw Hp. unfold channel_unreferenced. rewrite Hp.
    destruct (up_at ch), (down_at ch), (display_at ch); simpl in Hw; try lia; reflexivity.
Qed.

Lemma stopped_channel_drains_witness :
  channel_unreferenced (channel_at 2 (after closing open_world)) = true.
Proof.
  apply (stopped_channel_drains (channel_at 2 (after closing open_world))); vm_compute; reflexivity.
Defined.

(** Port expiry: an expiry checker that runs closes its end and ends exactly
    when the end has been idle for at least the configured time or its timer
    failed; otherwise it leaves the end alone and waits again. *)
Theorem expiry_spec t failed pc e :
  sock_open e = true ->
  checker_step t failed pc e =
    if (_port_expired e <=? t - _endtime e) || (failed && bool_decide (pc = CheckWait))
    then (None, CEnd_stop e) else (Some CheckWait, e).
Proof.
  intros Hop. unfold checker_step, checker_loop.
  destruct pc, failed; rewrite ?andb_false_l, ?andb_true_l, ?orb_false_r, ?Hop;
    first [rewrite bool_decide_eq_true_2 by done | rewrite bool_decide_eq_false_2 by done | idtac];
    rewrite ?orb_true_r, ?orb_false_r; done.
Qed.

Lemma expiry_spec_witness :
  exists e', checker_step 30 false CheckInit (_src_end (channel_at 2 channel_world)) = (None, e') /\
    sock_open e' = false /\ _owner_ss e' = None.
Proof.
  exists (CEnd_stop (_src_end (channel_at 2 channel_world))). split; [|by split].
  rewrite (expiry_spec 30 false CheckInit (_src_end (channel_at 2 channel_world))) by (vm_compute; reflexivity).
  vm_compute. reflexivity.
Defined.

(** An expired end is forgotten before its session is told: when both ends of
    a channel have expired, [CChannel::stop()] sends no STOPPROXY and leaves
    the channel in the maps of both sessions. *)
Theorem expired_channel_unreported `{SessionStore D} (w : World D) c ch :
  channels w !! c = Some ch ->
  _owner_ss (_src_end ch) = None -> _owner_ss (_dst_end ch) = None ->
  sessions (CChannel_stop c w) = sessions w.
Proof.
  intros Ec O1 O2. unfold CChannel_stop. rewrite Ec, O1, O2. by destruct (ch_started ch).
Qed.

(** Both checkers find the ports idle for 30 seconds, then the uploader's
    receive fails and the channel stops. *)
Definition expiring : list event :=
  [EvClock 30; EvChecker 2 true false; EvChecker 2 false false; EvUp 2 IoRun; EvUp 2 IoRecvErr].

Lemma expired_channel_unreported_witness :
  sessions (CChannel_stop 2 (after (take 4 expiring) channel_world)) = sessions channel_world /\
  ch_started (channel_at 2 (after expiring channel_world)) = false /\
  _src_channels (session_at 1 (after expiring channel_world)) !! 1 = Some 2%nat.
Proof.
  split; [|by vm_compute].
  transitivity (sessions (after (take 4 expiring) channel_world)); [|vm_compute; reflexivity].
  apply (expired_channel_unreported (after (take 4 expiring) channel_world) 2
           (channel_at 2 (after (take 4 expiring) channel_world))); vm_compute; reflexivity.
Defined.

(** *** Releasing a stopped channel under its expiry checker *)

Section release.
Context `{SessionStore D}.
Implicit Types (w : World D) (ch : CChannel).

(** The events of the relay coroutines of a channel, of its posted [stop]s and
    of its release: no session, no clock and no expiry checker moves. *)
Definition relay_event (c : cref) (e : event) : Prop :=
  match e with
  | EvUp c' _ | EvDown c' _ _ | EvDisplay c' | EvStopPost c' | EvChannelGone c' => c' = c
  | _ => False
  end.

Lemma run_cons e es w w1 o w' :
  step e w = Some (Ok tt, w1) -> es <> [] -> run es w1 = Some (o, w') -> run (e :: es) w = Some (o, w').
Proof. intros E Hes R. simpl. rewrite E. by destruct es. Qed.

Lemma stop_off c ch w : channels w !! c = Some ch -> ch_started ch = false -> CChannel_stop c w = w.
Proof. intros Ec Hst. unfold CChannel_stop. by rewrite Ec, Hst. Qed.

Lemma apply_co_off c ch res w :
  channels w !! c = Some ch -> ch_started res.1 = false ->
  apply_co c res w = upd_channel c (fun _ => res.1) w.
Proof.
  intros Ec Hst. unfold apply_co. destruct res.2; [|done].
  apply (stop_off c res.1); [|done]. simpl. by rewrite lookup_alter_eq, Ec.
Qed.

(** One event of a stopped channel that is not released yet: it can be chosen
    so that less is left to do, and the checkers are as before. *)
Lemma stopped_channel_moves c ch w :
  channels w !! c = Some ch -> ch_started ch = false -> (0 < work_left ch + stop_posts ch)%nat ->
  exists e ch' w', relay_event c e /\ step e w = Some (Ok tt, w') /\ channels w' !! c = Some ch' /\
    ch_started ch' = false /\ (work_left ch' + stop_posts ch' < work_left ch + stop_posts ch)%nat /\
    checkers w' = checkers w.
Proof.
  intros Ec Hst Hw. destruct (decide (0 < co_left (up_at ch))%nat) as [Hu|Hu].
  { assert (exists ev res, uploader_step (now w) ev ch = Some res) as (ev & [ch' b] & E).
    { unfold uploader_step. destruct (up_at ch); simpl in Hu; try lia;
        [exists IoRun|exists IoRecvErr|exists IoSendErr|exists IoRecvErr|exists IoSendErr]; eauto. }
    pose proof (uploader_off _ _ _ _ _ Hst E) as Hlt. pose proof (uploader_fixed _ _ _ _ E) as F.
    pose proof (uploader_effect _ _ _ _ _ E) as [_ _ Hd _ _ _]. unfold fixed_part in F. simplify_eq/=.
    exists (EvUp c ev), ch', (upd_channel c (fun _ => ch') w). split_and!; try done.
    - simpl. unfold resume_up. rewrite Ec. simpl. rewrite E. simpl.
      rewrite (apply_co_off c ch) by (simpl; congruence). done.
    - simpl. by rewrite lookup_alter_eq, Ec.
    - congruence.
    - unfold work_left. repeat match goal with E : _ = _ |- _ => rewrite E end. lia. }
  destruct (decide (0 < co_left (down_at ch))%nat) as [Hd|Hd].
  { assert (exists ev res, downloader_step (now w) true ev ch = Some res) as (ev & [ch' b] & E).
    { unfold downloader_step. destruct (down_at ch); simpl in Hd; try lia;
        [exists IoRun|exists IoRecvErr|exists IoSendErr|exists IoRecvErr|exists IoSendErr]; eauto. }
    pose proof (downloader_off _ _ _ _ _ _ Hst E) as Hlt. pose proof (downloader_fixed _ _ _ _ _ E) as F.
    pose proof (downloader_effect _ _ _ _ _ _ E) as [_ _ Hup _ _ _]. unfold fixed_part in F. simplify_eq/=.
    exists (EvDown c true ev), ch', (upd_channel c (fun _ => ch') w). split_and!; try done.
    - simpl. unfold resume_down. rewrite Ec. simpl. rewrite E. simpl.
      rewrite (apply_co_off c ch) by (simpl; congruence). done.
    - simpl. by rewrite lookup_alter_eq, Ec.
    - congruence.
    - unfold work_left. repeat match goal with E : _ = _ |- _ => rewrite E end. lia. }
  destruct (decide (0 < display_left (display_at ch))%nat) as [Hp|Hp].
  { exists (EvDisplay c), (set_display_at DispDone ch), (upd_channel c (fun _ => set_display_at DispDone ch) w).
    split_and!; try done.
    - simpl. unfold resume_display, displayer_step. rewrite Ec. simpl. rewrite Hst.
      destruct (display_at ch); simpl in Hp; try lia; done.
    - simpl. by rewrite lookup_alter_eq, Ec.
    - unfold work_left. simpl. lia. }
  unfold work_left in Hw. destruct (stop_posts ch) as [|n] eqn:Es; [lia|].
  set (w1 := upd_channel c (set_stop_posts n) w).
  assert (channels w1 !! c = Some (set_stop_posts n ch)) as E1.
  { unfold w1. simpl. by rewrite lookup_alter_eq, Ec. }
  exists (EvStopPost c), (set_stop_posts n ch), w1. split_and!; try done.
  - simpl. unfold run_stop_post. rewrite Ec, Es. fold w1. by rewrite (stop_off c _ w1 E1).
  - unfold work_left. simpl. lia.
Qed.

Lemma stopped_channel_released c ch w :
  channels w !! c = Some ch -> ch_started ch = false ->
  exists es w', Forall (relay_event c) es /\ channels w' !! c = None /\ checkers w' = checkers w /\
    forall e o w'', step e w' = Some (o, w'') -> run (es ++ [e]) w = Some (o, w'').
Proof.
  remember (work_left ch + stop_posts ch)%nat as n eqn:Hn. revert ch w Hn.
  induction n as [n IH] using lt_wf_ind. intros ch w Hn Ec Hst.
  destruct (decide (0 < n)%nat) as [Hpos|Hz].
  - destruct (stopped_channel_moves c ch w Ec Hst ltac:(lia)) as (e & ch' & w1 & He & E & Ec1 & Hst1 & Hlt & K).
    destruct (IH (work_left ch' + stop_posts ch')%nat ltac:(lia) ch' w1 eq_refl Ec1 Hst1) as (es & w' & Hes & Hg & K' & Hrun).
    exists (e :: es), w'. split_and!; [by constructor|done|congruence|].
    intros e' o w'' E'. change ((e :: es) ++ [e']) with (e :: (es ++ [e'])).
    eapply run_cons; [exact E|by destruct es|eauto].
  - exists [EvChannelGone c], (CChannel_destroy c w).
    split_and!; [by repeat constructor|simpl; apply lookup_delete_eq|done|].
    intros e' o w'' E'. eapply run_cons; [|done|simpl in *; by rewrite E'].
    simpl. rewrite Ec. simpl. unfold channel_unreferenced, work_left in *.
    assert (stop_posts ch = 0)%nat as -> by lia.
    destruct (up_at ch), (down_at ch), (display_at ch); simpl in Hz, Hn; try lia; reflexivity.
Qed.
End release.

(** C37. The expiry checker does not keep its channel alive: from every state
    with a stopped channel one of whose expiry checkers has not ended (it
    sleeps 10 seconds at a time and [stop()] does not wake it), the events of
    the channel's own coroutines, its posted [stop]s and its release suffice
    to free it, and then the wake-up of the checker is a use after free. *)
Theorem checker_outlives_channel `{SessionStore D} (w : World D) c ch src pc failed :
  channels w !! c = Some ch -> ch_started ch = false -> checkers w !! (c, src) = Some pc ->
  exists es w', Forall (relay_event c) es /\
    run (es ++ [EvChecker c src failed]) w = Some (UB use_after_free, w').
Proof.
  intros Ec Hst Hpc. destruct (stopped_channel_released c ch w Ec Hst) as (es & w' & Hes & Hg & K & Hrun).
  exists es, w'. split; [done|]. apply Hrun. simpl. unfold resume_checker. by rewrite K, Hpc, Hg.
Qed.

(** The destination session breaks off and the channel is stopped; its source
    checker has not run again. *)
Lemma checker_outlives_channel_witness :
  exists es w', Forall (relay_event 2) es /\
    run (es ++ [EvChecker 2 true false]) (after (take 2 closing) open_world) = Some (UB use_after_free, w').
Proof.
  apply (checker_outlives_channel (after (take 2 closing) open_world) 2
           (channel_at 2 (after (take 2 closing) open_world)) true CheckInit false);
    vm_compute; reflexivity.
Defined.
