(* ===== verification/ChannelTyping.v ===== *)
(** * Types of channels

    The numbers and buffers of the channels of the running program: an
    invariant of the channel machine of [ChannelFacts.v], carried over to every
    reachable state. *)
From S2P Require Import Prelude Protocol SafeContainers SessionStore SessionDb World SessionOut Channel SessionMgr Session Server Scenario SessionMachine ChannelFacts.

Definition u64 (z : Z) : Prop := 0 <= z < 2 ^ 64.

(** The ends keep their buffers, the counters are [uint64_t], the interval is
    that of the configuration. *)
Record channel_typed (cfg : config) (ch : CChannel) : Prop := {
  ct_src : end_typed cfg (_src_end ch);
  ct_dst : end_typed cfg (_dst_end ch);
  ct_up : u64 (_up_bytes ch) /\ u64 (_up_packs ch);
  ct_down : u64 (_down_bytes ch) /\ u64 (_down_packs ch);
  ct_interval : _display_interval ch = channDisplayInterval cfg
}.

Section ends.
Context (cfg : config).
Implicit Types (e : CEnd) (ch : CChannel).

Lemma wrap_u64 z : u64 (wrap 64 z).
Proof. unfold u64, wrap. apply Z.mod_pos_bound. lia. Qed.

(** ** Operations on an end *)

Ltac end_case := intros []; split; simpl; auto.

Lemma updateTime_typed t e : end_typed cfg e -> end_typed cfg (updateTime t e).
Proof. unfold updateTime. case_match; [end_case|done]. Qed.
Lemma set_remote_typed v e : end_typed cfg e -> end_typed cfg (set_remote v e).
Proof. end_case. Qed.
Lemma set_opened_typed v e : end_typed cfg e -> end_typed cfg (set_opened v e).
Proof. end_case. Qed.
Lemma CEnd_stop_typed e : end_typed cfg e -> end_typed cfg (CEnd_stop e).
Proof. end_case. Qed.
Lemma zeroBuf_typed e : end_typed cfg e -> end_typed cfg (zeroBuf e).
Proof. intros []. split; simpl; rewrite ?length_replicate; auto. Qed.

Lemma receive_typed data e : end_typed cfg e -> end_typed cfg (receive data e).2.
Proof.
  intros []. split; simpl; auto. rewrite length_app, length_take, length_drop. lia.
Qed.

(** What is sent is a part of a buffer of an end of the same channel. *)
Lemma send_to_typed dest buf n e :
  length buf = channMTU cfg -> end_typed cfg e -> end_typed cfg (send_to dest buf n e).
Proof.
  intros Hl I. unfold send_to. case_match; [|done]. destruct I. split; simpl; auto. apply Forall_app. split; [done|]. apply Forall_singleton. simpl.
  rewrite length_take. lia.
Qed.

Lemma send_typed buf n e :
  length buf = channMTU cfg -> end_typed cfg e -> end_typed cfg (send buf n e).
Proof. unfold send. case_match; [apply send_to_typed|done]. Qed.

Lemma dst_connect_typed ok e : end_typed cfg e -> end_typed cfg (dst_connect ok e).
Proof. unfold dst_connect. destruct ok; end_case. Qed.

Lemma checker_step_typed t failed pc e : end_typed cfg e -> end_typed cfg (checker_step t failed pc e).2.
Proof. intros I. unfold checker_step, checker_loop. repeat case_match; simpl; auto using CEnd_stop_typed. Qed.

(** ** The coroutines *)

Lemma src_typed e ch : end_typed cfg e -> channel_typed cfg ch -> channel_typed cfg (set_src_end e ch).
Proof. intros ? []. by split. Qed.
Lemma dst_typed e ch : end_typed cfg e -> channel_typed cfg ch -> channel_typed cfg (set_dst_end e ch).
Proof. intros ? []. by split. Qed.
Lemma up_at_typed v ch : channel_typed cfg ch -> channel_typed cfg (set_up_at v ch).
Proof. intros []. by split. Qed.
Lemma down_at_typed v ch : channel_typed cfg ch -> channel_typed cfg (set_down_at v ch).
Proof. intros []. by split. Qed.
Lemma up_count_typed b p ch :
  channel_typed cfg ch -> channel_typed cfg (set_up_count (wrap 64 b) (wrap 64 p) ch).
Proof. intros []. split; simpl; auto using wrap_u64. Qed.
Lemma down_count_typed b p ch :
  channel_typed cfg ch -> channel_typed cfg (set_down_count (wrap 64 b) (wrap 64 p) ch).
Proof. intros []. split; simpl; auto using wrap_u64. Qed.
End ends.

Create HintDb typed.
#[export] Hint Resolve updateTime_typed set_remote_typed set_opened_typed
  CEnd_stop_typed zeroBuf_typed send_to_typed send_typed dst_connect_typed src_typed dst_typed
  up_at_typed down_at_typed up_count_typed down_count_typed ct_src ct_dst et_buf : typed.

Section channels.
Context (cfg : config).
Implicit Types (ch : CChannel).

Lemma srcAuth_loop_typed ch : channel_typed cfg ch -> channel_typed cfg (srcAuth_loop ch).1.
Proof. intros I. unfold srcAuth_loop, upload_loop, goto_up. case_match; simpl; auto with typed. Qed.
Lemma upload_loop_typed ch : channel_typed cfg ch -> channel_typed cfg (upload_loop ch).1.
Proof. intros I. unfold upload_loop, goto_up. simpl; auto with typed. Qed.
Lemma dstAuth_loop_typed ok ch : channel_typed cfg ch -> channel_typed cfg (dstAuth_loop ok ch).1.
Proof.
  intros I. unfold dstAuth_loop, download_loop, goto_down. case_match; simpl; auto with typed.
Qed.
Lemma download_loop_typed ch : channel_typed cfg ch -> channel_typed cfg (download_loop ch).1.
Proof. intros I. unfold download_loop, goto_down. simpl; auto with typed. Qed.

Lemma up_failed_typed e loop ch :
  (channel_typed cfg ch -> channel_typed cfg (loop ch).1) -> channel_typed cfg ch ->
  channel_typed cfg (up_failed e loop ch).1.
Proof. intros Hl I. unfold up_failed. case_match; simpl; auto with typed. Qed.
Lemma down_failed_typed e loop ch :
  (channel_typed cfg ch -> channel_typed cfg (loop ch).1) -> channel_typed cfg ch ->
  channel_typed cfg (down_failed e loop ch).1.
Proof. intros Hl I. unfold down_failed. case_match; simpl; auto with typed. Qed.
End channels.
#[export] Hint Resolve srcAuth_loop_typed upload_loop_typed dstAuth_loop_typed download_loop_typed
  up_failed_typed down_failed_typed : typed.

Section steps.
Context (cfg : config).
Implicit Types (ch : CChannel).

(** Opens what [receive] leaves in the end. *)
Ltac after_receive data e :=
  let Hr := fresh "Hr" in
  assert (end_typed cfg (receive data e).2) as Hr by (apply receive_typed; auto with typed);
  destruct (receive data e) as [? ?]; simpl in Hr.

Lemma if_typed {A B : Prop} (d : {A} + {B}) e1 e2 :
  end_typed cfg e1 -> end_typed cfg e2 -> end_typed cfg (if d then e1 else e2).
Proof. by destruct d. Qed.

Lemma src_auth_recv_typed t from data ch :
  channel_typed cfg ch -> channel_typed cfg (src_auth_recv t from data ch).1.
Proof.
  intros I. unfold src_auth_recv. after_receive data (set_remote from (_src_end ch)).
  case_match; [auto with typed|]. unfold goto_up. simpl.
  apply up_at_typed, src_typed; [|done]. case_match; apply send_to_typed; auto 6 with typed.
Qed.

Lemma dst_auth_recv_typed t from data ch loop :
  (forall ch, channel_typed cfg ch -> channel_typed cfg (loop ch).1) ->
  channel_typed cfg ch -> channel_typed cfg (dst_auth_recv t from data ch loop).1.
Proof.
  intros Hl I. unfold dst_auth_recv. after_receive data (set_remote from (_dst_end ch)).
  case_match; [auto with typed|]. unfold goto_down. simpl.
  apply down_at_typed, dst_typed; [|done]. case_match; apply send_to_typed; auto 6 with typed.
Qed.

Lemma upload_recv_typed t from data ch :
  channel_typed cfg ch -> channel_typed cfg (upload_recv t from data ch).1.
Proof.
  intros I. unfold upload_recv. after_receive data (_src_end ch).
  case_match; [auto with typed|]. case_match; [auto with typed|].
  match goal with |- context [updateTime t ?x] =>
    assert (end_typed cfg (updateTime t x)) as Hs by (apply updateTime_typed, if_typed; auto with typed);
    generalize dependent (updateTime t x)
  end.
  intros src Hs. simpl.
  case_match; [auto with typed|]. unfold goto_up. simpl. auto 6 with typed.
Qed.

Lemma download_recv_typed t data ch :
  channel_typed cfg ch -> channel_typed cfg (download_recv t data ch).1.
Proof.
  intros I. unfold download_recv. after_receive data (_dst_end ch).
  case_match; [auto with typed|]. case_match; [auto with typed|].
  unfold goto_down. simpl. auto 7 with typed.
Qed.

Lemma uploader_typed t ev ch res :
  uploader_step t ev ch = Some res -> channel_typed cfg ch -> channel_typed cfg res.1.
Proof.
  unfold uploader_step. intros E I.
  destruct (up_at ch), ev; try done; injection E as <-;
    auto using src_auth_recv_typed, upload_recv_typed with typed;
    unfold src_auth_send, upload_send; cbv zeta; case_match; auto 6 with typed.
Qed.

Lemma downloader_typed t ok ev ch res :
  downloader_step t ok ev ch = Some res -> channel_typed cfg ch -> channel_typed cfg res.1.
Proof.
  unfold downloader_step. intros E I.
  destruct (down_at ch), ev; try done; injection E as <-;
    auto using dst_auth_recv_typed, download_recv_typed, dstAuth_loop_typed with typed;
    unfold dst_auth_send, download_send; cbv zeta; case_match; auto 6 with typed.
Qed.

Lemma stop_of_typed ch : channel_typed cfg ch -> channel_typed cfg (stop_of ch).
Proof.
  intros I. unfold stop_of. case_match; [|done]. pose proof (ct_src _ _ I). pose proof (ct_dst _ _ I).
  destruct I. split; simpl; auto with typed.
Qed.

Lemma channel_typed_step ch ch' : chan_step ch ch' -> channel_typed cfg ch -> channel_typed cfg ch'.
Proof.
  intros Hs I.
  destruct Hs as [t ev ch ch' b Hu|t ok ev ch ch' b Hd|ch ch' Hp|t f pc ch|t f pc ch|n ch|ch].
  - apply uploader_typed in Hu; [|done]. destruct b; auto using stop_of_typed.
  - apply downloader_typed in Hd; [|done]. destruct b; auto using stop_of_typed.
  - unfold displayer_step in Hp. destruct I, (display_at ch); simplify_eq/=; by split.
  - apply src_typed; [|done]. apply checker_step_typed. auto with typed.
  - apply dst_typed; [|done]. apply checker_step_typed. auto with typed.
  - destruct I. by split.
  - by apply stop_of_typed.
Qed.

Lemma start_typed ch : unstarted cfg ch -> channel_typed cfg (start_channel ch).
Proof.
  intros [_ _ _ [? ?] ? _ (E1 & E2 & E3 & E4)]. unfold start_channel.
  repeat case_match; split; simpl; rewrite ?E1, ?E2, ?E3, ?E4; done.
Qed.
End steps.

(** ** Property *)

(** C32. Every channel of the running program keeps its buffers at the configured
    size [channMTU], and hence no datagram that an end has ever sent is longer;
    its four traffic counters stay in the range of [uint64_t]; its display
    interval and the expiry of its ends are those of the configuration, and so
    in the range of [uint32_t] when the configuration's are. *)
Theorem channels_well_typed `{SessionStore D} cfg t (d : D) n w c ch :
  u32 (channPortExpired cfg) -> u32 (channDisplayInterval cfg) ->
  reach cfg t d n w -> channels w !! c = Some ch ->
  channel_typed cfg ch /\ u32 (_display_interval ch) /\
  u32 (_port_expired (_src_end ch)) /\ u32 (_port_expired (_dst_end ch)).
Proof.
  intros Hp Hi Hr Ec.
  enough (channel_typed cfg ch) as I.
  { split; [done|]. destruct I as [[_ -> _] [_ -> _] _ _ ->]. done. }
  exact (reach_channel_inv cfg (channel_typed cfg) (channel_typed_step cfg) (start_typed cfg)
           t d n w Hr c ch Ec).
Qed.

Lemma channels_well_typed_witness : channel_typed demo_cfg (channel_at 2 channel_world).
Proof.
  apply (channels_well_typed demo_cfg 0 (start (new_db [])) 8 channel_world 2
           (channel_at 2 channel_world)); [vm_compute; intuition congruence..|exact reach_channel|].
  vm_compute. reflexivity.
Defined.
