(* ===== verification/Displayer.v ===== *)
(** * The traffic display of a channel

    Models what the coroutine [CChannel::displayer] of
    [src/net/CChannel.cpp] logs: its four local variables hold the counters as
    of the last report, and each turn prints the traffic since then.  Its life
    cycle is [displayer_step] of [Channel.v]. *)
From S2P Require Import Prelude Util Protocol SafeContainers SessionStore SessionDb World SessionOut Channel SessionMgr Session Server Scenario ChannelFacts ChannelTyping.

(** ** One turn *)

Record prevs := Prevs {
  up_bytes_prev : Z; (* uint64_t *)
  down_bytes_prev : Z;
  up_packs_prev : Z;
  down_packs_prev : Z
}.
Definition no_prevs : prevs := Prevs 0 0 0 0.

(** The counters of a channel. *)
Definition counters (ch : CChannel) : prevs :=
  Prevs (_up_bytes ch) (_down_bytes ch) (_up_packs ch) (_down_packs ch).

(** What a line reports: the differences, unsigned 64-bit. *)
Record traffic := Traffic { tx_bytes : Z; rx_bytes : Z; tx_packs : Z; rx_packs : Z }.
Definition since (now prev : prevs) : traffic :=
  Traffic (wrap 64 (up_bytes_prev now - up_bytes_prev prev))
          (wrap 64 (down_bytes_prev now - down_bytes_prev prev))
          (wrap 64 (up_packs_prev now - up_packs_prev prev))
          (wrap 64 (down_packs_prev now - down_packs_prev prev)).

(** The numbers of the line, for the interval in seconds. *)
Definition display_line (interval : Z) (now prev : prevs) : bytes :=
  let t := since now prev in
  lit "Tx(" ++ formatBytes (tx_bytes t / interval) ++ lit "ps/" ++ to_string (tx_packs t / interval) ++
  lit " pps) {" ++ formatBytes (up_bytes_prev now) ++ lit ", " ++ to_string (up_packs_prev now) ++
  lit " p} | Rx(" ++ formatBytes (rx_bytes t / interval) ++ lit "ps/" ++ to_string (rx_packs t / interval) ++
  lit " pps) {" ++ formatBytes (down_bytes_prev now) ++ lit ", " ++ to_string (down_packs_prev now) ++
  lit " p}".

(** A turn after the wait for the timer, which reports [ec]: what is logged,
    and the variables. *)
Definition display_turn (ec : bool) (now prev : prevs) : option traffic * prevs :=
  if ec then (None, prev)
  else if (up_packs_prev now =? up_packs_prev prev) && (down_packs_prev now =? down_packs_prev prev)
  then (None, prev)
  else (Some (since now prev), now).

(** The turns one after the other. *)
Fixpoint display_run (samples : list (bool * prevs)) (prev : prevs) : list traffic * prevs :=
  match samples with
  | [] => ([], prev)
  | (ec, now) :: samples =>
      let '(t, prev) := display_turn ec now prev in
      let '(ts, prev) := display_run samples prev in
      (match t with Some t => t :: ts | None => ts end, prev)
  end.

(** ** The display runs only with an interval *)

Definition display_ok (cfg : config) (ch : CChannel) : Prop :=
  channel_typed cfg ch /\ (display_at ch <> DispNone -> 0 < channDisplayInterval cfg).

Lemma stop_of_display ch : display_at (stop_of ch) = display_at ch.
Proof. unfold stop_of. by case_match. Qed.

Lemma display_ok_step cfg ch ch' : chan_step ch ch' -> display_ok cfg ch -> display_ok cfg ch'.
Proof.
  intros Hs [Ht Hd]. split; [by eapply channel_typed_step|].
  destruct Hs as [t ev ch ch' b Hu|t ok ev ch ch' b Hu|ch ch' Hp|t f pc ch|t f pc ch|n ch|ch]; simpl; auto.
  - apply uploader_display in Hu. destruct b; rewrite ?stop_of_display; by rewrite Hu.
  - apply downloader_display in Hu. destruct b; rewrite ?stop_of_display; by rewrite Hu.
  - unfold displayer_step in Hp. intros _. apply Hd. intros E. by rewrite E in Hp.
  - by rewrite stop_of_display.
Qed.

Lemma display_ok_start cfg ch : unstarted cfg ch -> display_ok cfg (start_channel ch).
Proof.
  intros Hu. split; [by apply start_typed|]. unfold start_channel. rewrite (us_started _ _ Hu). simpl.
  rewrite (us_interval _ _ Hu). case_cond; simpl; [by bool_to_Z|]. by rewrite (us_display _ _ Hu).
Qed.

(** ** Accounting

    [true_at] relates the counters to the true totals, which are unbounded. *)
Record totals := Totals { t_tx : Z; t_rx : Z; t_txp : Z; t_rxp : Z }.

Definition wrapped (t : totals) : prevs :=
  Prevs (wrap 64 (t_tx t)) (wrap 64 (t_rx t)) (wrap 64 (t_txp t)) (wrap 64 (t_rxp t)).

(** Less than 2^64 more, in every component. *)
Definition later (t t' : totals) : Prop :=
  0 <= t_tx t' - t_tx t < 2 ^ 64 /\ 0 <= t_rx t' - t_rx t < 2 ^ 64 /\
  0 <= t_txp t' - t_txp t < 2 ^ 64 /\ 0 <= t_rxp t' - t_rxp t < 2 ^ 64.

(** The sum of what was reported. *)
Definition sum_by (f : traffic -> Z) (l : list traffic) : Z := foldr (fun t z => f t + z) 0 l.

Lemma wrap_sub a b : 0 <= a - b < 2 ^ 64 -> wrap 64 (wrap 64 a - wrap 64 b) = a - b.
Proof. intros H. unfold wrap. rewrite <-Zminus_mod. by apply Z.mod_small. Qed.

Lemma wrap_eq a b : 0 <= a - b < 2 ^ 64 -> wrap 64 a = wrap 64 b -> a = b.
Proof.
  intros H E. pose proof (wrap_sub a b H) as Hs. rewrite E, Z.sub_diag in Hs. unfold wrap in Hs.
  rewrite Z.mod_0_l in Hs by lia. lia.
Qed.

Lemma since_wrapped t t' :
  later t t' -> since (wrapped t') (wrapped t) =
    Traffic (t_tx t' - t_tx t) (t_rx t' - t_rx t) (t_txp t' - t_txp t) (t_rxp t' - t_rxp t).
Proof. intros (H1 & H2 & H3 & H4). unfold since. simpl. by rewrite !wrap_sub. Qed.

(** Every sample is later than the start and than the samples before it. *)
Fixpoint increasing (t : totals) (samples : list (bool * totals)) : Prop :=
  match samples with
  | [] => True
  | (_, t') :: samples => Forall (fun s => later t s.2) ((false, t') :: samples) /\ increasing t' samples
  end.

Lemma increasing_head t ec t' samples :
  increasing t ((ec, t') :: samples) -> later t t' /\ increasing t samples /\ increasing t' samples.
Proof.
  intros [Hf Hi]. apply Forall_cons in Hf as [H1 Hf]. split; [done|]. split; [|done].
  destruct samples as [|[ec2 t2] samples]; [done|]. destruct Hi as [_ Hi]. split; [|done].
  apply Forall_cons in Hf as [H2 Hf]. by apply Forall_cons.
Qed.

(** ** Properties *)

(** The display neither loses nor repeats traffic: over any sequence of
    turns, with timer errors and idle intervals in between and whether or not
    the 64-bit counters wrap around, the differences reported add up exactly to
    the traffic from the start to the last report, in bytes and packets and in
    both directions; and when the last turn saw no timer error, all packets so
    far are accounted for. *)
Theorem display_accounts samples t0 :
  increasing t0 samples ->
  let '(reports, prev) := display_run (prod_map id wrapped <$> samples) (wrapped t0) in
  exists t, prev = wrapped t /\
    sum_by tx_bytes reports = t_tx t - t_tx t0 /\ sum_by rx_bytes reports = t_rx t - t_rx t0 /\
    sum_by tx_packs reports = t_txp t - t_txp t0 /\ sum_by rx_packs reports = t_rxp t - t_rxp t0 /\
    (forall t', last samples = Some (false, t') -> t_txp t' = t_txp t /\ t_rxp t' = t_rxp t).
Proof.
  revert t0. induction samples as [|[ec t1] samples IH]; intros t0 Hi.
  - exists t0. simpl. split_and!; [done|lia..|done].
  - destruct (increasing_head _ _ _ _ Hi) as (Hl & Hi0 & Hi1).
    rewrite fmap_cons. cbn [display_run prod_map fst snd id].
    assert (display_turn ec (wrapped t1) (wrapped t0) = (None, wrapped t0) /\
              (ec = false -> t_txp t1 = t_txp t0 /\ t_rxp t1 = t_rxp t0) \/
            display_turn ec (wrapped t1) (wrapped t0) = (Some (since (wrapped t1) (wrapped t0)), wrapped t1))
      as [[-> He]| ->].
    { unfold display_turn. destruct ec; [by left|]. case_cond; [|by right]. left. split; [done|].
      intros _. destruct Hl as (_ & _ & H3 & H4). simpl in *. bool_to_Z.
      split; apply wrap_eq; tauto. }
    + specialize (IH t0 Hi0). destruct (display_run _ (wrapped t0)) as [reports prev] eqn:Er.
      destruct IH as (t & -> & S1 & S2 & S3 & S4 & Hlast). exists t. split_and!; try done.
      intros t' Ht'. destruct samples as [|x samples]; [|by apply Hlast].
      simpl in Ht', Er. injection Ht' as -> <-. injection Er as <- _. simpl in S3, S4.
      destruct (He eq_refl). lia.
    + specialize (IH t1 Hi1). destruct (display_run _ (wrapped t1)) as [reports prev] eqn:Er.
      destruct IH as (t & -> & S1 & S2 & S3 & S4 & Hlast). exists t. rewrite (since_wrapped _ _ Hl).
      simpl. split_and!; [done|lia..|].
      intros t' Ht'. destruct samples as [|x samples]; [|by apply Hlast].
      simpl in Ht', Er. injection Ht' as _ <-. injection Er as <- _. simpl in S3, S4. lia.
Qed.

Definition demo_totals (n : Z) : totals := Totals (100 * n) (7 * n) n (2 * n).

(** The counters wrap around between the first two samples; the second wait
    fails; nothing happens before the last one. *)
Definition demo_samples : list (bool * totals) :=
  [(false, demo_totals (2 ^ 60 + 3)); (true, demo_totals (2 ^ 60 + 4)); (false, demo_totals (2 ^ 60 + 9));
   (false, demo_totals (2 ^ 60 + 9))].

Example demo_reports :
  (display_run (prod_map id wrapped <$> demo_samples) (wrapped (demo_totals (2 ^ 60)))).1 =
  [Traffic 300 21 3 6; Traffic 600 42 6 12].
Proof. vm_compute. reflexivity. Qed.

Lemma display_accounts_witness :
  exists t, (display_run (prod_map id wrapped <$> demo_samples) (wrapped (demo_totals (2 ^ 60)))).2 = wrapped t /\
    t_txp t = 2 ^ 60 + 9.
Proof.
  assert (increasing (demo_totals (2 ^ 60)) demo_samples) as Hi.
  { unfold demo_samples, increasing. rewrite !Forall_cons, !Forall_nil. unfold later, demo_totals. simpl. lia. }
  pose proof (display_accounts demo_samples (demo_totals (2 ^ 60)) Hi) as H.
  destruct (display_run _ _) as [reports prev]. destruct H as (t & Hp & _ & _ & _ & _ & Hl).
  exists t. split; [exact Hp|]. destruct (Hl (demo_totals (2 ^ 60 + 9)) eq_refl) as [E _]. exact (eq_sym E).
Defined.

(** The rates are quotients by an interval that is never zero: a channel
    whose displayer exists in the running program has a positive interval, so
    no turn divides by zero. *)
Theorem display_interval_positive `{SessionStore D} cfg t (d : D) n w c ch ch' :
  reach cfg t d n w -> channels w !! c = Some ch -> displayer_step ch = Some ch' ->
  0 < _display_interval ch.
Proof.
  intros Hr Ec Es.
  destruct (reach_channel_inv cfg (display_ok cfg) (display_ok_step cfg) (display_ok_start cfg)
              t d n w Hr c ch Ec) as [Ht Hd].
  rewrite (ct_interval _ _ Ht). apply Hd. intros E. unfold displayer_step in Es. by rewrite E in Es.
Qed.

(** A server that displays the traffic every 5 seconds. *)
Definition display_cfg : config :=
  {| maxSessions := 10; freeSessionExpired := 30; channMTU := 8; channPortExpired := 0;
     channDisplayInterval := 5 |}.
Definition display_init : World CSessionDb := initial display_cfg 0 (start (new_db [])).
Definition display_world : World CSessionDb := after with_channel display_init.

Lemma display_interval_positive_witness : 0 < _display_interval (channel_at 2 display_world).
Proof.
  apply (display_interval_positive display_cfg 0 (start (new_db [])) (length with_channel) display_world 2
           (channel_at 2 display_world) (set_display_at DispWait (channel_at 2 display_world))).
  - eapply (run_reach display_cfg 0 _ 0 display_init with_channel); [exact (reach_init _ _ _)|vm_compute; reflexivity|reflexivity].
  - vm_compute. reflexivity.
  - vm_compute. reflexivity.
Defined.
