(* ===== verification/Shutdown.v ===== *)
(** * Destruction of the sessions and channels at shutdown

    [CServer::stop] ends in [exit(0)], but before that [CIoContextPool::stop]
    destroys the contexts, and a context that is destroyed destroys the handlers
    it holds.  These handlers (outstanding operations, posted calls, suspended
    coroutines) own the sessions and channels, which point at each other weakly
    only; so every session and channel of the heap is destroyed there, in an
    order that depends on the contexts and is an argument here.

    [Startup.v] has the stop of the server's own members and [PoolRun.v] the
    threads that are still inside [run()] when the contexts are destroyed; this
    file is about the destructors themselves, with no other thread at work on
    the objects.  What becomes of an exception that leaves a destructor depends
    on the dialect the program is compiled for and is left open. *)
From S2P Require Import Prelude Protocol SafeContainers SessionStore SessionDb World SessionOut Channel SessionMgr Session Server Scenario Registry SessionMachine Refinement.

(** ** Destruction *)

Inductive object := ASession (r : sref) | AChannel (c : cref).

#[export] Instance object_eq_decision : EqDecision object.
Proof. solve_decision. Defined.

(** An element occurs only once. *)
Lemma nodup_split {A} (x : A) l1 l2 m1 m2 : NoDup (m1 ++ x :: m2) -> m1 ++ x :: m2 = l1 ++ x :: l2 -> m1 = l1.
Proof.
  revert l1. induction m1 as [|y m1 IH]; intros [|z l1] Hn E; simpl in *; [done|..];
    apply NoDup_cons in Hn as [Hx Hn]; injection E; intros; subst.
  - set_solver.
  - set_solver.
  - f_equal. by apply IH.
Qed.

Section shutdown.
Context {D : Type} `{SessionStore D}.
Implicit Types (w : World D) (x : object).

Definition owner_lives (e : CEnd) w : bool := if lock_session (_owner_ss e) w is Some _ then true else false.

(** [~CChannel()]: for a channel that is still started, [stop()] calls
    [shared_from_this()], which throws, if one of its sessions is there. *)
Definition release_channel (c : cref) : M D unit := fun w =>
  match channels w !! c with
  | None => (Ok tt, w)
  | Some ch =>
      if ch_started ch && (owner_lives (_src_end ch) w || owner_lives (_dst_end ch) w)
      then (Throw bad_weak_ptr, upd_channel c (set_ch_started false) w)
      else let w := CChannel_stop c w in (Ok tt, set_channels (delete c (channels w)) w)
  end.

Definition release x : M D unit :=
  match x with ASession r => CSession_destroy r | AChannel c => release_channel c end.

(** [_io_contexts.clear()] as far as these objects go; [Throw] when an exception
    leaves a destructor. *)
Fixpoint release_all (l : list object) : M D unit :=
  match l with [] => mret tt | x :: l => _ ← release x; release_all l end.

(** All objects, each once. *)
Definition covers (order : list object) w : Prop :=
  NoDup order /\ (forall r, ASession r ∈ order <-> is_Some (sessions w !! r)) /\
  (forall c, AChannel c ∈ order <-> is_Some (channels w !! c)).

(** ** Lemmas *)

(** [x] is destroyed without an exception. *)
Definition harmless x w : bool :=
  match x with
  | ASession r => if sessions w !! r is Some s then negb (World._started s) else true
  | AChannel c =>
      if channels w !! c is Some ch
      then negb (ch_started ch && (owner_lives (_src_end ch) w || owner_lives (_dst_end ch) w)) else true
  end.

Definition without_object w x : World D :=
  match x with
  | ASession r => set_sessions (delete r (sessions w)) w
  | AChannel c => set_channels (delete c (channels w)) w
  end.

Lemma set_channels_self w : set_channels (channels w) w = w.
Proof. by destruct w. Qed.
Lemma set_sessions_self w : set_sessions (sessions w) w = w.
Proof. by destruct w. Qed.

Lemma stop_orphan c w ch :
  channels w !! c = Some ch -> harmless (AChannel c) w = true ->
  set_channels (delete c (channels (CChannel_stop c w))) (CChannel_stop c w) = without_object w (AChannel c).
Proof.
  intros Ec Hh. unfold harmless in Hh. unfold CChannel_stop. rewrite Ec in *.
  destruct (ch_started ch); [|done]. simpl in Hh. unfold owner_lives in Hh.
  assert (forall o, lock_session o (upd_channel c (set_ch_started false) w) = lock_session o w) as Hl by done.
  rewrite !Hl.
  destruct (lock_session (_owner_ss (_src_end ch)) w); [done|].
  rewrite Hl. destruct (lock_session (_owner_ss (_dst_end ch)) w); [done|].
  unfold upd_channel. cbn -[delete alter]. by rewrite !delete_alter_eq.
Qed.

Lemma release_spec x w :
  if harmless x w then release x w = (Ok tt, without_object w x) else (release x w).1 = Throw bad_weak_ptr.
Proof.
  destruct x as [r|c].
  - unfold harmless, release, CSession_destroy, without_object.
    destruct (sessions w !! r) as [s|] eqn:E; [by destruct (World._started s)|].
    by rewrite delete_id, set_sessions_self.
  - destruct (harmless (AChannel c) w) eqn:Hh; unfold release, release_channel;
      destruct (channels w !! c) as [ch|] eqn:E.
    + pose proof (stop_orphan c w ch E Hh) as <-. unfold harmless in Hh. rewrite E in Hh.
      apply negb_true_iff in Hh. by rewrite Hh.
    + unfold without_object. by rewrite delete_id, set_channels_self.
    + unfold harmless in Hh. rewrite E in Hh. apply negb_false_iff in Hh. by rewrite Hh.
    + unfold harmless in Hh. by rewrite E in Hh.
Qed.

Fixpoint all_harmless (l : list object) w : bool :=
  match l with [] => true | x :: l => harmless x w && all_harmless l (without_object w x) end.

Lemma release_all_spec l w :
  if all_harmless l w then release_all l w = (Ok tt, foldl without_object w l)
  else (release_all l w).1 = Throw bad_weak_ptr.
Proof.
  revert w. induction l as [|x l IH]; intros w; [done|]. simpl. unfold mbind, M_bind.
  pose proof (release_spec x w) as Hx. destruct (harmless x w); simpl.
  - rewrite Hx. apply IH.
  - destruct (release x w) as [o w']. simpl in Hx. by subst.
Qed.

Lemma all_harmless_at l w :
  all_harmless l w = true <->
  forall l1 x l2, l = l1 ++ x :: l2 -> harmless x (foldl without_object w l1) = true.
Proof.
  revert w. induction l as [|x l IH]; intros w; simpl.
  - split; [|done]. by intros _ [].
  - rewrite andb_true_iff, IH. split.
    + intros [Hx Hl] [|y l1] z l2 [= -> ->]; [done|]. by apply (Hl l1 z l2).
    + intros Hall. split; [by apply (Hall [] x l)|]. intros l1 y l2 ->. by apply (Hall (x :: l1) y l2).
Qed.

Lemma lookup_sessions_without l w r :
  sessions (foldl without_object w l) !! r = if decide (ASession r ∈ l) then None else sessions w !! r.
Proof.
  induction l as [|x l IH] using rev_ind; [done|]. rewrite foldl_snoc.
  destruct x as [r'|c]; simpl.
  - destruct (decide (r' = r)) as [->|Hne].
    + rewrite lookup_delete_eq, decide_True by set_solver. done.
    + rewrite lookup_delete_ne, IH by done. apply decide_ext. set_solver.
  - rewrite IH. apply decide_ext. set_solver.
Qed.

Lemma lookup_channels_without l w c :
  channels (foldl without_object w l) !! c = if decide (AChannel c ∈ l) then None else channels w !! c.
Proof.
  induction l as [|x l IH] using rev_ind; [done|]. rewrite foldl_snoc.
  destruct x as [r|c']; simpl.
  - rewrite IH. apply decide_ext. set_solver.
  - destruct (decide (c' = c)) as [->|Hne].
    + rewrite lookup_delete_eq, decide_True by set_solver. done.
    + rewrite lookup_delete_ne, IH by done. apply decide_ext. set_solver.
Qed.

(** No session is started, and a channel that is started outlives those of its
    two sessions that are still there. *)
Definition clean (order : list object) w : Prop :=
  (forall r s, sessions w !! r = Some s -> World._started s = false) /\
  (forall c ch e r, channels w !! c = Some ch -> ch_started ch = true -> e ∈ [_src_end ch; _dst_end ch] ->
     _owner_ss e = Some r -> is_Some (sessions w !! r) ->
     exists l1 l2, order = l1 ++ AChannel c :: l2 /\ ASession r ∈ l1).

Lemma owner_lives_spec e w : owner_lives e w = true <-> exists r, _owner_ss e = Some r /\ is_Some (sessions w !! r).
Proof.
  unfold owner_lives, lock_session. destruct (_owner_ss e) as [r|]; [|naive_solver].
  destruct (sessions w !! r) eqn:E; split; try done; [by eexists|]. intros (? & [= <-] & H1). rewrite E in H1. by apply is_Some_None in H1.
Qed.

Lemma clean_spec order w : covers order w -> all_harmless order w = true <-> clean order w.
Proof.
  intros (Hn & Hs & Hc). rewrite all_harmless_at. split.
  - intros Hall. split.
    + intros r s E. destruct (list_elem_of_split order (ASession r)) as (l1 & l2 & Eo); [apply Hs; by eexists|].
      specialize (Hall l1 _ l2 Eo). subst order. apply NoDup_app in Hn as (_ & Hd & _).
      unfold harmless in Hall. rewrite lookup_sessions_without, decide_False, E in Hall
        by (intros Hi; apply (Hd _ Hi); left).
      by apply negb_true_iff in Hall.
    + intros c ch e r E Hst He Eo Hr. destruct (list_elem_of_split order (AChannel c)) as (l1 & l2 & El); [apply Hc; by eexists|].
      specialize (Hall l1 _ l2 El). exists l1, l2. split; [done|]. subst order.
      apply NoDup_app in Hn as (_ & Hd & _). unfold harmless in Hall.
      rewrite lookup_channels_without, decide_False, E, Hst in Hall by (intros Hi; apply (Hd _ Hi); left).
      simpl in Hall. apply negb_true_iff, orb_false_iff in Hall as [H1 H2].
      destruct (decide (ASession r ∈ l1)) as [?|Hni]; [done|]. exfalso.
      assert (owner_lives e (foldl without_object w l1) = true) as Hol.
      { apply owner_lives_spec. exists r. by rewrite lookup_sessions_without, decide_False. }
      apply elem_of_cons in He as [->|He]; [congruence|]. apply list_elem_of_singleton in He as ->. congruence.
  - intros [Hss Hch] l1 x l2 El. destruct x as [r|c]; unfold harmless.
    + rewrite lookup_sessions_without. case_decide; [done|].
      destruct (sessions w !! r) as [s|] eqn:E; [|done]. by rewrite (Hss r s E).
    + rewrite lookup_channels_without. case_decide; [done|].
      destruct (channels w !! c) as [ch|] eqn:E; [|done]. destruct (ch_started ch) eqn:Hst; [|done].
      simpl. apply negb_true_iff, orb_false_iff.
      assert (forall e, e ∈ [_src_end ch; _dst_end ch] -> owner_lives e (foldl without_object w l1) = false) as Ho.
      { intros e He. apply not_true_iff_false. rewrite owner_lives_spec. intros (r & Eo & Hr).
        rewrite lookup_sessions_without in Hr. case_decide as Hi; [by apply is_Some_None in Hr|].
        destruct (Hch c ch e r E Hst He Eo Hr) as (m1 & m2 & Em & Hm). subst order.
        apply Hi. rewrite Em in Hn. replace l1 with m1; [done|]. by eapply nodup_split. }
      split; apply Ho; set_solver.
Qed.

(** Some order of all objects; every other one is a permutation of it. *)
Definition all_objects w : list object :=
  (ASession <$> (map_to_list (sessions w)).*1) ++ (AChannel <$> (map_to_list (channels w)).*1).

Lemma elem_of_keys {A} (m : gmap nat A) k : k ∈ (map_to_list m).*1 <-> is_Some (m !! k).
Proof.
  rewrite list_elem_of_fmap. split.
  - intros ([k' a] & -> & Hm%elem_of_map_to_list). by eexists.
  - intros [a E]. exists (k, a). by rewrite elem_of_map_to_list.
Qed.

Lemma all_objects_cover order w : order ≡ₚ all_objects w -> covers order w.
Proof.
  intros Hp. unfold covers. setoid_rewrite Hp. unfold all_objects. split_and!.
  - apply NoDup_app. split_and!.
    + apply NoDup_fmap_2, NoDup_fst_map_to_list. by intros ? ? [= ->].
    + intros x (? & -> & _)%list_elem_of_fmap. by intros (? & ? & _)%list_elem_of_fmap.
    + apply NoDup_fmap_2, NoDup_fst_map_to_list. by intros ? ? [= ->].
  - intros r. rewrite <-elem_of_keys. set_solver.
  - intros c. rewrite <-elem_of_keys. set_solver.
Qed.
End shutdown.

(** ** What the destruction of the contexts ends in *)

(** C38. When the I/O contexts are destroyed, with no other thread at work on the
    objects they hold, every session and channel is released, in an order that
    depends on the contexts.  All destructors return, and nothing is left, in
    exactly those orders and states where no session is still started and every
    started channel is destroyed after those of its sessions that are there; in
    every other case a destructor throws [bad_weak_ptr], from the
    [shared_from_this()] that its [stop()] calls, and nothing else can happen.
    So it goes well only when the connection counter is zero. *)
Theorem teardown_outcome `{SL : SessionStoreLaws D} cfg t (d : D) n w order :
  st_inv d -> reach cfg t d n w -> order ≡ₚ all_objects w ->
  ((release_all order w).1 = Ok tt <-> clean order w) /\
  ((release_all order w).1 <> Ok tt -> (release_all order w).1 = Throw bad_weak_ptr) /\
  ((release_all order w).1 = Ok tt ->
     sessions (release_all order w).2 = ∅ /\ channels (release_all order w).2 = ∅ /\ _conn_num w = 0).
Proof.
  intros Hd Hr Hc%all_objects_cover. pose proof (clean_spec order w Hc) as Hcl.
  pose proof (release_all_spec order w) as Hrel.
  destruct (all_harmless order w).
  2: { rewrite Hrel. assert (~ clean order w) as Hn by (intros ?%Hcl; done). by split_and!. }
  rewrite Hrel. simpl. split_and!; [tauto|done|]. intros _. destruct Hc as (_ & Hs & Hch). split_and!.
  - apply map_empty. intros r. rewrite lookup_sessions_without. case_decide as Hi; [done|].
    apply eq_None_not_Some. by intros ?%Hs.
  - apply map_empty. intros c. rewrite lookup_channels_without. case_decide as Hi; [done|].
    apply eq_None_not_Some. by intros ?%Hch.
  - destruct (proj1 Hcl eq_refl) as [Hno _].
    destruct (reg_reach_inv _ _ _ _ (reach_reg cfg t d n w Hd Hr)) as [_ Ic].
    unfold conn_inv in Ic. rewrite count_online_reg in Ic. simpl in Ic. rewrite Ic.
    unfold started_sessions. replace (filter _ (sessions w)) with (∅ : gmap sref CSession); [done|].
    symmetry. apply map_empty. intros r. apply map_lookup_filter_None. right. intros ss E.
    simpl. by rewrite (Hno r ss E).
Qed.

(** While a client has a channel open, in the order sessions, channel, and
    before anybody has connected. *)
Lemma teardown_outcome_witness :
  (release_all [ASession 0; ASession 1; AChannel 2] channel_world).1 = Throw bad_weak_ptr /\
  (release_all [] Scenario.demo_init).1 = Ok tt.
Proof.
  split.
  - refine (proj1 (proj2 (teardown_outcome demo_cfg 0 (start (new_db [])) 8 channel_world
      [ASession 0; ASession 1; AChannel 2] demo_db_inv reach_channel _)) _).
    + replace (all_objects channel_world) with [ASession 1; ASession 0; AChannel 2]
        by (vm_compute; reflexivity). apply perm_swap.
    + intros E. vm_compute in E. discriminate E.
  - refine (proj2 (proj1 (teardown_outcome demo_cfg 0 (start (new_db [])) 0 Scenario.demo_init [] demo_db_inv
      (reach_init _ _ _) _)) _).
    + reflexivity.
    + split; [intros r ss E|intros c ch e r E];
        by destruct (lookup_empty_Some (M := gmap nat) _ _ E).
Defined.
