(* ===== verification/ChannelLinks.v ===== *)
(** * No channel is forgotten

    A channel and the two sessions it connects know each other only by weak
    pointers: [_owner_ss] in each end, and the two maps of a session
    ([_src_channels], [_dst_channels]).  A session that stops tells exactly the
    channels of its maps to stop.  This file shows that these are all of them:
    in every reachable state a started channel is registered, under its id, in
    the map of each running session that owns one of its ends, and when such a
    session no longer runs, a [stop] of the channel is under way.

    Two observations of a world are enough: whether a session is [live], and
    what its maps contain ([entry]).  Each operation is described by what it
    does to these. *)
From S2P Require Import Prelude Protocol SafeContainers SessionStore SessionDb World SessionOut Channel SessionMgr Session Server Scenario Frames SessionMachine Refinement RequestFacts ChannelFacts SessionFacts.

(** The two ends of a channel, and the maps of a session they belong to. *)
Inductive side := Src | Dst.

#[export] Instance side_eq_dec : EqDecision side.
Proof. solve_decision. Defined.

Definition end_of (d : side) (ch : CChannel) : CEnd :=
  match d with Src => _src_end ch | Dst => _dst_end ch end.
Definition map_of (d : side) (s : CSession) : CChannelMap.Map :=
  match d with Src => _src_channels s | Dst => _dst_channels s end.
Definition set_map (d : side) (m : CChannelMap.Map) (s : CSession) : CSession :=
  match d with Src => set_src m s | Dst => set_dst m s end.

Lemma map_of_set_map d d' m s : map_of d (set_map d' m s) = if decide (d = d') then m else map_of d s.
Proof. by destruct d, d'. Qed.

(** The part of a session that matters here. *)
Definition links (s : CSession) : bool * CChannelMap.Map * CChannelMap.Map :=
  (World._started s, _src_channels s, _dst_channels s).

(** The maps that a session which is stopping has still to work through. *)
Definition pending : Type := side -> sref -> bool.
Definition nothing : pending := fun _ _ => false.
Definition left_of (q : sref) (l : list side) : pending := fun d r => bool_decide (r = q /\ d ∈ l).

Lemma left_of_self q l d : left_of q l d q = bool_decide (d ∈ l).
Proof. apply bool_decide_ext. naive_solver. Qed.

Lemma left_of_other q l d r : r <> q -> left_of q l d r = false.
Proof. intros Hne. apply bool_decide_false. naive_solver. Qed.

Section links.
Context {D : Type} `{SessionStore D}.
Implicit Types (w : World D) (p : pending) (r : sref) (c : cref) (ch : CChannel) (d : side) (id : Z).

(** A session runs, or its [stop] has not come to this map yet. *)
Definition live p w d r : bool :=
  match sessions w !! r with Some s => World._started s || p d r | None => false end.

Definition entry w d r id : option cref := s ← sessions w !! r; map_of d s !! id.

(** [r], if it is live, has [c] in its map under [id]. *)
Definition holds p w d c id r : Prop := live p w d r = true -> entry w d r id = Some c.

(** What a channel may rely on from the owner [r] of its end [d]. *)
Definition looked_after p w d c ch r : Prop :=
  holds p w d c (ch_id ch) r /\ (live p w d r = false -> (0 < stop_posts ch)%nat).

Definition cared_for p w c ch : Prop :=
  ch_started ch = true -> forall d r, _owner_ss (end_of d ch) = Some r ->
    looked_after p w d c ch r /\ (r < heap_next w)%nat.

Definition linked p w : Prop := forall c ch, channels w !! c = Some ch -> cared_for p w c ch.

(** ** Steps that keep the links *)

(** Sessions go on as before, and keep the entries of their maps. *)
Record extends w w' : Prop := {
  ex_live : forall p d r, live p w' d r = live p w d r;
  ex_entry : forall d r id c, entry w d r id = Some c -> entry w' d r id = Some c;
  ex_next : (heap_next w <= heap_next w')%nat
}.

#[export] Instance extends_preorder : PreOrder extends.
Proof.
  split; [by split|]. intros w1 w2 w3 [L1 E1 N1] [L2 E2 N2].
  split; [intros; by rewrite L2|auto|lia].
Qed.

(** [ch'] needs no more than [ch] does. *)
Definition weaker ch ch' : Prop :=
  ch_started ch' = true ->
  ch_started ch = true /\ ch_id ch' = ch_id ch /\ (stop_posts ch <= stop_posts ch')%nat /\
  forall d r, _owner_ss (end_of d ch') = Some r -> _owner_ss (end_of d ch) = Some r.

#[export] Instance weaker_preorder : PreOrder weaker.
Proof.
  split; [by intros ch Hs|]. intros c1 c2 c3 H12 H23 Hs.
  destruct (H23 Hs) as (Hs2 & E2 & P2 & O2). destruct (H12 Hs2) as (Hs1 & E1 & P1 & O1).
  split_and!; [done|congruence|lia|eauto].
Qed.

Definition all_weaker w w' : Prop :=
  forall c ch', channels w' !! c = Some ch' -> exists ch, channels w !! c = Some ch /\ weaker ch ch'.

#[export] Instance all_weaker_preorder : PreOrder all_weaker.
Proof.
  split; [intros w c ch E; by exists ch|]. intros w1 w2 w3 H12 H23 c ch3 E3.
  destruct (H23 c ch3 E3) as (ch2 & E2 & W23). destruct (H12 c ch2 E2) as (ch1 & E1 & W12).
  exists ch1. split; [done|by etrans].
Qed.

(** What a step does that neither starts nor stops anything. *)
Definition kept w w' : Prop := extends w w' /\ all_weaker w w'.

#[export] Instance kept_preorder : PreOrder kept.
Proof. split; [done|]. intros w1 w2 w3 [E1 A1] [E2 A2]. split; by etrans. Qed.

Lemma holds_extends p w w' d c id r : extends w w' -> holds p w d c id r -> holds p w' d c id r.
Proof. intros [L E _] Hh Hl. rewrite L in Hl. auto. Qed.

Lemma looked_after_extends p w w' d c ch r :
  extends w w' -> looked_after p w d c ch r -> looked_after p w' d c ch r.
Proof. intros Hx [Hh Hp]. split; [by eapply holds_extends|]. by rewrite (ex_live w w' Hx). Qed.

Lemma cared_for_weaker p w w' c ch ch' :
  extends w w' -> weaker ch ch' -> cared_for p w c ch -> cared_for p w' c ch'.
Proof.
  intros Hx Hw Hc Hst d r Eo. destruct (Hw Hst) as (Hst0 & Ei & Hp & Ho).
  destruct (Hc Hst0 d r (Ho d r Eo)) as [Hl Hr]. split; [|pose proof (ex_next w w' Hx); lia].
  destruct (looked_after_extends p w w' d c ch r Hx Hl) as [Hh Hq]. split; [by rewrite Ei|].
  intros El. specialize (Hq El). lia.
Qed.

Lemma linked_kept p w w' : kept w w' -> linked p w -> linked p w'.
Proof.
  intros [Hx Ha] I c ch' Ec. destruct (Ha c ch' Ec) as (ch & E & Hw). eapply cared_for_weaker; eauto.
Qed.

Lemma live_pending p p' w d r : p d r = p' d r -> live p w d r = live p' w d r.
Proof. intros E. unfold live. by rewrite E. Qed.

Lemma linked_pending p p' w : (forall d r, p d r = p' d r) -> linked p w -> linked p' w.
Proof.
  intros Ep I c ch Ec Hst d r Eo. destruct (I c ch Ec Hst d r Eo) as [[Hh Hp] Hr].
  unfold looked_after, holds in *. by rewrite (live_pending p p') in Hh, Hp by done.
Qed.

(** *** How to see that a step keeps them *)

Lemma extends_links w w' :
  links <$> sessions w' = links <$> sessions w -> heap_next w' = heap_next w -> extends w w'.
Proof.
  intros E En.
  assert (forall r, links <$> sessions w' !! r = links <$> sessions w !! r) as Er.
  { intros r. by rewrite <-!lookup_fmap, E. }
  split; [| |lia].
  - intros p d r. specialize (Er r). unfold live.
    destruct (sessions w !! r) as [s|], (sessions w' !! r) as [s'|]; simpl in Er; try done.
    unfold links in Er. congruence.
  - intros d r id c. specialize (Er r). unfold entry.
    destruct (sessions w !! r) as [s|], (sessions w' !! r) as [s'|]; simpl in Er |- *; try done.
    injection Er as _ E1 E2. destruct d; simpl; congruence.
Qed.

Lemma all_weaker_same w w' : channels w' = channels w -> all_weaker w w'.
Proof. intros E c ch Ec. exists ch. by rewrite <-E. Qed.

Lemma kept_links w w' :
  links <$> sessions w' = links <$> sessions w -> channels w' = channels w ->
  heap_next w' = heap_next w -> kept w w'.
Proof. intros S C N. split; [by apply extends_links|by apply all_weaker_same]. Qed.

Lemma kept_upd r f w : (forall s, links (f s) = links s) -> kept w (upd_session r f w).
Proof. intros Hf. apply kept_links; [by apply upd_proj|done..]. Qed.

Lemma kept_set r s s' w :
  sessions w !! r = Some s -> links s' = links s -> kept w (upd_session r (fun _ => s') w).
Proof.
  intros Es El. apply kept_links; [|done..]. simpl.
  rewrite (alter_insert_at _ r s) by done. rewrite fmap_insert, El. apply insert_id.
  by rewrite lookup_fmap, Es.
Qed.

Lemma kept_channel c f w :
  (forall ch, channels w !! c = Some ch -> weaker ch (f ch)) -> kept w (upd_channel c f w).
Proof.
  intros Hf. split; [by apply extends_links|]. intros c' ch' E. simpl in E.
  destruct (decide (c = c')) as [<-|Hne].
  - rewrite lookup_alter_eq in E. destruct (channels w !! c) as [ch|]; [|done].
    injection E as <-. eauto.
  - rewrite lookup_alter_ne in E by done. by exists ch'.
Qed.

Lemma kept_destroy c w : kept w (CChannel_destroy c w).
Proof.
  split; [by apply extends_links|].
  intros c' ch' E. exists ch'. split; [|done]. simpl in E. by apply lookup_delete_Some in E as [_ E].
Qed.

Lemma kept_checkers v w : kept w (set_checkers v w).
Proof. by apply kept_links. Qed.

Lemma weaker_fixed ch ch' : fixed_part ch' = fixed_part ch -> weaker ch ch'.
Proof.
  unfold fixed_part. intros E. injection E as E1 E2 E3 _ E4 E5. intros Hs.
  split_and!; [congruence|done|lia|]. intros [] r; simpl; congruence.
Qed.

Lemma kept_doWrite r msg w : kept w (doWrite r msg w).
Proof. unfold doWrite. case_match; [done|]. by apply kept_upd. Qed.

Lemma kept_onRespAccess r req ch w : kept w (onRespAccess r req ch w).
Proof. unfold onRespAccess. case_match; [apply kept_doWrite|done]. Qed.

(** ** A channel stops *)

Definition close_end (d : side) r ch w : World D :=
  match d with Src => closeSrcChannel r ch w | Dst => closeDstChannel r ch w end.

Lemma heap_next_doWrite r msg w : heap_next (doWrite r msg w) = heap_next w.
Proof. unfold doWrite. by case_match. Qed.

Lemma heap_next_close d r ch w : heap_next (close_end d r ch w) = heap_next w.
Proof. unfold close_end, closeSrcChannel, closeDstChannel, onRespStopProxy. destruct d; by rewrite heap_next_doWrite. Qed.

(** The maps of [r] without the entry; nothing else that matters changes. *)
Lemma links_close d r ch w :
  links <$> sessions (close_end d r ch w) =
  links <$> alter (fun s => set_map d (delete (ch_id ch) (map_of d s)) s) r (sessions w).
Proof.
  unfold close_end, closeSrcChannel, closeDstChannel, onRespStopProxy, doWrite.
  apply map_eq. intros r'. rewrite !lookup_fmap.
  destruct d; simpl; (destruct (decide (r = r')) as [->|Hne];
    [rewrite !lookup_alter_eq; destruct (sessions w !! r'); simpl;
      by rewrite ?CChannelMap.remove_delete|by rewrite !lookup_alter_ne]).
Qed.

Lemma live_alter p f r w w' :
  links <$> sessions w' = links <$> alter f r (sessions w) ->
  (forall s, World._started (f s) = World._started s) -> forall d r', live p w' d r' = live p w d r'.
Proof.
  intros E Hf d r'. pose proof (f_equal (fun m => m !! r') E) as Er. cbv beta in Er.
  rewrite !lookup_fmap in Er. unfold live. destruct (decide (r = r')) as [->|Hne].
  - rewrite lookup_alter_eq in Er.
    destruct (sessions w !! r') as [s|], (sessions w' !! r') as [s'|]; simpl in Er; try done.
    specialize (Hf s). unfold links in Er. congruence.
  - rewrite lookup_alter_ne in Er by done.
    destruct (sessions w !! r') as [s|], (sessions w' !! r') as [s'|]; simpl in Er; try done.
    unfold links in Er. congruence.
Qed.

Lemma entry_alter f r w w' d r' id :
  links <$> sessions w' = links <$> alter f r (sessions w) ->
  (forall s, r' = r -> map_of d (f s) !! id = map_of d s !! id) -> entry w' d r' id = entry w d r' id.
Proof.
  intros E Hf. pose proof (f_equal (fun m => m !! r') E) as Er. cbv beta in Er.
  rewrite !lookup_fmap in Er. unfold entry. destruct (decide (r = r')) as [->|Hne].
  - rewrite lookup_alter_eq in Er.
    destruct (sessions w !! r') as [s|], (sessions w' !! r') as [s'|]; simpl in Er |- *; try done.
    rewrite <-(Hf s eq_refl). injection Er as _ E1 E2. destruct d; simpl; congruence.
  - rewrite lookup_alter_ne in Er by done.
    destruct (sessions w !! r') as [s|], (sessions w' !! r') as [s'|]; simpl in Er |- *; try done.
    injection Er as _ E1 E2. destruct d; simpl; congruence.
Qed.

Lemma live_close p d0 r0 ch w d r : live p (close_end d0 r0 ch w) d r = live p w d r.
Proof. eapply live_alter; [apply links_close|]. intros s. by destruct d0. Qed.

Lemma entry_close d0 r0 ch w d r id :
  ~ (d = d0 /\ r = r0 /\ id = ch_id ch) -> entry (close_end d0 r0 ch w) d r id = entry w d r id.
Proof.
  intros Hne. eapply entry_alter; [apply links_close|]. intros s ->. cbv beta.
  rewrite map_of_set_map. case_decide as Hd; [subst|done]. rewrite lookup_delete_ne; naive_solver.
Qed.

(** Taking [c0] out of a map leaves the other channels in. *)
Lemma holds_close p d0 r0 c0 ch w d c id r :
  holds p w d0 c0 (ch_id ch) r0 -> d <> d0 \/ c <> c0 ->
  holds p w d c id r -> holds p (close_end d0 r0 ch w) d c id r.
Proof.
  unfold holds. rewrite live_close. intros H0 Hne Hh Hl. specialize (Hh Hl).
  rewrite entry_close; [done|]. intros (-> & -> & ->). specialize (H0 Hl). naive_solver congruence.
Qed.

(** [c] is registered with those of its owners that run. *)
Definition registered p w c ch : Prop :=
  ch_started ch = true -> forall d r, _owner_ss (end_of d ch) = Some r -> holds p w d c (ch_id ch) r.

Lemma cared_for_registered p w c ch : cared_for p w c ch -> registered p w c ch.
Proof. intros Hc Hst d r Eo. by destruct (Hc Hst d r Eo) as [[Hh _] _]. Qed.

Lemma lock_session_eq o w r : lock_session o w = Some r -> o = Some r.
Proof. unfold lock_session. repeat case_match; naive_solver. Qed.

Lemma live_CChannel_stop p c w d r : live p (CChannel_stop c w) d r = live p w d r.
Proof.
  unfold CChannel_stop. destruct (channels w !! c) as [ch|]; [|done]. destruct (ch_started ch); [|done].
  set (w1 := upd_channel c (set_ch_started false) w).
  change (live p w d r) with (live p w1 d r). clearbody w1.
  set (w2 := match lock_session (_owner_ss (_src_end ch)) w1 with Some r => _ | None => w1 end).
  transitivity (live p w2 d r); [|unfold w2; case_match; [apply (live_close p Src)|done]].
  clearbody w2. case_match; [|done]. apply (live_close p Dst).
Qed.

Lemma heap_next_CChannel_stop c w : heap_next (CChannel_stop c w) = heap_next w.
Proof.
  unfold CChannel_stop, closeSrcChannel, closeDstChannel, onRespStopProxy.
  repeat case_match; simpl; by rewrite ?heap_next_doWrite; simpl; rewrite ?heap_next_doWrite.
Qed.

Lemma holds_CChannel_stop p c w ch d c' id r :
  channels w !! c = Some ch -> registered p w c ch -> c' <> c ->
  holds p w d c' id r -> holds p (CChannel_stop c w) d c' id r.
Proof.
  intros Ec Hreg Hne Hl. unfold CChannel_stop. rewrite Ec. destruct (ch_started ch) eqn:Hst; [|done].
  set (w1 := upd_channel c (set_ch_started false) w). specialize (Hreg Hst).
  assert (forall d r, _owner_ss (end_of d ch) = Some r -> holds p w1 d c (ch_id ch) r) as Hh by exact Hreg.
  change (holds p w1 d c' id r) in Hl. clearbody w1.
  set (w2 := match lock_session (_owner_ss (_src_end ch)) w1 with Some r => _ | None => w1 end).
  assert (holds p w2 d c' id r /\
          forall r, _owner_ss (_dst_end ch) = Some r -> holds p w2 Dst c (ch_id ch) r) as [Hl2 Hh2].
  { unfold w2. destruct (lock_session _ w1) as [r1|] eqn:E1; [|by split; [|apply (Hh Dst)]].
    apply lock_session_eq in E1. split.
    - by apply (holds_close p Src r1 c ch w1); [apply (Hh Src)|right|].
    - intros r2 E2. by apply (holds_close p Src r1 c ch w1 Dst); [apply (Hh Src)|left|apply (Hh Dst)]. }
  clearbody w2. destruct (lock_session _ w2) as [r2|] eqn:E2; [|done]. apply lock_session_eq in E2.
  by apply (holds_close p Dst r2 c ch w2); [apply Hh2|right|].
Qed.

Lemma linked_CChannel_stop p c w :
  (forall c' ch', c' <> c -> channels w !! c' = Some ch' -> cared_for p w c' ch') ->
  (forall ch, channels w !! c = Some ch -> registered p w c ch) ->
  linked p (CChannel_stop c w).
Proof.
  intros I Hreg c' ch' E. rewrite channels_CChannel_stop in E.
  destruct (channels w !! c) as [ch|] eqn:Ec.
  - rewrite (alter_insert_at _ c ch _ Ec) in E.
    apply lookup_insert_Some in E as [[<- <-]|[Hne E]].
    + intros Hst. unfold stop_of in Hst. destruct (ch_started ch) eqn:Est; simpl in Hst; congruence.
    + intros Hst d r Eo. destruct (I c' ch' ltac:(done) E Hst d r Eo) as [[Hh Hp] Hr].
      rewrite heap_next_CChannel_stop. split; [|done]. split; [eapply holds_CChannel_stop; eauto|].
      by rewrite live_CChannel_stop.
  - destruct (decide (c' = c)) as [->|Hne]; [by rewrite lookup_alter_eq, Ec in E|].
    rewrite lookup_alter_ne in E by done. assert (CChannel_stop c w = w) as ->; [|by apply I].
    unfold CChannel_stop. by rewrite Ec.
Qed.

Lemma linked_stop p c w : linked p w -> linked p (CChannel_stop c w).
Proof.
  intros I. apply linked_CChannel_stop; [intros; by apply I|].
  intros ch Ec. by apply cared_for_registered, I.
Qed.

(** A posted [stop] that does nothing has nothing left to do. *)
Lemma linked_run_stop_post p c w w' : run_stop_post c w = Some w' -> linked p w -> linked p w'.
Proof.
  unfold run_stop_post. destruct (channels w !! c) as [ch|] eqn:Ec; [|done].
  destruct (stop_posts ch) as [|k]; [done|]. intros [= <-] I. apply linked_CChannel_stop.
  - intros c' ch' Hne E. simpl in E. rewrite lookup_alter_ne in E by done. exact (I c' ch' E).
  - intros ch'. simpl. rewrite lookup_alter_eq, Ec. intros [= <-].
    exact (cared_for_registered p w c ch (I c ch Ec)).
Qed.

(** ** A session stops, or goes *)

(** It is marked as stopped; both maps are still to be worked through. *)
Lemma live_mark q s w d r :
  sessions w !! q = Some s -> World._started s = true ->
  live (left_of q [Src; Dst]) (upd_session q stopped w) d r = live nothing w d r.
Proof.
  intros Es Hs. unfold live, nothing. simpl. destruct (decide (q = r)) as [<-|Hne].
  - rewrite lookup_alter_eq, Es. simpl. rewrite Hs, left_of_self. by destruct d.
  - rewrite lookup_alter_ne, left_of_other by done. done.
Qed.

Lemma entry_mark q w d r id : entry (upd_session q stopped w) d r id = entry w d r id.
Proof.
  unfold entry. simpl. destruct (decide (q = r)) as [<-|Hne]; [|by rewrite lookup_alter_ne].
  rewrite lookup_alter_eq. destruct (sessions w !! q) as [s|]; simpl; [|done].
  destruct (stopped_maps s) as [M1 M2]. destruct d; simpl; [by rewrite <-M1|by rewrite <-M2].
Qed.

Lemma linked_mark q s w :
  sessions w !! q = Some s -> World._started s = true ->
  linked nothing w -> linked (left_of q [Src; Dst]) (upd_session q stopped w).
Proof.
  intros Es Hs I c ch Ec Hst d r Eo. destruct (I c ch Ec Hst d r Eo) as [[Hh Hp] Hr].
  split; [|done]. unfold looked_after, holds. by rewrite (live_mark q s), entry_mark.
Qed.

(** One of its maps is emptied, and the channels in it are told to stop. *)
Record emptied d0 q s w w' : Prop := {
  em_here : sessions w !! q = Some s;
  em_stopped : World._started s = false;
  em_sess : sessions w' = <[q := set_map d0 ∅ s]> (sessions w);
  em_next : heap_next w' = heap_next w;
  em_chan : forall c, channels w' !! c =
     (fun ch => set_stop_posts (occurrences (map_of d0 s) c + stop_posts ch) ch) <$> channels w !! c
}.

Lemma live_emptied d0 l q s w w' d r :
  emptied d0 q s w w' -> d0 ∉ l ->
  live (left_of q l) w' d r = live (left_of q (d0 :: l)) w d r && negb (bool_decide (d = d0 /\ r = q)).
Proof.
  intros [Es Hs Sw _ _] Hl. unfold live. rewrite Sw. destruct (decide (r = q)) as [->|Hne].
  - rewrite lookup_insert_eq, Es, Hs, !left_of_self.
    assert (World._started (set_map d0 ∅ s) = false) as -> by by destruct d0. simpl.
    rewrite <-bool_decide_not, <-bool_decide_and. apply bool_decide_ext. set_solver.
  - rewrite lookup_insert_ne, !left_of_other by done.
    rewrite (bool_decide_false (d = d0 /\ r = q)) by naive_solver. by rewrite andb_true_r.
Qed.

Lemma holds_emptied d0 l q s w w' d c id r :
  emptied d0 q s w w' -> d0 ∉ l ->
  holds (left_of q (d0 :: l)) w d c id r -> holds (left_of q l) w' d c id r.
Proof.
  intros Em Hl Hh. unfold holds. rewrite (live_emptied d0 l q s w w' d r Em Hl).
  intros [E1 E2%negb_true_iff%bool_decide_eq_false]%andb_true_iff. specialize (Hh E1).
  unfold entry in *. rewrite (em_sess _ _ _ _ _ Em). destruct (decide (r = q)) as [->|Hne].
  - rewrite lookup_insert_eq. rewrite (em_here _ _ _ _ _ Em) in Hh. simpl in *.
    rewrite map_of_set_map, decide_False; [done|naive_solver].
  - by rewrite lookup_insert_ne.
Qed.

Lemma linked_emptied d0 l q s w w' :
  emptied d0 q s w w' -> d0 ∉ l ->
  linked (left_of q (d0 :: l)) w -> linked (left_of q l) w'.
Proof.
  intros Em Hl I c ch' E. rewrite (em_chan _ _ _ _ _ Em) in E.
  destruct (channels w !! c) as [ch|] eqn:Ec; [|done]. injection E as <-. intros Hst d r Eo.
  destruct (I c ch Ec Hst d r) as [[Hh Hp] Hr]; [by destruct d|].
  rewrite (em_next _ _ _ _ _ Em). split; [|done]. split; [by eapply holds_emptied|].
  rewrite (live_emptied d0 l q s w w' d r Em Hl). simpl.
  destruct (live (left_of q (d0 :: l)) w d r) eqn:El; [|intros _; specialize (Hp eq_refl); lia].
  simpl. intros [-> ->]%negb_false_iff%bool_decide_eq_true. specialize (Hh El).
  unfold entry in Hh. rewrite (em_here _ _ _ _ _ Em) in Hh. apply occurrences_pos in Hh. lia.
Qed.

Lemma heap_next_stop_src r w : heap_next (stop_src_channels r w) = heap_next w.
Proof.
  unfold stop_src_channels, stopAll. repeat case_match; try done. simpl. by induction (map_to_list _).*2.
Qed.
Lemma heap_next_stop_dst r w : heap_next (stop_dst_channels r w) = heap_next w.
Proof.
  unfold stop_dst_channels, stopAll. repeat case_match; try done. simpl. by induction (map_to_list _).*2.
Qed.

Lemma stop_src_emptied q s w :
  sessions w !! q = Some s -> World._started s = false -> emptied Src q s w (stop_src_channels q w).
Proof.
  intros Es Hs. destruct (sessions_stop_src q s w Es) as (S1 & C1 & _).
  split; [done|done|exact S1|apply heap_next_stop_src|exact C1].
Qed.

Lemma stop_dst_emptied q s w :
  sessions w !! q = Some s -> World._started s = false -> emptied Dst q s w (stop_dst_channels q w).
Proof.
  intros Es Hs. destruct (sessions_stop_dst q s w Es) as (S1 & C1 & _).
  split; [done|done|exact S1|apply heap_next_stop_dst|exact C1].
Qed.

Lemma left_of_nil q d r : left_of q [] d r = nothing d r.
Proof. apply bool_decide_false. set_solver. Qed.

Lemma closeSession_kept r w : kept w (closeSessionWithLock r w).
Proof.
  destruct (closeSession_same r w) as [S C]. apply kept_links; [by rewrite S|done|].
  unfold closeSessionWithLock. by repeat case_match.
Qed.

Lemma links_timer_cancel s : links (timer_cancel s) = links s.
Proof. unfold links, timer_cancel. by destruct (timer s). Qed.

Lemma linked_CSession_stop r w : linked nothing w -> linked nothing (CSession_stop r w).
Proof.
  intros I. unfold CSession_stop. destruct (sessions w !! r) as [s|] eqn:Es; [|done].
  destruct (World._started s) eqn:Hs.
  2: { eapply linked_kept; [|exact I]. apply kept_upd. intros x. exact (links_timer_cancel x). }
  eapply linked_kept; [apply closeSession_kept|]. unfold stop_local.
  change (fun s => set_started false _) with stopped.
  pose proof (linked_mark r s w Es Hs I) as I1.
  assert (sessions (upd_session r stopped w) !! r = Some (stopped s)) as E1
    by (simpl; by rewrite lookup_alter_eq, Es).
  generalize dependent (upd_session r stopped w). intros w1 I1 E1.
  apply (linked_pending (left_of r [])); [apply left_of_nil|].
  pose proof (stop_src_emptied r _ w1 E1 eq_refl) as Em.
  eapply (linked_emptied Dst []); [apply stop_dst_emptied| |];
    [rewrite (em_sess _ _ _ _ _ Em); apply lookup_insert_eq|done|set_solver|].
  eapply (linked_emptied Src [Dst]); [exact Em|set_solver|exact I1].
Qed.

Lemma linked_session_gone r s w :
  sessions w !! r = Some s -> World._started s = false -> linked nothing w ->
  linked nothing (set_sessions (delete r (sessions w)) w).
Proof.
  intros Es Hs I c ch Ec Hst d r' Eo. destruct (I c ch Ec Hst d r' Eo) as [[Hh Hp] Hr]. split; [|done].
  unfold looked_after, holds, live, entry in *. simpl. destruct (decide (r' = r)) as [->|Hne].
  - rewrite lookup_delete_eq. rewrite Es, Hs in Hp. by split.
  - by rewrite lookup_delete_ne.
Qed.

(** ** A channel is created *)

Definition enter d r id c w : bool * World D :=
  match d with Src => addSrcChannel r id c w | Dst => addDstChannel r id c w end.

Lemma upd_session_id r f s w : sessions w !! r = Some s -> f s = s -> upd_session r f w = w.
Proof.
  intros Es Ef. unfold upd_session. rewrite (alter_insert_at f r s _ Es), Ef, insert_id by done.
  by destruct w.
Qed.

Lemma enter_eq d r id c w s :
  sessions w !! r = Some s ->
  enter d r id c w =
  match map_of d s !! id with
  | Some _ => (false, w)
  | None => (true, upd_session r (set_map d (<[id := c]> (map_of d s))) w)
  end.
Proof.
  intros Es. unfold enter, addSrcChannel, addDstChannel, CChannelMap.insert, set_map, map_of.
  destruct d; rewrite Es; cbn [fst snd];
    [destruct (_src_channels s !! id)|destruct (_dst_channels s !! id)]; try done;
    f_equal; apply (upd_session_id r _ s w Es); by destruct s.
Qed.

(** [c] has been entered in a map of [r] in which its id was free. *)
Record entered d0 r0 id0 c w w' : Prop := {
  en_ext : extends w w';
  en_free : entry w d0 r0 id0 = None;
  en_here : entry w' d0 r0 id0 = Some c;
  en_other : forall d r id, ~ (d = d0 /\ r = r0 /\ id = id0) -> entry w' d r id = entry w d r id;
  en_chan : channels w' = channels w
}.

Lemma enter_entered d r id c w s w' :
  sessions w !! r = Some s -> enter d r id c w = (true, w') -> entered d r id c w w'.
Proof.
  intros Es. rewrite (enter_eq d r id c w s Es). destruct (map_of d s !! id) eqn:Em; [done|].
  intros [= <-]. set (w' := upd_session r _ w).
  assert (sessions w' = <[r := set_map d (<[id := c]> (map_of d s)) s]> (sessions w)) as Ew
    by by apply alter_insert_at.
  assert (forall d' r' id', ~ (d' = d /\ r' = r /\ id' = id) -> entry w' d' r' id' = entry w d' r' id') as Ho.
  { intros d' r' id' Hne. unfold entry. rewrite Ew. destruct (decide (r' = r)) as [->|Hr].
    - rewrite lookup_insert_eq, Es. simpl. rewrite map_of_set_map.
      case_decide as Hd; [subst d'|done]. rewrite lookup_insert_ne; [done|naive_solver].
    - by rewrite lookup_insert_ne. }
  assert (entry w d r id = None) as Hf by (unfold entry; by rewrite Es).
  split; try done.
  - split; [| |done].
    + intros p d' r'. unfold live. rewrite Ew. destruct (decide (r' = r)) as [->|Hr].
      * rewrite lookup_insert_eq, Es. by destruct d.
      * by rewrite lookup_insert_ne.
    + intros d' r' id' c' E. rewrite Ho; [done|]. naive_solver congruence.
  - unfold entry. rewrite Ew, lookup_insert_eq. simpl. rewrite map_of_set_map, decide_True by done.
    apply lookup_insert_eq.
Qed.

Lemma CEnd_init_ok r s port e e' :
  CEnd_init r s port e = (true, e') -> _owner_ss e' = Some r /\ sock_remote s <> None.
Proof.
  unfold CEnd_init. repeat (case_match; try done); intros [= <-]; by split.
Qed.

(** A successful [init]: both ends have their owners, whose sockets are alive
    and who were free to enter the channel. *)
Record initialised w c ch src dst w' : Prop := {
  in_chan : exists e1 e2, channels w' = <[c := set_dst_end e2 (set_src_end e1 ch)]> (channels w) /\
    _owner_ss e1 = Some src /\ _owner_ss e2 = Some dst;
  in_sess : forall r, r = src \/ r = dst -> exists s, sessions w !! r = Some s /\ sock_remote s <> None;
  in_free : entry w Src src (ch_id ch) = None /\ entry w Dst dst (ch_id ch) = None;
  in_ext : extends w w';
  in_src : entry w' Src src (ch_id ch) = Some c;
  in_dst : entry w' Dst dst (ch_id ch) = Some c
}.

(** A failed one: nothing is entered. *)
Record not_initialised w c ch w' : Prop := {
  no_chan : exists e1 e2, channels w' = <[c := set_dst_end e2 (set_src_end e1 ch)]> (channels w);
  no_ext : extends w w'
}.

Lemma not_initialised_at w c ch e1 e2 w' :
  channels w' = <[c := set_dst_end e2 (set_src_end e1 ch)]> (channels w) ->
  extends w w' -> not_initialised w c ch w'.
Proof. intros. split; eauto. Qed.

(** Entered, and taken out again. *)
Lemma not_entered src c w w2 ch :
  entered Src src (ch_id ch) c w w2 -> extends w (close_end Src src ch w2).
Proof.
  intros [X F _ O _]. split.
  - intros p d r. rewrite live_close. apply X.
  - intros d r id c' E. assert (~ (d = Src /\ r = src /\ id = ch_id ch)) as Hne by naive_solver congruence.
    by rewrite entry_close, O.
  - rewrite heap_next_close. apply X.
Qed.

Lemma CChannel_init_links c src dst b1 b2 ch w ok w' :
  channels w !! c = Some ch -> CChannel_init c src dst b1 b2 w = (ok, w') ->
  if ok then initialised w c ch src dst w' else not_initialised w c ch w'.
Proof.
  intros Ec. unfold CChannel_init. rewrite Ec.
  assert (channels w = <[c := set_dst_end (_dst_end ch) (set_src_end (_src_end ch) ch)]> (channels w)) as E0
    by (rewrite insert_id; [done|by destruct ch]).
  destruct (sessions w !! src) as [s1|] eqn:Es1; [|by intros [= <- <-]; eapply not_initialised_at].
  destruct (sessions w !! dst) as [s2|] eqn:Es2; [|by intros [= <- <-]; eapply not_initialised_at].
  destruct (CEnd_init src s1 b1 (_src_end ch)) as [ok1 e1] eqn:H1. destruct ok1; simpl.
  2: { intros [= <- <-]. eapply (not_initialised_at _ _ _ e1 (_dst_end ch)); [|by apply extends_links].
       simpl. rewrite (alter_insert_at _ c ch) by done. by destruct ch. }
  destruct (CEnd_init dst s2 b2 (_dst_end ch)) as [ok2 e2] eqn:H2.
  match goal with |- context [upd_channel c (set_dst_end e2) ?x] => set (w1 := upd_channel c (set_dst_end e2) x) end.
  assert (channels w1 = <[c := set_dst_end e2 (set_src_end e1 ch)]> (channels w)) as C1.
  { unfold w1. simpl. rewrite (alter_insert_at _ c ch (channels w) Ec).
    erewrite alter_insert_at by apply lookup_insert_eq. by rewrite insert_insert_eq. }
  assert (extends w w1) as X1 by by apply extends_links.
  assert (sessions w1 = sessions w) as S1 by done. clearbody w1.
  destruct ok2; simpl; [|intros [= <- <-]; by eapply not_initialised_at].
  set (w1' := spawn_checker c false e2 w1).
  change (channels w1) with (channels w1') in C1. change (sessions w1) with (sessions w1') in S1.
  assert (extends w w1') as X1' by (etrans; [exact X1|by apply extends_links]).
  clear X1. rename X1' into X1. clearbody w1'. clear w1. rename w1' into w1.
  apply CEnd_init_ok in H1 as [O1 R1]. apply CEnd_init_ok in H2 as [O2 R2].
  change (addSrcChannel src (ch_id ch) c w1) with (enter Src src (ch_id ch) c w1).
  destruct (enter Src src (ch_id ch) c w1) as [ok3 w2] eqn:A1. destruct ok3; simpl.
  2: { rewrite (enter_eq Src _ _ _ _ s1) in A1 by by rewrite S1. case_match; [|done]. injection A1 as <-.
       intros [= <- <-]. by eapply not_initialised_at. }
  apply (enter_entered _ _ _ _ _ s1) in A1; [|by rewrite S1].
  change (addDstChannel dst (ch_id ch) c w2) with (enter Dst dst (ch_id ch) c w2).
  assert (exists s2', sessions w2 !! dst = Some s2') as [s2' Es2'].
  { assert (is_Some (sessions w2 !! dst)) as []; [|eauto].
    pose proof (ex_live _ _ (en_ext _ _ _ _ _ _ A1) (fun _ _ => true) Dst dst) as Hl. unfold live in Hl.
    rewrite S1, Es2, orb_true_r in Hl. by case_match. }
  destruct (enter Dst dst (ch_id ch) c w2) as [ok4 w3] eqn:A2. destruct ok4; simpl.
  - apply (enter_entered _ _ _ _ _ s2') in A2; [|done].
    intros [= <- <-]. split.
    + exists e1, e2. split; [|done]. by rewrite (en_chan _ _ _ _ _ _ A2), (en_chan _ _ _ _ _ _ A1).
    + intros r [->| ->]; eauto.
    + pose proof (en_free _ _ _ _ _ _ A1) as F1. pose proof (en_free _ _ _ _ _ _ A2) as F2.
      rewrite (en_other _ _ _ _ _ _ A1) in F2 by naive_solver. unfold entry in *. by rewrite S1 in F1, F2.
    + etrans; [exact X1|]. etrans; [exact (en_ext _ _ _ _ _ _ A1)|exact (en_ext _ _ _ _ _ _ A2)].
    + apply (ex_entry _ _ (en_ext _ _ _ _ _ _ A2)), (en_here _ _ _ _ _ _ A1).
    + exact (en_here _ _ _ _ _ _ A2).
  - rewrite (enter_eq Dst _ _ _ _ s2' Es2') in A2. case_match; [|done]. injection A2 as <-.
    rewrite (en_chan _ _ _ _ _ _ A1), C1, lookup_insert_eq. intros [= <- <-].
    apply (not_initialised_at _ _ _ e1 e2).
    + transitivity (channels w2); [done|]. by rewrite (en_chan _ _ _ _ _ _ A1).
    + etrans; [exact X1|]. exact (not_entered src c w1 w2 (set_dst_end e2 (set_src_end e1 ch)) A1).
Qed.

(** ** Handlers *)

Lemma kept_doRead r w : kept w (doRead r w).
Proof. apply kept_upd. intros s. by case_match. Qed.

Lemma heap_next_onSessionLogin r w : heap_next (onSessionLogin r w).2 = heap_next w.
Proof.
  unfold onSessionLogin, guid_insert, addSessionWithLock. repeat (case_match; simplify_eq/=; try done).
Qed.

Lemma heap_next_onReqLogin r req w : heap_next (onReqLogin r req w) = heap_next w.
Proof.
  unfold onReqLogin. destruct (sessions w !! r) as [s|]; [|done].
  destruct (_logined s); cbn [negb]; [apply heap_next_doWrite|].
  set (w1 := upd_session r _ w). assert (heap_next w1 = heap_next w) as <- by done. clearbody w1.
  rewrite <-(heap_next_onSessionLogin r w1).
  destruct (onSessionLogin r w1) as [[] w2]; by rewrite heap_next_doWrite.
Qed.

Lemma kept_onReqLogin r req w : kept w (onReqLogin r req w).
Proof.
  apply kept_links; [|apply channels_onReqLogin|apply heap_next_onReqLogin].
  apply (proj_onReqLogin (gConfig w)); try done. apply links_timer_cancel.
Qed.

Lemma kept_onReqGetProxies r req w : kept w (onReqGetProxies r req w).2.
Proof. unfold onReqGetProxies. case_match; simpl; [apply kept_doWrite|done..]. Qed.

(** *** A proxy request *)

(** What [onReqProxy] relies on: a session with a peer runs, and sessions are
    known objects. *)
Record sane w : Prop := {
  sn_sock : forall r s, sessions w !! r = Some s -> sock_inv s;
  sn_ref : forall r s, sessions w !! r = Some s -> (r < heap_next w)%nat
}.

(** A channel between creation and start: its owners are known, run, and have
    it in their maps. *)
Definition ready p w c : Prop := exists ch, channels w !! c = Some ch /\ ch_started ch = false /\
  forall d r, _owner_ss (end_of d ch) = Some r -> holds p w d c (ch_id ch) r /\ (r < heap_next w)%nat.

(** The links of all channels but [c]. *)
Definition linked_but p c w : Prop :=
  forall c' ch, c' <> c -> channels w !! c' = Some ch -> cared_for p w c' ch.

Definition owned_by src dst c w : Prop :=
  exists ch, channels w !! c = Some ch /\ _owner_ss (_src_end ch) = Some src /\ _owner_ss (_dst_end ch) = Some dst.

(** [createChannel]: a channel that both sessions, which run, have entered, or
    no change. *)
Lemma createChannel_links p env src dst_id w o w' :
  sane w -> createChannel env src dst_id w = (o, w') -> linked p w ->
  match o with
  | Ok (Some c) => c = heap_next w /\ extends w w' /\ linked_but p c w' /\ ready p w' c /\
      exists dst, owned_by src dst c w' /\ forall r, r = src \/ r = dst -> isRuning r w = true
  | _ => kept w w'
  end.
Proof.
  intros [Hsock Href]. unfold createChannel. case_match; [by intros [= <- <-]|].
  destruct (getSessionWithLock dst_id w) as [dst|]; [|by intros [= <- <-]]. simpl.
  case_match; [intros [= <- <-] _; by apply kept_links|].
  match goal with |- context [CChannel_init _ src dst _ _ ?x] => set (w1 := x) end.
  set (ch := new_channel (gConfig w) (_channel_id (mgr w)) (now w)).
  assert (channels w1 = <[heap_next w := ch]> (channels w)) as C1 by done.
  assert (extends w w1) as X1 by (split; [done|done|simpl; lia]).
  assert (sessions w1 = sessions w) as S1 by done.
  assert (heap_next w1 = S (heap_next w)) as N1 by done.
  assert (channels w1 !! heap_next w = Some ch) as E1 by by rewrite C1, lookup_insert_eq.
  clearbody w1. destruct (CChannel_init (heap_next w) src dst _ _ w1) as [ok w2] eqn:Ei.
  apply (CChannel_init_links _ _ _ _ _ ch) in Ei; [|done]. destruct ok; intros [= <- <-] I.
  - destruct Ei as [(e1 & e2 & C2 & O1 & O2) Hs _ X2 M1 M2]. rewrite C1, insert_insert_eq in C2.
    assert (extends w w2) as X by by etrans.
    split; [done|]. split; [done|]. split_and!.
    + intros c' ch' Hne E. rewrite C2, lookup_insert_ne in E by done.
      eapply cared_for_weaker; [exact X|reflexivity|by apply (I c' ch')].
    + eexists. split; [by rewrite C2, lookup_insert_eq|]. split; [done|]. intros d r Eo.
      assert (r = match d with Src => src | Dst => dst end) as Er by (destruct d; simpl in Eo; congruence).
      split; [intros _; rewrite Er; by destruct d|].
      destruct (Hs r) as (s & Es & _); [destruct d; auto|]. rewrite S1 in Es.
      pose proof (Href r s Es). pose proof (ex_next _ _ X). lia.
    + exists dst. split; [eexists; split; [by rewrite C2, lookup_insert_eq|done]|].
      intros r Hr. destruct (Hs r Hr) as (s & Es & Er). rewrite S1 in Es.
      unfold isRuning. rewrite Es. exact (Hsock r s Es Er).
  - destruct Ei as [(e1 & e2 & C2) X2]. rewrite C1, insert_insert_eq in C2.
    assert (CChannel_stop (heap_next w) w2 = w2) as ->.
    { unfold CChannel_stop. by rewrite C2, lookup_insert_eq. }
    split; [etrans; [exact X1|]; etrans; [exact X2|apply kept_destroy]|].
    intros c' ch'. simpl. rewrite C2.
    rewrite lookup_delete_Some. intros [Hne E].
    rewrite lookup_insert_ne in E by done. by exists ch'.
Qed.

(** Nothing is created under a channel id that is still in use. *)
Lemma createChannel_id_in_use env src dst dst_id w :
  server_alive w = true -> ctor_ok env = true -> getSessionWithLock dst_id w = Some dst ->
  is_Some (entry w Src src (_channel_id (mgr w))) \/ is_Some (entry w Dst dst (_channel_id (mgr w))) ->
  exists w', createChannel env src dst_id w = (Ok None, w') /\ extends w w' /\
    forall c ch, channels w' !! c = Some ch -> channels w !! c = Some ch.
Proof.
  intros Ha Hok Hd Hin. unfold createChannel. rewrite Ha, Hd. simpl. rewrite Hok. simpl.
  match goal with |- context [CChannel_init _ src dst _ _ ?x] => set (w1 := x) end.
  set (ch := new_channel (gConfig w) (_channel_id (mgr w)) (now w)).
  assert (channels w1 = <[heap_next w := ch]> (channels w)) as C1 by done.
  assert (extends w w1) as X1 by (split; [done|done|simpl; lia]).
  assert (forall d r id, entry w1 d r id = entry w d r id) as N1 by done.
  assert (channels w1 !! heap_next w = Some ch) as E1 by by rewrite C1, lookup_insert_eq.
  clearbody w1. destruct (CChannel_init (heap_next w) src dst _ _ w1) as [ok w2] eqn:Ei.
  apply (CChannel_init_links _ _ _ _ _ ch) in Ei; [|done]. destruct ok.
  - destruct (in_free _ _ _ _ _ _ Ei) as [F1 F2]. rewrite N1 in F1, F2. simpl in F1, F2.
    rewrite F1, F2 in Hin. by destruct Hin as [[? ?]|[? ?]].
  - destruct Ei as [(e1 & e2 & C2) X2]. rewrite C1, insert_insert_eq in C2. eexists. split; [done|].
    assert (CChannel_stop (heap_next w) w2 = w2) as ->.
    { unfold CChannel_stop. by rewrite C2, lookup_insert_eq. }
    split; [etrans; [exact X1|]; etrans; [exact X2|apply kept_destroy]|].
    intros c' ch'. simpl. rewrite C2.
    rewrite lookup_delete_Some. intros [Hne E]. by rewrite lookup_insert_ne in E by done.
Qed.

Lemma linked_destroy p c w : linked_but p c w -> linked p (CChannel_destroy c w).
Proof.
  intros I c' ch' E. destruct (kept_destroy c w) as [X A].
  assert (c' <> c) as Hne.
  { intros ->. revert E. simpl. by rewrite lookup_delete_eq. }
  destruct (A c' ch' E) as (ch0 & E0 & Hw). eapply cared_for_weaker; [exact X|exact Hw|by apply (I c')].
Qed.

Lemma start_channel_eq ch :
  ch_id (start_channel ch) = ch_id ch /\ stop_posts (start_channel ch) = stop_posts ch /\
  forall d, _owner_ss (end_of d (start_channel ch)) = _owner_ss (end_of d ch).
Proof. unfold start_channel. split_and!; [| |intros []]; by repeat case_match. Qed.

(** [start()] when both owners run. *)
Lemma linked_start p c w :
  linked_but p c w -> ready p w c ->
  (forall ch d r, channels w !! c = Some ch -> _owner_ss (end_of d ch) = Some r -> live p w d r = true) ->
  linked p (CChannel_start c w).
Proof.
  intros I (ch & Ec & _ & Hrd) Hlive c' ch' E.
  change (channels (CChannel_start c w)) with (alter start_channel c (channels w)) in E.
  destruct (decide (c' = c)) as [->|Hne]; [|rewrite lookup_alter_ne in E by done; exact (I c' ch' Hne E)].
  rewrite lookup_alter_eq, Ec in E. injection E as <-. intros _ d r Eo.
  destruct (start_channel_eq ch) as (Ei & Ep & Eow). rewrite Eow in Eo.
  destruct (Hrd d r Eo) as [Hh Hr]. split; [|done]. unfold looked_after. rewrite Ei, Ep.
  split; [exact Hh|]. change (live p (CChannel_start c w) d r) with (live p w d r).
  rewrite (Hlive ch d r Ec Eo). done.
Qed.

Lemma isRuning_live p d r w : isRuning r w = true -> live p w d r = true.
Proof. unfold isRuning, live. case_match; [|done]. by intros ->. Qed.

(** Both owners of a channel that has just been created run. *)
Lemma owners_live p src dst c w w' :
  owned_by src dst c w' -> (forall r, r = src \/ r = dst -> isRuning r w = true) -> extends w w' ->
  forall ch d r, channels w' !! c = Some ch -> _owner_ss (end_of d ch) = Some r -> live p w' d r = true.
Proof.
  intros (ch0 & E0 & O1 & O2) Hrun X ch d r Ec Eo. simplify_eq. rewrite (ex_live _ _ X).
  apply isRuning_live, Hrun. destruct d; simpl in Eo; rewrite Eo in *; naive_solver.
Qed.

Lemma linked_onReqProxy p env r req w :
  sane w -> linked p w -> linked p (onReqProxy env r req w).2.
Proof.
  intros Hs I. unfold onReqProxy.
  destruct (createChannel env r (px_uiDstId req) w) as [o w2] eqn:E.
  apply (createChannel_links p) in E; [|done..]. destruct o as [[c|]| |]; simpl.
  2: { eapply linked_kept; [|exact I]. etrans; [exact E|apply kept_doWrite]. }
  2-3: by eapply linked_kept.
  destruct E as (_ & X & I2 & Hrd & dst & Ho & Hrun).
  pose proof (linked_destroy p c w2 I2) as Hdead.
  destruct (dst_session c w2) as [dst'|]; [|exact Hdead]. destruct (isRuning dst' w2); cbn [negb]; [|exact Hdead].
  pose proof (linked_start p c w2 I2 Hrd (owners_live p r dst c w w2 Ho Hrun X)) as I3.
  simpl in I3. case_match; simpl; [|exact I3].
  eapply linked_kept; [|exact I3]. etrans; [apply kept_onRespAccess|apply kept_doWrite].
Qed.

(** *** Reading *)

Lemma linked_dispatch env r s tail w : sane w -> linked nothing w -> linked nothing (dispatch env r s tail w).2.
Proof.
  intros Hs I.
  pose proof (fun req => linked_onReqProxy nothing env r req w Hs I) as Hproxy.
  pose proof (fun req => linked_kept nothing _ _ (kept_onReqGetProxies r req w) I) as Hget.
  pose proof (fun req => linked_kept nothing _ _ (kept_onReqLogin r req w) I) as Hlogin.
  unfold dispatch, mbind, mret, M_bind, M_ret, lift, modify.
  repeat case_match; simpl; simplify_eq/=; by eauto.
Qed.

Lemma checkHead_links s ok s' : checkHead s = Ok (ok, s') -> links s' = links s.
Proof.
  unfold checkHead. intros (h & _ & E)%outcome_bind_Ok. by case_match; simplify_eq.
Qed.

Lemma linked_read env r ec data tail w o w' :
  sane w -> read_complete env r ec data tail w = Some (o, w') -> linked nothing w -> linked nothing w'.
Proof.
  intros [Hsock Href] E I. unfold read_complete in E.
  destruct (sessions w !! r) as [s|] eqn:Es; [|done]. simpl in E.
  destruct (reads s) as [|op ops]; [done|]. do 2 (case_match; [done|]). injection E as E.
  set (w1 := upd_session r _ w) in E.
  assert (linked nothing w1) as I1 by (eapply linked_kept; [by apply kept_upd|done]).
  assert (sane w1) as Hs1.
  { split; intros r' s'; unfold w1; simpl; (destruct (decide (r' = r)) as [->|Hne];
      [rewrite lookup_alter_eq, Es; intros [= <-]|rewrite lookup_alter_ne by done; eauto]).
    - exact (Hsock r s Es).
    - exact (Href r s Es). }
  clearbody w1. destruct op; [unfold onReadHead in E|unfold onReadBody in E].
  - destruct (sessions w1 !! r) as [s1|] eqn:Es1; [|by simplify_eq].
    case_match; [simplify_eq; by apply linked_CSession_stop|].
    destruct (checkHead s1) as [[ok s2]|e|u] eqn:Eh; [|by simplify_eq..].
    apply checkHead_links in Eh.
    assert (linked nothing (upd_session r (fun _ => s2) w1)) as I2
      by (eapply linked_kept; [eapply kept_set; [exact Es1|done]|done]).
    destruct ok; injection E as <- <-; [|by apply linked_CSession_stop].
    eapply linked_kept; [by apply kept_upd|exact I2].
  - destruct (sessions w1 !! r) as [s1|] eqn:Es1; [|by simplify_eq].
    case_match; [simplify_eq; by apply linked_CSession_stop|].
    pose proof (linked_dispatch env r s1 tail w1 Hs1 I1) as I2.
    destruct (dispatch env r s1 tail w1) as [[[]|e|u] w2]; injection E as <- <-; try exact I2.
    eapply linked_kept; [etrans; [|apply kept_doRead]; by apply kept_upd|exact I2].
Qed.

(** *** The other events *)

Lemma linked_on_session r f w o w' :
  (forall s s', f s = Some (Ok s') -> links s' = links s) ->
  on_session r f w = Some (o, w') -> linked nothing w -> linked nothing w'.
Proof.
  unfold on_session. intros Hf E. destruct (sessions w !! r) as [s|] eqn:Es; [|done]. simpl in E.
  destruct (f s) as [x|] eqn:Ex; [|done]. simpl in E.
  destruct x; simplify_eq; try done. apply linked_kept. eapply kept_set; eauto.
Qed.

Lemma run_post_links s s' : run_post s = Some (Ok s') -> links s' = links s.
Proof.
  unfold run_post, writeImpl, write. intros E. repeat (case_match; simplify_eq/=; try done).
Qed.

Lemma onWriteComplete_links failed s s' :
  onWriteComplete failed s = Some (Ok s') -> links s' = links s.
Proof.
  unfold onWriteComplete, write. intros E.
  destruct failed; repeat (case_match; simplify_eq/=; try done).
Qed.

Lemma linked_onTimeout r w w' : onTimeout r w = Some w' -> linked nothing w -> linked nothing w'.
Proof.
  unfold onTimeout. intros E I. destruct (sessions w !! r) as [s|]; [|done]. simpl in E.
  assert (linked nothing (upd_session r (set_timer TimerNone) w)) as I1
    by (eapply linked_kept; [by apply kept_upd|done]).
  destruct (timer s); simplify_eq/=; [by apply linked_CSession_stop|done].
Qed.

(** A coroutine step, and the [stop] it may end with. *)
Lemma kept_resumed c ch ch' w :
  channels w !! c = Some ch -> weaker ch ch' -> kept w (upd_channel c (fun _ => ch') w).
Proof. intros Ec Hw. apply kept_channel. intros ch0 E0. by simplify_eq. Qed.

Lemma linked_apply_co c ch (res : co_result) w :
  channels w !! c = Some ch -> fixed_part res.1 = fixed_part ch -> linked nothing w -> linked nothing (apply_co c res w).
Proof.
  intros Ec Hf I. unfold apply_co.
  assert (linked nothing (upd_channel c (fun _ => res.1) w)) as I1
    by (eapply linked_kept; [eapply kept_resumed; [exact Ec|by apply weaker_fixed]|done]).
  destruct (res.2); [by apply linked_stop|done].
Qed.

(** An expiry checker only ever drops the owner. *)
Lemma checker_step_owner t failed pc e r :
  _owner_ss (checker_step t failed pc e).2 = Some r -> _owner_ss e = Some r.
Proof. unfold checker_step, checker_loop. by repeat (case_match; simpl). Qed.

Lemma linked_accept a w : sane w -> linked nothing w -> linked nothing (acceptor a w).2.
Proof.
  intros [_ Href] I.
  assert (linked nothing (start_accepted a (count_conn w)).2) as Hs.
  2: { unfold acceptor. repeat (case_match; [exact I|]). case_match; [|exact I]. by case_match. }
  assert (forall w', channels w' = channels w -> heap_next w' = S (heap_next w) ->
    (forall r, r <> heap_next w -> sessions w' !! r = sessions w !! r) -> linked nothing w') as Hnew.
  { intros w' C N S c ch E. rewrite C in E. intros Hst d r Eo.
    destruct (I c ch E Hst d r Eo) as [Hl Hr]. split; [|lia].
    unfold looked_after, holds, live, entry in *. by rewrite S by lia. }
  unfold start_accepted, CSession_start. simpl. rewrite lookup_insert_eq. simpl.
  case_match; simpl; apply Hnew; try done;
    intros r Hne; simpl; rewrite ?lookup_alter_ne, ?lookup_insert_ne by done; done.
Qed.

Lemma linked_step e w o w' :
  sane w -> step e w = Some (o, w') -> goes_on o = true -> linked nothing w -> linked nothing w'.
Proof.
  intros Hs E Ho I. destruct e; simpl in E; try match type of E with
    | quiet _ = _ => apply fmap_Some in E as (w1 & E & [= -> ->])
    end.
  - injection E as E. pose proof (linked_accept a w Hs I) as I'. by rewrite E in I'.
  - by eapply linked_read.
  - eapply linked_on_session; [|exact E|done]. apply run_post_links.
  - eapply linked_on_session; [|exact E|done]. apply onWriteComplete_links.
  - eapply linked_on_session; [|exact E|done]. intros s s'. unfold timer_fire.
    case_match; intros; by simplify_eq/=.
  - by eapply linked_onTimeout.
  - eapply linked_on_session; [|exact E|done]. intros s s' [= <-]. done.
  - destruct (sessions w !! r) as [s|] eqn:Es; [|done]. simpl in E. case_match; [|done].
    unfold CSession_destroy in E. rewrite Es in E.
    destruct (World._started s) eqn:Est; injection E as <- <-; [done|by eapply linked_session_gone].
  - unfold resume_up in E. apply bind_Some in E as (ch & Ec & E).
    apply bind_Some in E as (res & Er & [= <-]). eapply linked_apply_co; eauto using uploader_fixed.
  - unfold resume_down in E. apply bind_Some in E as (ch & Ec & E).
    apply bind_Some in E as (res & Er & [= <-]). eapply linked_apply_co; eauto using downloader_fixed.
  - unfold resume_display in E. apply bind_Some in E as (ch & Ec & E).
    apply bind_Some in E as (ch' & Ed & [= <-]). eapply linked_kept; [eapply kept_resumed; [exact Ec|]|done].
    unfold displayer_step in Ed. intros Hst. destruct (display_at ch); simplify_eq/=; split_and!; try done; by intros [].
  - unfold resume_checker in E. apply bind_Some in E as (pc & _ & E).
    destruct (channels w !! c) as [ch|] eqn:Ec; [|by injection E as <- <-].
    destruct (checker_step _ _ _ _) as [pc' e'] eqn:Ex. injection E as <- <-.
    apply (f_equal snd) in Ex. simpl in Ex. subst e'.
    eapply linked_kept; [etrans; [apply kept_channel|apply kept_checkers]|done]. intros ch0 E0. simplify_eq.
    intros Hst. destruct src; (split_and!; [done..|]); intros [] r; simpl; eauto using checker_step_owner.
  - by eapply linked_run_stop_post.
  - destruct (channels w !! c) as [ch|]; [|done]. simpl in E. case_match; [|done].
    injection E as <- <-. eapply linked_kept; [apply kept_destroy|done].
  - by injection E as <- <-.
Qed.
End links.

(** ** Reachable states *)

Section reachable.
Context {D : Type} `{SL : SessionStoreLaws D}.

Lemma reach_sane cfg t (d : D) n w : st_inv d -> reach cfg t d n w -> sane w.
Proof. intros Hd Hr. split; [by eapply reach_sock_inv|by intros; eapply reach_ref]. Qed.

Lemma reach_linked cfg t (d : D) n w : st_inv d -> reach cfg t d n w -> linked nothing w.
Proof.
  intros Hd. induction 1 as [|n w e o w' Hr IH E Ho|n w d' Hr IH _].
  - by intros c ch.
  - eapply linked_step; [by eapply reach_sane|done..].
  - exact IH.
Qed.
End reachable.

(** In words: an owner of a started channel runs and can stop it, or the channel
    is about to be stopped. *)
Definition stop_pending `{SessionStore D} (w : World D) c : Prop :=
  exists w' ch', step (EvStopPost c) w = Some (Ok tt, w') /\
    channels w' !! c = Some ch' /\ ch_started ch' = false.

Lemma linked_means `{SessionStore D} (w : World D) c ch sd r :
  linked nothing w -> channels w !! c = Some ch -> ch_started ch = true ->
  _owner_ss (end_of sd ch) = Some r ->
  (exists s, sessions w !! r = Some s /\ World._started s = true /\ map_of sd s !! ch_id ch = Some c) \/
  stop_pending w c.
Proof.
  intros I Ec Hst Eo. destruct (I c ch Ec Hst sd r Eo) as [[Hh Hp] _].
  assert ((0 < stop_posts ch)%nat -> stop_pending w c) as Hpost.
  { destruct (stop_posts ch) as [|k] eqn:Ek; [lia|]. intros _.
    eexists _, _. simpl. unfold run_stop_post. rewrite Ec, Ek. split; [done|].
    rewrite channels_CChannel_stop. simpl. rewrite !lookup_alter_eq, Ec. split; [done|].
    unfold stop_of. by case_match. }
  unfold holds, live, entry, nothing in Hh, Hp. destruct (sessions w !! r) as [s|] eqn:Es; [|auto].
  destruct (World._started s) eqn:Hs; simpl in Hh, Hp; [|auto]. left. exists s. auto.
Qed.

(** ** Properties *)

(** C9. No channel is forgotten: in every reachable state a session that owns
    an end of a started channel either runs and has the channel registered,
    under the channel's id, in the map of that side, so that its [stop] will
    reach the channel; or a posted [stop] of the channel is pending, and once
    it has run the channel is off.  This holds although channels and sessions
    only keep weak pointers to each other, when a session proxies to itself,
    when channel ids wrap around, and when either side is destroyed first.  (An
    end whose port has expired has given up its owner.) *)
Theorem channels_never_forgotten `{SL : SessionStoreLaws D} cfg t (d : D) n w c ch sd r :
  st_inv d -> reach cfg t d n w ->
  channels w !! c = Some ch -> ch_started ch = true -> _owner_ss (end_of sd ch) = Some r ->
  (exists s, sessions w !! r = Some s /\ World._started s = true /\ map_of sd s !! ch_id ch = Some c) \/
  stop_pending w c.
Proof. intros Hd Hr. apply linked_means. by eapply reach_linked. Qed.

(** The connection of the source session breaks. *)
Definition broken : World CSessionDb := after [EvRead 1 true [] [] demo_env] channel_world.

Lemma channels_never_forgotten_witness :
  ch_started (channel_at 2 broken) = true /\ World._started (session_at 1 broken) = false /\
  stop_pending broken 2.
Proof.
  split; [by vm_compute|]. split; [by vm_compute|].
  destruct (channels_never_forgotten demo_cfg 0 (start (new_db [])) 9 broken 2 (channel_at 2 broken) Src 1
              demo_db_inv) as [(s & Es & Hs & _)|Hpost];
    [apply (reach_after (with_channel ++ [EvRead 1 true [] [] demo_env])); by vm_compute|by vm_compute..| |exact Hpost].
  exfalso. vm_compute in Es. injection Es as <-. vm_compute in Hs. discriminate Hs.
Defined.

(** Channel ids are 32 bits wide and wrap around.  A request that draws an id
    which the requester or the destination still uses is refused: the
    requester gets the error code CREATE_UDP_FAILED, every session keeps its
    channels, and no channel appears. *)
Theorem channel_id_in_use `{SessionStore D} (w : World D) env src dst req :
  server_alive w = true -> ctor_ok env = true -> getSessionWithLock (px_uiDstId req) w = Some dst ->
  is_Some (entry w Src src (_channel_id (mgr w))) \/ is_Some (entry w Dst dst (_channel_id (mgr w))) ->
  exists w', onReqProxy env src req w =
      (Ok tt, doWrite src (proxy_err_msg req ERRCODE.CREATE_UDP_FAILED) w') /\
    (forall d r id c, entry w d r id = Some c -> entry w' d r id = Some c) /\
    (forall r, isRuning r w' = isRuning r w) /\
    (forall c ch, channels w' !! c = Some ch -> channels w !! c = Some ch).
Proof.
  intros Ha Hok Hd Hin.
  destruct (createChannel_id_in_use env src dst (px_uiDstId req) w Ha Hok Hd Hin) as (w' & E & X & C).
  exists w'. unfold onReqProxy. rewrite E. split; [done|]. split; [apply X|]. split; [|done].
  intros r. pose proof (ex_live _ _ X nothing Src r) as El. unfold live, nothing in El. unfold isRuning.
  destruct (sessions w !! r), (sessions w' !! r); by rewrite ?orb_false_r in El.
Qed.

(** The counter has come round to the id of the open channel. *)
Definition wrapped_world : World CSessionDb := upd_mgr (set_channel_id 1) channel_world.

Definition again : CReqProxyPkt :=
  {| px_header := req_hdr FUNC_REQ.PROXY 9; px_uiId := 1001; px_uiDstId := 1000; px_szGameId := [] |}.

Lemma channel_id_in_use_witness :
  exists w', onReqProxy demo_env 1 again wrapped_world =
      (Ok tt, doWrite 1 (proxy_err_msg again ERRCODE.CREATE_UDP_FAILED) w') /\
    (forall r, isRuning r w' = isRuning r wrapped_world).
Proof.
  destruct (channel_id_in_use wrapped_world demo_env 1 0 again) as (w' & E & _ & R & _);
    [vm_compute; reflexivity..|left; vm_compute; by eexists|].
  exists w'. split; [exact E|exact R].
Defined.
