(* ===== verification/ProxyRace.v ===== *)
(** * A proxy request while the destination stops

    [onReqProxy] runs on the strand of the requesting session; the session it
    asks for lives on another [io_context] and may stop at the same time, and
    the strand of the new channel runs posted calls on a third thread.  Here
    the two handlers ([src/net/CSession.cpp], with [createChannel] of
    [CSessionMgr.cpp] and [CChannel::init]) are cut where one of them touches
    what the other uses, and the pieces are interleaved freely.

    The test of [isRuning()] in [onReqProxy] is meant for this race.  It closes
    it but for one window: between the test and [chann->start()]. *)
From S2P Require Import Prelude Protocol SafeContainers SessionStore SessionDb World SessionOut Channel SessionMgr Session Server Scenario Frames SessionMachine Refinement RequestFacts ChannelFacts SessionFacts ChannelLinks.

(** ** The two handlers, cut into moves *)

Inductive req_pc :=
| RCreate (* createChannel up to make_shared<CChannel> *)
| RInit (c : cref) (dst : sref) (* init: the two ends *)
| RAddSrc (c : cref) (dst : sref) (* init: addSrcChannel *)
| RAddDst (c : cref) (dst : sref) (* init: addDstChannel *)
| RTest (c : cref) (* getDstSession().lock(), isRuning() *)
| RStart (c : cref) (dst : sref) (* chann->start() *)
| RReply (c : cref) (dst : sref) (* the two answers *)
| RDone (o : outcome unit).

Inductive stop_pc :=
| SMark (* the timer, the socket, _started = false *)
| SSrc (* _src_channels.stopAll() *)
| SDst (* _dst_channels.stopAll() *)
| SClose (* closeSessionWithLock *)
| SDone.

Section race.
Context {D : Type} `{SessionStore D}.
Implicit Types (w : World D) (r : sref) (c : cref).

(** [init] has failed: [stop()], the last [ChannelPtr] goes, the negative
    answer. *)
Definition refuse r (req : CReqProxyPkt) c w : req_pc * World D :=
  (RDone (Ok tt),
   onRespProxyErr r req ERRCODE.CREATE_UDP_FAILED (CChannel_destroy c (CChannel_stop c w))).

Definition req_move (env : chan_env) r (req : CReqProxyPkt) (pc : req_pc) w : req_pc * World D :=
  match pc with
  | RCreate =>
      if negb (server_alive w) then
        (RDone (Ok tt), onRespProxyErr r req ERRCODE.CREATE_UDP_FAILED w)
      else
      match getSessionWithLock (px_uiDstId req) w with
      | None => (RDone (Ok tt), onRespProxyErr r req ERRCODE.CREATE_UDP_FAILED w)
      | Some dst =>
          let '(id, w) := allocChannelId w in
          if negb (ctor_ok env) then (RDone (Throw system_error), w) else
          let '(c, w) := make_channel id w in (RInit c dst, w)
      end
  | RInit c dst =>
      match channels w !! c, sessions w !! r, sessions w !! dst with
      | Some ch, Some src_ss, Some dst_ss =>
          let '(ok, e) := CEnd_init r src_ss (src_port env) (_src_end ch) in
          let w := upd_channel c (set_src_end e) w in
          if negb ok then refuse r req c w else
          let w := spawn_checker c true e w in
          let '(ok, e) := CEnd_init dst dst_ss (dst_port env) (_dst_end ch) in
          let w := upd_channel c (set_dst_end e) w in
          if negb ok then refuse r req c w else (RAddSrc c dst, spawn_checker c false e w)
      | _, _, _ => refuse r req c w
      end
  | RAddSrc c dst =>
      match channels w !! c with
      | Some ch =>
          let '(ok, w) := addSrcChannel r (ch_id ch) c w in
          if negb ok then refuse r req c w else (RAddDst c dst, w)
      | None => refuse r req c w
      end
  | RAddDst c dst =>
      match channels w !! c with
      | Some ch =>
          let '(ok, w) := addDstChannel dst (ch_id ch) c w in
          if negb ok then refuse r req c (closeSrcChannel r ch w) else (RTest c, w)
      | None => refuse r req c w
      end
  | RTest c =>
      match dst_session c w with
      | None => (RDone (Ok tt), CChannel_destroy c w)
      | Some dst => if negb (isRuning dst w) then (RDone (Ok tt), CChannel_destroy c w) else (RStart c dst, w)
      end
  | RStart c dst => (RReply c dst, CChannel_start c w)
  | RReply c dst =>
      (RDone (Ok tt),
       match channels w !! c with
       | Some ch => onRespProxyOk r req ch (onRespAccess dst req ch w)
       | None => w
       end)
  | RDone o => (RDone o, w)
  end.

Definition stop_move (q : sref) (pc : stop_pc) w : stop_pc * World D :=
  match pc with
  | SMark =>
      match sessions w !! q with
      | None => (SDone, w)
      | Some s =>
          if _started s then
            (SSrc, upd_session q (fun s => set_started false (set_sock None None (timer_cancel s))) w)
          else (SDone, upd_session q (fun s => set_sock None None (timer_cancel s)) w)
      end
  | SSrc => (SDst, stop_src_channels q w)
  | SDst => (SClose, stop_dst_channels q w)
  | SClose => (SDone, closeSessionWithLock q w)
  | SDone => (SDone, w)
  end.

(** A request and a [stop] under way. *)
Record race := mkRace { rc_req : req_pc; rc_stop : stop_pc; rc_world : World D }.

Inductive move :=
| MReq (* the requesting strand goes on *)
| MStop (* the stopping session goes on *)
| MRun (c : cref) (* a strand runs a posted [CChannel::stop] *).

Context (env : chan_env) (src : sref) (req : CReqProxyPkt) (q : sref).

Definition race_move (m : move) (st : race) : race :=
  match m with
  | MReq => let '(pc, w) := req_move env src req (rc_req st) (rc_world st) in mkRace pc (rc_stop st) w
  | MStop => let '(pc, w) := stop_move q (rc_stop st) (rc_world st) in mkRace (rc_req st) pc w
  | MRun c =>
      match run_stop_post c (rc_world st) with
      | Some w => mkRace (rc_req st) (rc_stop st) w
      | None => st
      end
  end.

Definition race_run (ms : list move) (st : race) : race := foldl (fun st m => race_move m st) st ms.

(** The window: [q] is about to be marked as stopped, and the request has found
    it running but not started the channel. *)
Definition in_window (st : race) : bool :=
  match rc_stop st, rc_req st with SMark, RStart _ dst => bool_decide (dst = q) | _, _ => false end.

Fixpoint misses_window (ms : list move) (st : race) : bool :=
  match ms with
  | [] => true
  | m :: ms =>
      match m with MStop => negb (in_window st) | _ => true end && misses_window ms (race_move m st)
  end.

(** ** Without interference these are the two handlers *)

Lemma channels_addSrcChannel r id c w : channels (addSrcChannel r id c w).2 = channels w.
Proof. unfold addSrcChannel. repeat (case_match; simplify_eq/=; try done). Qed.

Lemma channels_addDstChannel r id c w : channels (addDstChannel r id c w).2 = channels w.
Proof. unfold addDstChannel. repeat (case_match; simplify_eq/=; try done). Qed.

(** [n] moves of the request on its own. *)
Fixpoint reqs (n : nat) (x : req_pc * World D) : req_pc * World D :=
  match n with O => x | S n => reqs n (req_move env src req x.1 x.2) end.

Lemma reqs_done n o w : reqs n (RDone o, w) = (RDone o, w).
Proof. induction n; [done|exact IHn]. Qed.

Lemma reqs_refuse n c w : reqs n (refuse src req c w) = refuse src req c w.
Proof. apply reqs_done. Qed.

Lemma reqs_init c dst w :
  reqs 3 (RInit c dst, w) =
  match CChannel_init c src dst (src_port env) (dst_port env) w with
  | (true, w) => (RTest c, w)
  | (false, w) => refuse src req c w
  end.
Proof.
  change (reqs 3 (RInit c dst, w)) with (reqs 2 (req_move env src req (RInit c dst) w)).
  unfold CChannel_init. cbn [req_move].
  destruct (channels w !! c) as [ch|] eqn:Ec; [|apply reqs_refuse].
  destruct (sessions w !! src) as [s1|]; [|apply reqs_refuse].
  destruct (sessions w !! dst) as [s2|]; [|apply reqs_refuse].
  destruct (CEnd_init src s1 _ _) as [[] e1]; cbn [negb]; [|apply reqs_refuse].
  destruct (CEnd_init dst s2 _ _) as [[] e2]; cbn [negb]; [|apply reqs_refuse].
  match goal with |- context [spawn_checker c false e2 ?x] => set (w1 := spawn_checker c false e2 x) end.
  assert (channels w1 !! c = Some (set_dst_end e2 (set_src_end e1 ch))) as E1
    by (unfold w1; simpl; by rewrite !lookup_alter_eq, Ec).
  clearbody w1. set (ch1 := set_dst_end e2 (set_src_end e1 ch)) in *.
  change (ch_id ch) with (ch_id ch1). clearbody ch1.
  change (reqs 2 (RAddSrc c dst, w1)) with (reqs 1 (req_move env src req (RAddSrc c dst) w1)).
  cbn [req_move]. rewrite E1. pose proof (channels_addSrcChannel src (ch_id ch1) c w1) as C2.
  destruct (addSrcChannel src (ch_id ch1) c w1) as [[] w2]; cbn [negb]; [|apply reqs_refuse].
  simpl in C2. rewrite <-C2 in E1.
  change (reqs 1 (RAddDst c dst, w2)) with (req_move env src req (RAddDst c dst) w2).
  cbn [req_move]. rewrite E1. pose proof (channels_addDstChannel dst (ch_id ch1) c w2) as C3.
  destruct (addDstChannel dst (ch_id ch1) c w2) as [[] w3]; cbn [negb]; [done|].
  simpl in C3. by rewrite C3, E1.
Qed.

Lemma reqs_test c w :
  reqs 3 (RTest c, w) =
  match dst_session c w with
  | None => (RDone (Ok tt), CChannel_destroy c w)
  | Some dst =>
      if negb (isRuning dst w) then (RDone (Ok tt), CChannel_destroy c w) else
      let w := CChannel_start c w in
      (RDone (Ok tt),
       match channels w !! c with
       | Some ch => onRespProxyOk src req ch (onRespAccess dst req ch w)
       | None => w
       end)
  end.
Proof. simpl. destruct (dst_session c w) as [dst|]; [|done]. by destruct (isRuning dst w). Qed.

Lemma reqs_app m n x : reqs (m + n) x = reqs n (reqs m x).
Proof. revert x. induction m as [|m IH]; intros x; [done|]. apply IH. Qed.

Lemma reqs_alone w :
  reqs 7 (RCreate, w) = let '(o, w') := onReqProxy env src req w in (RDone o, w').
Proof.
  change 7%nat with (1 + (3 + 3))%nat. rewrite reqs_app.
  change (reqs 1 (RCreate, w)) with (req_move env src req RCreate w).
  unfold onReqProxy, createChannel. cbn [req_move].
  destruct (server_alive w); cbn [negb]; [|apply reqs_done].
  destruct (getSessionWithLock (px_uiDstId req) w) as [dst|]; [|apply reqs_done].
  cbn [allocChannelId]. destruct (ctor_ok env); cbn [negb]; [|apply reqs_done].
  cbn [make_channel]. rewrite reqs_app, reqs_init.
  destruct (CChannel_init _ src dst _ _ _) as [[] w2]; [|apply reqs_refuse].
  rewrite reqs_test. destruct (dst_session _ w2) as [dst'|]; [|done].
  destruct (isRuning dst' w2); cbn [negb]; [|done]. cbv zeta. by case_match.
Qed.

Lemma race_reqs n pc pc0 w :
  race_run (replicate n MReq) (mkRace pc pc0 w) =
  let '(pc', w') := reqs n (pc, w) in mkRace pc' pc0 w'.
Proof.
  revert pc w. induction n as [|n IH]; intros pc w; [done|].
  change (race_run (replicate n MReq) (race_move MReq (mkRace pc pc0 w)) =
    let '(pc', w') := reqs n (req_move env src req pc w) in mkRace pc' pc0 w').
  unfold race_move. cbn [rc_req rc_stop rc_world].
  destruct (req_move env src req pc w) as [pc1 w1]. apply IH.
Qed.

(** A request that nobody interrupts is [onReqProxy]. *)
Lemma request_alone w pc :
  race_run (replicate 7 MReq) (mkRace RCreate pc w) =
  let '(o, w') := onReqProxy env src req w in mkRace (RDone o) pc w'.
Proof. rewrite race_reqs, reqs_alone. by destruct (onReqProxy env src req w). Qed.

(** So is a [stop] that nobody interrupts. *)
Lemma stop_alone w pc :
  race_run [MStop; MStop; MStop; MStop] (mkRace pc SMark w) = mkRace pc SDone (CSession_stop q w).
Proof.
  unfold race_run, CSession_stop. simpl. destruct (sessions w !! q) as [s|]; [|done].
  by destruct (_started s).
Qed.
End race.
Arguments race : clear implicits.

(** ** What the moves keep *)

(** The maps that the stopping session has still to work through. *)
Definition left_at (q : sref) (pc : stop_pc) : pending :=
  match pc with SSrc => left_of q [Src; Dst] | SDst => left_of q [Dst] | _ => nothing end.

Definition vital (s : CSession) := (World._started s, sock_remote s).

Section facts.
Context {D : Type} `{SessionStore D}.
Implicit Types (w : World D) (p : pending) (r : sref) (c : cref).

Lemma live_nothing w d r : live nothing w d r = isRuning r w.
Proof. unfold live, isRuning. case_match; [|done]. by rewrite orb_false_r. Qed.

(** Nobody is started or stopped. *)
Definition calm w w' : Prop :=
  vital <$> sessions w' = vital <$> sessions w /\ (heap_next w <= heap_next w')%nat.

Lemma calm_frame w w' : frame w w' -> calm w w'.
Proof.
  intros F. split; [|apply F]. apply frame_proj; [|done].
  intros s s' E. apply core_eq_io in E. unfold vital. intuition congruence.
Qed.

Lemma calm_lookup w w' r :
  calm w w' -> vital <$> sessions w' !! r = vital <$> sessions w !! r.
Proof. intros [E _]. by rewrite <-!lookup_fmap, E. Qed.

Lemma calm_running w w' r : calm w w' -> isRuning r w' = isRuning r w.
Proof.
  intros Hc%(calm_lookup w w' r). unfold isRuning.
  destruct (sessions w !! r), (sessions w' !! r); simpl in Hc; try done. unfold vital in Hc. congruence.
Qed.

Lemma calm_sane w w' : calm w w' -> sane w -> sane w'.
Proof.
  intros Hc [Hsock Href]. pose proof (proj2 Hc) as Hn.
  split; intros r s' E; apply (calm_lookup w w' r) in Hc; rewrite E in Hc; simpl in Hc;
    destruct (sessions w !! r) as [s|] eqn:Es; try done; unfold vital in Hc; simpl in Hc.
  - specialize (Hsock r s Es). unfold sock_inv in *. injection Hc as -> ->. done.
  - specialize (Href r s Es). lia.
Qed.

Lemma calm_stopped w w' q s :
  calm w w' -> sessions w !! q = Some s -> World._started s = false ->
  exists s', sessions w' !! q = Some s' /\ World._started s' = false.
Proof.
  intros Hc Es Hs. apply (calm_lookup w w' q) in Hc. rewrite Es in Hc. simpl in Hc.
  destruct (sessions w' !! q) as [s'|]; [|done]. exists s'. split; [done|]. unfold vital in Hc. simpl in Hc. congruence.
Qed.

Lemma sane_unsocket q f w : (forall s, sock_remote (f s) = None) -> sane w -> sane (upd_session q f w).
Proof.
  intros Hf [Hsock Href]. split; intros r s' E; simpl in E;
    (destruct (decide (q = r)) as [<-|Hne];
      [rewrite lookup_alter_eq in E; destruct (sessions w !! q) as [s|] eqn:Es; [|done]; injection E as <-
      |rewrite lookup_alter_ne in E by done; eauto]).
  - unfold sock_inv. by rewrite Hf.
  - simpl. eauto.
Qed.

(** *** The channel in the hands of the request *)

Definition same_chan (ch ch' : CChannel) : Prop :=
  ch_started ch' = ch_started ch /\ ch_id ch' = ch_id ch /\
  forall d, _owner_ss (end_of d ch') = _owner_ss (end_of d ch).

Definition same_chan_at c w w' : Prop :=
  forall ch, channels w !! c = Some ch -> exists ch', channels w' !! c = Some ch' /\ same_chan ch ch'.

Definition unstarted_at c w : Prop := exists ch, channels w !! c = Some ch /\ ch_started ch = false.

(** [c] between its [init] and [start]: not started, owned by [src] and [dst],
    and in the maps of the sides [ds]. *)
Record waits (ds : list side) p w c src dst : Prop := {
  wt_chan : unstarted_at c w;
  wt_owned : owned_by src dst c w;
  wt_held : forall ch d r, channels w !! c = Some ch -> d ∈ ds -> _owner_ss (end_of d ch) = Some r ->
    holds p w d c (ch_id ch) r;
  wt_ref : (src < heap_next w)%nat /\ (dst < heap_next w)%nat;
  wt_runs : isRuning src w = true
}.

Lemma waits_ready p w c src dst : waits [Src; Dst] p w c src dst -> ready p w c.
Proof.
  intros [(ch & Ec & Hst) (ch' & Ec' & O1 & O2) Hh [H1 H2] _]. simplify_eq.
  exists ch. split; [done|]. split; [done|]. intros d r Er. split.
  - apply Hh; [done|by destruct d; set_solver|done].
  - destruct d; simpl in Er; rewrite Er in *; simplify_eq; lia.
Qed.

Lemma waits_step ds p p' w w' c src dst :
  (forall d id r, holds p w d c id r -> holds p' w' d c id r) -> (heap_next w <= heap_next w')%nat ->
  same_chan_at c w w' -> isRuning src w' = isRuning src w ->
  waits ds p w c src dst -> waits ds p' w' c src dst.
Proof.
  intros Hh Hn Hc Hr [(ch & Ec & Hst) (ch0 & Ec0 & O1 & O2) Hd [H1 H2] Hrun]. simplify_eq.
  destruct (Hc ch Ec) as (ch' & Ec' & Es & Ei & Eo).
  pose proof (Eo Src) as Eo1. pose proof (Eo Dst) as Eo2. simpl in Eo1, Eo2. split.
  - exists ch'. split; [done|congruence].
  - exists ch'. split_and!; [done|congruence..].
  - intros ch1 d r E1 Hin Er. simplify_eq. rewrite Eo in Er. rewrite Ei. eauto.
  - lia.
  - congruence.
Qed.

Lemma linked_unstarted p w c : linked_but p c w -> unstarted_at c w -> linked p w.
Proof.
  intros I (ch & Ec & Hst) c' ch' E. destruct (decide (c' = c)) as [->|Hne]; [|by apply I].
  intros Hs. congruence.
Qed.

Lemma linked_is_but p w c : linked p w -> linked_but p c w.
Proof. intros I c' ch _. apply I. Qed.

Lemma same_chan_run_stop c c0 w w' :
  run_stop_post c0 w = Some w' ->
  unstarted_at c w -> same_chan_at c w w'.
Proof.
  unfold run_stop_post. destruct (channels w !! c0) as [ch0|] eqn:Ec0; [|done].
  destruct (stop_posts ch0) as [|k]; [done|]. intros [= <-] (ch1 & Ec1 & Hst) ch Ec.
  assert (ch1 = ch) as -> by congruence.
  rewrite channels_CChannel_stop. simpl. destruct (decide (c0 = c)) as [->|Hne].
  - rewrite !lookup_alter_eq, Ec. simpl. eexists. split; [done|]. unfold stop_of. simpl. rewrite Hst. by split.
  - rewrite !lookup_alter_ne, Ec by done. by exists ch.
Qed.

(** Running a posted [stop] of [c0] leaves [c], not started, in its maps. *)
Lemma holds_run_stop p c c0 w w' d id r :
  run_stop_post c0 w = Some w' -> linked p w -> unstarted_at c w ->
  holds p w d c id r -> holds p w' d c id r.
Proof.
  unfold run_stop_post. destruct (channels w !! c0) as [ch0|] eqn:Ec0; [|done].
  destruct (stop_posts ch0) as [|k]; [done|]. intros [= <-] I (ch & Ec & Hst) Hh.
  set (w1 := upd_channel c0 (set_stop_posts k) w).
  assert (channels w1 !! c0 = Some (set_stop_posts k ch0)) as E1
    by (unfold w1; simpl; by rewrite lookup_alter_eq, Ec0).
  destruct (decide (c = c0)) as [->|Hne].
  - unfold CChannel_stop. rewrite E1. assert (ch0 = ch) as -> by congruence. simpl. by rewrite Hst.
  - eapply (holds_CChannel_stop p c0 w1); [exact E1| |done|exact Hh].
    exact (cared_for_registered p w c0 ch0 (I c0 ch0 Ec0)).
Qed.

Lemma kept_same_chan_emptied d0 q s w w' c :
  emptied d0 q s w w' -> same_chan_at c w w'.
Proof.
  intros Em ch Ec. rewrite (em_chan _ _ _ _ _ Em), Ec. simpl. eexists. split; [done|].
  split_and!; [done|done|]. by intros [].
Qed.
End facts.

(** ** The invariant of the race *)

Section invariant.
Context {D : Type} `{SessionStore D}.
Context (env : chan_env) (src : sref) (req : CReqProxyPkt) (q : sref).
Context (src_q : src <> q).
Implicit Types (w : World D) (p : pending) (c : cref) (st : race D).

Definition stop_ok (pc : stop_pc) w : Prop :=
  match pc with
  | SSrc | SDst => exists s, sessions w !! q = Some s /\ World._started s = false
  | _ => True
  end.

Definition req_ok (pc : req_pc) p w : Prop :=
  match pc with
  | RInit c _ => unstarted_at c w
  | RAddSrc c dst => waits [] p w c src dst
  | RAddDst c dst => waits [Src] p w c src dst
  | RTest c => exists dst, waits [Src; Dst] p w c src dst
  | RStart c dst => waits [Src; Dst] p w c src dst /\ isRuning dst w = true
  | RCreate | RReply _ _ | RDone _ => True
  end.

Record race_ok st : Prop := {
  ro_sane : sane (rc_world st);
  ro_linked : linked (left_at q (rc_stop st)) (rc_world st);
  ro_stop : stop_ok (rc_stop st) (rc_world st);
  ro_req : req_ok (rc_req st) (left_at q (rc_stop st)) (rc_world st)
}.

(** The request's channel is handed on by any step that keeps it in its maps. *)
Lemma req_ok_step pc p p' w w' :
  (forall c d id r, unstarted_at c w -> holds p w d c id r -> holds p' w' d c id r) ->
  (heap_next w <= heap_next w')%nat ->
  (forall c, unstarted_at c w -> same_chan_at c w w') ->
  (forall r, r = src \/ (exists c, pc = RStart c r) -> isRuning r w' = isRuning r w) ->
  req_ok pc p w -> req_ok pc p' w'.
Proof.
  intros Hh Hn Hc Hr.
  assert (forall ds c dst, waits ds p w c src dst -> waits ds p' w' c src dst) as Hw.
  { intros ds c dst Hw. pose proof (wt_chan _ _ _ _ _ _ Hw) as Hu.
    eapply waits_step; [intros d id r; by apply Hh|done|by apply Hc| |exact Hw]. auto. }
  destruct pc as [|c dst|c dst|c dst|c|c dst| |]; simpl; auto.
  - intros (ch & Ec & Hst). destruct (Hc c (ex_intro _ ch (conj Ec Hst)) ch Ec) as (ch' & Ec' & Es & _).
    exists ch'. split; [done|congruence].
  - intros [dst Hd]. eauto.
  - intros [Hd Hrun]. split; [by apply Hw|]. rewrite Hr; [done|]. right. by exists c.
Qed.

Lemma stop_ok_calm pc w w' : calm w w' -> stop_ok pc w -> stop_ok pc w'.
Proof. intros Hc. destruct pc; simpl; try done; intros (s & Es & Hs); by eapply calm_stopped. Qed.

(** *** The moves of the request *)

Lemma frame_refuse c w : frame w (refuse src req c w).2.
Proof.
  simpl. etrans; [apply frame_CChannel_stop|]. etrans; [apply frame_CChannel_destroy|apply frame_doWrite].
Qed.

Lemma frame_req pc w : frame w (req_move env src req pc w).2.
Proof.
  destruct pc as [|c dst|c dst|c dst|c|c dst|c dst|o]; cbn [req_move]; try done.
  - destruct (server_alive w); cbn [negb]; [|apply frame_doWrite].
    destruct (getSessionWithLock _ w) as [dst|]; [|apply frame_doWrite].
    cbn [allocChannelId]. destruct (ctor_ok env); cbn [negb make_channel snd]; [|apply frame_channel_id].
    etrans; [apply (frame_channel_id (wrap 32 (_channel_id (mgr w) + 1)))|].
    etrans; [apply frame_channels|apply frame_heap; simpl; lia].
  - destruct (channels w !! c) as [ch|]; [|apply frame_refuse].
    destruct (sessions w !! src) as [s1|]; [|apply frame_refuse].
    destruct (sessions w !! dst) as [s2|]; [|apply frame_refuse].
    destruct (CEnd_init src s1 _ _) as [[] e1]; cbn [negb];
      [|etrans; [apply (frame_channels (alter (set_src_end e1) c (channels w)))|apply frame_refuse]].
    set (w1 := spawn_checker c true e1 _).
    assert (frame w w1) as F1 by (etrans; [apply frame_channels|apply frame_checkers]). clearbody w1.
    destruct (CEnd_init dst s2 _ _) as [[] e2]; cbn [negb]; (etrans; [exact F1|]);
      [etrans; [apply frame_channels|apply frame_checkers]|].
    etrans; [apply (frame_channels (alter (set_dst_end e2) c (channels w1)))|apply frame_refuse].
  - destruct (channels w !! c) as [ch|]; [|apply frame_refuse].
    pose proof (frame_addSrcChannel src (ch_id ch) c w) as F.
    destruct (addSrcChannel src (ch_id ch) c w) as [[] w1]; cbn [negb]; [exact F|].
    etrans; [exact F|apply frame_refuse].
  - destruct (channels w !! c) as [ch|]; [|apply frame_refuse].
    pose proof (frame_addDstChannel dst (ch_id ch) c w) as F.
    destruct (addDstChannel dst (ch_id ch) c w) as [[] w1]; cbn [negb]; [exact F|].
    etrans; [exact F|]. etrans; [apply frame_closeSrcChannel|apply frame_refuse].
  - case_match; [case_match|]; simpl; try done; apply frame_CChannel_destroy.
  - simpl. case_match; [|done]. etrans; [apply frame_onRespAccess|apply frame_doWrite].
Qed.

Lemma linked_refuse p c w : linked p w -> linked p (refuse src req c w).2.
Proof.
  intros I. eapply linked_kept; [|by apply (linked_stop p c)].
  etrans; [apply kept_destroy|apply kept_doWrite].
Qed.

(** What a move yields: links as before, and what the next move relies on. *)
Definition good p (x : req_pc * World D) : Prop := linked p x.2 /\ req_ok x.1 p x.2.

Lemma good_refuse p c w : linked p w -> good p (refuse src req c w).
Proof. intros I. split; [by apply linked_refuse|done]. Qed.

Lemma good_done p o w w' : linked p w -> kept w w' -> good p (RDone o, w').
Proof. intros I Hk. split; [by eapply linked_kept|done]. Qed.

(** A change of an end of the unstarted [c]. *)
Lemma kept_unstarted c f w :
  unstarted_at c w -> (forall ch, ch_started (f ch) = ch_started ch) -> kept w (upd_channel c f w).
Proof.
  intros (ch & Ec & Hst) Hf. apply kept_channel. intros ch' E Hst'. rewrite Hf in Hst'. congruence.
Qed.

Lemma good_create p w : linked p w -> good p (req_move env src req RCreate w).
Proof.
  intros I. cbn [req_move].
  destruct (server_alive w); cbn [negb]; [|eapply good_done; [exact I|apply kept_doWrite]].
  destruct (getSessionWithLock _ w) as [dst|]; [|eapply good_done; [exact I|apply kept_doWrite]].
  cbn [allocChannelId]. destruct (ctor_ok env); cbn [negb make_channel];
    [|eapply good_done; [exact I|by apply kept_links]].
  split; simpl; [|eexists; split; [apply lookup_insert_eq|done]].
  eapply linked_unstarted; [|eexists; split; [apply lookup_insert_eq|done]].
  intros c' ch' Hne E. simpl in E. rewrite lookup_insert_ne in E by done.
  eapply cared_for_weaker; [|reflexivity|by apply (I c' ch')]. split; [done|done|simpl; lia].
Qed.

Lemma good_init p c dst w :
  sane w -> linked p w -> unstarted_at c w -> good p (req_move env src req (RInit c dst) w).
Proof.
  intros Hs I Hu. cbn [req_move]. pose proof Hu as (ch & Ec & Hst). rewrite Ec.
  destruct (sessions w !! src) as [s1|] eqn:E1; [|by apply good_refuse].
  destruct (sessions w !! dst) as [s2|] eqn:E2; [|by apply good_refuse].
  pose proof (kept_unstarted c) as Hk.
  destruct (CEnd_init src s1 _ _) as [[] e1] eqn:H1; cbn [negb];
    [|apply good_refuse; eapply linked_kept; [by apply Hk|exact I]].
  destruct (CEnd_init dst s2 _ _) as [ok e2] eqn:H2.
  set (w1 := spawn_checker c true e1 (upd_channel c (set_src_end e1) w)).
  assert (linked p w1) as I1
    by (eapply linked_kept; [apply kept_checkers|eapply linked_kept; [by apply Hk|exact I]]).
  assert (channels w1 !! c = Some (set_src_end e1 ch)) as C1 by (unfold w1; simpl; by rewrite lookup_alter_eq, Ec).
  assert (linked p (upd_channel c (set_dst_end e2) w1)) as I2.
  { eapply linked_kept; [apply Hk; [by eexists|done]|exact I1]. }
  destruct ok; cbn [negb]; [|by apply good_refuse].
  apply CEnd_init_ok in H1 as [O1 R1]. apply CEnd_init_ok in H2 as [O2 R2].
  split; [eapply linked_kept; [apply kept_checkers|exact I2]|]. simpl.
  assert (channels (upd_channel c (set_dst_end e2) w1) !! c = Some (set_dst_end e2 (set_src_end e1 ch))) as C2
    by (change (alter (set_dst_end e2) c (channels w1) !! c = Some (set_dst_end e2 (set_src_end e1 ch)));
        by rewrite lookup_alter_eq, C1).
  split.
  - by eexists.
  - by eexists.
  - intros ch' d r _ Hin. by apply not_elem_of_nil in Hin.
  - split; [exact (sn_ref w Hs src s1 E1)|exact (sn_ref w Hs dst s2 E2)].
  - unfold isRuning. simpl. rewrite E1. exact (sn_sock w Hs src s1 E1 R1).
Qed.

Lemma isRuning_session r w : isRuning r w = true -> exists s, sessions w !! r = Some s.
Proof. unfold isRuning. case_match; [eauto|done]. Qed.

Lemma good_add_src p c dst w :
  linked p w -> waits [] p w c src dst -> good p (req_move env src req (RAddSrc c dst) w).
Proof.
  intros I Hw. cbn [req_move]. pose proof Hw as [Hu (ch & Ec & O1 & O2) _ _ Hrun]. rewrite Ec.
  destruct (isRuning_session src w Hrun) as [s1 E1].
  change (addSrcChannel src (ch_id ch) c w) with (enter Src src (ch_id ch) c w).
  destruct (enter Src src (ch_id ch) c w) as [ok w1] eqn:A. destruct ok; cbn [negb].
  2: { rewrite (enter_eq _ _ _ _ _ s1) in A by done. case_match; [|done]. injection A as <-. by apply good_refuse. }
  apply (enter_entered _ _ _ _ _ s1) in A as [X _ Hh _ C]; [|done]. split.
  - eapply linked_kept; [|exact I]. split; [exact X|by apply all_weaker_same].
  - simpl. assert (waits [] p w1 c src dst) as [W1 W2 _ W4 W5].
    { eapply waits_step; [intros; by eapply holds_extends|apply X| | |exact Hw].
      - intros ch' E. exists ch'. rewrite C. by split.
      - rewrite <-!(live_nothing _ Src). apply X. }
    split; try done. intros ch' d r E Hin Eo. rewrite C in E. apply list_elem_of_singleton in Hin as ->.
    assert (ch' = ch) as -> by congruence. simpl in Eo. assert (r = src) as -> by congruence. by intros _.
Qed.

(** Taking the unstarted [c] out of a map again. *)
Lemma linked_close p d0 r0 c ch w :
  linked p w -> unstarted_at c w -> holds p w d0 c (ch_id ch) r0 -> linked p (close_end d0 r0 ch w).
Proof.
  intros I Hu Hh. assert (channels (close_end d0 r0 ch w) = channels w) as C.
  { unfold close_end, closeSrcChannel, closeDstChannel, onRespStopProxy. destruct d0; by rewrite channels_doWrite. }
  apply (linked_unstarted p _ c); [|destruct Hu as (ch0 & E & ?); exists ch0; by rewrite C].
  intros c' ch' Hne E. rewrite C in E. intros Hst d r Eo.
  destruct (I c' ch' E Hst d r Eo) as [[Hh' Hp] Hr]. rewrite heap_next_close. split; [|done].
  split; [by eapply holds_close; [exact Hh|right|]|by rewrite live_close].
Qed.

Lemma good_add_dst p c dst w :
  linked p w -> waits [Src] p w c src dst -> good p (req_move env src req (RAddDst c dst) w).
Proof.
  intros I Hw. cbn [req_move]. pose proof Hw as [Hu (ch & Ec & O1 & O2) Hsrc _ Hrun]. rewrite Ec.
  assert (good p (refuse src req c (closeSrcChannel src ch w))) as Hfail.
  { apply good_refuse, (linked_close p Src src c ch w I Hu). apply Hsrc; [done|set_solver|done]. }
  change (addDstChannel dst (ch_id ch) c w) with (enter Dst dst (ch_id ch) c w).
  destruct (sessions w !! dst) as [s2|] eqn:E2.
  2: { unfold enter, addDstChannel. rewrite E2. exact Hfail. }
  destruct (enter Dst dst (ch_id ch) c w) as [ok w1] eqn:A. destruct ok; cbn [negb].
  2: { rewrite (enter_eq _ _ _ _ _ s2) in A by done. case_match; [|done]. injection A as <-. exact Hfail. }
  apply (enter_entered _ _ _ _ _ s2) in A as [X _ Hh _ C]; [|done]. split.
  - eapply linked_kept; [|exact I]. split; [exact X|by apply all_weaker_same].
  - simpl. exists dst. assert (waits [Src] p w1 c src dst) as [W1 W2 W3 W4 W5].
    { eapply waits_step; [intros; by eapply holds_extends|apply X| | |exact Hw].
      - intros ch' E. exists ch'. rewrite C. by split.
      - rewrite <-!(live_nothing _ Src). apply X. }
    split; try done. intros ch' d r E Hin Eo. destruct d; [apply W3; [done|set_solver|done]|].
    rewrite C in E. assert (ch' = ch) as -> by congruence.
    simpl in Eo. assert (r = dst) as -> by congruence. by intros _.
Qed.

Lemma good_test p c dst w :
  linked p w -> waits [Src; Dst] p w c src dst -> good p (req_move env src req (RTest c) w).
Proof.
  intros I Hw. cbn [req_move]. pose proof (linked_destroy p c w (linked_is_but p w c I)) as Hdead.
  unfold dst_session. pose proof (wt_owned _ _ _ _ _ _ Hw) as (ch & Ec & _ & O2). rewrite Ec, O2.
  destruct (lock_session (Some dst) w) as [dst'|] eqn:El; [|by split].
  apply lock_session_eq in El as [= <-]. destruct (isRuning dst w) eqn:Er; cbn [negb]; by split.
Qed.

Lemma good_start p c dst w :
  linked p w -> waits [Src; Dst] p w c src dst -> isRuning dst w = true ->
  good p (req_move env src req (RStart c dst) w).
Proof.
  intros I Hw Hdst. split; [|done].
  apply linked_start; [by apply linked_is_but|by eapply waits_ready|].
  apply (owners_live p src dst c w w (wt_owned _ _ _ _ _ _ Hw)); [|done].
  intros r [->| ->]; [exact (wt_runs _ _ _ _ _ _ Hw)|done].
Qed.

Lemma good_move p pc w :
  sane w -> linked p w -> req_ok pc p w -> good p (req_move env src req pc w).
Proof.
  intros Hs I. destruct pc as [|c dst|c dst|c dst|c|c dst|c dst|o]; cbn [req_ok].
  - intros _. by apply good_create.
  - by apply good_init.
  - by apply good_add_src.
  - by apply good_add_dst.
  - intros [dst Hw]. by eapply good_test.
  - intros [Hw Hd]. by apply good_start.
  - intros _. eapply good_done; [exact I|]. case_match; [|done].
    etrans; [apply kept_onRespAccess|apply kept_doWrite].
  - by split.
Qed.

Lemma race_ok_req st : race_ok st -> race_ok (race_move env src req q MReq st).
Proof.
  intros [Hs Hl Hst Hrq]. unfold race_move.
  pose proof (calm_frame _ _ (frame_req (rc_req st) (rc_world st))) as Hc.
  destruct (good_move (left_at q (rc_stop st)) (rc_req st) (rc_world st) Hs Hl Hrq) as [Hl2 Hr2].
  destruct (req_move env src req (rc_req st) (rc_world st)) as [pc w2]. simpl in *.
  split; simpl; [by eapply calm_sane|done|by eapply stop_ok_calm|done].
Qed.

Lemma race_ok_run c st : race_ok st -> race_ok (race_move env src req q (MRun c) st).
Proof.
  intros [Hs Hl Hst Hrq]. unfold race_move. destruct (run_stop_post c (rc_world st)) as [w2|] eqn:E; [|done].
  pose proof (calm_frame _ _ (frame_run_stop_post _ _ _ E)) as Hc.
  split; simpl; [by eapply calm_sane|by eapply linked_run_stop_post|by eapply stop_ok_calm|].
  eapply req_ok_step; [|apply Hc| | |exact Hrq].
  - intros c1 d id r Hn. by eapply holds_run_stop.
  - intros c1 Hn. by eapply same_chan_run_stop.
  - intros r _. by apply calm_running.
Qed.

(** The stopping session, outside the window. *)
Lemma race_ok_mark s st :
  rc_stop st = SMark -> in_window q st = false -> sessions (rc_world st) !! q = Some s ->
  World._started s = true -> race_ok st ->
  race_ok (mkRace (rc_req st) SSrc (upd_session q stopped (rc_world st))).
Proof.
  intros Ep Hw Es Hs [Hsn Hl _ Hrq]. unfold in_window in Hw. rewrite Ep in *. simpl in Hl, Hrq.
  split; simpl.
  - by apply sane_unsocket.
  - by eapply linked_mark.
  - eexists. rewrite lookup_alter_eq, Es. done.
  - apply (req_ok_step _ nothing _ (rc_world st)); [|done| | |exact Hrq].
    + intros c d id r _. unfold holds. by rewrite (live_mark q s), entry_mark.
    + intros c _ ch Ec. by exists ch.
    + intros r Hr. unfold isRuning. simpl. rewrite lookup_alter_ne; [done|].
      destruct Hr as [->|[c Er]]; [done|]. rewrite Er in Hw. apply bool_decide_eq_false in Hw. congruence.
Qed.

Lemma race_ok_emptied d0 l pc pc' s st w' :
  rc_stop st = pc -> left_at q pc = left_of q (d0 :: l) -> d0 ∉ l ->
  (forall d r, left_at q pc' d r = left_of q l d r) ->
  emptied d0 q s (rc_world st) w' -> frame (rc_world st) w' -> 
  (stop_ok pc (rc_world st) -> stop_ok pc' (rc_world st)) ->
  race_ok st -> race_ok (mkRace (rc_req st) pc' w').
Proof.
  intros Ep El Hl Ep' Em F Hok [Hsn Hlk Hst Hrq]. rewrite Ep, El in *. apply calm_frame in F as Hc.
  split; simpl.
  - by eapply calm_sane.
  - apply (linked_pending (left_of q l)); [done|]. by eapply linked_emptied.
  - eapply stop_ok_calm; [exact Hc|auto].
  - eapply req_ok_step; [|apply Hc| | |exact Hrq].
    + intros c d id r _ Hh. unfold holds. rewrite (live_pending _ (left_of q l)) by done.
      by eapply holds_emptied.
    + intros c _. by eapply kept_same_chan_emptied.
    + intros r _. by apply calm_running.
Qed.

Lemma race_ok_kept st pc' w' :
  left_at q pc' = left_at q (rc_stop st) -> stop_ok pc' w' -> kept (rc_world st) w' ->
  channels w' = channels (rc_world st) -> sane w' ->
  race_ok st -> race_ok (mkRace (rc_req st) pc' w').
Proof.
  intros El Hok Hk Ech Hsn [_ Hl _ Hrq]. split; simpl; rewrite ?El; try done.
  - by eapply linked_kept.
  - eapply req_ok_step; [| | | |exact Hrq].
    + intros c d id r _. apply holds_extends, Hk.
    + apply Hk.
    + intros c _ ch Ec. exists ch. by rewrite Ech.
    + intros r _. rewrite <-!(live_nothing _ Src). apply Hk.
Qed.

Lemma race_ok_stop st :
  in_window q st = false -> race_ok st -> race_ok (race_move env src req q MStop st).
Proof.
  intros Hw Hok. unfold race_move, stop_move. destruct (rc_stop st) eqn:Ep.
  - destruct (sessions (rc_world st) !! q) as [s|] eqn:Es; [destruct (World._started s) eqn:Hs|].
    + by eapply race_ok_mark.
    + eapply race_ok_kept; [by rewrite Ep|done| |done| |done].
      * apply kept_upd. intros x. apply links_timer_cancel.
      * apply sane_unsocket; [done|apply Hok].
    + eapply race_ok_kept; [by rewrite Ep|done|done|done|apply Hok|done].
  - pose proof (ro_stop _ Hok) as Hst. rewrite Ep in Hst. destruct Hst as (s & Es & Hs).
    eapply (race_ok_emptied Src [Dst]); [exact Ep|done|set_solver|done|by eapply stop_src_emptied| |done|done].
    apply frame_stop_src_channels.
  - pose proof (ro_stop _ Hok) as Hst. rewrite Ep in Hst. destruct Hst as (s & Es & Hs).
    eapply (race_ok_emptied Dst []); [exact Ep|done|set_solver| |by eapply stop_dst_emptied| |done|done].
    + intros d r. by rewrite left_of_nil.
    + apply frame_stop_dst_channels.
  - destruct (closeSession_same q (rc_world st)) as [S C].
    eapply race_ok_kept; [by rewrite Ep|done|apply closeSession_kept|exact C| |done].
    apply (calm_sane (rc_world st)); [|apply Hok]. split; [by rewrite S|apply closeSession_kept].
  - eapply race_ok_kept; [by rewrite Ep|done|done|done|apply Hok|done].
Qed.

Lemma race_ok_moves ms st :
  misses_window env src req q ms st = true -> race_ok st -> race_ok (race_run env src req q ms st).
Proof.
  revert st. induction ms as [|m ms IH]; intros st; [done|]. simpl.
  intros [H1 H2]%andb_true_iff Hok. apply IH; [done|].
  destruct m; [by apply race_ok_req|apply race_ok_stop; [by apply negb_true_iff|done]|by apply race_ok_run].
Qed.
End invariant.

(** ** Properties *)

(** C10. A proxy request and a [stop] of the session it asks for (or of any
    third session), interleaved in any way with each other and with the posted
    calls that the strands run: unless the session is marked as stopped in the
    window between the test of [isRuning()] and [chann->start()], every started
    channel is looked after from the moment the [stop] has run, however far the
    request has come: each owner of an end either runs and has the channel in
    its map, or the channel is about to be stopped. *)
Theorem proxy_race_safe `{SL : SessionStoreLaws D} cfg t (d : D) n w env src req q ms c ch sd r :
  st_inv d -> reach cfg t d n w -> src <> q ->
  misses_window env src req q ms (mkRace RCreate SMark w) = true ->
  let st := race_run env src req q ms (mkRace RCreate SMark w) in
  rc_stop st = SDone ->
  channels (rc_world st) !! c = Some ch -> ch_started ch = true -> _owner_ss (end_of sd ch) = Some r ->
  (exists s, sessions (rc_world st) !! r = Some s /\ World._started s = true /\
     map_of sd s !! ch_id ch = Some c) \/
  stop_pending (rc_world st) c.
Proof.
  intros Hd Hr Hne Hm st Ep. apply linked_means.
  assert (race_ok src q (mkRace RCreate SMark w)) as Hok.
  { split; simpl; [by eapply reach_sane|by eapply reach_linked|done|done]. }
  pose proof (ro_linked _ _ _ (race_ok_moves env src req q Hne ms _ Hm Hok)) as Hl.
  fold st in Hl. by rewrite Ep in Hl.
Qed.

(** The destination of a granted request stops while the answers are sent. *)
Definition race_req : CReqProxyPkt :=
  {| px_header := req_hdr FUNC_REQ.PROXY 9; px_uiId := 1001; px_uiDstId := 1000; px_szGameId := [] |}.

Definition race_after (ms : list move) : race CSessionDb :=
  race_run demo_env 1 race_req 0 ms (mkRace RCreate SMark logins_world).

Definition late_stop : list move := replicate 6 MReq ++ [MStop; MStop; MReq; MStop; MStop].

Lemma proxy_race_safe_witness :
  ch_started (channel_at 2 (rc_world (race_after late_stop))) = true /\
  World._started (session_at 0 (rc_world (race_after late_stop))) = false /\
  stop_pending (rc_world (race_after late_stop)) 2.
Proof.
  split; [by vm_compute|]. split; [by vm_compute|].
  destruct (proxy_race_safe demo_cfg 0 (start (new_db [])) 6 logins_world demo_env 1 race_req 0 late_stop
              2 (channel_at 2 (rc_world (race_after late_stop))) Dst 0
              demo_db_inv reach_logins ltac:(discriminate)) as [(s & Es & Hs & _)|Hpost];
    [vm_compute; reflexivity..| |exact Hpost].
  exfalso. apply (f_equal (fmap World._started)) in Es. unfold fmap at 2, option_fmap, option_map in Es.
  rewrite Hs in Es. vm_compute in Es. discriminate Es.
Defined.

(** In the window the race is lost: the destination stops after it has been
    found running, its [stop] tells the new channel to stop, the strand runs
    that call while the channel is not started yet, so it does nothing, and
    then the channel is started.  Its destination is not running and has
    forgotten it, and no [stop] is posted. *)
Definition in_the_window : list move :=
  replicate 5 MReq ++ replicate 4 MStop ++ [MRun 2; MReq; MReq].

Theorem proxy_race_lost :
  let w := rc_world (race_after in_the_window) in
  let ch := channel_at 2 w in
  rc_req (race_after in_the_window) = RDone (Ok tt) /\ rc_stop (race_after in_the_window) = SDone /\
  channels w !! 2%nat = Some ch /\ ch_started ch = true /\ stop_posts ch = 0%nat /\
  _owner_ss (_dst_end ch) = Some 0%nat /\
  World._started (session_at 0 w) = false /\ _dst_channels (session_at 0 w) = ∅ /\ ~ stop_pending w 2.
Proof.
  split_and!; try by vm_compute. intros (w' & ch' & E & _). vm_compute in E. discriminate E.
Qed.

(** When the destination has stopped before it is entered, the request ends
    without any answer: the channel is gone, and dead entries are left of it in
    the requester's map and even in that of the stopped session. *)
Theorem proxy_race_silent :
  let st := race_after (replicate 3 MReq ++ replicate 4 MStop ++ replicate 2 MReq) in
  rc_req st = RDone (Ok tt) /\ rc_stop st = SDone /\ channels (rc_world st) !! 2%nat = None /\
  posts (session_at 1 (rc_world st)) = posts (session_at 1 logins_world) /\
  _src_channels (session_at 1 (rc_world st)) = {[ 1 := 2%nat ]} /\
  _dst_channels (session_at 0 (rc_world st)) = {[ 1 := 2%nat ]}.
Proof. split_and!; by vm_compute. Qed.
