(* ===== verification/Incidents.v ===== *)
(** * Runs that show weaknesses

    Behaviour of the code that its authors hardly intended, each shown on a
    handler or on a concrete run of the program. *)
From S2P Require Import Prelude Protocol SafeContainers SessionStore SessionDb World SessionOut Channel SessionMgr Session Server Scenario SessionMachine.

(** A login as SERVER or ANYONE on a connection whose peer address can no
    longer be read is refused, but what it entered is not taken back: the GUID
    stays in use and the id stays in the directory. *)
Theorem login_endpoint_leak `{SessionStore D} (w : World D) r s :
  sessions w !! r = Some s -> is_server (_session_type s) = true -> sock_remote s = None ->
  _guid s ∉ _guid_set (mgr w) -> _ss_map (mgr w) !! _session_id (mgr w) = None ->
  let '(ok, w') := onSessionLogin r w in
  ok = false /\ _guid s ∈ _guid_set (mgr w') /\
  _ss_map (mgr w') !! _session_id (mgr w) = Some r /\
  st_view (_ss_db (mgr w')) = st_view (_ss_db (mgr w)).
Proof.
  intros Es Ht Hr Hg Hm. unfold onSessionLogin, guid_insert, CSafeSet.insert. rewrite Es.
  rewrite decide_False by done. simpl. rewrite Ht. unfold addSessionWithLock. simpl.
  rewrite Hm. simpl. rewrite Hr. split_and!; [done|set_solver|apply lookup_insert_eq|done].
Qed.

(** The peer of session 0 disappears while its login packet is being read; the
    same GUID is then refused on a new connection, although nobody is logged
    in, also after the first session is gone. *)
Definition lost_peer : list event :=
  [accept_from 0; EvPeerGone 0] ++ login_packet 0 (lit "srv") SESSIONTYPE.SERVER
  ++ [EvRead 0 true [] [] demo_env; accept_from 1] ++ login_packet 1 (lit "srv") SESSIONTYPE.SERVER.

Lemma login_endpoint_leak_witness :
  (let w := after [accept_from 0; EvPeerGone 0] demo_init in
   let w := upd_session 0 (set_login (lit "srv") 0 SESSIONTYPE.SERVER) w in
   let '(ok, w') := onSessionLogin 0 w in ok = false /\ lit "srv" ∈ _guid_set (mgr w')) /\
  _logined (session_at 1 (after lost_peer demo_init)) = false.
Proof.
  split; [|vm_compute; reflexivity].
  cbv zeta. set (w := upd_session 0 _ _).
  pose proof (login_endpoint_leak w 0 (session_at 0 w) ltac:(vm_compute; reflexivity)
    ltac:(vm_compute; reflexivity) ltac:(vm_compute; reflexivity)
    ltac:(change (_guid_set (mgr w)) with (∅ : gset bytes); set_solver) ltac:(vm_compute; reflexivity)) as Hl.
  destruct (onSessionLogin 0 w) as [ok w']. destruct Hl as (-> & Hg & _).
  split; [done|]. exact Hg.
Defined.

(** A GUID can be lost to a session that timed out: the timer stops the session
    when the login packet has already arrived; the login is carried out
    nevertheless, on a session that is off, and nothing releases the GUID
    again. *)
Definition late_login : list event :=
  [accept_from 0; EvRead 0 false (hdr_bytes (req_hdr FUNC_REQ.LOGIN 9)) [] demo_env;
   EvTimerFire 0; EvTimeout 0;
   EvRead 0 false (login_body (lit "cli") 0 [Z_byte SESSIONTYPE.CLIENT]) [] demo_env;
   EvPost 0; EvWrite 0 true; EvSessionGone 0].

Theorem late_login_keeps_guid :
  exists w, run late_login demo_init = Some (Ok tt, w) /\
    sessions w = ∅ /\ _conn_num w = 0 /\ lit "cli" ∈ _guid_set (mgr w) /\
    _logined (session_at 1 (after ([accept_from 1] ++ login_packet 1 (lit "cli") SESSIONTYPE.CLIENT) w)) = false.
Proof.
  exists (after late_login demo_init). split_and!; [vm_compute; reflexivity..| |vm_compute; reflexivity].
  apply (bool_decide_eq_true_1 _). vm_compute. reflexivity.
Qed.

(** A refused login still sets the type of the session, and the type alone
    decides about PROXY requests: session 2 fails to log in with a GUID that is
    taken and is given a channel to session 0 all the same. *)
Definition uninvited : list event :=
  two_logins ++ [accept_from 2] ++ login_packet 2 (lit "cli") SESSIONTYPE.CLIENT ++ proxy_packet 2 0 1000.

Theorem failed_login_may_proxy :
  exists w, run uninvited demo_init = Some (Ok tt, w) /\
    _logined (session_at 2 w) = false /\ _src_channels (session_at 2 w) !! 1 = Some 3%nat /\
    ch_started (channel_at 3 w) = true.
Proof. exists (after uninvited demo_init). split_and!; vm_compute; reflexivity. Qed.

(** A login packet with a length byte of 0xff, sent by a client that is logged
    in and has no message under way, throws out of the read handler; the
    session loses its last reference while it is started, and its destructor
    throws as well, which ends the program. *)
Definition poison : list event :=
  [accept_from 0] ++ login_packet 0 (lit "cli") SESSIONTYPE.CLIENT
  ++ [EvPost 0; EvWrite 0 false; EvTimeout 0]
  ++ packet 0 FUNC_REQ.LOGIN [Init.Byte.xff; Init.Byte.x00; Init.Byte.x00; Init.Byte.x00; Init.Byte.x00]
  ++ [EvSessionGone 0].

Theorem poison_packet_kills_server :
  (exists w, run (take 8 poison) demo_init = Some (Throw length_error, w)) /\
  (exists w, run poison demo_init = Some (Throw bad_weak_ptr, w)).
Proof.
  split; eexists; vm_compute; reflexivity.
Qed.

(** A packet without a body ends the session: [transfer_exactly(0)] completes
    with zero bytes, which [onReadBody] takes for a failure.  A heartbeat sent
    as a bare header therefore disconnects its sender. *)
Theorem empty_body_stops_session `{SessionStore D} (w : World D) env r s tail :
  sessions w !! r = Some s -> reads s = [ReadBody 0] ->
  read_complete env r false [] tail w =
    Some (Ok tt, CSession_stop r (upd_session r (fun s => set_reads [] (set_rbuf (_hdr s) (_rbuf s ++ []) s)) w)).
Proof.
  intros Es Er. unfold read_complete. rewrite Es. simpl. rewrite Er. simpl.
  unfold onReadBody. simpl. rewrite lookup_alter_eq, Es. simpl. done.
Qed.

Lemma empty_body_example :
  _started (session_at 0 (after (packet 0 FUNC_REQ.HEARTBEAT []) logins_world)) = false.
Proof. vm_compute. reflexivity. Qed.
